(* ===== verification/_CoqProject ===== *)
-Q . S2P
Prelude.v
SizeClass.v
Locks.v
Chunk.v
Os.v
OsSpec.v
Blocks.v
ChunkProof.v
ChunkSpec.v
Heap.v
PageUnit.v
PageSpec.v
PageRace.v
HeapInv.v
Pools.v
PoolProof.v
PoolSpec.v
Api.v
ApiProof.v
ApiSpec.v
GrayQueue.v
Sweep.v
SweepProof.v
SweepPage.v
Collect.v
CollectProof.v
CollectSpec.v
Mark.v
MarkProof.v
ParallelMark.v
ParallelProof.v
Cycle.v
CycleProof.v
Frames.v
CycleSpec.v
ParallelSpec.v
Barrier.v
BarrierSpec.v
Context.v
ContextSpec.v
System.v
SystemSpec.v
Trigger.v
Chain.v
LocalWork.v
