(* ===== verification/Prelude.v ===== *)
(** * woomem: a verification development

    woomem is a memory manager with a concurrent mark-and-sweep collector.  The program
    reserves one range of addresses (the chunk), hands out 32 KiB pages of it, cuts pages into
    units of a size class, gives units to the threads, and reclaims the units that a
    collection does not find marked.  This development models its sources under [src/]
    and proves what makes the parts, and their composition, correct.

    ** Parts of the program and where they are modelled

    - [src/src/woomem_page_unit_alloc.hpp] (size groups and tables): [SizeClass].
    - [src/src/woomem_rwlock.hpp], [src/src/woomem_lock.hpp]: [Locks], modules [RWLock] and [Spinlock],
      as step relations with one atomic access per step for any number of threads.
    - [src/src/woomem_chunk.cpp], [woomem_chunk.hpp], [woomem_page.hpp], [woomem_os_mmap_unix.c]:
      [Chunk] holds the page allocator on its four side arrays; [Blocks] the abstract
      specification (a row of blocks with first fit, release with coalescing, ownership) and the
      theory of linked lists in arrays; [ChunkProof] the refinement; [ChunkSpec] the properties.
    - [woomem_os_mmap_unix.c] (both branches), [woomem_os_mmap_win32.c], [woomem_os_mmap.h]: [Os] has an abstract
      address space, the interface [OsOps] with its laws [OsMemory], the three variants over system calls with their documented behaviour
      ([UnixLaws], [Win32Laws]), and that each implements the interface; [OsSpec] the chunk as its client, and a
      concrete kernel.
    - [woomem_page_unit_alloc.hpp] and [.cpp], the chain of [woomem_global_context.cpp]:
      [Heap] (unit headers, unit-allocator headers, the shared state [World], the chain),
      [PageUnit] (operations of a page and their specification), [PageSpec].  [PageRace] is one page as a step
      relation between the thread that allocates from it, the worker that sweeps it, and the pools.
    - [HeapInv]: the invariant that ties chunk, pages and units together.
    - [woomem_global_page_collection.hpp], [woomem_thread_page_collection.hpp]: [Pools], [PoolProof],
      [PoolSpec].  A thread gets its pages through the class [PageSource]; the thread's theorems are proved
      against [PageSourceLaws], which the global pools implement ([global_pages_laws]).
    - [woomem.cpp] (allocation, publication, reallocation, validation): [Api], [ApiProof], [ApiSpec].
    - [woomem_mpsc_queue.hpp]: [GrayQueue], as functions and as a step relation for any
      number of producers and one consumer.
    - [woomem_gc.cpp] (sweeping and distribution of pages): [Sweep] (units, pages, lists),
      [SweepProof], [SweepPage], [Collect] (steps 6 and 7 of the main loop), [CollectProof], [CollectSpec].
    - [woomem_gc.cpp] and the marking calls of [woomem.cpp]: [Mark] (gray units, scanning, the workers of a marking
      phase), [MarkProof] (the tri-colour invariant [marking]), [Cycle] (one iteration of the main loop), [CycleProof], [CycleSpec].
    - The same marking phase with all workers, and threads that mark meanwhile, in any interleaving: [ParallelMark], [ParallelProof],
      [ParallelSpec].
    - [woomem_gc.cpp] (threads that hand units and roots to a worker, which drains): [LocalWork].
    - [woomem_gc.cpp] (the barrier between main thread, workers and destructor): [Barrier], a step relation for any
      number of workers with the mutex, the condition variable and its sleepers; [BarrierSpec].
    - [woomem_global_context.cpp], [woomem_thread_context.cpp], [woomem_init], [woomem_shutdown], construction of
      [GC]: [Context], [ContextSpec].
    - [woomem_gc.cpp] ([trigger_gc], registration of the workers): [Trigger], modules [Trigger] and [Register].
    - [woomem_global_context.cpp], [woomem_gc.cpp] (the chain of pages under interference, and what becomes of what the
      collector takes from it): [Chain].
    - All of it in one state: [System] (initialisation, the requests of a program, the specification of their
      answers on the units the program has), [SystemSpec].  [Frames] shows what allocation and collections leave as it was.

    ** How the code is translated

    An operation is a function in a state and error monad [M] ([Prelude]): it either
    returns a value and a new state or fails with a [fault]: a failed [assert] (only if the build has
    assertions, class [Build]), an index outside an array, an access to memory without a
    header, or a loop that outlives its fuel.  Theorems about operations are
    statements [wp m Q s]: the run of [m] from [s] ends without a fault in a result and state that satisfy
    [Q]; so each of them contains termination and the absence of faults.  Integers are [Z] with the
    wrap-around of their width written out ([u8], [u16], [u32], [u64]).  Memory is typed: page headers,
    unit-allocator headers and unit headers are maps keyed by address.  System calls ([mmap], [mprotect])
    are the class [Kernel], and the contents of fresh memory the class [RawMemory]; both
    are parameters.

    ** Fuel

    Loops over arrays and lists recurse on the array or list.  The walks of the free list get the
    number of pages as fuel and every proof shows that the walk ends before; the search of a thread for
    a unit gets the length of its pool plus one, since every retry takes a page out of the pool or a new page;
    the walks of the page chain get one more than the number of page headers; a worker's marking loop gets the number of
    unit headers, since each unit is scanned once.

    ** What the theorems show

    - Chunk: every execution on a kernel that refuses no commit keeps a coalesced row of blocks that tile the pages;
      allocation is first fit where the kernel grants the commits and a bad access where it refuses the first page (the
      source does not test for it), freeing is release with merging, [validate] answers ownership.
    - Locks and queue: mutual exclusion and refinement of the abstract lock; the queue is FIFO, race free on its slots, and loses
      nothing, in every interleaving.
    - Pages, pools and interface: an allocation returns a unit that nobody else has and that holds the
      request, a reallocation copies the payload before it publishes the new unit, a published unit validates from
      each of its addresses, pages are in one place at a time.
    - Sweep phase, with a page in the chain or workers without old lists: survivors stay, everything else is given back, the callback and the
      accounting are exact; pages are distributed evenly.
    - Marking and collections: marking computes exactly the units that can be reached from the roots and the
      callbacks, through payload words and marking callbacks, and ends for every object graph; a collection keeps
      those units and gives back the others by the rules of the sweep.
    - Local work: it is used by one thread at a time as long as roots are marked before the workers are launched, no
      unit is lost, and a thread can always hand its unit over before the worker starts.
    - Interleavings of a collection: whatever the order in which the workers of a marking phase and the marking threads run, no worker
      faults, the phase ends, and its result is that of the workers one after the other; while a page is swept and
      allocated from, no unit is lost or handed out twice and the page is in one place.
    - Memory interface: its three variants implement one specification of address space; a chunk has access to the
      pages it has committed and gives back exactly what it reserved.
    - The whole: after initialisation every sequence of legal requests, with the marking and the sweeping of collections among them,
      runs without a fault and is answered as the specification demands: no unit that could be reached at the time of marking is lost, nor
      one allocated since; this composes the theorems on all the components.
    - Phases: the workers go through the phases in order, each once; a launch returns and the
      destructor ends in every schedule (without spurious wake-ups for liveness, with them for safety).
    - Life cycle: initialisation establishes the invariant of the heap, a failed one can be repeated, threads
      come and go without breaking it.  A page that is pushed on the chain is never lost: it is in the chain, in what
      the collector has taken, in hand, or being pushed.
    - Conditions that recur, each named in the theorems: [commits_granted] (the kernel refuses no commit), sizes that do not
      wrap with the headers and the rounding, and [lists_fresh] (a page in the chain, or no old lists), for which
      [SystemSpec] has a condition on the program: it has a unit, or no collection has swept.
    - Findings (each a theorem about concrete runs): sizes near 2^64 wrap in [allocate_huge_page] and
      [woomem_allocate_begin]; a failed commit is recorded as done; a detached thread keeps its pages;
      a collection that finds no page sweeps stale lists; a page emptied in a pool is lost, and so is one
      whose owner runs out of it while it is swept; a queue of capacity one loses items; a second initialisation starts from stale pages; a synchronous trigger can
      miss its notification; a worker's marking context can be overwritten; the launch state is
      reset without its mutex; a root that is marked after the launch is pushed while the worker uses the vector.

    ** What is not modelled

    What programs write into payloads: marking reads words, given as a parameter, that do not change while it runs, and
    of the bytes only the copy of [woomem_reallocate] is modelled.  The user's callbacks, which are parameters; the tests.
    Step relations, with one shared access per step, are given for the locks, the gray queue, the local work, the chain, the
    barrier, the triggers, a marking phase, and a page between its owner and its sweeper; memory is sequentially
    consistent in all of them.  The other operations are modelled as run without interference, so a compare-exchange
    loop is its uncontended iteration there.  In [System] the marking of a collection is one step and its sweep
    another, with any requests between them; what programs do during marking or during the sweep is covered by [PageRace],
    [LocalWork] and [ParallelMark], each for its part; the write barrier that programs need which change
    references while units are marked is theirs, not the library's. *)

From Stdlib Require Export Sorted.
From Stdlib Require Import Wellfounded.
From stdpp Require Export base list gmap numbers ssreflect.
#[export] Set Default Goal Selector "!".
#[global] Set Warnings "-notation-overridden,-rewrite-rw,-clear-no-such-hyp".
Coercion Z.of_nat : nat >-> Z.

(** ** Outcomes: what running a piece of the C++ code can do *)

(** A failed [assert], an array index outside its array, a load or store that
    hits memory which is not mapped, and a loop that did not finish within its
    fuel.  Every functional theorem of the development rules all four out. *)
Inductive fault := AssertFailed | OutOfBounds | BadAccess | OutOfFuel.

#[export] Instance fault_eq_dec : EqDecision fault.
Proof. solve_decision. Defined.

Inductive res (A : Type) :=
| Ok (a : A)
| Fail (f : fault).
Arguments Ok {A} a.
Arguments Fail {A} f.

(** Whether the sources are compiled with [NDEBUG] (then [assert] vanishes). *)
Class Build := { ndebug : bool }.

(** ** The state and error monad the operations are written in *)

Definition M (S A : Type) : Type := S → res (A * S).

#[export] Instance M_ret S : MRet (M S) := λ A a s, Ok (a, s).
#[export] Instance M_bind S : MBind (M S) := λ A B f m s,
  match m s with
  | Ok (a, s') => f a s'
  | Fail e => Fail e
  end.

Definition gets {S A} (f : S → A) : M S A := λ s, Ok (f s, s).
Definition modify {S} (f : S → S) : M S unit := λ s, Ok (tt, f s).
Definition throw {S A} (e : fault) : M S A := λ _, Fail e.

Definition of_option {S A} (e : fault) (o : option A) : M S A :=
  match o with Some a => mret a | None => throw e end.

(** [assert(b)]. *)
Definition assert_ {S} `{Build} (b : bool) : M S unit :=
  if ndebug then mret tt else if b then mret tt else throw AssertFailed.

(** [for (j = lo; j < lo + n; ++j) body(j)]. *)
Fixpoint for_range {S} (lo : Z) (n : nat) (body : Z → M S unit) : M S unit :=
  match n with
  | O => mret tt
  | S n' => body lo ;; for_range (lo + 1) n' body
  end.

(** ** Arrays indexed by machine integers *)

Definition rd {A} (l : list A) (i : Z) : option A :=
  if decide (0 ≤ i)%Z then l !! Z.to_nat i else None.
Definition wr {A} (l : list A) (i : Z) (v : A) : list A := <[Z.to_nat i := v]> l.

(** ** Fixed-width unsigned arithmetic *)

Definition u8 (z : Z) : Z := (z mod 2 ^ 8)%Z.
Definition u16 (z : Z) : Z := (z mod 2 ^ 16)%Z.
Definition u32 (z : Z) : Z := (z mod 2 ^ 32)%Z.
Definition u64 (z : Z) : Z := (z mod 2 ^ 64)%Z.

(** ** Counting *)

Fixpoint count_if {A} (f : A → bool) (l : list A) : Z :=
  match l with
  | [] => 0
  | x :: l' => (Z.b2z (f x) + count_if f l')%Z
  end.

(** ** Total correctness of a run *)

(** [wp m Q s]: run from [s], [m] meets no fault and ends with a result and a
    state that satisfy [Q]. *)
Definition wp {S A} (m : M S A) (Q : A → S → Prop) (s : S) : Prop :=
  match m s with Ok (a, s') => Q a s' | Fail _ => False end.

(** ** Rules of [wp] *)

Section wp_rules.
Context {S : Type}.
Implicit Types s : S.

Lemma wp_ret {A} (a : A) (Q : A → S → Prop) s : Q a s → wp (mret a) Q s.
Proof. done. Qed.

Lemma wp_bind {A B} (m : M S A) (f : A → M S B) Q s :
  wp m (λ a s', wp (f a) Q s') s → wp (m ≫= f) Q s.
Proof. rewrite /wp /mbind /M_bind. destruct (m s) as [[a s']|]; done. Qed.

Lemma wp_mono {A} (m : M S A) (Q Q' : A → S → Prop) s :
  wp m Q s → (∀ a s', Q a s' → Q' a s') → wp m Q' s.
Proof. rewrite /wp. destruct (m s) as [[a s']|]; auto. Qed.

Lemma wp_seq {A B} (m : M S A) (f : A → M S B) (R : A → S → Prop) Q s :
  wp m R s → (∀ a s', R a s' → wp (f a) Q s') → wp (m ≫= f) Q s.
Proof. intros Hm Hf. apply wp_bind. by eapply wp_mono. Qed.

(** What follows a run that returns decides the outcome of the whole. *)
Lemma wp_result {A B} (m : M S A) (f : A → M S B) (R : A → S → Prop) (Φ : res (B * S) → Prop) s :
  wp m R s → (∀ a s', R a s' → Φ (f a s')) → Φ ((m ≫= f) s).
Proof. rewrite /wp /mbind /M_bind. destruct (m s) as [[a s']|]; [|done]. auto. Qed.

Lemma M_assoc {A B C} (m : M S A) (f : A → M S B) (g : B → M S C) s :
  ((m ≫= f) ≫= g) s = (m ≫= λ a, f a ≫= g) s.
Proof. rewrite /mbind /M_bind. by destruct (m s) as [[a s']|]. Qed.

Lemma wp_assoc {A B C} (m : M S A) (f : A → M S B) (g : B → M S C) Q s :
  wp ((m ≫= f) ≫= g) Q s → wp (m ≫= λ x, f x ≫= g) Q s.
Proof. rewrite /wp /mbind /M_bind. by destruct (m s) as [[a s']|]. Qed.

Lemma wp_gets {A} (f : S → A) (Q : A → S → Prop) s : Q (f s) s → wp (gets f) Q s.
Proof. done. Qed.

Lemma wp_modify (f : S → S) (Q : unit → S → Prop) s : Q tt (f s) → wp (modify f) Q s.
Proof. done. Qed.

Lemma wp_of_option {A} e (o : option A) (a : A) (Q : A → S → Prop) s :
  o = Some a → Q a s → wp (of_option e o) Q s.
Proof. by intros ->. Qed.

Lemma wp_assert `{Build} (b : bool) (Q : unit → S → Prop) s :
  b = true → Q tt s → wp (assert_ b) Q s.
Proof. intros -> HQ. rewrite /wp /assert_. by destruct ndebug. Qed.

(** The rule of a counted loop: an invariant indexed by the loop variable. *)
Lemma wp_for_range (I : Z → S → Prop) (lo : Z) (n : nat) (body : Z → M S unit)
    (Q : unit → S → Prop) s :
  I lo s →
  (∀ j s', (lo ≤ j < lo + n)%Z → I j s' → wp (body j) (λ _, I (j + 1)%Z) s') →
  (∀ s', I (lo + n)%Z s' → Q tt s') →
  wp (for_range lo n body) Q s.
Proof.
  revert lo s. induction n as [|n IH]; intros lo s HI Hbody HQ.
  { simpl. apply wp_ret, HQ. by rewrite Z.add_0_r. }
  simpl. eapply wp_seq; [apply (Hbody lo s); [lia|done]|].
  intros [] s' HI'. apply IH; [done| |].
  - intros j s'' Hj. apply Hbody. lia.
  - intros s'' HI''. apply HQ. by replace (lo + Datatypes.S n)%Z with (lo + 1 + n)%Z by lia.
Qed.

(** A run that satisfies a postcondition is a run that returns. *)
Lemma wp_run {A} (m : M S A) (Q : A → S → Prop) s :
  wp m Q s → ∃ a s', m s = Ok (a, s') ∧ Q a s'.
Proof. rewrite /wp. destruct (m s) as [[a s']|]; [eauto|done]. Qed.

(** A run with a known result and a known final state. *)
Lemma wp_exact {A} (m : M S A) s a s' :
  wp m (λ x t, x = a ∧ t = s') s → m s = Ok (a, s').
Proof. intros (? & ? & -> & -> & ->)%wp_run. done. Qed.

Lemma wp_det {A} (m : M S A) (Q : A → S → Prop) s a s' :
  wp m Q s → m s = Ok (a, s') → Q a s'.
Proof. rewrite /wp. intros H Hm. by rewrite Hm in H. Qed.

Lemma wp_and {A} (m : M S A) (Q1 Q2 : A → S → Prop) s :
  wp m Q1 s → wp m Q2 s → wp m (λ a s', Q1 a s' ∧ Q2 a s') s.
Proof. rewrite /wp. by destruct (m s) as [[a s']|]. Qed.
End wp_rules.

(** ** What a run leaves as it was *)

(** Every run of [m] that returns relates its states by the preorder [R]. *)
Definition respects {S A} (R : relation S) (m : M S A) : Prop := ∀ s a s', m s = Ok (a, s') → R s s'.

Lemma wp_respects {S A} (R : relation S) (m : M S A) (Q : A → S → Prop) s :
  respects R m → wp m Q s → wp m (λ a s', Q a s' ∧ R s s') s.
Proof. intros HR. rewrite /wp. destruct (m s) as [[a s']|] eqn:E; [|done]. intros HQ. split; [done|]. by eapply HR. Qed.

(** In particular [m] keeps what [f] sees of the state. *)
Definition sees {S B} (f : S → B) : relation S := λ s s', f s' = f s.

#[export] Instance sees_preorder {S B} (f : S → B) : PreOrder (sees f).
Proof. split; [by intros s|]. intros s1 s2 s3 H1 H2. by rewrite /sees H2 H1. Qed.

Section respects.
Context {S : Type} (R : relation S) `{!PreOrder R}.

Lemma respects_ret {A} (a : A) : respects R (mret a).
Proof. intros s b s' [= <- <-]. reflexivity. Qed.

Lemma respects_bind {A B} (m : M S A) (f : A → M S B) :
  respects R m → (∀ a, respects R (f a)) → respects R (m ≫= f).
Proof.
  intros Hm Hf s b s'. rewrite /mbind /M_bind. destruct (m s) as [[a s1]|] eqn:E; [|done].
  intros E'. etrans; [by eapply Hm|by eapply Hf].
Qed.

Lemma respects_gets {A} (f : S → A) : respects R (gets f).
Proof. intros s b s' [= <- <-]. reflexivity. Qed.

Lemma respects_throw {A} e : respects R (@throw S A e).
Proof. by intros s b s'. Qed.

Lemma respects_of_option {A} e (o : option A) : respects R (of_option e o).
Proof. destruct o; [apply respects_ret|apply respects_throw]. Qed.

Lemma respects_assert `{Build} (b : bool) : respects R (assert_ b).
Proof. rewrite /assert_. destruct ndebug, b; try apply respects_ret; apply respects_throw. Qed.

Lemma respects_modify (f : S → S) : (∀ s, R s (f s)) → respects R (modify f).
Proof. intros Hf s b s' [= <- <-]. apply Hf. Qed.
End respects.

(** ** Reads and writes of arrays *)

Section arrays.
Context {A : Type}.
Implicit Types (l : list A) (i j : Z).
Open Scope Z_scope.

Lemma rd_in l i : 0 ≤ i < length l → ∃ v, rd l i = Some v.
Proof.
  intros Hi. rewrite /rd decide_True; [|lia].
  destruct (lookup_lt_is_Some_2 l (Z.to_nat i)) as [v Hv]; [lia|eauto].
Qed.

Lemma rd_lt l i v : rd l i = Some v → 0 ≤ i < length l.
Proof.
  rewrite /rd. case_decide; [|done]. intros Hl%lookup_lt_Some. lia.
Qed.

Lemma length_wr l i v : length (wr l i v) = length l.
Proof. apply length_insert. Qed.

Lemma rd_wr_eq l i v : 0 ≤ i < length l → rd (wr l i v) i = Some v.
Proof.
  intros Hi. rewrite /rd /wr decide_True; [|lia].
  apply list_lookup_insert_eq. lia.
Qed.

Lemma rd_wr_ne l i j v : i ≠ j → 0 ≤ i → rd (wr l i v) j = rd l j.
Proof.
  intros Hne Hi. rewrite /rd /wr. case_decide; [|done].
  apply list_lookup_insert_ne. lia.
Qed.

Lemma rd_wr l i j v :
  0 ≤ i < length l → rd (wr l i v) j = if decide (i = j) then Some v else rd l j.
Proof.
  intros Hi. case_decide; subst; [by apply rd_wr_eq|apply rd_wr_ne; [done|lia]].
Qed.

Lemma rd_replicate n (v : A) i : 0 ≤ i < Z.of_nat n → rd (replicate n v) i = Some v.
Proof. intros Hi. rewrite /rd decide_True; [|lia]. apply lookup_replicate_2. lia. Qed.
End arrays.

(** ** Counting elements of an updated list *)

Section counting.
Context {A : Type} (f : A → bool).
Implicit Types l : list A.
Open Scope Z_scope.

Lemma count_if_bounds l : 0 ≤ count_if f l ≤ length l.
Proof. induction l as [|x l IH]; simpl; [lia|]. destruct (f x); simpl; lia. Qed.

Lemma count_if_insert l i x y :
  l !! i = Some x → count_if f (<[i := y]> l) = count_if f l - Z.b2z (f x) + Z.b2z (f y).
Proof.
  revert i. induction l as [|z l IH]; intros [|i] Hi; simplify_eq/=; [lia|].
  rewrite (IH _ Hi). lia.
Qed.

Lemma count_if_pos l i x : l !! i = Some x → f x = true → 1 ≤ count_if f l.
Proof.
  revert i. induction l as [|z l IH]; intros [|i] Hi Hx; simplify_eq/=.
  - rewrite Hx. pose proof (count_if_bounds l). simpl. lia.
  - pose proof (IH _ Hi Hx). destruct (f z); simpl; lia.
Qed.

Lemma count_if_zero l i x : count_if f l = 0 → l !! i = Some x → f x = false.
Proof.
  intros H0 Hi. destruct (f x) eqn:E; [|done].
  pose proof (count_if_pos l i x Hi E). lia.
Qed.

Lemma count_if_replicate n x : f x = false → count_if f (replicate n x) = 0.
Proof. intros Hx. induction n as [|n IH]; simpl; [done|]. rewrite Hx IH. done. Qed.

Lemma count_if_fmap {B} (h : B → A) (l : list B) : count_if f (h <$> l) = count_if (λ x, f (h x)) l.
Proof. induction l as [|x l IH]; simpl; [done|]. by rewrite IH. Qed.

Lemma count_if_ext (h : A → bool) l : (∀ x, f x = h x) → count_if f l = count_if h l.
Proof. intros E. induction l as [|x l IH]; simpl; [done|]. by rewrite E IH. Qed.

Lemma count_if_none l : (∀ i x, l !! i = Some x → f x = false) → count_if f l = 0.
Proof.
  induction l as [|x l IH]; intros Hl; simpl; [done|]. rewrite (Hl 0%nat x eq_refl) IH; [done|].
  intros i. apply (Hl (S i)).
Qed.

Lemma count_if_exists l : 0 < count_if f l → ∃ i x, l !! i = Some x ∧ f x = true.
Proof.
  induction l as [|y l IH]; simpl; [lia|]. destruct (f y) eqn:E.
  - intros _. by exists 0%nat, y.
  - intros (i & x & Hi & Hx)%IH. by exists (S i), x.
Qed.

Lemma count_if_all l i x : count_if f l = length l → l !! i = Some x → f x = true.
Proof.
  revert i. induction l as [|y l IH]; intros i Hc Hi; [done|]. simpl in Hc.
  pose proof (count_if_bounds l). destruct (f y) eqn:E; simpl in Hc; [|lia].
  destruct i as [|i]; simplify_eq/=; [done|]. apply (IH i); [lia|done].
Qed.

(** At most one element counts: two positions that count are the same. *)
Lemma count_if_unique l i j x y :
  count_if f l ≤ 1 → l !! i = Some x → l !! j = Some y → f x = true → f y = true → i = j.
Proof.
  revert i j. induction l as [|z l IH]; intros [|i] [|j] H1 Hi Hj Hx Hy; simplify_eq/=; try done.
  - pose proof (count_if_pos l j y Hj Hy). rewrite Hx /= in H1. lia.
  - pose proof (count_if_pos l i x Hi Hx). rewrite Hy /= in H1. lia.
  - f_equal. eapply IH; eauto. destruct (f z); simpl in H1; lia.
Qed.
End counting.

Lemma sum_list_with_insert {A} (f : A → nat) (l : list A) i x y :
  l !! i = Some x → (sum_list_with f (<[i := y]> l) + f x = sum_list_with f l + f y)%nat.
Proof.
  revert i. induction l as [|z l IH]; intros [|i] Hi; simplify_eq/=; [lia|].
  pose proof (IH _ Hi). lia.
Qed.

(** ** Unsigned arithmetic that does not wrap *)

Lemma u8_small z : (0 ≤ z < 2 ^ 8)%Z → u8 z = z.
Proof. apply Z.mod_small. Qed.
Lemma u16_small z : (0 ≤ z < 2 ^ 16)%Z → u16 z = z.
Proof. apply Z.mod_small. Qed.
Lemma u32_small z : (0 ≤ z < 2 ^ 32)%Z → u32 z = z.
Proof. apply Z.mod_small. Qed.
Lemma u64_small z : (0 ≤ z < 2 ^ 64)%Z → u64 z = z.
Proof. apply Z.mod_small. Qed.

(** A decidable fact about a bounded range, checked by evaluation. *)
Lemma forallb_seqZ (f : Z → bool) (n : Z) :
  forallb f (seqZ 0 n) = true → ∀ i, (0 ≤ i < n)%Z → f i = true.
Proof.
  intros Hf i Hi. eapply forallb_forall; [exact Hf|].
  apply list_elem_of_In, elem_of_seqZ. lia.
Qed.

(** ** Liveness of step relations *)

(** Lexicographic order on triples. *)
Definition lower (a b : nat * nat * nat) : Prop :=
  (a.1.1 < b.1.1 ∨ (a.1.1 = b.1.1 ∧ (a.1.2 < b.1.2 ∨ (a.1.2 = b.1.2 ∧ a.2 < b.2))))%nat.

Lemma lower_wf : well_founded lower.
Proof.
  intros [[a b] c]. revert b c. induction (lt_wf a) as [a _ IHa]. intros b. induction (lt_wf b) as [b _ IHb].
  intros c. induction (lt_wf c) as [c _ IHc]. constructor. intros [[a' b'] c'].
  rewrite /lower /=. intros [?|[-> [?|[-> ?]]]]; auto.
Qed.

Section liveness.
Context {S : Type} (step : S → S → Prop).

(** [P] holds now, or some thread can run and [P] is inevitable after each step. *)
Inductive inevitably (P : S → Prop) (s : S) : Prop :=
| inevitable_now : P s → inevitably P s
| inevitable_later : (∃ s', step s s') → (∀ s', step s s' → inevitably P s') → inevitably P s.

(** Every step from a state of [J] outside [P] lowers the rank and stays in [J]. *)
Lemma inevitably_rank (rank : S → nat * nat * nat) (J P : S → Prop) s :
  (∀ t, J t → P t ∨ ((∃ t', step t t') ∧ ∀ t', step t t' → J t' ∧ lower (rank t') (rank t))) →
  J s → inevitably P s.
Proof.
  intros Hstep. induction (wf_inverse_image _ _ _ rank lower_wf s) as [s _ IH]. intros HJ.
  destruct (Hstep s HJ) as [|[Hex Hnext]]; [by left|]. right; [done|].
  intros t Ht. destruct (Hnext t Ht) as [HJ' Hr]. by apply IH.
Qed.

Lemma inevitably_mono (P Q : S → Prop) s : (∀ t, P t → Q t) → inevitably P s → inevitably Q s.
Proof. intros HPQ He. induction He as [s Hs|s Hs _ IH]; [left; auto|by right]. Qed.

Lemma inevitably_stable (P I : S → Prop) s :
  (∀ t t', I t → step t t' → I t') → I s → inevitably P s → inevitably (λ t, P t ∧ I t) s.
Proof.
  intros HI Hs He. induction He as [s HP|s Hex _ IH]; [by left|]. right; [done|]. eauto.
Qed.
End liveness.

(** ** Automation *)

Lemma concat_nils {A} n : concat (replicate n (@nil A)) = [].
Proof. by induction n. Qed.

Create HintDb woomem.
Create HintDb frames.
#[export] Hint Resolve wp_ret wp_gets wp_modify : woomem.
Create Rewrite HintDb woomem_arr.
#[export] Hint Rewrite @length_wr : woomem_arr.

(** Steps through the sequencing and the pure reads of a monadic body. *)
Ltac wp_step :=
  match goal with
  | |- wp (mbind _ _) _ _ => apply wp_bind
  | |- wp (mret _) _ _ => apply wp_ret
  | |- wp (gets _) _ _ => apply wp_gets
  | |- wp (modify _) _ _ => apply wp_modify
  end.
Ltac wp_steps := repeat (wp_step; cbn beta).

(** Steps through a body for a [respects] goal; what is left are the calls. *)
#[export] Hint Resolve respects_ret respects_gets respects_throw respects_of_option respects_assert : frames.
Ltac frame_step :=
  match goal with
  | |- respects _ (mbind _ _) => apply respects_bind; [apply _| |intros ?]
  | |- respects _ (if ?b then _ else _) => destruct b
  | |- respects _ (match ?x with _ => _ end) => destruct x
  | |- respects _ (modify _) => apply respects_modify; intros ?; first [reflexivity | solve [eauto with frames]]
  | |- respects _ _ => solve [eauto with frames typeclass_instances]
  end.
Ltac frames := repeat frame_step.

(** Decides a boolean test of the code from the arithmetic in the context. *)
Ltac bool_test b :=
  first
    [ replace b with true by (symmetry; lia)
    | replace b with false by (symmetry; lia) ].
