(* ===== verification/SizeClass.v ===== *)
(** * Size classes: [src/src/woomem_page_unit_alloc.hpp], lines 14-158

    The unit groups, their payload sizes, the fast lookup table for small
    sizes and [eval_group_by_small_unit_size].  The theorems say that the
    lookup table and the cascade of comparisons compute the least group that
    can hold the requested size, and that every group tiles a page exactly. *)

From S2P Require Import Prelude.
Open Scope Z_scope.

(** ** Constants *)

Definition NORMAL_PAGE_SIZE : Z := 32768.
Definition SIZEOF_PageHead : Z := 24.
Definition SIZEOF_PageUnitAlloc : Z := 8.
Definition SIZEOF_UnitHead : Z := 8.

Definition MAX_SMALL_UNIT_SIZE : Z := 1048.
Definition MAX_IN_PAGE_UNIT_SIZE : Z := 16360.

(** ** Groups *)

Inductive UnitAllocGroup :=
| SMALL_16 | SMALL_40 | SMALL_88 | SMALL_168
| SMALL_344 | SMALL_520 | SMALL_736 | SMALL_1048
| MIDIUM_2720 | MIDIUM_5448 | MIDIUM_8176 | MIDIUM_10904 | MIDIUM_16360.

#[export] Instance UnitAllocGroup_eq_dec : EqDecision UnitAllocGroup.
Proof. solve_decision. Defined.

(** The enumerators in order, so that the position is the C++ value. *)
Definition all_groups : list UnitAllocGroup :=
  [SMALL_16; SMALL_40; SMALL_88; SMALL_168; SMALL_344; SMALL_520; SMALL_736; SMALL_1048;
   MIDIUM_2720; MIDIUM_5448; MIDIUM_8176; MIDIUM_10904; MIDIUM_16360].

Definition group_index (g : UnitAllocGroup) : Z :=
  match g with
  | SMALL_16 => 0 | SMALL_40 => 1 | SMALL_88 => 2 | SMALL_168 => 3
  | SMALL_344 => 4 | SMALL_520 => 5 | SMALL_736 => 6 | SMALL_1048 => 7
  | MIDIUM_2720 => 8 | MIDIUM_5448 => 9 | MIDIUM_8176 => 10
  | MIDIUM_10904 => 11 | MIDIUM_16360 => 12
  end.

Definition MAX_GROUP : Z := 13.

Definition GROUP_SIZE_LOOKUP_TABLE : list Z :=
  [16; 40; 88; 168; 344; 520; 736; 1048; 2720; 5448; 8176; 10904; 16360].

(** [GROUP_SIZE_LOOKUP_TABLE[g]]. *)
Definition group_size (g : UnitAllocGroup) : Z :=
  default 0 (rd GROUP_SIZE_LOOKUP_TABLE (group_index g)).

(** The table of 132 entries, one per eight bytes of size. *)
Definition SMALL_UNIT_GROUP_FAST_LOOKUP_TABLE : list UnitAllocGroup :=
  [SMALL_16] ++
  [SMALL_16; SMALL_16] ++
  replicate 3 SMALL_40 ++
  replicate 6 SMALL_88 ++
  replicate 10 SMALL_168 ++
  replicate 22 SMALL_344 ++
  replicate 22 SMALL_520 ++
  replicate 27 SMALL_736 ++
  replicate 39 SMALL_1048.

(** The macro [WOOMEM_FAST_LOOKUP_GROUP_INDEX]. *)
Definition WOOMEM_FAST_LOOKUP_GROUP_INDEX (size : Z) : Z := Z.shiftr (u64 (size + 7)) 3.

(** [None] is an index outside the table. *)
Definition eval_group_by_small_unit_size (unit_size : Z) : option UnitAllocGroup :=
  if unit_size <=? MAX_SMALL_UNIT_SIZE then
    rd SMALL_UNIT_GROUP_FAST_LOOKUP_TABLE (WOOMEM_FAST_LOOKUP_GROUP_INDEX unit_size)
  else if unit_size <=? group_size MIDIUM_2720 then Some MIDIUM_2720
  else if unit_size <=? group_size MIDIUM_5448 then Some MIDIUM_5448
  else if unit_size <=? group_size MIDIUM_8176 then Some MIDIUM_8176
  else if unit_size <=? group_size MIDIUM_10904 then Some MIDIUM_10904
  else Some MIDIUM_16360.

(** ** Page geometry shared by the allocator, the sweeper and validation *)

Definition unit_size_with_head (g : UnitAllocGroup) : Z := group_size g + SIZEOF_UnitHead.

Definition available_for_units : Z :=
  NORMAL_PAGE_SIZE - (SIZEOF_PageHead + SIZEOF_PageUnitAlloc).

Definition unit_count (g : UnitAllocGroup) : Z := available_for_units / unit_size_with_head g.

(** ** Specification: the least group that holds a size *)

Fixpoint least_group (gs : list UnitAllocGroup) (size : Z) : option UnitAllocGroup :=
  match gs with
  | [] => None
  | g :: gs' => if size <=? group_size g then Some g else least_group gs' size
  end.

(** ** Facts *)

Lemma all_groups_complete g : g ∈ all_groups.
Proof. destruct g; set_solver. Qed.

Lemma rd_all_groups g : rd all_groups (group_index g) = Some g.
Proof. by destruct g. Qed.

Lemma group_index_bounds g : 0 ≤ group_index g < MAX_GROUP.
Proof. destruct g; rewrite /MAX_GROUP /=; lia. Qed.

#[export] Instance group_index_inj : Inj (=) (=) group_index.
Proof. intros [] []; done. Qed.

Lemma group_size_bounds g : 16 ≤ group_size g ≤ MAX_IN_PAGE_UNIT_SIZE.
Proof. destruct g; vm_compute; split; congruence. Qed.

Lemma unit_size_with_head_pos g : 24 ≤ unit_size_with_head g.
Proof. pose proof (group_size_bounds g). rewrite /unit_size_with_head /SIZEOF_UnitHead. lia. Qed.

(** Every group's units fill the 32736 bytes of a page with nothing left over. *)
Lemma units_tile_page g : unit_count g * unit_size_with_head g = available_for_units.
Proof. by destruct g. Qed.

Lemma unit_count_bounds g : 2 ≤ unit_count g ≤ 1364.
Proof. destruct g; vm_compute; split; congruence. Qed.

Lemma eval_group_table size :
  0 ≤ size ≤ MAX_IN_PAGE_UNIT_SIZE →
  eval_group_by_small_unit_size size = least_group all_groups size.
Proof.
  intros Hs.
  assert (bool_decide (eval_group_by_small_unit_size size = least_group all_groups size) = true)
    as Hb; [|by apply bool_decide_eq_true in Hb].
  revert size Hs.
  cut (∀ i, 0 ≤ i < MAX_IN_PAGE_UNIT_SIZE + 1 →
    bool_decide (eval_group_by_small_unit_size i = least_group all_groups i) = true).
  { intros H i Hi. apply H. lia. }
  apply forallb_seqZ. vm_cast_no_check (eq_refl true).
Qed.

Lemma least_group_fits gs size g :
  least_group gs size = Some g → size ≤ group_size g ∧ g ∈ gs.
Proof.
  induction gs as [|g' gs IH]; simpl; [done|].
  destruct (size <=? group_size g') eqn:E.
  - intros [= ->]. split; [lia|constructor].
  - intros [??]%IH. split; [done|by constructor].
Qed.

Lemma least_group_is_least_in gs size g g' :
  StronglySorted (λ a b, group_index a ≤ group_index b) gs →
  least_group gs size = Some g → g' ∈ gs → size ≤ group_size g' →
  group_index g ≤ group_index g'.
Proof.
  induction 1 as [|h gs Hs IH Hh]; simpl; [done|].
  destruct (size <=? group_size h) eqn:E.
  - intros [= ->] [->|Hin]%elem_of_cons _; [lia|].
    rewrite Forall_forall in Hh. by apply Hh.
  - intros Hl [->|Hin]%elem_of_cons Hsz; [lia|auto].
Qed.

Lemma all_groups_sorted : StronglySorted (λ a b, group_index a ≤ group_index b) all_groups.
Proof. repeat constructor; simpl; lia. Qed.

Lemma least_group_is_least size g g' :
  least_group all_groups size = Some g → size ≤ group_size g' → group_index g ≤ group_index g'.
Proof.
  intros Hg. apply (least_group_is_least_in all_groups size g g' all_groups_sorted Hg).
  apply all_groups_complete.
Qed.

Lemma least_group_total size :
  size ≤ MAX_IN_PAGE_UNIT_SIZE → ∃ g, least_group all_groups size = Some g.
Proof.
  intros Hs. rewrite /all_groups /=. repeat (case_match; [eauto|]).
  unfold MAX_IN_PAGE_UNIT_SIZE in Hs. exfalso.
  match goal with H : (_ <=? group_size MIDIUM_16360) = false |- _ => rename H into Hm end.
  change (group_size MIDIUM_16360) with 16360 in Hm. lia.
Qed.

(** ** Properties *)

(** C36: for every size up to [MAX_IN_PAGE_UNIT_SIZE] the lookup stays inside its
    table and [eval_group_by_small_unit_size] returns a group whose units hold
    the size, and no group with a smaller index does. *)
Theorem eval_group_least size (Hsize : 0 ≤ size ≤ MAX_IN_PAGE_UNIT_SIZE) :
  ∃ g, eval_group_by_small_unit_size size = Some g ∧
    size ≤ group_size g ∧
    ∀ g', size ≤ group_size g' → group_index g ≤ group_index g'.
Proof.
  destruct (least_group_total size) as [g Hg]; [lia|].
  exists g. rewrite eval_group_table //. split; [done|]. split.
  - by eapply least_group_fits.
  - intros g'. by apply least_group_is_least.
Qed.

(** The size 41, whose group is [SMALL_88]. *)
Lemma eval_group_least_witness :
  eval_group_by_small_unit_size 41 = Some SMALL_88 ∧
  ∃ g, eval_group_by_small_unit_size 41 = Some g ∧
    41 ≤ group_size g ∧ ∀ g', 41 ≤ group_size g' → group_index g ≤ group_index g'.
Proof.
  split; [reflexivity|]. apply (eval_group_least 41). vm_compute. split; congruence.
Defined.

Lemma eval_group_size g : eval_group_by_small_unit_size (group_size g) = Some g.
Proof. by destruct g. Qed.

(** A page's unit size names its group: evaluating the group of a group's own
    payload size gives the group back, which is how the sweeper finds the pool a
    page returns to. *)
Theorem eval_group_of_group_size g :
  eval_group_by_small_unit_size (group_size g) = Some g.
Proof. apply eval_group_size. Qed.

(** In every group the units fill the page exactly: the last unit ends at the
    page's last byte, so every address of a page's unit area falls in one of the
    [unit_count g] units. *)
Theorem unit_index_in_range g offset (Hoff : 0 ≤ offset < available_for_units) :
  0 ≤ offset / unit_size_with_head g < unit_count g ∧
  unit_count g * unit_size_with_head g = available_for_units.
Proof.
  pose proof (unit_size_with_head_pos g). pose proof (units_tile_page g) as Ht.
  split; [|done]. split; [apply Z.div_pos; lia|].
  apply Z.div_lt_upper_bound; lia.
Qed.

(** The last byte of a page of group [SMALL_16] is in unit 1363 of 1364. *)
Lemma unit_index_in_range_witness :
  0 ≤ 32735 / unit_size_with_head SMALL_16 < unit_count SMALL_16 ∧
  unit_count SMALL_16 * unit_size_with_head SMALL_16 = available_for_units.
Proof. apply (unit_index_in_range SMALL_16 32735). vm_compute. split; congruence. Defined.
