(* ===== verification/Locks.v ===== *)
(** * Locks: [src/src/woomem_rwlock.hpp] and [src/src/woomem_lock.hpp]

    Both locks are modelled at the level of their atomic operations: a state is
    the value of the atomic and the program point of every thread, a step is one
    atomic operation of one thread.  A plain load may return any value (the
    sources use relaxed loads, which may be stale) and a weak compare-exchange
    may fail spuriously. *)

From S2P Require Import Prelude.
Open Scope Z_scope.

(** ** The reader-writer spin lock *)

Module RWLock.

Definition WRITE_LOCKED : Z := Z.shiftl 1 31.
Definition READERS_MASK : Z := Z.lxor WRITE_LOCKED (2 ^ 32 - 1).
Definition READER_ONE : Z := 1.

(** The conditions of the two inner spin loops. *)
Definition read_blocked (state : Z) : bool := negb (Z.land state WRITE_LOCKED =? 0).
Definition write_blocked (state : Z) : bool :=
  negb (Z.land state (Z.lor WRITE_LOCKED READERS_MASK) =? 0).

(** The values the two compare-exchanges install. *)
Definition read_desired (state : Z) : Z := u32 (Z.land state READERS_MASK + READER_ONE).
Definition write_desired (state : Z) : Z := Z.lor state WRITE_LOCKED.

Definition unlock_read (state : Z) : Z := u32 (state - READER_ONE).
Definition unlock_write (state : Z) : Z := Z.land state READERS_MASK.

(** The outcome of [lock_read] and [lock_write] when no other thread runs:
    [None] is a thread that spins for ever. *)
Definition lock_read (state : Z) : option Z :=
  if read_blocked state then None else Some (read_desired state).
Definition lock_write (state : Z) : option Z :=
  if write_blocked state then None else Some (write_desired state).

(** Program points, with the local [state] variable. *)
Inductive pc :=
| Idle
| ReadLoop (state : Z)     (* at the inner [while] of [lock_read] *)
| ReadCas (state : Z)      (* at its [compare_exchange_weak] *)
| ReadHold                 (* [lock_read] has returned *)
| WriteLoop (state : Z)
| WriteCas (state : Z)
| WriteHold.

Record st := St { state_ : Z; pcs : list pc }.

Definition init (threads : nat) : st := St 0 (replicate threads Idle).

Inductive step : st → st → Prop :=
| step_read_load a ts i v :
    ts !! i = Some Idle → step (St a ts) (St a (<[i := ReadLoop v]> ts))
| step_read_spin a ts i v w :
    ts !! i = Some (ReadLoop v) → read_blocked v = true →
    step (St a ts) (St a (<[i := ReadLoop w]> ts))
| step_read_exit a ts i v :
    ts !! i = Some (ReadLoop v) → read_blocked v = false →
    step (St a ts) (St a (<[i := ReadCas v]> ts))
| step_read_cas_ok a ts i :
    ts !! i = Some (ReadCas a) → step (St a ts) (St (read_desired a) (<[i := ReadHold]> ts))
| step_read_cas_fail a ts i v :
    ts !! i = Some (ReadCas v) → step (St a ts) (St a (<[i := ReadLoop a]> ts))
| step_read_unlock a ts i :
    ts !! i = Some ReadHold → step (St a ts) (St (unlock_read a) (<[i := Idle]> ts))
| step_write_load a ts i v :
    ts !! i = Some Idle → step (St a ts) (St a (<[i := WriteLoop v]> ts))
| step_write_spin a ts i v w :
    ts !! i = Some (WriteLoop v) → write_blocked v = true →
    step (St a ts) (St a (<[i := WriteLoop w]> ts))
| step_write_exit a ts i v :
    ts !! i = Some (WriteLoop v) → write_blocked v = false →
    step (St a ts) (St a (<[i := WriteCas v]> ts))
| step_write_cas_ok a ts i :
    ts !! i = Some (WriteCas a) → step (St a ts) (St (write_desired a) (<[i := WriteHold]> ts))
| step_write_cas_fail a ts i v :
    ts !! i = Some (WriteCas v) → step (St a ts) (St a (<[i := WriteLoop a]> ts))
| step_write_unlock a ts i :
    ts !! i = Some WriteHold → step (St a ts) (St (unlock_write a) (<[i := Idle]> ts)).

Definition is_reader (p : pc) : bool := match p with ReadHold => true | _ => false end.
Definition is_writer (p : pc) : bool := match p with WriteHold => true | _ => false end.
Definition readers (s : st) : Z := count_if is_reader (pcs s).
Definition writers (s : st) : Z := count_if is_writer (pcs s).

(** The local [state] a thread compares with passed the test of its spin loop. *)
Definition pc_ok (p : pc) : bool :=
  match p with
  | ReadCas v => negb (read_blocked v)
  | WriteCas v => negb (write_blocked v)
  | _ => true
  end.

Record inv (s : st) : Prop := {
  inv_value : state_ s = readers s + writers s * WRITE_LOCKED;
  inv_excl : writers s = 0 ∨ (writers s = 1 ∧ readers s = 0);
  inv_pcs : ∀ i p, pcs s !! i = Some p → pc_ok p = true;
  inv_threads : length (pcs s) < WRITE_LOCKED;
}.

(** *** Bit facts *)

Ltac lock_consts := change WRITE_LOCKED with 2147483648 in *.

Lemma land_READERS_MASK v : 0 ≤ v < 2 ^ 32 → Z.land v READERS_MASK = v mod 2 ^ 31.
Proof. intros _. change READERS_MASK with (Z.ones 31). by rewrite Z.land_ones. Qed.

Lemma read_blocked_small v : 0 ≤ v < WRITE_LOCKED → read_blocked v = false.
Proof.
  change WRITE_LOCKED with (2 ^ 31). intros Hv. rewrite /read_blocked.
  change WRITE_LOCKED with (2 ^ 31).
  replace (Z.land v (2 ^ 31)) with 0; [done|]. symmetry.
  apply Z.bits_inj_0. intros n. rewrite Z.land_spec.
  destruct (decide (n = 31)) as [->|Hn].
  - rewrite -(Z.mod_small v (2 ^ 31)) // Z.mod_pow2_bits_high //.
  - rewrite (Z.pow2_bits_false 31 n) //. by rewrite andb_false_r.
Qed.

Lemma write_blocked_zero v : 0 ≤ v < 2 ^ 32 → write_blocked v = false ↔ v = 0.
Proof.
  intros Hv. rewrite /write_blocked.
  change (Z.lor WRITE_LOCKED READERS_MASK) with (Z.ones 32).
  rewrite Z.land_ones // Z.mod_small //. rewrite negb_false_iff. lia.
Qed.

(** *** The invariant *)

Lemma inv_init n : Z.of_nat n < WRITE_LOCKED → inv (init n).
Proof.
  intros Hn. split; rewrite /readers /writers /= ?count_if_replicate //.
  - by left.
  - intros i p [-> _]%lookup_replicate_1. done.
  - by rewrite length_replicate.
Qed.

Lemma pc_ok_insert (ts : list pc) (i : nat) p :
  pc_ok p = true → (∀ j q, ts !! j = Some q → pc_ok q = true) →
  ∀ j q, <[i := p]> ts !! j = Some q → pc_ok q = true.
Proof. intros Hp Hts j q [(->&->&?)|[??]]%list_lookup_insert_Some; eauto. Qed.

(** A step that leaves the holders and the atomic alone. *)
Lemma inv_local a ts i p q :
  inv (St a ts) → ts !! i = Some p →
  is_reader p = is_reader q → is_writer p = is_writer q → pc_ok q = true →
  inv (St a (<[i := q]> ts)).
Proof.
  intros [Hv He Hp Ht] Hi Hr Hw Hq.
  split; rewrite /readers /writers /= in Hv He |- *;
    rewrite ?(count_if_insert is_reader ts i p q Hi) ?(count_if_insert is_writer ts i p q Hi)
      ?Hr ?Hw ?length_insert.
  - lia.
  - destruct He; [left|right]; lia.
  - by apply pc_ok_insert.
  - done.
Qed.

Lemma inv_range s : inv s → 0 ≤ readers s < WRITE_LOCKED ∧ 0 ≤ state_ s < 2 ^ 32.
Proof.
  intros [Hv He _ Ht]. pose proof (count_if_bounds is_reader (pcs s)).
  rewrite /readers /writers in Hv He |- *. lock_consts; simpl in *. lia.
Qed.

Lemma inv_read_cas a ts i :
  inv (St a ts) → ts !! i = Some (ReadCas a) →
  inv (St (read_desired a) (<[i := ReadHold]> ts)).
Proof.
  intros Hinv Hi. pose proof (inv_range _ Hinv) as [Hr Ha]. destruct Hinv as [Hv He Hp Ht].
  pose proof (Hp _ _ Hi) as Hok. simpl in Hok, Ha.
  assert (writers (St a ts) = 0) as Hw.
  { destruct He as [?|[Hw1 Hr0]]; [done|]. rewrite Hw1 Hr0 /= in Hv. by subst a. }
  assert (readers (St a ts) + 1 ≤ length ts) as Hlt.
  { pose proof (count_if_insert is_reader ts i (ReadCas a) ReadHold Hi) as Hc.
    pose proof (count_if_bounds is_reader (<[i := ReadHold]> ts)) as Hb.
    rewrite length_insert in Hb. rewrite /readers /=. simpl in Hc. lia. }
  rewrite /readers /writers /= in Hv Hw Hr Hlt Ht |- *.
  split; rewrite /readers /writers /=;
    rewrite ?(count_if_insert is_reader ts i (ReadCas a) ReadHold Hi)
      ?(count_if_insert is_writer ts i (ReadCas a) ReadHold Hi) ?length_insert //=.
  - rewrite /read_desired land_READERS_MASK // /READER_ONE.
    lock_consts; simpl in *. rewrite (Z.mod_small a); [|lia]. rewrite u32_small; lia.
  - left. lia.
  - by apply pc_ok_insert.
Qed.

Lemma inv_write_cas a ts i :
  inv (St a ts) → ts !! i = Some (WriteCas a) →
  inv (St (write_desired a) (<[i := WriteHold]> ts)).
Proof.
  intros Hinv Hi. pose proof (inv_range _ Hinv) as [Hr Ha]. destruct Hinv as [Hv He Hp Ht].
  pose proof (Hp _ _ Hi) as Hok. simpl in Hok, Ha.
  apply negb_true_iff, write_blocked_zero in Hok; [|done]. subst a.
  assert (readers (St 0 ts) = 0 ∧ writers (St 0 ts) = 0) as [Hr0 Hw0].
  { lock_consts; simpl in *. lia. }
  rewrite /readers /writers /= in Hr0 Hw0 Ht.
  split; rewrite /readers /writers /=;
    rewrite ?(count_if_insert is_reader ts i (WriteCas 0) WriteHold Hi)
      ?(count_if_insert is_writer ts i (WriteCas 0) WriteHold Hi) ?length_insert ?Hr0 ?Hw0 //=.
  - right. lia.
  - by apply pc_ok_insert.
Qed.

Lemma inv_read_unlock a ts i :
  inv (St a ts) → ts !! i = Some ReadHold → inv (St (unlock_read a) (<[i := Idle]> ts)).
Proof.
  intros Hinv Hi. pose proof (inv_range _ Hinv) as [Hr Ha]. destruct Hinv as [Hv He Hp Ht].
  pose proof (count_if_pos is_reader ts i ReadHold Hi eq_refl) as Hpos.
  rewrite /readers /writers /= in Hv He Hr Ha Ht.
  split; rewrite /readers /writers /=;
    rewrite ?(count_if_insert is_reader ts i ReadHold Idle Hi)
      ?(count_if_insert is_writer ts i ReadHold Idle Hi) ?length_insert //=.
  - rewrite /unlock_read /READER_ONE u32_small; lia.
  - lia.
  - by apply pc_ok_insert.
Qed.

Lemma inv_write_unlock a ts i :
  inv (St a ts) → ts !! i = Some WriteHold → inv (St (unlock_write a) (<[i := Idle]> ts)).
Proof.
  intros Hinv Hi. pose proof (inv_range _ Hinv) as [Hr Ha]. destruct Hinv as [Hv He Hp Ht].
  pose proof (count_if_pos is_writer ts i WriteHold Hi eq_refl) as Hpos.
  rewrite /readers /writers /= in Hv He Hr Ha Ht.
  assert (count_if is_writer ts = 1 ∧ count_if is_reader ts = 0) as [Hw1 Hr0] by lia.
  rewrite Hw1 Hr0 /= in Hv. subst a.
  split; rewrite /readers /writers /=;
    rewrite ?(count_if_insert is_reader ts i WriteHold Idle Hi)
      ?(count_if_insert is_writer ts i WriteHold Idle Hi) ?length_insert ?Hr0 ?Hw1 //=.
  - by left.
  - by apply pc_ok_insert.
Qed.

Lemma inv_step s s' : inv s → step s s' → inv s'.
Proof.
  intros Hinv Hs.
  destruct Hs; eauto using inv_read_cas, inv_write_cas, inv_read_unlock, inv_write_unlock;
    (eapply inv_local; [done|done|done|done|]); simpl; rewrite ?negb_true_iff //.
Qed.

Definition reachable (n : nat) : st → Prop := rtc step (init n).

Lemma inv_reachable n s : Z.of_nat n < WRITE_LOCKED → reachable n s → inv s.
Proof.
  intros Hn Hr. assert (inv (init n)) as Hi by (by apply inv_init). revert Hi.
  induction Hr; eauto using inv_step.
Qed.

(** *** The abstract lock: a number of readers or one writer *)

Inductive held := Readers (n : Z) | Writer.

Inductive held_step : held → held → Prop :=
| held_read n : 0 ≤ n → held_step (Readers n) (Readers (n + 1))
| held_unread n : 0 < n → held_step (Readers n) (Readers (n - 1))
| held_write : held_step (Readers 0) Writer
| held_unwrite : held_step Writer (Readers 0).

(** What the value of the atomic says. *)
Definition holds (s : st) : held :=
  if state_ s =? WRITE_LOCKED then Writer else Readers (state_ s).

Lemma holds_inv s : inv s →
  (holds s = Writer ∧ writers s = 1 ∧ readers s = 0 ∧ state_ s = WRITE_LOCKED) ∨
  (holds s = Readers (readers s) ∧ writers s = 0 ∧ state_ s = readers s).
Proof.
  intros Hinv. pose proof (inv_range s Hinv) as [Hr _]. destruct Hinv as [Hv He _ _].
  rewrite /holds. lock_consts. destruct He as [Hw|[Hw Hr0]].
  - right. bool_test (state_ s =? 2147483648). split; [f_equal|]; lia.
  - left. bool_test (state_ s =? 2147483648). split; [done|]; lia.
Qed.

Lemma holds_local a ts i q : holds (St a (<[i := q]> ts)) = holds (St a ts).
Proof. done. Qed.

(** *** Properties *)

(** C22: mutual exclusion.  With fewer than 2^31 threads, in every reachable state at
    most one thread holds the write lock, and then no thread holds the read lock. *)
Theorem rwlock_mutual_exclusion n s (Hn : Z.of_nat n < WRITE_LOCKED) (Hs : reachable n s) i j p :
  pcs s !! i = Some WriteHold → pcs s !! j = Some p → is_reader p || is_writer p = true → i = j.
Proof.
  intros Hi Hj Hp. pose proof (inv_reachable n s Hn Hs) as [_ He _ _].
  pose proof (count_if_pos is_writer _ _ _ Hi eq_refl) as Hw.
  rewrite /readers /writers in He. destruct He as [He|[He Hr]]; [lia|].
  destruct p; try done.
  - pose proof (count_if_pos is_reader _ _ _ Hj eq_refl). lia.
  - apply (count_if_unique is_writer (pcs s) i j WriteHold WriteHold); [lia|done..].
Qed.

(** Two threads, the first through the whole of [lock_write]. *)
Lemma run_writer : reachable 2 (St WRITE_LOCKED [WriteHold; Idle]).
Proof.
  eapply rtc_l; [apply (step_write_load 0 [Idle; Idle] 0 0); done|].
  eapply rtc_l; [apply (step_write_exit 0 [WriteLoop 0; Idle] 0 0); done|].
  eapply rtc_l; [apply (step_write_cas_ok 0 [WriteCas 0; Idle] 0); done|].
  apply rtc_refl.
Defined.

Lemma rwlock_mutual_exclusion_witness :
  is_reader WriteHold || is_writer WriteHold = true ∧ (0 = 0)%nat.
Proof.
  split; [reflexivity|].
  apply (rwlock_mutual_exclusion 2 _ ltac:(vm_compute; reflexivity) run_writer 0 0 WriteHold);
    reflexivity.
Defined.

(** The write lock is taken from a state in which nobody holds. *)
Lemma holds_write_cas a ts i :
  inv (St a ts) → ts !! i = Some (WriteCas a) → a = 0.
Proof.
  intros Hinv Hi. pose proof (inv_range _ Hinv) as [_ Ha].
  pose proof (inv_pcs _ Hinv _ _ Hi) as Hok. simpl in Hok.
  by apply negb_true_iff, write_blocked_zero in Hok.
Qed.

Lemma holds_step s s' :
  inv s → step s s' → holds s' = holds s ∨ held_step (holds s) (holds s').
Proof.
  intros Hinv Hs. pose proof (inv_step _ _ Hinv Hs) as Hinv'.
  pose proof (holds_inv _ Hinv) as H1. pose proof (holds_inv _ Hinv') as H2.
  destruct Hs as [ | | | a ts i Hi | | a ts i Hi | | | | a ts i Hi | | a ts i Hi];
    try (left; apply holds_local); right.
  - (* a reader enters *)
    rewrite /readers /writers /= (count_if_insert is_reader _ _ _ _ Hi)
      (count_if_insert is_writer _ _ _ _ Hi) /= in H1 H2.
    assert (a ≠ WRITE_LOCKED) as Hne.
    { intros ->. by pose proof (inv_pcs _ Hinv _ _ Hi). }
    pose proof (count_if_bounds is_reader ts).
    destruct H1 as [(_&_&_&?)|(-> & Hw & Hr)]; [done|]. destruct H2 as [(_&?&_)|(-> & _)]; [lia|].
    replace (count_if is_reader ts - 0 + 1) with (count_if is_reader ts + 1) by lia.
    apply held_read. lia.
  - (* a reader leaves *)
    rewrite /readers /writers /= (count_if_insert is_reader _ _ _ _ Hi)
      (count_if_insert is_writer _ _ _ _ Hi) /= in H1 H2.
    pose proof (count_if_pos is_reader _ _ _ Hi eq_refl).
    destruct H1 as [(_&_&?&_)|(-> & Hw & Hr)]; [lia|]. destruct H2 as [(_&?&_)|(-> & _)]; [lia|].
    replace (count_if is_reader ts - 1 + 0) with (count_if is_reader ts - 1) by lia.
    apply held_unread. lia.
  - pose proof (holds_write_cas _ _ _ Hinv Hi) as ->. constructor.
  - pose proof (count_if_pos is_writer _ _ _ Hi eq_refl) as Hw.
    destruct H1 as [(_ & _ & _ & Ha)|(_ & Hw0 & _)]; [simpl in Ha; subst a; constructor|].
    rewrite /writers /= in Hw0. lia.
Qed.

(** C38: the lock refines the abstract reader-writer lock: along every execution, each
    step either leaves what the atomic word says is held unchanged or is a legal
    transition of the abstract lock (a reader enters or leaves while there is no
    writer, a writer enters only when nobody holds, a writer leaves). *)
Theorem rwlock_refines n s s' (Hn : Z.of_nat n < WRITE_LOCKED) (Hs : reachable n s) :
  step s s' → holds s' = holds s ∨ held_step (holds s) (holds s').
Proof. apply holds_step. by eapply inv_reachable. Qed.

Lemma rwlock_refines_witness :
  holds (St 0 [Idle; Idle]) = holds (St WRITE_LOCKED [WriteHold; Idle]) ∨
  held_step (holds (St WRITE_LOCKED [WriteHold; Idle])) (holds (St 0 [Idle; Idle])).
Proof.
  apply (rwlock_refines 2 _ (St 0 [Idle; Idle]) ltac:(vm_compute; reflexivity) run_writer).
  apply (step_write_unlock WRITE_LOCKED [WriteHold; Idle] 0). reflexivity.
Defined.

(** A thread in either loop holds the lock after its own next steps. *)
Lemma write_progress ts i v :
  ts !! i = Some (WriteLoop v) →
  rtc step (St 0 ts) (St WRITE_LOCKED (<[i := WriteHold]> ts)).
Proof.
  intros Hi. pose proof (lookup_lt_Some _ _ _ Hi) as Hlt.
  assert (rtc step (St 0 ts) (St 0 (<[i := WriteLoop 0]> ts))) as Hload.
  { destruct (write_blocked v) eqn:Hb; [apply rtc_once; by eapply step_write_spin|].
    eapply rtc_l; [by eapply step_write_exit|].
    rewrite -(list_insert_insert_eq ts i (WriteLoop 0) (WriteCas v)).
    apply rtc_once. eapply step_write_cas_fail. by apply list_lookup_insert_eq. }
  etrans; [exact Hload|].
  eapply rtc_l; [eapply step_write_exit; [by apply list_lookup_insert_eq|done]|].
  rewrite list_insert_insert_eq.
  eapply rtc_l; [eapply step_write_cas_ok; by apply list_lookup_insert_eq|].
  rewrite list_insert_insert_eq. apply rtc_refl.
Qed.

Lemma read_progress ts i v :
  ts !! i = Some (ReadLoop v) →
  rtc step (St 0 ts) (St 1 (<[i := ReadHold]> ts)).
Proof.
  intros Hi. pose proof (lookup_lt_Some _ _ _ Hi) as Hlt.
  assert (rtc step (St 0 ts) (St 0 (<[i := ReadLoop 0]> ts))) as Hload.
  { destruct (read_blocked v) eqn:Hb; [apply rtc_once; by eapply step_read_spin|].
    eapply rtc_l; [by eapply step_read_exit|].
    rewrite -(list_insert_insert_eq ts i (ReadLoop 0) (ReadCas v)).
    apply rtc_once. eapply step_read_cas_fail. by apply list_lookup_insert_eq. }
  etrans; [exact Hload|].
  eapply rtc_l; [eapply step_read_exit; [by apply list_lookup_insert_eq|done]|].
  rewrite list_insert_insert_eq.
  eapply rtc_l; [eapply step_read_cas_ok; by apply list_lookup_insert_eq|].
  rewrite list_insert_insert_eq. apply rtc_refl.
Qed.

(** No thread waits for a lock nobody holds: from every reachable state without
    holders, a thread inside [lock_write] (or [lock_read]) gets the lock by its own
    next steps alone. *)
Theorem rwlock_progress n s (Hn : Z.of_nat n < WRITE_LOCKED) (Hs : reachable n s) i v
    (Hfree : readers s + writers s = 0) :
  (pcs s !! i = Some (WriteLoop v) →
     rtc step s (St WRITE_LOCKED (<[i := WriteHold]> (pcs s)))) ∧
  (pcs s !! i = Some (ReadLoop v) →
     rtc step s (St 1 (<[i := ReadHold]> (pcs s)))).
Proof.
  pose proof (inv_reachable n s Hn Hs) as Hinv. pose proof (inv_range s Hinv) as [Hr _].
  destruct Hinv as [Hv He _ _]. destruct s as [a ts]. simpl in *.
  assert (a = 0) as -> by lia. split; [apply write_progress|apply read_progress].
Qed.

Lemma rwlock_progress_witness :
  ([Idle; WriteLoop 7] !! 1%nat = Some (WriteLoop 7) →
     rtc step (St 0 [Idle; WriteLoop 7]) (St WRITE_LOCKED [Idle; WriteHold])) ∧
  ([Idle; WriteLoop 7] !! 1%nat = Some (ReadLoop 7) →
     rtc step (St 0 [Idle; WriteLoop 7]) (St 1 [Idle; ReadHold])).
Proof.
  assert (reachable 2 (St 0 [Idle; WriteLoop 7])) as Hr.
  { apply rtc_once. apply (step_write_load 0 [Idle; Idle] 1 7). reflexivity. }
  apply (rwlock_progress 2 _ ltac:(vm_compute; reflexivity) Hr 1 7). reflexivity.
Defined.
End RWLock.

(** ** The test-and-set spin lock *)

Module Spinlock.

(** [test_and_set] returns the old flag and sets it; [clear] resets it. *)
Definition test_and_set (flag : bool) : bool * bool := (flag, true).
Definition clear (flag : bool) : bool := false.

(** One evaluation of the loop condition of [lock]: [true] is a lock acquired. *)
Definition try_lock (flag : bool) : bool * bool :=
  let '(old, flag') := test_and_set flag in (negb old, flag').

Inductive pc := Idle | Locking | Hold.

Record st := St { flag_ : bool; pcs : list pc }.

Definition init (threads : nat) : st := St false (replicate threads Idle).

(** [step_try] is a call of [try_lock], which gives up when the flag is set;
    [step_spin] is one iteration of [lock]. *)
Inductive step : st → st → Prop :=
| step_lock f ts i :
    ts !! i = Some Idle → step (St f ts) (St f (<[i := Locking]> ts))
| step_spin f ts i :
    ts !! i = Some Locking →
    step (St f ts) (St (try_lock f).2 (<[i := if (try_lock f).1 then Hold else Locking]> ts))
| step_try f ts i :
    ts !! i = Some Idle →
    step (St f ts) (St (try_lock f).2 (<[i := if (try_lock f).1 then Hold else Idle]> ts))
| step_unlock f ts i :
    ts !! i = Some Hold → step (St f ts) (St (clear f) (<[i := Idle]> ts)).

Definition is_holder (p : pc) : bool := match p with Hold => true | _ => false end.

(** The flag is set exactly while one thread holds the lock. *)
Definition inv (s : st) : Prop := count_if is_holder (pcs s) = Z.b2z (flag_ s).

Lemma spin_inv_step s s' : inv s → step s s' → inv s'.
Proof.
  rewrite /inv. intros Hinv Hs. destruct Hs as [f ts i Hi|f ts i Hi|f ts i Hi|f ts i Hi];
    simpl in *; rewrite (count_if_insert is_holder _ _ _ _ Hi) Hinv; destruct f; simpl; try lia.
  pose proof (count_if_pos is_holder _ _ _ Hi eq_refl) as Hp. rewrite Hinv /= in Hp. lia.
Qed.

Definition reachable (n : nat) : st → Prop := rtc step (init n).

Lemma spin_inv_reachable n s : reachable n s → inv s.
Proof.
  intros Hr. assert (inv (init n)) as Hi by (by apply count_if_replicate).
  revert Hi. induction Hr; eauto using spin_inv_step.
Qed.

(** Mutual exclusion of the spin lock, for any number of threads and any
    interleaving of [lock], [try_lock] and [unlock]. *)
Theorem spinlock_mutual_exclusion n s (Hs : reachable n s) i j :
  pcs s !! i = Some Hold → pcs s !! j = Some Hold → i = j.
Proof.
  intros Hi Hj. pose proof (spin_inv_reachable n s Hs) as Hinv. unfold inv in Hinv.
  apply (count_if_unique is_holder (pcs s) i j Hold Hold); try done.
  rewrite Hinv. destruct (flag_ s); simpl; lia.
Qed.

Lemma spinlock_mutual_exclusion_witness : (0 = 0)%nat.
Proof.
  assert (reachable 2 (St true [Hold; Idle])) as Hr.
  { apply rtc_once. apply (step_try false [Idle; Idle] 0). reflexivity. }
  apply (spinlock_mutual_exclusion 2 _ Hr 0 0); reflexivity.
Defined.
End Spinlock.
