(* ===== verification/Chunk.v ===== *)
(** * The chunk: [src/src/woomem_chunk.hpp], [src/src/woomem_chunk.cpp],
      [src/src/woomem_page.hpp] and [src/src/woomem_os_mmap_unix.c]

    The page-level allocator.  The four side arrays are lists indexed by machine
    integers, an index outside an array is the fault [OutOfBounds]; the page
    headers the chunk writes through live in [heads], which has an entry for
    every page the kernel has made accessible, and a store elsewhere is the
    fault [BadAccess].  This file holds the definitions; the block
    view of the arrays and the theorems are in [ChunkProof]. *)

From S2P Require Import Prelude SizeClass Locks.
Open Scope Z_scope.

(** ** Page headers *)

Record PageHead := MkPageHead {
  m_page_count_if_huge : Z;
  m_next_page : Z;             (* address, 0 is [nullptr] *)
  m_page_just_allocated : bool;
}.

#[export] Instance PageHead_eq_dec : EqDecision PageHead.
Proof. solve_decision. Defined.

(** Fresh anonymous memory is zero. *)
Definition zero_head : PageHead := MkPageHead 0 0 false.

Definition set_page_count_if_huge (n : Z) (p : PageHead) : PageHead :=
  MkPageHead n (m_next_page p) (m_page_just_allocated p).
Definition set_next_page (a : Z) (p : PageHead) : PageHead :=
  MkPageHead (m_page_count_if_huge p) a (m_page_just_allocated p).
Definition set_page_just_allocated (b : bool) (p : PageHead) : PageHead :=
  MkPageHead (m_page_count_if_huge p) (m_next_page p) b.

(** ** The operating system *)

(** The system calls, and [errno] after a failed one.  [sys_mprotect a n] is the
    result of making the range readable and writable. *)
Class Kernel := {
  sys_mmap : Z → Z;
  sys_mprotect : Z → Z → Z;
  sys_errno : Z;
}.

Definition MAP_FAILED : Z := 2 ^ 64 - 1.

Definition woomem_os_reserve_memory `{Kernel} (size : Z) : Z :=
  let result := sys_mmap size in if result =? MAP_FAILED then 0 else result.

Definition woomem_os_commit_memory `{Kernel} (addr size : Z) : Z :=
  let result := sys_mprotect addr size in if result =? 0 then 0 else sys_errno.

(** The kernel grants the commit of every page.  It may refuse one when memory is short, and the
    source does not test for that ([commit_page]); theorems that need no refusal say so by this name. *)
Definition commits_granted `{Kernel} : Prop := ∀ a, sys_mprotect a NORMAL_PAGE_SIZE = 0.

(** ** The chunk and the memory it manages *)

Definition INDEX_NULL : Z := 2 ^ 32 - 1.
Definition ALLOCATED_FLAG : Z := 0x80000000.
Definition COUNT_MASK : Z := 0x7FFFFFFF.

Record Chunk := MkChunk {
  base_ : Z;
  reserved_size_ : Z;
  total_pages_ : Z;
  count_ : list Z;
  free_prev_ : list Z;
  free_next_ : list Z;
  free_head_ : Z;
  commit_ : list Z;
  rwlock_ : Z;
}.

Record ChunkMem := MkChunkMem { chunk : Chunk; heads : gmap Z PageHead }.

Definition upd_count (f : list Z → list Z) (s : ChunkMem) : ChunkMem :=
  let c := chunk s in
  MkChunkMem (MkChunk (base_ c) (reserved_size_ c) (total_pages_ c) (f (count_ c)) (free_prev_ c)
    (free_next_ c) (free_head_ c) (commit_ c) (rwlock_ c)) (heads s).
Definition upd_free_prev (f : list Z → list Z) (s : ChunkMem) : ChunkMem :=
  let c := chunk s in
  MkChunkMem (MkChunk (base_ c) (reserved_size_ c) (total_pages_ c) (count_ c) (f (free_prev_ c))
    (free_next_ c) (free_head_ c) (commit_ c) (rwlock_ c)) (heads s).
Definition upd_free_next (f : list Z → list Z) (s : ChunkMem) : ChunkMem :=
  let c := chunk s in
  MkChunkMem (MkChunk (base_ c) (reserved_size_ c) (total_pages_ c) (count_ c) (free_prev_ c)
    (f (free_next_ c)) (free_head_ c) (commit_ c) (rwlock_ c)) (heads s).
Definition set_free_head (h : Z) (s : ChunkMem) : ChunkMem :=
  let c := chunk s in
  MkChunkMem (MkChunk (base_ c) (reserved_size_ c) (total_pages_ c) (count_ c) (free_prev_ c)
    (free_next_ c) h (commit_ c) (rwlock_ c)) (heads s).
Definition upd_commit (f : list Z → list Z) (s : ChunkMem) : ChunkMem :=
  let c := chunk s in
  MkChunkMem (MkChunk (base_ c) (reserved_size_ c) (total_pages_ c) (count_ c) (free_prev_ c)
    (free_next_ c) (free_head_ c) (f (commit_ c)) (rwlock_ c)) (heads s).
Definition set_rwlock (w : Z) (s : ChunkMem) : ChunkMem :=
  let c := chunk s in
  MkChunkMem (MkChunk (base_ c) (reserved_size_ c) (total_pages_ c) (count_ c) (free_prev_ c)
    (free_next_ c) (free_head_ c) (commit_ c) w) (heads s).
Definition upd_heads (f : gmap Z PageHead → gmap Z PageHead) (s : ChunkMem) : ChunkMem :=
  MkChunkMem (chunk s) (f (heads s)).

Abbreviation CM := (M ChunkMem).

(** Array reads and writes, checked against the array's bounds. *)
Definition get_arr (arr : Chunk → list Z) (i : Z) : CM Z :=
  l ← gets (λ s, arr (chunk s)); of_option OutOfBounds (rd l i).

Definition set_arr (arr : Chunk → list Z) (upd : (list Z → list Z) → ChunkMem → ChunkMem)
    (i v : Z) : CM unit :=
  l ← gets (λ s, arr (chunk s));
  _ ← of_option OutOfBounds (rd l i);
  modify (upd (λ l, wr l i v)).

Abbreviation get_count := (get_arr count_).
Abbreviation get_prev := (get_arr free_prev_).
Abbreviation get_next := (get_arr free_next_).
Abbreviation get_commit := (get_arr commit_).
Abbreviation set_count := (set_arr count_ upd_count).
Abbreviation set_prev := (set_arr free_prev_ upd_free_prev).
Abbreviation set_next := (set_arr free_next_ upd_free_next).
Abbreviation set_commit := (set_arr commit_ upd_commit).

(** A store to a field of the page header at [page]. *)
Definition store_head (page : Z) (f : PageHead → PageHead) : CM unit :=
  h ← gets heads;
  p ← of_option BadAccess (h !! page);
  modify (upd_heads (<[page := f p]>)).

(** [ReadWriteSpinlock::WriteGuard] and [ReadGuard]: every way out of the guarded
    body releases the lock. *)
Definition write_guard {A} (body : CM A) : CM A :=
  w ← gets (λ s, rwlock_ (chunk s));
  w' ← of_option OutOfFuel (RWLock.lock_write w);
  modify (set_rwlock w') ;;
  r ← body;
  w ← gets (λ s, rwlock_ (chunk s));
  modify (set_rwlock (RWLock.unlock_write w)) ;;
  mret r.

Definition read_guard {A} (body : CM A) : CM A :=
  w ← gets (λ s, rwlock_ (chunk s));
  w' ← of_option OutOfFuel (RWLock.lock_read w);
  modify (set_rwlock w') ;;
  r ← body;
  w ← gets (λ s, rwlock_ (chunk s));
  modify (set_rwlock (RWLock.unlock_read w)) ;;
  mret r.

(** ** Operations *)

(** [page_to_index] and [addr_to_index]. *)
Definition page_to_index (c : Chunk) (page : Z) : Z := u64 (page - base_ c) / NORMAL_PAGE_SIZE.
Definition addr_to_index (c : Chunk) (ptr : Z) : Z := u64 (ptr - base_ c) / NORMAL_PAGE_SIZE.
Definition index_to_page (c : Chunk) (idx : Z) : Z := u64 (base_ c + idx * NORMAL_PAGE_SIZE).

Definition pages_for (size : Z) : Z := u64 (size + NORMAL_PAGE_SIZE - 1) / NORMAL_PAGE_SIZE.

(** The constructor; the side arrays are absent until memory is reserved. *)
Definition Chunk_ctor `{Kernel} (reserved_size : Z) : res Chunk :=
  let empty := MkChunk 0 0 0 [] [] [] INDEX_NULL [] 0 in
  if reserved_size =? 0 then Ok empty
  else
    let total_pages := pages_for reserved_size in
    let reserved := u64 (total_pages * NORMAL_PAGE_SIZE) in
    let base := woomem_os_reserve_memory reserved in
    if base =? 0 then Ok empty
    else
      let n := Z.to_nat total_pages in
      let count := replicate n 0 in
      match rd count 0 with
      | None => Fail OutOfBounds
      | Some _ =>
        Ok (MkChunk base reserved total_pages (wr count 0 (u32 total_pages))
              (replicate n INDEX_NULL) (replicate n INDEX_NULL) 0 (replicate n 0) 0)
      end.

Definition is_init_failed (c : Chunk) : bool := (base_ c =? 0) && (total_pages_ c =? 0).

(** The result of [woomem_os_commit_memory] is dropped, as in the source. *)
Definition commit_page `{Kernel} (idx : Z) : CM Z :=
  c ← gets chunk;
  let p := index_to_page c idx in
  committed ← get_commit idx;
  (if committed =? 0 then
     (if woomem_os_commit_memory p NORMAL_PAGE_SIZE =? 0
      then modify (upd_heads (<[p := zero_head]>))
      else mret tt) ;;
     set_commit idx 1
   else mret tt) ;;
  mret p.

Definition free_list_remove (idx : Z) : CM unit :=
  prev ← get_prev idx;
  next ← get_next idx;
  (if prev =? INDEX_NULL then modify (set_free_head next) else set_next prev next) ;;
  (if next =? INDEX_NULL then mret tt else set_prev next prev) ;;
  set_prev idx INDEX_NULL ;;
  set_next idx INDEX_NULL.

(** The walk to the neighbours of [idx]: [while (next != INDEX_NULL && next < idx)]. *)
Fixpoint free_list_walk (fuel : nat) (idx prev next : Z) : CM (Z * Z) :=
  if negb (next =? INDEX_NULL) && (next <? idx) then
    match fuel with
    | O => throw OutOfFuel
    | S fuel' => n ← get_next next; free_list_walk fuel' idx next n
    end
  else mret (prev, next).

(** The tail of [free_list_insert], once no neighbour is adjacent. *)
Definition free_list_link (idx count prev next : Z) : CM unit :=
  set_prev idx prev ;;
  set_next idx next ;;
  (if prev =? INDEX_NULL then modify (set_free_head idx) else set_next prev idx) ;;
  (if next =? INDEX_NULL then mret tt else set_prev next idx) ;;
  set_count idx count.

(** [goto restart] is the recursive call. *)
Fixpoint free_list_insert_loop (fuel : nat) (idx count : Z) : CM unit :=
  match fuel with
  | O => throw OutOfFuel
  | S fuel' =>
    head ← gets (λ s, free_head_ (chunk s));
    n ← gets (λ s, length (count_ (chunk s)));
    '(prev, next) ← free_list_walk n idx INDEX_NULL head;
    prev_count ← (if prev =? INDEX_NULL then mret 0 else get_count prev);
    if negb (prev =? INDEX_NULL) && (u32 (prev + prev_count) =? idx) then
      free_list_remove prev ;;
      free_list_insert_loop fuel' prev (u32 (prev_count + count))
    else
      next_count ← (if next =? INDEX_NULL then mret 0 else get_count next);
      if negb (next =? INDEX_NULL) && (u32 (idx + count) =? next) then
        free_list_remove next ;;
        free_list_insert_loop fuel' idx (u32 (count + next_count))
      else
        free_list_link idx count prev next
  end.

Definition free_list_insert (idx count : Z) : CM unit :=
  n ← gets (λ s, length (count_ (chunk s)));
  free_list_insert_loop (S n) idx count.

Fixpoint free_list_find_loop (fuel : nat) (required curr : Z) : CM Z :=
  if curr =? INDEX_NULL then mret INDEX_NULL
  else
    c ← get_count curr;
    if required <=? Z.land c COUNT_MASK then mret curr
    else
      match fuel with
      | O => throw OutOfFuel
      | S fuel' => n ← get_next curr; free_list_find_loop fuel' required n
      end.

Definition free_list_find_block (required : Z) : CM Z :=
  head ← gets (λ s, free_head_ (chunk s));
  n ← gets (λ s, length (count_ (chunk s)));
  free_list_find_loop n required head.

(** The part of [allocate_pages] under the write guard. *)
Definition allocate_locked `{Kernel} (required_pages : Z) : CM Z :=
  idx ← free_list_find_block required_pages;
  if idx =? INDEX_NULL then mret 0
  else
    c ← get_count idx;
    let block_count := Z.land c COUNT_MASK in
    free_list_remove idx ;;
    (if required_pages <? block_count then
       let left_idx := u32 (idx + required_pages) in
       let left_count := block_count - required_pages in
       set_count left_idx left_count ;;
       for_range 1 (Z.to_nat (left_count - 1)) (λ j, set_count (u32 (left_idx + j)) 0) ;;
       free_list_insert left_idx left_count
     else mret tt) ;;
    set_count idx (Z.lor required_pages ALLOCATED_FLAG) ;;
    for_range 1 (Z.to_nat (required_pages - 1)) (λ j, set_count (u32 (idx + j)) 0) ;;
    for_range 0 (Z.to_nat required_pages) (λ j, commit_page (u32 (idx + j)) ;; mret tt) ;;
    c ← gets chunk;
    let page := index_to_page c idx in
    store_head page (set_page_just_allocated true) ;;
    mret page.

Definition allocate_pages `{Kernel} (required_pages : Z) : CM Z :=
  write_guard (allocate_locked required_pages).

Definition allocate_page `{Kernel} : CM Z :=
  page ← allocate_pages 1;
  (if page =? 0 then mret tt else store_head page (set_page_count_if_huge 0)) ;;
  mret page.

Definition allocate_huge_page `{Build} `{Kernel} (size : Z) : CM Z :=
  c ← gets chunk;
  assert_ (negb (base_ c =? 0) && negb (size =? 0)) ;;
  let required_pages := pages_for size in
  if total_pages_ c <? required_pages then mret 0
  else
    page ← allocate_pages (u32 required_pages);
    (if page =? 0 then mret tt
     else store_head page (set_page_count_if_huge required_pages)) ;;
    mret page.

(** The backward scan of [validate] for the head of the block; [None] is the
    early [return nullptr]. *)
Fixpoint validate_scan (fuel : nat) (head_idx : Z) : CM (option Z) :=
  c ← get_count head_idx;
  if c =? 0 then
    if head_idx =? 0 then mret None
    else
      match fuel with
      | O => throw OutOfFuel
      | S fuel' => validate_scan fuel' (head_idx - 1)
      end
  else mret (Some head_idx).

Definition validate `{Build} (ptr : Z) : CM Z :=
  c ← gets chunk;
  assert_ (negb (base_ c =? 0)) ;;
  if (ptr <? base_ c) || (u64 (base_ c + reserved_size_ c) <=? ptr) then mret 0
  else
    let idx := (ptr - base_ c) / NORMAL_PAGE_SIZE in
    read_guard (
      head ← validate_scan (Z.to_nat idx) idx;
      match head with
      | None => mret 0
      | Some head_idx =>
        n ← get_count head_idx;
        if Z.land n ALLOCATED_FLAG =? 0 then mret 0
        else if head_idx + Z.land n COUNT_MASK <=? idx then mret 0
        else mret (index_to_page c head_idx)
      end).

(** The part of [free_page] under the write guard. *)
Definition free_page_locked (idx : Z) : CM unit :=
  n ← get_count idx;
  if Z.land n ALLOCATED_FLAG =? 0 then mret tt
  else
    let block_count := Z.land n COUNT_MASK in
    for_range 0 (Z.to_nat block_count) (λ j, set_count (u64 (idx + j)) 0) ;;
    set_count idx block_count ;;
    free_list_insert (u32 idx) block_count.

(** The argument of the [assert] calls [validate], so it is evaluated only when
    assertions are compiled in. *)
Definition free_page `{Build} (page : Z) : CM unit :=
  c ← gets chunk;
  (if ndebug then mret tt
   else
     v ← (if negb (base_ c =? 0) && negb (page =? 0) then validate page else mret 0);
     assert_ (negb (base_ c =? 0) && negb (page =? 0) && (v =? page))) ;;
  write_guard (free_page_locked (page_to_index c page)).

Definition get_total_size (c : Chunk) : Z := reserved_size_ c.
Definition get_total_page_count (c : Chunk) : Z := total_pages_ c.
