(* ===== verification/Os.v ===== *)
(** * The memory interface of the operating system: [src/src/woomem_os_mmap.h],
      [src/src/woomem_os_mmap_unix.c] and [src/src/woomem_os_mmap_win32.c]

    The header declares five functions; the sources implement them three times: over
    [mmap], [mprotect] and [munmap], over the same calls under Emscripten, and over
    [VirtualAlloc] and [VirtualFree].  The kernels are parameters with a state
    ([Unix.Kernel], [Win32.Kernel]) and their documented behaviour a class of laws each.
    The interface the rest of the program relies on is an abstract address
    space [Space] with the calls as transitions ([promised]) and the class [OsMemory];
    each variant is an instance.  The chunk is a client, and its theorem is
    proved against the class. *)

From S2P Require Import Prelude SizeClass Locks Chunk.
Open Scope Z_scope.

(** ** What the interface promises *)

(** An address is free, or belongs to a mapping: then it may be accessible, and holds a byte. *)
Inductive Cell := Free | Mapped (access : bool) (byte : Z).

(** The address space, and the ranges that were reserved and not yet released. *)
Record Space := MkSpace { cells : Z → Cell; regions : gmap Z Z }.

Definition inside (a n x : Z) : Prop := a ≤ x < a + n.

(** Every address of a reserved range is mapped, and different ranges do not meet. *)
Record wf_space (s : Space) : Prop := {
  wf_mapped : ∀ b n, regions s !! b = Some n → 0 < n ∧ ∀ x, inside b n x → cells s x ≠ Free;
  wf_apart : ∀ b n b' n' x, regions s !! b = Some n → regions s !! b' = Some n' →
    inside b n x → inside b' n' x → b = b';
}.

Definition make_accessible (c : Cell) : Cell :=
  match c with Free => Free | Mapped _ v => Mapped true v end.

Inductive Call :=
| Reserve (size : Z)
| Commit (addr size : Z)
| Decommit (addr size : Z)
| Release (addr size : Z).

Definition within (s : Space) (a n : Z) : Prop :=
  ∃ b m, regions s !! b = Some m ∧ b ≤ a ∧ a + n ≤ b + m.

(** What a caller has to ensure: whole pages of a range it reserved; a range is
    released as a whole. *)
Definition allowed (ps : Z) (s : Space) (c : Call) : Prop :=
  match c with
  | Reserve n => 0 < n ∧ (ps | n)
  | Commit a n | Decommit a n => 0 < n ∧ (ps | a) ∧ (ps | n) ∧ within s a n
  | Release a n => regions s !! a = Some n ∧ (ps | a) ∧ (ps | n)
  end.

(** Nothing changes outside [n] addresses from [a]. *)
Definition frame (a n : Z) (s s' : Space) : Prop :=
  ∀ x, ¬ inside a n x → cells s' x = cells s x.

(** The possible results of a call and the space after it.  [idle] tells whether memory that is
    reserved but not committed can be accessed (Emscripten has no protection). *)
Definition promised (ps : Z) (idle : bool) (s : Space) (c : Call) (r : Z) (s' : Space) : Prop :=
  match c with
  | Reserve n =>
    (r = 0 ∧ regions s' = regions s ∧ ∀ x, cells s' x = cells s x) ∨
    (0 < r ∧ r + n ≤ 2 ^ 64 ∧ (ps | r) ∧ regions s' = <[r := n]> (regions s) ∧ frame r n s s' ∧
      ∀ x, inside r n x → cells s x = Free ∧ cells s' x = Mapped idle 0)
  | Commit a n =>
    regions s' = regions s ∧ frame a n s s' ∧
    ∀ x, inside a n x → cells s' x = make_accessible (cells s x) ∨
      (r ≠ 0 ∧ cells s' x = cells s x)
  | Decommit a n =>
    regions s' = regions s ∧ frame a n s s' ∧
    ∀ x b v, inside a n x → cells s x = Mapped b v →
      (∃ v', cells s' x = Mapped idle v' ∧ (v' = v ∨ v' = 0)) ∨ (r ≠ 0 ∧ cells s' x = cells s x)
  | Release a n =>
    (r = 0 ∧ regions s' = delete a (regions s) ∧ frame a n s s' ∧ ∀ x, inside a n x → cells s' x = Free) ∨
    (r ≠ 0 ∧ regions s' = regions s ∧ ∀ x, cells s' x = cells s x)
  end.

(** ** The interface *)

Class OsOps (K : Type) := {
  os_page_size : M K Z;
  os_reserve_memory : Z → M K Z;
  os_commit_memory : Z → Z → M K Z;
  os_decommit_memory : Z → Z → M K Z;
  os_release_memory : Z → Z → M K Z;
}.

Definition exec `{OsOps K} (c : Call) : M K Z :=
  match c with
  | Reserve n => os_reserve_memory n
  | Commit a n => os_commit_memory a n
  | Decommit a n => os_decommit_memory a n
  | Release a n => os_release_memory a n
  end.

Class OsMemory (K : Type) `{OsOps K} := {
  os_ps : Z;
  os_idle : bool;
  os_rel : K → Space → Prop;
  os_ps_pos : 0 < os_ps;
  os_page_size_law : ∀ k, wp os_page_size (λ r k', r = os_ps ∧ k' = k) k;
  os_law : ∀ k s c, os_rel k s → wf_space s → allowed os_ps s c →
    wp (exec c) (λ r k', ∃ s', promised os_ps os_idle s c r s' ∧ os_rel k' s') k;
}.

(** A call of the kernel: it always returns, with a result and a new kernel state. *)
Definition syscall {K} (f : K → Z * K) : M K Z := λ k, Ok (f k).

(** [int] from a 32-bit pattern. *)
Definition int32 (z : Z) : Z := if u32 z <? 2 ^ 31 then u32 z else u32 z - 2 ^ 32.

(** ** The Unix variants *)

Definition PROT_NONE : Z := 0.
Definition PROT_READ : Z := 1.
Definition PROT_WRITE : Z := 2.
Definition MAP_PRIVATE : Z := 2.
Definition MAP_ANONYMOUS : Z := 0x20.

Module Unix.

Class Kernel (K : Type) := {
  getpagesize : Z;
  mmap : Z → Z → Z → Z → Z → Z → K → Z * K;
  mprotect : Z → Z → Z → K → Z * K;
  munmap : Z → Z → K → Z * K;
  errno : K → Z;
}.

Definition woomem_os_page_size `{Kernel K} : M K Z := mret (u64 getpagesize).

Definition woomem_os_reserve_memory `{Kernel K} (size : Z) : M K Z :=
  result ← syscall (mmap 0 size PROT_NONE (Z.lor MAP_PRIVATE MAP_ANONYMOUS) (-1) 0);
  mret (if result =? MAP_FAILED then 0 else result).

Definition woomem_os_commit_memory `{Kernel K} (addr size : Z) : M K Z :=
  result ← syscall (mprotect addr size (Z.lor PROT_READ PROT_WRITE));
  if result =? 0 then mret 0 else gets errno.

Definition woomem_os_decommit_memory `{Kernel K} (addr size : Z) : M K Z :=
  result ← syscall (mprotect addr size PROT_NONE);
  if result =? 0 then mret 0 else gets errno.

Definition woomem_os_release_memory `{Kernel K} (addr size : Z) : M K Z :=
  result ← syscall (munmap addr size);
  if result =? 0 then mret 0 else gets errno.

End Unix.

(** With [__EMSCRIPTEN__]: memory is mapped accessible, and committing does nothing. *)
Module Emscripten.

Definition woomem_os_reserve_memory `{Unix.Kernel K} (size : Z) : M K Z :=
  result ← syscall (Unix.mmap 0 size (Z.lor PROT_READ PROT_WRITE)
    (Z.lor MAP_PRIVATE MAP_ANONYMOUS) (-1) 0);
  mret (if result =? MAP_FAILED then 0 else result).

Definition woomem_os_commit_memory `{Unix.Kernel K} (addr size : Z) : M K Z := mret 0.
Definition woomem_os_decommit_memory `{Unix.Kernel K} (addr size : Z) : M K Z := mret 0.

End Emscripten.

(** ** The Windows variant *)

Definition MEM_COMMIT : Z := 0x1000.
Definition MEM_RESERVE : Z := 0x2000.
Definition MEM_DECOMMIT : Z := 0x4000.
Definition MEM_RELEASE : Z := 0x8000.
Definition PAGE_NOACCESS : Z := 0x01.
Definition PAGE_READWRITE : Z := 0x04.

Module Win32.

Class Kernel (K : Type) := {
  dwPageSize : Z;
  VirtualAlloc : Z → Z → Z → Z → K → Z * K;
  VirtualFree : Z → Z → Z → K → Z * K;
  GetLastError : K → Z;
}.

Definition woomem_os_page_size `{Kernel K} : M K Z := mret (u64 dwPageSize).

Definition woomem_os_reserve_memory `{Kernel K} (size : Z) : M K Z :=
  syscall (VirtualAlloc 0 size MEM_RESERVE PAGE_NOACCESS).

Definition woomem_os_commit_memory `{Kernel K} (addr size : Z) : M K Z :=
  result ← syscall (VirtualAlloc addr size MEM_COMMIT PAGE_READWRITE);
  if result =? 0 then (e ← gets GetLastError; mret (int32 e)) else mret 0.

Definition woomem_os_decommit_memory `{Kernel K} (addr size : Z) : M K Z :=
  result ← syscall (VirtualFree addr size MEM_DECOMMIT);
  if result =? 0 then (e ← gets GetLastError; mret (int32 e)) else mret 0.

(** The size is not passed on: the whole reservation is released. *)
Definition woomem_os_release_memory `{Kernel K} (addr size : Z) : M K Z :=
  result ← syscall (VirtualFree addr 0 MEM_RELEASE);
  if result =? 0 then (e ← gets GetLastError; mret (int32 e)) else mret 0.

End Win32.

(** ** Documented behaviour of the kernels *)

Definition read_write (prot : Z) : bool := Z.land prot 3 =? 3.

(** The address space as the Unix kernel sees it; it does not know which mappings belong together.  A
    refused [mprotect] may have changed some pages of the range. *)
Class UnixLaws (K : Type) `{Unix.Kernel K} := {
  ucell : K → Z → Cell;
  getpagesize_range : 0 < Unix.getpagesize < 2 ^ 31;
  mmap_law : ∀ k n prot r k', 0 < n →
    Unix.mmap 0 n prot (Z.lor MAP_PRIVATE MAP_ANONYMOUS) (-1) 0 k = (r, k') →
    (r = MAP_FAILED ∧ ∀ x, ucell k' x = ucell k x) ∨
    (0 < r ∧ r + n < 2 ^ 64 ∧ (Unix.getpagesize | r) ∧
      (∀ x, inside r n x → ucell k x = Free ∧ ucell k' x = Mapped (read_write prot) 0) ∧
      ((Unix.getpagesize | n) → ∀ x, ¬ inside r n x → ucell k' x = ucell k x));
  mprotect_law : ∀ k a n prot r k', 0 < n → (Unix.getpagesize | a) → (Unix.getpagesize | n) →
    (∀ x, inside a n x → ucell k x ≠ Free) → Unix.mprotect a n prot k = (r, k') →
    (r = 0 ∨ 0 < Unix.errno k') ∧
    (∀ x, ¬ inside a n x → ucell k' x = ucell k x) ∧
    (∀ x b v, inside a n x → ucell k x = Mapped b v →
      ucell k' x = Mapped (read_write prot) v ∨ (r ≠ 0 ∧ ucell k' x = ucell k x));
  munmap_law : ∀ k a n r k', 0 < n → (Unix.getpagesize | a) → (Unix.getpagesize | n) →
    Unix.munmap a n k = (r, k') →
    (r = 0 ∧ (∀ x, inside a n x → ucell k' x = Free) ∧ (∀ x, ¬ inside a n x → ucell k' x = ucell k x)) ∨
    (r ≠ 0 ∧ 0 < Unix.errno k' ∧ ∀ x, ucell k' x = ucell k x);
}.

(** Windows tracks the ranges that [VirtualAlloc] reserved.  Decommitting discards the contents. *)
Class Win32Laws (K : Type) `{Win32.Kernel K} := {
  wspace : K → Space;
  page_size_range : 0 < Win32.dwPageSize < 2 ^ 32;
  error_range : ∀ k, 0 ≤ Win32.GetLastError k < 2 ^ 32;
  reserve_law : ∀ k n r k', 0 < n → (Win32.dwPageSize | n) →
    Win32.VirtualAlloc 0 n MEM_RESERVE PAGE_NOACCESS k = (r, k') →
    (r = 0 ∧ wspace k' = wspace k) ∨
    (0 < r ∧ r + n ≤ 2 ^ 64 ∧ (Win32.dwPageSize | r) ∧
      regions (wspace k') = <[r := n]> (regions (wspace k)) ∧ frame r n (wspace k) (wspace k') ∧
      ∀ x, inside r n x → cells (wspace k) x = Free ∧ cells (wspace k') x = Mapped false 0);
  commit_law : ∀ k a n r k', 0 < n → (Win32.dwPageSize | a) → (Win32.dwPageSize | n) →
    within (wspace k) a n → Win32.VirtualAlloc a n MEM_COMMIT PAGE_READWRITE k = (r, k') →
    (r = 0 ∧ Win32.GetLastError k' ≠ 0 ∧ wspace k' = wspace k) ∨
    (r ≠ 0 ∧ regions (wspace k') = regions (wspace k) ∧ frame a n (wspace k) (wspace k') ∧
      ∀ x, inside a n x → cells (wspace k') x = make_accessible (cells (wspace k) x));
  decommit_law : ∀ k a n r k', 0 < n → (Win32.dwPageSize | a) → (Win32.dwPageSize | n) →
    within (wspace k) a n → Win32.VirtualFree a n MEM_DECOMMIT k = (r, k') →
    (r = 0 ∧ Win32.GetLastError k' ≠ 0 ∧ wspace k' = wspace k) ∨
    (r ≠ 0 ∧ regions (wspace k') = regions (wspace k) ∧ frame a n (wspace k) (wspace k') ∧
      ∀ x, inside a n x → cells (wspace k) x ≠ Free → cells (wspace k') x = Mapped false 0);
  release_law : ∀ k a n r k', regions (wspace k) !! a = Some n →
    Win32.VirtualFree a 0 MEM_RELEASE k = (r, k') →
    (r = 0 ∧ Win32.GetLastError k' ≠ 0 ∧ wspace k' = wspace k) ∨
    (r ≠ 0 ∧ regions (wspace k') = delete a (regions (wspace k)) ∧ frame a n (wspace k) (wspace k') ∧
      ∀ x, inside a n x → cells (wspace k') x = Free);
}.

(** ** The variants implement the interface *)

Lemma within_mapped s a n x : wf_space s → within s a n → inside a n x → cells s x ≠ Free.
Proof.
  intros Hwf (b & m & Hb & ? & ?) Hx. destruct (wf_mapped s Hwf b m Hb) as [_ Hm]. apply Hm.
  rewrite /inside in Hx |- *. lia.
Qed.

Lemma wp_syscall {K} (f : K → Z * K) (Q : Z → K → Prop) k :
  (∀ r k', f k = (r, k') → Q r k') → wp (syscall f) Q k.
Proof. intros HQ. rewrite /wp /syscall. destruct (f k). by apply HQ. Qed.

(** The shape of the results: 0, or the code of the error. *)
Lemma wp_checked {K} (f : K → Z * K) (err : K → Z) (Q : Z → K → Prop) k :
  (∀ r k', f k = (r, k') → Q (if r =? 0 then 0 else err k') k') →
  wp (result ← syscall f; if result =? 0 then mret 0 else gets err) Q k.
Proof.
  intros HQ. apply wp_bind, wp_syscall. intros r k' E%HQ. by destruct (r =? 0).
Qed.

Lemma int32_zero z : 0 ≤ z < 2 ^ 32 → int32 z = 0 → z = 0.
Proof. intros Hz. rewrite /int32 u32_small //. destruct (z <? 2 ^ 31) eqn:E; lia. Qed.

Ltac frame_inside x a n := destruct (decide (a ≤ x < a + n)) as [Hin|Hin].

Section unix.
Context {K : Type} `{!Unix.Kernel K} `{!UnixLaws K}.

(** The regions are known to the caller only. *)
Definition unix_rel (k : K) (s : Space) : Prop := ∀ x, ucell k x = cells s x.

Lemma unix_same_regions k' (rs : gmap Z Z) : unix_rel k' (MkSpace (ucell k') rs).
Proof. by intros x. Qed.

Lemma mmap_result k n prot s : unix_rel k s → 0 < n → (Unix.getpagesize | n) →
  wp (result ← syscall (Unix.mmap 0 n prot (Z.lor MAP_PRIVATE MAP_ANONYMOUS) (-1) 0);
      mret (if result =? MAP_FAILED then 0 else result))
    (λ r k', ∃ s', promised Unix.getpagesize (read_write prot) s (Reserve n) r s' ∧ unix_rel k' s') k.
Proof.
  intros Hr Hn Hd. apply wp_bind, wp_syscall. intros r k' E. apply wp_ret.
  destruct (mmap_law k n prot r k' Hn E) as [[-> Hsame]|(Hr1 & Hr2 & Hr3 & Hin & Hout)].
  - exists s. split; [left; by rewrite Z.eqb_refl|]. intros x. by rewrite Hsame Hr.
  - exists (MkSpace (ucell k') (<[r := n]> (regions s))). split; [|apply unix_same_regions].
    replace (r =? MAP_FAILED) with false by (rewrite /MAP_FAILED; lia). right. split_and!; [lia..|done|done| |].
    + intros x Hx. simpl. by rewrite Hout // Hr.
    + intros x Hx. simpl. destruct (Hin x Hx) as [Hf Hm]. by rewrite -Hr.
Qed.

(** [mprotect] for a caller who asks for whole pages of a reserved range. *)
Lemma mprotect_result k a n prot s : unix_rel k s → wf_space s → allowed Unix.getpagesize s (Commit a n) →
  wp (result ← syscall (Unix.mprotect a n prot); if result =? 0 then mret 0 else gets Unix.errno)
    (λ r k', ∃ s', regions s' = regions s ∧ frame a n s s' ∧ unix_rel k' s' ∧
      ∀ x b v, inside a n x → cells s x = Mapped b v →
        cells s' x = Mapped (read_write prot) v ∨ (r ≠ 0 ∧ cells s' x = cells s x)) k.
Proof.
  intros Hr Hwf (Hn & Ha & Hd & Hw). apply wp_checked. intros r k' E.
  destruct (mprotect_law k a n prot r k' Hn Ha Hd) as (He & Hout & Hin); [|done|].
  { intros x Hx. rewrite Hr. by eapply within_mapped. }
  assert (∀ r', (r = 0 ∨ r' ≠ 0) → ∃ s', regions s' = regions s ∧ frame a n s s' ∧ unix_rel k' s' ∧
    ∀ x b v, inside a n x → cells s x = Mapped b v →
      cells s' x = Mapped (read_write prot) v ∨ (r' ≠ 0 ∧ cells s' x = cells s x)) as Hgo.
  { intros r' Hr'. exists (MkSpace (ucell k') (regions s)). split_and!; [done| |apply unix_same_regions|].
    - intros x Hx. simpl. by rewrite Hout // Hr.
    - intros x b v Hx Hc. simpl. rewrite -Hr in Hc. destruct (Hin x b v Hx Hc) as [->|[Hz Hs]]; [by left|].
      right. rewrite Hs Hr. destruct Hr'; [lia|done]. }
  destruct (r =? 0) eqn:Er; apply Hgo; [left|right]; lia.
Qed.

Lemma munmap_result k a n s : unix_rel k s → wf_space s → allowed Unix.getpagesize s (Release a n) →
  wp (result ← syscall (Unix.munmap a n); if result =? 0 then mret 0 else gets Unix.errno)
    (λ r k', ∃ s', promised Unix.getpagesize false s (Release a n) r s' ∧ unix_rel k' s') k.
Proof.
  intros Hr Hwf (Hreg & Ha & Hd). destruct (wf_mapped s Hwf a n Hreg) as [Hn _]. apply wp_checked. intros r k' E.
  destruct (munmap_law k a n r k' Hn Ha Hd E) as [(-> & Hin & Hout)|(Hz & He & Hs)].
  - exists (MkSpace (ucell k') (delete a (regions s))). split; [|apply unix_same_regions]. left.
    split_and!; [done|done| |done]. intros x Hx. simpl. by rewrite Hout // Hr.
  - replace (r =? 0) with false by lia. exists s. split; [right; split_and!; [lia|done|done]|].
    intros x. by rewrite Hs Hr.
Qed.

Lemma page_size_result (z : Z) (k : K) : 0 < z < 2 ^ 32 → wp (mret (u64 z)) (λ r k', r = z ∧ k' = k) k.
Proof. intros Hz. rewrite u64_small; [|lia]. by split. Qed.

Definition unix_ops : OsOps K := {|
  os_page_size := Unix.woomem_os_page_size;
  os_reserve_memory := Unix.woomem_os_reserve_memory;
  os_commit_memory := Unix.woomem_os_commit_memory;
  os_decommit_memory := Unix.woomem_os_decommit_memory;
  os_release_memory := Unix.woomem_os_release_memory |}.

Definition emscripten_ops : OsOps K := {|
  os_page_size := Unix.woomem_os_page_size;
  os_reserve_memory := Emscripten.woomem_os_reserve_memory;
  os_commit_memory := Emscripten.woomem_os_commit_memory;
  os_decommit_memory := Emscripten.woomem_os_decommit_memory;
  os_release_memory := Unix.woomem_os_release_memory |}.

Lemma unix_law k s c : unix_rel k s → wf_space s → allowed Unix.getpagesize s c →
  wp (exec (H := unix_ops) c) (λ r k', ∃ s', promised Unix.getpagesize false s c r s' ∧ unix_rel k' s') k.
Proof.
  intros Hr Hwf Ha. destruct c as [n|a n|a n|a n]; simpl.
  - destruct Ha. by apply (mmap_result k n PROT_NONE).
  - eapply wp_mono; [by apply mprotect_result|]. intros r k' (s' & Hs & Hf & Hr' & Hin). exists s'.
    split; [split_and!; [done|done|]|done]. intros x Hx.
    destruct (cells s x) as [|b v] eqn:Ec; [by edestruct (within_mapped s a n x); try apply Ha|].
    simpl. rewrite -Ec. destruct (Hin x b v Hx Ec) as [->|[? ?]]; [by left|by right].
  - eapply wp_mono; [by apply mprotect_result|]. intros r k' (s' & Hs & Hf & Hr' & Hin). exists s'.
    split; [split_and!; [done|done|]|done]. intros x b v Hx Ec.
    destruct (Hin x b v Hx Ec) as [->|[? ?]]; [left; eauto|by right].
  - by apply munmap_result.
Qed.

(** Under Emscripten everything a region holds is accessible from the start. *)
Definition emscripten_rel (k : K) (s : Space) : Prop :=
  unix_rel k s ∧ ∀ b n x, regions s !! b = Some n → inside b n x → ∃ v, cells s x = Mapped true v.

Lemma emscripten_within k s a n x : emscripten_rel k s → within s a n → inside a n x →
  ∃ v, cells s x = Mapped true v.
Proof.
  intros [_ Hacc] (b & m & Hb & ? & ?) Hx. apply (Hacc b m x Hb). rewrite /inside in Hx |- *. lia.
Qed.

(** A call that changes nothing but promises something: the space stays as it is. *)
Lemma emscripten_law k s c : emscripten_rel k s → wf_space s → allowed Unix.getpagesize s c →
  wp (exec (H := emscripten_ops) c)
    (λ r k', ∃ s', promised Unix.getpagesize true s c r s' ∧ emscripten_rel k' s') k.
Proof.
  intros Hr Hwf Ha. destruct c as [n|a n|a n|a n]; simpl.
  - destruct Ha, Hr as [Hr Hacc]. eapply wp_mono; [by apply (mmap_result k n (Z.lor PROT_READ PROT_WRITE))|].
    intros r k' (s' & Hp & Hr'). exists s'. split; [done|]. split; [done|].
    destruct Hp as [(_ & Hreg & Hsame)|(_ & _ & _ & Hreg & Hf & Hin)]; rewrite Hreg; intros b m x Hb Hx.
    { rewrite Hsame. by eapply Hacc. }
    apply lookup_insert_Some in Hb as [[<- <-]|[_ Hb]]; [destruct (Hin x Hx); eauto|].
    destruct (Hacc b m x Hb Hx) as [v Hv]. destruct (decide (r ≤ x < r + n)) as [Hi|Hi]; [destruct (Hin x Hi); eauto|].
    rewrite Hf //. eauto.
  - exists s. split; [|exact Hr]. split_and!; [done|by intros ?|]. intros x Hx. left.
    by destruct (emscripten_within k s a n x Hr) as [v ->]; [apply Ha|done|].
  - exists s. split; [|exact Hr]. split_and!; [done|by intros ?|]. intros x b v Hx Hc. left. exists v.
    destruct (emscripten_within k s a n x Hr) as [v' Hv]; [apply Ha|done|].
    rewrite Hc in Hv. injection Hv as -> ->. rewrite Hc. by split; [|left].
  - destruct Hr as [Hr Hacc]. destruct Ha as (Hreg & Ha & Hd). eapply wp_mono; [by apply munmap_result|].
    intros r k' (s' & Hp & Hr'). exists s'. split; [done|]. split; [done|]. intros b m x.
    destruct Hp as [(_ & -> & Hf & Hin)|(_ & -> & Hsame)]; [|rewrite Hsame; apply Hacc].
    rewrite lookup_delete_Some. intros [Hne Hb] Hx. rewrite Hf; [by eapply Hacc|].
    intros Hi. by destruct Hne, (wf_apart s Hwf a n b m x).
Qed.
End unix.

Definition unix_memory K `{UnixLaws K} : OsMemory K (H := unix_ops).
Proof.
  refine {| os_ps := Unix.getpagesize; os_idle := false; os_rel := unix_rel |}.
  - apply getpagesize_range.
  - intros k. apply page_size_result. pose proof getpagesize_range. lia.
  - apply unix_law.
Defined.

Definition emscripten_memory K `{UnixLaws K} : OsMemory K (H := emscripten_ops).
Proof.
  refine {| os_ps := Unix.getpagesize; os_idle := true; os_rel := emscripten_rel |}.
  - apply getpagesize_range.
  - intros k. apply page_size_result. pose proof getpagesize_range. lia.
  - apply emscripten_law.
Defined.

Section win32.
Context {K : Type} `{!Win32.Kernel K} `{!Win32Laws K}.

Definition win32_ops : OsOps K := {|
  os_page_size := Win32.woomem_os_page_size;
  os_reserve_memory := Win32.woomem_os_reserve_memory;
  os_commit_memory := Win32.woomem_os_commit_memory;
  os_decommit_memory := Win32.woomem_os_decommit_memory;
  os_release_memory := Win32.woomem_os_release_memory |}.

Definition win32_rel (k : K) (s : Space) : Prop := s = wspace k.

(** The shape of the results: the error code of a refused call is not 0. *)
Lemma wp_last_error (f : K → Z * K) (Q : Z → K → Prop) k :
  (∀ r k', f k = (r, k') → (r = 0 → Win32.GetLastError k' ≠ 0) ∧
    ∀ e, (if r =? 0 then e ≠ 0 else e = 0) → Q e k') →
  wp (result ← syscall f;
      if result =? 0 then (e ← gets Win32.GetLastError; mret (int32 e)) else mret 0) Q k.
Proof.
  intros HQ. apply wp_bind, wp_syscall. intros r k' E. destruct (HQ r k' E) as [He Hgo].
  destruct (r =? 0) eqn:Er; wp_steps; apply Hgo; [|done].
  intros Hz%int32_zero; [|apply error_range]. destruct He; [lia|done].
Qed.

Lemma win32_law k s c : win32_rel k s → wf_space s → allowed Win32.dwPageSize s c →
  wp (exec (H := win32_ops) c) (λ r k', ∃ s', promised Win32.dwPageSize false s c r s' ∧ win32_rel k' s') k.
Proof.
  intros Hr Hwf Ha. unfold win32_rel in Hr. subst s. destruct c as [n|a n|a n|a n]; simpl.
  - destruct Ha as [Hn Hd]. apply wp_syscall. intros r k' E. exists (wspace k'). split; [|done].
    destruct (reserve_law k n r k' Hn Hd E) as [[-> Hs]|Hok]; [|right; exact Hok].
    left. by rewrite Hs.
  - destruct Ha as (Hn & Ha & Hd & Hw). apply wp_last_error. intros r k' E.
    destruct (commit_law k a n r k' Hn Ha Hd Hw E) as [(-> & He & Hs)|(Hz & Hreg & Hf & Hin)].
    + split; [done|]. intros e He'. exists (wspace k'). rewrite Hs. split; [|by rewrite /win32_rel Hs].
      split_and!; [done|by intros ?|auto].
    + split; [done|]. intros e _. exists (wspace k'). split; [|done]. split_and!; [done..|auto].
  - destruct Ha as (Hn & Ha & Hd & Hw). apply wp_last_error. intros r k' E.
    destruct (decommit_law k a n r k' Hn Ha Hd Hw E) as [(-> & He & Hs)|(Hz & Hreg & Hf & Hin)].
    + split; [done|]. intros e He'. exists (wspace k'). rewrite Hs. split; [|by rewrite /win32_rel Hs].
      split_and!; [done|by intros ?|auto].
    + split; [done|]. intros e _. exists (wspace k'). split; [|done]. split_and!; [done..|]. intros x b v Hx Hc. left.
      exists 0. split; [|by right]. apply Hin; [done|by rewrite Hc].
  - destruct Ha as (Hreg & Ha & Hd). apply wp_last_error. intros r k' E.
    destruct (release_law k a n r k' Hreg E) as [(-> & He & Hs)|(Hz & Hreg' & Hf & Hin)].
    + split; [done|]. intros e He'. exists (wspace k'). rewrite Hs. split; [by right|by rewrite /win32_rel Hs].
    + split; [done|]. intros e He'. exists (wspace k'). split; [left|done].
      replace (r =? 0) with false in He' by lia. by split_and!.
Qed.
End win32.

Definition win32_memory K `{Win32Laws K} : OsMemory K (H := win32_ops).
Proof.
  refine {| os_ps := Win32.dwPageSize; os_idle := false; os_rel := win32_rel |}.
  - apply page_size_range.
  - intros k. apply (page_size_result (K := K)). apply page_size_range.
  - apply win32_law.
Defined.
