(* ===== verification/OsSpec.v ===== *)
(** * The chunk as a client of the memory interface, and what it gets from every variant

    The constructor, the committing of pages and the destructor of the chunk, as calls of the
    interface [OsOps], and their theorems against [OsMemory]; then the theorems about the
    three variants, with a small concrete kernel. *)

From S2P Require Import Prelude SizeClass Locks Chunk Os.
Open Scope Z_scope.

(** ** The calls of the chunk *)

Section client.
Context {K : Type} `{!OsOps K}.

Definition no_chunk : Chunk := MkChunk 0 0 0 [] [] [] INDEX_NULL [] 0.

Definition Chunk_create (reserved_size : Z) : M K Chunk :=
  if reserved_size =? 0 then mret no_chunk
  else
    let total_pages := pages_for reserved_size in
    let reserved := u64 (total_pages * NORMAL_PAGE_SIZE) in
    base ← os_reserve_memory reserved;
    if base =? 0 then mret no_chunk
    else
      let n := Z.to_nat total_pages in
      count ← of_option OutOfBounds (rd (replicate n 0) 0);
      mret (MkChunk base reserved total_pages (wr (replicate n 0) 0 (u32 total_pages))
              (replicate n INDEX_NULL) (replicate n INDEX_NULL) 0 (replicate n 0) 0).

Definition Chunk_commit_page (c : Chunk) (idx : Z) : M K (Z * Chunk) :=
  let p := index_to_page c idx in
  committed ← of_option OutOfBounds (rd (commit_ c) idx);
  if committed =? 0 then
    os_commit_memory p NORMAL_PAGE_SIZE ;;
    mret (p, chunk (upd_commit (λ l, wr l idx 1) (MkChunkMem c ∅)))
  else mret (p, c).

Definition Chunk_destroy (c : Chunk) : M K unit :=
  if base_ c =? 0 then mret tt
  else os_release_memory (base_ c) (reserved_size_ c) ;; mret tt.

(** The pages the allocator commits while the chunk lives, in any order and also repeatedly. *)
Fixpoint commit_all (idxs : list Z) (c : Chunk) : M K Chunk :=
  match idxs with
  | [] => mret c
  | i :: rest => r ← Chunk_commit_page c i; commit_all rest r.2
  end.
End client.

Lemma rd_replicate_inv {A} n (v : A) i x : rd (replicate n v) i = Some x → 0 ≤ i ∧ v = x.
Proof. rewrite /rd. case_decide; [|done]. by intros [-> _]%lookup_replicate. Qed.

(** ** The space stays well formed *)

Lemma promised_wf ps idle s c r s' :
  wf_space s → allowed ps s c → promised ps idle s c r s' → wf_space s'.
Proof.
  intros Hwf Ha Hp. destruct c as [n|a n|a n|a n]; simpl in *.
  - destruct Hp as [(_ & Hreg & Hs)|(Hr & _ & _ & Hreg & Hf & Hin)].
    { split; rewrite Hreg; [|apply Hwf]. intros b m Hb. destruct (wf_mapped s Hwf b m Hb) as [? Hm].
      split; [done|]. intros x. rewrite Hs. apply Hm. }
    assert (∀ b m x, regions s !! b = Some m → inside b m x → ¬ inside r n x) as Hnew.
    { intros b m x Hb Hx Hi. destruct (wf_mapped s Hwf b m Hb) as [_ Hm]. apply (Hm x Hx), Hin, Hi. }
    split; rewrite Hreg.
    + intros b m [[<- <-]|[_ Hb]]%lookup_insert_Some.
      * split; [lia|]. intros x Hx. destruct (Hin x Hx) as [_ ->]. done.
      * destruct (wf_mapped s Hwf b m Hb) as [? Hm]. split; [done|]. intros x Hx.
        rewrite Hf; [by apply Hm|by eapply Hnew].
    + intros b m b' m' x [[<- <-]|[_ Hb]]%lookup_insert_Some [[<- <-]|[_ Hb']]%lookup_insert_Some Hx Hx'; [done| | |].
      * by destruct (Hnew b' m' x).
      * by destruct (Hnew b m x).
      * by eapply (wf_apart s Hwf).
  - destruct Hp as (Hreg & Hf & Hin). split; rewrite Hreg; [|apply Hwf].
    intros b m Hb. destruct (wf_mapped s Hwf b m Hb) as [? Hm]. split; [done|]. intros x Hx.
    destruct (decide (a ≤ x < a + n)) as [Hi|Hi]; [|rewrite Hf //; by apply Hm].
    destruct (Hin x Hi) as [->|[_ ->]]; [|by apply Hm]. specialize (Hm x Hx). by destruct (cells s x).
  - destruct Hp as (Hreg & Hf & Hin). split; rewrite Hreg; [|apply Hwf].
    intros b m Hb. destruct (wf_mapped s Hwf b m Hb) as [? Hm]. split; [done|]. intros x Hx.
    destruct (decide (a ≤ x < a + n)) as [Hi|Hi]; [|rewrite Hf //; by apply Hm]. specialize (Hm x Hx).
    destruct (cells s x) as [|b' v] eqn:Ec; [done|].
    destruct (Hin x b' v Hi Ec) as [(v' & -> & _)|[_ ->]]; [done|by rewrite Ec].
  - destruct Hp as [(_ & Hreg & Hf & Hin)|(_ & Hreg & Hs)]; split; rewrite Hreg.
    + intros b m [Hne Hb]%lookup_delete_Some. destruct (wf_mapped s Hwf b m Hb) as [? Hm].
      split; [done|]. intros x Hx. rewrite Hf; [by apply Hm|]. intros Hi.
      destruct Hne. by apply (wf_apart s Hwf a n b m x); [apply Ha|..].
    + intros b m b' m' x [_ Hb]%lookup_delete_Some [_ Hb']%lookup_delete_Some. by apply (wf_apart s Hwf).
    + intros b m Hb. destruct (wf_mapped s Hwf b m Hb) as [? Hm]. split; [done|]. intros x.
      rewrite Hs. apply Hm.
    + apply Hwf.
Qed.

(** ** The chunk against the interface *)

Section chunk_memory.
Context {K : Type} `{OsMemory K}.
Context (Hpage : (os_ps | NORMAL_PAGE_SIZE)).

(** The kernel grants the calls of a kind that the interface allows. *)
Definition never_refused (P : Call → Prop) : Prop :=
  ∀ k s c r k', P c → os_rel k s → allowed os_ps s c → exec c k = Ok (r, k') → r = 0.

(** What the chunk has of the address space that was [s0] before it was made. *)
Record chunk_space (s0 : Space) (c : Chunk) (s : Space) : Prop := {
  ck_total : 0 < total_pages_ c;
  ck_size : reserved_size_ c = total_pages_ c * NORMAL_PAGE_SIZE;
  ck_base : 0 < base_ c ∧ base_ c + reserved_size_ c ≤ 2 ^ 64 ∧ (os_ps | base_ c);
  ck_fresh : ∀ x, inside (base_ c) (reserved_size_ c) x → cells s0 x = Free;
  ck_new : regions s0 !! base_ c = None;
  ck_regions : regions s = <[base_ c := reserved_size_ c]> (regions s0);
  ck_frame : frame (base_ c) (reserved_size_ c) s0 s;
  ck_bits : Z.of_nat (length (commit_ c)) = total_pages_ c;
  ck_zero : ∀ x, inside (base_ c) (reserved_size_ c) x → cells s x = Mapped os_idle 0 ∨ cells s x = Mapped true 0;
}.

(** Nothing but the bit of the page changes in the chunk, or nothing at all. *)
Definition same_range (c c' : Chunk) : Prop :=
  base_ c' = base_ c ∧ reserved_size_ c' = reserved_size_ c ∧ total_pages_ c' = total_pages_ c.

Definition page_accessible (c : Chunk) (s : Space) (i : Z) : Prop :=
  ∀ x, inside (base_ c + i * NORMAL_PAGE_SIZE) NORMAL_PAGE_SIZE x → cells s x = Mapped true 0.

(** A set bit means an accessible page. *)
Definition bits_true (c : Chunk) (s : Space) : Prop :=
  ∀ i b, rd (commit_ c) i = Some b → b ≠ 0 → page_accessible c s i.

Lemma wp_os (c : Call) (Q : Z → K → Prop) k s :
  os_rel k s → wf_space s → allowed os_ps s c →
  (∀ r k' s', allowed os_ps s c → exec c k = Ok (r, k') → promised os_ps os_idle s c r s' → os_rel k' s' → wf_space s' → Q r k') →
  wp (exec c) Q k.
Proof using Type.
  intros Hr Hwf Ha HQ. destruct (wp_run _ _ _ (os_law k s c Hr Hwf Ha)) as (r & k' & E & s' & Hp & Hr').
  rewrite /wp E. apply (HQ r k' s'); [done..|]. by eapply promised_wf.
Qed.

Lemma pages_for_range size : 0 < size ≤ 2 ^ 63 →
  0 < pages_for size ∧ size ≤ pages_for size * NORMAL_PAGE_SIZE ≤ size + NORMAL_PAGE_SIZE ∧
  u64 (pages_for size * NORMAL_PAGE_SIZE) = pages_for size * NORMAL_PAGE_SIZE.
Proof using Type.
  intros Hs. rewrite /pages_for /NORMAL_PAGE_SIZE. rewrite (u64_small (size + _ - 1)); [|lia].
  assert (0 < (size + 32768 - 1) / 32768) by (apply Z.div_str_pos; lia).
  pose proof (Z.mul_div_le (size + 32768 - 1) 32768). pose proof (Z.mul_succ_div_gt (size + 32768 - 1) 32768).
  split_and!; [lia..|]. apply u64_small. lia.
Qed.

Lemma create_spec k s size : os_rel k s → wf_space s → 0 < size ≤ 2 ^ 63 →
  wp (Chunk_create size) (λ c k', ∃ s', os_rel k' s' ∧ wf_space s' ∧
    ((base_ c = 0 ∧ regions s' = regions s ∧ ∀ x, cells s' x = cells s x) ∨
     (chunk_space s c s' ∧ bits_true c s' ∧ total_pages_ c = pages_for size))) k.
Proof using Hpage.
  intros Hr Hwf Hs. destruct (pages_for_range size Hs) as (Ht & Hb & Hu).
  rewrite /Chunk_create. replace (size =? 0) with false by lia. apply wp_bind. rewrite Hu.
  apply (wp_os (Reserve (pages_for size * NORMAL_PAGE_SIZE)) _ k s Hr Hwf).
  { split; [rewrite /NORMAL_PAGE_SIZE; lia|by apply Z.divide_mul_r]. }
  intros r k' s' _ _ Hp Hr' Hwf'. destruct Hp as [(-> & Hreg & Hc)|(H1 & Hr2 & Hr3 & Hreg & Hf & Hin)].
  { apply wp_ret. exists s'. split_and!; [done..|]. by left. }
  replace (r =? 0) with false by lia. apply wp_bind. eapply wp_of_option; [apply rd_replicate; lia|].
  apply wp_ret. exists s'. split_and!; [done..|]. right. split_and!; [|
    intros i b [_ <-]%rd_replicate_inv Hb0; done|done].
  split; simpl; [done|done|split_and!; [lia|done|done]| | |done|done| |].
  - intros x Hx. apply Hin, Hx.
  - destruct (regions s !! r) as [m|] eqn:E; [|done]. destruct (wf_mapped s Hwf r m E) as [Hm Hx].
    destruct (Hx r); [rewrite /inside; lia|]. apply Hin. rewrite /inside /NORMAL_PAGE_SIZE. lia.
  - rewrite length_replicate. lia.
  - intros x Hx. left. apply Hin, Hx.
Qed.

(** The effect of committing page [i], whatever the result. *)
Lemma page_committed s0 s s' c i r :
  chunk_space s0 c s → 0 ≤ i < total_pages_ c → regions s' = regions s →
  frame (base_ c + i * NORMAL_PAGE_SIZE) NORMAL_PAGE_SIZE s s' →
  (∀ x, inside (base_ c + i * NORMAL_PAGE_SIZE) NORMAL_PAGE_SIZE x →
    cells s' x = make_accessible (cells s x) ∨ (r ≠ 0 ∧ cells s' x = cells s x)) →
  chunk_space s0 (chunk (upd_commit (λ l, wr l i 1) (MkChunkMem c ∅))) s' ∧
  (∀ x, inside (base_ c) (reserved_size_ c) x → cells s x = Mapped true 0 → cells s' x = Mapped true 0).
Proof using Type.
  intros Hc Hi Hreg Hf Hin. pose proof (ck_size _ _ _ Hc) as Hsz.
  assert (∀ x, inside (base_ c + i * NORMAL_PAGE_SIZE) NORMAL_PAGE_SIZE x →
    inside (base_ c) (reserved_size_ c) x) as Hsub.
  { intros x. rewrite /inside Hsz /NORMAL_PAGE_SIZE. nia. }
  assert (∀ x, inside (base_ c) (reserved_size_ c) x → cells s' x = cells s x ∨ cells s' x = Mapped true 0) as Hch.
  { intros x Hx. destruct (decide (base_ c + i * NORMAL_PAGE_SIZE ≤ x < base_ c + i * NORMAL_PAGE_SIZE + NORMAL_PAGE_SIZE)) as [Hp|Hp].
    - destruct (Hin x Hp) as [->|[_ ->]]; [|by left].
      destruct (ck_zero _ _ _ Hc x Hx) as [->| ->]; by right.
    - left. by apply Hf. }
  split.
  - destruct Hc; split; simpl; [done..|by rewrite Hreg| |by rewrite length_wr|].
    + intros x Hx. rewrite Hf; [by auto|]. by intros ?%Hsub.
    + intros x Hx. destruct (Hch x Hx) as [->| ->]; auto.
  - intros x Hx Ha. destruct (Hch x Hx) as [->| ->]; done.
Qed.

Lemma page_of_chunk c i x : 0 ≤ i < total_pages_ c → reserved_size_ c = total_pages_ c * NORMAL_PAGE_SIZE →
  inside (base_ c + i * NORMAL_PAGE_SIZE) NORMAL_PAGE_SIZE x → inside (base_ c) (reserved_size_ c) x.
Proof using Type. intros Hi ->. rewrite /inside /NORMAL_PAGE_SIZE. nia. Qed.

Lemma accessible_committed s0 s s' c i r :
  chunk_space s0 c s → 0 ≤ i < total_pages_ c → r = 0 →
  frame (base_ c + i * NORMAL_PAGE_SIZE) NORMAL_PAGE_SIZE s s' →
  (∀ x, inside (base_ c + i * NORMAL_PAGE_SIZE) NORMAL_PAGE_SIZE x →
    cells s' x = make_accessible (cells s x) ∨ (r ≠ 0 ∧ cells s' x = cells s x)) →
  bits_true c s →
  let c' := chunk (upd_commit (λ l, wr l i 1) (MkChunkMem c ∅)) in
  bits_true c' s' ∧ page_accessible c' s' i ∧ ∀ j, page_accessible c s j → page_accessible c' s' j.
Proof using Type.
  intros Hc Hi -> Hf Hin Hbits c'.
  assert (∀ j, page_accessible c s j → page_accessible c' s' j) as Hkeep.
  { intros j Hj x Hx. simpl in Hx.
    destruct (decide (base_ c + i * NORMAL_PAGE_SIZE ≤ x < base_ c + i * NORMAL_PAGE_SIZE + NORMAL_PAGE_SIZE)) as [Hp|Hp].
    - destruct (Hin x Hp) as [->|[? _]]; [|done]. by rewrite (Hj x Hx).
    - rewrite Hf //. by apply Hj. }
  assert (page_accessible c' s' i) as Hnew.
  { intros x Hx. destruct (Hin x Hx) as [->|[? _]]; [|done].
    destruct (ck_zero _ _ _ Hc x) as [->| ->]; [|done..]. eapply page_of_chunk; [done|apply Hc|done]. }
  split_and!; [|done|done]. intros j b. rewrite /= rd_wr; [|rewrite (ck_bits _ _ _ Hc); lia].
  case_decide as Hij; [by subst|]. intros Hj Hb. by eapply Hkeep, Hbits.
Qed.

Lemma commit_spec k s0 s c i : os_rel k s → wf_space s → chunk_space s0 c s → 0 ≤ i < total_pages_ c →
  wp (Chunk_commit_page c i) (λ r k', ∃ s', os_rel k' s' ∧ wf_space s' ∧ chunk_space s0 r.2 s' ∧
    same_range c r.2 ∧ r.1 = base_ c + i * NORMAL_PAGE_SIZE ∧
    (never_refused (λ c, match c with Commit _ _ => True | _ => False end) → bits_true c s →
      bits_true r.2 s' ∧ page_accessible r.2 s' i ∧
      ∀ j, page_accessible c s j → page_accessible r.2 s' j)) k.
Proof using Hpage.
  intros Hr Hwf Hc Hi. destruct (ck_base _ _ _ Hc) as (Hb1 & Hb2 & Hb3).
  assert (Hsz := ck_size _ _ _ Hc).
  assert (index_to_page c i = base_ c + i * NORMAL_PAGE_SIZE) as Hp.
  { rewrite /index_to_page u64_small //. rewrite /NORMAL_PAGE_SIZE in Hsz |- *. nia. }
  rewrite /Chunk_commit_page Hp.
  destruct (rd_in (commit_ c) i) as [b Hb]; [rewrite (ck_bits _ _ _ Hc); lia|].
  apply wp_bind. eapply wp_of_option; [exact Hb|]. destruct (b =? 0) eqn:Eb.
  2:{ apply wp_ret. exists s. split_and!; [done..|]. intros _ Hbits. simpl. split_and!; [done| |done].
      apply (Hbits i b Hb). lia. }
  apply wp_bind. apply (wp_os (Commit (base_ c + i * NORMAL_PAGE_SIZE) NORMAL_PAGE_SIZE) _ k s Hr Hwf).
  { split_and!; [done|by apply Z.divide_add_r; [|apply Z.divide_mul_r]|done|].
    exists (base_ c), (reserved_size_ c). rewrite (ck_regions _ _ _ Hc) lookup_insert_eq Hsz.
    split; [done|]. rewrite /NORMAL_PAGE_SIZE. nia. }
  intros r k' s' Hall E (Hreg & Hf & Hin) Hr' Hwf'. apply wp_ret. exists s'.
  destruct (page_committed s0 s s' c i r Hc Hi Hreg Hf Hin) as [Hc' Hacc].
  split_and!; [done..|]. intros Hok Hbits.
  apply (Hok k s) in E as ->; [|done..]. by apply (accessible_committed s0 s s' c i 0).
Qed.

Lemma commit_all_spec k s0 s c idxs : os_rel k s → wf_space s → chunk_space s0 c s →
  Forall (λ i, 0 ≤ i < total_pages_ c) idxs →
  wp (commit_all idxs c) (λ c' k', ∃ s', os_rel k' s' ∧ wf_space s' ∧ chunk_space s0 c' s' ∧
    same_range c c' ∧
    (never_refused (λ c, match c with Commit _ _ => True | _ => False end) → bits_true c s →
      Forall (page_accessible c' s') idxs ∧ ∀ j, page_accessible c s j → page_accessible c' s' j)) k.
Proof using Hpage.
  revert k s c. induction idxs as [|i idxs IH]; intros k s c Hr Hwf Hc Hall; simpl.
  { apply wp_ret. exists s. by split_and!. }
  apply Forall_cons in Hall as [Hi Hall]. eapply wp_seq; [by apply commit_spec|].
  intros [p c1] k1 (s1 & Hr1 & Hwf1 & Hc1 & (Hsb & Hss & Hst) & _ & Hacc). simpl in *.
  eapply wp_mono; [apply (IH k1 s1 c1); [done..|by rewrite Hst]|].
  intros c' k' (s' & Hr' & Hwf' & Hc' & (Hsb' & Hss' & Hst') & Hacc'). exists s'.
  split_and!; [done..|by rewrite /same_range Hsb' Hss' Hst'|]. intros Hok Hb.
  destruct (Hacc Hok Hb) as (Hb1 & Hi1 & Hk1). destruct (Hacc' Hok Hb1) as [Hidx Hk'].
  split; [constructor; auto|auto].
Qed.

Lemma destroy_spec k s0 s c : os_rel k s → wf_space s → chunk_space s0 c s →
  never_refused (λ c, match c with Release _ _ => True | _ => False end) →
  wp (Chunk_destroy c) (λ _ k', ∃ s', os_rel k' s' ∧ regions s' = regions s0 ∧ ∀ x, cells s' x = cells s0 x) k.
Proof using Hpage.
  intros Hr Hwf Hc Hok. destruct (ck_base _ _ _ Hc) as (Hb1 & Hb2 & Hb3). rewrite /Chunk_destroy.
  replace (base_ c =? 0) with false by lia. apply wp_bind.
  apply (wp_os (Release (base_ c) (reserved_size_ c)) _ k s Hr Hwf).
  { rewrite /= (ck_regions _ _ _ Hc) lookup_insert_eq (ck_size _ _ _ Hc). split_and!; [done..|].
    by apply Z.divide_mul_r. }
  intros r k' s' Hall E Hp Hr' _. apply (Hok k s) in E as ->; [|done..]. destruct Hp as [(_ & Hreg & Hf & Hin)|[? _]]; [|done].
  apply wp_ret. exists s'. split_and!; [done| |].
  - rewrite Hreg (ck_regions _ _ _ Hc). apply delete_insert_id, (ck_new _ _ _ Hc).
  - intros x. destruct (decide (base_ c ≤ x < base_ c + reserved_size_ c)) as [Hx|Hx].
    + rewrite Hin // (ck_fresh _ _ _ Hc) //.
    + rewrite Hf //. by apply (ck_frame _ _ _ Hc).
Qed.
End chunk_memory.

(** ** A small kernel *)

(** It hands out addresses upwards in steps of 64 KiB up to a bound, and never refuses anything else. *)
Module SmallKernel.

Record st := MkSt { table : Z → Cell; ranges : gmap Z Z; used : N }.

Definition next (k : st) : Z := 0x10000 * (1 + Z.of_N (used k)).
Definition view (k : st) (x : Z) : Cell := if next k <=? x then Free else table k x.
Definition space (k : st) : Space := MkSpace (view k) (ranges k).

Definition in_rangeb (a n x : Z) : bool := (a <=? x) && (x <? a + n).

(** A change of the cells of a range. *)
Definition change (f : Cell → Cell) (a n : Z) (k : st) : st :=
  MkSt (λ x, if in_rangeb a n x then f (view k x) else table k x) (ranges k) (used k).
Definition map_new (c : Cell) (n : Z) (k : st) : Z * st :=
  if next k + n <=? 2 ^ 40 then
    (next k, MkSt (λ x, if in_rangeb (next k) n x then c else view k x)
      (<[next k := n]> (ranges k)) (used k + Z.to_N (n / 0x10000 + 1))%N)
  else (0, k).
Definition forget (a : Z) (k : st) : st := MkSt (table k) (delete a (ranges k)) (used k).

Definition set_access (b : bool) (c : Cell) : Cell := match c with Free => Free | Mapped _ v => Mapped b v end.

#[global] Instance unix : Unix.Kernel st := {|
  Unix.getpagesize := 4096;
  Unix.mmap _ n prot _ _ _ k :=
    let r := map_new (Mapped (read_write prot) 0) n k in ((if r.1 =? 0 then MAP_FAILED else r.1), r.2);
  Unix.mprotect a n prot k := (0, change (set_access (read_write prot)) a n k);
  Unix.munmap a n k := (0, change (λ _, Free) a n k);
  Unix.errno _ := 12;
|}.

#[global] Instance win32 : Win32.Kernel st := {|
  Win32.dwPageSize := 4096;
  Win32.VirtualAlloc a n type _ k :=
    if type =? MEM_RESERVE then map_new (Mapped false 0) n k else (Z.max 1 a, change make_accessible a n k);
  Win32.VirtualFree a n type k :=
    if type =? MEM_DECOMMIT then (1, change (λ c, match c with Free => Free | Mapped _ _ => Mapped false 0 end) a n k)
    else match ranges k !! a with
         | Some m => (1, forget a (change (λ _, Free) a m k))
         | None => (0, k)
         end;
  Win32.GetLastError _ := 487;
|}.

Lemma in_rangeb_spec a n x : in_rangeb a n x = true ↔ inside a n x.
Proof. rewrite /in_rangeb /inside. lia. Qed.

Lemma view_in f a n k x : f Free = Free → inside a n x → view (change f a n k) x = f (view k x).
Proof.
  intros Hf Hx%in_rangeb_spec. rewrite {1}/view /= Hx.
  replace (next (change f a n k)) with (next k) by done. rewrite /view. by destruct (next k <=? x).
Qed.

Lemma view_out f a n k x : ¬ inside a n x → view (change f a n k) x = view k x.
Proof.
  intros Hx. rewrite {1}/view /=. destruct (in_rangeb a n x) eqn:E; [by apply in_rangeb_spec in E|done].
Qed.

Lemma map_new_spec c n k r k' : 0 < n → map_new c n k = (r, k') →
  (r = 0 ∧ k' = k) ∨
  (0 < r ∧ r + n < 2 ^ 64 ∧ (4096 | r) ∧ ranges k' = <[r := n]> (ranges k) ∧
    (∀ x, inside r n x → view k x = Free ∧ view k' x = c) ∧ (∀ x, ¬ inside r n x → view k' x = view k x)).
Proof.
  intros Hn. rewrite /map_new. destruct (next k + n <=? 2 ^ 40) eqn:E; intros [= <- <-]; [right|by left].
  assert (0 < next k) by (rewrite /next; lia).
  match goal with |- context [ranges ?t = _] => set (k1 := t) end.
  assert (next k + n ≤ next k1) as Hnext.
  { rewrite /k1 /next /=. pose proof (Z.mul_succ_div_gt n 0x10000). pose proof (Z.div_pos n 0x10000). lia. }
  assert (∀ x, view k1 x = if next k1 <=? x then Free else
    if in_rangeb (next k) n x then c else view k x) as Hview by done.
  split_and!; [lia|lia| |done| |]; clearbody k1.
  - rewrite /next. exists (16 * (1 + Z.of_N (used k))). lia.
  - intros x Hx. assert (Hb := proj2 (in_rangeb_spec _ _ _) Hx). rewrite /inside in Hx. split.
    + rewrite /view. by replace (next k <=? x) with true by lia.
    + rewrite Hview Hb. by replace (next k1 <=? x) with false by lia.
  - intros x Hx. rewrite Hview. destruct (in_rangeb (next k) n x) eqn:Eb; [by apply in_rangeb_spec in Eb|].
    destruct (next k1 <=? x) eqn:El; [|done]. rewrite /view. by replace (next k <=? x) with true by lia.
Qed.

#[global] Instance unix_laws : UnixLaws st.
Proof.
  refine {| ucell := view |}.
  - done.
  - intros k n prot r k' Hn. simpl. destruct (map_new _ n k) as [r1 k1] eqn:E. simpl. intros [= <- <-].
    destruct (map_new_spec _ n k r1 k1 Hn E) as [[-> ->]|(Hr1 & Hr2 & Hr3 & _ & Hin & Hout)]; [by left|].
    right. replace (r1 =? 0) with false by lia. by split_and!.
  - intros k a n prot r k' _ _ _ _ [= <- <-]. split_and!; [by left|by apply view_out|].
    intros x b v Hx Hc. left. by rewrite view_in // Hc.
  - intros k a n r k' _ _ _ [= <- <-]. left. split_and!; [done|intros x Hx; by rewrite view_in|by apply view_out].
Defined.

#[global] Instance win32_laws : Win32Laws st.
Proof.
  refine {| wspace := space |}.
  - done.
  - done.
  - intros k n r k' Hn _ E. destruct (map_new_spec _ n k r k' Hn E) as [[-> ->]|(Hr1 & Hr2 & Hr3 & Hr4 & Hin & Hout)]; [by left|].
    right. split_and!; [done|lia|done..].
  - intros k a n r k' Hn _ _ _ [= <- <-]. right. split_and!; [lia|done|by intros x; apply view_out|].
    intros x Hx. by apply view_in.
  - intros k a n r k' Hn _ _ _ [= <- <-]. right. split_and!; [done|done|by intros x; apply view_out|].
    intros x Hx Hc. rewrite /= view_in //. by destruct (view k x) eqn:E; [destruct Hc|].
  - intros k a n r k' Hreg E. simpl in E, Hreg. rewrite Hreg in E. injection E as <- <-. right.
    split_and!; [done|done|by intros x; apply view_out|]. intros x Hx.
    rewrite /= /forget /=. by apply (view_in (λ _, Free)).
Defined.
End SmallKernel.

(** ** The answers that the model of the chunk takes as parameters are those of the Unix variant *)

Section answers.
Context {K : Type} `{!Unix.Kernel K}.

Definition answers (k : K) (e : Z) : Kernel := {|
  sys_mmap n := (Unix.mmap 0 n PROT_NONE (Z.lor MAP_PRIVATE MAP_ANONYMOUS) (-1) 0 k).1;
  sys_mprotect a n := (Unix.mprotect a n (Z.lor PROT_READ PROT_WRITE) k).1;
  sys_errno := e;
|}.

Lemma reserve_answer k e n :
  wp (Unix.woomem_os_reserve_memory n) (λ r _, r = woomem_os_reserve_memory (H := answers k e) n) k.
Proof.
  apply wp_bind, wp_syscall. intros r k' E. apply wp_ret. by rewrite /woomem_os_reserve_memory /= E.
Qed.

Lemma commit_answer k e a n :
  wp (Unix.woomem_os_commit_memory a n)
    (λ r k', e = Unix.errno k' → r = woomem_os_commit_memory (H := answers k e) a n) k.
Proof.
  apply wp_checked. intros r k' E ->. by rewrite /woomem_os_commit_memory /= E.
Qed.

Lemma create_answer k e size : 0 < size ≤ 2 ^ 63 →
  wp (Chunk_create (OsOps0 := unix_ops) size) (λ c _, Chunk_ctor (H := answers k e) size = Ok c) k.
Proof.
  intros Hs. destruct (pages_for_range size Hs) as (Ht & _). rewrite /Chunk_create /Chunk_ctor.
  replace (size =? 0) with false by lia.
  eapply wp_seq; [apply (reserve_answer k e)|]. intros r k' <-. destruct (r =? 0); [done|].
  apply wp_bind. destruct (rd_in (replicate (Z.to_nat (pages_for size)) 0) 0) as [v Hv]; [rewrite length_replicate; lia|].
  eapply wp_of_option; [exact Hv|]. apply wp_ret. by rewrite Hv.
Qed.
End answers.

(** ** Theorems *)

(** C14: each of the three variants of the memory interface implements the abstract address space: on a
    kernel that behaves as documented, a reservation returns fresh, page-aligned, zeroed memory or a
    null pointer; committing makes exactly the asked pages accessible and keeps their contents, or
    returns an error; releasing frees exactly the reserved range; nothing else changes, and
    the reserved ranges stay mapped and disjoint. *)
Theorem os_variants_refine (U W : Type) `{UnixLaws U} `{Win32Laws W} (s : Space) (c : Call) :
  wf_space s →
  (∀ k : U, unix_rel k s → allowed Unix.getpagesize s c →
    wp (exec (H := unix_ops) c)
      (λ r k', ∃ s', promised Unix.getpagesize false s c r s' ∧ wf_space s' ∧ unix_rel k' s') k) ∧
  (∀ k : U, emscripten_rel k s → allowed Unix.getpagesize s c →
    wp (exec (H := emscripten_ops) c)
      (λ r k', ∃ s', promised Unix.getpagesize true s c r s' ∧ wf_space s' ∧ emscripten_rel k' s') k) ∧
  (∀ k : W, win32_rel k s → allowed Win32.dwPageSize s c →
    wp (exec (H := win32_ops) c)
      (λ r k', ∃ s', promised Win32.dwPageSize false s c r s' ∧ wf_space s' ∧ win32_rel k' s') k).
Proof.
  intros Hwf. split_and!; intros k Hr Ha.
  - eapply wp_mono; [by apply unix_law|]. intros r k' (s' & Hp & Hr'). exists s'.
    split_and!; [done|by eapply promised_wf|done].
  - eapply wp_mono; [by apply emscripten_law|]. intros r k' (s' & Hp & Hr'). exists s'.
    split_and!; [done|by eapply promised_wf|done].
  - eapply wp_mono; [by apply win32_law|]. intros r k' (s' & Hp & Hr'). exists s'.
    split_and!; [done|by eapply promised_wf|done].
Qed.


(** C24: on every implementation of the interface that refuses no release (the destructor does not test for it) and
    whose page size divides that of the chunk, making a chunk, committing pages of it in any order and destroying it gives back exactly what was reserved: the address space is as it was before. *)
Theorem chunk_memory_returned (K : Type) `{OsMemory K} (k : K) (s : Space) (size : Z) (idxs : list Z) :
  os_rel k s → wf_space s → (os_ps | NORMAL_PAGE_SIZE) → 0 < size ≤ 2 ^ 63 →
  Forall (λ i, 0 ≤ i < pages_for size) idxs →
  never_refused (λ c, match c with Release _ _ => True | _ => False end) →
  wp (c ← Chunk_create size; (if base_ c =? 0 then mret c else commit_all idxs c) ≫= Chunk_destroy)
    (λ _ k', ∃ s', os_rel k' s' ∧ regions s' = regions s ∧ ∀ x, cells s' x = cells s x) k.
Proof.
  intros Hr Hwf Hp Hs Hidx Hok. eapply wp_seq; [by apply create_spec|].
  intros c k1 (s1 & Hr1 & Hwf1 & [(Hb & Hreg & Hsame)|(Hc & Hbits & Ht)]).
  { replace (base_ c =? 0) with true by lia. apply wp_bind, wp_ret. rewrite /Chunk_destroy.
    replace (base_ c =? 0) with true by lia. apply wp_ret. eauto. }
  destruct (ck_base _ _ _ Hc) as [Hb _]. replace (base_ c =? 0) with false by lia.
  eapply wp_seq; [apply (commit_all_spec Hp k1 s s1 c); [done..|by rewrite Ht]|].
  intros c' k' (s' & Hr' & Hwf' & Hc' & _). by eapply destroy_spec.
Qed.

(** ** Witnesses *)

Definition no_memory : SmallKernel.st := SmallKernel.MkSt (λ _, Free) ∅ 0.

Lemma wf_empty k : SmallKernel.ranges k = ∅ → wf_space (SmallKernel.space k).
Proof. intros Hk. split; simpl; rewrite Hk; by intros. Qed.

Lemma os_variants_refine_witness :
  wp (exec (H := win32_ops) (Reserve 65536)) (λ r k', ∃ s',
    promised 4096 false (SmallKernel.space no_memory) (Reserve 65536) r s' ∧ wf_space s' ∧ win32_rel k' s') no_memory.
Proof.
  destruct (os_variants_refine SmallKernel.st SmallKernel.st (SmallKernel.space no_memory) (Reserve 65536)
    (wf_empty no_memory eq_refl)) as (_ & _ & Hw). apply Hw.
  - reflexivity.
  - split; [lia|]. exists 16. reflexivity.
Defined.


Lemma chunk_memory_returned_witness :
  wp (c ← Chunk_create (OsOps0 := win32_ops) 100000;
      (if base_ c =? 0 then mret c else commit_all (OsOps0 := win32_ops) [2] c) ≫= Chunk_destroy (OsOps0 := win32_ops))
    (λ _ k', SmallKernel.ranges k' = ∅ ∧ ∀ x, SmallKernel.view k' x = Free) no_memory.
Proof.
  eapply wp_mono.
  - apply (chunk_memory_returned SmallKernel.st (H0 := win32_memory SmallKernel.st) no_memory
      (SmallKernel.space no_memory) 100000 [2]); [done|by apply wf_empty|by exists 8|lia|by repeat constructor|].
    intros k s [] r k' Hc; try done. intros -> (Hreg & _ & _). simpl in Hreg.
    rewrite /= /Win32.woomem_os_release_memory /mbind /M_bind /syscall /= Hreg. by intros [= <- _].
  - intros _ k' (s' & Hr & Hreg & Hcells). change (s' = SmallKernel.space k') in Hr. subst s'.
    split; [done|]. intros x. etrans; [exact (Hcells x)|].
    rewrite /= /SmallKernel.view. by destruct (_ <=? x).
Defined.
