(* ===== verification/Blocks.v ===== *)
(** * Block lists: the abstract view of a chunk

    A chunk is a row of blocks that tile its pages, each allocated, free, or in
    transit between the two.  This file holds the abstract specification of the
    page allocator on such rows (first fit, release with coalescing, ownership of
    a page) and the theory of doubly linked lists kept in two index arrays. *)

From S2P Require Import Prelude Chunk.
Open Scope Z_scope.

(** ** Blocks *)

Inductive bkind := KAlloc | KFree | KBusy.

#[export] Instance bkind_eq_dec : EqDecision bkind.
Proof. solve_decision. Defined.

Record block := Blk { b_start : Z; b_len : Z; b_kind : bkind }.

#[export] Instance block_eq_dec : EqDecision block.
Proof. solve_decision. Defined.

(** The blocks cover [lo, hi) from left to right without gap or overlap. *)
Fixpoint tiles (lo hi : Z) (bl : list block) : Prop :=
  match bl with
  | [] => lo = hi
  | b :: bl' => b_start b = lo ∧ 0 < b_len b ∧ tiles (lo + b_len b) hi bl'
  end.

Definition is_free (b : block) : bool := bool_decide (b_kind b = KFree).
Definition is_busy (b : block) : bool := bool_decide (b_kind b = KBusy).

(** The indices of the free blocks, left to right. *)
Fixpoint frees (bl : list block) : list Z :=
  match bl with
  | [] => []
  | b :: bl' => if is_free b then b_start b :: frees bl' else frees bl'
  end.

Definition no_busy (bl : list block) : Prop := Forall (λ b, is_busy b = false) bl.

(** No two neighbours are both free. *)
Fixpoint coalesced (bl : list block) : Prop :=
  match bl with
  | [] => True
  | b :: bl' =>
    match bl' with
    | [] => True
    | c :: _ => (is_free b && is_free c = false) ∧ coalesced bl'
    end
  end.

(** ** The abstract operations *)

Definition join (b : block) (bl : list block) : list block :=
  match bl with
  | c :: bl' =>
    if is_free b && is_free c then Blk (b_start b) (b_len b + b_len c) KFree :: bl'
    else b :: bl
  | [] => [b]
  end.

Fixpoint coalesce (bl : list block) : list block :=
  match bl with
  | [] => []
  | b :: bl' => join b (coalesce bl')
  end.

(** First fit: the first free block of at least [req] pages is cut at [req]. *)
Fixpoint first_fit (req : Z) (bl : list block) : option (Z * list block) :=
  match bl with
  | [] => None
  | b :: bl' =>
    if is_free b && (req <=? b_len b) then
      Some (b_start b,
            Blk (b_start b) req KAlloc ::
            (if req <? b_len b then Blk (b_start b + req) (b_len b - req) KFree :: bl' else bl'))
    else
      match first_fit req bl' with
      | Some (x, r) => Some (x, b :: r)
      | None => None
      end
  end.

(** Release: the allocated block that starts at [x] becomes free and merges with
    its free neighbours. *)
Definition mark_free (x : Z) (b : block) : block :=
  if bool_decide (b_start b = x ∧ b_kind b = KAlloc) then Blk x (b_len b) KFree else b.

Definition release (x : Z) (bl : list block) : list block := coalesce (mark_free x <$> bl).

(** The allocated block a page belongs to. *)
Definition owns (i : Z) (b : block) : bool :=
  bool_decide (b_kind b = KAlloc) && (b_start b <=? i) && (i <? b_start b + b_len b).

Definition owner (i : Z) (bl : list block) : option block := List.find (owns i) bl.

(** ** Tilings *)

Lemma tiles_app lo hi bl1 bl2 :
  tiles lo hi (bl1 ++ bl2) ↔ ∃ mid, tiles lo mid bl1 ∧ tiles mid hi bl2.
Proof.
  revert lo. induction bl1 as [|b bl1 IH]; intros lo; simpl.
  - split; [intros H; by exists lo|by intros (mid & -> & ?)].
  - rewrite IH. split.
    + intros (? & ? & mid & ? & ?). by exists mid.
    + intros (mid & (? & ? & ?) & ?). split; [done|]. split; [done|]. by exists mid.
Qed.

Lemma tiles_le lo hi bl : tiles lo hi bl → lo ≤ hi.
Proof.
  revert lo. induction bl as [|b bl IH]; intros lo; simpl; [lia|].
  intros (_ & ? & ?%IH). lia.
Qed.

Lemma tiles_elem lo hi bl b :
  tiles lo hi bl → b ∈ bl → lo ≤ b_start b ∧ 0 < b_len b ∧ b_start b + b_len b ≤ hi.
Proof.
  intros Ht (bl1 & bl2 & ->)%list_elem_of_split.
  apply tiles_app in Ht as (mid & H1 & Hs & Hl & H2).
  apply tiles_le in H1. apply tiles_le in H2. lia.
Qed.

(** The facts a decomposition around one block gives. *)
Lemma tiles_mid lo hi bl1 b bl2 :
  tiles lo hi (bl1 ++ b :: bl2) ↔
  tiles lo (b_start b) bl1 ∧ 0 < b_len b ∧ tiles (b_start b + b_len b) hi bl2.
Proof.
  rewrite tiles_app /=. split.
  - by intros (mid & H1 & <- & ? & ?).
  - intros (H1 & ? & ?). by exists (b_start b).
Qed.

(** Two blocks of a tiling that share a page are the same block. *)
Lemma tiles_disjoint lo hi bl b c i :
  tiles lo hi bl → b ∈ bl → c ∈ bl →
  b_start b ≤ i < b_start b + b_len b → b_start c ≤ i < b_start c + b_len c → b = c.
Proof.
  intros Ht (bl1 & bl2 & ->)%list_elem_of_split Hc Hb Hi.
  apply tiles_mid in Ht as (H1 & Hl & H2).
  apply elem_of_app in Hc as [Hc|[->|Hc]%elem_of_cons]; [|done|].
  - pose proof (tiles_elem _ _ _ _ H1 Hc). lia.
  - pose proof (tiles_elem _ _ _ _ H2 Hc). lia.
Qed.

Lemma tiles_cover lo hi bl i :
  tiles lo hi bl → lo ≤ i < hi → ∃ b, b ∈ bl ∧ b_start b ≤ i < b_start b + b_len b.
Proof.
  revert lo. induction bl as [|b bl IH]; intros lo; simpl; [lia|].
  intros (<- & ? & Ht) Hi. destruct (decide (i < b_start b + b_len b)).
  - exists b. split; [constructor|lia].
  - destruct (IH _ Ht) as (c & ? & ?); [lia|]. exists c. split; [by constructor|done].
Qed.

(** ** Free blocks of a row *)

Lemma frees_app bl1 bl2 : frees (bl1 ++ bl2) = frees bl1 ++ frees bl2.
Proof. induction bl1 as [|b bl1 IH]; simpl; [done|]. destruct (is_free b); simpl; by rewrite IH. Qed.

Lemma frees_cons b bl : frees (b :: bl) = (if is_free b then [b_start b] else []) ++ frees bl.
Proof. simpl. by destruct (is_free b). Qed.

Lemma elem_of_frees bl x :
  x ∈ frees bl → ∃ b, b ∈ bl ∧ b_start b = x ∧ is_free b = true.
Proof.
  induction bl as [|b bl IH]; simpl; [by intros ?%not_elem_of_nil|].
  destruct (is_free b) eqn:E.
  - intros [->|Hx]%elem_of_cons; [exists b; repeat split; [constructor|done]|].
    destruct (IH Hx) as (c&?&?). exists c. split; [by constructor|done].
  - intros Hx. destruct (IH Hx) as (c&?&?). exists c. split; [by constructor|done].
Qed.

Lemma frees_range lo hi bl x : tiles lo hi bl → x ∈ frees bl → lo ≤ x < hi.
Proof.
  intros Ht (b & Hb & <- & _)%elem_of_frees. pose proof (tiles_elem _ _ _ _ Ht Hb). lia.
Qed.

Lemma frees_nodup lo hi bl : tiles lo hi bl → NoDup (frees bl).
Proof.
  revert lo. induction bl as [|b bl IH]; intros lo; simpl; [constructor|].
  intros (<- & Hl & Ht). destruct (is_free b); [|eauto].
  constructor; [|eauto]. intros Hx. pose proof (frees_range _ _ _ _ Ht Hx). lia.
Qed.

Lemma length_frees lo hi bl : tiles lo hi bl → length (frees bl) ≤ hi - lo.
Proof.
  revert lo. induction bl as [|b bl IH]; intros lo; simpl; [lia|].
  intros (<- & Hl & Ht). pose proof (IH _ Ht). destruct (is_free b); simpl; lia.
Qed.

(** ** Coalescing *)

Lemma coalesced_tail b bl : coalesced (b :: bl) → coalesced bl.
Proof. destruct bl; [done|by intros [_ ?]]. Qed.

Lemma coalesced_app_r bl1 bl2 : coalesced (bl1 ++ bl2) → coalesced bl2.
Proof. induction bl1 as [|b bl1 IH]; [done|]. intros H%coalesced_tail. auto. Qed.

Lemma coalesced_app_l bl1 bl2 : coalesced (bl1 ++ bl2) → coalesced bl1.
Proof.
  induction bl1 as [|b bl1 IH]; [done|]. destruct bl1 as [|c bl1]; [done|].
  simpl. intros [? ?]. split; [done|]. by apply IH.
Qed.

(** A block that is not free separates the rows around it. *)
Lemma coalesced_mid bl1 b bl2 :
  is_free b = false → coalesced bl1 → coalesced bl2 → coalesced (bl1 ++ b :: bl2).
Proof.
  intros Hb H1 H2. induction bl1 as [|c bl1 IH].
  - destruct bl2; [done|]. split; [by rewrite Hb|done].
  - pose proof (IH (coalesced_tail _ _ H1)) as IH'. destruct bl1 as [|d bl1].
    + split; [by rewrite Hb andb_false_r|done].
    + split; [by destruct H1|done].
Qed.

(** A free block fits between two rows whose adjacent ends are not free. *)
Definition ends_free (bl : list block) : bool := from_option is_free false (last bl).
Definition starts_free (bl : list block) : bool := from_option is_free false (head bl).

Lemma coalesced_mid_any bl1 b bl2 :
  ends_free bl1 = false → starts_free bl2 = false →
  coalesced bl1 → coalesced bl2 → coalesced (bl1 ++ b :: bl2).
Proof.
  intros He Hs H1 H2. induction bl1 as [|c bl1 IH].
  - destruct bl2 as [|c bl2]; [done|]. change (is_free c = false) in Hs.
    split; [by rewrite Hs andb_false_r|done].
  - pose proof (coalesced_tail _ _ H1) as H1'. destruct bl1 as [|d bl1].
    + change (is_free c = false) in He. split; [by rewrite He|]. by apply IH.
    + split; [by destruct H1|]. apply IH; [|done]. by rewrite /ends_free last_cons_cons in He.
Qed.

Lemma coalesced_not_adjacent bl1 b bl2 :
  coalesced (bl1 ++ b :: bl2) → is_free b = true →
  ends_free bl1 = false ∧ starts_free bl2 = false.
Proof.
  intros H Hb. split.
  - destruct bl1 as [|c bl1 _] using rev_ind; [done|].
    rewrite -app_assoc in H. apply coalesced_app_r in H. destruct H as [H _].
    rewrite /ends_free last_snoc /=. by rewrite Hb andb_true_r in H.
  - apply coalesced_app_r in H. destruct bl2 as [|c bl2]; [done|].
    destruct H as [H _]. by rewrite Hb /= in H.
Qed.

Lemma coalesced_id bl : coalesced bl → coalesce bl = bl.
Proof.
  induction bl as [|b bl IH]; [done|]. intros H. simpl.
  rewrite IH; [|by eapply coalesced_tail]. destruct bl as [|c bl]; [done|].
  destruct H as [H _]. by rewrite /= H.
Qed.

Lemma join_coalesced b bl : coalesced bl → coalesced (join b bl).
Proof.
  destruct bl as [|c bl]; [done|]. intros H. simpl.
  destruct (is_free b && is_free c) eqn:E; [|done].
  apply andb_true_iff in E as [_ Ec]. destruct bl as [|d bl]; [done|].
  destruct H as [H ?]. rewrite Ec /= in H. split; [by rewrite H|done].
Qed.

Lemma coalesce_coalesced bl : coalesced (coalesce bl).
Proof. induction bl as [|b bl IH]; [done|]. by apply join_coalesced. Qed.

Lemma join_tiles lo hi b bl : tiles lo hi (b :: bl) → tiles lo hi (join b bl).
Proof.
  destruct bl as [|c bl]; [done|]. simpl. destruct (is_free b && is_free c); [|done].
  simpl. intros (? & ? & ? & ? & ?). split; [done|]. split; [lia|]. by rewrite Z.add_assoc.
Qed.

Lemma coalesce_tiles lo hi bl : tiles lo hi bl → tiles lo hi (coalesce bl).
Proof.
  revert lo. induction bl as [|b bl IH]; intros lo; [done|].
  intros (? & ? & ?). apply join_tiles. simpl. eauto.
Qed.

Lemma join_no_busy b bl : no_busy (b :: bl) → no_busy (join b bl).
Proof.
  destruct bl as [|c bl]; [done|]. simpl. destruct (is_free b && is_free c); [|done].
  intros H. apply Forall_cons in H as [_ H]. apply Forall_cons in H as [_ H].
  by constructor.
Qed.

Lemma coalesce_no_busy bl : no_busy bl → no_busy (coalesce bl).
Proof.
  induction 1 as [|b bl Hb H IH]; simpl; [constructor|].
  apply join_no_busy. by constructor.
Qed.

(** Merging two free neighbours first changes nothing. *)
Lemma coalesce_merge bl1 y m n bl2 :
  coalesce (bl1 ++ Blk y m KFree :: Blk (y + m) n KFree :: bl2) =
  coalesce (bl1 ++ Blk y (m + n) KFree :: bl2).
Proof.
  induction bl1 as [|b bl1 IH]; simpl; [|by rewrite IH].
  destruct (coalesce bl2) as [|c bl3]; simpl; [done|].
  destruct c as [z k kind]. destruct kind; simpl; try done. by rewrite Z.add_assoc.
Qed.

(** ** First fit *)

Definition cut (x n req : Z) : list block :=
  if req <? n then [Blk (x + req) (n - req) KFree] else [].

Lemma is_free_inv b : is_free b = true → b = Blk (b_start b) (b_len b) KFree.
Proof. destruct b as [x n k]. rewrite /is_free bool_decide_eq_true /=. by intros ->. Qed.

Lemma first_fit_some req bl x bl' :
  first_fit req bl = Some (x, bl') →
  ∃ bl1 n bl2, bl = bl1 ++ Blk x n KFree :: bl2 ∧ req ≤ n ∧
    Forall (λ b, is_free b && (req <=? b_len b) = false) bl1 ∧
    bl' = bl1 ++ Blk x req KAlloc :: cut x n req ++ bl2.
Proof.
  revert bl'. induction bl as [|b bl IH]; intros bl'; simpl; [done|].
  destruct (is_free b && (req <=? b_len b)) eqn:E.
  - intros [= <- <-]. apply andb_true_iff in E as [Ef Eq].
    exists [], (b_len b), bl. rewrite -is_free_inv //. split; [done|]. split; [lia|].
    split; [constructor|]. rewrite /cut. by destruct (req <? b_len b).
  - destruct (first_fit req bl) as [[y r]|]; [|done]. intros [= <- <-].
    destruct (IH r eq_refl) as (bl1 & n & bl2 & -> & Hn & Hall & ->).
    exists (b :: bl1), n, bl2. split; [done|]. split; [done|].
    split; [by constructor|done].
Qed.

Lemma first_fit_none req bl :
  first_fit req bl = None ↔ Forall (λ b, is_free b && (req <=? b_len b) = false) bl.
Proof.
  induction bl as [|b bl IH]; simpl; [by split|].
  destruct (is_free b && (req <=? b_len b)) eqn:E.
  - split; [done|]. intros [? _]%Forall_cons. congruence.
  - rewrite Forall_cons. destruct (first_fit req bl) as [[y r]|]; [|tauto].
    split; [done|]. intros [_ ?%IH]. done.
Qed.

Lemma first_fit_tiles lo hi req bl x bl' :
  0 < req → first_fit req bl = Some (x, bl') → tiles lo hi bl → tiles lo hi bl'.
Proof.
  intros Hreq (bl1 & n & bl2 & -> & Hn & _ & ->)%first_fit_some.
  rewrite !tiles_mid /=. intros (H1 & _ & H2). split; [done|]. split; [done|].
  rewrite /cut. destruct (req <? n) eqn:E; simpl.
  - split; [done|]. split; [lia|]. by replace (x + req + (n - req)) with (x + n) by lia.
  - by replace (x + req) with (x + n) by lia.
Qed.

Lemma first_fit_coalesced req bl x bl' :
  first_fit req bl = Some (x, bl') → coalesced bl → coalesced bl'.
Proof.
  intros (bl1 & n & bl2 & -> & Hn & _ & ->)%first_fit_some Hc.
  destruct (coalesced_not_adjacent _ _ _ Hc) as [_ Hs]; [done|].
  apply coalesced_mid; [done|by eapply coalesced_app_l|].
  apply coalesced_app_r, coalesced_tail in Hc.
  rewrite /cut. destruct (req <? n); [|done].
  by apply (coalesced_mid_any []).
Qed.

Lemma first_fit_no_busy req bl x bl' :
  first_fit req bl = Some (x, bl') → no_busy bl → no_busy bl'.
Proof.
  intros (bl1 & n & bl2 & -> & Hn & _ & ->)%first_fit_some.
  rewrite /no_busy !Forall_app !Forall_cons Forall_app. intros (? & _ & ?).
  repeat split; try done. rewrite /cut. destruct (req <? n); by repeat constructor.
Qed.

(** ** Release *)

Lemma mark_free_ne x b : b_start b ≠ x → mark_free x b = b.
Proof. intros H. rewrite /mark_free bool_decide_eq_false_2 //. tauto. Qed.

Lemma mark_free_other lo hi x bl :
  tiles lo hi bl → ¬ (lo ≤ x < hi) → mark_free x <$> bl = bl.
Proof.
  intros Ht Hx. rewrite -{2}(list_fmap_id bl). apply list_fmap_ext.
  intros i b Hi%list_elem_of_lookup_2. pose proof (tiles_elem _ _ _ _ Ht Hi).
  apply (mark_free_ne x b). lia.
Qed.

Lemma mark_free_split lo hi bl1 x n bl2 :
  tiles lo hi (bl1 ++ Blk x n KAlloc :: bl2) →
  mark_free x <$> (bl1 ++ Blk x n KAlloc :: bl2) = bl1 ++ Blk x n KFree :: bl2.
Proof.
  intros (H1 & Hn & H2)%tiles_mid. simpl in *.
  rewrite fmap_app fmap_cons (mark_free_other _ _ _ _ H1); [|lia].
  rewrite (mark_free_other _ _ _ _ H2); [|lia].
  by rewrite {1}/mark_free bool_decide_eq_true_2.
Qed.

Lemma mark_free_tiles lo hi x bl : tiles lo hi bl → tiles lo hi (mark_free x <$> bl).
Proof.
  revert lo. induction bl as [|b bl IH]; intros lo; [done|]. simpl.
  intros (? & ? & ?). rewrite /mark_free. case_bool_decide as Hb; simpl; [|by eauto].
  destruct Hb as [<- _]. eauto.
Qed.

Lemma release_tiles lo hi x bl : tiles lo hi bl → tiles lo hi (release x bl).
Proof. intros. by apply coalesce_tiles, mark_free_tiles. Qed.

(** Merging free blocks keeps the allocated ones, so a release takes away exactly the
    block it names. *)
Lemma join_alloc b c bl : b_kind b = KAlloc → b ∈ join c bl ↔ b ∈ c :: bl.
Proof.
  intros Hb. destruct bl as [|d bl]; [done|]. simpl.
  destruct (is_free c && is_free d) eqn:E; [|done]. apply andb_true_iff in E as [Hc Hd].
  rewrite !elem_of_cons. rewrite /is_free in Hc, Hd. split.
  - intros [->|?]; [by rewrite /= in Hb|auto].
  - intros [->|[->|?]]; [by rewrite Hb in Hc|by rewrite Hb in Hd|auto].
Qed.

Lemma coalesce_keeps_alloc b bl : b_kind b = KAlloc → b ∈ coalesce bl ↔ b ∈ bl.
Proof.
  intros Hb. induction bl as [|c bl IH]; [done|]. simpl. by rewrite join_alloc // !elem_of_cons IH.
Qed.

Lemma release_alloc x b bl : b_kind b = KAlloc → b ∈ release x bl ↔ b ∈ bl ∧ b_start b ≠ x.
Proof.
  intros Hb. rewrite /release coalesce_keeps_alloc // list_elem_of_fmap /mark_free. split.
  - intros (c & -> & Hc). case_bool_decide as Hd; [by rewrite /= in Hb|]. split; [done|]. intros Hx. by apply Hd.
  - intros [Hin Hne]. exists b. rewrite bool_decide_eq_false_2 //. by intros [? _].
Qed.

Lemma release_no_busy x bl : no_busy bl → no_busy (release x bl).
Proof.
  intros H. apply coalesce_no_busy. rewrite /no_busy Forall_fmap.
  eapply Forall_impl; [exact H|]. intros b. rewrite /= /mark_free. by case_bool_decide.
Qed.

(** Releasing what first fit just returned gives the row back. *)
Lemma release_first_fit lo hi req bl x bl' :
  0 < req → tiles lo hi bl → coalesced bl →
  first_fit req bl = Some (x, bl') → release x bl' = bl.
Proof.
  intros Hreq Ht Hc Hf. pose proof (first_fit_tiles _ _ _ _ _ _ Hreq Hf Ht) as Ht'.
  apply first_fit_some in Hf as (bl1 & n & bl2 & -> & Hn & _ & ->).
  rewrite /release (mark_free_split _ _ _ _ _ _ Ht'). rewrite /cut.
  destruct (req <? n) eqn:E; simpl.
  - rewrite coalesce_merge. replace (req + (n - req)) with n by lia. by apply coalesced_id.
  - replace req with n by lia. by apply coalesced_id.
Qed.

(** ** Owners *)

Lemma owns_spec i b :
  owns i b = true ↔ b_kind b = KAlloc ∧ b_start b ≤ i < b_start b + b_len b.
Proof. rewrite /owns !andb_true_iff bool_decide_eq_true Z.leb_le Z.ltb_lt. tauto. Qed.

Lemma owner_spec lo hi bl i b :
  tiles lo hi bl → owner i bl = Some b ↔ b ∈ bl ∧ owns i b = true.
Proof.
  intros Ht. rewrite /owner. split.
  - intros [Hin Ho]%List.find_some. by rewrite list_elem_of_In.
  - intros [Hin Ho]. destruct (List.find (owns i) bl) as [c|] eqn:E.
    + apply List.find_some in E as [Hc Hoc]. rewrite -list_elem_of_In in Hc.
      apply owns_spec in Ho as [_ ?]. apply owns_spec in Hoc as [_ ?].
      f_equal. by eapply tiles_disjoint.
    + rewrite list_elem_of_In in Hin. pose proof (List.find_none _ _ E _ Hin). congruence.
Qed.

(** ** Lists linked through an array *)

Definition hd_or (l : list Z) : Z := default INDEX_NULL (head l).
Definition last_or (l : list Z) : Z := default INDEX_NULL (last l).

(** [next[x]] is the element after [x] in [l], or [INDEX_NULL]. *)
Fixpoint linked (next : list Z) (l : list Z) : Prop :=
  match l with
  | [] => True
  | x :: l' => rd next x = Some (hd_or l') ∧ linked next l'
  end.

(** Doubly linked: backwards, [prev] links the reversed list. *)
Definition dll (next prev : list Z) (l : list Z) : Prop :=
  linked next l ∧ linked prev (reverse l).

Lemma hd_or_reverse l : hd_or (reverse l) = last_or l.
Proof. by rewrite /hd_or head_reverse. Qed.
Lemma last_or_reverse l : last_or (reverse l) = hd_or l.
Proof. by rewrite /last_or last_reverse. Qed.
Lemma last_or_app l1 x l2 : last_or (l1 ++ x :: l2) = last_or (x :: l2).
Proof. rewrite /last_or last_app last_cons. by destruct (last l2). Qed.

Lemma linked_frame next next' l :
  (∀ x, x ∈ l → rd next' x = rd next x) → linked next l → linked next' l.
Proof.
  induction l as [|x l IH]; simpl; [done|]. intros H [Hx Hl]. split.
  - rewrite H; [done|constructor].
  - apply IH; [|done]. intros y Hy. apply H. by constructor.
Qed.

Lemma linked_app_r next l1 l2 : linked next (l1 ++ l2) → linked next l2.
Proof. induction l1 as [|x l1 IH]; simpl; [done|]. intros [_ H]. auto. Qed.

(** Replacing the tail after [l1]: only the last element of [l1] changes. *)
Lemma linked_retail next next' l1 l2 l2' :
  NoDup l1 → linked next (l1 ++ l2) → linked next' l2' →
  (∀ x, x ∈ l1 → x ≠ last_or l1 → rd next' x = rd next x) →
  (l1 ≠ [] → rd next' (last_or l1) = Some (hd_or l2')) →
  linked next' (l1 ++ l2').
Proof.
  induction l1 as [|x l1 IH]; simpl; [done|].
  intros [Hx Hnd]%NoDup_cons [Hn Hl] Hl' Hf Hlast.
  destruct l1 as [|y l1].
  { split; [|done]. by apply Hlast. }
  assert (last_or (x :: y :: l1) = last_or (y :: l1)) as Hlo by (by rewrite /last_or last_cons_cons).
  rewrite Hlo in Hf Hlast.
  split.
  - rewrite Hf; [done|constructor|]. intros ->. apply Hx.
    rewrite /last_or. destruct (last (y :: l1)) as [z|] eqn:E.
    + by apply last_Some_elem_of in E.
    + by apply last_None in E.
  - apply IH; [done|done|done| |].
    + intros z Hz. apply Hf. by constructor.
    + intros _. by apply Hlast.
Qed.

(** Elements that are indices of an array shorter than [INDEX_NULL]. *)
Definition indices (l : list Z) (n : Z) : Prop :=
  n ≤ INDEX_NULL ∧ Forall (λ x, 0 ≤ x < n) l.

Lemma indices_elem l n x : indices l n → x ∈ l → 0 ≤ x < n ∧ x ≠ INDEX_NULL.
Proof. intros [Hn H] Hx. rewrite Forall_forall in H. pose proof (H x Hx). simpl in *. lia. Qed.

Lemma indices_reverse l n : indices l n → indices (reverse l) n.
Proof. intros [? H]. split; [done|]. by apply Forall_reverse. Qed.

Lemma last_or_cases l : (l = [] ∧ last_or l = INDEX_NULL) ∨ (l ≠ [] ∧ last_or l ∈ l).
Proof.
  rewrite /last_or. destruct (last l) as [z|] eqn:E.
  - right. split; [by intros ->|]. by apply last_Some_elem_of.
  - left. by apply last_None in E.
Qed.

Lemma hd_or_cases l : (l = [] ∧ hd_or l = INDEX_NULL) ∨ (l ≠ [] ∧ hd_or l ∈ l).
Proof. destruct l as [|x l]; [by left|]. right. split; [done|]. constructor. Qed.

Lemma last_or_bound l n :
  n ≤ INDEX_NULL → Forall (λ x, 0 ≤ x < n) l → (last_or l =? INDEX_NULL) = false → 0 ≤ last_or l < n.
Proof.
  intros Hn Hf E. destruct (last_or_cases l) as [[_ ?]|[_ Hin]]; [lia|].
  by eapply Forall_forall in Hf.
Qed.

Lemma hd_or_bound l n :
  n ≤ INDEX_NULL → Forall (λ x, 0 ≤ x < n) l → (hd_or l =? INDEX_NULL) = false → 0 ≤ hd_or l < n.
Proof. rewrite -last_or_reverse. intros ??. apply last_or_bound; [done|by apply Forall_reverse]. Qed.

(** What [free_list_remove] does to one direction of the links. *)
Definition unlink (next : list Z) (p x n : Z) : list Z :=
  wr (if p =? INDEX_NULL then next else wr next p n) x INDEX_NULL.

(** What the tail of [free_list_insert] does to one direction of the links. *)
Definition relink (next : list Z) (p x n : Z) : list Z :=
  let next' := wr next x n in if p =? INDEX_NULL then next' else wr next' p x.

Lemma length_unlink next p x n : length (unlink next p x n) = length next.
Proof. rewrite /unlink length_wr. destruct (p =? INDEX_NULL); by rewrite ?length_wr. Qed.
Lemma length_relink next p x n : length (relink next p x n) = length next.
Proof. rewrite /relink. destruct (p =? INDEX_NULL); by rewrite ?length_wr. Qed.

Section links.
Context (next : list Z) (l1 l2 : list Z) (x : Z).
Context (Hnd : NoDup (l1 ++ x :: l2)) (Hidx : indices (l1 ++ x :: l2) (length next)).

Lemma links_l1 y : y ∈ l1 → 0 ≤ y < length next ∧ y ≠ INDEX_NULL ∧ y ≠ x ∧ y ∉ l2.
Proof.
  intros Hy. destruct (indices_elem _ _ y Hidx) as [??]; [set_solver|].
  apply NoDup_app in Hnd as (_ & Hdis & _).
  repeat split; [lia|lia|done| |].
  - intros ->. apply (Hdis x Hy). constructor.
  - intros Hy2. apply (Hdis y Hy). by constructor.
Qed.

Lemma links_l2 y : y ∈ l2 → 0 ≤ y < length next ∧ y ≠ INDEX_NULL ∧ y ≠ x ∧ y ∉ l1.
Proof.
  intros Hy. destruct (indices_elem _ _ y Hidx) as [??]; [set_solver|].
  apply NoDup_app in Hnd as (_ & Hdis & [Hx _]%NoDup_cons).
  repeat split; [lia|lia|done| |].
  - intros ->. done.
  - intros Hy1. apply (Hdis y Hy1). by constructor.
Qed.

Lemma links_x : 0 ≤ x < length next ∧ x ≠ INDEX_NULL.
Proof. apply (indices_elem _ _ x Hidx). set_solver. Qed.

Lemma links_nodup : NoDup l1.
Proof. by apply NoDup_app in Hnd as (? & _). Qed.

Lemma links_last : l1 ≠ [] →
  (last_or l1 =? INDEX_NULL) = false ∧ last_or l1 ∈ l1 ∧ 0 ≤ last_or l1 < length next ∧
  last_or l1 ≠ x.
Proof.
  intros Hne. destruct (last_or_cases l1) as [[? _]|[_ Hin]]; [done|].
  destruct (links_l1 _ Hin) as (? & ? & ? & _). repeat split; [lia|done|lia|lia|done].
Qed.

Lemma linked_unlink :
  linked next (l1 ++ x :: l2) → linked (unlink next (last_or l1) x (hd_or l2)) (l1 ++ l2).
Proof.
  intros Hl. destruct links_x as [Hx _].
  eapply (linked_retail next); [apply links_nodup|exact Hl| | |].
  - eapply linked_frame; [|by apply linked_app_r in Hl as [_ ?]].
    intros y Hy. destruct (links_l2 y Hy) as (? & ? & ? & Hy1).
    rewrite /unlink rd_wr_ne //; [|lia]. destruct (last_or l1 =? INDEX_NULL) eqn:E; [done|].
    destruct (last_or_cases l1) as [[_ ?]|[Hne Hin]]; [lia|].
    destruct (links_l1 _ Hin) as (? & _). rewrite rd_wr_ne //; [|lia]. by intros <-.
  - intros y Hy Hne. destruct (links_l1 y Hy) as (? & ? & ? & _).
    rewrite /unlink rd_wr_ne //; [|lia]. destruct (last_or l1 =? INDEX_NULL) eqn:E; [done|].
    destruct (last_or_cases l1) as [[_ ?]|[_ Hin]]; [lia|].
    destruct (links_l1 _ Hin) as (? & _). rewrite rd_wr_ne //; lia.
  - intros (E & _ & ? & ?)%links_last. rewrite /unlink E rd_wr_ne //; [|lia]. by apply rd_wr_eq.
Qed.

Lemma linked_relink :
  linked next (l1 ++ l2) → linked (relink next (last_or l1) x (hd_or l2)) (l1 ++ x :: l2).
Proof.
  intros Hl. destruct links_x as [Hx _].
  eapply (linked_retail next); [apply links_nodup|exact Hl| | |].
  - assert (∀ y v, y = x ∨ y ∈ l2 → rd (relink next (last_or l1) x v) y = rd (wr next x v) y) as Hrd.
    { intros y v Hy. rewrite /relink. destruct (last_or l1 =? INDEX_NULL) eqn:E; [done|].
      destruct (last_or_cases l1) as [[_ ?]|[_ Hin]]; [lia|].
      destruct (links_l1 _ Hin) as (? & _ & ? & Hn2). apply rd_wr_ne; [|lia].
      intros <-. by destruct Hy as [?|?]. }
    split; [rewrite Hrd; [by apply rd_wr_eq|by left]|].
    eapply linked_frame; [|by apply linked_app_r in Hl]. intros y Hy. rewrite Hrd; [|by right].
    destruct (links_l2 y Hy) as (? & _ & ? & _). apply rd_wr_ne; lia.
  - intros y Hy Hne. destruct (links_l1 y Hy) as (? & ? & ? & _). rewrite /relink.
    destruct (last_or l1 =? INDEX_NULL) eqn:E; [apply rd_wr_ne; lia|].
    destruct (last_or_cases l1) as [[_ ?]|[_ Hin]]; [lia|].
    destruct (links_l1 _ Hin) as (? & _). rewrite !rd_wr_ne //; lia.
  - intros (E & _ & ? & ?)%links_last. rewrite /relink E rd_wr_eq ?length_wr //.
Qed.
End links.

(** Both directions at once. *)
Section dll_lemmas.
Context (next prev : list Z) (l1 l2 : list Z) (x : Z).
Context (Hnd : NoDup (l1 ++ x :: l2)).
Context (Hin : indices (l1 ++ x :: l2) (length next)).
Context (Hip : indices (l1 ++ x :: l2) (length prev)).

Lemma reverse_mid : reverse (l1 ++ x :: l2) = reverse l2 ++ x :: reverse l1.
Proof. by rewrite reverse_app reverse_cons -app_assoc. Qed.

Lemma rev_nodup : NoDup (reverse l2 ++ x :: reverse l1).
Proof. rewrite -reverse_mid. by rewrite reverse_Permutation. Qed.

Lemma rev_indices : indices (reverse l2 ++ x :: reverse l1) (length prev).
Proof. rewrite -reverse_mid. by apply indices_reverse. Qed.

Lemma dll_unlink :
  dll next prev (l1 ++ x :: l2) →
  dll (unlink next (last_or l1) x (hd_or l2)) (unlink prev (hd_or l2) x (last_or l1)) (l1 ++ l2).
Proof.
  intros [Hn Hp]. split; [by apply linked_unlink|].
  rewrite reverse_app -(last_or_reverse l2) -(hd_or_reverse l1).
  apply linked_unlink; [apply rev_nodup|apply rev_indices|by rewrite -reverse_mid].
Qed.

Lemma dll_relink :
  dll next prev (l1 ++ l2) →
  dll (relink next (last_or l1) x (hd_or l2)) (relink prev (hd_or l2) x (last_or l1))
    (l1 ++ x :: l2).
Proof.
  intros [Hn Hp]. split; [by apply linked_relink|].
  rewrite reverse_mid -(last_or_reverse l2) -(hd_or_reverse l1).
  apply linked_relink; [apply rev_nodup|apply rev_indices|by rewrite -reverse_app].
Qed.

Lemma dll_at :
  dll next prev (l1 ++ x :: l2) →
  rd next x = Some (hd_or l2) ∧ rd prev x = Some (last_or l1).
Proof.
  intros [Hn Hp]. split.
  - by apply linked_app_r in Hn as [? _].
  - rewrite reverse_mid in Hp. apply linked_app_r in Hp as [Hp _]. by rewrite hd_or_reverse in Hp.
Qed.
End dll_lemmas.
