(* ===== verification/ChunkProof.v ===== *)
(** * The chunk refines its block view

    [shape s bl] relates the arrays of a chunk to a row of blocks; each operation
    of [Chunk] is shown to carry it from the row before to the row the abstract
    operation of [Blocks] gives. *)

From S2P Require Import Prelude SizeClass Locks Chunk Blocks.
Open Scope Z_scope.

(** ** The relation between the arrays and the blocks *)

Definition flagless (count : list Z) (j : Z) : Prop :=
  ∃ v, rd count j = Some v ∧ 0 ≤ v < ALLOCATED_FLAG.

(** Inside an allocated block [count_] is zero; inside a free block stale counts of
    merged blocks may remain, but never one with the allocated flag. *)
Definition block_ok (count : list Z) (b : block) : Prop :=
  match b_kind b with
  | KAlloc =>
    rd count (b_start b) = Some (Z.lor (b_len b) ALLOCATED_FLAG) ∧
    ∀ j, b_start b < j < b_start b + b_len b → rd count j = Some 0
  | KFree =>
    rd count (b_start b) = Some (b_len b) ∧
    ∀ j, b_start b < j < b_start b + b_len b → flagless count j
  | KBusy => ∀ j, b_start b ≤ j < b_start b + b_len b → flagless count j
  end.

Record shape (s : ChunkMem) (bl : list block) : Prop := {
  sh_total : 0 < total_pages_ (chunk s) < ALLOCATED_FLAG;
  sh_count : Z.of_nat (length (count_ (chunk s))) = total_pages_ (chunk s);
  sh_prev : Z.of_nat (length (free_prev_ (chunk s))) = total_pages_ (chunk s);
  sh_next : Z.of_nat (length (free_next_ (chunk s))) = total_pages_ (chunk s);
  sh_tiles : tiles 0 (total_pages_ (chunk s)) bl;
  sh_blocks : Forall (block_ok (count_ (chunk s))) bl;
  sh_dll : dll (free_next_ (chunk s)) (free_prev_ (chunk s)) (frees bl);
  sh_head : free_head_ (chunk s) = hd_or (frees bl);
}.

(** What the free-list operations leave alone. *)
Definition same_env (s s' : ChunkMem) : Prop :=
  base_ (chunk s') = base_ (chunk s) ∧
  reserved_size_ (chunk s') = reserved_size_ (chunk s) ∧
  total_pages_ (chunk s') = total_pages_ (chunk s) ∧
  commit_ (chunk s') = commit_ (chunk s) ∧
  rwlock_ (chunk s') = rwlock_ (chunk s) ∧
  heads s' = heads s.

#[export] Instance same_env_preorder : PreOrder same_env.
Proof. split; [by intros s|]. rewrite /same_env. intros s1 s2 s3. intuition congruence. Qed.

(** ** Flags *)

Lemma land_flag_small v : 0 ≤ v < ALLOCATED_FLAG → Z.land v ALLOCATED_FLAG = 0.
Proof.
  change ALLOCATED_FLAG with (2 ^ 31). intros Hv. apply Z.bits_inj_0. intros n.
  rewrite Z.land_spec. destruct (decide (n = 31)) as [->|Hn].
  - rewrite -(Z.mod_small v (2 ^ 31)) // Z.mod_pow2_bits_high //.
  - rewrite (Z.pow2_bits_false 31 n) //. by rewrite andb_false_r.
Qed.

Lemma land_mask v : Z.land v COUNT_MASK = v mod ALLOCATED_FLAG.
Proof. change COUNT_MASK with (Z.ones 31). by rewrite Z.land_ones. Qed.

Lemma lor_flag n : 0 ≤ n < ALLOCATED_FLAG → Z.lor n ALLOCATED_FLAG = n + ALLOCATED_FLAG.
Proof.
  intros Hn. rewrite Z.add_nocarry_lxor; [|by apply land_flag_small].
  apply Z.bits_inj'. intros i Hi. rewrite Z.lxor_spec Z.lor_spec.
  pose proof (land_flag_small n Hn) as H0. apply (f_equal (λ z, Z.testbit z i)) in H0.
  rewrite Z.land_spec Z.bits_0 in H0. by destruct (Z.testbit n i), (Z.testbit ALLOCATED_FLAG i).
Qed.

Lemma lor_flag_mask n :
  0 ≤ n < ALLOCATED_FLAG → Z.land (Z.lor n ALLOCATED_FLAG) COUNT_MASK = n.
Proof.
  intros Hn. rewrite land_mask lor_flag //. rewrite -{1}(Z.mul_1_l ALLOCATED_FLAG).
  rewrite Z.mod_add; [by apply Z.mod_small|done].
Qed.

Lemma lor_flag_flag n : Z.land (Z.lor n ALLOCATED_FLAG) ALLOCATED_FLAG = ALLOCATED_FLAG.
Proof.
  apply Z.bits_inj'. intros i Hi. rewrite Z.land_spec Z.lor_spec.
  by destruct (Z.testbit n i), (Z.testbit ALLOCATED_FLAG i).
Qed.

(** ** Runs of the array accesses *)

Lemma wp_get_arr arr i v (Q : Z → ChunkMem → Prop) s :
  rd (arr (chunk s)) i = Some v → Q v s → wp (get_arr arr i) Q s.
Proof. intros Hr HQ. rewrite /wp /get_arr /gets /mbind /M_bind /of_option Hr. done. Qed.

Lemma wp_set_arr arr upd i v (Q : unit → ChunkMem → Prop) s :
  0 ≤ i < length (arr (chunk s)) → Q tt (upd (λ l, wr l i v) s) → wp (set_arr arr upd i v) Q s.
Proof.
  intros Hi HQ. destruct (rd_in _ _ Hi) as [w Hw].
  rewrite /wp /set_arr /gets /mbind /M_bind /of_option Hw. done.
Qed.

Lemma wp_store_head page f p (Q : unit → ChunkMem → Prop) s :
  heads s !! page = Some p → Q tt (upd_heads (<[page := f p]>) s) → wp (store_head page f) Q s.
Proof. intros Hp HQ. rewrite /wp /store_head /gets /mbind /M_bind /of_option Hp. done. Qed.

(** One step of a chunk operation; array writes leave their bounds to prove. *)
Ltac chunk_step :=
  match goal with
  | |- wp (set_arr _ _ _ _) _ _ => apply wp_set_arr; [rewrite /= ?length_wr; try lia; try tauto|]
  | _ => wp_step
  end.

(** ** Consequences of the shape *)

Lemma shape_indices s bl : shape s bl →
  indices (frees bl) (length (free_next_ (chunk s))) ∧
  indices (frees bl) (length (free_prev_ (chunk s))).
Proof.
  intros H. pose proof (sh_total _ _ H). rewrite (sh_next _ _ H) (sh_prev _ _ H).
  split; (split; [rewrite /INDEX_NULL /ALLOCATED_FLAG in H0 |- *; lia|]);
    apply Forall_forall; intros x Hx; by apply (frees_range _ _ _ _ (sh_tiles _ _ H)).
Qed.

Lemma shape_block s bl1 b bl2 :
  shape s (bl1 ++ b :: bl2) →
  tiles 0 (b_start b) bl1 ∧ 0 < b_len b ∧ 0 ≤ b_start b ∧
  b_start b + b_len b ≤ total_pages_ (chunk s) ∧
  tiles (b_start b + b_len b) (total_pages_ (chunk s)) bl2 ∧
  Forall (block_ok (count_ (chunk s))) bl1 ∧ block_ok (count_ (chunk s)) b ∧
  Forall (block_ok (count_ (chunk s))) bl2.
Proof.
  intros H. pose proof (sh_tiles _ _ H) as (H1 & Hl & H2)%tiles_mid.
  pose proof (sh_blocks _ _ H) as (? & [? ?]%Forall_cons)%Forall_app.
  pose proof (tiles_le _ _ _ H1). pose proof (tiles_le _ _ _ H2).
  repeat split; try done; lia.
Qed.

Lemma shape_mid_nodup s bl1 b bl2 :
  shape s (bl1 ++ b :: bl2) → NoDup (frees bl1 ++ b_start b :: frees bl2).
Proof.
  intros H. destruct (shape_block _ _ _ _ H) as (H1 & Hl & _ & _ & H2 & _).
  pose proof (frees_nodup 0 (total_pages_ (chunk s))
    (bl1 ++ Blk (b_start b) (b_len b) KFree :: bl2)) as Hnd.
  rewrite frees_app /= in Hnd. apply Hnd. by apply tiles_mid.
Qed.

Lemma shape_mid_indices s bl1 b bl2 :
  shape s (bl1 ++ b :: bl2) →
  indices (frees bl1 ++ b_start b :: frees bl2) (length (free_next_ (chunk s))) ∧
  indices (frees bl1 ++ b_start b :: frees bl2) (length (free_prev_ (chunk s))).
Proof.
  intros H. destruct (shape_indices _ _ H) as [[Hn Hf1] [Hp Hf2]].
  destruct (shape_block _ _ _ _ H) as (_ & Hl & H0 & Hle & _).
  pose proof (sh_next _ _ H). pose proof (sh_prev _ _ H).
  rewrite frees_app frees_cons !Forall_app in Hf1 Hf2.
  split; (split; [done|]); apply Forall_app; (split; [tauto|]); constructor; [lia|tauto|lia|tauto].
Qed.

Lemma block_ok_free_busy s bl1 x n bl2 :
  shape s (bl1 ++ Blk x n KFree :: bl2) → block_ok (count_ (chunk s)) (Blk x n KBusy).
Proof.
  intros H. destruct (shape_block _ _ _ _ H) as (_ & ? & ? & ? & _ & _ & [Hx Hi] & _).
  pose proof (sh_total _ _ H). simpl in *. intros j Hj. simpl in Hj.
  destruct (decide (j = x)) as [->|]; [exists n; split; [done|lia]|]. apply Hi. lia.
Qed.

(** ** Removing a block from the free list *)

Lemma shape_unlink s s' bl1 x n bl2 :
  shape s (bl1 ++ Blk x n KFree :: bl2) → same_env s s' →
  count_ (chunk s') = count_ (chunk s) →
  free_next_ (chunk s') =
    unlink (free_next_ (chunk s)) (last_or (frees bl1)) x (hd_or (frees bl2)) →
  free_prev_ (chunk s') =
    unlink (free_prev_ (chunk s)) (hd_or (frees bl2)) x (last_or (frees bl1)) →
  free_head_ (chunk s') =
    (if last_or (frees bl1) =? INDEX_NULL then hd_or (frees bl2) else free_head_ (chunk s)) →
  shape s' (bl1 ++ Blk x n KBusy :: bl2).
Proof.
  intros H (_ & _ & Ht & _) Hc Hn Hp Hh.
  pose proof (shape_mid_nodup _ _ _ _ H) as Hnd. simpl in Hnd.
  pose proof (shape_mid_indices _ _ _ _ H) as [Hin Hip]. simpl in Hin, Hip.
  pose proof (block_ok_free_busy _ _ _ _ _ H) as Hb.
  destruct (shape_block _ _ _ _ H) as (H1 & ? & ? & ? & H2 & Hf1 & _ & Hf2).
  split; rewrite ?Ht ?Hc ?Hn ?Hp ?length_unlink.
  - apply (sh_total _ _ H).
  - apply (sh_count _ _ H).
  - apply (sh_prev _ _ H).
  - apply (sh_next _ _ H).
  - by apply tiles_mid.
  - apply Forall_app. split; [done|]. by constructor.
  - rewrite frees_app /=. apply dll_unlink; [done..|].
    pose proof (sh_dll _ _ H) as Hd. by rewrite frees_app in Hd.
  - rewrite Hh frees_app /=. destruct (last_or_cases (frees bl1)) as [[-> ->]|[Hne Hl]]; [done|].
    destruct (indices_elem _ _ (last_or (frees bl1)) Hin) as [_ ?]; [set_solver|].
    bool_test (last_or (frees bl1) =? INDEX_NULL). rewrite (sh_head _ _ H) frees_app.
    by destruct (frees bl1).
Qed.

Lemma free_list_remove_spec s bl1 x n bl2 :
  shape s (bl1 ++ Blk x n KFree :: bl2) →
  wp (free_list_remove x) (λ _ s', shape s' (bl1 ++ Blk x n KBusy :: bl2) ∧ same_env s s' ∧
    count_ (chunk s') = count_ (chunk s)) s.
Proof.
  intros H. pose proof (shape_mid_indices _ _ _ _ H) as [Hin Hip]. simpl in Hin, Hip.
  pose proof (sh_dll _ _ H) as Hd. rewrite frees_app /= in Hd.
  apply dll_at in Hd as [Hnx Hpx].
  destruct (rd_lt _ _ _ Hnx), (rd_lt _ _ _ Hpx).
  pose proof (λ s', shape_unlink s s' bl1 x n bl2 H) as Hdone. unfold unlink in Hdone.
  destruct Hin as [Hni Hfi], Hip as [Hnp Hfp]. rewrite !Forall_app !Forall_cons in Hfi Hfp.
  pose proof (last_or_bound (frees bl1) _ Hni (proj1 Hfi)) as Hl.
  pose proof (hd_or_bound (frees bl2) _ Hnp (proj2 (proj2 Hfp))) as Hr.
  rewrite /free_list_remove. apply wp_bind. eapply wp_get_arr; [exact Hpx|].
  apply wp_bind. eapply wp_get_arr; [exact Hnx|].
  destruct (last_or (frees bl1) =? INDEX_NULL) eqn:E1;
    destruct (hd_or (frees bl2) =? INDEX_NULL) eqn:E2;
    repeat chunk_step; (split; [by apply Hdone|done]).
Qed.

(** ** Linking a block into the free list *)

Lemma block_ok_ext count count' b :
  (∀ j, b_start b ≤ j < b_start b + b_len b → rd count' j = rd count j) →
  0 < b_len b → block_ok count b → block_ok count' b.
Proof.
  intros He Hl. rewrite /block_ok /flagless. destruct (b_kind b).
  - intros [Hs Hi]. split; [rewrite He //; lia|]. intros j Hj. rewrite He; [by apply Hi|lia].
  - intros [Hs Hi]. split; [rewrite He //; lia|]. intros j Hj. rewrite He; [by apply Hi|lia].
  - intros Hi j Hj. rewrite He; [by apply Hi|lia].
Qed.

(** Writes outside a row of blocks do not touch them. *)
Lemma blocks_ok_ext lo hi count count' bl :
  tiles lo hi bl → (∀ j, lo ≤ j < hi → rd count' j = rd count j) →
  Forall (block_ok count) bl → Forall (block_ok count') bl.
Proof.
  intros Ht He. rewrite !Forall_forall. intros Hf b Hb.
  pose proof (tiles_elem _ _ _ _ Ht Hb). eapply block_ok_ext; [|lia|by apply Hf].
  intros j Hj. apply He. lia.
Qed.

Lemma shape_relink s s' bl1 x n bl2 :
  shape s (bl1 ++ Blk x n KBusy :: bl2) → same_env s s' →
  count_ (chunk s') = wr (count_ (chunk s)) x n →
  free_next_ (chunk s') =
    relink (free_next_ (chunk s)) (last_or (frees bl1)) x (hd_or (frees bl2)) →
  free_prev_ (chunk s') =
    relink (free_prev_ (chunk s)) (hd_or (frees bl2)) x (last_or (frees bl1)) →
  free_head_ (chunk s') =
    (if last_or (frees bl1) =? INDEX_NULL then x else free_head_ (chunk s)) →
  shape s' (bl1 ++ Blk x n KFree :: bl2).
Proof.
  intros H (_ & _ & Ht & _) Hc Hn Hp Hh.
  pose proof (shape_mid_nodup _ _ _ _ H) as Hnd. simpl in Hnd.
  pose proof (shape_mid_indices _ _ _ _ H) as [Hin Hip]. simpl in Hin, Hip.
  destruct (shape_block _ _ _ _ H) as (H1 & ? & ? & ? & H2 & Hf1 & Hb & Hf2). simpl in *.
  pose proof (sh_count _ _ H) as Hlen.
  split; rewrite ?Ht ?Hc ?Hn ?Hp ?length_relink ?length_wr.
  - apply (sh_total _ _ H).
  - done.
  - apply (sh_prev _ _ H).
  - apply (sh_next _ _ H).
  - by apply tiles_mid.
  - apply Forall_app. split; [|constructor].
    + eapply blocks_ok_ext; [exact H1| |done]. intros j Hj. apply rd_wr_ne; lia.
    + split; simpl; [apply rd_wr_eq; lia|]. intros j Hj. rewrite /flagless rd_wr_ne; [|lia..].
      apply Hb. simpl. lia.
    + eapply blocks_ok_ext; [exact H2| |done]. intros j Hj. apply rd_wr_ne; lia.
  - rewrite frees_app /=. apply dll_relink; [done..|].
    pose proof (sh_dll _ _ H) as Hd. by rewrite frees_app in Hd.
  - rewrite Hh frees_app /=. destruct (last_or_cases (frees bl1)) as [[-> ->]|[Hne Hl]]; [done|].
    destruct (indices_elem _ _ (last_or (frees bl1)) Hin) as [_ ?]; [set_solver|].
    bool_test (last_or (frees bl1) =? INDEX_NULL). rewrite (sh_head _ _ H) frees_app.
    by destruct (frees bl1).
Qed.

Lemma free_list_link_spec s bl1 x n bl2 :
  shape s (bl1 ++ Blk x n KBusy :: bl2) →
  wp (free_list_link x n (last_or (frees bl1)) (hd_or (frees bl2)))
    (λ _ s', shape s' (bl1 ++ Blk x n KFree :: bl2) ∧ same_env s s') s.
Proof.
  intros H. pose proof (shape_mid_indices _ _ _ _ H) as [Hin Hip]. simpl in Hin, Hip.
  pose proof (λ s', shape_relink s s' bl1 x n bl2 H) as Hdone. unfold relink in Hdone.
  destruct (shape_block _ _ _ _ H) as (_ & ? & ? & ? & _). simpl in *.
  pose proof (sh_count _ _ H). pose proof (sh_next _ _ H). pose proof (sh_prev _ _ H).
  destruct Hin as [Hni Hfi], Hip as [Hnp Hfp]. rewrite !Forall_app !Forall_cons in Hfi Hfp.
  pose proof (last_or_bound (frees bl1) _ Hni (proj1 Hfi)) as Hl.
  pose proof (hd_or_bound (frees bl2) _ Hnp (proj2 (proj2 Hfp))) as Hr.
  rewrite /free_list_link.
  destruct (last_or (frees bl1) =? INDEX_NULL) eqn:E1;
    destruct (hd_or (frees bl2) =? INDEX_NULL) eqn:E2;
    repeat chunk_step; (split; [by apply Hdone|done]).
Qed.

(** Two neighbours in transit are one block in transit. *)
Lemma shape_merge_busy s bl1 y m n bl2 :
  shape s (bl1 ++ Blk y m KBusy :: Blk (y + m) n KBusy :: bl2) →
  shape s (bl1 ++ Blk y (m + n) KBusy :: bl2).
Proof.
  intros [Ht Hc Hp Hn Hti Hb Hd Hh]. split; try done.
  - apply tiles_mid in Hti as (H1 & Hm & H2). simpl in *. destruct H2 as (_ & Hl & H2).
    apply tiles_mid. simpl. rewrite Z.add_assoc. repeat split; [done|lia|done].
  - apply Forall_app in Hb as [H1 [Hy [Hn' H2]%Forall_cons]%Forall_cons].
    apply Forall_app. split; [done|]. constructor; [|done]. intros j Hj. simpl in Hj.
    destruct (decide (j < y + m)); [apply Hy|apply Hn']; simpl; lia.
  - by rewrite !frees_app in Hd |- *.
  - by rewrite Hh !frees_app.
Qed.

(** ** The walk along the free list *)

Lemma free_list_walk_spec s fuel idx l1 l2 p :
  linked (free_next_ (chunk s)) (l1 ++ l2) →
  Forall (λ y, y < idx ∧ y ≠ INDEX_NULL) l1 →
  (hd_or l2 = INDEX_NULL ∨ idx ≤ hd_or l2) →
  (length l1 ≤ fuel)%nat →
  wp (free_list_walk fuel idx p (hd_or (l1 ++ l2)))
    (λ r s', r = (default p (last l1), hd_or l2) ∧ s' = s) s.
Proof.
  revert fuel p. induction l1 as [|y l1 IH]; intros fuel p Hl Hf Hstop Hfuel.
  - rewrite app_nil_l. destruct fuel; simpl;
      bool_test (negb (hd_or l2 =? INDEX_NULL) && (hd_or l2 <? idx)); by apply wp_ret.
  - destruct fuel as [|fuel]; [simpl in Hfuel; lia|].
    apply Forall_cons in Hf as [[Hy Hne] Hf]. destruct Hl as [Hn Hl]. simpl in Hfuel.
    change (hd_or ((y :: l1) ++ l2)) with y. simpl.
    bool_test (negb (y =? INDEX_NULL) && (y <? idx)).
    apply wp_bind. eapply wp_get_arr; [exact Hn|].
    eapply wp_mono; [apply (IH fuel y); [done|done|done|lia]|].
    intros r s' [-> ->]. split; [|done]. f_equal. rewrite last_cons. by destruct (last l1).
Qed.

(** ** Inserting a block, with coalescing *)

Lemma ends_free_inv bl : ends_free bl = true → ∃ bl' y m, bl = bl' ++ [Blk y m KFree].
Proof.
  destruct bl as [|b bl _] using rev_ind; [done|].
  rewrite /ends_free last_snoc /=. intros Hb%is_free_inv. rewrite Hb. eauto.
Qed.

Lemma starts_free_inv bl : starts_free bl = true → ∃ y m bl', bl = Blk y m KFree :: bl'.
Proof. destruct bl as [|b bl]; [done|]. intros Hb%is_free_inv. rewrite Hb. eauto. Qed.

(** A free block of a row that does not end free stops before the row's end. *)
Lemma ends_free_gap lo hi bl b :
  ends_free bl = false → tiles lo hi bl → b ∈ bl → is_free b = true → b_start b + b_len b < hi.
Proof.
  destruct bl as [|c bl _] using rev_ind; [by intros _ _ ?%not_elem_of_nil|].
  rewrite /ends_free last_snoc /=. intros Hc (H1 & Hl & H2)%tiles_mid Hb Hf. simpl in H2.
  apply elem_of_app in Hb as [Hb| ->%list_elem_of_singleton]; [|congruence].
  pose proof (tiles_elem _ _ _ _ H1 Hb). lia.
Qed.

Lemma starts_free_gap lo hi bl b :
  starts_free bl = false → tiles lo hi bl → b ∈ bl → is_free b = true → lo < b_start b.
Proof.
  destruct bl as [|c bl]; [by intros _ _ ?%not_elem_of_nil|].
  intros Hc (Hs & Hl & H2) Hb Hf. change (is_free c = false) in Hc.
  apply elem_of_cons in Hb as [->|Hb]; [congruence|].
  pose proof (tiles_elem _ _ _ _ H2 Hb). lia.
Qed.

Lemma free_count s bl b :
  shape s bl → b ∈ bl → is_free b = true → rd (count_ (chunk s)) (b_start b) = Some (b_len b).
Proof.
  intros H Hb Hf. pose proof (sh_blocks _ _ H) as Hok. rewrite Forall_forall in Hok.
  pose proof (Hok _ Hb) as Hbo. rewrite (is_free_inv _ Hf) in Hbo. apply Hbo.
Qed.

Section insert_loop.
Context (s : ChunkMem) (bl1 : list block) (x n : Z) (bl2 : list block).
Context (H : shape s (bl1 ++ Blk x n KBusy :: bl2)).

Lemma insert_walk :
  wp (free_list_walk (length (count_ (chunk s))) x INDEX_NULL (free_head_ (chunk s)))
    (λ r s', r = (last_or (frees bl1), hd_or (frees bl2)) ∧ s' = s) s.
Proof.
  destruct (shape_block _ _ _ _ H) as (H1 & Hn & Hx & Hle & H2 & _). simpl in *.
  pose proof (sh_dll _ _ H) as [Hl _]. pose proof (sh_total _ _ H) as Htot.
  pose proof (sh_count _ _ H) as Hlen. rewrite /ALLOCATED_FLAG in Htot.
  rewrite (sh_head _ _ H) frees_app /=. rewrite frees_app in Hl.
  pose proof (length_frees _ _ _ H1) as Hlf.
  apply free_list_walk_spec; [done| | |lia].
  - apply Forall_forall. intros y Hy. pose proof (frees_range _ _ _ _ H1 Hy).
    rewrite /INDEX_NULL. lia.
  - destruct (hd_or_cases (frees bl2)) as [[_ ->]|[_ Hin]]; [by left|right].
    pose proof (frees_range _ _ _ _ H2 Hin). lia.
Qed.

(** The test for a free left neighbour. *)
Lemma insert_prev (Q : Z → ChunkMem → Prop) :
  (∀ pc, (negb (last_or (frees bl1) =? INDEX_NULL) && (u32 (last_or (frees bl1) + pc) =? x) =
            ends_free bl1) →
     (∀ bl' y m, bl1 = bl' ++ [Blk y m KFree] → pc = m) → Q pc s) →
  wp (if last_or (frees bl1) =? INDEX_NULL then mret 0 else get_count (last_or (frees bl1))) Q s.
Proof.
  intros HQ. destruct (shape_block _ _ _ _ H) as (H1 & Hn & Hx & Hle & _). simpl in *.
  pose proof (sh_total _ _ H) as Htot. rewrite /ALLOCATED_FLAG in Htot.
  destruct (ends_free bl1) eqn:E.
  - apply ends_free_inv in E as (bl' & y & m & E). subst bl1.
    pose proof H1 as (? & Hm & Hx')%tiles_mid. simpl in *.
    assert (last_or (frees (bl' ++ [Blk y m KFree])) = y) as Hlo.
    { rewrite frees_app /=. apply last_or_app. }
    pose proof (tiles_le _ _ _ H0). rewrite Hlo in HQ |- *.
    rewrite /INDEX_NULL in HQ |- *. bool_test (y =? 2 ^ 32 - 1).
    eapply wp_get_arr.
    + apply (free_count s _ (Blk y m KFree) H); [set_solver|done].
    + apply HQ; [rewrite /= u32_small; lia|]. by intros ??? (_ & [= <- <-])%app_inj_tail.
  - destruct (last_or (frees bl1) =? INDEX_NULL) eqn:El.
    + apply wp_ret. apply HQ; [done|]. intros bl' y m ->. by rewrite /ends_free last_snoc in E.
    + destruct (last_or_cases (frees bl1)) as [[_ ?]|[_ Hin]]; [lia|].
      apply elem_of_frees in Hin as (b & Hb & Hs & Hf). rewrite -Hs in HQ |- *.
      pose proof (ends_free_gap _ _ _ _ E H1 Hb Hf). pose proof (tiles_elem _ _ _ _ H1 Hb).
      eapply wp_get_arr; [apply (free_count s _ b H); [set_solver|done]|].
      apply HQ; [rewrite /= u32_small; lia|]. intros bl' y m ->. by rewrite /ends_free last_snoc in E.
Qed.

(** The test for a free right neighbour. *)
Lemma insert_next (Q : Z → ChunkMem → Prop) :
  (∀ nc, (negb (hd_or (frees bl2) =? INDEX_NULL) && (u32 (x + n) =? hd_or (frees bl2)) =
            starts_free bl2) →
     (∀ y m bl', bl2 = Blk y m KFree :: bl' → nc = m) → Q nc s) →
  wp (if hd_or (frees bl2) =? INDEX_NULL then mret 0 else get_count (hd_or (frees bl2))) Q s.
Proof.
  intros HQ. destruct (shape_block _ _ _ _ H) as (_ & Hn & Hx & Hle & H2 & _). simpl in *.
  pose proof (sh_total _ _ H) as Htot. rewrite /ALLOCATED_FLAG in Htot.
  destruct (starts_free bl2) eqn:E.
  - apply starts_free_inv in E as (y & m & bl' & E). subst bl2. destruct H2 as (Hy & Hm & H2).
    pose proof (tiles_le _ _ _ H2). simpl in *. rewrite /hd_or /= in HQ |- *.
    rewrite /INDEX_NULL in HQ |- *. bool_test (y =? 2 ^ 32 - 1).
    eapply wp_get_arr.
    + apply (free_count s _ (Blk y m KFree) H); [set_solver|done].
    + apply HQ; [rewrite /= u32_small; lia|]. by intros ??? [= -> -> ->].
  - destruct (hd_or (frees bl2) =? INDEX_NULL) eqn:El.
    + apply wp_ret. apply HQ; [done|]. by intros y m bl' ->.
    + destruct (hd_or_cases (frees bl2)) as [[_ ?]|[_ Hin]]; [lia|].
      apply elem_of_frees in Hin as (b & Hb & Hs & Hf). rewrite -Hs in HQ |- *.
      pose proof (starts_free_gap _ _ _ _ E H2 Hb Hf). pose proof (tiles_elem _ _ _ _ H2 Hb).
      eapply wp_get_arr; [apply (free_count s _ b H); [set_solver|done]|].
      apply HQ; [rewrite /= u32_small; lia|]. by intros y m bl' ->.
Qed.
End insert_loop.

Lemma insert_loop_spec fuel s bl1 x n bl2 :
  shape s (bl1 ++ Blk x n KBusy :: bl2) → coalesced bl1 → coalesced bl2 →
  (length (frees bl1) + length (frees bl2) < fuel)%nat →
  wp (free_list_insert_loop fuel x n)
    (λ _ s', shape s' (coalesce (bl1 ++ Blk x n KFree :: bl2)) ∧ same_env s s') s.
Proof.
  revert s bl1 x n bl2. induction fuel as [|fuel IH]; [lia|].
  intros s bl1 x n bl2 H Hc1 Hc2 Hfuel.
  destruct (shape_block _ _ _ _ H) as (H1 & Hn & Hx & Hle & H2 & _). simpl in H1, Hn, Hx, Hle, H2.
  pose proof (sh_total _ _ H) as Htot. rewrite /ALLOCATED_FLAG in Htot.
  simpl. wp_steps. eapply wp_mono; [by eapply insert_walk|]. intros r s' [-> ->]. wp_steps.
  eapply insert_prev; [done|]. intros pc Hp Hpc. rewrite Hp.
  destruct (ends_free bl1) eqn:E1.
  { apply ends_free_inv in E1 as (bl' & y & m & ->). pose proof (Hpc _ _ _ eq_refl) as ->.
    apply tiles_mid in H1 as (H1 & Hm & Hx'). simpl in Hx'. subst x. simpl in *.
    assert (last_or (frees (bl' ++ [Blk y m KFree])) = y) as ->.
    { rewrite frees_app /=. apply last_or_app. }
    apply tiles_le in H1. rewrite -app_assoc /= in H.
    wp_steps. eapply wp_mono; [by apply free_list_remove_spec|].
    intros _ s' (H' & Hs & _). rewrite u32_small; [|lia].
    eapply wp_mono; [apply (IH _ bl' y (m + n) bl2)|].
    - by apply shape_merge_busy.
    - by eapply coalesced_app_l.
    - done.
    - rewrite frees_app length_app /= in Hfuel. lia.
    - intros _ s'' [H'' Hs']. split; [|by etrans].
      by rewrite -app_assoc /= coalesce_merge. }
  wp_steps. eapply insert_next; [done|]. intros nc Hnx Hnc. rewrite Hnx.
  destruct (starts_free bl2) eqn:E2.
  { apply starts_free_inv in E2 as (y & m & bl' & ->). pose proof (Hnc _ _ _ eq_refl) as ->.
    destruct H2 as (Hy & Hm & H2). simpl in Hy, Hm, H2. subst y. apply tiles_le in H2.
    change (hd_or (frees (Blk (x + n) m KFree :: bl'))) with (x + n).
    rewrite (cons_middle _ bl1) app_assoc in H.
    wp_steps. eapply wp_mono; [by apply free_list_remove_spec|].
    intros _ s' (H' & Hs & _). rewrite -app_assoc /= in H'. rewrite u32_small; [|lia].
    eapply wp_mono; [apply (IH _ bl1 x (n + m) bl')|].
    - by apply shape_merge_busy.
    - done.
    - by eapply coalesced_tail.
    - simpl in Hfuel. lia.
    - intros _ s'' [H'' Hs']. split; [|by etrans]. by rewrite coalesce_merge. }
  eapply wp_mono; [by apply free_list_link_spec|]. intros _ s' [H' Hs].
  split; [|done]. rewrite coalesced_id //. by apply coalesced_mid_any.
Qed.

Lemma free_list_insert_spec s bl1 x n bl2 :
  shape s (bl1 ++ Blk x n KBusy :: bl2) → coalesced bl1 → coalesced bl2 →
  wp (free_list_insert x n)
    (λ _ s', shape s' (coalesce (bl1 ++ Blk x n KFree :: bl2)) ∧ same_env s s') s.
Proof.
  intros H Hc1 Hc2. rewrite /free_list_insert. wp_steps. apply insert_loop_spec; [done..|].
  destruct (shape_block _ _ _ _ H) as (H1 & Hn & Hx & Hle & H2 & _). simpl in *.
  pose proof (length_frees _ _ _ H1). pose proof (length_frees _ _ _ H2).
  pose proof (sh_count _ _ H). lia.
Qed.

(** ** First fit *)

Lemma find_loop_spec s req bl fuel :
  Forall (λ b, is_free b = true → rd (count_ (chunk s)) (b_start b) = Some (b_len b) ∧
    0 < b_len b < ALLOCATED_FLAG ∧ 0 ≤ b_start b < INDEX_NULL) bl →
  linked (free_next_ (chunk s)) (frees bl) → (length (frees bl) ≤ fuel)%nat →
  wp (free_list_find_loop fuel req (hd_or (frees bl)))
    (λ r s', s' = s ∧ r = from_option fst INDEX_NULL (first_fit req bl)) s.
Proof.
  revert fuel. induction bl as [|b bl IH]; intros fuel Hb Hl Hfuel.
  { destruct fuel; by apply wp_ret. }
  apply Forall_cons in Hb as [Hb Hbl]. simpl in Hl, Hfuel |- *.
  destruct (is_free b) eqn:E.
  - destruct (Hb eq_refl) as (Hc & Hlen & Hs). rewrite {1}/hd_or /=.
    destruct Hl as [Hn Hl]. simpl in Hfuel. destruct fuel as [|fuel]; [lia|].
    simpl. bool_test (b_start b =? INDEX_NULL).
    wp_steps. eapply wp_get_arr; [exact Hc|]. rewrite land_mask Z.mod_small; [|lia].
    destruct (req <=? b_len b) eqn:Er; [by apply wp_ret|].
    wp_steps. eapply wp_get_arr; [exact Hn|].
    eapply wp_mono; [apply IH; [done|done|lia]|]. intros r s' [-> ->]. split; [done|].
    by destruct (first_fit req bl) as [[y r']|].
  - eapply wp_mono; [apply (IH fuel); done|]. intros r s' [-> ->]. split; [done|].
    simpl. by destruct (first_fit req bl) as [[y r']|].
Qed.

Lemma free_list_find_block_spec s req bl :
  shape s bl →
  wp (free_list_find_block req)
    (λ r s', s' = s ∧ r = from_option fst INDEX_NULL (first_fit req bl)) s.
Proof.
  intros H. rewrite /free_list_find_block. wp_steps. rewrite (sh_head _ _ H).
  pose proof (sh_total _ _ H) as Htot. pose proof (sh_count _ _ H).
  pose proof (length_frees _ _ _ (sh_tiles _ _ H)).
  apply find_loop_spec; [|apply (sh_dll _ _ H)|lia].
  apply Forall_forall. intros b Hb Hf. pose proof (tiles_elem _ _ _ _ (sh_tiles _ _ H) Hb).
  split; [by eapply free_count|]. rewrite /ALLOCATED_FLAG /INDEX_NULL in Htot |- *. lia.
Qed.

(** ** Rewriting the counts of one block *)

Definition with_count (count : list Z) (s : ChunkMem) : ChunkMem := upd_count (λ _, count) s.

Lemma shape_recount s bl1 x n k k' bl2 count' :
  shape s (bl1 ++ Blk x n k :: bl2) → k ≠ KFree → k' ≠ KFree →
  length count' = length (count_ (chunk s)) →
  (∀ j, ¬ (x ≤ j < x + n) → rd count' j = rd (count_ (chunk s)) j) →
  block_ok count' (Blk x n k') →
  shape (with_count count' s) (bl1 ++ Blk x n k' :: bl2).
Proof.
  intros H Hk Hk' Hlen Hout Hb.
  destruct (shape_block _ _ _ _ H) as (H1 & Hn & Hx & Hle & H2 & Hf1 & _ & Hf2). simpl in *.
  assert (frees (bl1 ++ Blk x n k' :: bl2) = frees (bl1 ++ Blk x n k :: bl2)) as Hfr.
  { rewrite !frees_app !frees_cons /is_free /= !bool_decide_eq_false_2 //. }
  split; rewrite ?Hfr /=; try apply H.
  - rewrite Hlen. apply H.
  - by apply tiles_mid.
  - apply Forall_app. split; [|constructor; [done|]].
    + eapply blocks_ok_ext; [exact H1| |done]. intros j Hj. apply Hout. lia.
    + eapply blocks_ok_ext; [exact H2| |done]. intros j Hj. apply Hout. lia.
Qed.

Lemma shape_split_busy s bl1 x n m bl2 :
  0 < m < n → shape s (bl1 ++ Blk x n KBusy :: bl2) →
  shape s ((bl1 ++ [Blk x m KBusy]) ++ Blk (x + m) (n - m) KBusy :: bl2).
Proof.
  intros Hm [Ht Hc Hp Hn Hti Hb Hd Hh]. rewrite -app_assoc /=. split; try done.
  - apply tiles_mid in Hti as (H1 & Hl & H2). simpl in *. apply tiles_mid. simpl.
    split; [done|]. split; [lia|]. split; [done|]. split; [lia|].
    by replace (x + m + (n - m)) with (x + n) by lia.
  - apply Forall_app in Hb as [H1 [Hy H2]%Forall_cons].
    apply Forall_app. split; [done|]. repeat constructor; [| |done].
    + intros j Hj. apply Hy. simpl in *. lia.
    + intros j Hj. apply Hy. simpl in *. lia.
  - by rewrite !frees_app in Hd |- *.
  - by rewrite Hh !frees_app.
Qed.

(** The loops that clear a range of counts. *)
Lemma wp_zero_range s (idx lo : Z) (n : nat) (g : Z → Z) :
  0 ≤ idx + lo → idx + lo + n ≤ length (count_ (chunk s)) →
  (∀ j, lo ≤ j < lo + n → g j = idx + j) →
  wp (for_range lo n (λ j, set_count (g j) 0))
    (λ _ s', ∃ count', s' = with_count count' s ∧ length count' = length (count_ (chunk s)) ∧
      ∀ k, rd count' k = if decide (idx + lo ≤ k < idx + lo + n) then Some 0
                         else rd (count_ (chunk s)) k) s.
Proof.
  intros Hlo Hhi Hg.
  apply (wp_for_range (λ j s', ∃ count', s' = with_count count' s ∧
    length count' = length (count_ (chunk s)) ∧
    ∀ k, rd count' k = if decide (idx + lo ≤ k < idx + j) then Some 0
                       else rd (count_ (chunk s)) k)).
  - exists (count_ (chunk s)). split; [by destruct s as [[] ?]|]. split; [done|].
    intros k. rewrite decide_False //. lia.
  - intros j s' Hj (count' & -> & Hlen & Hk). rewrite (Hg j Hj).
    apply wp_set_arr; [simpl; lia|]. exists (wr count' (idx + j) 0).
    split; [done|]. split; [by rewrite length_wr|]. intros k. rewrite rd_wr; [|lia]. rewrite Hk.
    repeat case_decide; try lia; done.
  - intros s' (count' & -> & Hlen & Hk). exists count'. split; [done|]. split; [done|].
    intros k. rewrite Hk. replace (idx + (lo + n)) with (idx + lo + n) by lia. done.
Qed.

(** ** Cutting and claiming a block *)

(** The remainder of a cut block goes back to the free list. *)
Lemma split_spec s bl1 x n req bl2 :
  shape s (bl1 ++ Blk x n KBusy :: bl2) → coalesced bl1 → coalesced bl2 →
  starts_free bl2 = false → 0 < req ≤ n →
  wp (if req <? n then
        set_count (u32 (x + req)) (n - req) ;;
        for_range 1 (Z.to_nat (n - req - 1)) (λ j, set_count (u32 (u32 (x + req) + j)) 0) ;;
        free_list_insert (u32 (x + req)) (n - req)
      else mret tt)
    (λ _ s', shape s' (bl1 ++ Blk x req KBusy :: cut x n req ++ bl2) ∧ same_env s s') s.
Proof.
  intros H Hc1 Hc2 Hs2 Hreq. rewrite /cut. destruct (req <? n) eqn:E; simpl.
  2: { replace req with n by lia. by apply wp_ret. }
  destruct (shape_block _ _ _ _ H) as (_ & _ & Hx & Hle & _). simpl in *.
  pose proof (sh_total _ _ H) as Htot. pose proof (sh_count _ _ H) as Hlen.
  rewrite /ALLOCATED_FLAG in Htot. apply (shape_split_busy _ _ _ _ req) in H; [|lia].
  rewrite u32_small; [|lia]. wp_steps. apply wp_set_arr; [lia|]. wp_steps.
  eapply wp_mono.
  { apply (wp_zero_range _ (x + req)); [lia|rewrite /= length_wr; lia|].
    intros j Hj. rewrite u32_small; lia. }
  intros [] s' (count' & -> & Hl' & Hk). simpl in Hl', Hk. rewrite length_wr in Hl'.
  eapply wp_mono.
  { apply (free_list_insert_spec _ (bl1 ++ [Blk x req KBusy]) (x + req) (n - req) bl2);
      [|by apply coalesced_mid|done].
    eapply (shape_recount s _ _ _ KBusy KBusy); [done|done|done|done| |].
    - intros j Hj. rewrite Hk decide_False; [|lia]. apply rd_wr_ne; lia.
    - pose proof (shape_block _ _ _ _ H) as (_ & _ & _ & _ & _ & _ & Hb & _).
      intros j Hj. simpl in Hj. rewrite /flagless Hk. case_decide; [by exists 0|].
      rewrite rd_wr; [|lia]. case_decide; [|by apply Hb].
      exists (n - req). rewrite /ALLOCATED_FLAG. split; [done|lia]. }
  intros [] s'' [H'' Hs]. split; [|done]. rewrite coalesced_id in H''; [by rewrite -app_assoc in H''|].
  apply coalesced_mid_any; [by rewrite /ends_free last_snoc|done|by apply coalesced_mid|done].
Qed.

(** Writing the allocated head and clearing the rest claims a block. *)
Lemma claim_spec s bl1 x n bl2 :
  shape s (bl1 ++ Blk x n KBusy :: bl2) →
  wp (set_count x (Z.lor n ALLOCATED_FLAG) ;;
      for_range 1 (Z.to_nat (n - 1)) (λ j, set_count (u32 (x + j)) 0))
    (λ _ s', shape s' (bl1 ++ Blk x n KAlloc :: bl2) ∧ same_env s s') s.
Proof.
  intros H. destruct (shape_block _ _ _ _ H) as (_ & Hn & Hx & Hle & _). simpl in *.
  pose proof (sh_total _ _ H) as Htot. pose proof (sh_count _ _ H) as Hlen.
  rewrite /ALLOCATED_FLAG in Htot.
  wp_steps. apply wp_set_arr; [lia|].
  eapply wp_mono.
  { apply (wp_zero_range _ x); [lia|rewrite /= length_wr; lia|].
    intros j Hj. rewrite u32_small; lia. }
  intros [] s' (count' & -> & Hl' & Hk). simpl in Hl', Hk. rewrite length_wr in Hl'.
  split; [|done]. eapply (shape_recount s _ _ _ KBusy KAlloc); [done|done|done|done| |].
  - intros j Hj. rewrite Hk decide_False; [|lia]. apply rd_wr_ne; lia.
  - split; simpl.
    + rewrite Hk decide_False; [|lia]. apply rd_wr_eq. lia.
    + intros j Hj. rewrite Hk decide_True //. lia.
Qed.

(** ** Committing pages *)

(** The address of page [i]. *)
Definition page_addr (s : ChunkMem) (i : Z) : Z := base_ (chunk s) + i * NORMAL_PAGE_SIZE.

(** The chunk lies inside the address space, away from the null page. *)
Record placed (s : ChunkMem) : Prop := {
  pl_base : 0 < base_ (chunk s);
  pl_end : base_ (chunk s) + reserved_size_ (chunk s) < 2 ^ 64;
  pl_reserved : reserved_size_ (chunk s) = total_pages_ (chunk s) * NORMAL_PAGE_SIZE;
}.

(** [commit_] is a bit per page; a set bit means an accessible page. *)
Record commits (s : ChunkMem) : Prop := {
  cm_len : Z.of_nat (length (commit_ (chunk s))) = total_pages_ (chunk s);
  cm_bits : ∀ i c, rd (commit_ (chunk s)) i = Some c →
    c = 0 ∨ (c = 1 ∧ is_Some (heads s !! page_addr s i));
}.

Definition committed (s : ChunkMem) (i : Z) : Prop := rd (commit_ (chunk s)) i = Some 1.

(** What committing pages changes. *)
Definition same_arrays (s s' : ChunkMem) : Prop :=
  chunk s' = chunk (upd_commit (λ _, commit_ (chunk s')) s).

Lemma index_to_page_addr s i :
  placed s → 0 ≤ i < total_pages_ (chunk s) → index_to_page (chunk s) i = page_addr s i.
Proof.
  intros [Hb He Hr] Hi. rewrite /index_to_page u64_small //. rewrite Hr in He.
  unfold NORMAL_PAGE_SIZE in *. nia.
Qed.

Lemma page_addr_inj s i j : page_addr s i = page_addr s j → i = j.
Proof. rewrite /page_addr /NORMAL_PAGE_SIZE. lia. Qed.

Lemma same_arrays_shape s s' bl : same_arrays s s' → shape s bl → shape s' bl.
Proof. rewrite /same_arrays. intros He [? ? ? ? ? ? ? ?]. split; by rewrite He. Qed.

Lemma same_arrays_refl s : same_arrays s s.
Proof. by destruct s as [[] ?]. Qed.

Lemma same_arrays_trans s1 s2 s3 : same_arrays s1 s2 → same_arrays s2 s3 → same_arrays s1 s3.
Proof. rewrite /same_arrays. intros H1 ->. simpl. by rewrite H1. Qed.

(** The geometry of a chunk: where it is and how large. *)
Definition same_geometry (s s' : ChunkMem) : Prop :=
  base_ (chunk s') = base_ (chunk s) ∧
  reserved_size_ (chunk s') = reserved_size_ (chunk s) ∧
  total_pages_ (chunk s') = total_pages_ (chunk s).

Lemma same_arrays_geometry s s' : same_arrays s s' → same_geometry s s'.
Proof. rewrite /same_arrays /same_geometry. by intros ->. Qed.

Lemma same_env_geometry s s' : same_env s s' → same_geometry s s'.
Proof. rewrite /same_env /same_geometry. tauto. Qed.

Lemma geometry_placed s s' : same_geometry s s' → placed s → placed s'.
Proof. intros (Hb & Hr & Ht) [? ? ?]. split; congruence. Qed.

Lemma geometry_addr s s' i : same_geometry s s' → page_addr s' i = page_addr s i.
Proof. intros (Hb & _). by rewrite /page_addr Hb. Qed.

Lemma same_arrays_placed s s' : same_arrays s s' → placed s → placed s'.
Proof. intros ?%same_arrays_geometry. by apply geometry_placed. Qed.

Section committing.
Context `{Kernel}.

(** The page is committed or the kernel grants its commit. *)
Definition grants (s : ChunkMem) (i : Z) : Prop :=
  rd (commit_ (chunk s)) i = Some 0 → sys_mprotect (page_addr s i) NORMAL_PAGE_SIZE = 0.

Lemma commits_granted_grants s i : commits_granted → grants s i.
Proof. intros Hk _. apply Hk. Qed.

Lemma commit_page_spec s i :
  placed s → commits s → 0 ≤ i < total_pages_ (chunk s) → grants s i →
  wp (commit_page i) (λ r s', r = page_addr s i ∧ same_arrays s s' ∧ commits s' ∧
    committed s' i ∧ (∀ j, committed s j → committed s' j) ∧
    (∀ a, a ≠ page_addr s i → heads s' !! a = heads s !! a)) s.
Proof.
  intros Hp [Hl Hb] Hi Hgr. rewrite /commit_page. wp_steps. rewrite index_to_page_addr //.
  destruct (rd_in (commit_ (chunk s)) i) as [c Hc]; [lia|].
  eapply wp_get_arr; [exact Hc|]. destruct (Hb _ _ Hc) as [->|[-> Hs]]; simpl; wp_steps.
  - rewrite /woomem_os_commit_memory Hgr //=. wp_steps.
    apply wp_set_arr; [simpl; lia|]. wp_steps.
    repeat split.
    + rewrite /= length_wr. apply Hl.
    + intros j d. rewrite /= rd_wr; [|lia]. case_decide as Hij.
      * intros [= <-]. right. split; [done|]. subst j. rewrite lookup_insert_eq. by eexists.
      * intros [->|[-> Hs]]%Hb; [by left|right]. split; [done|].
        rewrite lookup_insert_ne; [done|]. intros Ha%(page_addr_inj s). done.
    + rewrite /committed /= rd_wr_eq //. lia.
    + intros j. rewrite /committed /= rd_wr; [|lia]. by case_decide.
    + intros a Ha. by rewrite /= lookup_insert_ne.
  - repeat split; try done. by destruct s as [[] ?].
Qed.

Lemma commit_range_spec s x (n : nat) :
  placed s → commits s → 0 ≤ x → x + n ≤ total_pages_ (chunk s) < ALLOCATED_FLAG →
  (∀ i, x ≤ i < x + n → grants s i) →
  wp (for_range 0 n (λ j, commit_page (u32 (x + j)) ;; mret tt))
    (λ _ s', same_arrays s s' ∧ commits s' ∧ (∀ i, x ≤ i < x + n → committed s' i) ∧
      (∀ i, committed s i → committed s' i) ∧
      (∀ a, (∀ i, x ≤ i < x + n → a ≠ page_addr s i) → heads s' !! a = heads s !! a)) s.
Proof.
  intros Hp Hc Hx Hn Hgr. rewrite /ALLOCATED_FLAG in Hn.
  apply (wp_for_range (λ j s', same_arrays s s' ∧ commits s' ∧
    (∀ i, x ≤ i < x + j → committed s' i) ∧ (∀ i, committed s i → committed s' i) ∧
    (∀ a, (∀ i, x ≤ i < x + n → a ≠ page_addr s i) → heads s' !! a = heads s !! a))).
  - repeat split; try done; try apply Hc; [apply same_arrays_refl|lia].
  - intros j s' Hj (Hs & Hc' & Hdone & Hmono & Hfr). rewrite u32_small; [|lia].
    destruct (same_arrays_geometry _ _ Hs) as (Hb & _ & Ht).
    apply wp_bind. eapply wp_mono.
    { apply commit_page_spec; [by eapply same_arrays_placed|done|rewrite Ht; lia|].
      intros Hbit. rewrite /page_addr Hb. apply Hgr; [lia|].
      destruct (rd_in (commit_ (chunk s)) (x + j)) as [c Hcb]; [rewrite (cm_len _ Hc); lia|].
      destruct (cm_bits _ Hc _ _ Hcb) as [->|[-> _]]; [done|]. specialize (Hmono _ Hcb). rewrite /committed in Hmono. congruence. }
    intros _ s'' (_ & Hs' & Hc'' & Hj' & Hmono' & Hfr'). wp_steps.
    split; [by eapply same_arrays_trans|]. split; [done|]. split; [|split].
    + intros i Hi. destruct (decide (i = x + j)) as [->|]; [done|]. apply Hmono', Hdone. lia.
    + auto.
    + intros a Ha. rewrite Hfr' ?Hfr //. rewrite /page_addr Hb. apply (Ha (x + j)). lia.
  - by intros s'.
Qed.
End committing.

(** ** The invariant of a chunk between two calls *)

Record chunk_inv (s : ChunkMem) (bl : list block) : Prop := {
  ci_shape : shape s bl;
  ci_coalesced : coalesced bl;
  ci_no_busy : no_busy bl;
  ci_unlocked : rwlock_ (chunk s) = 0;
  ci_placed : placed s;
  ci_commits : commits s;
  ci_alloc : ∀ b, b ∈ bl → b_kind b = KAlloc →
    ∀ i, b_start b ≤ i < b_start b + b_len b → committed s i;
}.

Lemma set_rwlock_unlocked s : rwlock_ (chunk s) = 0 → set_rwlock 0 s = s.
Proof. destruct s as [[] ?]. simpl. by intros ->. Qed.

Lemma set_rwlock_twice w w' s : set_rwlock w (set_rwlock w' s) = set_rwlock w s.
Proof. done. Qed.

Lemma shape_set_rwlock w s bl : shape s bl → shape (set_rwlock w s) bl.
Proof. by intros [? ? ? ? ? ? ? ?]. Qed.

(** A guarded body runs under the lock and gives it back. *)
Lemma wp_write_guard {A} (body : CM A) (Q : A → ChunkMem → Prop) s :
  rwlock_ (chunk s) = 0 →
  wp body (λ r s', rwlock_ (chunk s') = RWLock.WRITE_LOCKED ∧ Q r (set_rwlock 0 s'))
    (set_rwlock RWLock.WRITE_LOCKED s) →
  wp (write_guard body) Q s.
Proof.
  intros Hu Hb. rewrite /write_guard. wp_steps. rewrite Hu.
  eapply wp_of_option; [reflexivity|]. wp_steps. eapply wp_mono; [exact Hb|].
  intros r s' [Hl HQ]. wp_steps. by rewrite Hl.
Qed.

Lemma write_guard_faults {A} (body : CM A) e s :
  rwlock_ (chunk s) = 0 → body (set_rwlock RWLock.WRITE_LOCKED s) = Fail e → write_guard body s = Fail e.
Proof.
  intros Hu Hb. rewrite /write_guard /mbind /M_bind /gets /modify Hu.
  change (RWLock.lock_write 0) with (Some RWLock.WRITE_LOCKED). cbn -[set_rwlock]. by rewrite Hb.
Qed.

Lemma wp_read_guard {A} (body : CM A) (Q : A → ChunkMem → Prop) s :
  rwlock_ (chunk s) = 0 →
  wp body (λ r s', rwlock_ (chunk s') = 1 ∧ Q r (set_rwlock 0 s')) (set_rwlock 1 s) →
  wp (read_guard body) Q s.
Proof.
  intros Hu Hb. rewrite /read_guard. wp_steps. rewrite Hu.
  eapply wp_of_option; [reflexivity|]. wp_steps. eapply wp_mono; [exact Hb|].
  intros r s' [Hl HQ]. wp_steps. by rewrite Hl.
Qed.

Section allocation.
Context `{Kernel}.

(** What a successful allocation guarantees. *)
Definition allocated (s : ChunkMem) (req : Z) (bl : list block) (x : Z) (bl' : list block)
    (r : Z) (s' : ChunkMem) : Prop :=
  first_fit req bl = Some (x, bl') ∧ chunk_inv s' bl' ∧ same_geometry s s' ∧
  r = page_addr s x ∧
  (∃ h, heads s' !! r = Some h ∧ m_page_just_allocated h = true) ∧
  (∀ a, (∀ i, x ≤ i < x + req → a ≠ page_addr s i) → heads s' !! a = heads s !! a).

(** The pages of the blocks that were allocated before stay committed, and the new
    block's pages are committed. *)
Lemma allocated_committed req bl x bl' (P : Z → Prop) :
  first_fit req bl = Some (x, bl') →
  (∀ b, b ∈ bl → b_kind b = KAlloc → ∀ i, b_start b ≤ i < b_start b + b_len b → P i) →
  (∀ i, x ≤ i < x + req → P i) →
  ∀ b, b ∈ bl' → b_kind b = KAlloc → ∀ i, b_start b ≤ i < b_start b + b_len b → P i.
Proof.
  intros (bl1 & n & bl2 & -> & Hn & _ & ->)%first_fit_some Hold Hnew b Hb Hk.
  apply elem_of_app in Hb as [Hb|[->|Hb]%elem_of_cons]; [| |apply elem_of_app in Hb as [Hb|Hb]].
  - apply Hold; [set_solver|done].
  - intros i Hi. apply Hnew. simpl in Hi. lia.
  - rewrite /cut in Hb. case_match; [apply list_elem_of_singleton in Hb as ->|
      by apply not_elem_of_nil in Hb]. done.
  - apply Hold; [set_solver|done].
Qed.

(** The end of [allocate_pages]: commit the pages and flag the page header. *)
Lemma publish_spec s bl x req :
  shape s bl → placed s → commits s → 0 ≤ x → 0 < req → x + req ≤ total_pages_ (chunk s) →
  (∀ i, x ≤ i < x + req → grants s i) →
  wp (for_range 0 (Z.to_nat req) (λ j, commit_page (u32 (x + j)) ;; mret tt) ;;
      c ← gets chunk;
      store_head (index_to_page c x) (set_page_just_allocated true) ;;
      mret (index_to_page c x))
    (λ r s', shape s' bl ∧ same_geometry s s' ∧ commits s' ∧
      rwlock_ (chunk s') = rwlock_ (chunk s) ∧
      (∀ i, x ≤ i < x + req → committed s' i) ∧ (∀ i, committed s i → committed s' i) ∧
      r = page_addr s x ∧
      (∃ h, heads s' !! r = Some h ∧ m_page_just_allocated h = true) ∧
      (∀ a, (∀ i, x ≤ i < x + req → a ≠ page_addr s i) → heads s' !! a = heads s !! a)) s.
Proof.
  intros Hsh Hpl Hcm Hx Hreq Hle Hgr. pose proof (sh_total _ _ Hsh) as Htot. apply wp_bind.
  eapply wp_mono.
  { apply (commit_range_spec s x (Z.to_nat req)); [done..|lia|]. intros i Hi. apply Hgr. lia. }
  intros _ s4 (Hs4 & Hcm4 & Hnew & Hmono & Hfr). rewrite Z2Nat.id in Hnew Hfr; [|lia]. wp_steps.
  pose proof (same_arrays_geometry _ _ Hs4) as Hg4.
  rewrite index_to_page_addr; [|by eapply geometry_placed|destruct Hg4 as (_ & _ & ->); lia].
  rewrite (geometry_addr s s4) //.
  assert (is_Some (heads s4 !! page_addr s x)) as [h Hh4].
  { destruct (cm_bits _ Hcm4 x 1) as [?|[_ Hsome]]; [apply Hnew; lia|done|].
    by rewrite (geometry_addr s s4) // in Hsome. }
  eapply wp_store_head; [exact Hh4|]. wp_steps.
  split; [apply same_arrays_shape with s; [done|done]|]. split; [done|]. split.
  { destruct Hcm4 as [Hl Hb]. split; [done|]. intros i c Hi. destruct (Hb i c Hi) as [?|[? Hs]];
      [by left|right]. split; [done|]. simpl. by apply lookup_insert_is_Some'; right. }
  split; [by rewrite /= Hs4|]. split; [done|]. split; [done|]. split; [done|]. split.
  - eexists. rewrite /= lookup_insert_eq. split; [done|]. done.
  - intros a Ha. rewrite /= lookup_insert_ne; [by apply Hfr|].
    intros <-. by apply (Ha x); [lia|].
Qed.

Lemma same_env_commits s s' : same_env s s' → commits s → commits s'.
Proof.
  intros He [Hl Hb]. pose proof (same_env_geometry _ _ He) as Hg.
  destruct He as (_ & _ & Ht & Hc & _ & Hh). split; [by rewrite Hc Ht|].
  intros i c. rewrite Hc Hh (geometry_addr s s') //. apply Hb.
Qed.

Lemma same_env_committed s s' i : same_env s s' → committed s i → committed s' i.
Proof. intros (_ & _ & _ & Hc & _). by rewrite /committed Hc. Qed.

(** Assembling the invariant after the last store of [allocate_pages]. *)
Lemma allocated_intro s bl req x bl' s3 r s5 :
  chunk_inv s bl → 0 < req → first_fit req bl = Some (x, bl') →
  same_env (set_rwlock RWLock.WRITE_LOCKED s) s3 →
  shape s5 bl' → same_geometry s3 s5 → commits s5 → rwlock_ (chunk s5) = rwlock_ (chunk s3) →
  (∀ i, x ≤ i < x + req → committed s5 i) → (∀ i, committed s3 i → committed s5 i) →
  r = page_addr s3 x → (∃ h, heads s5 !! r = Some h ∧ m_page_just_allocated h = true) →
  (∀ a, (∀ i, x ≤ i < x + req → a ≠ page_addr s3 i) → heads s5 !! a = heads s3 !! a) →
  rwlock_ (chunk s5) = RWLock.WRITE_LOCKED ∧ allocated s req bl x bl' r (set_rwlock 0 s5).
Proof.
  intros [Hsh Hco Hnb Hun Hpl Hcm Hal] Hreq Hff He Hsh5 Hg5 Hcm5 Hl5 Hnew Hmono -> Hhd Hfr.
  pose proof He as (Hb & Hr & Ht & Hc & Hw & Hh). simpl in *.
  split; [congruence|].
  assert (same_geometry s s5) as Hg by (unfold same_geometry in *; intuition congruence).
  split; [done|]. split; [split|].
  - by apply shape_set_rwlock.
  - by eapply first_fit_coalesced.
  - by eapply first_fit_no_busy.
  - done.
  - by apply (geometry_placed s).
  - by destruct Hcm5.
  - apply (allocated_committed req bl x bl'); [done| |done].
    intros b Hb' Hk i Hi. apply Hmono. rewrite /committed Hc. by apply (Hal b).
  - split; [done|]. split; [by rewrite /page_addr Hb|]. split; [done|].
    intros a Ha. rewrite /= Hfr; [by rewrite Hh|]. intros i Hi. rewrite /page_addr Hb. by apply Ha.
Qed.

(** The kernel grants the pages of the block that first fit chooses. *)
Definition block_granted (s : ChunkMem) (bl : list block) (req : Z) : Prop :=
  ∀ x bl', first_fit req bl = Some (x, bl') → ∀ i, x ≤ i < x + req → grants s i.

Lemma granted_block s bl req : commits_granted → block_granted s bl req.
Proof. intros Hk x bl' _ i _. by apply commits_granted_grants. Qed.

(** The end of [allocate_pages], and what comes before it: the first block that fits is taken out, cut and flagged. *)
Definition publish (req idx : Z) : CM Z :=
  for_range 0 (Z.to_nat req) (λ j, commit_page (u32 (idx + j)) ;; mret tt) ;;
  c ← gets chunk;
  store_head (index_to_page c idx) (set_page_just_allocated true) ;;
  mret (index_to_page c idx).

Lemma allocate_cut (Φ : res (Z * ChunkMem) → Prop) s bl req x bl' :
  chunk_inv s bl → 0 < req < ALLOCATED_FLAG → first_fit req bl = Some (x, bl') →
  (∀ s3, shape s3 bl' → same_env (set_rwlock RWLock.WRITE_LOCKED s) s3 → 0 ≤ x → x + req ≤ total_pages_ (chunk s) →
     Φ (publish req x s3)) →
  Φ (allocate_locked req (set_rwlock RWLock.WRITE_LOCKED s)).
Proof using.
  intros Hinv Hreq Hff HΦ. pose proof Hinv as [Hsh Hco Hnb Hun Hpl Hcm Hal]. pose proof (sh_total _ _ Hsh) as Htot.
  rewrite /allocate_locked. eapply wp_result; [apply free_list_find_block_spec, shape_set_rwlock, Hsh|].
  intros idx s0 [-> ->]. rewrite Hff /=.
  destruct (first_fit_some _ _ _ _ Hff) as (bl1 & n & bl2 & Ebl & Hn & _ & Ebl').
  rewrite Ebl in Hsh Hco. destruct (shape_block _ _ _ _ Hsh) as (_ & Hn0 & Hx & Hle & _).
  simpl in Hn0, Hx, Hle. destruct (coalesced_not_adjacent _ _ _ Hco eq_refl) as [_ Hs2].
  unfold ALLOCATED_FLAG in Htot, Hreq. rewrite /INDEX_NULL. bool_test (x =? 2 ^ 32 - 1).
  eapply wp_result.
  { eapply (wp_get_arr _ _ _ (λ c s', c = n ∧ s' = set_rwlock RWLock.WRITE_LOCKED s));
      [apply (free_count s _ (Blk x n KFree) Hsh); [set_solver|done]|done]. }
  intros ? ? [-> ->]. rewrite land_mask Z.mod_small; [|rewrite /ALLOCATED_FLAG /=; lia]. simpl.
  eapply wp_result; [apply free_list_remove_spec, shape_set_rwlock, Hsh|]. intros _ s1 (Hsh1 & He1 & _).
  eapply wp_result; [apply split_spec; [exact Hsh1|by eapply coalesced_app_l|
    by eapply coalesced_tail, coalesced_app_r|done|lia]|].
  intros _ s2 [Hsh2 He2]. rewrite -M_assoc.
  eapply wp_result; [apply claim_spec, Hsh2|]. intros _ s3 [Hsh3 He3].
  rewrite -Ebl' in Hsh3. apply HΦ; [done| |lia|lia]. etrans; [exact He1|]. by etrans.
Qed.

Lemma allocate_pages_spec s bl req :
  chunk_inv s bl → 0 < req < ALLOCATED_FLAG → block_granted s bl req →
  wp (allocate_pages req) (λ r s',
    (first_fit req bl = None ∧ r = 0 ∧ s' = s) ∨ (∃ x bl', allocated s req bl x bl' r s')) s.
Proof.
  intros Hinv Hreq Hgr. pose proof Hinv as [Hsh Hco Hnb Hun Hpl Hcm Hal]. apply wp_write_guard; [done|].
  destruct (first_fit req bl) as [[x bl']|] eqn:Hff.
  - match goal with |- wp _ ?Q _ =>
      apply (allocate_cut (λ r, match r with Ok (a, s') => Q a s' | Fail _ => False end) s bl req x bl'); [done..|];
      intros s3 Hsh3 He Hx Hle; change (wp (publish req x) Q s3)
    end. pose proof (same_env_geometry _ _ He) as Hg.
    eapply wp_mono; [apply publish_spec; [exact Hsh3|by apply (geometry_placed s)|
      by eapply same_env_commits; [exact He|destruct Hcm]|done|lia|by destruct Hg as (_ & _ & ->)|]|].
    + intros i Hi Hbit. rewrite (geometry_addr _ _ i Hg). apply (Hgr x bl' Hff i Hi).
      destruct He as (_ & _ & _ & Hc & _). by rewrite Hc in Hbit.
    + intros r s5 (Hsh5 & Hg5 & Hcm5 & Hl5 & Hnew & Hmono & Hr & Hhd & Hfr).
      destruct (allocated_intro s bl req x bl' s3 r s5) as [? Hall]; try done; [lia|].
      split; [done|]. right. by exists x, bl'.
  - rewrite /allocate_locked. wp_steps. eapply wp_mono; [apply free_list_find_block_spec, shape_set_rwlock, Hsh|].
    intros idx s0 [-> ->]. rewrite Hff /=. wp_steps. split; [done|]. left. by rewrite set_rwlock_twice set_rwlock_unlocked.
Qed.

(** ** Refused commits *)

(** The page is not accessible and the kernel refuses to commit it. *)
Definition refused (s : ChunkMem) (i : Z) : Prop :=
  heads s !! page_addr s i = None ∧ sys_mprotect (page_addr s i) NORMAL_PAGE_SIZE ≠ 0 ∧ sys_errno ≠ 0.

Definition commit_len (s : ChunkMem) : Prop := Z.of_nat (length (commit_ (chunk s))) = total_pages_ (chunk s).

Lemma commit_page_any s i j :
  placed s → commit_len s → 0 ≤ i < total_pages_ (chunk s) → refused s j →
  wp (commit_page i) (λ _ s', same_arrays s s' ∧ commit_len s' ∧ refused s' j) s.
Proof using.
  intros Hp Hl Hi (Hh & Hm & He). rewrite /commit_page. wp_steps. rewrite index_to_page_addr //.
  destruct (rd_in (commit_ (chunk s)) i) as [c Hc]; [rewrite Hl; lia|]. eapply wp_get_arr; [exact Hc|].
  destruct (c =? 0); wp_steps; [|split_and!; try done; by destruct s as [[] ?]]. rewrite /woomem_os_commit_memory.
  destruct (sys_mprotect (page_addr s i) NORMAL_PAGE_SIZE =? 0) eqn:E; [|bool_test (sys_errno =? 0)]; simpl; wp_steps.
  - apply wp_set_arr; [simpl; rewrite Hl; lia|]. wp_steps. split_and!; [done|by rewrite /commit_len /= length_wr|].
    split_and!; [|done..]. rewrite /= lookup_insert_ne //. intros Ha. apply Hm. change (page_addr s i = page_addr s j) in Ha.
    rewrite -Ha. lia.
  - apply wp_set_arr; [simpl; rewrite Hl; lia|]. wp_steps. split_and!; [done|by rewrite /commit_len /= length_wr|done].
Qed.

(** The flag of the page header cannot be stored. *)
Lemma publish_refused s x req :
  placed s → commit_len s → 0 ≤ x → 0 < req → x + req ≤ total_pages_ (chunk s) < ALLOCATED_FLAG → refused s x →
  publish req x s = Fail BadAccess.
Proof using.
  intros Hp Hl Hx Hreq Hle Hr. rewrite /ALLOCATED_FLAG in Hle. rewrite /publish.
  apply (wp_result _ _ (λ _ s', same_arrays s s' ∧ commit_len s' ∧ refused s' x) (λ r, r = Fail BadAccess)).
  - apply (wp_for_range (λ j s', same_arrays s s' ∧ commit_len s' ∧ refused s' x)); [by split_and!; [apply same_arrays_refl|..]| |done].
    intros j s' Hj (Hs & Hl' & Hr'). rewrite u32_small; [|lia].
    destruct (same_arrays_geometry _ _ Hs) as (_ & _ & Ht). apply wp_bind. eapply wp_mono.
    { apply (commit_page_any s' (x + j) x); [by eapply same_arrays_placed|done|rewrite Ht; lia|done]. }
    intros _ s'' (Hs' & ? & ?). wp_steps. split_and!; [by eapply same_arrays_trans|done|done].
  - intros _ s' (Hs & _ & Hh & _). destruct (same_arrays_geometry _ _ Hs) as (_ & _ & Ht).
    rewrite /mbind /M_bind /gets index_to_page_addr; [|by eapply same_arrays_placed|rewrite Ht; lia].
    by rewrite /store_head /mbind /M_bind /gets Hh.
Qed.

Lemma allocate_pages_refused s bl req x bl' :
  chunk_inv s bl → 0 < req < ALLOCATED_FLAG → first_fit req bl = Some (x, bl') → refused s x →
  allocate_pages req s = Fail BadAccess.
Proof using.
  intros Hinv Hreq Hff Hr. pose proof Hinv as [Hsh Hco Hnb Hun Hpl Hcm Hal].
  apply write_guard_faults; [done|]. apply (allocate_cut (λ r, r = Fail BadAccess) s bl req x bl'); [done..|].
  intros s3 Hsh3 He Hx Hle. pose proof (same_env_geometry _ _ He) as Hg. pose proof (sh_total _ _ Hsh) as Htot.
  rewrite publish_refused //.
  - by apply (geometry_placed s).
  - destruct He as (_ & _ & Ht & Hc & _). rewrite /commit_len Hc Ht. by destruct Hcm.
  - lia.
  - destruct Hg as (_ & _ & ->). simpl. lia.
  - destruct He as (_ & _ & _ & _ & _ & Hh). rewrite /refused Hh (geometry_addr _ _ x Hg). exact Hr.
Qed.

Lemma chunk_inv_heads s bl a h :
  chunk_inv s bl → chunk_inv (upd_heads (<[a := h]>) s) bl.
Proof.
  intros [[? ? ? ? ? ? ? ?] Hco Hnb Hun [? ? ?] [Hl Hb] Hal]. split; try done.
  split; [done|]. intros i c Hi. destruct (Hb i c Hi) as [?|[? Hs]]; [by left|right].
  split; [done|]. simpl. by apply lookup_insert_is_Some'; right.
Qed.

Lemma allocated_nonzero s req bl x bl' r s' :
  chunk_inv s bl → 0 < req → allocated s req bl x bl' r s' → r ≠ 0 ∧ x < total_pages_ (chunk s).
Proof.
  intros Hinv Hreq (Hff & _ & _ & -> & _).
  apply first_fit_some in Hff as (bl1 & n & bl2 & -> & Hn & _ & _).
  destruct (shape_block _ _ _ _ (ci_shape _ _ Hinv)) as (_ & ? & ? & ? & _).
  destruct (ci_placed _ _ Hinv) as [? _ _]. simpl in *.
  rewrite /page_addr /NORMAL_PAGE_SIZE. lia.
Qed.

(** The page header as the two entry points leave it. *)
Definition page_ready (k : Z) (r : Z) (s' : ChunkMem) : Prop :=
  ∃ h, heads s' !! r = Some h ∧ m_page_just_allocated h = true ∧ m_page_count_if_huge h = k.

Lemma store_count_spec s req bl x bl' r s1 k :
  chunk_inv s bl → 0 < req → allocated s req bl x bl' r s1 →
  wp (if r =? 0 then mret tt else store_head r (set_page_count_if_huge k))
    (λ _ s', allocated s req bl x bl' r s' ∧ page_ready k r s') s1.
Proof.
  intros Hinv Hreq Hal. destruct (allocated_nonzero _ _ _ _ _ _ _ Hinv Hreq Hal) as [Hr _].
  destruct Hal as (Hff & Hinv' & Hg & -> & (h & Hh & Hj) & Hfr).
  bool_test (page_addr s x =? 0). eapply wp_store_head; [exact Hh|].
  split; [|eexists; by rewrite /= lookup_insert_eq].
  split; [done|]. split; [by apply chunk_inv_heads|]. split; [done|]. split; [done|]. split.
  - eexists. by rewrite /= lookup_insert_eq.
  - intros a Ha. rewrite /= lookup_insert_ne; [by apply Hfr|]. intros <-. by apply (Ha x); [lia|].
Qed.

Lemma allocate_page_spec s bl :
  chunk_inv s bl → block_granted s bl 1 →
  wp allocate_page (λ r s',
    (first_fit 1 bl = None ∧ r = 0 ∧ s' = s) ∨
    (∃ x bl', allocated s 1 bl x bl' r s' ∧ page_ready 0 r s')) s.
Proof.
  intros Hinv Hgr. rewrite /allocate_page. apply wp_bind. eapply wp_mono; [by apply allocate_pages_spec|].
  intros r s1 [(Hff & -> & ->)|(x & bl' & Hal)]; [wp_steps; by left|].
  wp_steps. eapply wp_mono; [by apply (store_count_spec s 1 bl x bl' r s1 0)|].
  intros [] s2 Hs2. wp_steps. right. by exists x, bl'.
Qed.

(** Pages needed for a size that does not wrap. *)
Lemma pages_for_small size :
  0 < size → size + NORMAL_PAGE_SIZE - 1 < 2 ^ 64 →
  (pages_for size - 1) * NORMAL_PAGE_SIZE < size ≤ pages_for size * NORMAL_PAGE_SIZE.
Proof.
  intros Hs Hw. unfold pages_for, NORMAL_PAGE_SIZE in *. rewrite u64_small; [|lia].
  pose proof (Z.div_mod (size + 32768 - 1) 32768). pose proof (Z.mod_pos_bound (size + 32768 - 1) 32768).
  lia.
Qed.

Lemma allocate_huge_page_spec `{Build} s bl size :
  chunk_inv s bl → 0 < size → size + NORMAL_PAGE_SIZE - 1 < 2 ^ 64 → block_granted s bl (pages_for size) →
  wp (allocate_huge_page size) (λ r s',
    ((total_pages_ (chunk s) < pages_for size ∨ first_fit (pages_for size) bl = None) ∧
      r = 0 ∧ s' = s) ∨
    (∃ x bl', allocated s (pages_for size) bl x bl' r s' ∧ page_ready (pages_for size) r s')) s.
Proof.
  intros Hinv Hs Hw Hgr. pose proof (pages_for_small size Hs Hw) as Hp.
  pose proof (sh_total _ _ (ci_shape _ _ Hinv)) as Htot. pose proof (pl_base _ (ci_placed _ _ Hinv)).
  assert (0 < pages_for size) as Hpos by (unfold NORMAL_PAGE_SIZE in *; lia).
  rewrite /allocate_huge_page. wp_steps. apply wp_assert; [lia|].
  destruct (total_pages_ (chunk s) <? pages_for size) eqn:E.
  { wp_steps. left. split; [left; lia|done]. }
  rewrite u32_small; [|rewrite /ALLOCATED_FLAG in Htot; lia]. apply wp_bind.
  eapply wp_mono; [by apply allocate_pages_spec; [done|lia|]|].
  intros r s1 [(Hff & -> & ->)|(x & bl' & Hal)]; [wp_steps; left; split; [by right|done]|].
  wp_steps. eapply wp_mono; [by apply (store_count_spec s (pages_for size) bl x bl' r s1)|].
  intros [] s2 Hs2. wp_steps. right. by exists x, bl'.
Qed.

Lemma allocate_huge_page_refused `{Build} s bl size x bl' :
  chunk_inv s bl → 0 < size → size + NORMAL_PAGE_SIZE - 1 < 2 ^ 64 →
  first_fit (pages_for size) bl = Some (x, bl') → refused s x →
  allocate_huge_page size s = Fail BadAccess.
Proof.
  intros Hinv Hs Hw Hff Hr. pose proof (pages_for_small size Hs Hw) as Hp.
  pose proof (sh_total _ _ (ci_shape _ _ Hinv)) as Htot. pose proof (pl_base _ (ci_placed _ _ Hinv)).
  assert (0 < pages_for size) as Hpos by (unfold NORMAL_PAGE_SIZE in *; lia).
  assert (pages_for size ≤ total_pages_ (chunk s)) as Hfit.
  { apply first_fit_some in Hff as (bl1 & n & bl2 & -> & Hn & _ & _).
    destruct (shape_block _ _ _ _ (ci_shape _ _ Hinv)) as (_ & ? & ? & ? & _). simpl in *. lia. }
  assert (allocate_pages (u32 (pages_for size)) s = Fail BadAccess) as Hfail.
  { rewrite u32_small; [|rewrite /ALLOCATED_FLAG in Htot; lia]. eapply allocate_pages_refused; [done|lia|done..]. }
  rewrite /allocate_huge_page /mbind /M_bind /gets /assert_ /mret /M_ret.
  bool_test (base_ (chunk s) =? 0). bool_test (size =? 0). bool_test (total_pages_ (chunk s) <? pages_for size).
  by destruct ndebug; rewrite /= Hfail.
Qed.
End allocation.

(** ** Validation *)

Lemma validate_scan_spec s (fuel : nat) lo i c0 :
  rd (count_ (chunk s)) lo = Some c0 → c0 ≠ 0 → lo ≤ i < length (count_ (chunk s)) →
  i - lo ≤ fuel →
  wp (validate_scan fuel i) (λ r s', s' = s ∧ ∃ h c, r = Some h ∧ lo ≤ h ≤ i ∧
    rd (count_ (chunk s)) h = Some c ∧ c ≠ 0) s.
Proof.
  intros Hlo Hc0. pose proof (rd_lt _ _ _ Hlo) as Hl. revert i.
  induction fuel as [|fuel IH]; intros i Hi Hf;
    (destruct (rd_in (count_ (chunk s)) i) as [c Hc]; [lia|]);
    simpl; wp_steps; (eapply wp_get_arr; [exact Hc|]);
    (destruct (c =? 0) eqn:E; [|apply wp_ret; split; [done|]; exists i, c; repeat split; (done||lia)]);
    (assert (i ≠ lo) by (intros ->; assert (c = c0) by congruence; lia)).
  - lia.
  - bool_test (i =? 0). eapply wp_mono; [apply IH; lia|].
    intros r s' (-> & h & c' & -> & Hh & ? & ?). split; [done|]. exists h, c'.
    repeat split; (done || lia).
Qed.

(** The outcome for a page inside one of the blocks. *)
Lemma validate_block s bl1 b bl2 i :
  shape s (bl1 ++ b :: bl2) → is_busy b = false → b_start b ≤ i < b_start b + b_len b →
  wp (head ← validate_scan (Z.to_nat i) i;
      match head with
      | None => mret 0
      | Some head_idx =>
        n ← get_count head_idx;
        if Z.land n ALLOCATED_FLAG =? 0 then mret 0
        else if head_idx + Z.land n COUNT_MASK <=? i then mret 0
        else mret (index_to_page (chunk s) head_idx)
      end)
    (λ r s', s' = s ∧ r = if owns i b then index_to_page (chunk s) (b_start b) else 0) s.
Proof.
  intros H Hk Hi. destruct (shape_block _ _ _ _ H) as (_ & Hl & H0 & Hle & _ & _ & Hb & _).
  pose proof (sh_count _ _ H) as Hlen. pose proof (sh_total _ _ H) as Htot.
  apply wp_bind. destruct b as [x n []]; simpl in *; [| |done].
  - destruct Hb as [Hx Hin]. simpl in Hx, Hin.
    eapply wp_mono; [eapply (validate_scan_spec s _ x); [exact Hx| |lia|lia]|].
    { rewrite lor_flag; rewrite /ALLOCATED_FLAG in Htot |- *; lia. }
    intros r s' (-> & h & c & -> & Hh & Hc & Hne).
    assert (h = x) as ->.
    { destruct (decide (h = x)); [done|]. exfalso.
      rewrite Hin in Hc; [congruence|lia]. }
    wp_steps. eapply wp_get_arr; [exact Hx|].
    rewrite lor_flag_flag lor_flag_mask /=; [|rewrite /ALLOCATED_FLAG in Htot |- *; lia].
    bool_test (x + n <=? i). apply wp_ret. split; [done|].
    rewrite /owns /=. bool_test ((x <=? i) && (i <? x + n)). done.
  - destruct Hb as [Hx Hin]. simpl in Hx, Hin.
    eapply wp_mono; [eapply (validate_scan_spec s _ x); [exact Hx|lia|lia|lia]|].
    intros r s' (-> & h & c & -> & Hh & Hc & Hne). wp_steps. eapply wp_get_arr; [exact Hc|].
    assert (0 ≤ c < ALLOCATED_FLAG) as Hfl.
    { destruct (decide (h = x)) as [->|]; [assert (c = n) by congruence; lia|].
      destruct (Hin h) as (v & Hv & ?); [simpl; lia|]. assert (c = v) by congruence. lia. }
    rewrite land_flag_small //=.
Qed.

Lemma chunk_inv_block s bl i :
  chunk_inv s bl → 0 ≤ i < total_pages_ (chunk s) →
  ∃ bl1 b bl2, bl = bl1 ++ b :: bl2 ∧ is_busy b = false ∧ b_start b ≤ i < b_start b + b_len b.
Proof.
  intros Hinv Hi. destruct (tiles_cover _ _ _ _ (sh_tiles _ _ (ci_shape _ _ Hinv)) Hi)
    as (b & Hb & Hin). pose proof (ci_no_busy _ _ Hinv) as Hnb.
  apply list_elem_of_split in Hb as (bl1 & bl2 & ->). exists bl1, b, bl2. split; [done|].
  split; [|done]. by apply Forall_app in Hnb as [_ [? _]%Forall_cons].
Qed.

(** The page of an address, and the page head that owns it. *)
Definition page_of (s : ChunkMem) (ptr : Z) : Z := (ptr - base_ (chunk s)) / NORMAL_PAGE_SIZE.

Definition owning_page (s : ChunkMem) (bl : list block) (ptr : Z) : Z :=
  from_option (λ b, page_addr s (b_start b)) 0 (owner (page_of s ptr) bl).

Lemma owner_outside s bl ptr :
  chunk_inv s bl →
  ptr < base_ (chunk s) ∨ base_ (chunk s) + reserved_size_ (chunk s) ≤ ptr →
  owner (page_of s ptr) bl = None.
Proof.
  intros Hinv Hp. destruct (owner (page_of s ptr) bl) as [b|] eqn:E; [|done]. exfalso.
  pose proof (sh_tiles _ _ (ci_shape _ _ Hinv)) as Ht.
  apply (owner_spec _ _ _ _ _ Ht) in E as [Hb [_ Ho]%owns_spec].
  pose proof (tiles_elem _ _ _ _ Ht Hb). pose proof (pl_reserved _ (ci_placed _ _ Hinv)) as Hr.
  unfold page_of, NORMAL_PAGE_SIZE in *.
  pose proof (Z.div_mod (ptr - base_ (chunk s)) 32768). 
  pose proof (Z.mod_pos_bound (ptr - base_ (chunk s)) 32768). lia.
Qed.

Lemma validate_spec `{Build} s bl ptr :
  chunk_inv s bl → wp (validate ptr) (λ r s', s' = s ∧ r = owning_page s bl ptr) s.
Proof.
  intros Hinv. pose proof (ci_placed _ _ Hinv) as [Hb He Hr].
  rewrite /validate. wp_steps. apply wp_assert; [lia|].
  rewrite u64_small; [|pose proof (sh_total _ _ (ci_shape _ _ Hinv)); unfold NORMAL_PAGE_SIZE in *; lia].
  destruct ((ptr <? base_ (chunk s)) || (base_ (chunk s) + reserved_size_ (chunk s) <=? ptr)) eqn:E.
  { wp_steps. split; [done|]. rewrite /owning_page owner_outside //. lia. }
  assert (0 ≤ page_of s ptr < total_pages_ (chunk s)) as Hi.
  { rewrite Hr in E. unfold page_of, NORMAL_PAGE_SIZE in *.
    split; [apply Z.div_pos; lia|apply Z.div_lt_upper_bound; lia]. }
  apply wp_read_guard; [apply Hinv|].
  destruct (chunk_inv_block _ _ _ Hinv Hi) as (bl1 & b & bl2 & -> & Hk & Hin).
  eapply wp_mono.
  { eapply (validate_block (set_rwlock 1 s)); [apply shape_set_rwlock, Hinv|exact Hk|exact Hin]. }
  intros r s' [-> ->]. split; [done|].
  rewrite set_rwlock_twice set_rwlock_unlocked; [|apply Hinv]. split; [done|].
  pose proof (sh_tiles _ _ (ci_shape _ _ Hinv)) as Ht.
  destruct (shape_block _ _ _ _ (ci_shape _ _ Hinv)) as (_ & ? & ? & ? & _).
  rewrite /owning_page. fold (page_of s ptr). destruct (owns (page_of s ptr) b) eqn:Ho.
  - replace (owner _ _) with (Some b) by (symmetry; apply (owner_spec _ _ _ _ _ Ht); set_solver).
    apply (index_to_page_addr s); [apply Hinv|lia].
  - destruct (owner (page_of s ptr) (bl1 ++ b :: bl2)) as [c|] eqn:Eo; [|done]. exfalso.
    apply (owner_spec _ _ _ _ _ Ht) in Eo as [Hc Hoc]. pose proof Hoc as [_ Hci]%owns_spec.
    assert (b ∈ bl1 ++ b :: bl2) as Hbi by set_solver.
    pose proof (tiles_disjoint _ _ _ b c _ Ht Hbi Hc Hin Hci). congruence.
Qed.

(** ** Freeing *)

Lemma page_to_index_addr s i :
  placed s → 0 ≤ i < total_pages_ (chunk s) → page_to_index (chunk s) (page_addr s i) = i.
Proof.
  intros [Hb He Hr] Hi. rewrite /page_to_index /page_addr.
  replace (base_ (chunk s) + i * NORMAL_PAGE_SIZE - base_ (chunk s)) with (i * NORMAL_PAGE_SIZE) by lia.
  rewrite u64_small; [by apply Z.div_mul|]. unfold NORMAL_PAGE_SIZE in *. lia.
Qed.

Lemma free_page_locked_spec s bl1 x n bl2 :
  shape s (bl1 ++ Blk x n KAlloc :: bl2) → coalesced bl1 → coalesced bl2 →
  wp (free_page_locked x)
    (λ _ s', shape s' (coalesce (bl1 ++ Blk x n KFree :: bl2)) ∧ same_env s s') s.
Proof.
  intros H Hc1 Hc2. destruct (shape_block _ _ _ _ H) as (_ & Hn & Hx & Hle & _ & _ & [Hh _] & _).
  pose proof (sh_total _ _ H) as Htot. pose proof (sh_count _ _ H) as Hlen.
  rewrite /ALLOCATED_FLAG in Htot. simpl in Hn, Hx, Hle, Hh.
  rewrite /free_page_locked. wp_steps. eapply wp_get_arr; [exact Hh|].
  rewrite lor_flag_flag lor_flag_mask; [|rewrite /ALLOCATED_FLAG; lia]. simpl. wp_steps.
  eapply wp_mono.
  { apply (wp_zero_range s x); [lia|lia|]. intros j Hj. rewrite u64_small; lia. }
  intros [] s' (count' & -> & Hl' & Hk). wp_steps. apply wp_set_arr; [simpl; lia|].
  rewrite u32_small; [|lia]. eapply wp_mono.
  { apply (free_list_insert_spec _ bl1 x n bl2); [|done|done].
    eapply (shape_recount s _ _ _ KAlloc KBusy); [done|done|done|by rewrite length_wr| |].
    - intros j Hj. simpl. rewrite rd_wr_ne; [|lia..]. rewrite Hk decide_False //. lia.
    - intros j Hj. simpl in Hj. rewrite /flagless /= rd_wr; [|lia]. case_decide.
      + exists n. rewrite /ALLOCATED_FLAG. split; [done|lia].
      + rewrite Hk decide_True; [|lia]. by exists 0. }
  intros [] s'' [Hs He]. by split.
Qed.

(** An index that is not the head of an allocated block has no allocated flag. *)
Lemma unallocated_count s bl i :
  chunk_inv s bl → 0 ≤ i < total_pages_ (chunk s) →
  (∀ b, b ∈ bl → b_kind b = KAlloc → b_start b ≠ i) →
  ∃ c, rd (count_ (chunk s)) i = Some c ∧ Z.land c ALLOCATED_FLAG = 0.
Proof.
  intros Hinv Hi Hno. destruct (chunk_inv_block _ _ _ Hinv Hi) as (bl1 & b & bl2 & -> & Hk & Hin).
  pose proof (ci_shape _ _ Hinv) as H. pose proof (sh_total _ _ H).
  destruct (shape_block _ _ _ _ H) as (_ & ? & ? & ? & _ & _ & Hb & _).
  destruct b as [x n []]; simpl in *; [| |done].
  - exists 0. split; [|done]. apply Hb. simpl. specialize (Hno (Blk x n KAlloc)).
    assert (x ≠ i) by (apply Hno; [set_solver|done]). lia.
  - destruct Hb as [Hx Hint]. simpl in Hx, Hint. destruct (decide (i = x)) as [->|].
    + exists n. split; [done|]. apply land_flag_small. lia.
    + destruct (Hint i) as (v & ? & ?); [lia|]. exists v. split; [done|]. by apply land_flag_small.
Qed.

Lemma release_unallocated i bl :
  coalesced bl → (∀ b, b ∈ bl → b_kind b = KAlloc → b_start b ≠ i) → release i bl = bl.
Proof.
  intros Hc Hno. rewrite /release. replace (mark_free i <$> bl) with bl; [by apply coalesced_id|].
  rewrite -{1}(list_fmap_id bl). apply list_fmap_ext. intros k b Hb%list_elem_of_lookup_2.
  rewrite /= /mark_free. case_bool_decide as E; [|done]. destruct E as [E1 E2].
  by destruct (Hno b Hb E2).
Qed.

Lemma chunk_inv_env s s' bl bl' :
  chunk_inv s bl → same_env (set_rwlock RWLock.WRITE_LOCKED s) s' → shape s' bl' →
  coalesced bl' → no_busy bl' →
  (∀ b, b ∈ bl' → b_kind b = KAlloc → ∀ i, b_start b ≤ i < b_start b + b_len b → committed s i) →
  chunk_inv (set_rwlock 0 s') bl'.
Proof.
  intros Hinv He Hsh Hco Hnb Hal. split; [by apply shape_set_rwlock|done|done|done| | |].
  - apply (geometry_placed s); [|apply Hinv]. by apply same_env_geometry in He.
  - assert (commits (set_rwlock RWLock.WRITE_LOCKED s)) as Hcm by (by destruct (ci_commits _ _ Hinv)).
    pose proof (same_env_commits _ _ He Hcm) as [? ?]. by split.
  - intros b Hb Hk i Hi. destruct He as (_ & _ & _ & Hc & _).
    rewrite /committed /= Hc. by apply (Hal b).
Qed.

(** Coalescing makes no allocated block. *)
Lemma coalesce_alloc bl b : b ∈ coalesce bl → b_kind b = KAlloc → b ∈ bl.
Proof.
  revert b. induction bl as [|c bl IH]; intros b; [done|]. simpl. intros Hb Hk.
  destruct (coalesce bl) as [|d bl'] eqn:E; simpl in Hb.
  - apply list_elem_of_singleton in Hb as ->. constructor.
  - destruct (is_free c && is_free d).
    + apply elem_of_cons in Hb as [->|Hb]; [done|].
      constructor. apply IH; [by constructor|done].
    + apply elem_of_cons in Hb as [->|Hb]; [constructor|]. constructor. by apply IH.
Qed.

Lemma free_guarded_spec s bl1 x n bl2 :
  chunk_inv s (bl1 ++ Blk x n KAlloc :: bl2) →
  wp (write_guard (free_page_locked x))
    (λ _ s', chunk_inv s' (release x (bl1 ++ Blk x n KAlloc :: bl2)) ∧
      same_geometry s s' ∧ heads s' = heads s) s.
Proof.
  intros Hinv. pose proof Hinv as [Hsh Hco Hnb Hun Hpl Hcm Hal].
  apply wp_write_guard; [done|]. eapply wp_mono.
  { eapply free_page_locked_spec; [apply shape_set_rwlock, Hsh|by eapply coalesced_app_l|].
    by eapply coalesced_tail, coalesced_app_r. }
  intros [] s' [Hsh' He]. pose proof He as (_ & _ & _ & _ & Hw & Hh).
  split; [done|]. split; [|split; [by apply same_env_geometry in He|done]].
  rewrite /release (mark_free_split _ _ _ _ _ _ (sh_tiles _ _ Hsh)).
  apply (chunk_inv_env s s' _ _ Hinv He Hsh'); [apply coalesce_coalesced| |].
  - apply coalesce_no_busy. rewrite /no_busy !Forall_app !Forall_cons in Hnb |- *. tauto.
  - intros b Hb Hk. apply coalesce_alloc in Hb; [|done]. apply (Hal b); [|done].
    apply elem_of_app in Hb as [?|[->|?]%elem_of_cons]; [set_solver|done|set_solver].
Qed.

Section freeing.
Context `{Build}.

Lemma owning_page_head s bl b :
  chunk_inv s bl → b ∈ bl → b_kind b = KAlloc →
  owning_page s bl (page_addr s (b_start b)) = page_addr s (b_start b).
Proof.
  intros Hinv Hb Hk. pose proof (sh_tiles _ _ (ci_shape _ _ Hinv)) as Ht.
  pose proof (tiles_elem _ _ _ _ Ht Hb). rewrite /owning_page.
  replace (owner _ bl) with (Some b); [done|]. symmetry. apply (owner_spec _ _ _ _ _ Ht).
  split; [done|]. apply owns_spec. split; [done|]. rewrite /page_of /page_addr.
  replace (base_ (chunk s) + b_start b * NORMAL_PAGE_SIZE - base_ (chunk s))
    with (b_start b * NORMAL_PAGE_SIZE) by lia.
  rewrite Z.div_mul //. lia.
Qed.

Lemma free_page_spec s bl b :
  chunk_inv s bl → b ∈ bl → b_kind b = KAlloc →
  wp (free_page (page_addr s (b_start b)))
    (λ _ s', chunk_inv s' (release (b_start b) bl) ∧ same_geometry s s' ∧ heads s' = heads s) s.
Proof.
  intros Hinv Hb Hk. pose proof (owning_page_head _ _ _ Hinv Hb Hk) as Ho.
  pose proof (tiles_elem _ _ _ _ (sh_tiles _ _ (ci_shape _ _ Hinv)) Hb).
  pose proof (pl_base _ (ci_placed _ _ Hinv)).
  assert (0 < page_addr s (b_start b)) by (rewrite /page_addr /NORMAL_PAGE_SIZE; lia).
  rewrite /free_page. wp_steps. rewrite page_to_index_addr; [|apply Hinv|lia].
  assert (wp (write_guard (free_page_locked (b_start b))) (λ _ s',
    chunk_inv s' (release (b_start b) bl) ∧ same_geometry s s' ∧ heads s' = heads s) s) as Hrun.
  { pose proof Hb as (bl1 & bl2 & ->)%list_elem_of_split. destruct b as [x n k].
    simpl in *. subst k. by apply free_guarded_spec. }
  destruct ndebug eqn:E; wp_steps; [exact Hrun|].
  bool_test (negb (base_ (chunk s) =? 0) && negb (page_addr s (b_start b) =? 0)).
  eapply wp_mono; [by apply validate_spec|]. intros r s' [-> ->].
  apply wp_assert; [by rewrite Ho Z.eqb_refl|]. exact Hrun.
Qed.

(** Without assertions, freeing a page that is not the head of an allocated block
    (a double free, an interior page) changes nothing. *)
Lemma free_page_ignored s bl i :
  ndebug = true → chunk_inv s bl → 0 ≤ i < total_pages_ (chunk s) →
  (∀ b, b ∈ bl → b_kind b = KAlloc → b_start b ≠ i) →
  wp (free_page (page_addr s i)) (λ _ s', s' = s) s.
Proof.
  intros Hnd Hinv Hi Hno. destruct (unallocated_count _ _ _ Hinv Hi Hno) as (c & Hc & Hfl).
  rewrite /free_page. wp_steps. rewrite Hnd. wp_steps.
  rewrite page_to_index_addr; [|apply Hinv|lia]. apply wp_write_guard; [apply Hinv|].
  rewrite /free_page_locked. wp_steps. eapply wp_get_arr; [exact Hc|]. rewrite Hfl /=. wp_steps.
  split; [done|]. rewrite set_rwlock_twice set_rwlock_unlocked //. apply Hinv.
Qed.
End freeing.

(** ** Construction *)

Section construction.
Context `{Kernel}.

Lemma Chunk_ctor_spec size :
  0 < size → size + NORMAL_PAGE_SIZE - 1 < 2 ^ 64 → pages_for size < ALLOCATED_FLAG →
  sys_mmap (pages_for size * NORMAL_PAGE_SIZE) ≠ MAP_FAILED →
  0 < sys_mmap (pages_for size * NORMAL_PAGE_SIZE) →
  sys_mmap (pages_for size * NORMAL_PAGE_SIZE) + pages_for size * NORMAL_PAGE_SIZE < 2 ^ 64 →
  ∃ c, Chunk_ctor size = Ok c ∧ is_init_failed c = false ∧
    total_pages_ c = pages_for size ∧
    chunk_inv (MkChunkMem c ∅) [Blk 0 (pages_for size) KFree].
Proof.
  intros Hs Hw Hp Hf Hb He. pose proof (pages_for_small size Hs Hw) as Hps.
  unfold ALLOCATED_FLAG, NORMAL_PAGE_SIZE in *. set (n := pages_for size) in *.
  rewrite /Chunk_ctor. fold n. bool_test (size =? 0). rewrite /NORMAL_PAGE_SIZE.
  rewrite u64_small; [|lia]. rewrite /woomem_os_reserve_memory.
  bool_test (sys_mmap (n * 32768) =? MAP_FAILED). bool_test (sys_mmap (n * 32768) =? 0).
  rewrite rd_replicate; [|lia]. eexists. split; [done|].
  split; [rewrite /is_init_failed /=; bool_test (n =? 0); apply andb_false_r|]. split; [done|].
  assert (length (wr (replicate (Z.to_nat n) 0) 0 (u32 n)) = Z.to_nat n) as Hl.
  { by rewrite length_wr length_replicate. }
  split; [|done|by repeat constructor|done|done| |].
  - split; simpl; rewrite ?Hl ?length_replicate; try done; try lia.
    + rewrite /ALLOCATED_FLAG. lia.
    + repeat constructor; simpl.
      * rewrite rd_wr_eq; [|rewrite length_replicate; lia]. rewrite u32_small //. lia.
      * intros j Hj. exists 0. rewrite rd_wr_ne; [|lia..]. rewrite rd_replicate //. lia.
    + split; (split; [|done]); rewrite rd_replicate //; lia.
  - split; simpl; [by rewrite length_replicate; lia|].
    intros i c Hi. left. pose proof (rd_lt _ _ _ Hi) as Hlt. rewrite length_replicate in Hlt.
    rewrite rd_replicate in Hi; [by simplify_eq|lia].
  - intros b ->%list_elem_of_singleton. done.
Qed.

(** When nothing can be reserved the chunk reports it. *)
Lemma Chunk_ctor_failed size :
  0 < size → sys_mmap (u64 (pages_for size * NORMAL_PAGE_SIZE)) = MAP_FAILED →
  ∃ c, Chunk_ctor size = Ok c ∧ is_init_failed c = true.
Proof.
  intros Hs Hm. rewrite /Chunk_ctor. bool_test (size =? 0).
  rewrite /woomem_os_reserve_memory Hm Z.eqb_refl /=. by eexists.
Qed.
End construction.
