(* ===== verification/ChunkSpec.v ===== *)
(** * Properties of the chunk

    The refinement of [Chunk] to the block rows of [Blocks], what it means for a
    caller, and the executions the chunk goes through.  The kernel may refuse to commit
    a page and the source does not test for it, so each theorem about an allocation
    says which commits it needs granted, and what a refused one leads to. *)

From S2P Require Import Prelude SizeClass Locks Chunk Blocks ChunkProof.
Open Scope Z_scope.

(** ** A concrete kernel and chunk, for the witnesses *)

Module Demo.

#[export] Instance kernel : Kernel :=
  {| sys_mmap := λ n, if n <? 2 ^ 40 then 65536 else MAP_FAILED;
     sys_mprotect := λ _ _, 0; sys_errno := 12 |}.

(** The same kernel with no memory left to commit. *)
Definition kernel_oom : Kernel :=
  {| sys_mmap := λ n, if n <? 2 ^ 40 then 65536 else MAP_FAILED;
     sys_mprotect := λ _ _, -1; sys_errno := 12 |}.

#[export] Instance debug : Build := {| ndebug := false |}.

Definition release_build : Build := {| ndebug := true |}.

(** A chunk of four pages reserved at address 65536. *)
Definition chunk0 : Chunk :=
  MkChunk 65536 131072 4 [4; 0; 0; 0] (replicate 4 INDEX_NULL) (replicate 4 INDEX_NULL) 0
    (replicate 4 0) 0.

Definition s0 : ChunkMem := MkChunkMem chunk0 ∅.

Lemma ctor : Chunk_ctor 100000 = Ok chunk0.
Proof. reflexivity. Qed.

Lemma commits_always : commits_granted.
Proof. intros a. reflexivity. Qed.

Lemma inv0 : chunk_inv s0 [Blk 0 4 KFree].
Proof.
  destruct (Chunk_ctor_spec 100000) as (c & Hc & _ & _ & Hinv); try (vm_compute; done).
  rewrite ctor in Hc. by injection Hc as <-.
Qed.

(** The state after one [allocate_page], and its row. *)
Definition s1 : ChunkMem :=
  match allocate_page s0 with Ok (_, s) => s | Fail _ => s0 end.

Lemma run1 : allocate_page s0 = Ok (65536, s1).
Proof. vm_compute. reflexivity. Qed.

Lemma inv1 : chunk_inv s1 [Blk 0 1 KAlloc; Blk 1 3 KFree].
Proof.
  pose proof (wp_det _ _ _ _ _ (allocate_page_spec _ _ inv0 (granted_block _ _ _ commits_always)) run1) as H.
  destruct H as [(Hff & _)|(x & bl' & (Hff & Hinv & _) & _)]; [done|].
  simpl in Hff. by injection Hff as <- <-.
Qed.
End Demo.

(** ** Allocation *)

Section allocation_properties.
Context `{Kernel}.

(** C17: [allocate_pages] refines first fit, for a request of 1 to 2^31 - 1 pages.  From a
    chunk that represents a row of blocks, where the kernel grants the commits of the
    block that first fit chooses, it runs without fault; it returns [nullptr] and changes
    nothing exactly when no free block has [req] pages, and otherwise returns the page of
    the first fitting block, its header flagged as just allocated, in a chunk that
    represents the row in which that block is cut and allocated.  Where the kernel refuses
    the first page of that block, the refusal goes unnoticed and the store of the flag is
    a bad access. *)
Theorem allocate_pages_refines_first_fit s bl req
    (Hinv : chunk_inv s bl) (Hreq : 0 < req < ALLOCATED_FLAG) :
  (block_granted s bl req →
    wp (allocate_pages req) (λ r s',
      match first_fit req bl with
      | None => r = 0 ∧ s' = s
      | Some (x, bl') =>
        r = page_addr s x ∧ r ≠ 0 ∧ chunk_inv s' bl' ∧ same_geometry s s' ∧
        (∃ h, heads s' !! r = Some h ∧ m_page_just_allocated h = true) ∧
        (∀ a, (∀ i, x ≤ i < x + req → a ≠ page_addr s i) → heads s' !! a = heads s !! a)
      end) s) ∧
  (∀ x bl', first_fit req bl = Some (x, bl') → refused s x → allocate_pages req s = Fail BadAccess).
Proof.
  split; [|intros x bl'; by apply allocate_pages_refused]. intros Hgr.
  eapply wp_mono; [by apply allocate_pages_spec|].
  intros r s' [(-> & -> & ->)|(x & bl' & Hal)]; [done|].
  pose proof (allocated_nonzero _ _ _ _ _ _ _ Hinv (proj1 Hreq) Hal) as [Hr _].
  destruct Hal as (-> & ? & ? & ? & ? & ?). done.
Qed.

(** What an allocation gives its caller: the blocks allocated before are still
    allocated, and the page returned is the head of a new block of exactly [req]
    pages that shares no page with any of them. *)
Theorem allocate_pages_disjoint s bl req
    (Hgr : block_granted s bl req)
    (Hinv : chunk_inv s bl) (Hreq : 0 < req < ALLOCATED_FLAG) :
  wp (allocate_pages req) (λ r s', r = 0 ∨
    ∃ x bl', r = page_addr s x ∧ chunk_inv s' bl' ∧ Blk x req KAlloc ∈ bl' ∧
      ∀ b, b ∈ bl → b_kind b = KAlloc →
        b ∈ bl' ∧ (b_start b + b_len b ≤ x ∨ x + req ≤ b_start b)) s.
Proof.
  eapply wp_mono; [by apply allocate_pages_spec|].
  intros r s' [(_ & -> & _)|(x & bl' & Hff & Hinv' & _ & -> & _)]; [by left|right].
  exists x, bl'. split; [done|]. split; [done|].
  destruct (first_fit_some _ _ _ _ Hff) as (bl1 & n & bl2 & -> & Hn & _ & ->).
  split; [set_solver|]. intros b Hb Hk.
  pose proof (sh_tiles _ _ (ci_shape _ _ Hinv)) as (H1 & _ & H2)%tiles_mid. simpl in H1, H2.
  apply elem_of_app in Hb as [Hb|[->|Hb]%elem_of_cons]; [|done|].
  - split; [set_solver|]. pose proof (tiles_elem _ _ _ _ H1 Hb). lia.
  - split; [set_solver|]. pose proof (tiles_elem _ _ _ _ H2 Hb). lia.
Qed.

(** C40: [allocate_huge_page] gives enough memory, for a positive size at most 2^64 - 32768
    (above it the page count wraps, [allocate_huge_page_wraps]) and where the kernel grants the
    commits of the block chosen: [nullptr] with nothing changed, or the head of a block of the
    least number of pages that hold the size, recorded in the page header.  Where the kernel
    refuses the first page of the block, the call is a bad access. *)
Theorem allocate_huge_page_enough `{Build} s bl size
    (Hinv : chunk_inv s bl) (Hsize : 0 < size) (Hwrap : size + NORMAL_PAGE_SIZE - 1 < 2 ^ 64) :
  (block_granted s bl (pages_for size) →
    wp (allocate_huge_page size) (λ r s', (r = 0 ∧ s' = s) ∨
      ∃ x n bl' h, r = page_addr s x ∧ chunk_inv s' bl' ∧ Blk x n KAlloc ∈ bl' ∧
        (n - 1) * NORMAL_PAGE_SIZE < size ≤ n * NORMAL_PAGE_SIZE ∧
        heads s' !! r = Some h ∧ m_page_count_if_huge h = n) s) ∧
  (∀ x bl', first_fit (pages_for size) bl = Some (x, bl') → refused s x →
    allocate_huge_page size s = Fail BadAccess).
Proof.
  split; [|intros x bl'; by apply allocate_huge_page_refused]. intros Hgr.
  eapply wp_mono; [by apply allocate_huge_page_spec|].
  intros r s' [(_ & -> & ->)|(x & bl' & (Hff & Hinv' & _ & -> & _) & h & Hh & _ & Hn)]; [by left|].
  right. exists x, (pages_for size), bl', h. split; [done|]. split; [done|]. split.
  - apply first_fit_some in Hff as (bl1 & m & bl2 & _ & _ & _ & ->). set_solver.
  - split; [by apply pages_for_small|done].
Qed.
End allocation_properties.

Import Demo.

(** Two pages out of the second row of the demo chunk, and out of a chunk whose kernel has no memory. *)
Lemma allocate_pages_refines_first_fit_witness :
  @allocate_pages kernel_oom 2 s0 = Fail BadAccess ∧
  first_fit 2 [Blk 0 1 KAlloc; Blk 1 3 KFree] =
    Some (1, [Blk 0 1 KAlloc; Blk 1 2 KAlloc; Blk 3 1 KFree]) ∧
  wp (allocate_pages 2) (λ r s',
    match first_fit 2 [Blk 0 1 KAlloc; Blk 1 3 KFree] with
    | None => r = 0 ∧ s' = s1
    | Some (x, bl') =>
      r = page_addr s1 x ∧ r ≠ 0 ∧ chunk_inv s' bl' ∧ same_geometry s1 s' ∧
      (∃ h, heads s' !! r = Some h ∧ m_page_just_allocated h = true) ∧
      (∀ a, (∀ i, x ≤ i < x + 2 → a ≠ page_addr s1 i) → heads s' !! a = heads s1 !! a)
    end) s1.
Proof.
  split.
  { apply (proj2 (@allocate_pages_refines_first_fit kernel_oom s0 _ 2 inv0 ltac:(vm_compute; done)) 0
      [Blk 0 2 KAlloc; Blk 2 2 KFree]); [reflexivity|]. rewrite /refused. split_and!; vm_compute; done. }
  split; [reflexivity|].
  apply (proj1 (allocate_pages_refines_first_fit s1 _ 2 inv1 ltac:(vm_compute; done))).
  apply granted_block, commits_always.
Defined.

Lemma allocate_pages_disjoint_witness :
  wp (allocate_pages 2) (λ r s', r = 0 ∨
    ∃ x bl', r = page_addr s1 x ∧ chunk_inv s' bl' ∧ Blk x 2 KAlloc ∈ bl' ∧
      ∀ b, b ∈ [Blk 0 1 KAlloc; Blk 1 3 KFree] → b_kind b = KAlloc →
        b ∈ bl' ∧ (b_start b + b_len b ≤ x ∨ x + 2 ≤ b_start b)) s1.
Proof.
  apply (allocate_pages_disjoint s1 _ 2 (granted_block _ _ _ commits_always) inv1). vm_compute. done.
Defined.

Lemma allocate_huge_page_enough_witness :
  @allocate_huge_page debug kernel_oom 40000 s0 = Fail BadAccess ∧
  wp (allocate_huge_page 40000) (λ r s', (r = 0 ∧ s' = s1) ∨
    ∃ x n bl' h, r = page_addr s1 x ∧ chunk_inv s' bl' ∧ Blk x n KAlloc ∈ bl' ∧
      (n - 1) * NORMAL_PAGE_SIZE < 40000 ≤ n * NORMAL_PAGE_SIZE ∧
      heads s' !! r = Some h ∧ m_page_count_if_huge h = n) s1.
Proof.
  split.
  - apply (proj2 (@allocate_huge_page_enough kernel_oom debug s0 _ 40000 inv0 ltac:(done) ltac:(vm_compute; done))
      0 [Blk 0 2 KAlloc; Blk 2 2 KFree]); [reflexivity|]. rewrite /refused. split_and!; vm_compute; done.
  - apply (proj1 (allocate_huge_page_enough s1 _ 40000 inv1 ltac:(done) ltac:(vm_compute; done))).
    apply granted_block, commits_always.
Defined.

(** ** Freeing *)

Section freeing_properties.
Context `{Build}.

(** C18: [free_page] refines release.  Given the head page of an allocated block it
    passes its assertions, meets no fault, leaves every page header alone and
    ends in a chunk that represents the row in which the block is free and merged
    with its free neighbours. *)
Theorem free_page_refines_release s bl b
    (Hinv : chunk_inv s bl) (Hb : b ∈ bl) (Hk : b_kind b = KAlloc) :
  wp (free_page (page_addr s (b_start b)))
    (λ _ s', chunk_inv s' (release (b_start b) bl) ∧ same_geometry s s' ∧ heads s' = heads s) s.
Proof. by apply free_page_spec. Qed.

(** Freeing twice is harmless in a build without assertions: the free of a page
    of the chunk that is not the head of an allocated block, such as a page
    freed before or a page inside a block, returns and changes nothing. *)
Theorem free_page_double_free s bl i
    (Hnd : ndebug = true) (Hinv : chunk_inv s bl) (Hi : 0 ≤ i < total_pages_ (chunk s))
    (Hno : ∀ b, b ∈ bl → b_kind b = KAlloc → b_start b ≠ i) :
  wp (free_page (page_addr s i)) (λ _ s', s' = s) s.
Proof. by eapply free_page_ignored. Qed.

(** C37: a round trip.  Where the kernel grants the commits of the block chosen, allocating
    any number of pages from 1 to 2^31 - 1 and freeing the page returned brings the chunk back
    to the row of blocks it started from. *)
Theorem allocate_free_roundtrip `{Kernel} s bl req
    (Hgr : block_granted s bl req)
    (Hinv : chunk_inv s bl) (Hreq : 0 < req < ALLOCATED_FLAG) :
  wp (r ← allocate_pages req; (if r =? 0 then mret tt else free_page r))
    (λ _ s', chunk_inv s' bl ∧ same_geometry s s') s.
Proof.
  apply wp_bind. eapply wp_mono; [by apply allocate_pages_spec|].
  intros r s1 [(_ & -> & ->)|(x & bl' & Hal)]; [by apply wp_ret|].
  pose proof (allocated_nonzero _ _ _ _ _ _ _ Hinv (proj1 Hreq) Hal) as [Hr _].
  destruct Hal as (Hff & Hinv1 & Hg & -> & _). bool_test (page_addr s x =? 0).
  assert (Blk x req KAlloc ∈ bl') as Hb.
  { apply first_fit_some in Hff as (bl1 & m & bl2 & _ & _ & _ & ->). set_solver. }
  rewrite -(geometry_addr s s1) //.
  eapply wp_mono; [by apply (free_page_spec s1 bl' (Blk x req KAlloc))|].
  intros _ s2 (Hinv2 & Hg2 & _). simpl in Hinv2.
  rewrite (release_first_fit 0 (total_pages_ (chunk s)) req bl x bl') in Hinv2; try done.
  - split; [done|]. unfold same_geometry in *. intuition congruence.
  - lia.
  - apply Hinv.
  - apply Hinv.
Qed.

(** [validate] answers ownership.  For every address it runs without fault,
    leaves the chunk and its lock as they were, and returns the head page of the
    allocated block the address lies in, or [nullptr] when it lies in none. *)
Theorem validate_owning_page s bl ptr (Hinv : chunk_inv s bl) :
  wp (validate ptr) (λ r s', s' = s ∧
    r = match owner ((ptr - base_ (chunk s)) / NORMAL_PAGE_SIZE) bl with
        | Some b => base_ (chunk s) + b_start b * NORMAL_PAGE_SIZE
        | None => 0
        end) s.
Proof.
  eapply wp_mono; [by apply (validate_spec s bl)|]. intros r s' [-> ->]. split; [done|].
  rewrite /owning_page /page_of. by destruct (owner _ bl).
Qed.
End freeing_properties.

Lemma free_page_refines_release_witness :
  release 0 [Blk 0 1 KAlloc; Blk 1 3 KFree] = [Blk 0 4 KFree] ∧
  wp (free_page (page_addr s1 0))
    (λ _ s', chunk_inv s' (release 0 [Blk 0 1 KAlloc; Blk 1 3 KFree]) ∧
      same_geometry s1 s' ∧ heads s' = heads s1) s1.
Proof.
  split; [reflexivity|].
  apply (free_page_refines_release s1 _ (Blk 0 1 KAlloc) inv1); [constructor|reflexivity].
Defined.

Lemma free_page_double_free_witness :
  wp (@free_page release_build (page_addr s1 2)) (λ _ s', s' = s1) s1.
Proof.
  apply (@free_page_double_free release_build s1 _ 2 eq_refl inv1); [vm_compute; done|].
  intros b [->|[->|[]%not_elem_of_nil]%elem_of_cons]%elem_of_cons; done.
Defined.

Lemma allocate_free_roundtrip_witness :
  wp (r ← allocate_pages 3; (if r =? 0 then mret tt else free_page r))
    (λ _ s', chunk_inv s' [Blk 0 1 KAlloc; Blk 1 3 KFree] ∧ same_geometry s1 s') s1.
Proof.
  apply (allocate_free_roundtrip s1 _ 3 (granted_block _ _ _ commits_always) inv1). vm_compute. done.
Defined.

Lemma validate_owning_page_witness :
  wp (validate 65636) (λ r s', s' = s1 ∧
    r = match owner ((65636 - 65536) / NORMAL_PAGE_SIZE) [Blk 0 1 KAlloc; Blk 1 3 KFree] with
        | Some b => 65536 + b_start b * NORMAL_PAGE_SIZE
        | None => 0
        end) s1.
Proof. exact (validate_owning_page s1 _ 65636 inv1). Defined.

(** ** Executions of a chunk *)

Section executions.
Context `{Build} `{Kernel}.

(** The calls clients make: a huge request must not wrap, and only a page that
    [validate] recognises as a head is freed (the source asserts this). *)
Inductive chunk_step : ChunkMem → ChunkMem → Prop :=
| cs_allocate_page r s s' : allocate_page s = Ok (r, s') → chunk_step s s'
| cs_allocate_huge_page size r s s' :
    0 < size → size + NORMAL_PAGE_SIZE - 1 < 2 ^ 64 →
    allocate_huge_page size s = Ok (r, s') → chunk_step s s'
| cs_free_page page s s' :
    page ≠ 0 → validate page s = Ok (page, s) → free_page page s = Ok (tt, s') → chunk_step s s'
| cs_validate ptr r s s' : validate ptr s = Ok (r, s') → chunk_step s s'.

(** The chunk as the constructor leaves it, before any page is accessible. *)
Definition chunk_init (size : Z) (s : ChunkMem) : Prop :=
  0 < size ∧ size + NORMAL_PAGE_SIZE - 1 < 2 ^ 64 ∧ pages_for size < ALLOCATED_FLAG ∧
  Chunk_ctor size = Ok (chunk s) ∧ is_init_failed (chunk s) = false ∧ heads s = ∅.

(** What the documentation of [mmap] promises of a call that succeeds. *)
Definition mmap_ok : Prop :=
  ∀ n, sys_mmap n ≠ MAP_FAILED → 0 < sys_mmap n ∧ sys_mmap n + n < 2 ^ 64.

Lemma owning_page_block s bl page :
  chunk_inv s bl → page ≠ 0 → owning_page s bl page = page →
  ∃ b, b ∈ bl ∧ b_kind b = KAlloc ∧ page = page_addr s (b_start b).
Proof.
  intros Hinv Hp. rewrite /owning_page. destruct (owner (page_of s page) bl) as [b|] eqn:E; simpl.
  - intros <-. exists b. apply (owner_spec _ _ _ _ _ (sh_tiles _ _ (ci_shape _ _ Hinv))) in E
      as [? [? _]%owns_spec]. done.
  - by intros <-.
Qed.

Lemma validated_block s bl page :
  chunk_inv s bl → page ≠ 0 → validate page s = Ok (page, s) →
  ∃ b, b ∈ bl ∧ b_kind b = KAlloc ∧ page = page_addr s (b_start b).
Proof.
  intros Hinv Hp Hv.
  pose proof (wp_det _ _ _ _ _ (validate_spec s bl page Hinv) Hv) as [_ Ho].
  by apply owning_page_block.
Qed.

Lemma chunk_step_inv s s' bl :
  commits_granted → chunk_inv s bl → chunk_step s s' → ∃ bl', chunk_inv s' bl'.
Proof.
  intros Hk Hinv Hs.
  destruct Hs as [r s s' Hr|size r s s' Hz Hw Hr|page s s' Hp Hv Hr|ptr r s s' Hr].
  - pose proof (wp_det _ _ _ _ _ (allocate_page_spec _ _ Hinv (granted_block _ _ _ Hk)) Hr)
      as [(_ & _ & ->)|(x & bl' & (_ & ? & _) & _)]; eauto.
  - pose proof (wp_det _ _ _ _ _ (allocate_huge_page_spec _ _ _ Hinv Hz Hw (granted_block _ _ _ Hk)) Hr)
      as [(_ & _ & ->)|(x & bl' & (_ & ? & _) & _)]; eauto.
  - destruct (validated_block _ _ _ Hinv Hp Hv) as (b & Hb & Hkb & ->).
    pose proof (wp_det _ _ _ _ _ (free_page_spec _ _ _ Hinv Hb Hkb) Hr) as (? & _). eauto.
  - pose proof (wp_det _ _ _ _ _ (validate_spec _ _ ptr Hinv) Hr) as [-> _]. eauto.
Qed.

Lemma chunk_init_inv size s :
  mmap_ok → chunk_init size s → chunk_inv s [Blk 0 (pages_for size) KFree].
Proof.
  intros Hmm (Hz & Hw & Hp & Hc & Hf & Hh).
  pose proof (pages_for_small size Hz Hw) as Hps.
  assert (0 < pages_for size) by (unfold NORMAL_PAGE_SIZE in *; lia).
  assert (u64 (pages_for size * NORMAL_PAGE_SIZE) = pages_for size * NORMAL_PAGE_SIZE) as Hu.
  { apply u64_small. unfold ALLOCATED_FLAG, NORMAL_PAGE_SIZE in *. lia. }
  assert (sys_mmap (pages_for size * NORMAL_PAGE_SIZE) ≠ MAP_FAILED) as Hne.
  { intros Hm. rewrite -Hu in Hm. destruct (Chunk_ctor_failed size Hz Hm) as (c & Hc' & Hf').
    congruence. }
  destruct (Hmm _ Hne) as [Hb He].
  destruct (Chunk_ctor_spec size) as (c & Hc' & _ & _ & Hinv); [done..|].
  rewrite Hc in Hc'. injection Hc' as Hc'. destruct s as [ck h]. simpl in *. by subst.
Qed.

Lemma chunk_reachable_row size s s' :
  mmap_ok → commits_granted → chunk_init size s → rtc chunk_step s s' → ∃ bl, chunk_inv s' bl.
Proof.
  intros Hm Hk Hi Hr. assert (∃ bl, chunk_inv s bl) as Hinv by eauto using chunk_init_inv.
  clear Hi. induction Hr as [|s1 s2 s3 Hst _ IH]; [done|].
  destruct Hinv as [bl Hinv]. apply IH. by eapply chunk_step_inv.
Qed.

(** C9: safety of a chunk over all executions on a kernel that refuses no commit.  From
    construction, through any sequence of calls whose sizes do not wrap, the arrays represent a row of blocks that tile the chunk
    with no two free neighbours, and the next call of any kind runs to completion
    without an index outside an array, a failed assertion, an access to memory
    that is not committed, or a loop that does not end. *)
Theorem chunk_executions_safe size s s'
    (Hmmap : mmap_ok) (Hk : commits_granted) (Hi : chunk_init size s) (Hr : rtc chunk_step s s') :
  (∃ bl, chunk_inv s' bl) ∧
  (∃ r t, allocate_page s' = Ok (r, t)) ∧
  (∀ n, 0 < n → n + NORMAL_PAGE_SIZE - 1 < 2 ^ 64 → ∃ r t, allocate_huge_page n s' = Ok (r, t)) ∧
  (∀ ptr, ∃ r, validate ptr s' = Ok (r, s')) ∧
  (∀ page, page ≠ 0 → validate page s' = Ok (page, s') → ∃ t, free_page page s' = Ok (tt, t)).
Proof.
  destruct (chunk_reachable_row _ _ _ Hmmap Hk Hi Hr) as [bl Hinv]. split; [eauto|].
  split; [|split; [|split]].
  - destruct (wp_run _ _ _ (allocate_page_spec _ _ Hinv (granted_block _ _ _ Hk))) as (r & t & ? & _). eauto.
  - intros n Hn Hw.
    destruct (wp_run _ _ _ (allocate_huge_page_spec _ _ _ Hinv Hn Hw (granted_block _ _ _ Hk))) as (r & t & ? & _). eauto.
  - intros ptr. destruct (wp_run _ _ _ (validate_spec _ _ ptr Hinv)) as (r & t & Hv & -> & _). eauto.
  - intros page Hp Hv. destruct (validated_block _ _ _ Hinv Hp Hv) as (b & Hb & Hkb & ->).
    destruct (wp_run _ _ _ (free_page_spec _ _ _ Hinv Hb Hkb)) as ([] & t & ? & _). eauto.
Qed.

(** A failed commit goes unnoticed.  When [mprotect] fails for a page that was
    never committed, [commit_page] still returns the page and sets its commit bit,
    although the page stays inaccessible; so no later allocation commits it. *)
Theorem commit_page_ignores_failure s bl i
    (Hinv : chunk_inv s bl) (Hi : 0 ≤ i < total_pages_ (chunk s))
    (Hc : rd (commit_ (chunk s)) i = Some 0)
    (Hfail : sys_mprotect (page_addr s i) NORMAL_PAGE_SIZE ≠ 0) (Herr : sys_errno ≠ 0) :
  wp (commit_page i) (λ r s', r = page_addr s i ∧ heads s' = heads s ∧
    rd (commit_ (chunk s')) i = Some 1) s.
Proof.
  rewrite /commit_page. wp_steps. rewrite index_to_page_addr; [|apply Hinv|done].
  eapply wp_get_arr; [exact Hc|]. simpl. rewrite /woomem_os_commit_memory. wp_steps.
  bool_test (sys_mprotect (page_addr s i) NORMAL_PAGE_SIZE =? 0). bool_test (sys_errno =? 0).
  pose proof (cm_len _ (ci_commits _ _ Hinv)).
  wp_steps. apply wp_set_arr; [lia|]. wp_steps. split; [done|]. split; [done|].
  simpl. apply rd_wr_eq. lia.
Qed.
End executions.

Lemma demo_mmap_ok : @mmap_ok kernel.
Proof.
  intros n. rewrite /sys_mmap /=.
  destruct (n <? 2 ^ 40) eqn:E; [|done]. intros _. lia.
Qed.

Lemma demo_init : @chunk_init kernel 100000 s0.
Proof. rewrite /chunk_init. split_and!; vm_compute; done. Qed.

Lemma chunk_executions_safe_witness :
  (∃ bl, chunk_inv s1 bl) ∧
  (∃ r t, allocate_page s1 = Ok (r, t)) ∧
  (∀ n, 0 < n → n + NORMAL_PAGE_SIZE - 1 < 2 ^ 64 → ∃ r t, allocate_huge_page n s1 = Ok (r, t)) ∧
  (∀ ptr, ∃ r, validate ptr s1 = Ok (r, s1)) ∧
  (∀ page, page ≠ 0 → validate page s1 = Ok (page, s1) → ∃ t, free_page page s1 = Ok (tt, t)).
Proof.
  apply (chunk_executions_safe 100000 s0 s1 demo_mmap_ok commits_always demo_init).
  apply rtc_once. exact (cs_allocate_page 65536 s0 s1 run1).
Defined.

Lemma commit_page_ignores_failure_witness :
  wp (@commit_page kernel_oom 2) (λ r s', r = page_addr s0 2 ∧ heads s' = heads s0 ∧
    rd (commit_ (chunk s')) 2 = Some 1) s0.
Proof.
  apply (@commit_page_ignores_failure kernel_oom s0 _ 2 inv0); vm_compute; done.
Defined.

(** ** A request that wraps *)

(** The demo chunk with its first page allocated once and freed. *)
Definition s2 : ChunkMem :=
  match free_page 65536 s1 with Ok (_, s) => s | Fail _ => s1 end.

(** A size within 32767 of 2^64 wraps to zero pages.  In a build without
    assertions, on a chunk whose four pages are all free, such a request succeeds
    and returns the first page; afterwards that page does not validate and no page
    can be allocated any more, although none is in use. *)
Theorem allocate_huge_page_wraps :
  let wrapping := 2 ^ 64 - 100 in
  pages_for wrapping = 0 ∧
  (∃ s3, @allocate_huge_page release_build kernel wrapping s2 = Ok (65536, s3) ∧
     @validate release_build 65536 s3 = Ok (0, s3) ∧
     @allocate_page kernel s3 = Ok (0, s3)) ∧
  (∃ s3, @allocate_page kernel s2 = Ok (65536, s3)).
Proof.
  split; [by vm_compute|]. split.
  - exists (match @allocate_huge_page release_build kernel (2 ^ 64 - 100) s2 with
            | Ok (_, s) => s | Fail _ => s2 end).
    split; [vm_compute; reflexivity|]. split; vm_compute; reflexivity.
  - exists (match @allocate_page kernel s2 with Ok (_, s) => s | Fail _ => s2 end).
    vm_compute. reflexivity.
Qed.
