(* ===== verification/Heap.v ===== *)
(** * The heap: unit-level data and the state the components share

    Data of [src/src/woomem_page_unit_alloc.hpp] (lines 87-137) and the page chain of
    [src/src/woomem_global_context.cpp] (lines 71-96).  Memory is typed: page headers
    ([heads] of the chunk), unit-allocator headers and unit headers are separate
    maps keyed by address.  The unit-allocator header of a page is 24 bytes after
    the page, a unit's header [offset] bytes after that, a huge unit's header
    directly after the page header. *)

From S2P Require Import Prelude SizeClass Locks Chunk.
Open Scope Z_scope.

(** ** Unit-level data *)

Record PageUnitAlloc := MkPageUnitAlloc {
  m_next_allocate_unit_offset : Z;
  m_freed_unit_offset : Z;
  m_run_out : Z;
  m_mark_as_run_out_in_global_pool : bool;
  m_unit_size_in_page : Z;
}.

Inductive UnitLife := RELEASED | PENDING | UNMARKED | SELF_MARKED | FULL_MARKED.

#[export] Instance UnitLife_eq_dec : EqDecision UnitLife.
Proof. solve_decision. Defined.

(** The enumerator values. *)
Definition life_value (l : UnitLife) : Z :=
  match l with
  | RELEASED => 0 | PENDING => 1 | UNMARKED => 2 | SELF_MARKED => 3 | FULL_MARKED => 4
  end.

Record UnitHead := MkUnitHead {
  m_next_free_unit_offset : Z;
  m_age : Z;
  m_timing : Z;
  m_attribute : Z;
  m_life : UnitLife;
}.

#[export] Instance UnitHead_eq_dec : EqDecision UnitHead.
Proof. solve_decision. Defined.

Definition set_next_allocate (o : Z) (p : PageUnitAlloc) : PageUnitAlloc :=
  MkPageUnitAlloc o (m_freed_unit_offset p) (m_run_out p)
    (m_mark_as_run_out_in_global_pool p) (m_unit_size_in_page p).
Definition set_freed (o : Z) (p : PageUnitAlloc) : PageUnitAlloc :=
  MkPageUnitAlloc (m_next_allocate_unit_offset p) o (m_run_out p)
    (m_mark_as_run_out_in_global_pool p) (m_unit_size_in_page p).
Definition set_run_out (r : Z) (p : PageUnitAlloc) : PageUnitAlloc :=
  MkPageUnitAlloc (m_next_allocate_unit_offset p) (m_freed_unit_offset p) r
    (m_mark_as_run_out_in_global_pool p) (m_unit_size_in_page p).
Definition set_mark_run_out (b : bool) (p : PageUnitAlloc) : PageUnitAlloc :=
  MkPageUnitAlloc (m_next_allocate_unit_offset p) (m_freed_unit_offset p) (m_run_out p)
    b (m_unit_size_in_page p).

Definition set_next_free (o : Z) (u : UnitHead) : UnitHead :=
  MkUnitHead o (m_age u) (m_timing u) (m_attribute u) (m_life u).
Definition set_age (a : Z) (u : UnitHead) : UnitHead :=
  MkUnitHead (m_next_free_unit_offset u) a (m_timing u) (m_attribute u) (m_life u).
Definition set_timing (t : Z) (u : UnitHead) : UnitHead :=
  MkUnitHead (m_next_free_unit_offset u) (m_age u) t (m_attribute u) (m_life u).
Definition set_attribute (a : Z) (u : UnitHead) : UnitHead :=
  MkUnitHead (m_next_free_unit_offset u) (m_age u) (m_timing u) a (m_life u).
Definition set_life (l : UnitLife) (u : UnitHead) : UnitHead :=
  MkUnitHead (m_next_free_unit_offset u) (m_age u) (m_timing u) (m_attribute u) l.

(** ** Addresses *)

(** [reinterpret_cast<PageUnitAlloc*>(page + 1)]. *)
Definition alloc_of (page : Z) : Z := page + SIZEOF_PageHead.
(** [reinterpret_cast<UnitHead*>(reinterpret_cast<char*>(page_alloc_head) + offset)]. *)
Definition unit_at (page offset : Z) : Z := alloc_of page + offset.

(** ** The shared state *)

Record World := MkWorld {
  w_chunk : ChunkMem;                 (* the chunk and the page headers *)
  w_allocs : gmap Z PageUnitAlloc;    (* unit-allocator headers *)
  w_units : gmap Z UnitHead;          (* unit headers *)
  w_all_page_list : Z;                (* [m_all_page_list], 0 is [nullptr] *)
}.

Definition set_chunk_mem (c : ChunkMem) (w : World) : World :=
  MkWorld c (w_allocs w) (w_units w) (w_all_page_list w).
Definition upd_allocs (f : gmap Z PageUnitAlloc → gmap Z PageUnitAlloc) (w : World) : World :=
  MkWorld (w_chunk w) (f (w_allocs w)) (w_units w) (w_all_page_list w).
Definition upd_units (f : gmap Z UnitHead → gmap Z UnitHead) (w : World) : World :=
  MkWorld (w_chunk w) (w_allocs w) (f (w_units w)) (w_all_page_list w).
Definition set_all_page_list (p : Z) (w : World) : World :=
  MkWorld (w_chunk w) (w_allocs w) (w_units w) p.

Abbreviation WM := (M World).

(** A chunk operation, run on the chunk of the world. *)
Definition on_chunk {A} (m : CM A) : WM A := λ w,
  match m (w_chunk w) with
  | Ok (a, c) => Ok (a, set_chunk_mem c w)
  | Fail e => Fail e
  end.

(** Loads and stores.  A header that was never written cannot be read; the first
    store to one goes to memory whose page the kernel has made accessible. *)
Definition load_alloc (a : Z) : WM PageUnitAlloc :=
  m ← gets w_allocs; of_option BadAccess (m !! a).
Definition store_alloc (a : Z) (f : PageUnitAlloc → PageUnitAlloc) : WM unit :=
  p ← load_alloc a; modify (upd_allocs (<[a := f p]>)).
Definition load_unit (u : Z) : WM UnitHead :=
  m ← gets w_units; of_option BadAccess (m !! u).
Definition store_unit (u : Z) (f : UnitHead → UnitHead) : WM unit :=
  h ← load_unit u; modify (upd_units (<[u := f h]>)).
Definition load_head (page : Z) : WM PageHead :=
  h ← gets (λ w, heads (w_chunk w)); of_option BadAccess (h !! page).

Definition init_alloc (page : Z) (p : PageUnitAlloc) : WM unit :=
  _ ← load_head page; modify (upd_allocs (<[alloc_of page := p]>)).
Definition init_unit (page offset : Z) (u : UnitHead) : WM unit :=
  _ ← load_head page; modify (upd_units (<[unit_at page offset := u]>)).

(** ** The chain of all pages *)

(** The compare-exchange loop without interference is one iteration. *)
Definition add_page_back_to_into_chain (page : Z) : WM unit :=
  next ← gets w_all_page_list;
  on_chunk (store_head page (set_next_page next)) ;;
  modify (set_all_page_list page).

Definition add_new_page_into_chain `{Build} (page : Z) : WM unit :=
  h ← load_head page;
  assert_ (m_page_just_allocated h) ;;
  on_chunk (store_head page (set_page_just_allocated false)) ;;
  add_page_back_to_into_chain page.

(** ** Runs of the accesses *)

Lemma wp_load_alloc a p (Q : PageUnitAlloc → World → Prop) w :
  w_allocs w !! a = Some p → Q p w → wp (load_alloc a) Q w.
Proof. intros Ha HQ. rewrite /wp /load_alloc /gets /mbind /M_bind /of_option Ha. done. Qed.

Lemma wp_store_alloc a f p (Q : unit → World → Prop) w :
  w_allocs w !! a = Some p → Q tt (upd_allocs (<[a := f p]>) w) → wp (store_alloc a f) Q w.
Proof.
  intros Ha HQ. rewrite /wp /store_alloc /load_alloc /gets /mbind /M_bind /of_option Ha. done.
Qed.

Lemma wp_load_unit a u (Q : UnitHead → World → Prop) w :
  w_units w !! a = Some u → Q u w → wp (load_unit a) Q w.
Proof. intros Ha HQ. rewrite /wp /load_unit /gets /mbind /M_bind /of_option Ha. done. Qed.

Lemma wp_store_unit a f u (Q : unit → World → Prop) w :
  w_units w !! a = Some u → Q tt (upd_units (<[a := f u]>) w) → wp (store_unit a f) Q w.
Proof.
  intros Ha HQ. rewrite /wp /store_unit /load_unit /gets /mbind /M_bind /of_option Ha. done.
Qed.

Lemma wp_load_head page h (Q : PageHead → World → Prop) w :
  heads (w_chunk w) !! page = Some h → Q h w → wp (load_head page) Q w.
Proof. intros Ha HQ. rewrite /wp /load_head /gets /mbind /M_bind /of_option Ha. done. Qed.

Lemma wp_init_alloc page p (Q : unit → World → Prop) w :
  is_Some (heads (w_chunk w) !! page) → Q tt (upd_allocs (<[alloc_of page := p]>) w) →
  wp (init_alloc page p) Q w.
Proof. intros [h Hh] HQ. apply wp_bind. by eapply wp_load_head. Qed.

Lemma wp_init_unit page o u (Q : unit → World → Prop) w :
  is_Some (heads (w_chunk w) !! page) → Q tt (upd_units (<[unit_at page o := u]>) w) →
  wp (init_unit page o u) Q w.
Proof. intros [h Hh] HQ. apply wp_bind. by eapply wp_load_head. Qed.

Lemma wp_on_chunk {A} (m : CM A) (Q : A → World → Prop) w :
  wp m (λ a c, Q a (set_chunk_mem c w)) (w_chunk w) → wp (on_chunk m) Q w.
Proof. rewrite /wp /on_chunk. by destruct (m (w_chunk w)) as [[a c]|]. Qed.

Lemma wp_on_chunk_store_head page f h (Q : unit → World → Prop) w :
  heads (w_chunk w) !! page = Some h →
  Q tt (set_chunk_mem (upd_heads (<[page := f h]>) (w_chunk w)) w) →
  wp (on_chunk (store_head page f)) Q w.
Proof.
  intros Hh HQ. rewrite /wp /on_chunk /store_head /gets /mbind /M_bind /of_option Hh. done.
Qed.

(** ** The chain *)

(** The pages reachable from [head] through [m_next_page]. *)
Fixpoint chained (hs : gmap Z PageHead) (head : Z) (l : list Z) : Prop :=
  match l with
  | [] => head = 0
  | p :: l' => head = p ∧ p ≠ 0 ∧ ∃ h, hs !! p = Some h ∧ chained hs (m_next_page h) l'
  end.

Lemma chained_frame hs hs' head l :
  (∀ p, p ∈ l → m_next_page <$> hs' !! p = m_next_page <$> hs !! p) →
  chained hs head l → chained hs' head l.
Proof.
  revert head. induction l as [|p l IH]; intros head; simpl; [done|].
  intros Hf (-> & Hp & h & Hh & Hc). split; [done|]. split; [done|].
  pose proof (Hf p (list_elem_of_here _ _)) as Hfp. rewrite Hh /= in Hfp.
  destruct (hs' !! p) as [h'|]; simplify_eq/=. exists h'. split; [done|].
  rewrite Hfp. apply IH; [|done]. intros q Hq. apply Hf. by constructor.
Qed.

Lemma add_page_back_spec w page h l :
  heads (w_chunk w) !! page = Some h → page ≠ 0 → page ∉ l →
  chained (heads (w_chunk w)) (w_all_page_list w) l →
  wp (add_page_back_to_into_chain page) (λ _ w',
    chained (heads (w_chunk w')) (w_all_page_list w') (page :: l) ∧
    chunk (w_chunk w') = chunk (w_chunk w) ∧
    heads (w_chunk w') = <[page := set_next_page (w_all_page_list w) h]> (heads (w_chunk w)) ∧
    w_allocs w' = w_allocs w ∧ w_units w' = w_units w) w.
Proof.
  intros Hh Hp Hl Hc. rewrite /add_page_back_to_into_chain. wp_steps.
  eapply wp_on_chunk_store_head; [exact Hh|]. wp_steps. simpl.
  split; [|done]. split; [done|]. split; [done|]. eexists.
  split; [apply lookup_insert_eq|]. simpl. eapply chained_frame; [|exact Hc].
  intros q Hq. rewrite lookup_insert_ne //. by intros ->.
Qed.

Lemma add_new_page_spec `{Build} w page h l :
  heads (w_chunk w) !! page = Some h → m_page_just_allocated h = true →
  page ≠ 0 → page ∉ l → chained (heads (w_chunk w)) (w_all_page_list w) l →
  wp (add_new_page_into_chain page) (λ _ w',
    chained (heads (w_chunk w')) (w_all_page_list w') (page :: l) ∧
    chunk (w_chunk w') = chunk (w_chunk w) ∧
    heads (w_chunk w') =
      <[page := set_next_page (w_all_page_list w) (set_page_just_allocated false h)]>
        (heads (w_chunk w)) ∧
    w_allocs w' = w_allocs w ∧ w_units w' = w_units w) w.
Proof.
  intros Hh Hj Hp Hl Hc. rewrite /add_new_page_into_chain. wp_steps.
  eapply wp_load_head; [exact Hh|]. wp_steps. apply wp_assert; [done|]. wp_steps.
  eapply wp_on_chunk_store_head; [exact Hh|].
  eapply wp_mono; [eapply (add_page_back_spec _ page _ l); simpl|].
  - apply lookup_insert_eq.
  - done.
  - done.
  - eapply chained_frame; [|exact Hc]. intros q Hq. rewrite lookup_insert_ne //. by intros ->.
  - intros _ w' (? & ? & Hhd & ? & ?). split_and!; [done|done| |done|done].
    by rewrite Hhd /= insert_insert_eq.
Qed.
