(* ===== verification/PageUnit.v ===== *)
(** * Units in a page: [src/src/woomem_page_unit_alloc.hpp] (lines 115-223) and
      [src/src/woomem_page_unit_alloc.cpp]

    The free lists of a page.  [page_inv page g la lf w] says that the page is laid
    out for group [g], that [la] is its list of units to allocate and [lf] its list
    of freed units; initialising, picking and dropping are shown to act on those
    lists. *)

From S2P Require Import Prelude SizeClass Locks Chunk Heap.
Open Scope Z_scope.

(** ** Operations *)

Definition zero_unit : UnitHead := MkUnitHead 0 0 0 0 RELEASED.

(** The loop that links the units, [n] of them left, the next one at [offset]. *)
Fixpoint init_units (page usize : Z) (n : nat) (offset : Z) : WM unit :=
  match n with
  | O => mret tt
  | S n' =>
    let offset' := u64 (offset + usize) in
    init_unit page offset (set_next_free (if (0 <? n')%nat then u16 offset' else 0) zero_unit) ;;
    init_units page usize n' offset'
  end.

Definition init_page_for_unit_allocating `{Build} (page : Z) (g : UnitAllocGroup) : WM unit :=
  let unit_size := u16 (group_size g) in
  init_alloc page (MkPageUnitAlloc SIZEOF_PageUnitAlloc 0 0 false unit_size) ;;
  let usize := SIZEOF_UnitHead + unit_size in
  init_units page usize (Z.to_nat (available_for_units / usize)) SIZEOF_PageUnitAlloc ;;
  add_new_page_into_chain page.

(** The [do ... while (1)] loop of the pick; 0 is [nullptr]. *)
Fixpoint pick_loop `{Build} (fuel : nat) (page current_offset : Z) : WM Z :=
  if current_offset =? 0 then
    p ← load_alloc (alloc_of page);
    let current := m_freed_unit_offset p in
    store_alloc (alloc_of page) (set_freed 0) ;;
    if current =? 0 then
      store_alloc (alloc_of page) (set_run_out 1) ;;
      mret 0
    else
      store_alloc (alloc_of page) (set_next_allocate current) ;;
      match fuel with
      | O => throw OutOfFuel
      | S fuel' => pick_loop fuel' page current
      end
  else
    let unit := unit_at page current_offset in
    u ← load_unit unit;
    store_alloc (alloc_of page) (set_next_allocate (m_next_free_unit_offset u)) ;;
    store_unit unit (set_next_free current_offset) ;;
    assert_ (bool_decide (m_life u = RELEASED)) ;;
    store_unit unit (set_life PENDING) ;;
    mret unit.

Definition pick_unit_from_page_without_init `{Build} (page : Z) : WM Z :=
  p ← load_alloc (alloc_of page);
  pick_loop 1 page (m_next_allocate_unit_offset p).

(** The compare-exchange loop without interference is one iteration. *)
Definition drop_freed_unit_into_page `{Build} (page uh : Z) : WM unit :=
  let unit_offset := u16 (uh - alloc_of page) in
  u ← load_unit uh;
  assert_ (bool_decide (m_life u = RELEASED)) ;;
  p ← load_alloc (alloc_of page);
  store_unit uh (set_next_free (m_freed_unit_offset p)) ;;
  store_alloc (alloc_of page) (set_freed unit_offset).

Definition get_unit_available_size `{Build} (uh : Z) : WM Z :=
  u ← load_unit uh;
  if m_next_free_unit_offset u =? 0 then
    h ← load_head (uh - SIZEOF_PageHead);
    assert_ (negb (m_page_count_if_huge h =? 0)) ;;
    mret (u64 (m_page_count_if_huge h * NORMAL_PAGE_SIZE - (SIZEOF_PageHead + SIZEOF_UnitHead)))
  else
    p ← load_alloc (uh - m_next_free_unit_offset u);
    mret (m_unit_size_in_page p).

(** ** The layout of a page *)

(** The offset of unit [k], and all offsets of a page. *)
Definition offset_of (g : UnitAllocGroup) (k : Z) : Z :=
  SIZEOF_PageUnitAlloc + k * unit_size_with_head g.

Definition offsets (g : UnitAllocGroup) : list Z := offset_of g <$> seqZ 0 (unit_count g).

(** A list of released units, from offset [o] through [m_next_free_unit_offset]. *)
Fixpoint unit_list (us : gmap Z UnitHead) (page o : Z) (l : list Z) : Prop :=
  match l with
  | [] => o = 0
  | x :: l' =>
    o = x ∧ ∃ u, us !! unit_at page x = Some u ∧ m_life u = RELEASED ∧
      unit_list us page (m_next_free_unit_offset u) l'
  end.

(** Every unit is on exactly one of the two lists or handed out, and a unit that is
    handed out remembers its own offset. *)
Record page_inv (page : Z) (g : UnitAllocGroup) (la lf : list Z) (w : World) : Prop := {
  pi_head : ∃ p, w_allocs w !! alloc_of page = Some p ∧
    m_unit_size_in_page p = group_size g ∧
    unit_list (w_units w) page (m_next_allocate_unit_offset p) la ∧
    unit_list (w_units w) page (m_freed_unit_offset p) lf;
  pi_nodup : NoDup (la ++ lf);
  pi_offsets : ∀ o, o ∈ la ++ lf → o ∈ offsets g;
  pi_out : ∀ o, o ∈ offsets g → o ∉ la ++ lf →
    ∃ u, w_units w !! unit_at page o = Some u ∧ m_next_free_unit_offset u = o;
}.

(** No unit is released without being on a list. *)
Definition no_limbo (page : Z) (g : UnitAllocGroup) (la lf : list Z) (w : World) : Prop :=
  ∀ o u, o ∈ offsets g → o ∉ la ++ lf → w_units w !! unit_at page o = Some u →
    m_life u ≠ RELEASED.

(** ** Offsets *)

Lemma elem_of_offsets g o :
  o ∈ offsets g ↔ ∃ k, o = offset_of g k ∧ 0 ≤ k < unit_count g.
Proof.
  rewrite /offsets list_elem_of_fmap. split; intros (k & -> & Hk); exists k; split; try done.
  - apply elem_of_seqZ in Hk. lia.
  - apply elem_of_seqZ. lia.
Qed.

Lemma offset_bounds g o :
  o ∈ offsets g → 8 ≤ o ∧ o + unit_size_with_head g ≤ 8 + available_for_units ∧ o < 2 ^ 16.
Proof.
  intros (k & -> & Hk)%elem_of_offsets. pose proof (units_tile_page g) as Ht.
  pose proof (unit_size_with_head_pos g). unfold offset_of, SIZEOF_PageUnitAlloc.
  assert ((k + 1) * unit_size_with_head g ≤ unit_count g * unit_size_with_head g) as Hle by nia.
  assert (0 ≤ k * unit_size_with_head g) by nia.
  rewrite Ht Z.mul_add_distr_r in Hle. change available_for_units with 32736 in *.
  split_and!; lia.
Qed.

Lemma offset_nonzero g o : o ∈ offsets g → o ≠ 0.
Proof. intros ?%offset_bounds. lia. Qed.

#[export] Instance unit_at_inj page : Inj (=) (=) (unit_at page).
Proof. intros o1 o2. rewrite /unit_at. lia. Qed.

(** The units of a page do not overlap, and end with the page. *)
Lemma units_disjoint g o1 o2 :
  o1 ∈ offsets g → o2 ∈ offsets g → o1 < o2 → o1 + unit_size_with_head g ≤ o2.
Proof.
  intros (k1 & -> & H1)%elem_of_offsets (k2 & -> & H2)%elem_of_offsets Hlt.
  pose proof (unit_size_with_head_pos g). unfold offset_of in *.
  assert (k1 < k2) by (apply (Zmult_gt_0_lt_reg_r _ _ (unit_size_with_head g)); lia).
  assert ((k1 + 1) * unit_size_with_head g ≤ k2 * unit_size_with_head g)
    by (apply Z.mul_le_mono_nonneg_r; lia). lia.
Qed.

Lemma offsets_nodup g : NoDup (offsets g).
Proof.
  apply NoDup_fmap_2; [|apply NoDup_seqZ]. intros k1 k2 H.
  pose proof (unit_size_with_head_pos g). unfold offset_of in H. nia.
Qed.

Lemma length_offsets g : Z.of_nat (length (offsets g)) = unit_count g.
Proof. rewrite /offsets length_fmap length_seqZ. pose proof (unit_count_bounds g). lia. Qed.

(** ** Lists of units *)

Lemma unit_list_frame us us' page o l :
  (∀ x, x ∈ l → us' !! unit_at page x = us !! unit_at page x) →
  unit_list us page o l → unit_list us' page o l.
Proof.
  revert o. induction l as [|x l IH]; intros o Hf; simpl; [done|].
  intros (-> & u & Hu & Hl & Hr). split; [done|]. exists u.
  rewrite Hf; [|constructor]. split; [done|]. split; [done|].
  apply IH; [|done]. intros y Hy. apply Hf. by constructor.
Qed.

(** The units of a list are released. *)
Lemma unit_list_released us page o l x :
  unit_list us page o l → x ∈ l → ∃ u, us !! unit_at page x = Some u ∧ m_life u = RELEASED.
Proof.
  revert o. induction l as [|y l IH]; intros o; simpl; [by intros _ ?%elem_of_nil|].
  intros (-> & u & Hu & Hl & Hr) [->|Hx]%elem_of_cons; [by exists u|by eapply IH].
Qed.

(** Updating one unit leaves the lists it is not on. *)
Lemma unit_list_insert us page o l x u :
  x ∉ l → unit_list us page o l → unit_list (<[unit_at page x := u]> us) page o l.
Proof.
  intros Hx. apply unit_list_frame. intros y Hy. rewrite lookup_insert_ne //.
  intros ->%(inj (unit_at page)). done.
Qed.

(** What a page operation leaves alone. *)
Definition page_frame (page : Z) (touched : Z → Prop) (w w' : World) : Prop :=
  w_chunk w' = w_chunk w ∧ w_all_page_list w' = w_all_page_list w ∧
  (∀ a, a ≠ alloc_of page → w_allocs w' !! a = w_allocs w !! a) ∧
  (∀ a, ¬ touched a → w_units w' !! a = w_units w !! a).

(** The flags of a page's unit allocator. *)
Definition flags (w : World) (page : Z) : option (Z * bool) :=
  (λ p, (m_run_out p, m_mark_as_run_out_in_global_pool p)) <$> w_allocs w !! alloc_of page.

(** ** Picking *)

Section picking.
Context `{Build}.

(** What a successful pick of the unit at offset [o] does. *)
Definition picked (page o : Z) (w : World) (r : Z) (w' : World) : Prop :=
  r = unit_at page o ∧ page_frame page (λ a, a = r) w w' ∧
  (∃ u, w_units w !! r = Some u ∧ m_life u = RELEASED ∧
    w_units w' !! r = Some (set_life PENDING (set_next_free o u))) ∧
  flags w' page = flags w page.

Lemma page_inv_take page g o la lf w u p :
  page_inv page g (o :: la) lf w → w_units w !! unit_at page o = Some u →
  w_allocs w !! alloc_of page = Some p →
  page_inv page g la lf
    (MkWorld (w_chunk w) (<[alloc_of page := set_next_allocate (m_next_free_unit_offset u) p]> (w_allocs w))
      (<[unit_at page o := set_life PENDING (set_next_free o u)]> (w_units w)) (w_all_page_list w)).
Proof.
  intros [Hh Hnd Hoff Hout] Hu Hp. destruct Hh as (p' & Hp' & Hs & Hla & Hlf).
  rewrite Hp in Hp'. injection Hp' as <-.
  destruct Hla as (_ & u' & Hu' & _ & Hla). rewrite Hu in Hu'. injection Hu' as <-.
  apply NoDup_cons in Hnd as [Ho Hnd]. split; simpl.
  - exists (set_next_allocate (m_next_free_unit_offset u) p). rewrite lookup_insert_eq.
    split_and!; [done|done| |]; (apply unit_list_insert; [set_solver|done]).
  - done.
  - intros x Hx. apply Hoff. by constructor.
  - intros x Hx Hnx. destruct (decide (x = o)) as [->|Hne].
    + rewrite lookup_insert_eq. by eexists.
    + rewrite lookup_insert_ne; [|by intros ?%(inj (unit_at page))].
      apply Hout; [done|]. simpl. by intros [->|?]%elem_of_cons.
Qed.

Lemma pick_take fuel page g o la lf w :
  page_inv page g (o :: la) lf w →
  wp (pick_loop fuel page o) (λ r w', picked page o w r w' ∧ page_inv page g la lf w') w.
Proof.
  intros Hinv. pose proof Hinv as [(p & Hp & Hs & (_ & u & Hu & Hlife & _) & _) _ Hoff _].
  assert (o ≠ 0) as Ho0 by (apply (offset_nonzero g), Hoff; constructor).
  assert (wp (pick_loop fuel page o) (λ r w', r = unit_at page o ∧ w' =
    MkWorld (w_chunk w) (<[alloc_of page := set_next_allocate (m_next_free_unit_offset u) p]> (w_allocs w))
      (<[unit_at page o := set_life PENDING (set_next_free o u)]> (w_units w)) (w_all_page_list w)) w)
    as Hrun.
  { destruct fuel; simpl; bool_test (o =? 0);
      (wp_steps; eapply wp_load_unit; [exact Hu|]; wp_steps;
       eapply wp_store_alloc; [exact Hp|]; wp_steps;
       eapply wp_store_unit; [exact Hu|]; wp_steps;
       apply wp_assert; [by rewrite bool_decide_eq_true_2|]; wp_steps;
       eapply wp_store_unit; [apply lookup_insert_eq|]; wp_steps;
       split; [done|]; rewrite /upd_units /upd_allocs /= insert_insert_eq; done). }
  eapply wp_mono; [exact Hrun|]. intros r w' [-> ->].
  split; [|by apply page_inv_take]. split; [done|]. split; [split_and!; simpl; try done|split].
  - intros a Ha. by rewrite lookup_insert_ne.
  - intros a Ha. by rewrite lookup_insert_ne.
  - exists u. split_and!; [done|done|]. simpl. by rewrite lookup_insert_eq.
  - by rewrite /flags /= lookup_insert_eq Hp.
Qed.

(** The freed list becomes the list to allocate from. *)
Lemma page_inv_swap page g lf w p :
  page_inv page g [] lf w → w_allocs w !! alloc_of page = Some p →
  page_inv page g lf []
    (upd_allocs (<[alloc_of page :=
      set_next_allocate (m_freed_unit_offset p) (set_freed 0 p)]>) w).
Proof.
  intros [Hh Hnd Hoff Hout] Hp. destruct Hh as (p' & Hp' & Hs & Hla & Hlf).
  rewrite Hp in Hp'. injection Hp' as <-. split; simpl.
  - eexists. rewrite lookup_insert_eq. by split_and!.
  - by rewrite app_nil_r.
  - intros x Hx. apply Hoff. by rewrite app_nil_r in Hx.
  - intros x Hx Hnx. apply Hout; [done|]. by rewrite app_nil_r in Hnx.
Qed.

(** The lists after a pick from [la] and [lf]. *)
Definition after_pick (la lf : list Z) : list Z * list Z :=
  match la with
  | _ :: la' => (la', lf)
  | [] => (tail lf, [])
  end.

(** The header of a page that has nothing left. *)
Definition exhausted (page : Z) (w w' : World) : Prop :=
  page_frame page (λ _, False) w w' ∧
  ∃ p, w_allocs w !! alloc_of page = Some p ∧
    w_allocs w' !! alloc_of page = Some (set_run_out 1 (set_freed 0 p)).

(** With nothing on the first list, the pick takes the freed list over. *)
Lemma pick_refill fuel page g lf w :
  page_inv page g [] lf w →
  wp (pick_loop (S fuel) page 0) (λ r w',
    page_inv page g (tail lf) [] w' ∧
    match lf with
    | [] => r = 0 ∧ exhausted page w w'
    | o :: _ => picked page o w r w'
    end) w.
Proof.
  intros Hinv. pose proof Hinv as [(p & Hp & Hs & Hla & Hlf) _ Hoff Hout].
  simpl. wp_steps. eapply wp_load_alloc; [exact Hp|]. wp_steps.
  eapply wp_store_alloc; [exact Hp|]. destruct lf as [|o lf]; simpl in Hlf.
  { rewrite Hlf /=. wp_steps. eapply wp_store_alloc; [apply lookup_insert_eq|]. wp_steps.
    split; [|split; [done|]].
    - split; [|by constructor|set_solver|done].
      eexists. rewrite /= lookup_insert_eq. by split_and!.
    - split; [split_and!; try done|].
      + intros a Ha. rewrite /= !lookup_insert_ne //.
      + exists p. split; [done|]. by rewrite /= lookup_insert_eq. }
  destruct Hlf as [Hfo _]. rewrite Hfo. assert (o ≠ 0) as Ho.
  { apply (offset_nonzero g), Hoff. constructor. }
  bool_test (o =? 0). wp_steps. eapply wp_store_alloc; [apply lookup_insert_eq|].
  pose proof (page_inv_swap _ _ _ _ _ Hinv Hp) as Hinv'. rewrite Hfo in Hinv'.
  replace (upd_allocs _ (upd_allocs _ w)) with
    (upd_allocs (<[alloc_of page := set_next_allocate o (set_freed 0 p)]>) w)
    by (rewrite /upd_allocs /= insert_insert_eq //).
  eapply wp_mono; [by apply pick_take|].
  intros r w' [(-> & (? & ? & Ha & Hu) & Hu' & Hfl) Hinv'']. split; [done|].
  split; [done|]. split; [|split; [exact Hu'|]].
  - split_and!; try done. intros a Hne. rewrite Ha //= lookup_insert_ne //.
  - by rewrite Hfl /flags /= lookup_insert_eq Hp.
Qed.

Lemma pick_spec page g la lf w :
  page_inv page g la lf w →
  wp (pick_unit_from_page_without_init page) (λ r w',
    page_inv page g (after_pick la lf).1 (after_pick la lf).2 w' ∧
    match la ++ lf with
    | [] => r = 0 ∧ exhausted page w w'
    | o :: _ => picked page o w r w'
    end) w.
Proof.
  intros Hinv. pose proof Hinv as [(p & Hp & _ & Hla & _) _ _ _].
  rewrite /pick_unit_from_page_without_init. wp_steps. eapply wp_load_alloc; [exact Hp|].
  destruct la as [|o la]; simpl in Hla.
  - rewrite Hla. by apply pick_refill.
  - destruct Hla as [-> _]. eapply wp_mono; [by apply pick_take|]. by intros r w' [].
Qed.

(** [n] picks in a row, with their results. *)
Fixpoint pick_many (n : nat) (page : Z) : WM (list Z) :=
  match n with
  | O => mret []
  | S n' =>
    u ← pick_unit_from_page_without_init page;
    us ← pick_many n' page;
    mret (u :: us)
  end.

Lemma after_pick_app la lf : (after_pick la lf).1 ++ (after_pick la lf).2 = tail (la ++ lf).
Proof. destruct la; simpl; [apply app_nil_r|done]. Qed.

Lemma pick_many_spec page g la lf w :
  page_inv page g la lf w →
  wp (pick_many (length (la ++ lf)) page)
    (λ us w', us = unit_at page <$> la ++ lf ∧ page_inv page g [] [] w') w.
Proof.
  remember (length (la ++ lf)) as n eqn:Hn. revert la lf w Hn.
  induction n as [|n IH]; intros la lf w Hn Hinv.
  { symmetry in Hn. apply length_zero_iff_nil, app_eq_nil in Hn as [-> ->]. by apply wp_ret. }
  simpl. wp_steps. eapply wp_mono; [by apply pick_spec|]. intros r w1 [Hinv1 Hr]. wp_steps.
  pose proof (after_pick_app la lf) as Happ.
  destruct (la ++ lf) as [|o rest] eqn:Hl; [done|]. destruct Hr as [-> _]. injection Hn as Hn.
  eapply wp_mono; [apply (IH (after_pick la lf).1 (after_pick la lf).2)|].
  - by rewrite Happ.
  - done.
  - rewrite Happ. intros us w2 [-> ?]. by wp_steps.
Qed.
End picking.

(** ** Dropping *)

Lemma drop_spec `{Build} page g la lf o w u :
  page_inv page g la lf w → o ∈ offsets g → o ∉ la ++ lf →
  w_units w !! unit_at page o = Some u → m_life u = RELEASED →
  wp (drop_freed_unit_into_page page (unit_at page o)) (λ _ w',
    page_inv page g la (o :: lf) w' ∧ page_frame page (λ a, a = unit_at page o) w w' ∧
    ∃ p, w_allocs w !! alloc_of page = Some p ∧
      w_allocs w' !! alloc_of page = Some (set_freed o p) ∧
      w_units w' !! unit_at page o = Some (set_next_free (m_freed_unit_offset p) u)) w.
Proof.
  intros [(p & Hp & Hs & Hla & Hlf) Hnd Hoff Hout] Ho Hno Hu Hlife.
  pose proof (offset_bounds _ _ Ho).
  rewrite /drop_freed_unit_into_page. wp_steps. eapply wp_load_unit; [exact Hu|]. wp_steps.
  apply wp_assert; [by rewrite bool_decide_eq_true_2|]. wp_steps.
  eapply wp_load_alloc; [exact Hp|]. wp_steps. eapply wp_store_unit; [exact Hu|].
  eapply wp_store_alloc; [exact Hp|].
  replace (u16 (unit_at page o - alloc_of page)) with o
    by (rewrite /unit_at u16_small; lia).
  split; [split|split].
  - exists (set_freed o p). rewrite /= lookup_insert_eq. split; [done|]. split; [done|]. split.
    + apply unit_list_insert; [set_solver|done].
    + split; [done|]. eexists. rewrite lookup_insert_eq. split_and!; [done|done|].
      simpl. apply unit_list_insert; [set_solver|done].
  - by rewrite -Permutation_middle NoDup_cons.
  - intros x Hx. destruct (decide (x = o)) as [->|]; [done|]. apply Hoff. set_solver.
  - intros x Hx Hnx. rewrite /= lookup_insert_ne; [apply Hout; set_solver|].
    intros Heq%(inj (unit_at page)). set_solver.
  - split_and!; [done|done| |]; intros a Ha; by rewrite /= lookup_insert_ne.
  - exists p. by rewrite /= !lookup_insert_eq.
Qed.

(** ** Initialising *)

Fixpoint run_offsets (usize : Z) (n : nat) (o : Z) : list Z :=
  match n with
  | O => []
  | S n' => o :: run_offsets usize n' (o + usize)
  end.

Lemma elem_of_run usize (n : nat) o x :
  x ∈ run_offsets usize n o ↔ ∃ k, x = o + k * usize ∧ 0 ≤ k < n.
Proof.
  revert o. induction n as [|n IH]; intros o; cbn [run_offsets].
  - split; [by intros ?%not_elem_of_nil|]. intros (k & _ & ?). lia.
  - rewrite elem_of_cons IH. split.
    + intros [->|(k & -> & Hk)]; [exists 0; lia|exists (k + 1); lia].
    + intros (k & -> & Hk). destruct (decide (k = 0)) as [->|]; [left; lia|right].
      exists (k - 1). lia.
Qed.

Lemma run_offsets_map usize (n : nat) o :
  run_offsets usize n o = (λ k, o + k * usize) <$> seqZ 0 n.
Proof.
  revert o. induction n as [|n IH]; intros o; [done|].
  rewrite Nat2Z.inj_succ seqZ_cons; [|lia]. simpl. f_equal; [lia|].
  rewrite IH -(fmap_add_seqZ 1 0). replace (Z.pred (Z.succ n)) with (Z.of_nat n) by lia.
  change (list_fmap Z Z) with (@fmap list _ Z Z). rewrite -(list_fmap_compose (Z.add 1)).
  apply list_fmap_ext. intros i k _. simpl. lia.
Qed.

Lemma offsets_run g :
  run_offsets (unit_size_with_head g) (Z.to_nat (unit_count g)) SIZEOF_PageUnitAlloc = offsets g.
Proof.
  rewrite run_offsets_map Z2Nat.id; [done|]. pose proof (unit_count_bounds g). lia.
Qed.

Lemma init_units_spec page usize (n : nat) o w :
  is_Some (heads (w_chunk w) !! page) → 0 < usize → 0 ≤ o → o + n * usize < 2 ^ 16 →
  wp (init_units page usize n o) (λ _ w',
    unit_list (w_units w') page (if (0 <? n)%nat then o else 0) (run_offsets usize n o) ∧
    w_chunk w' = w_chunk w ∧ w_all_page_list w' = w_all_page_list w ∧ w_allocs w' = w_allocs w ∧
    ∀ a, (∀ x, x ∈ run_offsets usize n o → a ≠ unit_at page x) →
      w_units w' !! a = w_units w !! a) w.
Proof.
  revert o w. induction n as [|n IH]; intros o w Hh Hu Ho Hb; [by apply wp_ret|].
  assert (0 ≤ n * usize) by (apply Z.mul_nonneg_nonneg; lia).
  simpl. wp_steps. apply wp_init_unit; [done|].
  rewrite u64_small; [|lia]. eapply wp_mono; [apply IH; [done|done|lia|lia]|].
  intros _ w' (Hl & Hc & Hp & Ha & Hf). split_and!; try done.
  - eexists. rewrite Hf.
    + rewrite /= lookup_insert_eq. split_and!; [done|done|]. simpl.
      destruct (0 <? n)%nat; [|done]. rewrite u16_small //. lia.
    + intros x (k & -> & Hk)%elem_of_run Heq%(inj (unit_at page)). nia.
  - intros a Ha'. rewrite Hf.
    + rewrite /= lookup_insert_ne //. intros Heq. by eapply Ha'; [constructor|].
    + intros x Hx. apply Ha'. by constructor.
Qed.

(** A freshly initialised page: every unit is on the list to allocate, in address
    order, the page is on the chain and visible to validation. *)
Lemma init_page_spec `{Build} page g w h l :
  heads (w_chunk w) !! page = Some h → m_page_just_allocated h = true → page ≠ 0 → page ∉ l →
  chained (heads (w_chunk w)) (w_all_page_list w) l →
  wp (init_page_for_unit_allocating page g) (λ _ w',
    page_inv page g (offsets g) [] w' ∧
    (∃ p, w_allocs w' !! alloc_of page = Some p ∧ m_run_out p = 0 ∧
      m_mark_as_run_out_in_global_pool p = false) ∧
    chained (heads (w_chunk w')) (w_all_page_list w') (page :: l) ∧
    chunk (w_chunk w') = chunk (w_chunk w) ∧
    heads (w_chunk w') =
      <[page := set_next_page (w_all_page_list w) (set_page_just_allocated false h)]>
        (heads (w_chunk w)) ∧
    (∀ a, a ≠ alloc_of page → w_allocs w' !! a = w_allocs w !! a) ∧
    (∀ a, (∀ o, o ∈ offsets g → a ≠ unit_at page o) → w_units w' !! a = w_units w !! a)) w.
Proof.
  intros Hh Hj Hp Hl Hc. pose proof (group_size_bounds g) as Hg.
  rewrite /MAX_IN_PAGE_UNIT_SIZE in Hg. pose proof (units_tile_page g) as Ht.
  pose proof (unit_size_with_head_pos g). pose proof (unit_count_bounds g).
  change available_for_units with 32736 in Ht.
  rewrite /init_page_for_unit_allocating. wp_steps. apply wp_init_alloc; [by eexists|].
  rewrite u16_small; [|lia]. rewrite (Z.add_comm SIZEOF_UnitHead). fold (unit_size_with_head g).
  fold (unit_count g). wp_steps. eapply wp_mono.
  { apply init_units_spec; [by eexists|lia|done|]. rewrite Z2Nat.id; [|lia].
    rewrite Ht /SIZEOF_PageUnitAlloc. lia. }
  rewrite offsets_run. intros _ w1 (Hul & Hch & Hpl & Hal & Hfr). simpl in Hch, Hpl, Hal.
  eapply wp_mono.
  { apply (add_new_page_spec w1 page h l); [by rewrite Hch|done|done|done|by rewrite Hch Hpl]. }
  intros _ w' (Hc' & Hck & Hhd & Ha & Hu).
  assert ((0 <? Z.to_nat (unit_count g))%nat = true) as Hpos by (apply Nat.ltb_lt; lia).
  rewrite Hpos in Hul. split_and!.
  - split.
    + eexists. rewrite Ha Hal lookup_insert_eq. split_and!; [done|done| |done]. by rewrite Hu.
    + rewrite app_nil_r. apply offsets_nodup.
    + intros o. by rewrite app_nil_r.
    + intros o Ho Hno. by rewrite app_nil_r in Hno.
  - eexists. by rewrite Ha Hal lookup_insert_eq.
  - exact Hc'.
  - by rewrite Hck Hch.
  - by rewrite Hhd Hch Hpl.
  - intros a Hne. by rewrite Ha Hal lookup_insert_ne.
  - intros a Hfa. by rewrite Hu Hfr.
Qed.
