(* ===== verification/PageSpec.v ===== *)
(** * Properties of units in a page *)

From S2P Require Import Prelude SizeClass Locks Chunk Heap PageUnit.
Open Scope Z_scope.

(** ** A concrete page, for the witnesses *)

Module PageDemo.

#[export] Instance debug : Build := {| ndebug := false |}.

(** One accessible page at 65536, just allocated, of a chunk that plays no role. *)
Definition w0 : World :=
  MkWorld (MkChunkMem (MkChunk 65536 32768 1 [] [] [] 0 [] 0)
    {[65536 := MkPageHead 0 0 true]}) ∅ ∅ 0.

Definition run_state {A} (m : WM A) (w : World) : World :=
  match m w with Ok (_, w') => w' | Fail _ => w end.

(** The page laid out for two units of 16360 bytes, at offsets 8 and 16376. *)
Definition w1 : World := run_state (init_page_for_unit_allocating 65536 MIDIUM_16360) w0.
(** Its first unit handed out. *)
Definition w2 : World := run_state (pick_unit_from_page_without_init 65536) w1.
(** That unit released, not yet dropped. *)
Definition w3 : World := run_state (store_unit (unit_at 65536 8) (set_life RELEASED)) w2.

Lemma w0_head : heads (w_chunk w0) !! 65536 = Some (MkPageHead 0 0 true).
Proof. reflexivity. Qed.

Lemma page_inv1 : page_inv 65536 MIDIUM_16360 [8; 16376] [] w1.
Proof.
  assert (init_page_for_unit_allocating 65536 MIDIUM_16360 w0 = Ok (tt, w1)) as Hr
    by (vm_compute; reflexivity).
  pose proof (wp_det _ _ _ _ _ (init_page_spec 65536 MIDIUM_16360 w0 _ [] w0_head eq_refl
    ltac:(done) (not_elem_of_nil _) eq_refl) Hr) as [H _]. exact H.
Qed.

Lemma page_inv2 : page_inv 65536 MIDIUM_16360 [16376] [] w2.
Proof.
  assert (pick_unit_from_page_without_init 65536 w1 = Ok (unit_at 65536 8, w2)) as Hr
    by (vm_compute; reflexivity).
  by pose proof (wp_det _ _ _ _ _ (pick_spec _ _ _ _ _ page_inv1) Hr) as [H _].
Qed.

(** Releasing the unit keeps the invariant: it is on no list. *)
Lemma page_inv3 : page_inv 65536 MIDIUM_16360 [16376] [] w3.
Proof.
  destruct page_inv2 as [Hh Hnd Hoff Hout]. destruct Hh as (p & Hp & Hs & Hla & Hlf).
  split; [|done|done|].
  - exists p. split; [done|]. split; [done|]. split; [|done].
    eapply unit_list_frame; [|exact Hla]. intros x ->%list_elem_of_singleton. reflexivity.
  - intros o Ho Hno. destruct (decide (o = 8)) as [->|Hne].
    + eexists. split; [vm_compute; reflexivity|reflexivity].
    + apply elem_of_offsets in Ho as (k & -> & Hk). change (unit_count MIDIUM_16360) with 2 in Hk.
      assert (k = 0 ∨ k = 1) as [->| ->] by lia; [done|].
      exfalso. apply Hno. by constructor.
Qed.

(** A huge unit of two pages at 65536. *)
Definition w_huge : World :=
  MkWorld (MkChunkMem (MkChunk 65536 65536 2 [] [] [] 0 [] 0)
    {[65536 := MkPageHead 2 0 false]}) ∅ {[65536 + SIZEOF_PageHead := MkUnitHead 0 0 0 0 PENDING]} 0.
End PageDemo.

(** ** Geometry *)

(** The units of a page are disjoint and inside it: the header and payload of the
    unit at one offset end before the next unit starts, and the payload of the last
    one ends with the page. *)
Theorem unit_payloads_disjoint page g o1 o2
    (H1 : o1 ∈ offsets g) (H2 : o2 ∈ offsets g) (Hlt : o1 < o2) :
  unit_at page o1 + SIZEOF_UnitHead + group_size g ≤ unit_at page o2 ∧
  page + SIZEOF_PageHead + SIZEOF_PageUnitAlloc ≤ unit_at page o1 ∧
  unit_at page o2 + SIZEOF_UnitHead + group_size g ≤ page + NORMAL_PAGE_SIZE.
Proof.
  pose proof (units_disjoint _ _ _ H1 H2 Hlt). pose proof (offset_bounds _ _ H1).
  pose proof (offset_bounds _ _ H2). change available_for_units with 32736 in *.
  unfold unit_at, alloc_of, unit_size_with_head, NORMAL_PAGE_SIZE, SIZEOF_PageHead,
    SIZEOF_PageUnitAlloc, SIZEOF_UnitHead in *. lia.
Qed.

Lemma unit_payloads_disjoint_witness :
  unit_at 65536 8 + SIZEOF_UnitHead + group_size SMALL_16 ≤ unit_at 65536 32 ∧
  65536 + SIZEOF_PageHead + SIZEOF_PageUnitAlloc ≤ unit_at 65536 8 ∧
  unit_at 65536 32 + SIZEOF_UnitHead + group_size SMALL_16 ≤ 65536 + NORMAL_PAGE_SIZE.
Proof.
  apply (unit_payloads_disjoint 65536 SMALL_16 8 32).
  - apply elem_of_offsets. exists 0. vm_compute. done.
  - apply elem_of_offsets. exists 1. vm_compute. done.
  - reflexivity.
Defined.

Section unit_properties.
Context `{Build}.

(** Initialising a page makes all its units available: it puts every unit on the
    list to allocate, in address order, with the page flags clear, pushes the page
    on the chain of all pages, clears its just-allocated flag and touches nothing
    outside the page. *)
Theorem init_page_all_units_free page g w h l
    (Hh : heads (w_chunk w) !! page = Some h) (Hj : m_page_just_allocated h = true)
    (Hp : page ≠ 0) (Hl : page ∉ l)
    (Hc : chained (heads (w_chunk w)) (w_all_page_list w) l) :
  wp (init_page_for_unit_allocating page g) (λ _ w',
    page_inv page g (offsets g) [] w' ∧
    (∃ p, w_allocs w' !! alloc_of page = Some p ∧ m_run_out p = 0 ∧
      m_mark_as_run_out_in_global_pool p = false) ∧
    chained (heads (w_chunk w')) (w_all_page_list w') (page :: l) ∧
    (∃ h', heads (w_chunk w') !! page = Some h' ∧ m_page_just_allocated h' = false) ∧
    (∀ a, a ≠ alloc_of page → w_allocs w' !! a = w_allocs w !! a) ∧
    (∀ a, (∀ o, o ∈ offsets g → a ≠ unit_at page o) → w_units w' !! a = w_units w !! a)) w.
Proof.
  eapply wp_mono; [by apply (init_page_spec page g w h l)|].
  intros _ w' (? & ? & ? & _ & Hhd & ? & ?). split_and!; try done.
  eexists. by rewrite Hhd lookup_insert_eq.
Qed.

(** A pick hands out a free unit exactly once.  It returns [nullptr] precisely when
    both lists are empty, and then marks the page as run out; otherwise it returns
    the first free unit, which was released and is now pending and remembers its
    offset, takes it off the lists, and changes no other unit. *)
Theorem pick_takes_first_free page g la lf w (Hinv : page_inv page g la lf w) :
  wp (pick_unit_from_page_without_init page) (λ r w',
    (∃ la' lf', page_inv page g la' lf' w' ∧ la' ++ lf' = tail (la ++ lf)) ∧
    match la ++ lf with
    | [] => r = 0 ∧ (∃ p, w_allocs w' !! alloc_of page = Some p ∧ m_run_out p = 1) ∧
            w_units w' = w_units w
    | o :: _ =>
      r = unit_at page o ∧
      (∃ u u', w_units w !! r = Some u ∧ m_life u = RELEASED ∧
         w_units w' !! r = Some u' ∧ m_life u' = PENDING ∧ m_next_free_unit_offset u' = o) ∧
      (∀ a, a ≠ r → w_units w' !! a = w_units w !! a)
    end) w.
Proof.
  eapply wp_mono; [by apply pick_spec|]. intros r w' [Hinv' Hr]. split.
  { exists (after_pick la lf).1, (after_pick la lf).2. split; [exact Hinv'|].
    apply after_pick_app. }
  destruct (la ++ lf) as [|o rest].
  - destruct Hr as [-> [(_ & _ & _ & Hu) (p & _ & Hp)]]. split; [done|]. split; [by eexists|].
    apply map_eq. intros a. apply Hu. intros [].
  - destruct Hr as (-> & (_ & _ & _ & Hu) & (u & ? & ? & ?) & _). split; [done|]. split; [|done].
    eexists u, _. split_and!; done.
Qed.

(** Dropping a released unit makes it available again: it becomes the first unit
    of the freed list, and no other unit changes. *)
Theorem drop_makes_available page g la lf o w u
    (Hinv : page_inv page g la lf w) (Ho : o ∈ offsets g) (Hno : o ∉ la ++ lf)
    (Hu : w_units w !! unit_at page o = Some u) (Hlife : m_life u = RELEASED) :
  wp (drop_freed_unit_into_page page (unit_at page o)) (λ _ w',
    page_inv page g la (o :: lf) w' ∧
    (∀ a, a ≠ unit_at page o → w_units w' !! a = w_units w !! a)) w.
Proof.
  eapply wp_mono; [by eapply drop_spec|]. intros _ w' (? & (_ & _ & _ & ?) & _). by split.
Qed.

(** A page hands out each of its free units once and no others: as many picks
    as there are free units return exactly those, in list order, and the next pick
    returns [nullptr] and marks the page as run out. *)
Theorem pick_until_run_out page g la lf w (Hinv : page_inv page g la lf w) :
  wp (us ← pick_many (length (la ++ lf)) page; r ← pick_unit_from_page_without_init page;
      mret (us, r))
    (λ '(us, r) w', us = unit_at page <$> la ++ lf ∧ r = 0 ∧ page_inv page g [] [] w' ∧
      ∃ p, w_allocs w' !! alloc_of page = Some p ∧ m_run_out p = 1) w.
Proof.
  wp_steps. eapply wp_mono; [by apply pick_many_spec|]. intros us w1 [-> Hinv1]. wp_steps.
  eapply wp_mono; [by apply pick_spec|].
  intros r w' [Hinv' [-> [_ (p & _ & Hp)]]]. wp_steps. split_and!; [done|done|done|by eexists].
Qed.

(** A unit that a page handed out reports the size of the page's group as its
    available size, and the query changes nothing. *)
Theorem available_size_in_page page g la lf o w
    (Hinv : page_inv page g la lf w) (Ho : o ∈ offsets g) (Hno : o ∉ la ++ lf) :
  get_unit_available_size (unit_at page o) w = Ok (group_size g, w).
Proof.
  apply wp_exact. rewrite /get_unit_available_size.
  destruct (pi_out _ _ _ _ _ Hinv _ Ho Hno) as (u & Hu & Hoff).
  destruct (pi_head _ _ _ _ _ Hinv) as (p & Hp & Hs & _).
  wp_steps. eapply wp_load_unit; [exact Hu|]. rewrite Hoff.
  pose proof (offset_nonzero _ _ Ho). bool_test (o =? 0). wp_steps.
  eapply wp_load_alloc; [|by wp_steps]. rewrite -Hp. f_equal. rewrite /unit_at. lia.
Qed.

(** A huge unit of [n] pages reports everything after its two headers as its
    available size; this is at least any request that the page count was computed
    from. *)
Theorem available_size_huge page h u w
    (Hh : heads (w_chunk w) !! page = Some h)
    (Hn : 0 < m_page_count_if_huge h < 2 ^ 49)
    (Hu : w_units w !! (page + SIZEOF_PageHead) = Some u) (Ho : m_next_free_unit_offset u = 0) :
  ∃ size, get_unit_available_size (page + SIZEOF_PageHead) w = Ok (size, w) ∧
    size + SIZEOF_PageHead + SIZEOF_UnitHead = m_page_count_if_huge h * NORMAL_PAGE_SIZE ∧
    ∀ request, 0 ≤ request → request + SIZEOF_PageHead + SIZEOF_UnitHead + NORMAL_PAGE_SIZE < 2 ^ 64 →
      m_page_count_if_huge h = pages_for (request + SIZEOF_PageHead + SIZEOF_UnitHead) →
      request ≤ size.
Proof.
  eexists. split; [|split].
  - apply wp_exact. rewrite /get_unit_available_size. wp_steps. eapply wp_load_unit; [exact Hu|].
    rewrite Ho /=. wp_steps. eapply wp_load_head.
    { rewrite Z.add_simpl_r. exact Hh. }
    wp_steps. apply wp_assert; [by bool_test (m_page_count_if_huge h =? 0)|]. wp_steps. done.
  - rewrite u64_small /NORMAL_PAGE_SIZE /SIZEOF_PageHead /SIZEOF_UnitHead; lia.
  - intros request Hr0 Hr.
    rewrite /pages_for /NORMAL_PAGE_SIZE /SIZEOF_PageHead /SIZEOF_UnitHead in Hr |- *.
    rewrite (u64_small (request + _ + _ + _ - _)); [|lia].
    intros Hc. rewrite u64_small; [|lia].
    rewrite Hc. clear. Z.to_euclidean_division_equations. lia.
Qed.
End unit_properties.

(** ** Witnesses *)

Section witnesses.
Import PageDemo.

Lemma off8 : 8 ∈ offsets MIDIUM_16360.
Proof. apply elem_of_offsets. by exists 0. Qed.

Lemma off8_out : (8 : Z) ∉ [16376] ++ [].
Proof. by intros [?|?%elem_of_nil]%elem_of_cons. Qed.

Lemma init_page_all_units_free_witness :
  wp (init_page_for_unit_allocating 65536 MIDIUM_16360) (λ _ w',
    page_inv 65536 MIDIUM_16360 (offsets MIDIUM_16360) [] w') w0 ∧ offsets MIDIUM_16360 = [8; 16376].
Proof.
  split; [|reflexivity].
  eapply wp_mono; [eapply (init_page_all_units_free 65536 MIDIUM_16360 w0 _ []);
    [exact w0_head|reflexivity|discriminate|apply not_elem_of_nil|reflexivity]|].
  intros _ w' [Hi _]. exact Hi.
Defined.

Lemma pick_takes_first_free_witness :
  wp (pick_unit_from_page_without_init 65536) (λ r _, r = 65536 + 24 + 8) w1.
Proof.
  eapply wp_mono; [apply (pick_takes_first_free 65536 MIDIUM_16360 [8; 16376] [] w1 page_inv1)|].
  intros r w' [_ [Hr _]]. exact Hr.
Defined.

Lemma drop_makes_available_witness :
  wp (drop_freed_unit_into_page 65536 (unit_at 65536 8))
    (λ _ w', page_inv 65536 MIDIUM_16360 [16376] [8] w') w3.
Proof.
  eapply wp_mono; [eapply (drop_makes_available 65536 MIDIUM_16360 [16376] [] 8 w3);
    [exact page_inv3|exact off8|exact off8_out|vm_compute; reflexivity|vm_compute; reflexivity]|].
  intros _ w' [Hi _]. exact Hi.
Defined.

Lemma pick_until_run_out_witness :
  wp (us ← pick_many 2 65536; r ← pick_unit_from_page_without_init 65536; mret (us, r))
    (λ '(us, r) _, us = [65568; 81936] ∧ r = 0) w1.
Proof.
  eapply wp_mono; [apply (pick_until_run_out 65536 MIDIUM_16360 [8; 16376] [] w1 page_inv1)|].
  intros [us r] w' (Hus & Hr & _). split; [exact Hus|exact Hr].
Defined.

Lemma available_size_in_page_witness :
  get_unit_available_size (unit_at 65536 8) w2 = Ok (16360, w2).
Proof.
  apply (available_size_in_page 65536 MIDIUM_16360 [16376] [] 8 w2 page_inv2 off8 off8_out).
Defined.

Lemma available_size_huge_witness :
  ∃ size, get_unit_available_size (65536 + SIZEOF_PageHead) w_huge = Ok (size, w_huge) ∧
    size = 65504.
Proof.
  destruct (available_size_huge 65536 (MkPageHead 2 0 false) (MkUnitHead 0 0 0 0 PENDING) w_huge)
    as (size & Hr & Hs & _);
    [reflexivity|simpl; lia|reflexivity|reflexivity|].
  exists size. split; [exact Hr|]. simpl in Hs. unfold NORMAL_PAGE_SIZE, SIZEOF_PageHead, SIZEOF_UnitHead in Hs. lia.
Defined.
End witnesses.
