(* ===== verification/PageRace.v ===== *)
(** * One page shared by its owner and the collector: [src/src/woomem_page_unit_alloc.hpp]
      (lines 159-223), [src/src/woomem_gc.cpp] (lines 407-533) and
      [src/src/woomem_global_page_collection.hpp] (lines 30-70)

    The thread that has a page in its cache picks units from it while a worker sweeps the
    page and puts units back, and threads take the page from its pool and return it.  One access to a
    shared field per step.  A page has at most one owner, the thread that may pick from it, and at most one
    sweeper; which of the unmarked units the sweeper frees (age, round, attributes) is left open.  A thread that
    finds the page run out goes for another page; until that call returns and [cached_page] is overwritten, its
    cache still names the page, which it does not access any more.  Such entries are counted in [stale].  The
    entries of a thread that has ended are not used again, unless the library is initialised a second time
    ([reattach_shares_page]), which is left out here. *)

From S2P Require Import Prelude SizeClass Locks Chunk Heap.
Open Scope Z_scope.

Module PageRace.

(** Where the page is: in the pool of its group; with a thread that has taken it and may pick from it
    (it has not found it run out, nor returned it); popped from the pool because it was marked as run out; with
    nobody; or given back to the chunk. *)
Inductive place := InPool | Cached | Removing | Nobody | Dropped.

(** The owner in [pick_unit_from_page_without_init]. *)
Inductive opc :=
| OIdle
| OTest (c : Z)     (* [current_offset] is [c]: at the test of the loop *)
| OSelf (c : Z)     (* [c] taken out of the list *)
| OLife (c : Z)     (* at the assertion and the store of [PENDING] *)
| OExch             (* at the exchange of [m_freed_unit_offset] *)
| OSet (c : Z)      (* the exchange gave [c] *)
| ORun.             (* at the store to [m_run_out] *)

(** The sweeper in [sweep_units_in_page], with [current_running_out], [has_survivor], [has_free_space] and
    the units it has still to visit. *)
Inductive spc :=
| SIdle
| SVisit (ro sv fr : bool) (os : list Z)
| SCheck (ro sv fr : bool) (o : Z) (os : list Z)  (* in [check_and_free_unmarked_unit] *)
| SKeep (ro sv fr : bool) (o : Z) (os : list Z)   (* at the store of [UNMARKED] *)
| SFree (ro sv fr : bool) (o : Z) (os : list Z)   (* at the store of [RELEASED] *)
| SLoad (ro sv fr : bool) (o : Z) (os : list Z)   (* at the load in [drop_freed_unit_into_page] *)
| SCas (ro sv fr : bool) (o : Z) (os : list Z)    (* at the compare-exchange *)
| SReset                                          (* at the store of 0 to [m_run_out] *)
| SReturn                                         (* at [return_page] *)
| SMark                                           (* at the store to [m_mark_as_run_out_in_global_pool] *)
| SDrop.                                          (* at [free_page] *)

Record st := St {
  nxt : gmap Z Z;            (* [m_next_free_unit_offset] of the unit at an offset *)
  life : gmap Z UnitLife;    (* [m_life] *)
  alloc : Z;                 (* [m_next_allocate_unit_offset] *)
  freed : Z;                 (* [m_freed_unit_offset] *)
  run_out : bool;            (* [m_run_out] *)
  mark : bool;               (* [m_mark_as_run_out_in_global_pool] *)
  stale : nat;               (* caches that still name the page after it was found run out *)
  where_ : place;
  owner : opc;
  sweeper : spc;
}.

(** What the sweeper does after the last unit. *)
Definition after_units (ro sv fr : bool) : spc :=
  if ro && fr then (if sv then SReset else SDrop)
  else if sv || ro then SIdle else SMark.

Inductive step (offs : list Z) : st → st → Prop :=
(* the owner *)
| pick_start n l a f r m k s :
    step offs (St n l a f r m k Cached OIdle s) (St n l a f r m k Cached (OTest a) s)
| pick_take n l a f r m k p s c x : c ≠ 0 → n !! c = Some x →
    step offs (St n l a f r m k p (OTest c) s) (St n l x f r m k p (OSelf c) s)
| pick_self n l a f r m k p s c :
    step offs (St n l a f r m k p (OSelf c) s) (St (<[c := c]> n) l a f r m k p (OLife c) s)
| pick_life n l a f r m k p s c : l !! c = Some RELEASED →
    step offs (St n l a f r m k p (OLife c) s) (St n (<[c := PENDING]> l) a f r m k p OIdle s)
| pick_empty n l a f r m k p s :
    step offs (St n l a f r m k p (OTest 0) s) (St n l a f r m k p OExch s)
| pick_exchange n l a f r m k p s :
    step offs (St n l a f r m k p OExch s) (St n l a 0 r m k p (if f =? 0 then ORun else OSet f) s)
| pick_set n l a f r m k p s c :
    step offs (St n l a f r m k p (OSet c) s) (St n l c f r m k p (OTest c) s)
| pick_run_out n l a f r m k p s :
    step offs (St n l a f r m k p ORun s) (St n l a f true m (S k) Nobody OIdle s)
(* a thread that has found the page run out: [require_normal_page] has returned, [cached_page] is overwritten *)
| cache_overwrite n l a f r m k p ow s :
    step offs (St n l a f r m (S k) p ow s) (St n l a f r m k p ow s)
(* the holders of units, and marking between two sweeps *)
| publish n l a f r m k p ow s o : l !! o = Some PENDING →
    step offs (St n l a f r m k p ow s) (St n (<[o := UNMARKED]> l) a f r m k p ow s)
| marked n l a f r m k p ow o : l !! o = Some UNMARKED →
    step offs (St n l a f r m k p ow SIdle) (St n (<[o := FULL_MARKED]> l) a f r m k p ow SIdle)
(* the pool *)
| pool_take n l a f r k s :
    step offs (St n l a f r false k InPool OIdle s) (St n l a f r false k Cached OIdle s)
| pool_pop_marked n l a f r k ow s :
    step offs (St n l a f r true k InPool ow s) (St n l a f r false k Removing ow s)
| pool_remove n l a f r m k ow s :
    step offs (St n l a f r m k Removing ow s) (St n l a f true m k Nobody ow s)
| pool_return n l a f r m k s :
    step offs (St n l a f r m k Cached OIdle s) (St n l a f r m k InPool OIdle s)
(* the sweeper *)
| sweep_start n l a f r m k p ow : p ≠ Dropped →
    step offs (St n l a f r m k p ow SIdle) (St n l a f r m k p ow (SVisit r false false offs))
| sweep_skip n l a f r m k p ow ro sv fr o os : l !! o = Some RELEASED →
    step offs (St n l a f r m k p ow (SVisit ro sv fr (o :: os))) (St n l a f r m k p ow (SVisit ro sv fr os))
| sweep_look n l a f r m k p ow ro sv fr o os x : l !! o = Some x → x ≠ RELEASED →
    step offs (St n l a f r m k p ow (SVisit ro sv fr (o :: os))) (St n l a f r m k p ow (SCheck ro sv fr o os))
| sweep_released n l a f r m k p ow ro sv fr o os : l !! o = Some RELEASED →
    step offs (St n l a f r m k p ow (SCheck ro sv fr o os)) (St n l a f r m k p ow (SVisit ro sv true os))
| sweep_pending n l a f r m k p ow ro sv fr o os : l !! o = Some PENDING →
    step offs (St n l a f r m k p ow (SCheck ro sv fr o os)) (St n l a f r m k p ow (SVisit ro true fr os))
| sweep_decide_free n l a f r m k p ow ro sv fr o os : l !! o = Some UNMARKED →
    step offs (St n l a f r m k p ow (SCheck ro sv fr o os)) (St n l a f r m k p ow (SFree ro sv fr o os))
| sweep_decide_keep n l a f r m k p ow ro sv fr o os x : l !! o = Some x → x ≠ RELEASED → x ≠ PENDING →
    step offs (St n l a f r m k p ow (SCheck ro sv fr o os)) (St n l a f r m k p ow (SKeep ro sv fr o os))
| sweep_keep n l a f r m k p ow ro sv fr o os :
    step offs (St n l a f r m k p ow (SKeep ro sv fr o os))
      (St n (<[o := UNMARKED]> l) a f r m k p ow (SVisit ro true fr os))
| sweep_free n l a f r m k p ow ro sv fr o os :
    step offs (St n l a f r m k p ow (SFree ro sv fr o os))
      (St n (<[o := RELEASED]> l) a f r m k p ow (SLoad ro sv fr o os))
| sweep_load n l a f r m k p ow ro sv fr o os :
    step offs (St n l a f r m k p ow (SLoad ro sv fr o os))
      (St (<[o := f]> n) l a f r m k p ow (SCas ro sv fr o os))
| sweep_cas n l a f r m k p ow ro sv fr o os : n !! o = Some f →
    step offs (St n l a f r m k p ow (SCas ro sv fr o os)) (St n l a o r m k p ow (SVisit ro sv true os))
| sweep_cas_fail n l a f r m k p ow ro sv fr o os :   (* also without a reason: it is the weak form *)
    step offs (St n l a f r m k p ow (SCas ro sv fr o os))
      (St (<[o := f]> n) l a f r m k p ow (SCas ro sv fr o os))
| sweep_end n l a f r m k p ow ro sv fr :
    step offs (St n l a f r m k p ow (SVisit ro sv fr [])) (St n l a f r m k p ow (after_units ro sv fr))
| sweep_reset n l a f r m k p ow :
    step offs (St n l a f r m k p ow SReset) (St n l a f false m k p ow SReturn)
| sweep_return n l a f r m k p ow :
    step offs (St n l a f r m k p ow SReturn) (St n l a f r m k InPool ow SIdle)
| sweep_mark n l a f r m k p ow :
    step offs (St n l a f r m k p ow SMark) (St n l a f r true k p ow SIdle)
| sweep_drop n l a f r m k p ow :
    step offs (St n l a f r m k p ow SDrop) (St n l a f r m k Dropped ow SIdle).

(** A fresh page in the cache of the thread that asked for it: its units are linked in order. *)
Fixpoint linked (offs : list Z) : gmap Z Z :=
  match offs with
  | [] => ∅
  | o :: rest => <[o := match rest with [] => 0 | o' :: _ => o' end]> (linked rest)
  end.
Definition init (offs : list Z) : st :=
  St (linked offs) (gset_to_gmap RELEASED (list_to_set offs))
    (match offs with [] => 0 | o :: _ => o end) 0 false false 0 Cached OIdle SIdle.
Definition reachable (offs : list Z) : st → Prop := rtc (step offs) (init offs).

(** ** The lists of the page *)

Fixpoint chain (n : gmap Z Z) (o : Z) (l : list Z) : Prop :=
  match l with
  | [] => o = 0
  | x :: l' => o = x ∧ ∃ y, n !! x = Some y ∧ chain n y l'
  end.

(** Released units that are on neither list: in the hands of the owner, and of the sweeper. *)
Definition owner_unit (ow : opc) : list Z := match ow with OSelf c | OLife c => [c] | _ => [] end.
Definition sweeper_unit (s : spc) : list Z :=
  match s with SLoad _ _ _ o _ | SCas _ _ _ o _ => [o] | _ => [] end.
(** Where the list to allocate from begins. *)
Definition first (a : Z) (ow : opc) : Z := match ow with OSet c => c | _ => a end.

Record lists (offs : list Z) (s : st) (la lf : list Z) : Prop := {
  l_alloc : chain (nxt s) (first (alloc s) (owner s)) la;
  l_freed : chain (nxt s) (freed s) lf;
  l_owner : match owner s with
    | OTest c => c = alloc s
    | OExch | ORun | OSet _ => alloc s = 0
    | OLife c => nxt s !! c = Some c
    | _ => True end;
  l_nodup : NoDup (owner_unit (owner s) ++ sweeper_unit (sweeper s) ++ la ++ lf);
  l_life : ∀ o, is_Some (life s !! o) ↔ o ∈ offs;
  l_nxt : ∀ o, o ∈ offs → is_Some (nxt s !! o);
  l_free : ∀ o, life s !! o = Some RELEASED ↔ o ∈ owner_unit (owner s) ++ sweeper_unit (sweeper s) ++ la ++ lf;
  l_self : ∀ o x, life s !! o = Some x → x ≠ RELEASED → nxt s !! o = Some o;
}.

(** ** Where the page is, and what the sweeper knows *)

Definition sweep_flags (s : spc) : option (bool * bool * bool) :=
  match s with
  | SVisit ro sv fr _ | SCheck ro sv fr _ _ | SKeep ro sv fr _ _ | SFree ro sv fr _ _
  | SLoad ro sv fr _ _ | SCas ro sv fr _ _ => Some (ro, sv, fr)
  | SReset | SReturn => Some (true, true, true)
  | SDrop => Some (true, false, true)
  | SIdle | SMark => None
  end.

(** The units it has not dealt with. *)
Definition todo (s : spc) : list Z :=
  match s with
  | SVisit _ _ _ os => os
  | SCheck _ _ _ o os | SKeep _ _ _ o os | SFree _ _ _ o os | SLoad _ _ _ o os | SCas _ _ _ o os => o :: os
  | _ => []
  end.

(** What is known of the unit at hand. *)
Definition at_hand (l : gmap Z UnitLife) (s : spc) : Prop :=
  match s with
  | SCheck _ _ _ o _ => l !! o ≠ Some RELEASED
  | SKeep _ _ _ o _ => l !! o ≠ Some RELEASED ∧ l !! o ≠ Some PENDING
  | SFree _ _ _ o _ => l !! o = Some UNMARKED
  | SLoad _ _ _ o _ | SCas _ _ _ o _ => l !! o = Some RELEASED
  | _ => True
  end.

Record places (offs : list Z) (s : st) : Prop := {
  p_owner : owner s ≠ OIdle → where_ s = Cached;
  p_run : run_out s = match where_ s with
    | Nobody => match sweeper s with SReturn => false | _ => true end
    | Dropped => true
    | _ => false end;
  p_dropped : where_ s = Dropped → sweeper s = SIdle;
  p_todo : ∀ o, o ∈ todo (sweeper s) → o ∈ offs;
  p_hand : at_hand (life s) (sweeper s);
  (* a page that had run out stays with the sweeper *)
  p_sweep : ∀ sv fr, sweep_flags (sweeper s) = Some (true, sv, fr) → where_ s = Nobody ∧
    (fr = true → freed s ≠ 0) ∧
    (sv = false → ∀ o, o ∈ offs → o ∉ todo (sweeper s) → life s !! o = Some RELEASED);
}.

Section invariant.
Context (offs : list Z) (Hzero : 0 ∉ offs) (Hnodup : NoDup offs).

Lemma chain_insert n o v x l : o ∉ l → chain n x l → chain (<[o := v]> n) x l.
Proof using.
  revert x. induction l as [|y l IH]; intros x Ho; [done|]. apply not_elem_of_cons in Ho as [Hne Ho].
  intros (-> & z & Hz & Hc). split; [done|]. exists z. rewrite lookup_insert_ne //. auto.
Qed.

(** A change of the life of a unit in use. *)
Lemma lists_life n l a f r m k p ow s la lf r' m' k' p' s' o x y :
  lists offs (St n l a f r m k p ow s) la lf → sweeper_unit s' = sweeper_unit s →
  l !! o = Some x → x ≠ RELEASED → y ≠ RELEASED →
  lists offs (St n (<[o := y]> l) a f r' m' k' p' ow s') la lf.
Proof using.
  intros [Ha Hf Ho Hnd Hl Hn Hfr Hs] Hsu Hx Hx' Hy. simpl in *. split; simpl; rewrite ?Hsu; try done.
  - intros o'. rewrite -Hl. destruct (decide (o' = o)) as [->|Hne]; [by rewrite lookup_insert_eq Hx|by rewrite lookup_insert_ne].
  - intros o'. rewrite -Hfr. destruct (decide (o' = o)) as [->|Hne]; [rewrite lookup_insert_eq Hx; naive_solver|by rewrite lookup_insert_ne].
  - intros o' z. destruct (decide (o' = o)) as [->|Hne]; [intros _ _; by eapply Hs|rewrite lookup_insert_ne //; apply Hs].
Qed.

(** Fields that the lists do not depend on. *)
Lemma lists_other n l a f r m k p ow s la lf r' m' k' p' ow' s' :
  lists offs (St n l a f r m k p ow s) la lf → owner_unit ow' = owner_unit ow → sweeper_unit s' = sweeper_unit s →
  first a ow' = first a ow →
  match ow' with OTest c => c = a | OExch | ORun | OSet _ => a = 0 | OLife c => n !! c = Some c | _ => True end →
  lists offs (St n l a f r' m' k' p' ow' s') la lf.
Proof using.
  intros [Ha Hf Ho Hnd Hl Hn Hfr Hs] Hou Hsu Hfi Ho'. simpl in *. by split; simpl; rewrite ?Hou ?Hsu ?Hfi.
Qed.

(** A change of the link of a unit that is on no list. *)
Lemma lists_link n l a f r m k p ow s la lf r' m' k' p' ow' s' o v :
  lists offs (St n l a f r m k p ow s) la lf → owner_unit ow' = owner_unit ow → sweeper_unit s' = sweeper_unit s →
  first a ow' = first a ow → o ∈ owner_unit ow ++ sweeper_unit s →
  match ow' with OTest c => c = a | OExch | ORun | OSet _ => a = 0 | OLife c => (<[o := v]> n) !! c = Some c | _ => True end →
  lists offs (St (<[o := v]> n) l a f r' m' k' p' ow' s') la lf.
Proof using.
  intros [Ha Hf Ho Hnd Hl Hn Hfr Hs] Hou Hsu Hfi Hin Ho'. simpl in *.
  rewrite app_assoc in Hnd. apply NoDup_app in Hnd as (Hnd1 & Hdis & Hnd2).
  assert ((o ∉ la) ∧ (o ∉ lf)) as [Hla Hlf].
  { split; intros ?; apply (Hdis o Hin), elem_of_app; auto. }
  assert (l !! o = Some RELEASED) as Hrel. { apply Hfr. rewrite app_assoc. apply elem_of_app. by left. }
  split; simpl; rewrite ?Hou ?Hsu ?Hfi; try done.
  - by apply chain_insert.
  - by apply chain_insert.
  - rewrite app_assoc. by apply NoDup_app.
  - intros o' Ho''. destruct (decide (o' = o)) as [->|Hne]; [rewrite lookup_insert_eq; eauto|rewrite lookup_insert_ne; auto].
  - intros o' x Hx Hne. rewrite lookup_insert_ne; [by eapply Hs|]. intros ->. congruence.
Qed.

(** The sweeper writes the link of a unit that it has in hand. *)
Lemma sweeper_links n l a f r m k p ow s la lf s' o v :
  lists offs (St n l a f r m k p ow s) la lf → sweeper_unit s = [o] → sweeper_unit s' = [o] →
  lists offs (St (<[o := v]> n) l a f r m k p ow s') la lf.
Proof using.
  intros Hl Hs Hs'. eapply lists_link; [exact Hl|done|by rewrite Hs Hs'|done| |].
  - rewrite Hs. apply elem_of_app. right. constructor.
  - pose proof (l_owner _ _ _ _ Hl) as Ho. pose proof (l_nodup _ _ _ _ Hl) as Hnd. simpl in Ho, Hnd. rewrite Hs in Hnd.
    destruct ow; try done. rewrite lookup_insert_ne //. intros ->. simpl in Hnd.
    apply NoDup_cons in Hnd as [Hnin _]. apply Hnin. constructor.
Qed.

(** The units of the lists are offsets of the page, so none is 0. *)
Lemma lists_nonzero s la lf x l : lists offs s la lf → (∀ o, o ∈ l → o ∈ la ++ lf) → chain (nxt s) x l →
  x = 0 → l = [].
Proof using Hzero.
  intros Hl Hin Hc ->. destruct l as [|y l]; [done|]. destruct Hc as [<- _]. exfalso. apply Hzero, (l_life _ _ _ _ Hl).
  exists RELEASED. apply (l_free _ _ _ _ Hl). rewrite !elem_of_app. specialize (Hin 0 ltac:(constructor)).
  rewrite elem_of_app in Hin. tauto.
Qed.

(** The same units, distributed differently over the lists and the hands. *)
Lemma lists_move n l a f r m k p ow s la lf n' a' f' r' m' k' p' ow' s' la' lf' :
  lists offs (St n l a f r m k p ow s) la lf → n' = n →
  owner_unit ow ++ sweeper_unit s ++ la ++ lf ≡ₚ owner_unit ow' ++ sweeper_unit s' ++ la' ++ lf' →
  chain n (first a' ow') la' → chain n f' lf' →
  match ow' with OTest c => c = a' | OExch | ORun | OSet _ => a' = 0 | OLife c => n !! c = Some c | _ => True end →
  lists offs (St n' l a' f' r' m' k' p' ow' s') la' lf'.
Proof using.
  intros [Ha Hf Ho Hnd Hl Hn Hfr Hs] -> Hp Hca Hcf Ho'. simpl in *. split; simpl; try done.
  - by rewrite -Hp.
  - intros o. by rewrite Hfr Hp.
Qed.

Lemma pick_life_lists n l a f r m k p s c la lf r' m' k' p' :
  lists offs (St n l a f r m k p (OLife c) s) la lf →
  lists offs (St n (<[c := PENDING]> l) a f r' m' k' p' OIdle s) la lf.
Proof using.
  intros [Ha Hf Ho Hnd Hl Hn Hfr Hs]. simpl in *. apply NoDup_cons in Hnd as [Hnin Hnd].
  assert (l !! c = Some RELEASED) as Hc by (apply Hfr; constructor).
  split; simpl; try done.
  - intros o. rewrite -Hl. destruct (decide (o = c)) as [->|Hne]; [by rewrite lookup_insert_eq Hc|by rewrite lookup_insert_ne].
  - intros o. destruct (decide (o = c)) as [->|Hne]; [rewrite lookup_insert_eq; naive_solver|].
    rewrite lookup_insert_ne // Hfr elem_of_cons. naive_solver.
  - intros o x. destruct (decide (o = c)) as [->|Hne]; [done|]. rewrite lookup_insert_ne //. apply Hs.
Qed.

Lemma free_lists n l a f r m k p ow ro sv fr o os la lf x r' m' k' p' :
  lists offs (St n l a f r m k p ow (SFree ro sv fr o os)) la lf → l !! o = Some x → x ≠ RELEASED →
  lists offs (St n (<[o := RELEASED]> l) a f r' m' k' p' ow (SLoad ro sv fr o os)) la lf.
Proof using.
  intros [Ha Hf Ho Hnd Hl Hn Hfr Hs] Hx Hne. simpl in *.
  assert (o ∉ owner_unit ow ++ la ++ lf) as Hnin by (intros E%Hfr; congruence).
  split; simpl; try done.
  - rewrite -Permutation_middle. by constructor.
  - intros o'. rewrite -Hl. destruct (decide (o' = o)) as [->|Hd]; [by rewrite lookup_insert_eq Hx|by rewrite lookup_insert_ne].
  - intros o'. rewrite -Permutation_middle elem_of_cons.
    destruct (decide (o' = o)) as [->|Hd]; [rewrite lookup_insert_eq; naive_solver|].
    rewrite lookup_insert_ne // Hfr. naive_solver.
  - intros o' y. destruct (decide (o' = o)) as [->|Hd]; [by rewrite lookup_insert_eq; naive_solver|].
    rewrite lookup_insert_ne //. apply Hs.
Qed.

(** The owner's exchange takes the whole list of freed units. *)
Lemma exchange_lists n l a f r m k p s la lf :
  lists offs (St n l a f r m k p OExch s) la lf →
  ∃ la' lf', lists offs (St n l a 0 r m k p (if f =? 0 then ORun else OSet f) s) la' lf'.
Proof using Hzero.
  intros Hl. pose proof (l_owner _ _ _ _ Hl) as Ha. simpl in Ha.
  assert (la = []) as ->.
  { apply (lists_nonzero _ _ _ a la Hl); [|apply Hl|done]. intros o ?. by apply elem_of_app; left. }
  destruct (f =? 0) eqn:E.
  - assert (lf = []) as ->.
    { apply (lists_nonzero _ _ _ f lf Hl); [done|apply Hl|lia]. }
    exists [], []. eapply (lists_move _ _ _ _ _ _ _ _ _ _ [] []); [exact Hl|done|done|apply Hl|done|done].
  - exists lf, []. eapply (lists_move _ _ _ _ _ _ _ _ _ _ [] lf); [exact Hl|done| |apply Hl|done|done].
    by rewrite /= app_nil_r.
Qed.

Lemma lists_step s s' la lf : places offs s → lists offs s la lf → step offs s s' →
  ∃ la' lf', lists offs s' la' lf'.
Proof using Hzero.
  intros Hp Hl Hs. pose proof (p_hand _ _ Hp) as Hh. pose proof (l_owner _ _ _ _ Hl) as Ho.
  destruct Hs as [|n l a f r m k p s c x Hc Hx|n l a f r m k p s c|n l a f r m k p s c Hx| |n l a f r m k p s|n l a f r m k p s c| | |
      n l a f r m k p ow s o Hx|n l a f r m k p ow o Hx| | | | | | | | | | | |n l a f r m k p ow ro sv fr o os|
      n l a f r m k p ow ro sv fr o os|n l a f r m k p ow ro sv fr o os|n l a f r m k p ow ro sv fr o os Hx|
      n l a f r m k p ow ro sv fr o os|n l a f r m k p ow ro sv fr| | | |];
    simpl in Hh, Ho; try (exists la, lf; by eapply lists_other).
  - pose proof (l_alloc _ _ _ _ Hl) as Ha. simpl in Ha. subst c.
    destruct la as [|y la]; [done|]. destruct Ha as (-> & z & Hz & Hca). simplify_eq.
    exists la, lf. eapply lists_move; [exact Hl|done| |exact Hca|apply Hl|done]. simpl. solve_Permutation.
  - exists la, lf. eapply lists_link; [exact Hl|done|done|done|constructor|]. by rewrite lookup_insert_eq.
  - exists la, lf. by eapply pick_life_lists.
  - by eapply exchange_lists.
  - exists la, lf. by eapply lists_move; [exact Hl|done|done|apply Hl|apply Hl|done].
  - exists la, lf. by eapply lists_life.
  - exists la, lf. by eapply lists_life.
  - exists la, lf. destruct Hh as [Hh _]. destruct (l_life _ _ _ _ Hl o) as [_ Hlo].
    destruct Hlo as [x Hx]; [apply (p_todo _ _ Hp); constructor|]. simpl in Hx.
    eapply lists_life; [exact Hl|done|exact Hx|congruence|done].
  - exists la, lf. by eapply free_lists.
  - exists la, lf. by eapply sweeper_links.
  - exists la, (o :: lf). eapply lists_move; [exact Hl|done| |apply Hl| |exact (l_owner _ _ _ _ Hl)].
    + simpl. solve_Permutation.
    + split; [done|]. exists f. split; [done|apply Hl].
  - exists la, lf. by eapply sweeper_links.
  - exists la, lf. eapply lists_other; [exact Hl|done| |done|done]. by destruct ro, sv, fr.
Qed.

(** *** Places *)

(** The owner and the threads, while the page is in use: the sweeper, if it sweeps, found the page in use too. *)
Lemma places_used n l a f r m k p ow s n' l' a' f' p' ow' :
  places offs (St n l a f r m k p ow s) → p ≠ Nobody → p ≠ Dropped → p' ≠ Nobody → p' ≠ Dropped →
  (ow' ≠ OIdle → p' = Cached) → at_hand l' s → ∀ m',
  places offs (St n' l' a' f' r m' k p' ow' s).
Proof using.
  intros [Ho Hr Hd Ht Hh Hs] Hp1 Hp2 Hp1' Hp2' Ho' Hh' m'. simpl in *. split; simpl; try done.
  - rewrite Hr. by destruct p, p'.
  - intros sv fr E. by destruct (Hs sv fr E) as [? _].
Qed.

(** The life of a unit changes but its release does not. *)
Lemma places_life n l a f r m k p ow s o x y :
  places offs (St n l a f r m k p ow s) → l !! o = Some x → x ≠ RELEASED → y ≠ RELEASED →
  at_hand (<[o := y]> l) s → places offs (St n (<[o := y]> l) a f r m k p ow s).
Proof using.
  intros [Ho Hr Hd Ht Hh Hs] Hx Hxr Hy Hh'. simpl in *. split; simpl; try done.
  intros sv fr E. destruct (Hs sv fr E) as (Hn & Hf & Hrel). split_and!; try done.
  intros Hsv o' Ho' Hno. destruct (decide (o' = o)) as [->|Hne]; [|rewrite lookup_insert_ne //; auto].
  rewrite (Hrel Hsv o Ho' Hno) in Hx. congruence.
Qed.

(** The sweeper goes on: its flags only grow, with a reason, and the units it leaves behind are released unless
    it counts a survivor. *)
Lemma places_visit n l a f r m k p ow s n' l' f' s' ro sv fr sv' fr' :
  places offs (St n l a f r m k p ow s) → sweep_flags s = Some (ro, sv, fr) → sweep_flags s' = Some (ro, sv', fr') →
  s ≠ SReturn → s' ≠ SReturn → (∀ o, o ∈ todo s' → o ∈ todo s) → at_hand l' s' →
  (f ≠ 0 → f' ≠ 0) → (fr' = true → fr = true ∨ f' ≠ 0) →
  (sv' = false → sv = false ∧ ∀ o, l !! o = Some RELEASED ∨ (o ∈ todo s ∧ (o ∉ todo s')) → l' !! o = Some RELEASED) →
  places offs (St n' l' a f' r m k p ow s').
Proof using.
  intros [Ho Hr Hd Ht Hh Hs] Hfl Hfl' Hn Hn' Htd Hh' Hff Hfr Hsv. simpl in *.
  split; simpl; try done.
  - rewrite Hr. by destruct p, s, s'.
  - intros ->. specialize (Hd eq_refl). by subst s.
  - auto.
  - intros sv1 fr1 E. rewrite Hfl' in E. injection E as -> -> ->. destruct (Hs _ _ Hfl) as (Hnb & Hf0 & Hrel).
    split_and!; [done|intros Hfr1; destruct (Hfr Hfr1); auto|]. intros Hsv1 o Ho1 Hno. destruct (Hsv Hsv1) as [Hsv0 Hlast].
    apply Hlast. destruct (decide (o ∈ todo s)); [by right|left; auto].
Qed.

(** It goes on with the same unit. *)
Lemma places_go n l a f r m k p ow s n' s' :
  places offs (St n l a f r m k p ow s) → is_Some (sweep_flags s) → sweep_flags s' = sweep_flags s → todo s' = todo s →
  s ≠ SReturn → s' ≠ SReturn → at_hand l s' → places offs (St n' l a f r m k p ow s').
Proof using.
  intros Hp [[[ro sv] fr] Hfl] Hfl' Ht Hn Hn' Hh. rewrite Hfl in Hfl'.
  eapply (places_visit _ _ _ _ _ _ _ _ _ _ _ _ _ _ ro sv fr sv fr Hp); try done; [by rewrite Ht|by left|].
  intros Hsv. split; [done|]. rewrite Ht. by intros o [?|[? ?]].
Qed.

(** The page leaves the cache or the pool as run out. *)
Lemma places_run_out n l a f r m k p ow s k' :
  places offs (St n l a f r m k p ow s) → p ≠ Nobody → p ≠ Dropped →
  places offs (St n l a f true m k' Nobody OIdle s).
Proof using.
  intros [Ho Hr Hd Ht Hh Hs] Hp1 Hp2. simpl in *.
  assert (∀ sv fr, sweep_flags s ≠ Some (true, sv, fr)) as Hno by (intros sv fr E; by destruct (Hs sv fr E)).
  split; simpl; try done.
  - destruct s; try done. by destruct (Hno true true).
  - intros sv fr E. by destruct (Hno sv fr).
Qed.

(** A unit of the owner is not the one the sweeper looks at. *)
Lemma pick_life_hand n l a f r m k p c s la lf :
  places offs (St n l a f r m k p (OLife c) s) → lists offs (St n l a f r m k p (OLife c) s) la lf →
  at_hand (<[c := PENDING]> l) s.
Proof using.
  intros Hp Hl. pose proof (p_hand _ _ Hp) as Hh. simpl in Hh.
  assert (l !! c = Some RELEASED) as Hc by (apply (l_free _ _ _ _ Hl); constructor).
  pose proof (l_nodup _ _ _ _ Hl) as Hnd. simpl in Hnd. apply NoDup_cons in Hnd as [Hnin _].
  rewrite !elem_of_app in Hnin.
  destruct s as [|ro sv fr os|ro sv fr o os|ro sv fr o os|ro sv fr o os|ro sv fr o os|ro sv fr o os| | | |]; simpl in *; try done;
    (destruct (decide (o = c)) as [->|Hne]; [|by rewrite lookup_insert_ne]).
  - by rewrite lookup_insert_eq.
  - by destruct Hh.
  - congruence.
  - destruct Hnin. left. constructor.
  - destruct Hnin. left. constructor.
Qed.

Lemma publish_hand l s o : at_hand l s → l !! o = Some PENDING → at_hand (<[o := UNMARKED]> l) s.
Proof using.
  intros Hh Ho. destruct s as [|ro sv fr os|ro sv fr o' os|ro sv fr o' os|ro sv fr o' os|ro sv fr o' os|ro sv fr o' os| | | |];
    simpl in *; try done; (destruct (decide (o' = o)) as [->|Hne]; [|by rewrite lookup_insert_ne]).
  - by rewrite lookup_insert_eq.
  - by destruct Hh.
  - congruence.
  - congruence.
  - congruence.
Qed.

Lemma places_end n l a f r m k p ow ro sv fr :
  places offs (St n l a f r m k p ow (SVisit ro sv fr [])) →
  places offs (St n l a f r m k p ow (after_units ro sv fr)).
Proof using.
  intros Hp. rewrite /after_units. destruct ro, fr; simpl.
  { destruct sv.
    - eapply (places_visit _ _ _ _ _ _ _ _ _ _ _ _ _ _ true true true true true Hp); try done; by left.
    - eapply (places_visit _ _ _ _ _ _ _ _ _ _ _ _ _ _ true false true false true Hp); try done; [by left|].
      intros ?. split; [done|]. by intros o [?|[? ?]]. }
  all: destruct Hp as [Ho Hr Hd Ht Hh Hs]; simpl in *; destruct sv; split; simpl; try done; by intros ?%Hd.
Qed.

Lemma places_step s s' la lf : places offs s → lists offs s la lf → step offs s s' → places offs s'.
Proof using Hzero.
  intros Hp Hl Hs. pose proof (p_hand _ _ Hp) as Hh. pose proof (p_owner _ _ Hp) as Ho.
  pose proof (p_todo _ _ Hp) as Ht. pose proof (p_sweep _ _ Hp) as Hf. pose proof (p_run _ _ Hp) as Hr.
  pose proof (p_dropped _ _ Hp) as Hd.
  destruct Hs as [|n l a f r m k p s c x Hc Hx|n l a f r m k p s c|n l a f r m k p s c Hx|n l a f r m k p s|n l a f r m k p s|
      n l a f r m k p s c|n l a f r m k p s|n l a f r m k p ow s|n l a f r m k p ow s o Hx|n l a f r m k p ow o Hx| | | | |
      n l a f r m k p ow Hpd|n l a f r m k p ow ro sv fr o os Hx|n l a f r m k p ow ro sv fr o os x Hx Hn|
      n l a f r m k p ow ro sv fr o os Hx|n l a f r m k p ow ro sv fr o os Hx|n l a f r m k p ow ro sv fr o os Hx|
      n l a f r m k p ow ro sv fr o os x Hx Hn1 Hn2|n l a f r m k p ow ro sv fr o os|
      n l a f r m k p ow ro sv fr o os|n l a f r m k p ow ro sv fr o os|n l a f r m k p ow ro sv fr o os Hx|
      n l a f r m k p ow ro sv fr o os|n l a f r m k p ow ro sv fr| | | |];
    cbn [owner where_ run_out life sweeper freed] in *;
    try (by eapply (places_used _ _ _ _ _ _ _ _ _ _ _ _ _ _ _ _ Hp));
    try (assert (p = Cached) as -> by (by apply Ho)); try (by eapply (places_used _ _ _ _ _ _ _ _ _ _ _ _ _ _ _ _ Hp)).
  - eapply (places_used _ _ _ _ _ _ _ _ _ _ _ _ _ _ _ _ Hp); try done.
    by eapply pick_life_hand.
  - by eapply places_run_out.
  - destruct Hp. by split.
  - eapply places_life; [exact Hp|exact Hx|done|done|by apply publish_hand].
  - by eapply places_life.
  - eapply (places_used _ _ _ _ _ _ _ _ _ _ _ _ _ _ _ _ Hp); try done. by intros ?%Ho.
  - assert (ow = OIdle) as ->; [|by eapply places_run_out]. destruct ow; try done; by specialize (Ho ltac:(done)).
  - split; simpl; try done.
    intros sv fr [= -> <- <-]. split_and!; [by destruct p|done|]. by intros _ o Ho' ?.
  - eapply (places_visit _ _ _ _ _ _ _ _ _ _ _ _ _ _ ro sv fr sv fr Hp); try done; simpl; [by right|by left|].
    intros Hsv. split; [done|]. intros o' [?|[[->|?]%elem_of_cons ?]]; done.
  - by eapply places_go; [exact Hp|..]; simpl; try congruence; eauto.
  - by destruct Hh.
  - eapply (places_visit _ _ _ _ _ _ _ _ _ _ _ _ _ _ ro sv fr true fr Hp); try done; simpl; [by right|by left].
  - by eapply places_go; [exact Hp|..]; simpl; eauto.
  - by eapply places_go; [exact Hp|..]; simpl; try (split; congruence); eauto.
  - eapply (places_visit _ _ _ _ _ _ _ _ _ _ _ _ _ _ ro sv fr true fr Hp); try done; simpl; [by right|by left].
  - eapply (places_visit _ _ _ _ _ _ _ _ _ _ _ _ _ _ ro sv fr sv fr Hp); try done; simpl; [by rewrite lookup_insert_eq|by left|].
    intros Hsv. split; [done|]. intros o' [Ho'|[? ?]]; [|done].
    destruct (decide (o' = o)) as [->|?]; [by rewrite lookup_insert_eq|by rewrite lookup_insert_ne].
  - by eapply places_go; [exact Hp|..]; simpl; eauto.
  - assert (o ≠ 0) as Ho0 by (intros ->; apply Hzero, Ht; constructor).
    eapply (places_visit _ _ _ _ _ _ _ _ _ _ _ _ _ _ ro sv fr sv true Hp); try done; simpl; [by right|by right|].
    intros Hsv. split; [done|]. intros o' [?|[[->|?]%elem_of_cons ?]]; done.
  - by eapply places_go; [exact Hp|..]; simpl; eauto.
  - by eapply places_end.
  - destruct (Hf true true eq_refl) as (-> & _). destruct Hp. by split.
  - destruct (Hf true true eq_refl) as (-> & _). destruct Hp. split; try done. by intros ?%Ho.
  - destruct Hp. by split.
  - destruct (Hf false true eq_refl) as (-> & _). destruct Hp. split; try done. by intros ?%Ho.
Qed.

(** *** The start *)

Lemma linked_some l o : o ∈ l → is_Some (linked l !! o).
Proof using.
  induction l as [|x l IH]; [by intros ?%elem_of_nil|]. intros Ho. simpl.
  destruct (decide (o = x)) as [->|Hne]; [by rewrite lookup_insert_eq|]. rewrite lookup_insert_ne //. apply IH.
  by apply elem_of_cons in Ho as [?|?].
Qed.

Lemma chain_linked l : NoDup l → chain (linked l) (match l with [] => 0 | o :: _ => o end) l.
Proof using.
  induction 1 as [|o l Ho Hl IH]; [done|]. simpl. split; [done|]. eexists. rewrite lookup_insert_eq. split; [done|].
  by apply chain_insert.
Qed.

Lemma init_lists : lists offs (init offs) offs [].
Proof using Hnodup.
  split; simpl; try done.
  - by apply chain_linked.
  - by rewrite app_nil_r.
  - intros o. split.
    + intros [x [Ho _]%lookup_gset_to_gmap_Some]. by apply elem_of_list_to_set in Ho.
    + intros Ho. exists RELEASED. apply lookup_gset_to_gmap_Some. by rewrite elem_of_list_to_set.
  - apply linked_some.
  - intros o. rewrite app_nil_r lookup_gset_to_gmap_Some elem_of_list_to_set. naive_solver.
  - by intros o x [_ <-]%lookup_gset_to_gmap_Some.
Qed.

Lemma init_places : places offs (init offs).
Proof using. split; simpl; try done. by intros o ?%elem_of_nil. Qed.

Lemma race_inv s : reachable offs s → places offs s ∧ ∃ la lf, lists offs s la lf.
Proof using Hzero Hnodup.
  assert (∀ t, rtc (step offs) t s → places offs t → (∃ la lf, lists offs t la lf) →
    places offs s ∧ ∃ la lf, lists offs s la lf) as Hgo.
  { intros t Hs. induction Hs as [t|t t' s Hs _ IH]; intros Hp (la & lf & Hl); [eauto|].
    apply IH; [by eapply places_step|by eapply lists_step]. }
  intros Hs. apply (Hgo _ Hs); [apply init_places|]. exists offs, []. apply init_lists.
Qed.
End invariant.

(** ** Properties *)

(** C5: no unit of a page is lost or given twice while its owner picks and a worker sweeps.  In every
    interleaving the released units are exactly those of the two free lists and those that the owner or the
    sweeper has in hand, each in one place; a unit that the owner is about to give out is released, so the
    assertion holds, and neither on a list nor with the sweeper; and a unit in use knows its own offset. *)
Theorem page_units_safe offs s (Hzero : 0 ∉ offs) (Hnd : NoDup offs) (Hs : reachable offs s) :
  ∃ la lf,
    chain (nxt s) (first (alloc s) (owner s)) la ∧ chain (nxt s) (freed s) lf ∧
    NoDup (owner_unit (owner s) ++ sweeper_unit (sweeper s) ++ la ++ lf) ∧
    (∀ o, life s !! o = Some RELEASED ↔ o ∈ owner_unit (owner s) ++ sweeper_unit (sweeper s) ++ la ++ lf) ∧
    (∀ c, owner s = OLife c → life s !! c = Some RELEASED) ∧
    (∀ o x, life s !! o = Some x → x ≠ RELEASED → nxt s !! o = Some o).
Proof.
  destruct (race_inv offs Hzero Hnd s Hs) as (_ & la & lf & Hl). exists la, lf. destruct Hl as [? ? ? ? ? ? Hfr ?].
  split_and!; try done. intros c E. apply Hfr. rewrite E. constructor.
Qed.

(** C15: a page is in one place.  In every interleaving: a page that is in a pool, or with a thread that may pick
    from it, is not run out (the assertion of [require_normal_page]); whoever picks from the page is the thread that has it;
    when the sweeper returns the page to the pool, or gives it back to the chunk, the page is in no pool and with no
    thread, and no thread is picking from it, although the cache of one that found it run out may still name it; a page
    that is returned has a freed unit, and of a page that is given back every unit is released. *)
Theorem page_place_safe offs s (Hzero : 0 ∉ offs) (Hnd : NoDup offs) (Hs : reachable offs s) :
  (where_ s = Cached ∨ where_ s = InPool → run_out s = false) ∧
  (owner s ≠ OIdle → where_ s = Cached) ∧
  (sweeper s = SReturn → where_ s = Nobody ∧ owner s = OIdle ∧ run_out s = false ∧ freed s ≠ 0) ∧
  (sweeper s = SDrop → where_ s = Nobody ∧ owner s = OIdle ∧ ∀ o, o ∈ offs → life s !! o = Some RELEASED).
Proof.
  destruct (race_inv offs Hzero Hnd s Hs) as [[Ho Hr Hd Ht Hh Hsw] _].
  assert (where_ s = Nobody → owner s = OIdle) as Hidle.
  { intros E. rewrite E in Ho. destruct (owner s); try done; by specialize (Ho ltac:(done)). }
  split_and!.
  - intros Hw. rewrite Hr. by destruct Hw as [-> | ->].
  - done.
  - intros E. rewrite E in Hsw, Hr. destruct (Hsw true true eq_refl) as (Hn & Hf & _). rewrite Hn in Hr. auto.
  - intros E. rewrite E in Hsw. destruct (Hsw false true eq_refl) as (Hn & _ & Hrel). split_and!; [done|by apply Hidle|].
    intros o Hin. apply Hrel; [done|done|]. by apply not_elem_of_nil.
Qed.

(** ** A page that is lost

    [current_running_out] is read before the units are visited.  If the owner runs out after that, the units that the
    sweeper frees stay on the page, and the page is in no cache and in no pool.  If they were the last ones, no later
    sweep frees anything on it, so it is never returned nor dropped. *)

Definition stranded (offs : list Z) (s : st) : Prop :=
  where_ s = Nobody ∧ run_out s = true ∧ owner s = OIdle ∧ (∀ o, o ∈ offs → life s !! o = Some RELEASED) ∧
  (∀ o x, life s !! o = Some x → x = RELEASED) ∧
  (sweeper s = SIdle ∨ ∃ os, sweeper s = SVisit true false false os ∧ ∀ o, o ∈ os → o ∈ offs).

Lemma stranded_step offs s s' : stranded offs s → step offs s s' → stranded offs s'.
Proof.
  intros (Hw & Hr & Ho & Hrel & Hall & Hsw) Hs.
  destruct Hs; simpl in *; simplify_eq; try (by destruct Hsw as [?|(? & ? & _)]; simplify_eq);
    try (match goal with Hl : _ !! _ = Some ?x |- _ => pose proof (Hall _ _ Hl) as E; by rewrite E in Hl end).
  all: split_and!; try done.
  - right. by exists offs.
  - right. destruct Hsw as [?|(os' & [= -> -> -> <-] & Hos)]; [done|]. exists os. split; [done|].
    intros o' Ho'. apply Hos. by right.
  - destruct Hsw as [?|(os' & [= -> -> -> <-] & Hos)]; [done|]. by left.
Qed.

Lemma stranded_forever offs s t : stranded offs s → rtc (step offs) s t → where_ t = Nobody.
Proof.
  intros Hst Hs. enough (stranded offs t) as [? _] by done.
  induction Hs as [|s s1 t Hs _ IH]; [done|]. apply IH. by eapply stranded_step.
Qed.

(** A page of one unit: its thread takes and publishes the unit, the sweeper starts, the thread finds the page empty, the
    sweeper frees the unit, and the thread notes that the page has run out. *)
Lemma run_until_race : ∃ n l, reachable [8] (St n l 0 0 false false 0 Cached OExch (SCheck false false false 8 [])) ∧
  n !! 8 = Some 8 ∧ l = <[8 := UNMARKED]> (<[8 := PENDING]> (gset_to_gmap RELEASED {[8]})).
Proof.
  eexists _, _. split.
  - eapply rtc_l; [apply pick_start|]. eapply rtc_l; [by apply pick_take|]. eapply rtc_l; [apply pick_self|].
    eapply rtc_l; [by apply pick_life|]. eapply rtc_l; [by apply (publish _ _ _ _ _ _ _ _ _ _ _ 8)|].
    eapply rtc_l; [by apply sweep_start|]. eapply rtc_l; [apply pick_start|]. eapply rtc_l; [apply pick_empty|].
    eapply rtc_l; [by eapply sweep_look|]. apply rtc_refl.
  - split; [reflexivity|]. simpl. by rewrite union_empty_r_L.
Qed.

Theorem run_out_race_loses_page : ∃ s, reachable [8] s ∧ life s !! 8 = Some RELEASED ∧
  ∀ t, rtc (step [8]) s t → where_ t = Nobody.
Proof.
  destruct run_until_race as (n & l & Hr & _ & ->).
  set (l := <[8 := UNMARKED]> (<[8 := PENDING]> (gset_to_gmap RELEASED {[8]}))) in Hr.
  exists (St (<[8 := 0]> n) (<[8 := RELEASED]> l) 0 8 true true 1 Nobody OIdle SIdle).
  split_and!; [|simpl; by rewrite lookup_insert_eq|].
  - rewrite /reachable. etrans; [exact Hr|]. eapply rtc_l; [apply pick_exchange|].
    eapply rtc_l; [by apply sweep_decide_free|]. eapply rtc_l; [apply sweep_free|].
    eapply rtc_l; [apply sweep_load|]. eapply rtc_l; [apply sweep_cas; by rewrite lookup_insert_eq|].
    eapply rtc_l; [apply sweep_end|]. eapply rtc_l; [apply sweep_mark|]. eapply rtc_l; [apply pick_run_out|].
    apply rtc_refl.
  - intros t. apply stranded_forever. split_and!; try done; [| |by left].
    + intros o ->%list_elem_of_singleton. simpl. by rewrite lookup_insert_eq.
    + intros o x Ho. cbn [life] in Ho. apply lookup_insert_Some in Ho as [[_ <-]|[Hne Hl]]; [done|]. rewrite /l !lookup_insert_ne // in Hl.
      by apply lookup_gset_to_gmap_Some in Hl as [_ <-].
Qed.

(** ** Witnesses *)

(** The unit that is about to be freed while its owner looks for another one. *)
Lemma page_units_safe_witness : ∃ s, reachable [8] s ∧ sweeper s = SCheck false false false 8 [] ∧
  ∃ la lf, NoDup (owner_unit (owner s) ++ sweeper_unit (sweeper s) ++ la ++ lf).
Proof.
  destruct run_until_race as (n & l & Hr & _ & _). eexists. split; [exact Hr|]. split; [reflexivity|].
  destruct (page_units_safe [8] _ ltac:(by intros ?%list_elem_of_singleton) (NoDup_singleton 8) Hr)
    as (la & lf & _ & _ & Hnd & _). exists la, lf. exact Hnd.
Defined.

(** The page of one unit again: the unit is taken and published, the thread finds the page run out, and before it has
    another page the sweeper frees the unit and is about to give the page back. *)
Lemma run_until_drop : ∃ s, reachable [8] s ∧ sweeper s = SDrop ∧ stale s = 1%nat.
Proof.
  eexists. split.
  - eapply rtc_l; [apply pick_start|]. eapply rtc_l; [by apply pick_take|]. eapply rtc_l; [apply pick_self|].
    eapply rtc_l; [by apply pick_life|]. eapply rtc_l; [by apply (publish _ _ _ _ _ _ _ _ _ _ _ 8)|].
    eapply rtc_l; [apply pick_start|]. eapply rtc_l; [apply pick_empty|]. eapply rtc_l; [apply pick_exchange|].
    eapply rtc_l; [apply pick_run_out|]. eapply rtc_l; [by apply sweep_start|]. eapply rtc_l; [by eapply sweep_look|].
    eapply rtc_l; [by apply sweep_decide_free|]. eapply rtc_l; [apply sweep_free|]. eapply rtc_l; [apply sweep_load|].
    eapply rtc_l; [apply sweep_cas; by rewrite lookup_insert_eq|]. eapply rtc_l; [apply sweep_end|]. apply rtc_refl.
  - split; reflexivity.
Qed.

Lemma page_place_safe_witness : ∃ s, reachable [8] s ∧ sweeper s = SDrop ∧ stale s = 1%nat ∧
  where_ s = Nobody ∧ life s !! 8 = Some RELEASED.
Proof.
  destruct run_until_drop as (s & Hr & Hd & Hk). exists s. split; [exact Hr|]. split; [exact Hd|]. split; [exact Hk|].
  destruct (page_place_safe [8] s ltac:(by intros ?%list_elem_of_singleton) (NoDup_singleton 8) Hr) as (_ & _ & _ & Hdrop).
  destruct (Hdrop Hd) as (Hw & _ & Hrel). split; [exact Hw|]. apply Hrel. constructor.
Defined.
End PageRace.
