(* ===== verification/HeapInv.v ===== *)
(** * The heap invariant

    Ties the chunk, the pages and the units together.  A page map [pm] records what
    each allocated block is used for: a normal page of a size group, or a huge unit
    of so many pages.  [heap_inv w bl pm] says that the chunk represents the row [bl],
    that the allocated blocks of [bl] are exactly the pages of [pm], and that each
    page is laid out for its use.  The units of such a heap are disjoint. *)

From S2P Require Import Prelude SizeClass Locks Chunk Blocks ChunkProof Heap PageUnit.
Open Scope Z_scope.

(** ** Pages *)

Inductive pkind := PNormal (g : UnitAllocGroup) | PHuge (n : Z).

Definition pages_of (k : pkind) : Z := match k with PNormal _ => 1 | PHuge n => n end.

(** The value of [m_page_count_if_huge]. *)
Definition huge_count (k : pkind) : Z := match k with PNormal _ => 0 | PHuge n => n end.

Definition head_is (w : World) (page n : Z) : Prop :=
  ∃ h, heads (w_chunk w) !! page = Some h ∧ m_page_count_if_huge h = n ∧
    m_page_just_allocated h = false.

Definition layout_ok (w : World) (page : Z) (k : pkind) : Prop :=
  match k with
  | PNormal g => ∃ la lf, page_inv page g la lf w ∧ no_limbo page g la lf w
  | PHuge n => ∃ u, w_units w !! alloc_of page = Some u ∧ m_next_free_unit_offset u = 0
  end.

Definition page_ok (w : World) (page : Z) (k : pkind) : Prop :=
  head_is w page (huge_count k) ∧ layout_ok w page k.

Record heap_inv (w : World) (bl : list block) (pm : gmap Z pkind) : Prop := {
  hi_chunk : chunk_inv (w_chunk w) bl;
  hi_map : ∀ page k, pm !! page = Some k →
    ∃ x, page = page_addr (w_chunk w) x ∧ Blk x (pages_of k) KAlloc ∈ bl ∧ page_ok w page k;
  hi_all : ∀ b, b ∈ bl → b_kind b = KAlloc →
    ∃ k, pm !! page_addr (w_chunk w) (b_start b) = Some k;
}.

(** The chain of all pages reaches exactly the pages of the map. *)
Definition chain_inv (w : World) (pm : gmap Z pkind) : Prop :=
  ∃ l, chained (heads (w_chunk w)) (w_all_page_list w) l ∧ NoDup l ∧ ∀ p, p ∈ l ↔ p ∈ dom pm.

(** ** Units *)

(** The unit headers of a page, with the size of their payload. *)
Definition unit_in (page : Z) (k : pkind) (u size : Z) : Prop :=
  match k with
  | PNormal g => size = group_size g ∧ ∃ o, o ∈ offsets g ∧ u = unit_at page o
  | PHuge n =>
    size = n * NORMAL_PAGE_SIZE - (SIZEOF_PageHead + SIZEOF_UnitHead) ∧ u = alloc_of page
  end.

(** The units of a heap. *)
Definition is_unit (pm : gmap Z pkind) (u size : Z) : Prop :=
  ∃ page k, pm !! page = Some k ∧ unit_in page k u size.

(** The life of a unit, and that a unit of the heap is handed out. *)
Definition life_of (w : World) (u : Z) : option UnitLife := m_life <$> w_units w !! u.

Definition in_use (pm : gmap Z pkind) (w : World) (u : Z) : Prop :=
  ∃ s, is_unit pm u s ∧ ∃ h, w_units w !! u = Some h ∧ m_life h ≠ RELEASED.

(** ** What a change elsewhere leaves of a page *)

Definition same_at (w w' : World) (page : Z) : Prop :=
  (∀ n, head_is w page n → head_is w' page n) ∧
  w_allocs w' !! alloc_of page = w_allocs w !! alloc_of page ∧
  ∀ a, page ≤ a < page + NORMAL_PAGE_SIZE → w_units w' !! a = w_units w !! a.

Lemma offset_in_page page g o :
  o ∈ offsets g → page ≤ unit_at page o < page + NORMAL_PAGE_SIZE.
Proof.
  intros Ho%offset_bounds. change available_for_units with 32736 in Ho.
  pose proof (unit_size_with_head_pos g).
  rewrite /unit_at /alloc_of /SIZEOF_PageHead /NORMAL_PAGE_SIZE. lia.
Qed.

Lemma page_inv_same page g la lf w w' :
  w_allocs w' !! alloc_of page = w_allocs w !! alloc_of page →
  (∀ o, o ∈ offsets g → w_units w' !! unit_at page o = w_units w !! unit_at page o) →
  page_inv page g la lf w → page_inv page g la lf w'.
Proof.
  intros Ha Hu [(p & Hp & Hs & Hla & Hlf) Hnd Hoff Hout]. split; [|done|done|].
  - exists p. rewrite Ha. split; [done|]. split; [done|].
    split; (eapply unit_list_frame; [|done]; intros x Hx; apply Hu, Hoff; set_solver).
  - intros o Ho Hno. rewrite Hu //. by apply Hout.
Qed.

Lemma no_limbo_same page g la lf w w' :
  (∀ o, o ∈ offsets g → w_units w' !! unit_at page o = w_units w !! unit_at page o) →
  no_limbo page g la lf w → no_limbo page g la lf w'.
Proof. intros Hu Hl o u Ho Hno. rewrite Hu //. by apply Hl. Qed.

Lemma page_ok_same w w' page k : same_at w w' page → page_ok w page k → page_ok w' page k.
Proof.
  intros (Hh & Ha & Hu) [Hhead Hlay]. split; [by apply Hh|].
  destruct k as [g|n]; simpl in *.
  - destruct Hlay as (la & lf & Hi & Hl). exists la, lf.
    assert (∀ o, o ∈ offsets g → w_units w' !! unit_at page o = w_units w !! unit_at page o)
      by (intros o Ho; apply Hu; by eapply offset_in_page).
    split; [by eapply page_inv_same|by eapply no_limbo_same].
  - rewrite Hu // /alloc_of /SIZEOF_PageHead /NORMAL_PAGE_SIZE. lia.
Qed.

(** ** Pages of a heap are apart *)

Section apart.
Context (w : World) (bl : list block) (pm : gmap Z pkind) (Hinv : heap_inv w bl pm).

Lemma page_start page k :
  pm !! page = Some k → ∃ x, page = page_addr (w_chunk w) x ∧ Blk x (pages_of k) KAlloc ∈ bl ∧
    0 ≤ x ∧ 0 < pages_of k.
Proof using Hinv.
  intros (x & -> & Hb & _)%(hi_map _ _ _ Hinv). exists x. split; [done|]. split; [done|].
  pose proof (tiles_elem _ _ _ _ (sh_tiles _ _ (ci_shape _ _ (hi_chunk _ _ _ Hinv))) Hb).
  simpl in *. lia.
Qed.

Lemma pages_apart page k page' k' :
  pm !! page = Some k → pm !! page' = Some k' → page ≠ page' →
  page + pages_of k * NORMAL_PAGE_SIZE ≤ page' ∨ page' + pages_of k' * NORMAL_PAGE_SIZE ≤ page.
Proof using Hinv.
  intros (x & -> & Hb & _)%page_start (y & -> & Hb' & _)%page_start Hne.
  pose proof (sh_tiles _ _ (ci_shape _ _ (hi_chunk _ _ _ Hinv))) as Ht.
  pose proof (tiles_elem _ _ _ _ Ht Hb) as Hx. pose proof (tiles_elem _ _ _ _ Ht Hb') as Hy.
  simpl in Hx, Hy. unfold page_addr, NORMAL_PAGE_SIZE in *.
  destruct (decide (x + pages_of k ≤ y)); [left; lia|].
  destruct (decide (y + pages_of k' ≤ x)); [right; lia|]. exfalso.
  assert (Blk x (pages_of k) KAlloc = Blk y (pages_of k') KAlloc) as [= -> _]; [|done].
  apply (tiles_disjoint _ _ _ _ _ (Z.max x y) Ht Hb Hb'); simpl; lia.
Qed.

Lemma page_nonzero page k : pm !! page = Some k → page ≠ 0.
Proof using Hinv.
  intros (x & -> & _ & Hx & _)%page_start.
  pose proof (pl_base _ (ci_placed _ _ (hi_chunk _ _ _ Hinv))).
  rewrite /page_addr /NORMAL_PAGE_SIZE. lia.
Qed.

(** The extent of a unit lies in its page. *)
Lemma unit_extent page k u s :
  pm !! page = Some k → unit_in page k u s →
  page + SIZEOF_PageHead ≤ u ∧ 0 ≤ s ∧
  u + SIZEOF_UnitHead + s ≤ page + pages_of k * NORMAL_PAGE_SIZE.
Proof using Hinv.
  intros Hp. destruct k as [g|n]; simpl.
  - intros (-> & o & Ho%offset_bounds & ->).
    pose proof (group_size_bounds g). change available_for_units with 32736 in Ho.
    unfold unit_at, alloc_of, unit_size_with_head, NORMAL_PAGE_SIZE, SIZEOF_PageHead,
      SIZEOF_UnitHead in *. lia.
  - intros [-> ->]. apply page_start in Hp as (_ & _ & _ & _ & Hn).
    simpl in *. unfold alloc_of, NORMAL_PAGE_SIZE, SIZEOF_PageHead, SIZEOF_UnitHead. lia.
Qed.

(** Two units are the same or do not overlap. *)
Lemma units_apart u s u' s' :
  is_unit pm u s → is_unit pm u' s' → u ≠ u' →
  u + SIZEOF_UnitHead + s ≤ u' ∨ u' + SIZEOF_UnitHead + s' ≤ u.
Proof using Hinv.
  intros (p & k & Hp & Hu) (p' & k' & Hp' & Hu') Hne.
  destruct (decide (p = p')) as [<-|Hpp].
  - rewrite Hp in Hp'. injection Hp' as <-. destruct k as [g|n]; simpl in Hu, Hu'.
    + destruct Hu as (-> & o & Ho & ->), Hu' as (-> & o' & Ho' & ->).
      assert (o < o' ∨ o' < o) as [Hlt|Hlt] by (unfold unit_at in Hne; lia).
      * pose proof (units_disjoint _ _ _ Ho Ho' Hlt). unfold unit_at, unit_size_with_head in *. lia.
      * pose proof (units_disjoint _ _ _ Ho' Ho Hlt). unfold unit_at, unit_size_with_head in *. lia.
    + destruct Hu as [-> ->], Hu' as [-> ->]. done.
  - pose proof (pages_apart _ _ _ _ Hp Hp' Hpp).
    pose proof (unit_extent _ _ _ _ Hp Hu). pose proof (unit_extent _ _ _ _ Hp' Hu').
    unfold SIZEOF_PageHead in *. lia.
Qed.

(** A unit has a header; every unit that is not on a list of its page is handed out. *)
Lemma unit_header u s : is_unit pm u s → ∃ h, w_units w !! u = Some h.
Proof using Hinv.
  intros (p & k & (x & -> & _ & _ & Hlay)%(hi_map _ _ _ Hinv) & Hu).
  destruct k as [g|n]; simpl in *.
  - destruct Hu as (_ & o & Ho & ->), Hlay as (la & lf & Hi & _).
    destruct (decide (o ∈ la ++ lf)) as [Hin|Hno].
    + destruct (pi_head _ _ _ _ _ Hi) as (p & _ & _ & Hla & Hlf).
      apply elem_of_app in Hin as [Hin|Hin];
        (eapply unit_list_released in Hin as (h & ? & _); [by exists h|done]).
    + destruct (pi_out _ _ _ _ _ Hi o Ho Hno) as (h & ? & _). by exists h.
  - destruct Hu as [_ ->], Hlay as (h & ? & _). by exists h.
Qed.
End apart.

(** ** Keeping the invariant *)

Lemma same_at_refl w page : same_at w w page.
Proof. by split. Qed.

Lemma same_at_trans w1 w2 w3 page : same_at w1 w2 page → same_at w2 w3 page → same_at w1 w3 page.
Proof.
  intros (H1 & A1 & U1) (H2 & A2 & U2). split; [auto|]. split; [congruence|].
  intros a Ha. rewrite U2 // U1 //.
Qed.

(** The world changed at one page only. *)
Lemma heap_update w w' bl pm page k :
  heap_inv w bl pm → chunk_inv (w_chunk w') bl → same_geometry (w_chunk w) (w_chunk w') →
  pm !! page = Some k → page_ok w' page k →
  (∀ page' k', pm !! page' = Some k' → page' ≠ page → same_at w w' page') →
  heap_inv w' bl pm.
Proof.
  intros Hinv Hc Hg Hp Hok Hs. split; [done| |].
  - intros page' k' Hp'. destruct (hi_map _ _ _ Hinv _ _ Hp') as (x & Hx & Hb & Hok').
    exists x. rewrite (geometry_addr _ _ _ Hg). split; [done|]. split; [done|].
    destruct (decide (page' = page)) as [->|Hne]; [by simplify_eq|].
    eapply page_ok_same; [by eapply Hs|done].
  - intros b Hb Hk. rewrite (geometry_addr _ _ _ Hg). by apply (hi_all _ _ _ Hinv).
Qed.

(** A block was allocated and its page laid out. *)
Lemma heap_add w w' bl pm req x bl' k :
  heap_inv w bl pm → first_fit req bl = Some (x, bl') → chunk_inv (w_chunk w') bl' →
  same_geometry (w_chunk w) (w_chunk w') → req = pages_of k → 0 < req →
  page_ok w' (page_addr (w_chunk w) x) k →
  (∀ page' k', pm !! page' = Some k' → same_at w w' page') →
  pm !! page_addr (w_chunk w) x = None ∧
  heap_inv w' bl' (<[page_addr (w_chunk w) x := k]> pm).
Proof.
  intros Hinv Hff Hc Hg -> Hreq Hok Hs.
  apply first_fit_some in Hff as (bl1 & n & bl2 & -> & Hn & _ & ->).
  pose proof (sh_tiles _ _ (ci_shape _ _ (hi_chunk _ _ _ Hinv))) as Ht.
  assert (pm !! page_addr (w_chunk w) x = None) as Hfresh.
  { destruct (pm !! page_addr (w_chunk w) x) as [k'|] eqn:E; [|done].
    destruct (hi_map _ _ _ Hinv _ _ E) as (y & <-%page_addr_inj & Hb & _).
    pose proof (tiles_elem _ _ _ _ Ht Hb) as Hl. simpl in Hl.
    assert (Blk x (pages_of k') KAlloc = Blk x n KFree) as [=].
    apply (tiles_disjoint _ _ _ _ _ x Ht Hb); [set_solver|simpl; lia|simpl; lia]. }
  split; [done|]. split; [done| |].
  - intros page' k'. rewrite lookup_insert_Some. intros [[<- <-]|[Hne Hp']].
    + exists x. rewrite (geometry_addr _ _ _ Hg). split; [done|]. split; [set_solver|done].
    + destruct (hi_map _ _ _ Hinv _ _ Hp') as (y & Hy & Hb & Hok'). exists y.
      rewrite (geometry_addr _ _ _ Hg). split; [done|]. split; [|eapply page_ok_same; [by eapply Hs|done]].
      apply elem_of_app in Hb as [?|[[=]|?]%elem_of_cons]; set_solver.
  - intros b Hb Hk. rewrite (geometry_addr _ _ _ Hg).
    destruct (decide (b_start b = x)) as [->|Hne]; [exists k; by rewrite lookup_insert_eq|].
    rewrite lookup_insert_ne; [|by intros ?%page_addr_inj].
    apply (hi_all _ _ _ Hinv); [|done].
    apply elem_of_app in Hb as [?|[->|[Hb|?]%elem_of_app]%elem_of_cons]; [set_solver|done| |set_solver].
    rewrite /cut in Hb. case_match; [|by apply elem_of_nil in Hb].
    apply list_elem_of_singleton in Hb as ->. done.
Qed.

(** Operations that touch only the unit area and the unit-allocator header of a page. *)
Lemma same_at_other w w' bl pm page k page' k' :
  heap_inv w bl pm → pm !! page = Some k → pm !! page' = Some k' → page' ≠ page →
  w_chunk w' = w_chunk w → (∀ a, a ≠ alloc_of page → w_allocs w' !! a = w_allocs w !! a) →
  (∀ a, ¬ page ≤ a < page + pages_of k * NORMAL_PAGE_SIZE → w_units w' !! a = w_units w !! a) →
  same_at w w' page'.
Proof.
  intros Hinv Hp Hp' Hne Hc Ha Hu. split; [|split].
  - intros n. by rewrite /head_is Hc.
  - apply Ha. rewrite /alloc_of. lia.
  - intros a Hin. apply Hu. pose proof (pages_apart _ _ _ Hinv _ _ _ _ Hp Hp' (not_eq_sym Hne)).
    destruct (page_start _ _ _ Hinv _ _ Hp') as (_ & _ & _ & _ & Hk').
    unfold NORMAL_PAGE_SIZE in *. nia.
Qed.

(** Changing the flags of a page's unit allocator. *)
Lemma page_ok_flags w page k p p' :
  w_allocs w !! alloc_of page = Some p →
  m_next_allocate_unit_offset p' = m_next_allocate_unit_offset p →
  m_freed_unit_offset p' = m_freed_unit_offset p →
  m_unit_size_in_page p' = m_unit_size_in_page p →
  page_ok w page k → page_ok (upd_allocs (<[alloc_of page := p']>) w) page k.
Proof.
  intros Hp H1 H2 H3 [Hh Hl]. split; [done|]. destruct k as [g|n]; [|done].
  destruct Hl as (la & lf & [(q & Hq & Hs & Hla & Hlf) Hnd Hoff Hout] & Hlim). simplify_eq.
  exists la, lf. split; [|done]. split; [|done|done|done].
  exists p'. rewrite /= lookup_insert_eq H1 H2 H3. done.
Qed.

Lemma heap_flags w bl pm page k p p' :
  heap_inv w bl pm → pm !! page = Some k → w_allocs w !! alloc_of page = Some p →
  m_next_allocate_unit_offset p' = m_next_allocate_unit_offset p →
  m_freed_unit_offset p' = m_freed_unit_offset p →
  m_unit_size_in_page p' = m_unit_size_in_page p →
  heap_inv (upd_allocs (<[alloc_of page := p']>) w) bl pm.
Proof.
  intros Hinv Hk Hp H1 H2 H3. eapply heap_update; [done|apply Hinv|done|exact Hk| |].
  - eapply page_ok_flags; try done. by destruct (hi_map _ _ _ Hinv _ _ Hk) as (x & _ & _ & ?).
  - intros page' k' Hp' Hne. apply (same_at_other w _ bl pm page k page' k'); try done.
    intros a Ha. by rewrite /= lookup_insert_ne.
Qed.

(** A normal page has a unit-allocator header for its group. *)
Lemma normal_alloc w bl pm page g :
  heap_inv w bl pm → pm !! page = Some (PNormal g) →
  ∃ p, w_allocs w !! alloc_of page = Some p ∧ m_unit_size_in_page p = group_size g.
Proof.
  intros Hinv (x & _ & _ & _ & la & lf & [(p & ? & ? & _) _ _ _] & _)%(hi_map _ _ _ Hinv). by exists p.
Qed.

(** ** Unit operations on a heap *)

(** What taking a unit changes: one header, from released to pending, and the list
    heads of its page. *)
Definition unit_taken (w w' : World) (page u : Z) : Prop :=
  w_chunk w' = w_chunk w ∧ w_all_page_list w' = w_all_page_list w ∧
  (∃ h h', w_units w !! u = Some h ∧ m_life h = RELEASED ∧
    w_units w' !! u = Some h' ∧ m_life h' = PENDING) ∧
  (∀ a, a ≠ u → w_units w' !! a = w_units w !! a) ∧
  (∀ a, a ≠ alloc_of page → w_allocs w' !! a = w_allocs w !! a).

(** A page found to have nothing left. *)
Definition page_exhausted (w w' : World) (page : Z) : Prop :=
  w_chunk w' = w_chunk w ∧ w_all_page_list w' = w_all_page_list w ∧ w_units w' = w_units w ∧
  (∀ a, a ≠ alloc_of page → w_allocs w' !! a = w_allocs w !! a) ∧
  ∃ p, w_allocs w' !! alloc_of page = Some p ∧ m_run_out p = 1.

Section heap_units.
Context `{Build}.

Lemma no_limbo_pick page g la lf w o r w' :
  no_limbo page g la lf w → page_inv page g la lf w → la ++ lf = o :: tail (la ++ lf) →
  o ∈ offsets g → picked page o w r w' →
  no_limbo page g (after_pick la lf).1 (after_pick la lf).2 w'.
Proof.
  intros Hlim Hinv Hl Ho (-> & (_ & _ & _ & Hu) & (u & Hu1 & _ & Hu2) & _) x v Hx Hnx Hv.
  rewrite after_pick_app in Hnx. destruct (decide (x = o)) as [->|Hne].
  - rewrite Hu2 in Hv. by simplify_eq/=.
  - rewrite Hu in Hv; [|by intros ?%(inj (unit_at page))].
    eapply Hlim; [exact Hx| |exact Hv]. rewrite Hl. by intros [?|?]%elem_of_cons.
Qed.

Lemma page_pick w page g :
  page_ok w page (PNormal g) →
  wp (pick_unit_from_page_without_init page) (λ r w', page_ok w' page (PNormal g) ∧
    ((r = 0 ∧ page_exhausted w w' page) ∨
     (∃ o, o ∈ offsets g ∧ r = unit_at page o ∧ unit_taken w w' page r ∧
       flags w' page = flags w page))) w.
Proof.
  intros (Hhd & la & lf & Hpi & Hlim).
  eapply wp_mono; [by apply (pick_spec page g la lf)|]. intros r w' (Hpi' & Hr).
  destruct (la ++ lf) as [|o rest] eqn:Hl.
  - destruct Hr as [-> [(Hc & ? & ? & Hu) (p & _ & Hp)]].
    assert (w_units w' = w_units w) as Hu' by (apply map_eq; intros a; apply Hu; intros []).
    apply app_eq_nil in Hl as [-> ->]. split; [split|].
    + by rewrite /head_is Hc.
    + exists [], []. split; [exact Hpi'|]. intros o u. rewrite Hu'. apply Hlim.
    + left. split; [done|]. split_and!; try done. by eexists.
  - assert (o ∈ offsets g) as Ho by (apply (pi_offsets _ _ _ _ _ Hpi); rewrite Hl; constructor).
    split; [split|].
    + destruct Hr as (_ & (Hc & _) & _). by rewrite /head_is Hc.
    + exists (after_pick la lf).1, (after_pick la lf).2. split; [exact Hpi'|].
      eapply no_limbo_pick; [done|done| |exact Ho|exact Hr]. by rewrite Hl.
    + right. destruct Hr as (-> & (? & ? & ? & ?) & (u & ? & ? & ?) & ?). exists o.
      split_and!; try done. split_and!; try done. eexists _, _. by split_and!.
Qed.

Lemma heap_pick w bl pm page g :
  heap_inv w bl pm → pm !! page = Some (PNormal g) →
  wp (pick_unit_from_page_without_init page) (λ r w', heap_inv w' bl pm ∧
    ((r = 0 ∧ page_exhausted w w' page) ∨
     (∃ o, o ∈ offsets g ∧ r = unit_at page o ∧ unit_taken w w' page r ∧
       flags w' page = flags w page))) w.
Proof.
  intros Hinv Hp. destruct (hi_map _ _ _ Hinv _ _ Hp) as (x & _ & _ & Hok).
  eapply wp_mono; [by apply page_pick|]. intros r w' [Hok' Hr]. split; [|done].
  assert (w_chunk w' = w_chunk w ∧ (∀ a, a ≠ alloc_of page → w_allocs w' !! a = w_allocs w !! a) ∧
    (∀ a, ¬ page ≤ a < page + NORMAL_PAGE_SIZE → w_units w' !! a = w_units w !! a)) as (Hc & Ha & Hu).
  { destruct Hr as [[_ (? & _ & Hu & ? & _)]|(o & Ho & -> & (? & _ & _ & Hu & ?) & _)];
      (split; [done|]); (split; [done|]).
    - intros a _. by rewrite Hu.
    - intros a Hout. apply Hu. intros ->. by apply Hout, (offset_in_page page g). }
  apply (heap_update w w' bl pm page (PNormal g)); try done; [rewrite Hc; apply Hinv|by rewrite Hc|].
  intros page' k' Hp' Hne. apply (same_at_other w w' bl pm page (PNormal g) page' k'); try done.
Qed.

(** Unit addresses are not null, and a page with a free unit hands one out. *)
Lemma unit_nonzero w bl pm page g o :
  heap_inv w bl pm → pm !! page = Some (PNormal g) → o ∈ offsets g → unit_at page o ≠ 0.
Proof.
  intros Hinv Hp Ho%(offset_in_page page). destruct (page_start _ _ _ Hinv _ _ Hp) as (x & -> & _ & Hx & _).
  pose proof (pl_base _ (ci_placed _ _ (hi_chunk _ _ _ Hinv))).
  unfold page_addr, NORMAL_PAGE_SIZE in *. lia.
Qed.

(** A page with a unit to pick. *)
Definition has_unit (w : World) (g : UnitAllocGroup) (page : Z) : Prop :=
  ∃ o la lf, page_inv page g (o :: la) lf w.

Lemma pick_nonempty w bl pm page g :
  heap_inv w bl pm → pm !! page = Some (PNormal g) →
  wp (pick_unit_from_page_without_init page) (λ r _, has_unit w g page → r ≠ 0) w.
Proof.
  intros Hinv Hp. destruct (hi_map _ _ _ Hinv _ _ Hp) as (x & _ & _ & _ & la & lf & Hpi & _).
  destruct (wp_run _ _ _ (pick_spec _ _ _ _ _ Hpi)) as (r & w' & Hrun & _).
  rewrite /wp Hrun. intros (o & la' & lf' & Hpi').
  pose proof (wp_det _ _ _ _ _ (pick_spec _ _ _ _ _ Hpi') Hrun) as [_ (-> & _)].
  eapply unit_nonzero; [done|done|]. apply (pi_offsets _ _ _ _ _ Hpi'). constructor.
Qed.
End heap_units.

(** ** New pages *)

(** The world with another chunk state that agrees on everything but the headers of
    pages outside the map. *)
Lemma same_at_chunk w c page :
  heads c !! page = heads (w_chunk w) !! page → same_at w (set_chunk_mem c w) page.
Proof. intros Hh. split; [|done]. intros n. by rewrite /head_is /= Hh. Qed.

(** An allocated block starts at no page of the map. *)
Lemma fresh_page w bl pm req x bl' page k :
  heap_inv w bl pm → first_fit req bl = Some (x, bl') → 0 < req → pm !! page = Some k →
  ∀ i, x ≤ i < x + req → page ≠ page_addr (w_chunk w) i.
Proof.
  intros Hinv Hff Hreq Hp i Hi ->. pose proof (hi_map _ _ _ Hinv _ _ Hp) as (y & <-%page_addr_inj & Hb & _).
  apply first_fit_some in Hff as (bl1 & n & bl2 & -> & Hn & _ & _).
  pose proof (sh_tiles _ _ (ci_shape _ _ (hi_chunk _ _ _ Hinv))) as Ht.
  pose proof (tiles_elem _ _ _ _ Ht Hb) as Hl. simpl in Hl.
  assert (Blk i (pages_of k) KAlloc = Blk x n KFree) as [=].
  apply (tiles_disjoint _ _ _ _ _ i Ht Hb); [set_solver|simpl; lia|simpl; lia].
Qed.

(** The block that an allocation returns, in a world that has not used it yet. *)
Lemma allocated_world w bl pm req x bl' r c k l :
  heap_inv w bl pm → 0 < req → allocated (w_chunk w) req bl x bl' r c → page_ready k r c →
  chained (heads (w_chunk w)) (w_all_page_list w) l → (∀ p, p ∈ l ↔ p ∈ dom pm) →
  r ≠ 0 ∧ (r ∉ l) ∧ (∃ h, heads c !! r = Some h ∧ m_page_just_allocated h = true ∧
    m_page_count_if_huge h = k) ∧
  chained (heads c) (w_all_page_list w) l ∧
  (∀ page' k', pm !! page' = Some k' → page' ≠ r ∧ heads c !! page' = heads (w_chunk w) !! page').
Proof.
  intros Hinv Hreq Hal Hrd Hch Hl.
  pose proof (allocated_nonzero _ _ _ _ _ _ _ (hi_chunk _ _ _ Hinv) Hreq Hal) as [Hr0 _].
  destruct Hal as (Hff & _ & _ & -> & _ & Hfr).
  assert (∀ page' k', pm !! page' = Some k' → page' ≠ page_addr (w_chunk w) x ∧
    heads c !! page' = heads (w_chunk w) !! page') as Hold.
  { intros page' k' Hp'. pose proof (fresh_page _ _ _ _ _ _ _ _ Hinv Hff Hreq Hp') as Hne.
    split; [apply Hne; lia|]. by apply Hfr. }
  split; [done|]. split.
  { intros (k' & Hk')%Hl%elem_of_dom. by destruct (Hold _ _ Hk'). }
  split; [done|]. split; [|done]. eapply chained_frame; [|exact Hch].
  intros p (k' & Hk')%Hl%elem_of_dom. by destruct (Hold _ _ Hk') as [_ ->].
Qed.

(** What adding a page to the heap does. *)
Definition page_added (w : World) (pm : gmap Z pkind) (r : Z) (k : pkind) (w' : World) : Prop :=
  r ≠ 0 ∧ pm !! r = None ∧ (∃ bl', heap_inv w' bl' (<[r := k]> pm)) ∧
  chain_inv w' (<[r := k]> pm) ∧
  (∀ a, a ≠ alloc_of r → w_allocs w' !! a = w_allocs w !! a) ∧
  (∀ a, ¬ r ≤ a < r + NORMAL_PAGE_SIZE → w_units w' !! a = w_units w !! a).

(** The last step of adding a page, after its layout has been written. *)
Lemma page_added_intro w pm bl req x bl' r c k w' h l :
  heap_inv w bl pm → 0 < req → allocated (w_chunk w) req bl x bl' r c →
  page_ready (huge_count k) r c → req = pages_of k →
  chained (heads (w_chunk w)) (w_all_page_list w) l → NoDup l → (∀ p, p ∈ l ↔ p ∈ dom pm) →
  chained (heads (w_chunk w')) (w_all_page_list w') (r :: l) →
  chunk (w_chunk w') = chunk c → heads (w_chunk w') = <[r := h]> (heads c) →
  m_page_count_if_huge h = huge_count k → m_page_just_allocated h = false →
  layout_ok w' r k →
  (∀ a, a ≠ alloc_of r → w_allocs w' !! a = w_allocs w !! a) →
  (∀ a, ¬ r ≤ a < r + NORMAL_PAGE_SIZE → w_units w' !! a = w_units w !! a) →
  page_added w pm r k w'.
Proof.
  intros Hinv Hreq Hal Hrd -> Hch Hnd Hl Hch' Hck Hhd Hcnt Hjust Hlay Ha Hu.
  destruct (allocated_world _ _ _ _ _ _ _ _ _ _ Hinv Hreq Hal Hrd Hch Hl) as (Hr0 & Hrl & _ & _ & Hold).
  destruct Hal as (Hff & Hcinv & Hg & -> & _ & _).
  assert (w_chunk w' = upd_heads (<[page_addr (w_chunk w) x := h]>) c) as Ec.
  { destruct (w_chunk w'), c. simpl in *. by subst. }
  destruct (heap_add w w' bl pm (pages_of k) x bl' k) as [Hnone Hinv']; try done.
  - rewrite Ec. by apply chunk_inv_heads.
  - by rewrite Ec.
  - split; [|done]. exists h. by rewrite Hhd lookup_insert_eq.
  - intros page' k' Hp'. destruct (Hold _ _ Hp') as [Hne Hh]. split; [|split].
    + intros n. by rewrite /head_is Hhd lookup_insert_ne // Hh.
    + apply Ha. rewrite /alloc_of. lia.
    + intros a Hin. apply Hu. pose proof (page_start _ _ _ Hinv _ _ Hp') as (y & Hy & _).
      rewrite Hy /page_addr /NORMAL_PAGE_SIZE in Hin Hne |- *. lia.
  - split_and!; try done; [by exists bl'|]. exists (page_addr (w_chunk w) x :: l).
    split; [done|]. split; [by constructor|]. intros p. rewrite dom_insert elem_of_cons Hl. set_solver.
Qed.

Section new_pages.
Context `{Build} `{Kernel}.
Context (Hkernel : commits_granted).

Lemma new_page_spec w bl pm g :
  heap_inv w bl pm → chain_inv w pm →
  wp (page ← on_chunk allocate_page;
      (if page =? 0 then mret tt else init_page_for_unit_allocating page g) ;; mret page)
    (λ r w', (r = 0 ∧ w' = w) ∨
      (page_added w pm r (PNormal g) w' ∧ page_inv r g (offsets g) [] w' ∧
       flags w' r = Some (0, false))) w.
Proof using Hkernel.
  intros Hinv (l & Hch & Hnd & Hl). wp_steps. apply wp_on_chunk.
  eapply wp_mono; [by apply allocate_page_spec; [apply Hinv|apply granted_block]|].
  intros r c [(_ & -> & ->)|(x & bl' & Hal & Hrd)].
  { wp_steps. left. by destruct w. }
  destruct (allocated_world _ _ _ _ _ _ _ _ _ l Hinv Z.lt_0_1 Hal Hrd Hch Hl)
    as (Hr0 & Hrl & (h & Hh & Hj & Hcnt) & Hch' & _).
  bool_test (r =? 0). wp_steps. eapply wp_mono; [by apply (init_page_spec r g (set_chunk_mem c w) h l)|].
  intros _ w' (Hpi & (p & Hp & Hro & Hmk) & Hchain & Hck & Hhd & Ha & Hu). wp_steps. right.
  split; [|split; [done|by rewrite /flags Hp /= Hro Hmk]].
  eapply (page_added_intro w pm bl 1 x bl' r c); try done.
  - exists (offsets g), []. split; [done|]. intros o u Ho Hno. by rewrite app_nil_r in Hno.
  - intros a Hout. apply Hu. intros o Ho ->. by apply Hout, (offset_in_page r g).
Qed.
End new_pages.

(** ** Headers of units that are handed out *)

(** A unit that is not released is on no list of its page. *)
Lemma not_listed page g la lf w o h :
  page_inv page g la lf w → w_units w !! unit_at page o = Some h → m_life h ≠ RELEASED → o ∉ la ++ lf.
Proof.
  intros [(p & _ & _ & Hla & Hlf) _ _ _] Hh Hl [Hin|Hin]%elem_of_app;
    (eapply unit_list_released in Hin as (h0 & ? & ?); [|done]); by simplify_eq.
Qed.

Lemma page_inv_store page g la lf w o h h' :
  page_inv page g la lf w → o ∈ offsets g → o ∉ la ++ lf →
  w_units w !! unit_at page o = Some h →
  m_next_free_unit_offset h' = m_next_free_unit_offset h →
  page_inv page g la lf (upd_units (<[unit_at page o := h']>) w).
Proof.
  intros [(p & Hp & Hs & Hla & Hlf) Hnd Hoff Hout] Ho Hno Hh Hn. split; simpl; try done.
  - exists p. split_and!; try done; (apply unit_list_insert; [set_solver|done]).
  - intros x Hx Hnx. destruct (decide (x = o)) as [->|Hne].
    + rewrite lookup_insert_eq. exists h'. split; [done|]. rewrite Hn.
      destruct (Hout o Ho Hno) as (h0 & ? & ?). by simplify_eq.
    + rewrite lookup_insert_ne; [by apply Hout|]. by intros ?%(inj (unit_at page)).
Qed.

Lemma page_inv_header page g la lf w o h h' :
  page_inv page g la lf w → no_limbo page g la lf w → o ∈ offsets g →
  w_units w !! unit_at page o = Some h → m_life h ≠ RELEASED → m_life h' ≠ RELEASED →
  m_next_free_unit_offset h' = m_next_free_unit_offset h →
  page_inv page g la lf (upd_units (<[unit_at page o := h']>) w) ∧
  no_limbo page g la lf (upd_units (<[unit_at page o := h']>) w).
Proof.
  intros Hpi Hlim Ho Hh Hl Hl' Hn. pose proof (not_listed _ _ _ _ _ _ _ Hpi Hh Hl) as Hno.
  split; [by eapply page_inv_store|].
  intros x u Hx Hnx. simpl. destruct (decide (x = o)) as [->|Hne].
  - rewrite lookup_insert_eq. by intros [= <-].
  - rewrite lookup_insert_ne; [by apply Hlim|]. by intros ?%(inj (unit_at page)).
Qed.

(** A unit belongs to one page. *)
Lemma unit_elsewhere w bl pm page k u s page' :
  heap_inv w bl pm → pm !! page = Some k → unit_in page k u s → page' ∈ dom pm → page' ≠ page →
  ¬ (page' ≤ u < page' + NORMAL_PAGE_SIZE).
Proof.
  intros Hinv Hp Hu (k' & Hp')%elem_of_dom Hne Hin.
  pose proof (pages_apart _ _ _ Hinv _ _ _ _ Hp Hp' (not_eq_sym Hne)).
  pose proof (unit_extent _ _ _ Hinv _ _ _ _ Hp Hu).
  destruct (page_start _ _ _ Hinv _ _ Hp') as (_ & _ & _ & _ & Hk').
  unfold SIZEOF_PageHead, SIZEOF_UnitHead, NORMAL_PAGE_SIZE in *. nia.
Qed.

Lemma heap_header w bl pm u s h h' :
  heap_inv w bl pm → is_unit pm u s → w_units w !! u = Some h →
  m_life h ≠ RELEASED → m_life h' ≠ RELEASED →
  m_next_free_unit_offset h' = m_next_free_unit_offset h →
  heap_inv (upd_units (<[u := h']>) w) bl pm.
Proof.
  intros Hinv (page & k & Hp & Hu) Hh Hl Hl' Hn.
  destruct (hi_map _ _ _ Hinv _ _ Hp) as (x & _ & _ & Hhd & Hlay).
  eapply heap_update; [done|apply Hinv|done|exact Hp| |].
  - split; [done|]. destruct k as [g|n]; simpl in *.
    + destruct Hu as (_ & o & Ho & ->), Hlay as (la & lf & Hpi & Hlim).
      exists la, lf. by eapply page_inv_header.
    + destruct Hu as [_ ->], Hlay as (h0 & Hh0 & Hn0). simplify_eq. exists h'.
      rewrite lookup_insert_eq. split; [done|congruence].
  - intros page' k' Hp' Hne. split; [done|]. split; [done|]. intros a Ha. simpl.
    rewrite lookup_insert_ne //. intros <-.
    eapply unit_elsewhere; [done|exact Hp|exact Hu| |exact Hne|exact Ha].
    by apply elem_of_dom_2 in Hp'.
Qed.

(** Releasing a unit of a normal page: the header is marked released and the unit
    dropped on the freed list. *)
Lemma heap_release `{Build} w bl pm page g o h :
  heap_inv w bl pm → pm !! page = Some (PNormal g) → o ∈ offsets g →
  w_units w !! unit_at page o = Some h → m_life h ≠ RELEASED →
  wp (store_unit (unit_at page o) (set_life RELEASED) ;; drop_freed_unit_into_page page (unit_at page o))
    (λ _ w', heap_inv w' bl pm ∧ page_frame page (λ a, a = unit_at page o) w w' ∧
      flags w' page = flags w page ∧
      ∃ h', w_units w' !! unit_at page o = Some h' ∧ m_life h' = RELEASED) w.
Proof.
  intros Hinv Hp Ho Hh Hl. destruct (hi_map _ _ _ Hinv _ _ Hp) as (x & _ & _ & Hhd & la & lf & Hpi & Hlim).
  pose proof (not_listed _ _ _ _ _ _ _ Hpi Hh Hl) as Hno.
  wp_steps. eapply wp_store_unit; [exact Hh|].
  eapply wp_mono; [eapply (drop_spec page g la lf o); [by eapply page_inv_store|done|done| |]|].
  { by rewrite /= lookup_insert_eq. }
  { done. }
  intros _ w' (Hpi' & (Hc & Hl' & Ha & Hu) & p & Hpa & Hpa' & Hu'). simpl in *.
  assert (page_frame page (λ a, a = unit_at page o) w w') as Hfr.
  { split_and!; try done. intros a Hne. rewrite Hu // lookup_insert_ne //. }
  split; [|split; [done|split; [by rewrite /flags Hpa' Hpa|by eexists]]].
  destruct Hfr as (_ & _ & _ & Hu2).
  eapply heap_update; [done|by rewrite Hc; apply Hinv|by rewrite Hc|exact Hp| |].
  - split; [by rewrite /head_is Hc|]. exists la, (o :: lf). split; [done|].
    intros y u Hy Hny. rewrite Hu2.
    + apply Hlim; [done|]. set_solver.
    + intros ->%(inj (unit_at page)). set_solver.
  - intros page' k' Hp' Hne. apply (same_at_other w w' bl pm page (PNormal g) page' k'); try done.
    intros a Hout. apply Hu2. intros ->. by apply Hout, (offset_in_page page g).
Qed.

(** ** Removing a page *)

Lemma heap_remove `{Build} w bl pm page k :
  heap_inv w bl pm → pm !! page = Some k →
  wp (on_chunk (free_page page)) (λ _ w',
    (∃ bl', heap_inv w' bl' (delete page pm)) ∧ heads (w_chunk w') = heads (w_chunk w) ∧
    w_all_page_list w' = w_all_page_list w ∧ w_allocs w' = w_allocs w ∧ w_units w' = w_units w) w.
Proof.
  intros Hinv Hp. destruct (hi_map _ _ _ Hinv _ _ Hp) as (x & -> & Hb & _).
  pose proof (sh_tiles _ _ (ci_shape _ _ (hi_chunk _ _ _ Hinv))) as Ht.
  apply wp_on_chunk. eapply wp_mono; [by apply (free_page_spec (w_chunk w) bl _ (hi_chunk _ _ _ Hinv) Hb)|].
  simpl. intros _ c (Hc & Hg & Hh). split; [|done]. exists (release x bl).
  assert (∀ page' k', pm !! page' = Some k' → same_at w (set_chunk_mem c w) page') as Hsame
    by (intros; apply same_at_chunk; by rewrite Hh).
  split; simpl; [done| |].
  - intros page' k' [Hne Hp']%lookup_delete_Some.
    destruct (hi_map _ _ _ Hinv _ _ Hp') as (y & -> & Hb' & Hok). exists y.
    rewrite (geometry_addr _ _ _ Hg). split; [done|]. split.
    + apply release_alloc; [done|]. split; [done|]. simpl. intros ->. done.
    + eapply page_ok_same; [by eapply Hsame|done].
  - intros b Hb' Hk. apply release_alloc in Hb' as [Hb' Hne]; [|done].
    rewrite (geometry_addr _ _ _ Hg) lookup_delete_ne; [by apply (hi_all _ _ _ Hinv)|].
    intros ?%page_addr_inj. done.
Qed.

(** The header of a huge unit. *)
Lemma heap_huge_header w bl pm page n h h' :
  heap_inv w bl pm → pm !! page = Some (PHuge n) → w_units w !! alloc_of page = Some h →
  m_next_free_unit_offset h' = m_next_free_unit_offset h →
  heap_inv (upd_units (<[alloc_of page := h']>) w) bl pm.
Proof.
  intros Hinv Hp Hh Hn. destruct (hi_map _ _ _ Hinv _ _ Hp) as (x & _ & _ & Hhd & h0 & Hh0 & Hn0).
  simplify_eq. eapply heap_update; [done|apply Hinv|done|exact Hp| |].
  - split; [done|]. exists h'. rewrite /= lookup_insert_eq. split; [done|congruence].
  - intros page' k' Hp' Hne. split; [done|]. split; [done|]. intros a Ha. simpl.
    rewrite lookup_insert_ne //. intros <-.
    eapply (unit_elsewhere w bl pm page (PHuge n)); [done|done|by split| |exact Hne|exact Ha].
    by apply elem_of_dom_2 in Hp'.
Qed.

(** Linking a page into the chain changes the link in its header only. *)
Lemma heap_link w bl pm page k h next :
  heap_inv w bl pm → pm !! page = Some k → heads (w_chunk w) !! page = Some h →
  ∀ w', chunk (w_chunk w') = chunk (w_chunk w) →
  heads (w_chunk w') = <[page := set_next_page next h]> (heads (w_chunk w)) →
  w_allocs w' = w_allocs w → w_units w' = w_units w → heap_inv w' bl pm.
Proof.
  intros Hinv Hp Hh w' Hc Hhd Ha Hu.
  assert (w_chunk w' = upd_heads (<[page := set_next_page next h]>) (w_chunk w)) as Ec
    by (destruct (w_chunk w'), (w_chunk w); simpl in *; by subst).
  assert (∀ page', same_at w w' page') as Hsame.
  { intros page'. split; [|by rewrite Ha Hu]. intros n (h0 & Hh0 & H1 & H2). rewrite /head_is Hhd.
    destruct (decide (page' = page)) as [->|Hne]; [|exists h0; by rewrite lookup_insert_ne].
    simplify_eq. eexists. by rewrite lookup_insert_eq. }
  destruct (hi_map _ _ _ Hinv _ _ Hp) as (x & _ & _ & Hok).
  eapply heap_update; [done| |by rewrite Ec|exact Hp|by eapply page_ok_same|auto].
  rewrite Ec. apply chunk_inv_heads, Hinv.
Qed.
