(* ===== verification/Pools.v ===== *)
(** * Page pools: [src/src/woomem_global_page_collection.hpp] and
      [src/src/woomem_thread_page_collection.hpp]

    The global pools of pages with free units, one per size group, and the pages that
    threads keep for themselves.  [ThreadPageCollection] gets its pages through the
    interface [PageSource]; [GlobalPageCollection] implements it.  The state adds the
    pools and the collections of the threads to the heap. *)

From S2P Require Import Prelude SizeClass Locks Chunk Blocks ChunkProof Heap PageUnit HeapInv.
Open Scope Z_scope.

(** ** State *)

(** [m_pages] is the vector with its back first; 0 is [nullptr]. *)
Record FreePageList := MkFreePageList { m_spin : bool; m_pages : list Z }.

(** [m_attached]: [m_global_page_collection] is not [nullptr]. *)
Record ThreadPageCollection := MkThreadPageCollection {
  m_attached : bool;
  m_cached_pages : list Z;
}.

Record Ctx := MkCtx {
  c_world : World;
  c_free_pages : list FreePageList;            (* [m_free_pages] *)
  c_threads : gmap Z ThreadPageCollection;     (* the collection of each thread *)
}.

Abbreviation XM := (M Ctx).

Definition set_world (w : World) (c : Ctx) : Ctx := MkCtx w (c_free_pages c) (c_threads c).
Definition upd_free_pages (f : list FreePageList → list FreePageList) (c : Ctx) : Ctx :=
  MkCtx (c_world c) (f (c_free_pages c)) (c_threads c).
Definition upd_threads (f : gmap Z ThreadPageCollection → gmap Z ThreadPageCollection) (c : Ctx) : Ctx :=
  MkCtx (c_world c) (c_free_pages c) (f (c_threads c)).

Definition on_world {A} (m : WM A) : XM A := λ c,
  match m (c_world c) with
  | Ok (a, w) => Ok (a, set_world w c)
  | Fail e => Fail e
  end.

(** ** Global pools *)

(** Taking the spin lock of a pool and reading its pages; storing them and releasing
    it.  A lock that is held makes the single-threaded run spin for ever. *)
Definition lock_list (g : UnitAllocGroup) : XM (list Z) :=
  fls ← gets c_free_pages;
  fl ← of_option OutOfBounds (rd fls (group_index g));
  let '(ok, flag) := Spinlock.try_lock (m_spin fl) in
  if ok then
    modify (upd_free_pages (λ fls, wr fls (group_index g) (MkFreePageList flag (m_pages fl)))) ;;
    mret (m_pages fl)
  else throw OutOfFuel.

Definition unlock_list (g : UnitAllocGroup) (pages : list Z) : XM unit :=
  fls ← gets c_free_pages;
  fl ← of_option OutOfBounds (rd fls (group_index g));
  modify (upd_free_pages (λ fls,
    wr fls (group_index g) (MkFreePageList (Spinlock.clear (m_spin fl)) pages))).

(** The body of an operation on one pool, between taking and releasing its lock: its
    result and the vector it leaves. *)
Definition with_list {A} (g : UnitAllocGroup) (body : list Z → WM (A * list Z)) : XM A :=
  pages ← lock_list g;
  r ← on_world (body pages);
  unlock_list g r.2 ;;
  mret r.1.

(** The loop of [pick_free_page]: the page, and the pages left in the vector. *)
Fixpoint pick_free_loop (pages : list Z) : WM (Z * list Z) :=
  match pages with
  | [] => mret (0, [])
  | page :: rest =>
    if page =? 0 then pick_free_loop rest
    else
      p ← load_alloc (alloc_of page);
      if m_mark_as_run_out_in_global_pool p then
        store_alloc (alloc_of page) (set_mark_run_out false) ;;
        store_alloc (alloc_of page) (set_run_out 1) ;;
        pick_free_loop rest
      else mret (page, rest)
  end.

Definition pick_free_page (g : UnitAllocGroup) : XM Z := with_list g pick_free_loop.

Definition return_free_page (g : UnitAllocGroup) (page : Z) : XM unit :=
  with_list g (λ pages, mret (tt, page :: pages)).

Definition return_page (page : Z) (g : UnitAllocGroup) : XM unit := return_free_page g page.

Definition require_normal_page `{Build} `{Kernel} (g : UnitAllocGroup) : XM Z :=
  page ← pick_free_page g;
  if negb (page =? 0) then
    (if ndebug then mret tt
     else
       h ← on_world (load_head page);
       p ← on_world (load_alloc (alloc_of page));
       assert_ ((m_page_count_if_huge h =? 0) && (m_run_out p =? 0) &&
         (m_unit_size_in_page p =? group_size g))) ;;
    mret page
  else
    on_world (page ← on_chunk allocate_page;
      (if page =? 0 then mret tt else init_page_for_unit_allocating page g) ;; mret page).

(** The loop over one vector, from its front. *)
Fixpoint remove_marked (pages : list Z) : WM (list Z) :=
  match pages with
  | [] => mret []
  | page :: rest =>
    rest' ← remove_marked rest;
    if page =? 0 then mret (page :: rest')
    else
      p ← load_alloc (alloc_of page);
      if m_mark_as_run_out_in_global_pool p then
        store_alloc (alloc_of page) (set_mark_run_out false) ;;
        store_alloc (alloc_of page) (set_run_out 1) ;;
        mret (0 :: rest')
      else mret (page :: rest')
  end.

Fixpoint for_groups {S} (gs : list UnitAllocGroup) (body : UnitAllocGroup → M S unit) : M S unit :=
  match gs with
  | [] => mret tt
  | g :: gs' => body g ;; for_groups gs' body
  end.

Definition remove_marked_run_out_pages : XM unit :=
  for_groups all_groups (λ g, with_list g (λ pages,
    pages' ← remove_marked pages; mret (tt, pages'))).

(** ** Pages of a thread *)

(** Where a thread gets its pages from. *)
Class PageSource := { source_page : UnitAllocGroup → XM Z }.

#[export] Instance global_pages `{Build} `{Kernel} : PageSource :=
  {| source_page := require_normal_page |}.

Definition ThreadPageCollection_ctor (attached : bool) : ThreadPageCollection :=
  MkThreadPageCollection attached (replicate (Z.to_nat MAX_GROUP) 0).

Definition load_thread (t : Z) : XM ThreadPageCollection :=
  ts ← gets c_threads; of_option BadAccess (ts !! t).

Definition get_cached (t : Z) (g : UnitAllocGroup) : XM Z :=
  tc ← load_thread t; of_option OutOfBounds (rd (m_cached_pages tc) (group_index g)).

Definition set_cached (t : Z) (g : UnitAllocGroup) (page : Z) : XM unit :=
  tc ← load_thread t;
  modify (upd_threads (<[t := MkThreadPageCollection (m_attached tc)
    (wr (m_cached_pages tc) (group_index g) page)]>)).

Definition init_manually `{Build} (t : Z) : XM unit :=
  tc ← load_thread t;
  assert_ (negb (m_attached tc)) ;;
  modify (upd_threads (<[t := MkThreadPageCollection true (m_cached_pages tc)]>)).

(** The cached pages stay in the collection. *)
Definition shutdown_manually (t : Z) : XM unit :=
  tc ← load_thread t;
  if m_attached tc then
    for_groups all_groups (λ g,
      page ← get_cached t g;
      if page =? 0 then mret tt else return_page page g) ;;
    modify (upd_threads (<[t := MkThreadPageCollection false (m_cached_pages tc)]>))
  else mret tt.

(** The body from the label on; a page is only picked from when there is one.  Every
    retry has taken one more page out of the pool or a new page, so [fuel] is one more
    than the pages of the pool. *)
Fixpoint pick_unit_loop `{Build} `{PageSource} (fuel : nat) (t : Z) (g : UnitAllocGroup) : XM Z :=
  cached_page ← get_cached t g;
  unit ← (if cached_page =? 0 then mret 0
          else on_world (pick_unit_from_page_without_init cached_page));
  if negb (unit =? 0) then mret (unit + SIZEOF_UnitHead)
  else
    page ← source_page g;
    set_cached t g page ;;
    if page =? 0 then mret 0
    else
      match fuel with
      | O => throw OutOfFuel
      | S fuel' => pick_unit_loop fuel' t g
      end.

Definition pool (c : Ctx) (g : UnitAllocGroup) : list Z :=
  from_option m_pages [] (rd (c_free_pages c) (group_index g)).

Definition pick_unit_in_page `{Build} `{PageSource} (t unit_size : Z) : XM Z :=
  tc ← load_thread t;
  assert_ (m_attached tc && (unit_size <=? MAX_IN_PAGE_UNIT_SIZE)) ;;
  g ← of_option OutOfBounds (eval_group_by_small_unit_size unit_size);
  n ← gets (λ c, length (pool c g));
  pick_unit_loop (S n) t g.
