(* ===== verification/PoolProof.v ===== *)
(** * Pools: invariant and operations

    [ctx_inv c pm]: the heap is well formed, the chain reaches every page, and every
    page is in at most one pool or kept by at most one thread.  The specifications of
    the pool operations, the proof that the global pools keep the promise of a
    [PageSource], and the thread's pick loop, proved against that promise alone. *)

From S2P Require Import Prelude SizeClass Locks Chunk Blocks ChunkProof Heap PageUnit HeapInv Pools.
Open Scope Z_scope.

(** ** The pool invariant *)

(** The page a thread keeps for a group; a detached collection keeps none. *)
Definition cache (c : Ctx) (t : Z) (g : UnitAllocGroup) : Z :=
  match c_threads c !! t with
  | Some tc => if m_attached tc then from_option id 0 (rd (m_cached_pages tc) (group_index g)) else 0
  | None => 0
  end.

(** A page that may be picked from: laid out for [g], not run out. *)
Definition usable (w : World) (pm : gmap Z pkind) (g : UnitAllocGroup) (page : Z) : Prop :=
  pm !! page = Some (PNormal g) ∧ fst <$> flags w page = Some 0.

(** Every page is in at most one pool or kept by at most one thread. *)
Record pool_inv (c : Ctx) (pm : gmap Z pkind) : Prop := {
  pv_lists : length (c_free_pages c) = Z.to_nat MAX_GROUP;
  pv_spin : ∀ g fl, rd (c_free_pages c) (group_index g) = Some fl → m_spin fl = false;
  pv_threads : ∀ t tc, c_threads c !! t = Some tc → length (m_cached_pages tc) = Z.to_nat MAX_GROUP;
  pv_pool : ∀ g p, p ∈ pool c g → p ≠ 0 → usable (c_world c) pm g p;
  pv_cache : ∀ t g, cache c t g ≠ 0 → pm !! cache c t g = Some (PNormal g);
  pv_nodup : ∀ g, NoDup (filter (λ p, p ≠ 0) (pool c g));
  pv_apart : ∀ t g, cache c t g ≠ 0 → cache c t g ∉ pool c g;
  pv_private : ∀ t t' g, cache c t g ≠ 0 → cache c t g = cache c t' g → t = t';
}.

(** Between calls, no page that a thread keeps is known to have run out. *)
Definition caches_ready (c : Ctx) : Prop :=
  ∀ t g, cache c t g ≠ 0 → fst <$> flags (c_world c) (cache c t g) = Some 0.

Definition ctx_inv (c : Ctx) (pm : gmap Z pkind) : Prop :=
  (∃ bl, heap_inv (c_world c) bl pm) ∧ chain_inv (c_world c) pm ∧ pool_inv c pm.

(** A page in no pool and kept by no thread. *)
Definition nowhere (c : Ctx) (page : Z) : Prop :=
  (∀ g, page ∉ pool c g) ∧ ∀ t g, cache c t g ≠ page.

(** Units of the old heap keep their headers. *)
Definition units_kept (pm : gmap Z pkind) (w w' : World) : Prop :=
  ∀ u s, is_unit pm u s → w_units w' !! u = w_units w !! u.

(** ** Rules *)

Lemma wp_on_world {A} (m : WM A) (Q : A → Ctx → Prop) c :
  wp m (λ a w, Q a (set_world w c)) (c_world c) → wp (on_world m) Q c.
Proof. rewrite /wp /on_world. by destruct (m (c_world c)) as [[a w]|]. Qed.

(** The pools with the vector of one group replaced. *)
Definition with_pool (g : UnitAllocGroup) (pages : list Z) (c : Ctx) : Ctx :=
  upd_free_pages (λ fls, wr fls (group_index g) (MkFreePageList false pages)) c.

Lemma group_index_ge g : 0 ≤ group_index g < Z.of_nat (Z.to_nat MAX_GROUP).
Proof. pose proof (group_index_bounds g). rewrite /MAX_GROUP in H |- *. lia. Qed.

Lemma pool_with g pages c g' :
  length (c_free_pages c) = Z.to_nat MAX_GROUP →
  pool (with_pool g pages c) g' = if decide (g' = g) then pages else pool c g'.
Proof.
  intros Hl. rewrite /pool /=. pose proof (group_index_ge g). case_decide as Hg.
  - subst. rewrite rd_wr_eq; [done|lia].
  - rewrite rd_wr_ne; [done| |lia]. intros Heq%(inj group_index). congruence.
Qed.

(** The pools are there and nobody holds their locks. *)
Definition lists_ok (c : Ctx) : Prop :=
  length (c_free_pages c) = Z.to_nat MAX_GROUP ∧
  ∀ g fl, rd (c_free_pages c) (group_index g) = Some fl → m_spin fl = false.

Lemma pool_inv_lists c pm : pool_inv c pm → lists_ok c.
Proof. intros []. by split. Qed.

(** A guarded access to one pool. *)
Lemma wp_with_list {A} c g (body : list Z → WM (A * list Z)) (Q : A → Ctx → Prop) :
  lists_ok c →
  wp (body (pool c g)) (λ r w, Q r.1 (with_pool g r.2 (set_world w c))) (c_world c) →
  wp (with_list g body) Q c.
Proof.
  intros [Hl Hsp] Hb. pose proof (group_index_ge g) as Hg.
  destruct (rd_in (c_free_pages c) (group_index g)) as [fl Hfl]; [lia|].
  pose proof (Hsp g fl Hfl) as Hs. rewrite /pool Hfl /= in Hb.
  rewrite /with_list /lock_list. wp_steps. eapply wp_of_option; [exact Hfl|]. rewrite /= Hs /=. wp_steps.
  apply wp_on_world. eapply wp_mono; [exact Hb|]. intros [a pages] w HQ. simpl.
  rewrite /unlock_list. wp_steps. eapply wp_of_option; [apply rd_wr_eq; lia|]. wp_steps.
  rewrite /upd_free_pages /set_world /with_pool /= in HQ |- *.
  replace (wr (wr _ _ _) _ _) with
    (wr (c_free_pages c) (group_index g) (MkFreePageList false pages)); [done|].
  by rewrite /wr list_insert_insert_eq.
Qed.

(** ** Operations on a pool *)

(** Setting the flags of a page that is taken out of its pool. *)
Lemma wp_retire page p (Q : unit → World → Prop) w :
  w_allocs w !! alloc_of page = Some p →
  Q tt (upd_allocs (<[alloc_of page := set_run_out 1 (set_mark_run_out false p)]>) w) →
  wp (store_alloc (alloc_of page) (set_mark_run_out false) ;;
      store_alloc (alloc_of page) (set_run_out 1)) Q w.
Proof.
  intros Hp HQ. wp_steps. eapply wp_store_alloc; [exact Hp|].
  eapply wp_store_alloc; [apply lookup_insert_eq|].
  rewrite /upd_allocs /= insert_insert_eq in HQ |- *. exact HQ.
Qed.

(** What retiring pages changes: the flags of those pages. *)
Definition retired (w w' : World) (dropped : list Z) : Prop :=
  w_chunk w' = w_chunk w ∧ w_all_page_list w' = w_all_page_list w ∧ w_units w' = w_units w ∧
  ∀ a, (∀ q, q ∈ dropped → q ≠ 0 → a ≠ alloc_of q) → w_allocs w' !! a = w_allocs w !! a.

Lemma retired_refl w l : retired w w l.
Proof. by split_and!. Qed.

Lemma retired_mono w w' l l' : (∀ q, q ∈ l → q ∈ l') → retired w w' l → retired w w' l'.
Proof. intros Hl (? & ? & ? & Ha). split_and!; try done. intros a Hn. apply Ha. auto. Qed.

Lemma retired_cons w w' page p l :
  page ≠ 0 →
  retired (upd_allocs (<[alloc_of page := p]>) w) w' l → retired w w' (page :: l).
Proof.
  intros Hp (? & ? & ? & Ha). split_and!; try done. intros a Hn. rewrite Ha.
  - rewrite /= lookup_insert_ne //. apply not_eq_sym, Hn; [constructor|done].
  - intros q Hq. apply Hn. by constructor.
Qed.

Lemma pick_free_loop_spec w bl pm g pages :
  heap_inv w bl pm →
  (∀ p, p ∈ pages → p ≠ 0 → pm !! p = Some (PNormal g)) →
  wp (pick_free_loop pages) (λ r w', heap_inv w' bl pm ∧
    ∃ dropped, retired w w' dropped ∧
      pages = dropped ++ (if decide (r.1 = 0) then [] else [r.1]) ++ r.2 ∧ (r.1 = 0 → r.2 = [])) w.
Proof.
  revert w. induction pages as [|page pages IH]; intros w Hinv Hpg; simpl.
  { wp_steps. split; [done|]. exists []. split; [apply retired_refl|done]. }
  assert (∀ p, p ∈ pages → p ≠ 0 → pm !! p = Some (PNormal g)) as Hpg'
    by (intros; apply Hpg; [by constructor|done]).
  destruct (decide (page = 0)) as [->|Hp0].
  { eapply wp_mono; [by apply IH|]. intros r w' (? & dr & ? & -> & ?). split; [done|].
    exists (0 :: dr). split; [|done]. eapply retired_mono; [|done]. set_solver. }
  bool_test (page =? 0). pose proof (Hpg page (list_elem_of_here _ _) Hp0) as Hk.
  destruct (normal_alloc _ _ _ _ _ Hinv Hk) as (p & Hp & _). wp_steps.
  eapply wp_load_alloc; [exact Hp|]. destruct (m_mark_as_run_out_in_global_pool p).
  - apply wp_assoc, wp_bind. eapply wp_retire; [exact Hp|].
    eapply wp_mono; [apply IH; [|done]|].
    + by eapply heap_flags.
    + intros r w' (? & dr & ? & -> & ?). split; [done|]. exists (page :: dr).
      split; [by eapply retired_cons|done].
  - wp_steps. split; [done|]. exists []. split; [apply retired_refl|].
    rewrite decide_False //.
Qed.

Lemma usable_flags w w' pm g p :
  w_allocs w' !! alloc_of p = w_allocs w !! alloc_of p → usable w pm g p → usable w' pm g p.
Proof. rewrite /usable /flags. by intros ->. Qed.

Lemma usable_group w pm g g' p : usable w pm g p → usable w pm g' p → g = g'.
Proof. intros [H1 _] [H2 _]. congruence. Qed.

(** Replacing the vector of one pool by pages that were in it, after retiring pages
    that are no longer in it. *)
Lemma pool_inv_shrink c pm g pages' w' dropped :
  pool_inv c pm →
  (∀ p, p ∈ dropped → p ≠ 0 → p ∈ pool c g ∧ p ∉ pages') →
  (∀ p, p ∈ pages' → p ≠ 0 → p ∈ pool c g) → NoDup (filter (λ p, p ≠ 0) pages') →
  retired (c_world c) w' dropped →
  pool_inv (with_pool g pages' (set_world w' c)) pm.
Proof.
  intros Hinv Hdr Hsub Hnd (_ & _ & _ & Ha).
  assert (∀ g', pool (with_pool g pages' (set_world w' c)) g' =
    if decide (g' = g) then pages' else pool c g') as Hpool
    by (intros g'; apply (pool_with g pages' (set_world w' c)), (pv_lists _ _ Hinv)).
  assert (∀ g' p, usable (c_world c) pm g' p → p ∉ dropped → usable w' pm g' p) as Hus.
  { intros g' p Hu Hp. eapply usable_flags; [|exact Hu]. apply Ha. intros q Hq _ Heq.
    apply Hp. rewrite /alloc_of in Heq. by replace p with q by lia. }
  split; try apply Hinv.
  - rewrite /= length_wr. apply Hinv.
  - intros g' fl Hfl. simpl in Hfl. pose proof (group_index_ge g).
    rewrite rd_wr in Hfl; [|rewrite (pv_lists _ _ Hinv); lia].
    case_decide; [by simplify_eq|by eapply (pv_spin _ _ Hinv)].
  - intros g' p. rewrite Hpool. intros Hp Hp0. case_decide as Hg.
    + subst g'. apply Hus; [apply (pv_pool _ _ Hinv); auto|].
      intros Hd. by destruct (Hdr p Hd Hp0).
    + apply Hus; [by apply (pv_pool _ _ Hinv)|]. intros Hd. destruct (Hdr p Hd Hp0) as [Hd' _].
      apply Hg. eapply usable_group; by apply (pv_pool _ _ Hinv).
  - intros g'. rewrite Hpool. case_decide; [done|apply Hinv].
  - intros t g' Hc. rewrite Hpool. case_decide as Hg; [|by apply (pv_apart _ _ Hinv)].
    subst g'. intros Hin. by apply (pv_apart _ _ Hinv t g Hc), Hsub.
Qed.

Lemma nodup_nonzero (l1 l2 : list Z) p :
  NoDup (filter (λ p, p ≠ 0) (l1 ++ l2)) → p ≠ 0 → p ∈ l1 → p ∉ l2.
Proof.
  rewrite filter_app. intros (_ & Hd & _)%NoDup_app Hp H1 H2.
  apply (Hd p); apply list_elem_of_filter; by split.
Qed.

Lemma nodup_nonzero_r (l1 l2 : list Z) :
  NoDup (filter (λ p, p ≠ 0) (l1 ++ l2)) → NoDup (filter (λ p, p ≠ 0) l2).
Proof. rewrite filter_app. by intros (_ & _ & ?)%NoDup_app. Qed.

(** What taking a page from a pool leaves of the world. *)
Definition same_heap (w w' : World) : Prop :=
  w_chunk w' = w_chunk w ∧ w_all_page_list w' = w_all_page_list w ∧ w_units w' = w_units w.

(** The pages that threads keep, and the flags of these. *)
Definition caches_kept (c c' : Ctx) : Prop :=
  c_threads c' = c_threads c ∧
  ∀ t g, cache c t g ≠ 0 → flags (c_world c') (cache c t g) = flags (c_world c) (cache c t g).

Lemma pick_free_page_spec c bl pm g :
  heap_inv (c_world c) bl pm → pool_inv c pm →
  wp (pick_free_page g) (λ r c', heap_inv (c_world c') bl pm ∧ pool_inv c' pm ∧
    same_heap (c_world c) (c_world c') ∧ caches_kept c c' ∧
    (length (pool c' g) ≤ length (pool c g))%nat ∧
    (r = 0 ∨ (usable (c_world c') pm g r ∧ nowhere c' r ∧
      (length (pool c' g) < length (pool c g))%nat))) c.
Proof.
  intros Hh Hinv. apply wp_with_list; [by eapply pool_inv_lists|].
  eapply wp_mono; [apply (pick_free_loop_spec _ bl pm g); [done|]|].
  { intros p Hp Hp0. by apply (pv_pool _ _ Hinv). }
  intros [r rest] w' (Hh' & dr & Hret & Hpg & Hr0). simpl in *.
  pose proof (pv_nodup _ _ Hinv g) as Hnd. rewrite Hpg in Hnd.
  assert (pool_inv (with_pool g rest (set_world w' c)) pm) as Hinv'.
  { apply (pool_inv_shrink _ _ _ _ _ dr); try done.
    - intros p Hp Hp0. rewrite Hpg. split; [set_solver|].
      pose proof (nodup_nonzero _ _ _ Hnd Hp0 Hp). set_solver.
    - rewrite Hpg. set_solver.
    - by apply nodup_nonzero_r, nodup_nonzero_r in Hnd. }
  split; [done|]. split; [done|]. destruct Hret as (? & ? & ? & Ha).
  split; [by split_and!|]. split; [split; [done|]|].
  { intros t g' Hc. rewrite /flags /= Ha //. intros q Hq Hq0 Heq. rewrite /alloc_of in Heq.
    assert (q = cache c t g') as -> by lia.
    assert (cache c t g' ∈ pool c g) as Hin by (rewrite Hpg; set_solver).
    pose proof (pv_cache _ _ Hinv t g' Hc). destruct (pv_pool _ _ Hinv g _ Hin Hc) as [? _].
    assert (g' = g) as -> by congruence. by apply (pv_apart _ _ Hinv t g). }
  assert (pool (with_pool g rest (set_world w' c)) g = rest) as Epool.
  { rewrite (pool_with g rest (set_world w' c)); [|apply Hinv]. by rewrite decide_True. }
  split; [rewrite Epool Hpg !length_app; lia|].
  destruct (decide (r = 0)) as [->|Hne]; [by left|right].
  assert (r ∈ pool c g) as Hin by (rewrite Hpg; set_solver).
  pose proof (pv_pool _ _ Hinv g r Hin Hne) as Hus.
  assert (r ∉ rest) as Hrest by (by apply nodup_nonzero_r, nodup_nonzero with (p := r) in Hnd;
    [|done|constructor]).
  split; [|split].
  - eapply usable_flags; [|exact Hus]. apply Ha. intros q Hq Hq0 Heq.
    rewrite /alloc_of in Heq. assert (q = r) as -> by lia.
    apply (nodup_nonzero _ _ _ Hnd Hne Hq). set_solver.
  - split.
    + intros g'. rewrite (pool_with g rest (set_world w' c)); [|apply Hinv].
      case_decide as Hg; [done|]. intros Hin'. apply Hg.
      eapply usable_group; by apply (pv_pool _ _ Hinv).
    + intros t g' Hc. change (cache (with_pool g rest (set_world w' c)) t g') with (cache c t g') in Hc.
      pose proof (pv_cache _ _ Hinv t g') as Hg. rewrite Hc in Hg.
      destruct Hus as [Hus _]. assert (g' = g) as -> by (specialize (Hg Hne); congruence).
      apply (pv_apart _ _ Hinv t g); rewrite Hc; done.
  - rewrite Epool Hpg !length_app /=. lia.
Qed.

(** ** Requiring a page *)

(** What a page source promises its clients: the heap is intact and only grows, the
    units in it and the pages threads keep are left alone, and the page it returns, if any, is of
    the group asked for, not run out, and given to nobody else; it comes from the pool or
    is new, with all its units. *)
Definition granted (c : Ctx) (pm : gmap Z pkind) (g : UnitAllocGroup) (r : Z) (c' : Ctx) : Prop :=
  ∃ pm', ctx_inv c' pm' ∧ pm ⊆ pm' ∧
    units_kept pm (c_world c) (c_world c') ∧ caches_kept c c' ∧
    (length (pool c' g) ≤ length (pool c g))%nat ∧
    (r = 0 ∨ (usable (c_world c') pm' g r ∧ nowhere c' r ∧
      ((length (pool c' g) < length (pool c g))%nat ∨ has_unit (c_world c') g r))).

Class PageSourceLaws `{PageSource} : Prop :=
  source_page_spec c pm g : ctx_inv c pm → wp (source_page g) (granted c pm g) c.

Lemma is_unit_mono pm pm' u s : pm ⊆ pm' → is_unit pm u s → is_unit pm' u s.
Proof. intros Hsub (p & k & Hp & Hu). exists p, k. split; [by eapply lookup_weaken|done]. Qed.

Lemma added_apart w' bl' pm r k page kp :
  heap_inv w' bl' (<[r := k]> pm) → pm !! r = None → pm !! page = Some kp →
  page ≠ r ∧ (page + pages_of kp * NORMAL_PAGE_SIZE ≤ r ∨ r + pages_of k * NORMAL_PAGE_SIZE ≤ page).
Proof.
  intros Hinv Hn Hp. assert (page ≠ r) as Hne by (intros ->; congruence). split; [done|].
  apply (pages_apart _ _ _ Hinv); [by rewrite lookup_insert_ne|by rewrite lookup_insert_eq|done].
Qed.

Lemma added_units w pm r k w' : page_added w pm r k w' → units_kept pm w w'.
Proof.
  intros (_ & Hn & (bl' & Hinv) & _ & _ & Hu) u s (page & kp & Hp & Hin). apply Hu.
  destruct (added_apart _ _ _ _ _ _ _ Hinv Hn Hp) as [Hne Hap].
  assert (<[r := k]> pm !! page = Some kp) as Hp' by (by rewrite lookup_insert_ne).
  pose proof (unit_extent _ _ _ Hinv _ _ _ _ Hp' Hin) as Hex.
  destruct (page_start _ _ _ Hinv r k (lookup_insert_eq _ _ _)) as (_ & _ & _ & _ & Hk).
  unfold SIZEOF_PageHead, SIZEOF_UnitHead, NORMAL_PAGE_SIZE in *. nia.
Qed.

Lemma added_alloc w pm r k w' page kp :
  page_added w pm r k w' → pm !! page = Some kp →
  w_allocs w' !! alloc_of page = w_allocs w !! alloc_of page.
Proof.
  intros (_ & Hn & _ & _ & Ha & _) Hp. apply Ha. rewrite /alloc_of.
  assert (page ≠ r) by (intros ->; congruence). lia.
Qed.

Lemma pool_inv_added c pm r k w' :
  pool_inv c pm → page_added (c_world c) pm r k w' →
  pool_inv (set_world w' c) (<[r := k]> pm) ∧ nowhere (set_world w' c) r ∧
  caches_kept c (set_world w' c).
Proof.
  intros Hinv Had. pose proof Had as (Hr0 & Hn & _).
  assert (∀ p g, pm !! p = Some (PNormal g) → <[r := k]> pm !! p = Some (PNormal g)) as Hw.
  { intros p g Hp. rewrite lookup_insert_ne //. intros <-. congruence. }
  split; [|split].
  - split; try apply Hinv.
    + intros g p Hp Hp0. destruct (pv_pool _ _ Hinv g p Hp Hp0) as [Hk Hf].
      split; [by apply Hw|]. by rewrite /flags /= (added_alloc _ _ _ _ _ _ _ Had Hk).
    + intros t g Hc. by apply Hw, (pv_cache _ _ Hinv).
  - split.
    + intros g Hin. destruct (pv_pool _ _ Hinv g r Hin Hr0) as [? _]. congruence.
    + intros t g Hc. pose proof (pv_cache _ _ Hinv t g) as Hk.
      change (cache (set_world w' c) t g) with (cache c t g) in Hc. rewrite Hc in Hk.
      specialize (Hk Hr0). congruence.
  - split; [done|]. intros t g Hc. pose proof (pv_cache _ _ Hinv t g Hc) as Hk.
    by rewrite /flags /= (added_alloc _ _ _ _ _ _ _ Had Hk).
Qed.

Lemma chain_inv_same w w' pm : same_heap w w' → chain_inv w pm → chain_inv w' pm.
Proof. rewrite /chain_inv. by intros (-> & -> & _). Qed.

Lemma caches_kept_trans c1 c2 c3 : caches_kept c1 c2 → caches_kept c2 c3 → caches_kept c1 c3.
Proof.
  intros [Ht1 Hf1] [Ht2 Hf2]. split; [congruence|]. intros t g Hc.
  assert (cache c2 t g = cache c1 t g) as Hc' by (by rewrite /cache Ht1).
  rewrite -Hf1 // -Hc' Hf2 // Hc' //.
Qed.

Lemma offsets_cons g : ∃ o l, offsets g = o :: l.
Proof.
  pose proof (length_offsets g) as Hl. pose proof (unit_count_bounds g).
  destruct (offsets g) as [|o l]; [simpl in Hl; lia|eauto].
Qed.

(** The state after a page was looked for in the pool. *)
Definition searched (c : Ctx) (bl : list block) (pm : gmap Z pkind) (g : UnitAllocGroup)
    (c1 : Ctx) : Prop :=
  heap_inv (c_world c1) bl pm ∧ chain_inv (c_world c1) pm ∧ pool_inv c1 pm ∧
  units_kept pm (c_world c) (c_world c1) ∧ caches_kept c c1 ∧
  (length (pool c1 g) ≤ length (pool c g))%nat.

Lemma granted_new `{Build} `{Kernel} (Hkernel : commits_granted) c bl pm g c1 :
  searched c bl pm g c1 →
  wp (on_world (page ← on_chunk allocate_page;
      (if page =? 0 then mret tt else init_page_for_unit_allocating page g) ;; mret page))
    (granted c pm g) c1.
Proof.
  intros (Hh1 & Hch1 & Hinv1 & Huk & Hkept & Hlen).
  apply wp_on_world. eapply wp_mono; [by eapply new_page_spec|].
  intros r w' [[-> ->]|(Had & Hpi & Hfl)].
  { exists pm. destruct c1. split; [split_and!; eauto|]. split_and!; try done. by left. }
  destruct (pool_inv_added _ _ _ _ _ Hinv1 Had) as (Hinv2 & Hno & Hkept2).
  exists (<[r := PNormal g]> pm). pose proof (added_units _ _ _ _ _ Had) as Huk2.
  destruct Had as (Hr0 & Hn & Hbl & Hch2 & _).
  split; [by split_and!|]. split; [by apply insert_subseteq|].
  split; [intros u s Hu; by rewrite (Huk2 u s Hu) (Huk u s Hu)|].
  split; [by eapply caches_kept_trans|]. split; [done|]. right.
  split; [split; [by rewrite lookup_insert_eq|by rewrite Hfl]|]. split; [done|].
  right. destruct (offsets_cons g) as (o & l & Ho). rewrite Ho in Hpi. by exists o, l, [].
Qed.

Lemma granted_pool `{Build} c bl pm g c1 r :
  searched c bl pm g c1 → usable (c_world c1) pm g r → nowhere c1 r →
  (length (pool c1 g) < length (pool c g))%nat →
  wp ((if ndebug then mret tt
     else
       h ← on_world (load_head r);
       p ← on_world (load_alloc (alloc_of r));
       assert_ ((m_page_count_if_huge h =? 0) && (m_run_out p =? 0) &&
         (m_unit_size_in_page p =? group_size g))) ;; mret r) (granted c pm g) c1.
Proof.
  intros (Hh1 & Hch1 & Hinv1 & Huk & Hkept & Hlen) Hus Hno Hlt.
  assert (granted c pm g r c1) as Hpost.
  { exists pm. split; [split_and!; eauto|]. split_and!; try done. right. split_and!; try done. by left. }
  wp_steps. destruct ndebug eqn:Eb; wp_steps; [done|]. destruct Hus as [Hk Hfl].
  pose proof (hi_map _ _ _ Hh1 _ _ Hk) as (x & _ & _ & (h & Hh & Hcnt & _) & _).
  destruct (normal_alloc _ _ _ _ _ Hh1 Hk) as (p & Hp & Hsz). rewrite /flags Hp /= in Hfl.
  apply wp_on_world. eapply wp_load_head; [exact Hh|].
  wp_steps. apply wp_on_world.   eapply wp_load_alloc; [exact Hp|]. apply wp_assert.
  { injection Hfl as Hfl. simpl in Hcnt. rewrite Hcnt Hsz Hfl. simpl. lia. }
  wp_steps. by destruct c1.
Qed.

(** The global pools keep that promise. *)
Lemma global_pages_laws `{Build} `{Kernel}
  (Hkernel : commits_granted) : @PageSourceLaws global_pages.
Proof.
  intros c pm g ((bl & Hh) & Hch & Hinv). rewrite /source_page /= /require_normal_page. wp_steps.
  eapply wp_mono; [by eapply pick_free_page_spec|].
  intros r c1 (Hh1 & Hinv1 & Hsame & Hkept & Hlen & Hr).
  assert (searched c bl pm g c1) as Hse.
  { split; [done|]. split; [by eapply chain_inv_same|]. split; [done|].
    split; [|by split]. destruct Hsame as (_ & _ & Hu). intros u s _. by rewrite Hu. }
  destruct (decide (r = 0)) as [->|Hr0].
  - by eapply granted_new.
  - bool_test (r =? 0). destruct Hr as [?|(? & ? & ?)]; [done|]. by eapply granted_pool.
Qed.

(** ** Picking a unit for a thread *)

Definition with_cache (t : Z) (g : UnitAllocGroup) (page : Z) (tc : ThreadPageCollection)
    (c : Ctx) : Ctx :=
  upd_threads (<[t := MkThreadPageCollection (m_attached tc)
    (wr (m_cached_pages tc) (group_index g) page)]>) c.

Lemma cache_with t g page tc c t' g' :
  c_threads c !! t = Some tc → m_attached tc = true →
  length (m_cached_pages tc) = Z.to_nat MAX_GROUP →
  cache (with_cache t g page tc c) t' g' =
    if decide (t' = t ∧ g' = g) then page else cache c t' g'.
Proof.
  intros Ht Hat Hl. rewrite /cache /=. pose proof (group_index_ge g).
  destruct (decide (t' = t)) as [->|Hne].
  - rewrite lookup_insert_eq Ht /= Hat rd_wr; [|lia].
    destruct (decide (g' = g)) as [->|Hg]; [by rewrite !decide_True|].
    rewrite !decide_False //; [by intros []|]. intros Heq%(inj group_index). congruence.
  - rewrite lookup_insert_ne // decide_False //. by intros [].
Qed.

(** The thread takes a page that nobody else has, or gives up its page. *)
Lemma pool_inv_cache c pm t g page tc :
  pool_inv c pm → c_threads c !! t = Some tc → m_attached tc = true →
  page = 0 ∨ (pm !! page = Some (PNormal g) ∧ nowhere c page) →
  pool_inv (with_cache t g page tc c) pm.
Proof.
  intros Hinv Ht Hat Hpage. pose proof (pv_threads _ _ Hinv _ _ Ht) as Hl.
  pose proof (λ t' g', cache_with t g page tc c t' g' Ht Hat Hl) as Hc.
  split; try apply Hinv.
  - intros t' tc'. simpl. rewrite lookup_insert_Some. intros [[<- <-]|[_ Ht']].
    + by rewrite /= length_wr.
    + by eapply (pv_threads _ _ Hinv).
  - intros t' g'. rewrite Hc. case_decide as E; [|apply (pv_cache _ _ Hinv)].
    destruct E as [_ ->]. by destruct Hpage as [->|[? _]].
  - intros t' g'. rewrite Hc. case_decide as E; [|apply (pv_apart _ _ Hinv)].
    destruct Hpage as [->|[_ [Hno _]]]; [done|]. intros _. apply Hno.
  - intros t1 t2 g'. rewrite !Hc. pose proof (pv_private _ _ Hinv t1 t2 g') as Hp.
    destruct Hpage as [->|[_ [_ Hno]]]; repeat case_decide; destruct_and?; subst; try done.
    + intros _ Heq. by destruct (Hno t2 g (eq_sym Heq)).
    + intros _ Heq. by destruct (Hno t1 g Heq).
Qed.

Lemma get_cached_run t g c tc (Q : Z → Ctx → Prop) :
  c_threads c !! t = Some tc → m_attached tc = true →
  length (m_cached_pages tc) = Z.to_nat MAX_GROUP → Q (cache c t g) c → wp (get_cached t g) Q c.
Proof.
  intros Ht Hat Hl HQ. rewrite /get_cached /load_thread. wp_steps.
  eapply wp_of_option; [exact Ht|]. pose proof (group_index_ge g).
  destruct (rd_in (m_cached_pages tc) (group_index g)) as [p Hp]; [lia|].
  eapply wp_of_option; [exact Hp|]. by rewrite /cache Ht Hat Hp in HQ.
Qed.

Lemma set_cached_run t g page c tc (Q : unit → Ctx → Prop) :
  c_threads c !! t = Some tc → Q tt (with_cache t g page tc c) → wp (set_cached t g page) Q c.
Proof.
  intros Ht HQ. rewrite /set_cached /load_thread. wp_steps. eapply wp_of_option; [exact Ht|].
  by wp_steps.
Qed.

(** A unit of the new heap was handed out: if it was a unit before, it was released;
    the other units have not changed. *)
Definition unit_got (pm : gmap Z pkind) (w : World) (u s : Z) (pm' : gmap Z pkind) (w' : World) : Prop :=
  is_unit pm' u s ∧
  (∀ s0, is_unit pm u s0 → ∃ h, w_units w !! u = Some h ∧ m_life h = RELEASED) ∧
  (∃ h, w_units w' !! u = Some h ∧ m_life h = PENDING) ∧
  (∀ u' s', is_unit pm u' s' → u' ≠ u → w_units w' !! u' = w_units w !! u').

Lemma unit_got_kept pm w pm1 w1 u s pm' w' :
  pm ⊆ pm1 → units_kept pm w w1 → unit_got pm1 w1 u s pm' w' → unit_got pm w u s pm' w'.
Proof.
  intros Hsub Hk (Hu & Hrel & Hpen & Hoth). split; [done|]. split; [|split; [done|]].
  - intros s0 Hs0. rewrite -(Hk u s0 Hs0). eapply Hrel, is_unit_mono; eauto.
  - intros u' s' Hu' Hne. rewrite -(Hk u' s' Hu'). eapply Hoth; [by eapply is_unit_mono|done].
Qed.

Lemma taken_got pm w w' page g o :
  pm !! page = Some (PNormal g) → o ∈ offsets g → unit_taken w w' page (unit_at page o) →
  unit_got pm w (unit_at page o) (group_size g) pm w'.
Proof.
  intros Hp Ho (_ & _ & (h & h' & ? & ? & ? & ?) & Hu & _). split; [|split; [|split]].
  - exists page, (PNormal g). split; [done|]. split; [done|]. by exists o.
  - intros _ _. eauto.
  - eauto.
  - intros u' s' _ Hne. by apply Hu.
Qed.

(** The world changed at the unit allocator of one page that is in no pool. *)
Lemma pool_inv_world c pm page k w' :
  pool_inv c pm → pm !! page = Some k → (∀ g, page ∉ pool c g) →
  (∀ a, a ≠ alloc_of page → w_allocs w' !! a = w_allocs (c_world c) !! a) →
  pool_inv (set_world w' c) pm.
Proof.
  intros Hinv Hk Hno Ha. split; try apply Hinv. intros g p Hp Hp0.
  eapply usable_flags; [|by apply (pv_pool _ _ Hinv)]. apply Ha. rewrite /alloc_of.
  intros Heq. apply (Hno g). by replace page with p by lia.
Qed.

Definition attached (c : Ctx) (t : Z) : Prop :=
  ∃ tc, c_threads c !! t = Some tc ∧ m_attached tc = true.

(** All caches but one are ready. *)
Definition ready_but (c : Ctx) (t : Z) (g : UnitAllocGroup) : Prop :=
  ∀ t' g', ¬ (t' = t ∧ g' = g) → cache c t' g' ≠ 0 →
    fst <$> flags (c_world c) (cache c t' g') = Some 0.

(** A page that a thread keeps is in no pool and with no other thread. *)
Lemma cached_page_alone c pm t g :
  pool_inv c pm → cache c t g ≠ 0 →
  (∀ g', cache c t g ∉ pool c g') ∧ ∀ t' g', cache c t' g' = cache c t g → t' = t ∧ g' = g.
Proof.
  intros Hinv Hc. pose proof (pv_cache _ _ Hinv t g Hc) as Hk. split.
  - intros g' Hin. destruct (pv_pool _ _ Hinv g' _ Hin Hc) as [Hk' _].
    assert (g' = g) as -> by congruence. by apply (pv_apart _ _ Hinv t g).
  - intros t' g' Heq. pose proof (pv_cache _ _ Hinv t' g') as Hk'. rewrite Heq in Hk'.
    assert (g' = g) as -> by (specialize (Hk' Hc); congruence). split; [|done].
    symmetry. by apply (pv_private _ _ Hinv t t' g).
Qed.

Section thread_picking.
Context `{Build} `{!PageSource} `{!PageSourceLaws}.

Lemma pick_cached_spec c pm t g :
  ctx_inv c pm → caches_ready c →
  wp (if cache c t g =? 0 then mret 0
      else on_world (pick_unit_from_page_without_init (cache c t g)))
    (λ u c1, ctx_inv c1 pm ∧ c_threads c1 = c_threads c ∧ (∀ g', pool c1 g' = pool c g') ∧
      ((u = 0 ∧ ready_but c1 t g ∧ units_kept pm (c_world c) (c_world c1) ∧
          (cache c t g ≠ 0 → ¬ has_unit (c_world c) g (cache c t g))) ∨
       (u ≠ 0 ∧ caches_ready c1 ∧
          unit_got pm (c_world c) u (group_size g) pm (c_world c1)))) c.
Proof using.
  intros ((bl & Hh) & Hch & Hinv) Hrd. destruct (decide (cache c t g = 0)) as [Hc|Hc].
  { bool_test (cache c t g =? 0). wp_steps. split; [split_and!; eauto|]. split_and!; try done.
    left. split_and!; try done. intros t' g' _. apply Hrd. }
  bool_test (cache c t g =? 0). pose proof (pv_cache _ _ Hinv t g Hc) as Hk.
  destruct (cached_page_alone _ _ _ _ Hinv Hc) as [Hno Halone]. apply wp_on_world.
  assert (∀ w' : World, (∀ a, a ≠ alloc_of (cache c t g) → w_allocs w' !! a = w_allocs (c_world c) !! a) →
    ready_but (set_world w' c) t g) as Hbut.
  { intros w' Ha t' g' Hne Hc'. rewrite /flags Ha; [by apply Hrd|]. rewrite /alloc_of. intros Heq.
    apply Hne, Halone. change (cache (set_world w' c) t' g') with (cache c t' g') in Heq. lia. }
  eapply wp_mono; [eapply wp_and; [by apply (heap_pick _ bl pm _ g)|by eapply pick_nonempty]|].
  intros r w' [[Hh' Hr] Hne].
  assert (∀ a, a ≠ alloc_of (cache c t g) → w_allocs w' !! a = w_allocs (c_world c) !! a) as Ha
    by (by destruct Hr as [[_ (_ & _ & _ & ? & _)]|(o & _ & _ & (_ & _ & _ & _ & ?) & _)]).
  assert (w_chunk w' = w_chunk (c_world c) ∧ w_all_page_list w' = w_all_page_list (c_world c)) as [Hwc Hwl]
    by (by destruct Hr as [[_ (? & ? & _)]|(o & _ & _ & (? & ? & _) & _)]).
  split; [split_and!; [by exists bl|by rewrite /chain_inv /= Hwc Hwl|]|].
  { by eapply pool_inv_world. }
  split; [done|]. split; [done|].
  destruct Hr as [[-> (_ & _ & Hu & _)]|(o & Ho & -> & Htk & Hfl)].
  - left. split; [done|]. split; [by apply Hbut|]. split; [intros u s _; by rewrite /= Hu|].
    intros _ Hhas. by apply Hne.
  - right. split; [|split; [|by apply taken_got]].
    + by eapply unit_nonzero.
    + intros t' g' Hc'. change (cache (set_world w' c) t' g') with (cache c t' g') in *.
      destruct (decide (t' = t ∧ g' = g)) as [[-> ->]|Hd]; [rewrite /= Hfl; by apply Hrd|].
      by apply (Hbut w' Ha).
Qed.

Definition picked_unit (c : Ctx) (pm : gmap Z pkind) (g : UnitAllocGroup) (r : Z) (c' : Ctx) : Prop :=
  ∃ pm', ctx_inv c' pm' ∧ caches_ready c' ∧ pm ⊆ pm' ∧ (∀ t, attached c t → attached c' t) ∧
    ((r = 0 ∧ units_kept pm (c_world c) (c_world c')) ∨
     (∃ u, r = u + SIZEOF_UnitHead ∧
       unit_got pm (c_world c) u (group_size g) pm' (c_world c'))).

(** The granted page in the thread's cache. *)
Lemma granted_cached c pm t g tc page c1 :
  granted c pm g page c1 → ready_but c t g → c_threads c !! t = Some tc → m_attached tc = true →
  ∃ pm', ctx_inv (with_cache t g page tc c1) pm' ∧ pm ⊆ pm' ∧
    units_kept pm (c_world c) (c_world c1) ∧ caches_ready (with_cache t g page tc c1) ∧
    cache (with_cache t g page tc c1) t g = page ∧
    (page = 0 ∨ (length (pool c1 g) < length (pool c g))%nat ∨ has_unit (c_world c1) g page).
Proof using.
  intros (pm' & (Hh & Hch & Hinv) & Hsub & Hu & [Hth Hfl] & _ & Hp) Hrd Ht Hat.
  rewrite -Hth in Ht. exists pm'.
  pose proof (pv_threads _ _ Hinv _ _ Ht) as Hl.
  pose proof (λ t' g', cache_with t g page tc c1 t' g' Ht Hat Hl) as Hc.
  split; [split_and!; [done|done|]|].
  { apply pool_inv_cache; try done. destruct Hp as [?|([? _] & ? & _)]; [by left|by right]. }
  split; [done|]. split; [done|]. split; [|split].
  - intros t' g'. rewrite Hc. case_decide as E.
    + intros Hp0. destruct Hp as [?|([_ ?] & _)]; done.
    + assert (cache c1 t' g' = cache c t' g') as -> by (by rewrite /cache Hth).
      intros Hc0. rewrite /= Hfl //. by apply Hrd.
  - by rewrite Hc decide_True.
  - destruct Hp as [?|(_ & _ & ?)]; [by left|by right].
Qed.

Lemma picked_unit_trans c pm g r c1 pm1 c' :
  pm ⊆ pm1 → units_kept pm (c_world c) (c_world c1) → (∀ t, attached c t → attached c1 t) →
  picked_unit c1 pm1 g r c' → picked_unit c pm g r c'.
Proof using.
  intros Hsub Hk Hat (pm' & Hc & Hrd & Hsub' & Hat' & Hr). exists pm'.
  split; [done|]. split; [done|]. split; [by etrans|]. split; [auto|].
  destruct Hr as [[-> Hk']|(u & -> & Hg)].
  - left. split; [done|]. intros u s Hu. rewrite -(Hk u s Hu).
    eapply Hk'. by eapply is_unit_mono.
  - right. exists u. split; [done|]. by eapply unit_got_kept.
Qed.

Lemma attached_with t g page tc c t' :
  c_threads c !! t = Some tc → attached c t' → attached (with_cache t g page tc c) t'.
Proof using.
  intros Ht (tc' & Ht' & Ha). rewrite /attached /=. destruct (decide (t' = t)) as [->|Hne].
  - rewrite lookup_insert_eq. eexists. split; [done|]. by simplify_eq.
  - rewrite lookup_insert_ne //. eauto.
Qed.

(** The loop ends with a unit or with [nullptr]. *)
Lemma pick_unit_loop_spec fuel c pm t g :
  ctx_inv c pm → caches_ready c → attached c t →
  (length (pool c g) < fuel)%nat ∨ (cache c t g ≠ 0 ∧ has_unit (c_world c) g (cache c t g)) →
  wp (pick_unit_loop fuel t g) (picked_unit c pm g) c.
Proof.
  revert c pm. induction fuel as [|fuel IH]; intros c pm Hctx Hrd Hatt Hf;
    pose proof Hatt as (tc & Ht & Hat); pose proof (pv_threads _ _ (proj2 (proj2 Hctx)) _ _ Ht) as Hl;
    simpl; wp_steps; (eapply get_cached_run; [done|done|done|]);
    wp_steps; (eapply wp_mono; [by apply pick_cached_spec|]);
    intros u c1 (Hctx1 & Hth & Hpool & Hu).
  all: destruct Hu as [(-> & Hbut & Hk & Hnone)|(Hu0 & Hrd1 & Hgot)].
  all: try (bool_test (u =? 0); cbn [negb]; wp_steps; exists pm;
    assert (∀ t', attached c t' → attached c1 t') by (intros t'; by rewrite /attached Hth);
    split_and!; try done; right; exists u; done).
  { destruct Hf as [?|[? ?]]; [lia|]. by destruct Hnone. }
  rewrite /=. wp_steps. eapply wp_mono; [by apply source_page_spec|]. intros page c2 Hgr. wp_steps.
  assert (c_threads c2 = c_threads c1) as Hth2 by (by destruct Hgr as (? & _ & _ & _ & [? _] & _)).
  rewrite -Hth in Ht. assert (c_threads c2 !! t = Some tc) as Ht2 by (by rewrite Hth2).
  eapply set_cached_run; [exact Ht2|].
  destruct (granted_cached _ _ _ _ _ _ _ Hgr Hbut Ht Hat) as (pm' & Hctx' & Hsub & Hk2 & Hrd' & Hc' & Hp).
  assert (∀ t', attached c t' → attached (with_cache t g page tc c2) t') as Hatt'.
  { intros t' Ha. apply attached_with; [done|]. by rewrite /attached Hth2 Hth. }
  assert (units_kept pm (c_world c) (c_world c2)) as Hk3.
  { intros v s Hv. by rewrite (Hk2 v s Hv) (Hk v s Hv). }
  destruct (decide (page = 0)) as [->|Hp0].
  - wp_steps. exists pm'. split_and!; try done. by left.
  - bool_test (page =? 0). eapply wp_mono; [apply (IH _ pm'); try done; [by apply Hatt'|]|].
    + rewrite Hc'. destruct Hp as [?|[Hlt|Hhas]]; [done| |by right].
      left. change (pool (with_cache t g page tc c2) g) with (pool c2 g).
      rewrite Hpool in Hlt. destruct Hf as [Hf|[? ?]]; [lia|]. by destruct Hnone.
    + intros r c' Hpk. exact (picked_unit_trans _ _ _ _ (with_cache t g page tc c2) _ _ Hsub Hk3 Hatt' Hpk).
Qed.
End thread_picking.

(** ** Removing marked pages *)

Definition marked (w : World) (page : Z) : Prop := snd <$> flags w page = Some true.

#[export] Instance marked_dec w page : Decision (marked w page).
Proof. rewrite /marked. apply _. Defined.

(** What the loop does to each page of a vector. *)
Definition swept_list (w : World) (pages : list Z) (w' : World) (pages' : list Z) : Prop :=
  ∀ p, p ∈ pages → p ≠ 0 →
    (marked w p → (p ∉ pages') ∧ flags w' p = Some (1, false)) ∧
    (¬ marked w p → p ∈ pages' ∧ flags w' p = flags w p).

Lemma flags_retired w w' dr p :
  retired w w' dr → p ∉ dr → flags w' p = flags w p.
Proof.
  intros (_ & _ & _ & Ha) Hp. rewrite /flags Ha //. intros q Hq _ Heq. apply Hp.
  rewrite /alloc_of in Heq. by replace p with q by lia.
Qed.

Lemma retired_snoc w w1 dr page p :
  page ≠ 0 → retired w w1 dr →
  retired w (upd_allocs (<[alloc_of page := p]>) w1) (page :: dr).
Proof.
  intros Hp0 (? & ? & ? & Ha). split_and!; try done. intros a Hn.
  rewrite /= lookup_insert_ne; [|apply not_eq_sym, Hn; [constructor|done]].
  apply Ha. intros q Hq. apply Hn. by constructor.
Qed.

(** The pages behind one that stays in the vector, or whose place is cleared. *)
Lemma swept_list_tail w pages w1 pages' w2 q x :
  swept_list w pages w1 pages' → q ∈ pages → q ≠ 0 → q ≠ x → flags w2 q = flags w1 q →
  (marked w q → (q ∉ x :: pages') ∧ flags w2 q = Some (1, false)) ∧
  (¬ marked w q → q ∈ x :: pages' ∧ flags w2 q = flags w q).
Proof.
  intros Hsw Hq Hq0 Hqx ->. destruct (Hsw q Hq Hq0) as [H1 H2].
  split; [intros [Hn Hf]%H1|intros [Hi Hf]%H2]; (split; [|done]).
  - by apply not_elem_of_cons.
  - by constructor.
Qed.

(** The step that takes a marked page out. *)
Lemma remove_marked_hit w w1 page pages pages' p :
  swept_list w pages w1 pages' → marked w page →
  (∀ q, q ∈ pages → q ≠ 0 → q ≠ page) → page ∉ pages' →
  swept_list w (page :: pages)
    (upd_allocs (<[alloc_of page := set_run_out 1 (set_mark_run_out false p)]>) w1) (0 :: pages').
Proof.
  intros Hsw Hm Hne Hpp' q [->|Hq]%elem_of_cons Hq0.
  - split; [|done]. intros _. split; [set_solver|]. by rewrite /flags /= lookup_insert_eq.
  - eapply swept_list_tail; try done. pose proof (Hne q Hq Hq0).
    rewrite /flags /= lookup_insert_ne //. rewrite /alloc_of. lia.
Qed.

Lemma remove_marked_spec w bl pm g pages :
  heap_inv w bl pm →
  (∀ p, p ∈ pages → p ≠ 0 → pm !! p = Some (PNormal g)) →
  NoDup (filter (λ p, p ≠ 0) pages) →
  wp (remove_marked pages) (λ pages' w', heap_inv w' bl pm ∧ swept_list w pages w' pages' ∧
    (∀ p, p ∈ pages' → p ≠ 0 → p ∈ pages) ∧ NoDup (filter (λ p, p ≠ 0) pages') ∧
    ∃ dropped, retired w w' dropped ∧ ∀ p, p ∈ dropped → p ≠ 0 → p ∈ pages ∧ p ∉ pages') w.
Proof.
  revert w. induction pages as [|page pages IH]; intros w Hinv Hpg Hnd; simpl.
  { wp_steps. split; [done|]. split; [by intros p ?%elem_of_nil|]. split; [done|].
    split; [done|]. exists []. split; [apply retired_refl|]. by intros p ?%elem_of_nil. }
  assert (∀ p, p ∈ pages → p ≠ 0 → p ≠ page) as Hne.
  { intros p Hp Hp0 ->. apply (nodup_nonzero [page] pages page Hnd Hp0); [constructor|done]. }
  wp_steps. eapply wp_mono; [apply IH; [done| |by apply (nodup_nonzero_r [page])]|].
  { intros p Hp. apply Hpg. by constructor. }
  intros pages' w1 (Hinv1 & Hsw & Hsub & Hnd' & dr & Hret & Hdr).
  destruct (decide (page = 0)) as [->|Hp0].
  { wp_steps. split; [done|]. split.
    { intros p [->|Hp]%elem_of_cons Hp0; [done|]. by eapply swept_list_tail. }
    split; [intros p [->|Hp]%elem_of_cons Hp0; [done|]; constructor; by apply Hsub|]. split; [by rewrite filter_cons_False; [|intros []]|].
    exists dr. split; [done|]. intros p Hp Hq0. destruct (Hdr p Hp Hq0).
    split; [by constructor|by apply not_elem_of_cons]. }
  bool_test (page =? 0). pose proof (Hpg page (list_elem_of_here _ _) Hp0) as Hk.
  destruct (normal_alloc _ _ _ _ _ Hinv1 Hk) as (p & Hp & _). wp_steps.
  assert (page ∉ dr) as Hpdr.
  { intros Hin. destruct (Hdr page Hin Hp0) as [Hin' _]. by apply (Hne page Hin' Hp0). }
  assert (page ∉ pages') as Hpp'.
  { intros Hin. by apply (Hne page (Hsub page Hin Hp0) Hp0). }
  assert (flags w page = Some (m_run_out p, m_mark_as_run_out_in_global_pool p)) as Hfl.
  { rewrite -(flags_retired _ _ _ _ Hret Hpdr) /flags Hp //. }
  eapply wp_load_alloc; [exact Hp|]. destruct (m_mark_as_run_out_in_global_pool p) eqn:Em.
  - apply wp_assoc, wp_bind. eapply wp_retire; [exact Hp|]. wp_steps.
    split; [by eapply heap_flags|]. split; [|split; [|split]].
    + eapply remove_marked_hit; eauto. by rewrite /marked Hfl.
    + intros q [->|Hq]%elem_of_cons Hq0; [done|]. constructor. by apply Hsub.
    + by rewrite filter_cons_False; [|intros []].
    + exists (page :: dr). split; [by apply retired_snoc|].
      intros q [->|Hq]%elem_of_cons Hq0.
      * split; [constructor|by apply not_elem_of_cons].
      * destruct (Hdr q Hq Hq0). split; [by constructor|by apply not_elem_of_cons].
  - wp_steps. split; [done|]. split; [|split; [|split]].
    + intros q [->|Hq]%elem_of_cons Hq0; [|by eapply swept_list_tail; eauto].
      split; [by rewrite /marked Hfl|]. intros _. split; [constructor|].
      by rewrite Hfl /flags Hp /= Em.
    + intros q [->|Hq]%elem_of_cons Hq0; constructor. by apply Hsub.
    + rewrite filter_cons_True //. constructor; [|done]. by rewrite list_elem_of_filter; intros [].
    + exists dr. split; [done|]. intros q Hq Hq0. destruct (Hdr q Hq Hq0) as [Hq' ?].
      split; [by constructor|]. apply not_elem_of_cons. by split; [apply Hne|].
Qed.

Lemma wp_for_groups {S} gs dn (body : UnitAllocGroup → M S unit)
    (I : list UnitAllocGroup → S → Prop) s :
  NoDup gs → (∀ g, g ∈ gs → g ∉ dn) →
  (∀ dn g s, g ∉ dn → I dn s → wp (body g) (λ _ s', I (g :: dn) s') s) →
  I dn s → wp (for_groups gs body) (λ _ s', I (rev_append gs dn) s') s.
Proof.
  revert dn s. induction gs as [|g gs IH]; intros dn s Hnd Hdn Hbody HI; simpl; [by wp_steps|].
  apply NoDup_cons in Hnd as [Hg Hnd]. wp_steps.
  eapply wp_mono; [apply Hbody; [apply Hdn; constructor|done]|]. intros [] s' HI'.
  apply IH; try done. intros g' Hg' [->|Hin]%elem_of_cons; [done|].
  apply (Hdn g'); [by constructor|done].
Qed.

Lemma all_groups_nodup : NoDup all_groups.
Proof. rewrite /all_groups. repeat constructor; set_solver. Qed.

Lemma all_groups_done g : g ∈ rev_append all_groups [].
Proof. destruct g; set_solver. Qed.

(** Removing the marked pages of one group. *)
Lemma remove_group_spec c pm g :
  ctx_inv c pm → caches_ready c →
  wp (with_list g (λ pages, pages' ← remove_marked pages; mret (tt, pages'))) (λ _ c',
    ctx_inv c' pm ∧ caches_ready c' ∧ same_heap (c_world c) (c_world c') ∧
    c_threads c' = c_threads c ∧
    swept_list (c_world c) (pool c g) (c_world c') (pool c' g) ∧
    (∀ g', g' ≠ g → pool c' g' = pool c g') ∧
    (∀ g' p, g' ≠ g → pm !! p = Some (PNormal g') → p ≠ 0 →
       flags (c_world c') p = flags (c_world c) p)) c.
Proof.
  intros ((bl & Hh) & Hch & Hinv) Hrd. apply wp_with_list; [by eapply pool_inv_lists|]. wp_steps.
  eapply wp_mono; [apply (remove_marked_spec _ bl pm g); [done| |apply Hinv]|].
  { intros p Hp Hp0. by apply (pv_pool _ _ Hinv). }
  intros pages' w' (Hh' & Hsw & Hsub & Hnd & dr & Hret & Hdr). wp_steps. simpl.
  assert (∀ g', pool (with_pool g pages' (set_world w' c)) g' =
    if decide (g' = g) then pages' else pool c g') as Hpool
    by (intros g'; apply (pool_with g pages' (set_world w' c)), (pv_lists _ _ Hinv)).
  assert (∀ p k, pm !! p = Some k → p ≠ 0 → p ∉ pool c g → flags w' p = flags (c_world c) p) as Hfl.
  { intros p k Hk Hp0 Hp. eapply flags_retired; [exact Hret|]. intros Hin.
    by destruct (Hdr p Hin Hp0). }
  pose proof Hret as (Hwc & Hwl & Hwu & _).
  split; [split_and!; [by exists bl|by rewrite /chain_inv /= Hwc Hwl|]|].
  { by eapply pool_inv_shrink. }
  split; [|split; [by split_and!|split; [done|split; [by rewrite Hpool decide_True|split]]]].
  - intros t g' Hc. change (cache (with_pool g pages' (set_world w' c)) t g') with (cache c t g') in *.
    rewrite /= (Hfl _ _ (pv_cache _ _ Hinv t g' Hc) Hc); [by apply Hrd|].
    by apply (cached_page_alone _ _ _ _ Hinv Hc).
  - intros g' Hne. by rewrite Hpool decide_False.
  - intros g' p Hne Hk Hp0. rewrite /= (Hfl _ _ Hk Hp0) //. intros Hin. destruct (pv_pool _ _ Hinv g p Hin Hp0) as [Hk' _]. apply Hne. congruence.
Qed.

(** The state in which the groups [dn] have been cleaned. *)
Definition cleaned (c : Ctx) (pm : gmap Z pkind) (dn : list UnitAllocGroup) (c' : Ctx) : Prop :=
  ctx_inv c' pm ∧ caches_ready c' ∧ same_heap (c_world c) (c_world c') ∧
  c_threads c' = c_threads c ∧
  (∀ g, g ∈ dn → swept_list (c_world c) (pool c g) (c_world c') (pool c' g)) ∧
  (∀ g, g ∉ dn → pool c' g = pool c g ∧
     ∀ p, pm !! p = Some (PNormal g) → p ≠ 0 → flags (c_world c') p = flags (c_world c) p).

Lemma swept_list_flags w pages w1 pages' w0 w' :
  (∀ p, p ∈ pages → p ≠ 0 → flags w1 p = flags w p ∧ flags w' p = flags w0 p) →
  swept_list w pages w0 pages' → swept_list w1 pages w' pages'.
Proof.
  intros Hf Hsw p Hp Hp0. destruct (Hsw p Hp Hp0) as [H1 H2], (Hf p Hp Hp0) as [E1 E2].
  rewrite /marked E1 E2. by split.
Qed.

Lemma cleaned_step c pm dn g c1 :
  pool_inv c pm → g ∉ dn → cleaned c pm dn c1 →
  wp (with_list g (λ pages, pages' ← remove_marked pages; mret (tt, pages')))
    (λ _ c', cleaned c pm (g :: dn) c') c1.
Proof.
  intros Hinv Hg (Hctx & Hrd & (E1 & E2 & E3) & Hth & Hdone & Hrest).
  eapply wp_mono; [by apply remove_group_spec|].
  intros _ c2 (Hctx2 & Hrd2 & (F1 & F2 & F3) & Hth2 & Hsw & Hpool & Hfl).
  destruct (Hrest g Hg) as [Hpg Hfg]. rewrite Hpg in Hsw.
  split; [done|]. split; [done|]. split; [split_and!; congruence|]. split; [congruence|]. split.
  - intros g' [->|Hg']%elem_of_cons.
    + eapply swept_list_flags; [|exact Hsw]. intros p Hp Hp0.
      destruct (pv_pool _ _ Hinv g p Hp Hp0) as [Hk _]. by rewrite Hfg.
    + assert (g' ≠ g) as Hne by (by intros ->). rewrite Hpool //.
      eapply swept_list_flags; [|by apply Hdone]. intros p Hp Hp0.
      destruct (pv_pool _ _ Hinv g' p Hp Hp0) as [Hk _]. split; [done|]. by apply (Hfl g').
  - intros g' [Hne Hg']%not_elem_of_cons. destruct (Hrest g' Hg') as [<- Hf].
    split; [by apply Hpool|]. intros p Hk Hp0. by rewrite (Hfl g' p Hne Hk Hp0) Hf.
Qed.

Lemma remove_marked_run_out_pages_spec c pm :
  ctx_inv c pm → caches_ready c →
  wp remove_marked_run_out_pages (λ _ c', ctx_inv c' pm ∧ caches_ready c' ∧
    same_heap (c_world c) (c_world c') ∧ c_threads c' = c_threads c ∧
    ∀ g, swept_list (c_world c) (pool c g) (c_world c') (pool c' g)) c.
Proof.
  intros Hctx Hrd. eapply wp_mono.
  - apply (wp_for_groups all_groups [] _ (cleaned c pm)).
    + apply all_groups_nodup.
    + by intros g _ ?%elem_of_nil.
    + intros dn g c1 Hg Hcl. apply cleaned_step; [apply Hctx|done|done].
    + split; [done|]. split; [done|]. split; [done|]. split; [done|].
      split; [by intros g ?%elem_of_nil|done].
  - intros _ c' (? & ? & ? & ? & Hsw & _). split_and!; try done.
    intros g. apply Hsw, all_groups_done.
Qed.

(** ** Detaching a thread *)

(** The pool after the thread has returned its page. *)
Definition returned (c : Ctx) (t : Z) (g : UnitAllocGroup) : list Z :=
  if decide (cache c t g = 0) then pool c g else cache c t g :: pool c g.

Lemma lists_ok_with g pages w c : lists_ok c → lists_ok (with_pool g pages (set_world w c)).
Proof.
  intros [Hl Hs]. split; [by rewrite /= length_wr|]. intros g' fl. simpl.
  pose proof (group_index_ge g). rewrite rd_wr; [|lia].
  case_decide; [by intros [= <-]|apply Hs].
Qed.

Lemma decided_cons {A} (g g' : UnitAllocGroup) dn (x y : A) :
  g' ≠ g → (if decide (g' ∈ dn) then x else y) = if decide (g' ∈ g :: dn) then x else y.
Proof. intros Hne. apply decide_ext. rewrite elem_of_cons. naive_solver. Qed.

Lemma return_loop_spec c t tc :
  lists_ok c → c_threads c !! t = Some tc → m_attached tc = true →
  length (m_cached_pages tc) = Z.to_nat MAX_GROUP →
  wp (for_groups all_groups (λ g,
      page ← get_cached t g; if page =? 0 then mret tt else return_page page g))
    (λ _ c', lists_ok c' ∧ c_world c' = c_world c ∧ c_threads c' = c_threads c ∧
      ∀ g, pool c' g = returned c t g) c.
Proof.
  intros Hok Ht Hat Hl. eapply wp_mono.
  - apply (wp_for_groups all_groups [] _ (λ dn c', lists_ok c' ∧ c_world c' = c_world c ∧
      c_threads c' = c_threads c ∧
      ∀ g, pool c' g = if decide (g ∈ dn) then returned c t g else pool c g)).
    + apply all_groups_nodup.
    + by intros g _ ?%elem_of_nil.
    + intros dn g c1 Hg (Hok1 & Hw & Hth & Hp). wp_steps.
      assert (cache c1 t g = cache c t g) as Ec by (by rewrite /cache Hth).
      eapply get_cached_run; [by rewrite Hth|done|done|]. rewrite Ec.
      pose proof (Hp g) as Hpg. rewrite decide_False // in Hpg.
      destruct (decide (cache c t g = 0)) as [Hc|Hc].
      * bool_test (cache c t g =? 0). wp_steps. split_and!; try done. intros g'.
        destruct (decide (g' = g)) as [->|Hne].
        { rewrite Hpg decide_True; [|constructor]. by rewrite /returned decide_True. }
        rewrite Hp. by apply decided_cons.
      * bool_test (cache c t g =? 0). apply wp_with_list; [done|]. wp_steps.
        split; [by apply lists_ok_with|]. split; [done|]. split; [done|]. intros g'.
        rewrite (pool_with g _ (set_world (c_world c1) c1)); [|apply Hok1].
        destruct (decide (g' = g)) as [->|Hne].
        { rewrite Hpg (decide_True (P := g ∈ g :: dn)); [|constructor].
          by rewrite /returned decide_False. }
        change (pool (set_world (c_world c1) c1) g') with (pool c1 g').
        rewrite Hp. by apply decided_cons.
    + by split_and!.
  - intros _ c' (? & ? & ? & Hp). split_and!; try done. intros g.
    rewrite Hp decide_True //. apply all_groups_done.
Qed.

(** The caches after the thread [t] is detached. *)
Lemma cache_detached t tc c t' g :
  cache (upd_threads (<[t := MkThreadPageCollection false (m_cached_pages tc)]>) c) t' g =
    if decide (t' = t) then 0 else cache c t' g.
Proof.
  rewrite /cache /=. case_decide as E; [subst; by rewrite lookup_insert_eq|].
  by rewrite lookup_insert_ne.
Qed.

Lemma returned_elem c t g p : p ∈ returned c t g → p ∈ pool c g ∨ (p = cache c t g ∧ p ≠ 0).
Proof.
  rewrite /returned. case_decide; [by left|]. intros [->|?]%elem_of_cons; [by right|by left].
Qed.

Lemma pool_inv_detach c pm t tc c1 :
  pool_inv c pm → caches_ready c → c_threads c !! t = Some tc →
  lists_ok c1 → c_world c1 = c_world c → c_threads c1 = c_threads c →
  (∀ g, pool c1 g = returned c t g) →
  pool_inv (upd_threads (<[t := MkThreadPageCollection false (m_cached_pages tc)]>) c1) pm.
Proof.
  intros Hinv Hrd Ht [Hl Hs] Hw Hth Hp.
  assert (∀ t' g, cache (upd_threads (<[t := MkThreadPageCollection false (m_cached_pages tc)]>) c1) t' g
    = if decide (t' = t) then 0 else cache c t' g) as Hc.
  { intros t' g. rewrite cache_detached. case_decide; [done|]. by rewrite /cache Hth. }
  split; try done.
  - intros t' tc'. simpl. rewrite Hth lookup_insert_Some. intros [[<- <-]|[_ Ht']].
    + exact (pv_threads _ _ Hinv t tc Ht).
    + exact (pv_threads _ _ Hinv t' tc' Ht').
  - intros g p Hin Hp0. simpl. rewrite Hw.
    change (p ∈ pool c1 g) in Hin. rewrite Hp in Hin.
    apply returned_elem in Hin as [Hin|[-> _]]; [by apply (pv_pool _ _ Hinv)|].
    split; [by apply (pv_cache _ _ Hinv)|by apply Hrd].
  - intros t' g. rewrite Hc. case_decide; [done|]. apply (pv_cache _ _ Hinv).
  - intros g. change (NoDup (filter (λ p, p ≠ 0) (pool c1 g))). rewrite Hp /returned.
    case_decide as E; [apply Hinv|]. rewrite filter_cons_True //. constructor; [|apply Hinv].
    rewrite list_elem_of_filter. intros [_ Hin]. by apply (pv_apart _ _ Hinv t g).
  - intros t' g. rewrite Hc. case_decide as E; [done|]. intros Hc0.
    change (cache c t' g ∉ pool c1 g). rewrite Hp. intros [Hin|[Heq _]]%returned_elem.
    + by apply (pv_apart _ _ Hinv t' g).
    + apply E. by apply (pv_private _ _ Hinv t' t g).
  - intros t1 t2 g. rewrite !Hc. repeat case_decide; subst; try done.
    apply (pv_private _ _ Hinv).
Qed.

Lemma shutdown_manually_spec c pm t :
  ctx_inv c pm → caches_ready c → attached c t →
  wp (shutdown_manually t) (λ _ c', ctx_inv c' pm ∧ caches_ready c' ∧ c_world c' = c_world c ∧
    (∀ g, pool c' g = returned c t g) ∧
    (∀ t' g, cache c' t' g = if decide (t' = t) then 0 else cache c t' g)) c.
Proof.
  intros (Hh & Hch & Hinv) Hrd (tc & Ht & Hat). pose proof (pv_threads _ _ Hinv t tc Ht) as Hl.
  rewrite /shutdown_manually /load_thread. wp_steps. eapply wp_of_option; [exact Ht|].
  rewrite Hat. wp_steps. eapply wp_mono; [eapply return_loop_spec; [by eapply pool_inv_lists|done..]|].
  intros _ c1 (Hok & Hw & Hth & Hp). wp_steps.
  assert (∀ t' g, cache (upd_threads (<[t := MkThreadPageCollection false (m_cached_pages tc)]>) c1) t' g
    = if decide (t' = t) then 0 else cache c t' g) as Hc.
  { intros t' g. rewrite cache_detached. case_decide; [done|]. by rewrite /cache Hth. }
  split; [split_and!; [by rewrite /= Hw|by rewrite /= Hw|by eapply pool_inv_detach]|].
  split; [|split_and!; done].
  intros t' g. rewrite Hc. case_decide; [done|]. rewrite /= Hw. apply Hrd.
Qed.

(** The collection keeps its pages when it is detached. *)
Lemma shutdown_stale c pm t tc :
  ctx_inv c pm → c_threads c !! t = Some tc → m_attached tc = true →
  wp (shutdown_manually t) (λ _ c',
    c_threads c' = <[t := MkThreadPageCollection false (m_cached_pages tc)]> (c_threads c) ∧
    ∀ g, pool c' g = returned c t g) c.
Proof.
  intros (_ & _ & Hinv) Ht Hat. pose proof (pv_threads _ _ Hinv t tc Ht) as Hl.
  rewrite /shutdown_manually /load_thread. wp_steps. eapply wp_of_option; [exact Ht|].
  rewrite Hat. wp_steps. eapply wp_mono; [eapply return_loop_spec; [by eapply pool_inv_lists|done..]|].
  intros _ c1 (Hok & Hw & Hth & Hp). wp_steps. split; [by rewrite /= Hth|done].
Qed.

Lemma eval_group_total size :
  0 ≤ size ≤ MAX_IN_PAGE_UNIT_SIZE →
  ∃ g, eval_group_by_small_unit_size size = Some g ∧ size ≤ group_size g.
Proof.
  intros Hs. destruct (least_group_total size) as [g Hg]; [lia|]. exists g.
  rewrite eval_group_table //. split; [done|]. by eapply least_group_fits.
Qed.

Lemma pick_unit_in_page_spec `{Build} `{!PageSource} `{!PageSourceLaws} c pm t size :
  ctx_inv c pm → caches_ready c → attached c t → 0 ≤ size ≤ MAX_IN_PAGE_UNIT_SIZE →
  wp (pick_unit_in_page t size) (λ r c', ∃ g, size ≤ group_size g ∧ picked_unit c pm g r c') c.
Proof.
  intros Hctx Hrd Hat Hs. pose proof Hat as (tc & Ht & Hat').
  destruct (eval_group_total size Hs) as (g & Hg & Hfit).
  rewrite /pick_unit_in_page /load_thread. wp_steps. eapply wp_of_option; [exact Ht|].
  wp_steps. apply wp_assert; [rewrite Hat'; simpl; lia|]. wp_steps.
  eapply wp_of_option; [exact Hg|]. wp_steps.
  eapply wp_mono; [apply (pick_unit_loop_spec _ c pm); try done; left; lia|]. eauto.
Qed.
