(* ===== verification/PoolSpec.v ===== *)
(** * Properties of the page pools *)

From S2P Require Import Prelude SizeClass Locks Chunk Blocks ChunkProof ChunkSpec.
From S2P Require Import Heap PageUnit HeapInv Pools PoolProof.
Open Scope Z_scope.

(** ** A concrete context, for the witnesses *)

Module PoolDemo.
Import ChunkSpec.Demo.

(** The chunk of four free pages, empty pools, and one attached thread. *)
Definition c0 : Ctx :=
  MkCtx (MkWorld s0 ∅ ∅ 0) (replicate (Z.to_nat MAX_GROUP) (MkFreePageList false []))
    {[1 := ThreadPageCollection_ctor true]}.

Lemma pool_c0 g : pool c0 g = [].
Proof. by destruct g. Qed.

Lemma cache_c0 t g : cache c0 t g = 0.
Proof.
  rewrite /cache /=. destruct (decide (t = 1)) as [->|Hne].
  - rewrite lookup_singleton_eq. by destruct g.
  - by rewrite lookup_singleton_ne.
Qed.

Lemma ctx0 : ctx_inv c0 ∅.
Proof.
  split_and!.
  - exists [Blk 0 4 KFree]. split; [exact inv0|done|]. by intros b [->|?%elem_of_nil]%elem_of_cons.
  - exists []. split; [done|]. split; [constructor|]. set_solver.
  - split; simpl; try done.
    + intros g fl. by destruct g; intros [= <-].
    + intros t tc [_ <-]%lookup_singleton_Some. done.
    + intros g p. rewrite pool_c0. by intros ?%elem_of_nil.
    + intros t g. by rewrite cache_c0.
    + intros g. rewrite pool_c0. constructor.
    + intros t g. by rewrite cache_c0.
    + intros t t' g. by rewrite cache_c0.
Qed.

Lemma ready0 : caches_ready c0.
Proof. intros t g. by rewrite cache_c0. Qed.

Lemma attached0 : attached c0 1.
Proof. eexists. split; reflexivity. Qed.

(** The thread has allocated a unit of 16000 bytes. *)
Definition c1 : Ctx := match pick_unit_in_page 1 16000 c0 with Ok (_, c) => c | Fail _ => c0 end.

Lemma run_c1 : pick_unit_in_page 1 16000 c0 = Ok (65536 + 40, c1).
Proof. vm_compute. reflexivity. Qed.

Lemma ctx1 : ∃ pm, ctx_inv c1 pm ∧ caches_ready c1 ∧ attached c1 1.
Proof.
  pose proof (global_pages_laws commits_always) as Hl.
  pose proof (wp_det _ _ _ _ _
    (pick_unit_in_page_spec c0 ∅ 1 16000 ctx0 ready0 attached0 ltac:(vm_compute; split; congruence)) run_c1)
    as (g & _ & pm' & ? & ? & _ & Ha & _).
  exists pm'. split_and!; try done. apply Ha, attached0.
Qed.

Lemma cache_c1 : cache c1 1 MIDIUM_16360 = 65536.
Proof. vm_compute. reflexivity. Qed.
End PoolDemo.

(** ** Properties *)

Section pool_properties.
Context `{Build}.

(** C25: a thread's allocation of a small unit, whatever source keeps the promise of
    [PageSourceLaws].  On a well-formed heap it ends without a fault: with [nullptr], and then no unit has
    changed, or with the payload address of a unit that holds the size and that
    nobody had (it is new or was released before); the unit is now pending, no other
    unit has changed, the old units are still units, and the heap stays well formed,
    so the new unit overlaps none of them. *)
Theorem pick_unit_in_page_fresh `{!PageSource} `{!PageSourceLaws} c pm t size
    (Hctx : ctx_inv c pm) (Hready : caches_ready c)
    (Ht : attached c t) (Hsize : 0 ≤ size ≤ MAX_IN_PAGE_UNIT_SIZE) :
  wp (pick_unit_in_page t size) (λ r c', ∃ pm', ctx_inv c' pm' ∧ caches_ready c' ∧ pm ⊆ pm' ∧
    ((r = 0 ∧ ∀ u s, is_unit pm u s → w_units (c_world c') !! u = w_units (c_world c) !! u) ∨
     (∃ u s, r = u + SIZEOF_UnitHead ∧ size ≤ s ∧ is_unit pm' u s ∧ ¬ in_use pm (c_world c) u ∧
        life_of (c_world c') u = Some PENDING ∧
        (∀ u' s', is_unit pm u' s' → u' ≠ u →
           w_units (c_world c') !! u' = w_units (c_world c) !! u' ∧
           (u + SIZEOF_UnitHead + s ≤ u' ∨ u' + SIZEOF_UnitHead + s' ≤ u))))) c.
Proof.
  eapply wp_mono; [by apply pick_unit_in_page_spec|].
  intros r c' (g & Hfit & pm' & Hc' & Hr' & Hsub & _ & Hr). exists pm'. split_and!; try done.
  destruct Hr as [[-> Hk]|(u & -> & Hu & Hrel & (h & Hh & Hl) & Hoth)]; [by left|right].
  exists u, (group_size g). split_and!; try done.
  - intros (s0 & Hs0 & h0 & Hh0 & Hl0). destruct (Hrel s0 Hs0) as (h1 & ? & ?). by simplify_eq.
  - by rewrite /life_of Hh /= Hl.
  - intros u' s' Hu' Hne. split; [by eapply Hoth|]. destruct Hc' as ((bl & Hheap) & _).
    apply (units_apart _ _ _ Hheap); [done|by eapply is_unit_mono|done].
Qed.

(** Cleaning the pools after a sweep takes out exactly the marked pages: a page of a
    pool that is marked leaves it and becomes run out and unmarked, any other page stays
    with its flags; no unit, no header and no thread's page changes. *)
Theorem remove_marked_exact c pm (Hctx : ctx_inv c pm) (Hready : caches_ready c) :
  wp remove_marked_run_out_pages (λ _ c', ctx_inv c' pm ∧ caches_ready c' ∧
    w_units (c_world c') = w_units (c_world c) ∧ c_threads c' = c_threads c ∧
    ∀ g p, p ∈ pool c g → p ≠ 0 →
      (p ∈ pool c' g ↔ ¬ marked (c_world c) p) ∧
      flags (c_world c') p = if decide (marked (c_world c) p) then Some (1, false)
                             else flags (c_world c) p) c.
Proof.
  eapply wp_mono; [by apply remove_marked_run_out_pages_spec|].
  intros _ c' (? & ? & (_ & _ & ?) & ? & Hsw). split_and!; try done. intros g p Hp Hp0.
  destruct (Hsw g p Hp Hp0) as [Hm Hn]. case_decide as E.
  - destruct (Hm E). by split.
  - destruct (Hn E). by split.
Qed.

(** A thread that ends gives its pages back: each page it kept becomes the next page
    of the pool of its group, so no page is lost or shared. *)
Theorem shutdown_returns_pages c pm t
    (Hctx : ctx_inv c pm) (Hready : caches_ready c) (Ht : attached c t) :
  wp (shutdown_manually t) (λ _ c', ctx_inv c' pm ∧ caches_ready c' ∧ c_world c' = c_world c ∧
    (∀ g, cache c' t g = 0) ∧
    (∀ g, pool c' g = if decide (cache c t g = 0) then pool c g else cache c t g :: pool c g)) c.
Proof.
  eapply wp_mono; [by apply shutdown_manually_spec|].
  intros _ c' (? & ? & ? & Hp & Hc). split_and!; try done. intros g. by rewrite Hc decide_True.
Qed.

(** A thread that is detached and attached again still has its old pages: they are
    not cleared, so a page the thread kept is then both its own and in the pool. *)
Theorem reattach_shares_page c pm t g
    (Hctx : ctx_inv c pm) (Hready : caches_ready c) (Ht : attached c t) (Hc : cache c t g ≠ 0) :
  wp (shutdown_manually t ;; init_manually t) (λ _ c',
    cache c' t g = cache c t g ∧ cache c t g ∈ pool c' g) c.
Proof.
  pose proof Ht as (tc & Htc & Hat). wp_steps. eapply wp_mono; [by eapply shutdown_stale|].
  intros _ c1 [Ht1 Hp]. rewrite /init_manually /load_thread. wp_steps.
  eapply wp_of_option; [by rewrite Ht1 lookup_insert_eq|]. wp_steps. apply wp_assert; [done|]. wp_steps. split.
  - by rewrite /cache /= lookup_insert_eq Htc Hat.
  - change (cache c t g ∈ pool c1 g). rewrite Hp /returned decide_False //. constructor.
Qed.
End pool_properties.

(** ** Witnesses *)

Section witnesses.
Import ChunkSpec.Demo PoolDemo.

Lemma pick_unit_in_page_fresh_witness :
  wp (pick_unit_in_page 1 16000) (λ r c', ∃ pm', ctx_inv c' pm' ∧ r = 65536 + 40) c0.
Proof.
  pose proof (global_pages_laws commits_always) as Hlaws.
  pose proof (pick_unit_in_page_fresh c0 ∅ 1 16000 ctx0 ready0 attached0
    ltac:(vm_compute; split; congruence)) as Hw.
  unfold wp in *. rewrite run_c1 in Hw |- *. destruct Hw as (pm' & Hc & _).
  exists pm'. split; [exact Hc|reflexivity].
Defined.

Lemma remove_marked_exact_witness :
  wp remove_marked_run_out_pages (λ _ c', c_threads c' = c_threads c0) c0.
Proof.
  eapply wp_mono; [exact (remove_marked_exact c0 ∅ ctx0 ready0)|].
  intros _ c' (_ & _ & _ & Ht & _). exact Ht.
Defined.

Lemma shutdown_returns_pages_witness :
  wp (shutdown_manually 1) (λ _ c', pool c' MIDIUM_16360 = [65536]) c1.
Proof.
  destruct ctx1 as (pm & Hc & Hr & Ha).
  eapply wp_mono; [exact (shutdown_returns_pages c1 pm 1 Hc Hr Ha)|].
  intros _ c' (_ & _ & _ & _ & Hp). rewrite Hp. vm_compute. reflexivity.
Defined.

Lemma reattach_shares_page_witness :
  wp (shutdown_manually 1 ;; init_manually 1) (λ _ c',
    cache c' 1 MIDIUM_16360 = 65536 ∧ (65536 : Z) ∈ pool c' MIDIUM_16360) c1.
Proof.
  destruct ctx1 as (pm & Hc & Hr & Ha).
  pose proof (reattach_shares_page c1 pm 1 MIDIUM_16360 Hc Hr Ha) as Hs. rewrite cache_c1 in Hs.
  apply Hs. discriminate.
Defined.
End witnesses.
