(* ===== verification/Api.v ===== *)
(** * The interface: [src/src/woomem.cpp]

    Allocation, reallocation and address validation, on the heap with its pools, the
    counters of the collector that these calls use, the set of registered roots, and
    the bytes of the payloads, which of all operations only the [memcpy] of
    [woomem_reallocate] writes (the program writes them as it likes). *)

From S2P Require Import Prelude SizeClass Locks Chunk Blocks ChunkProof Heap PageUnit HeapInv.
From S2P Require Import Pools PoolProof.
Open Scope Z_scope.

(** ** State *)

Record Rt := MkRt {
  r_ctx : Ctx;
  r_gc_alive : bool;      (* [g_gc_ctx != nullptr] *)
  r_round : Z;            (* [woomem_gc_marking_round_counter] *)
  r_new_allocated : Z;    (* [m_new_allocated_size_since_last_gc] *)
  r_roots : gset Z;       (* [m_root_gc_unit_set] *)
  r_bytes : Z → Z;        (* the bytes of the payloads *)
}.

Abbreviation RM := (M Rt).

Definition set_ctx (c : Ctx) (r : Rt) : Rt :=
  MkRt c (r_gc_alive r) (r_round r) (r_new_allocated r) (r_roots r) (r_bytes r).
Definition set_new_allocated (n : Z) (r : Rt) : Rt :=
  MkRt (r_ctx r) (r_gc_alive r) (r_round r) n (r_roots r) (r_bytes r).
Definition set_roots (s : gset Z) (r : Rt) : Rt :=
  MkRt (r_ctx r) (r_gc_alive r) (r_round r) (r_new_allocated r) s (r_bytes r).
Definition set_bytes (b : Z → Z) (r : Rt) : Rt :=
  MkRt (r_ctx r) (r_gc_alive r) (r_round r) (r_new_allocated r) (r_roots r) b.

Definition on_ctx {A} (m : XM A) : RM A := λ r,
  match m (r_ctx r) with
  | Ok (a, c) => Ok (a, set_ctx c r)
  | Fail e => Fail e
  end.

(** The bits found where a unit header has never been written: anything. *)
Class RawMemory := { raw_unit : Z → UnitHead }.

Definition WOOMEM_ATTRIB_NEED_SWEEP : Z := 1.
Definition WOOMEM_ATTRIB_AUTO_MARK : Z := Z.shiftl 1 1.
Definition WOOMEM_ATTRIB_MARK_CALLBACK : Z := Z.shiftl 1 2.
Definition WOOMEM_ATTRIB_FREE_CALLBACK : Z := Z.shiftl 1 3.

(** ** Allocation *)

(** The part of [woomem_allocate_begin] for a huge unit. *)
Definition allocate_huge_unit `{Build} `{Kernel} `{RawMemory} (size : Z) : WM Z :=
  page ← on_chunk (allocate_huge_page (u64 (SIZEOF_PageHead + SIZEOF_UnitHead + size)));
  if page =? 0 then mret 0
  else
    init_unit page 0 (set_life PENDING (set_next_free 0 (raw_unit (alloc_of page)))) ;;
    add_new_page_into_chain page ;;
    mret (alloc_of page + SIZEOF_UnitHead).

(** [t] is the calling thread. *)
Definition woomem_allocate_begin `{Build} `{Kernel} `{RawMemory} (t size : Z) : RM Z :=
  alive ← gets r_gc_alive;
  assert_ alive ;;
  n ← gets r_new_allocated;
  modify (set_new_allocated (u64 (n + size))) ;;
  if size <=? MAX_IN_PAGE_UNIT_SIZE then on_ctx (pick_unit_in_page t size)
  else on_ctx (on_world (allocate_huge_unit size)).

Definition allocate_end (round p attrib : Z) : WM unit :=
  store_unit (p - SIZEOF_UnitHead) (λ u,
    set_life UNMARKED (set_attribute (u8 attrib) (set_timing round (set_age 15 u)))).

Definition woomem_allocate_end (p attrib : Z) : RM unit :=
  round ← gets r_round;
  on_ctx (on_world (allocate_end round p attrib)).

Definition register_root_unit_head (uh : Z) : RM unit :=
  s ← gets r_roots; modify (set_roots ({[uh]} ∪ s)).
Definition unregister_root_unit_head (uh : Z) : RM unit :=
  s ← gets r_roots; modify (set_roots (s ∖ {[uh]})).

Definition woomem_allocate_end_as_root (p attrib : Z) : RM unit :=
  register_root_unit_head (p - SIZEOF_UnitHead) ;;
  woomem_allocate_end p attrib.

Definition woomem_remove_from_root_set (p : Z) : RM unit :=
  unregister_root_unit_head (p - SIZEOF_UnitHead).

(** [memcpy] of [n] bytes. *)
Definition memcpy (dst src n : Z) (b : Z → Z) : Z → Z := λ a,
  if (dst <=? a) && (a <? dst + n) then b (src + (a - dst)) else b a.

Definition woomem_reallocate `{Build} `{Kernel} `{RawMemory} (t ptr size : Z) : RM Z :=
  assert_ (negb (ptr =? 0)) ;;
  let unit_head := ptr - SIZEOF_UnitHead in
  existed ← on_ctx (on_world (get_unit_available_size unit_head));
  if size <=? existed then mret ptr
  else
    new_ptr ← woomem_allocate_begin t size;
    if new_ptr =? 0 then mret 0
    else
      b ← gets r_bytes;
      modify (set_bytes (memcpy new_ptr ptr existed b)) ;;
      u ← on_ctx (on_world (load_unit unit_head));
      woomem_allocate_end new_ptr (m_attribute u) ;;
      mret new_ptr.

(** ** Validation *)

(** The header of the unit that holds the address, if the address is behind the page's
    own headers. *)
Definition locate_unit (page : Z) (h : PageHead) (ptr : Z) : WM (option Z) :=
  if m_page_count_if_huge h =? 0 then
    p ← load_alloc (alloc_of page);
    let unit_size_with_head := m_unit_size_in_page p + SIZEOF_UnitHead in
    let storage_begin := alloc_of page + SIZEOF_PageUnitAlloc in
    if ptr <? storage_begin then mret None
    else
      let unit_index := u64 (ptr - storage_begin) / unit_size_with_head in
      mret (Some (u64 (storage_begin + unit_index * unit_size_with_head)))
  else mret (Some (alloc_of page)).

Definition woomem_validate_addr `{Build} (ptr : Z) : WM Z :=
  page ← on_chunk (validate ptr);
  if page =? 0 then mret 0
  else
    h ← load_head page;
    if m_page_just_allocated h then mret 0
    else
      o ← locate_unit page h ptr;
      match o with
      | None => mret 0
      | Some unit_head =>
        u ← load_unit unit_head;
        if life_value PENDING <? life_value (m_life u) then mret (unit_head + SIZEOF_UnitHead)
        else mret 0
      end.

Definition woomem_validate_addr_head `{Build} (ptr : Z) : WM Z :=
  if Z.land ptr 7 =? 0 then woomem_validate_addr ptr else mret 0.
