(* ===== verification/ApiProof.v ===== *)
(** * The interface: specifications of its calls *)

From S2P Require Import Prelude SizeClass Locks Chunk Blocks ChunkProof Heap PageUnit HeapInv.
From S2P Require Import Pools PoolProof Api.
Open Scope Z_scope.

(** ** Which unit holds an address *)

(** The addresses that count as inside a unit: for a huge unit also its page header. *)
Definition holds_addr (page : Z) (k : pkind) (u s ptr : Z) : Prop :=
  match k with
  | PNormal _ => u ≤ ptr < u + SIZEOF_UnitHead + s
  | PHuge n => page ≤ ptr < page + n * NORMAL_PAGE_SIZE
  end.

(** The unit [u] with payload size [s] holds [ptr]; the headers of a normal page belong
    to no unit. *)
Definition covers (pm : gmap Z pkind) (u s ptr : Z) : Prop :=
  ∃ page k, pm !! page = Some k ∧ unit_in page k u s ∧ holds_addr page k u s ptr.

(** A unit that its owner has finished allocating. *)
Definition visible (w : World) (u : Z) : bool :=
  match w_units w !! u with
  | Some h => life_value PENDING <? life_value (m_life h)
  | None => false
  end.

Section holding.
Context (w : World) (bl : list block) (pm : gmap Z pkind) (Hinv : heap_inv w bl pm).

Definition in_page (page : Z) (k : pkind) (ptr : Z) : Prop :=
  page ≤ ptr < page + pages_of k * NORMAL_PAGE_SIZE.

Lemma holds_in_page page k u s ptr :
  pm !! page = Some k → unit_in page k u s → holds_addr page k u s ptr → in_page page k ptr.
Proof using Hinv.
  intros Hp Hu Hr. pose proof (unit_extent _ _ _ Hinv _ _ _ _ Hp Hu). rewrite /in_page.
  destruct k as [g|n]; [|done]. simpl in Hr. unfold SIZEOF_PageHead in *. lia.
Qed.

Lemma in_page_unique page k page' k' ptr :
  pm !! page = Some k → pm !! page' = Some k' → in_page page k ptr → in_page page' k' ptr →
  page = page' ∧ k = k'.
Proof using Hinv.
  intros Hp Hp' H1 H2. destruct (decide (page = page')) as [->|Hne].
  - split; [done|congruence].
  - pose proof (pages_apart _ _ _ Hinv _ _ _ _ Hp Hp' Hne). unfold in_page in *. lia.
Qed.

(** The page head that the chunk finds is that of the page that holds the address. *)
Lemma owning_page_heap ptr :
  (owning_page (w_chunk w) bl ptr = 0 ∧ ∀ page k, pm !! page = Some k → ¬ in_page page k ptr) ∨
  (∃ k, pm !! owning_page (w_chunk w) bl ptr = Some k ∧
     in_page (owning_page (w_chunk w) bl ptr) k ptr).
Proof using Hinv.
  pose proof (sh_tiles _ _ (ci_shape _ _ (hi_chunk _ _ _ Hinv))) as Ht.
  assert (∀ x n, x ≤ page_of (w_chunk w) ptr < x + n ↔
    page_addr (w_chunk w) x ≤ ptr < page_addr (w_chunk w) x + n * NORMAL_PAGE_SIZE) as Hpo.
  { intros x n. rewrite /page_of /page_addr /NORMAL_PAGE_SIZE.
    pose proof (Z.div_mod (ptr - base_ (chunk (w_chunk w))) 32768).
    pose proof (Z.mod_pos_bound (ptr - base_ (chunk (w_chunk w))) 32768). lia. }
  rewrite /owning_page. destruct (owner (page_of (w_chunk w) ptr) bl) as [b|] eqn:E; simpl.
  - right. apply (owner_spec _ _ _ _ _ Ht) in E as [Hb [Hk Hr]%owns_spec].
    destruct (hi_all _ _ _ Hinv b Hb Hk) as [k Hpk]. exists k. split; [done|].
    destruct (hi_map _ _ _ Hinv _ _ Hpk) as (x & Hx%page_addr_inj & Hb' & _).
    rewrite -Hx in Hb'. pose proof (tiles_elem _ _ _ _ Ht Hb). pose proof (tiles_elem _ _ _ _ Ht Hb') as Hl'.
    assert (b = Blk (b_start b) (pages_of k) KAlloc) as Eb.
    { apply (tiles_disjoint _ _ _ _ _ (b_start b) Ht Hb Hb'); simpl in *; lia. }
    rewrite /in_page. apply Hpo. by rewrite Eb in Hr.
  - left. split; [done|]. intros page k Hp Hin.
    destruct (hi_map _ _ _ Hinv _ _ Hp) as (x & -> & Hb & _).
    assert (owner (page_of (w_chunk w) ptr) bl = Some (Blk x (pages_of k) KAlloc)); [|congruence].
    apply (owner_spec _ _ _ _ _ Ht). split; [done|]. apply owns_spec. split; [done|]. by apply Hpo.
Qed.

(** The unit that the index arithmetic finds in a normal page. *)
Lemma locate_normal page g ptr :
  pm !! page = Some (PNormal g) → in_page page (PNormal g) ptr →
  let storage_begin := alloc_of page + SIZEOF_PageUnitAlloc in
  (ptr < storage_begin ∧ ∀ u s, ¬ covers pm u s ptr) ∨
  (storage_begin ≤ ptr ∧
   let u := u64 (storage_begin + u64 (ptr - storage_begin) / unit_size_with_head g *
     unit_size_with_head g) in covers pm u (group_size g) ptr).
Proof using Hinv.
  intros Hp Hin sb.
  destruct (page_start _ _ _ Hinv _ _ Hp) as (x & Hx & Hb & Hx0 & _).
  pose proof (tiles_elem _ _ _ _ (sh_tiles _ _ (ci_shape _ _ (hi_chunk _ _ _ Hinv))) Hb) as Hxt.
  pose proof (ci_placed _ _ (hi_chunk _ _ _ Hinv)) as [Hpb Hpe Hpr].
  assert (0 ≤ page ∧ page + NORMAL_PAGE_SIZE < 2 ^ 64) as Hrange.
  { simpl in Hxt. rewrite Hpr in Hpe. rewrite Hx /page_addr. unfold NORMAL_PAGE_SIZE in *. lia. }
  destruct (decide (ptr < sb)) as [Hlt|Hge]; [left|right].
  - split; [done|]. intros u s (page' & k' & Hp' & Hu & Hr).
    destruct (in_page_unique _ _ _ _ _ Hp Hp' Hin (holds_in_page _ _ _ _ _ Hp' Hu Hr)) as [<- <-].
    destruct Hu as (_ & o & Ho%offset_bounds & ->). simpl in Hr. unfold sb, unit_at, SIZEOF_PageUnitAlloc in *.
    lia.
  - split; [lia|]. exists page, (PNormal g). split; [done|].
    unfold in_page in Hin. simpl in Hin.
    assert (0 ≤ ptr - sb < available_for_units) as Hoff.
    { change available_for_units with 32736. unfold sb, alloc_of, SIZEOF_PageUnitAlloc, SIZEOF_PageHead,
        NORMAL_PAGE_SIZE in *. lia. }
    pose proof (unit_size_with_head_pos g) as Hus. pose proof (units_tile_page g) as Htile.
    change available_for_units with 32736 in *.
    rewrite (u64_small (ptr - sb)); [|lia].
    set (i := (ptr - sb) / unit_size_with_head g).
    assert (0 ≤ i < unit_count g) as Hi.
    { unfold i. split; [apply Z.div_pos; lia|]. apply Z.div_lt_upper_bound; lia. }
    pose proof (Z.div_mod (ptr - sb) (unit_size_with_head g)) as Hdm. fold i in Hdm.
    pose proof (Z.mod_pos_bound (ptr - sb) (unit_size_with_head g)) as Hmod.
    rewrite u64_small; [|unfold sb, alloc_of, SIZEOF_PageUnitAlloc, SIZEOF_PageHead, NORMAL_PAGE_SIZE in *; nia].
    split; [split; [done|]|].
    + exists (offset_of g i). split; [apply elem_of_offsets; eauto|].
      rewrite /unit_at /offset_of /sb. lia.
    + simpl. unfold unit_size_with_head in *. lia.
Qed.
End holding.

(** ** Validation *)

Lemma locate_unit_spec w bl pm page k h ptr :
  heap_inv w bl pm → pm !! page = Some k → in_page page k ptr → m_page_count_if_huge h = huge_count k →
  wp (locate_unit page h ptr) (λ r w', w' = w ∧
    match r with
    | None => ∀ u s, ¬ covers pm u s ptr
    | Some u => ∃ s, covers pm u s ptr
    end) w.
Proof.
  intros Hinv Hp Hin Hc. rewrite /locate_unit. destruct k as [g|n]; simpl in Hc.
  - rewrite Hc /=. wp_steps. destruct (normal_alloc _ _ _ _ _ Hinv Hp) as (p & Hpa & Hs).
    eapply wp_load_alloc; [exact Hpa|]. rewrite Hs.
    pose proof (locate_normal _ _ _ Hinv _ _ _ Hp Hin) as Hl. cbv zeta in Hl.
    rewrite -/(unit_size_with_head g). destruct Hl as [[Hlt Hno]|[Hge Hcov]].
    + bool_test (ptr <? alloc_of page + SIZEOF_PageUnitAlloc). by wp_steps.
    + bool_test (ptr <? alloc_of page + SIZEOF_PageUnitAlloc). wp_steps. split; [done|eauto].
  - destruct (page_start _ _ _ Hinv _ _ Hp) as (_ & _ & _ & _ & Hn). simpl in Hn.
    bool_test (m_page_count_if_huge h =? 0). wp_steps. split; [done|]. eexists.
    exists page, (PHuge n). split; [done|]. split; [by split|done].
Qed.

(** The result of validation, as a relation to the heap. *)
Definition validated (pm : gmap Z pkind) (w : World) (ptr r : Z) : Prop :=
  (∃ u s, covers pm u s ptr ∧ r = if visible w u then u + SIZEOF_UnitHead else 0) ∨
  ((∀ u s, ¬ covers pm u s ptr) ∧ r = 0).

Lemma validate_addr_spec `{Build} w bl pm ptr :
  heap_inv w bl pm →
  wp (woomem_validate_addr ptr) (λ r w', w' = w ∧ validated pm w ptr r) w.
Proof.
  intros Hinv. rewrite /woomem_validate_addr. wp_steps. apply wp_on_chunk.
  eapply wp_mono; [apply validate_spec, Hinv|]. intros page c [-> Hpage].
  assert (set_chunk_mem (w_chunk w) w = w) as -> by (by destruct w).
  destruct (owning_page_heap _ _ _ Hinv ptr) as [[H0 Hnone]|(k & Hk & Hin)]; rewrite -Hpage in H0 || rewrite -Hpage in Hk Hin.
  - rewrite H0. wp_steps. split; [done|]. right. split; [|done].
    intros u s (p & k & Hp & Hu & Hr). by apply (Hnone p k Hp), (holds_in_page _ _ _ Hinv _ _ u s).
  - pose proof (page_nonzero _ _ _ Hinv _ _ Hk). bool_test (page =? 0). wp_steps.
    destruct (hi_map _ _ _ Hinv _ _ Hk) as (x & _ & _ & (h & Hh & Hcnt & Hj) & _).
    eapply wp_load_head; [exact Hh|]. rewrite Hj. wp_steps.
    eapply wp_mono; [by eapply locate_unit_spec|]. intros [u|] w' [-> Hu].
    + destruct Hu as [s Hcov]. wp_steps.
      assert (is_unit pm u s) as Hiu by (destruct Hcov as (p & k' & ? & ? & _); by exists p, k').
      destruct (unit_header _ _ _ Hinv _ _ Hiu) as [hu Hhu].
      eapply wp_load_unit; [exact Hhu|].
      assert (visible w u = (life_value PENDING <? life_value (m_life hu))) as Hv
        by (by rewrite /visible Hhu).
      rewrite -Hv. destruct (visible w u) eqn:Ev; wp_steps; (split; [done|]); left; exists u, s;
        rewrite Ev; done.
    + wp_steps. split; [done|]. by right.
Qed.

(** ** Allocation *)

(** A unit of at least [size] bytes for the caller, or [nullptr]. *)
Definition allocated_unit (c : Ctx) (pm : gmap Z pkind) (size r : Z) (c' : Ctx) : Prop :=
  ∃ pm', ctx_inv c' pm' ∧ caches_ready c' ∧ pm ⊆ pm' ∧ (∀ t, attached c t → attached c' t) ∧
    ((r = 0 ∧ units_kept pm (c_world c) (c_world c')) ∨
     (∃ u s, r = u + SIZEOF_UnitHead ∧ u ≠ 0 ∧ size ≤ s ∧
       unit_got pm (c_world c) u s pm' (c_world c'))).

Lemma wp_on_ctx {A} (m : XM A) (Q : A → Rt → Prop) r :
  wp m (λ a c, Q a (set_ctx c r)) (r_ctx r) → wp (on_ctx m) Q r.
Proof. rewrite /wp /on_ctx. by destruct (m (r_ctx r)) as [[a c]|]. Qed.

Lemma unit_positive w bl pm u s : heap_inv w bl pm → is_unit pm u s → 0 < u.
Proof.
  intros Hinv (page & k & Hp & Hu). pose proof (unit_extent _ _ _ Hinv _ _ _ _ Hp Hu).
  destruct (page_start _ _ _ Hinv _ _ Hp) as (x & -> & _ & Hx & _).
  pose proof (pl_base _ (ci_placed _ _ (hi_chunk _ _ _ Hinv))).
  unfold page_addr, SIZEOF_PageHead, NORMAL_PAGE_SIZE in *. lia.
Qed.

Lemma got_nonzero c' pm w u s pm' : ctx_inv c' pm' → unit_got pm w u s pm' (c_world c') → u ≠ 0.
Proof.
  intros ((bl & Hh) & _) (Hu & _). pose proof (unit_positive _ _ _ _ _ Hh Hu). lia.
Qed.

Section allocation.
Context `{Build} `{Kernel} `{RawMemory}.
Context (Hkernel : commits_granted).

Lemma huge_unit_spec w bl pm size :
  heap_inv w bl pm → chain_inv w pm → 0 ≤ size →
  size + SIZEOF_PageHead + SIZEOF_UnitHead + NORMAL_PAGE_SIZE - 1 < 2 ^ 64 →
  wp (allocate_huge_unit size) (λ r w', (r = 0 ∧ w' = w) ∨
    (∃ page n, r = alloc_of page + SIZEOF_UnitHead ∧ page_added w pm page (PHuge n) w' ∧
       size + SIZEOF_PageHead + SIZEOF_UnitHead ≤ n * NORMAL_PAGE_SIZE ∧
       ∃ h, w_units w' !! alloc_of page = Some h ∧ m_life h = PENDING)) w.
Proof using Hkernel.
  intros Hinv (l & Hch & Hnd & Hl) Hs Hw. rewrite /allocate_huge_unit. wp_steps. apply wp_on_chunk.
  unfold SIZEOF_PageHead, SIZEOF_UnitHead, NORMAL_PAGE_SIZE in Hw. rewrite u64_small; [|rewrite
    /SIZEOF_PageHead /SIZEOF_UnitHead; lia].
  set (sz := SIZEOF_PageHead + SIZEOF_UnitHead + size).
  assert (0 < sz ∧ sz + NORMAL_PAGE_SIZE - 1 < 2 ^ 64) as [Hz1 Hz2]
    by (unfold sz, SIZEOF_PageHead, SIZEOF_UnitHead, NORMAL_PAGE_SIZE; lia).
  pose proof (pages_for_small sz Hz1 Hz2) as Hpf.
  eapply wp_mono; [apply (allocate_huge_page_spec _ bl); [apply Hinv|done|done|by apply granted_block]|].
  intros r c [(_ & -> & ->)|(x & bl' & Hal & Hrd)].
  { wp_steps. left. by destruct w. }
  assert (0 < pages_for sz) as Hn by (unfold NORMAL_PAGE_SIZE in *; lia).
  destruct (allocated_world _ _ _ _ _ _ _ _ _ l Hinv Hn Hal Hrd Hch Hl)
    as (Hr0 & Hrl & (h & Hh & Hj & Hcnt) & Hch' & _).
  bool_test (r =? 0). wp_steps. apply wp_init_unit; [by eexists|]. wp_steps.
  eapply wp_mono; [eapply (add_new_page_spec _ r h l); done|].
  intros _ w' (Hchain & Hck & Hhd & Ha & Hu). wp_steps. right. exists r, (pages_for sz).
  assert (unit_at r 0 = alloc_of r) as Eu by apply Z.add_0_r.
  assert (w_units w' !! alloc_of r = Some (set_life PENDING (set_next_free 0 (raw_unit (alloc_of r))))) as Hhead.
  { by rewrite Hu /= Eu lookup_insert_eq. }
  split; [done|]. split; [|split; [unfold sz in *; lia|eauto]].
  eapply (page_added_intro w pm bl (pages_for sz) x bl' r c); try done.
  - eexists. split; [exact Hhead|done].
  - intros a _. by rewrite Ha.
  - intros a Hout. rewrite Hu /= lookup_insert_ne //. intros <-. apply Hout.
    rewrite Eu /alloc_of /SIZEOF_PageHead /NORMAL_PAGE_SIZE. lia.
Qed.

(** A unit in a new page. *)
Lemma huge_got w pm page n w' :
  page_added w pm page (PHuge n) w' →
  (∃ h, w_units w' !! alloc_of page = Some h ∧ m_life h = PENDING) →
  unit_got pm w (alloc_of page) (n * NORMAL_PAGE_SIZE - (SIZEOF_PageHead + SIZEOF_UnitHead))
    (<[page := PHuge n]> pm) w'.
Proof using.
  intros Had Hh. pose proof (added_units _ _ _ _ _ Had) as Hk.
  destruct Had as (Hp0 & Hn & (bl' & Hinv) & _). split; [|split; [|split; [done|]]].
  - exists page, (PHuge n). by rewrite lookup_insert_eq.
  - intros s0 (p & k & Hp & Hu). exfalso.
    destruct (added_apart _ _ _ _ _ _ _ Hinv Hn Hp) as [Hne Hap].
    assert (<[page := PHuge n]> pm !! p = Some k) as Hp' by (by rewrite lookup_insert_ne).
    pose proof (unit_extent _ _ _ Hinv _ _ _ _ Hp' Hu).
    destruct (page_start _ _ _ Hinv page _ (lookup_insert_eq _ _ _)) as (_ & _ & _ & _ & Hk').
    simpl in *. unfold alloc_of, SIZEOF_PageHead, SIZEOF_UnitHead, NORMAL_PAGE_SIZE in *. lia.
  - intros u s Hu _. by eapply Hk.
Qed.

Lemma allocate_begin_spec r pm t size :
  r_gc_alive r = true → ctx_inv (r_ctx r) pm → caches_ready (r_ctx r) → attached (r_ctx r) t →
  0 ≤ size → size + SIZEOF_PageHead + SIZEOF_UnitHead + NORMAL_PAGE_SIZE - 1 < 2 ^ 64 →
  wp (woomem_allocate_begin t size) (λ p r', allocated_unit (r_ctx r) pm size p (r_ctx r') ∧
    r_gc_alive r' = true ∧ r_round r' = r_round r ∧ r_roots r' = r_roots r ∧
    r_new_allocated r' = u64 (r_new_allocated r + size) ∧ r_bytes r' = r_bytes r) r.
Proof using Hkernel.
  intros Hgc Hctx Hrd Hat Hs Hw. rewrite /woomem_allocate_begin. wp_steps. apply wp_assert; [done|].
  wp_steps. destruct (size <=? MAX_IN_PAGE_UNIT_SIZE) eqn:E; apply wp_on_ctx.
  - pose proof (global_pages_laws Hkernel).
    eapply wp_mono; [apply (pick_unit_in_page_spec _ pm); try done; lia|].
    intros p c' (g & Hfit & pm' & Hc' & Hr' & Hsub & Ha & Hp). split; [|done].
    exists pm'. split_and!; try done. destruct Hp as [?|(u & -> & Hgot)]; [by left|right].
    exists u, (group_size g). split_and!; try done. by eapply got_nonzero.
  - destruct Hctx as ((bl & Hh) & Hch & Hinv). apply wp_on_world.
    eapply wp_mono; [by eapply huge_unit_spec|].
    intros p w' [[-> ->]|(page & n & -> & Had & Hfit & Hpend)]; (split; [|done]).
    + exists pm. destruct r as [[] ? ? ? ? ?]. split; [split_and!; eauto|]. split_and!; try done. by left.
    + destruct (pool_inv_added _ _ _ _ _ Hinv Had) as (Hinv2 & Hno & Hth & Hfl).
      pose proof (huge_got _ _ _ _ _ Had Hpend) as Hgot.
      destruct Had as (Hp0 & Hn & Hbl & Hch2 & _). exists (<[page := PHuge n]> pm).
      assert (ctx_inv (set_world w' (r_ctx r)) (<[page := PHuge n]> pm)) as Hctx' by (by split_and!).
      split; [done|]. split; [|split; [by apply insert_subseteq|split; [done|]]].
      * intros t' g Hc. rewrite Hfl //. by apply Hrd.
      * right. eexists (alloc_of page), _. split; [done|].
        split; [by eapply got_nonzero|]. split; [|done]. lia.
Qed.
End allocation.

(** ** Finishing an allocation *)

(** A header of a unit in use changes. *)
Lemma ctx_header c pm u s h h' :
  ctx_inv c pm → caches_ready c → is_unit pm u s → w_units (c_world c) !! u = Some h →
  m_life h ≠ RELEASED → m_life h' ≠ RELEASED →
  m_next_free_unit_offset h' = m_next_free_unit_offset h →
  ctx_inv (set_world (upd_units (<[u := h']>) (c_world c)) c) pm ∧
  caches_ready (set_world (upd_units (<[u := h']>) (c_world c)) c).
Proof.
  intros ((bl & Hh) & Hch & Hinv) Hrd Hu Hhd Hl Hl' Hn. split; [|exact Hrd].
  split; [exists bl; by eapply heap_header|]. split; [done|].
  destruct Hinv. by split.
Qed.

Definition ended (round attrib : Z) (h : UnitHead) : UnitHead :=
  set_life UNMARKED (set_attribute (u8 attrib) (set_timing round (set_age 15 h))).

Lemma allocate_end_run w round u attrib h (Q : unit → World → Prop) :
  w_units w !! u = Some h → Q tt (upd_units (<[u := ended round attrib h]>) w) →
  wp (allocate_end round (u + SIZEOF_UnitHead) attrib) Q w.
Proof.
  intros Hh HQ. rewrite /allocate_end Z.add_simpl_r. by eapply wp_store_unit.
Qed.

Lemma allocate_end_result r u attrib h :
  w_units (c_world (r_ctx r)) !! u = Some h →
  woomem_allocate_end (u + SIZEOF_UnitHead) attrib r =
    Ok (tt, set_ctx (set_world (upd_units (<[u := ended (r_round r) attrib h]>) (c_world (r_ctx r))) (r_ctx r)) r).
Proof.
  intros Hh. apply wp_exact. rewrite /woomem_allocate_end. wp_steps. apply wp_on_ctx, wp_on_world.
  by eapply allocate_end_run.
Qed.

(** The unit that holds an address is unique. *)
Lemma covers_unique w bl pm u s u' s' ptr :
  heap_inv w bl pm → covers pm u s ptr → covers pm u' s' ptr → u = u'.
Proof.
  intros Hinv (p & k & Hp & Hu & Hr) (p' & k' & Hp' & Hu' & Hr').
  destruct (in_page_unique _ _ _ Hinv _ _ _ _ _ Hp Hp' (holds_in_page _ _ _ Hinv _ _ _ _ _ Hp Hu Hr)
    (holds_in_page _ _ _ Hinv _ _ _ _ _ Hp' Hu' Hr')) as [<- <-].
  destruct (decide (u = u')) as [|Hne]; [done|].
  destruct k as [g|n]; simpl in *; [|destruct Hu as [_ ->], Hu' as [_ ->]; done].
  destruct (units_apart _ _ _ Hinv u s u' s'); [by exists p, (PNormal g)|by exists p, (PNormal g)|done|lia|lia].
Qed.

Lemma validated_unique w bl pm u s ptr r :
  heap_inv w bl pm → covers pm u s ptr → validated pm w ptr r →
  r = if visible w u then u + SIZEOF_UnitHead else 0.
Proof.
  intros Hinv Hc [(u' & s' & Hc' & ->)|[Hno _]].
  - by rewrite (covers_unique _ _ _ _ _ _ _ _ Hinv Hc Hc').
  - by destruct (Hno u s).
Qed.

(** Every payload address of a unit is held by it. *)
Lemma payload_covers w bl pm u s ptr :
  heap_inv w bl pm → is_unit pm u s → u + SIZEOF_UnitHead ≤ ptr < u + SIZEOF_UnitHead + s →
  covers pm u s ptr.
Proof.
  intros Hinv (page & k & Hp & Hu) Hin. exists page, k. split; [done|]. split; [done|].
  pose proof (unit_extent _ _ _ Hinv _ _ _ _ Hp Hu).
  destruct k as [g|n]; simpl in *; unfold SIZEOF_UnitHead, SIZEOF_PageHead in *; lia.
Qed.

(** ** Reallocation *)

Lemma available_size_spec `{Build} w bl pm u s h :
  heap_inv w bl pm → is_unit pm u s → w_units w !! u = Some h → m_life h ≠ RELEASED →
  get_unit_available_size u w = Ok (s, w).
Proof.
  intros Hinv (page & k & Hp & Hu) Hh Hl. apply wp_exact.
  destruct (hi_map _ _ _ Hinv _ _ Hp) as (x & _ & _ & (hd & Hhd & Hcnt & _) & Hlay).
  rewrite /get_unit_available_size. wp_steps. eapply wp_load_unit; [exact Hh|].
  destruct k as [g|n]; simpl in *.
  - destruct Hu as (-> & o & Ho & ->), Hlay as (la & lf & Hpi & Hlim).
    destruct (pi_head _ _ _ _ _ Hpi) as (p & Hpa & Hs & Hla & Hlf).
    pose proof (not_listed _ _ _ _ _ _ _ Hpi Hh Hl) as Hno.
    destruct (pi_out _ _ _ _ _ Hpi o Ho Hno) as (h0 & Hh0 & Hn0). simplify_eq.
    pose proof (offset_nonzero _ _ Ho). bool_test (m_next_free_unit_offset h0 =? 0). wp_steps.
    eapply wp_load_alloc; [|by wp_steps]. rewrite -Hpa. f_equal. rewrite /unit_at. lia.
  - destruct Hu as [-> ->], Hlay as (h0 & Hh0 & Hn0). simplify_eq. rewrite Hn0 /=. wp_steps.
    destruct (page_start _ _ _ Hinv _ _ Hp) as (y & Hy & Hb & Hy0 & Hn). simpl in Hn, Hb.
    pose proof (tiles_elem _ _ _ _ (sh_tiles _ _ (ci_shape _ _ (hi_chunk _ _ _ Hinv))) Hb) as Hle.
    pose proof (sh_total _ _ (ci_shape _ _ (hi_chunk _ _ _ Hinv))) as Htot.
    eapply wp_load_head; [rewrite /alloc_of Z.add_simpl_r; exact Hhd|]. wp_steps.
    apply wp_assert; [by bool_test (m_page_count_if_huge hd =? 0)|]. wp_steps.
    split; [|done]. simpl in Hle. rewrite u64_small //.
    unfold ALLOCATED_FLAG, NORMAL_PAGE_SIZE, SIZEOF_PageHead, SIZEOF_UnitHead in *. lia.
Qed.

Section reallocation.
Context `{Build} `{Kernel} `{RawMemory}.
Context (Hkernel : commits_granted).

Lemma same_ctx r : set_ctx (set_world (c_world (r_ctx r)) (r_ctx r)) r = r.
Proof. by destruct r as [[] ? ? ? ? ?]. Qed.

(** What an allocation leaves of the collector's state. *)
Definition gc_kept (r r' : Rt) : Prop :=
  r_gc_alive r' = r_gc_alive r ∧ r_round r' = r_round r ∧ r_roots r' = r_roots r ∧ r_bytes r' = r_bytes r.

(** The size fits, or there is no memory, or a new unit is allocated and finished. *)
Lemma reallocate_spec r pm t u s h size :
  r_gc_alive r = true → ctx_inv (r_ctx r) pm → caches_ready (r_ctx r) → attached (r_ctx r) t →
  is_unit pm u s → w_units (c_world (r_ctx r)) !! u = Some h → m_life h ≠ RELEASED → 0 ≤ size →
  size + SIZEOF_PageHead + SIZEOF_UnitHead + NORMAL_PAGE_SIZE - 1 < 2 ^ 64 →
  wp (woomem_reallocate t (u + SIZEOF_UnitHead) size) (λ p r',
    if size <=? s then p = u + SIZEOF_UnitHead ∧ r' = r
    else
      (p = 0 ∧ allocated_unit (r_ctx r) pm size 0 (r_ctx r') ∧ gc_kept r r') ∨
      ∃ r1 pm' u' s' h1, p = u' + SIZEOF_UnitHead ∧
        unit_got pm (c_world (r_ctx r)) u' s' pm' (c_world (r_ctx r1)) ∧ size ≤ s' ∧ u' ≠ u ∧
        w_units (c_world (r_ctx r1)) !! u' = Some h1 ∧ m_life h1 = PENDING ∧
        woomem_allocate_end p (m_attribute h)
          (set_bytes (memcpy p (u + SIZEOF_UnitHead) s (r_bytes r)) r1) = Ok (tt, r') ∧
        r' = set_ctx (set_world (upd_units (<[u' := ended (r_round r1) (m_attribute h) h1]>)
               (c_world (r_ctx r1))) (r_ctx r1)) (set_bytes (memcpy p (u + SIZEOF_UnitHead) s (r_bytes r)) r1) ∧
        ctx_inv (r_ctx r') pm' ∧ caches_ready (r_ctx r') ∧
        (pm ⊆ pm' ∧ ∀ t', attached (r_ctx r) t' → attached (r_ctx r') t') ∧ gc_kept r r1) r.
Proof using Hkernel.
  intros Hgc Hctx Hready Ht Hu Hh Hlife Hsize Hwrap.
  pose proof Hctx as ((bl & Hheap) & _). pose proof (unit_positive _ _ _ _ _ Hheap Hu).
  rewrite /woomem_reallocate. wp_steps. apply wp_assert.
  { unfold SIZEOF_UnitHead. bool_test (u + 8 =? 0). done. }
  rewrite Z.add_simpl_r. wp_steps. apply wp_on_ctx, wp_on_world.
  rewrite {1}/wp (available_size_spec _ _ _ _ _ _ Hheap Hu Hh Hlife).
  rewrite same_ctx. destruct (size <=? s) eqn:E; [by wp_steps|]. wp_steps.
  eapply wp_mono; [by apply (allocate_begin_spec Hkernel r pm)|].
  intros p r1 [Hal (Hg1 & Hround & Hroots & _ & Hbytes)]. pose proof Hal as (pm' & Hc1 & Hr1 & Hsub & Hat & Hp).
  assert (gc_kept r r1) as Hkept by (split_and!; congruence).
  destruct Hp as [[-> Hk]|(u' & s' & -> & Hu0 & Hfit & Hu' & Hrel & (h1 & Hh1 & Hl1) & Hoth)].
  { rewrite Z.eqb_refl. wp_steps. by left. }
  assert (u' ≠ u) as Hne.
  { intros ->. destruct (Hrel s Hu) as (h0 & ? & ?). by simplify_eq. }
  pose proof Hc1 as ((bl1 & Hheap1) & _). pose proof (unit_positive _ _ _ _ _ Hheap1 Hu').
  assert (w_units (c_world (r_ctx r1)) !! u = Some h) as Hhu by (by rewrite (Hoth u s Hu)).
  unfold SIZEOF_UnitHead at 1. bool_test (u' + 8 =? 0). wp_steps. rewrite Hbytes.
  apply wp_on_ctx, wp_on_world. eapply wp_load_unit; [exact Hhu|]. rewrite same_ctx. wp_steps.
  set (rb := set_bytes _ r1). pose proof (allocate_end_result rb u' (m_attribute h) h1 Hh1) as Hend.
  rewrite {1}/wp Hend. wp_steps.
  destruct (ctx_header (r_ctx r1) pm' u' s' h1 (ended (r_round r1) (m_attribute h) h1) Hc1 Hr1 Hu' Hh1)
    as [Hctx' Hready']; [by rewrite Hl1|done|done|]. right.
  exists r1, pm', u', s', h1. split_and!; try done.
  by split_and!; [..|exists h1|].
Qed.
End reallocation.
