(* ===== verification/ApiSpec.v ===== *)
(** * Properties of the interface *)

From S2P Require Import Prelude SizeClass Locks Chunk Blocks ChunkProof ChunkSpec.
From S2P Require Import Heap PageUnit HeapInv Pools PoolProof PoolSpec Api ApiProof.
Open Scope Z_scope.



Section api_properties.
Context `{Build} `{Kernel} `{RawMemory}.

(** C8: allocation, for small and huge sizes alike, on a kernel that grants the commits.  For a
    size that does not wrap with the headers and the rounding to pages ([allocate_begin_wraps] shows one
    that does), [woomem_allocate_begin] ends without a fault: with [nullptr], and then no
    unit has changed, or with the payload address of a unit that holds the size and
    that was not in use; the unit is pending, overlaps no unit of the old heap, and no
    other unit has changed. *)
Theorem allocate_begin_fresh r pm t size
    (Hkernel : commits_granted) (Hgc : r_gc_alive r = true)
    (Hctx : ctx_inv (r_ctx r) pm) (Hready : caches_ready (r_ctx r)) (Ht : attached (r_ctx r) t)
    (Hsize : 0 ≤ size)
    (Hwrap : size + SIZEOF_PageHead + SIZEOF_UnitHead + NORMAL_PAGE_SIZE - 1 < 2 ^ 64) :
  let w := c_world (r_ctx r) in
  wp (woomem_allocate_begin t size) (λ p r', let w' := c_world (r_ctx r') in
    ∃ pm', ctx_inv (r_ctx r') pm' ∧ caches_ready (r_ctx r') ∧ pm ⊆ pm' ∧
      ((p = 0 ∧ ∀ u s, is_unit pm u s → w_units w' !! u = w_units w !! u) ∨
       (∃ u s, p = u + SIZEOF_UnitHead ∧ size ≤ s ∧ is_unit pm' u s ∧ ¬ in_use pm w u ∧
          life_of w' u = Some PENDING ∧
          (∀ u' s', is_unit pm u' s' → u' ≠ u → w_units w' !! u' = w_units w !! u' ∧
             (u + SIZEOF_UnitHead + s ≤ u' ∨ u' + SIZEOF_UnitHead + s' ≤ u))))) r.
Proof.
  eapply wp_mono; [by apply (allocate_begin_spec Hkernel r pm)|].
  intros p r' [(pm' & Hc' & Hr' & Hsub & _ & Hp) _]. exists pm'. split_and!; try done.
  destruct Hp as [?|(u & s & -> & _ & Hfit & Hu & Hrel & (h & Hh & Hl) & Hoth)]; [by left|right].
  exists u, s. split_and!; try done.
  - intros (s0 & Hs0 & h0 & Hh0 & Hl0). destruct (Hrel s0 Hs0) as (h1 & ? & ?). by simplify_eq.
  - by rewrite /life_of Hh /= Hl.
  - intros u' s' Hu' Hne. split; [by eapply Hoth|]. destruct Hc' as ((bl & Hheap) & _).
    apply (units_apart _ _ _ Hheap); [done|by eapply is_unit_mono|done].
Qed.

(** C19: validation of an arbitrary address.  [woomem_validate_addr] changes nothing, ends
    without a fault for every address, and returns the payload address of the unit
    that holds the address if there is one and its allocation has been finished (and it has
    not been freed), and [nullptr] otherwise. *)
Theorem validate_addr_correct w bl pm ptr (Hinv : heap_inv w bl pm) :
  wp (woomem_validate_addr ptr) (λ r w', w' = w ∧
    ((∃ u s, covers pm u s ptr ∧ (∀ u' s', covers pm u' s' ptr → u' = u) ∧
        r = if visible w u then u + SIZEOF_UnitHead else 0) ∨
     ((∀ u s, ¬ covers pm u s ptr) ∧ r = 0))) w.
Proof.
  eapply wp_mono; [by eapply validate_addr_spec|]. intros r w' [-> [(u & s & Hc & ->)|Hno]].
  - split; [done|]. left. exists u, s. split_and!; try done.
    intros u' s' Hc'. by eapply covers_unique.
  - split; [done|]. by right.
Qed.

(** C28: a unit becomes visible with [woomem_allocate_end] and not before: for every address
    of its payload, validation returns [nullptr] while the unit is pending and its
    payload address once the allocation is finished. *)
Theorem allocate_end_publishes c pm u s h round attrib ptr
    (Hctx : ctx_inv c pm) (Hready : caches_ready c) (Hu : is_unit pm u s)
    (Hh : w_units (c_world c) !! u = Some h) (Hpend : m_life h = PENDING)
    (Hptr : u + SIZEOF_UnitHead ≤ ptr < u + SIZEOF_UnitHead + s) :
  wp (on_world (woomem_validate_addr ptr)) (λ r _, r = 0) c ∧
  wp (on_world (allocate_end round (u + SIZEOF_UnitHead) attrib) ;;
      on_world (woomem_validate_addr ptr))
    (λ r c', r = u + SIZEOF_UnitHead ∧ ctx_inv c' pm ∧ caches_ready c') c.
Proof.
  pose proof Hctx as ((bl & Hheap) & _). split.
  - apply wp_on_world. eapply wp_mono; [by eapply validate_addr_spec|]. intros r w' [-> Hv].
    rewrite (validated_unique _ _ _ u s ptr r Hheap (payload_covers _ _ _ _ _ _ Hheap Hu Hptr) Hv).
    by rewrite /visible Hh Hpend.
  - wp_steps. apply wp_on_world. eapply allocate_end_run; [exact Hh|]. apply wp_on_world.
    destruct (ctx_header c pm u s h (ended round attrib h) Hctx Hready Hu Hh) as [Hctx' Hready'];
      [by rewrite Hpend|done|done|].
    pose proof Hctx' as ((bl' & Hheap') & _). simpl in *.
    eapply wp_mono; [by eapply validate_addr_spec|]. intros r w' [-> Hv].
    split; [|by split]. rewrite (validated_unique _ _ _ u s ptr r Hheap'
      (payload_covers _ _ _ _ _ _ Hheap' Hu Hptr) Hv).
    by rewrite /visible /= lookup_insert_eq.
Qed.

End api_properties.

(** ** Witnesses *)

Section witnesses.
Import ChunkSpec.Demo PoolDemo.

#[local] Instance raw : RawMemory := {| raw_unit := λ _, MkUnitHead 7 7 7 7 FULL_MARKED |}.

Definition r0 : Rt := MkRt c0 true 3 0 ∅ (λ _, 0).

(** The first unit of the demo heap. *)
Lemma unit1 : ∃ pm s, ctx_inv c1 pm ∧ caches_ready c1 ∧ attached c1 1 ∧ is_unit pm 65568 s ∧ 16000 ≤ s.
Proof.
  pose proof (global_pages_laws commits_always) as Hl.
  pose proof (wp_det _ _ _ _ _
    (pick_unit_in_page_spec c0 ∅ 1 16000 ctx0 ready0 attached0 ltac:(vm_compute; split; congruence)) run_c1)
    as (g & Hfit & pm' & ? & ? & _ & Ha & [[? _]|(u & Heq & Hu & _)]); [done|].
  assert (u = 65568) as -> by (unfold SIZEOF_UnitHead in Heq; lia).
  exists pm', (group_size g). split_and!; try done. apply Ha, attached0.
Qed.

Lemma head1 : ∃ h, w_units (c_world c1) !! 65568 = Some h ∧ m_life h = PENDING.
Proof. eexists. split; vm_compute; reflexivity. Qed.

Lemma allocate_begin_fresh_witness :
  wp (woomem_allocate_begin 1 20000) (λ p r', ∃ pm', ctx_inv (r_ctx r') pm') r0.
Proof.
  eapply wp_mono; [apply (allocate_begin_fresh r0 ∅ 1 20000 commits_always eq_refl ctx0 ready0 attached0);
    [discriminate|reflexivity]|].
  intros p r' (pm' & Hc & _). exists pm'. exact Hc.
Defined.

Lemma validate_addr_correct_witness :
  wp (woomem_validate_addr 65576) (λ _ w', w' = c_world c1) (c_world c1).
Proof.
  destruct ctx1 as (pm & ((bl & Hb) & _) & _).
  eapply wp_mono; [exact (validate_addr_correct _ bl pm 65576 Hb)|]. intros r w' [Hw _]. exact Hw.
Defined.

Lemma allocate_end_publishes_witness :
  wp (on_world (allocate_end 3 (65568 + SIZEOF_UnitHead) 1) ;;
      on_world (woomem_validate_addr 65580)) (λ r _, r = 65576) c1.
Proof.
  destruct unit1 as (pm & s & Hc & Hr & _ & Hu & Hs), head1 as (h & Hh & Hp).
  destruct (allocate_end_publishes c1 pm 65568 s h 3 1 65580 Hc Hr Hu Hh Hp) as [_ Hw].
  - unfold SIZEOF_UnitHead. lia.
  - eapply wp_mono; [exact Hw|]. intros r c' [-> _]. reflexivity.
Defined.


(** A request within 32 bytes of 2^64 wraps: the addition of the two headers gives
    a small size, and the caller gets a unit of one page for 2^64 - 1 bytes. *)
Theorem allocate_begin_wraps :
  let SIZE_MAX := 2 ^ 64 - 1 in
  wp (p ← woomem_allocate_begin 1 SIZE_MAX;
      s ← on_ctx (on_world (get_unit_available_size (p - SIZEOF_UnitHead))); mret (p, s))
    (λ '(p, s) _, p ≠ 0 ∧ s = 32736) r0.
Proof. vm_compute. split; [discriminate|reflexivity]. Qed.
End witnesses.
