(* ===== verification/GrayQueue.v ===== *)
(** * The gray queue: [src/src/woomem_mpsc_queue.hpp]

    The bounded queue through which threads hand gray units to a collector worker.
    Positions count all enqueues and dequeues ever made; the slot of a position is
    the position modulo the capacity, and its sequence number says whose turn it
    is: [pos] when a producer may claim it, [pos + 1] when the item of that position
    is published, [pos + Capacity] when the consumer has released it.

    [try_enqueue], [dequeue], [drain] and [empty] are given as executable calls
    without interference, and as a step relation with any number of producers and
    the one consumer, one shared access per step.  [log] and [out] are history
    variables: the items in the order the claims succeeded, and the items the
    consumer returned. *)

From S2P Require Import Prelude.
Open Scope Z_scope.

Module Mpsc.

Record Slot := MkSlot { sequence : Z; item : Z }.

Record Queue := MkQueue {
  m_slots : list Slot;
  m_enqueue_pos : Z;
  m_dequeue_pos : Z;
}.

Definition set_item (x : Z) (sl : Slot) : Slot := MkSlot (sequence sl) x.
Definition set_sequence (n : Z) (sl : Slot) : Slot := MkSlot n (item sl).
Definition set_enqueue_pos (n : Z) (q : Queue) : Queue := MkQueue (m_slots q) n (m_dequeue_pos q).
Definition set_dequeue_pos (n : Z) (q : Queue) : Queue := MkQueue (m_slots q) (m_enqueue_pos q) n.

Abbreviation QM := (M Queue).

Section operations.
Context (Capacity : Z).

Definition MASK : Z := u64 (Capacity - 1).

(** The constructor; an item is not initialised, 0 stands for its content. *)
Definition MpscGrayQueue_ctor : Queue :=
  MkQueue ((λ i, MkSlot i 0) <$> seqZ 0 Capacity) 0 0.

(** [m_slots[pos & MASK]]. *)
Definition slot (q : Queue) (pos : Z) : option Slot := rd (m_slots q) (Z.land pos MASK).

Definition upd_slot (pos : Z) (f : Slot → Slot) (q : Queue) : Queue :=
  match slot q pos with
  | Some sl => MkQueue (wr (m_slots q) (Z.land pos MASK) (f sl)) (m_enqueue_pos q) (m_dequeue_pos q)
  | None => q
  end.

Definition load_slot (pos : Z) : QM Slot :=
  o ← gets (λ q, slot q pos); of_option OutOfBounds o.
Definition store_slot (pos : Z) (f : Slot → Slot) : QM unit :=
  _ ← load_slot pos; modify (upd_slot pos f).

(** *** Calls without interference: the compare-exchange succeeds at once *)

Definition try_enqueue (x : Z) : QM bool :=
  pos ← gets m_enqueue_pos;
  sl ← load_slot pos;
  if sequence sl <? pos then mret false
  else
    modify (set_enqueue_pos (u64 (pos + 1))) ;;
    store_slot pos (set_item x) ;;
    store_slot pos (set_sequence (u64 (pos + 1))) ;;
    mret true.

(** 0 is [nullptr]. *)
Definition dequeue : QM Z :=
  pos ← gets m_dequeue_pos;
  sl ← load_slot pos;
  if negb (sequence sl =? u64 (pos + 1)) then mret 0
  else
    store_slot pos (set_sequence (u64 (pos + Capacity))) ;;
    modify (set_dequeue_pos (u64 (pos + 1))) ;;
    mret (item sl).

(** The items written to [output], their number is the result of the source. *)
Fixpoint drain_loop (n : nat) : QM (list Z) :=
  match n with
  | O => mret []
  | S n' =>
    pos ← gets m_dequeue_pos;
    sl ← load_slot pos;
    if negb (sequence sl =? u64 (pos + 1)) then mret []
    else
      store_slot pos (set_sequence (u64 (pos + Capacity))) ;;
      modify (set_dequeue_pos (u64 (pos + 1))) ;;
      rest ← drain_loop n';
      mret (item sl :: rest)
  end.

Definition drain (max_count : Z) : QM (list Z) := drain_loop (Z.to_nat max_count).

Definition empty : QM bool :=
  pos ← gets m_dequeue_pos;
  sl ← load_slot pos;
  mret (negb (sequence sl =? u64 (pos + 1))).

(** *** Producers and the consumer, interleaved *)

(** Where a producer is: not in a call; [pos] loaded; the slot of [pos] seen not to
    be behind; [pos] claimed; the item written. *)
Inductive ppc :=
| PIdle
| PPos (x pos : Z)
| PSeen (x pos : Z)
| PClaimed (x pos : Z)
| PWritten (x pos : Z).

(** Where the consumer is: not in a call; [pos] loaded; the slot seen published; its
    item read; the slot released. *)
Inductive cpc :=
| CIdle
| CPos (pos : Z)
| CReady (pos : Z)
| CRead (pos x : Z)
| CFreed (pos x : Z).

Record st := St { q : Queue; log : list Z; out : list Z; ps : list ppc; cs : cpc }.

Definition init (producers : nat) : st :=
  St MpscGrayQueue_ctor [] [] (replicate producers PIdle) CIdle.

(** A weak compare-exchange may fail although the position is current. *)
Inductive step : st → st → Prop :=
| step_call q l o ts c i x :
    ts !! i = Some PIdle →
    step (St q l o ts c) (St q l o (<[i := PPos x (m_enqueue_pos q)]> ts) c)
| step_full q l o ts c i x pos sl :
    ts !! i = Some (PPos x pos) → slot q pos = Some sl → sequence sl < pos →
    step (St q l o ts c) (St q l o (<[i := PIdle]> ts) c)
| step_seen q l o ts c i x pos sl :
    ts !! i = Some (PPos x pos) → slot q pos = Some sl → pos ≤ sequence sl →
    step (St q l o ts c) (St q l o (<[i := PSeen x pos]> ts) c)
| step_cas_ok q l o ts c i x pos :
    ts !! i = Some (PSeen x pos) → m_enqueue_pos q = pos →
    step (St q l o ts c)
      (St (set_enqueue_pos (u64 (pos + 1)) q) (l ++ [x]) o (<[i := PClaimed x pos]> ts) c)
| step_cas_fail q l o ts c i x pos :
    ts !! i = Some (PSeen x pos) →
    step (St q l o ts c) (St q l o (<[i := PPos x (m_enqueue_pos q)]> ts) c)
| step_write q l o ts c i x pos :
    ts !! i = Some (PClaimed x pos) →
    step (St q l o ts c) (St (upd_slot pos (set_item x) q) l o (<[i := PWritten x pos]> ts) c)
| step_publish q l o ts c i x pos :
    ts !! i = Some (PWritten x pos) →
    step (St q l o ts c)
      (St (upd_slot pos (set_sequence (u64 (pos + 1))) q) l o (<[i := PIdle]> ts) c)
| step_deq q l o ts :
    step (St q l o ts CIdle) (St q l o ts (CPos (m_dequeue_pos q)))
| step_empty q l o ts pos sl :
    slot q pos = Some sl → sequence sl ≠ u64 (pos + 1) →
    step (St q l o ts (CPos pos)) (St q l o ts CIdle)
| step_ready q l o ts pos sl :
    slot q pos = Some sl → sequence sl = u64 (pos + 1) →
    step (St q l o ts (CPos pos)) (St q l o ts (CReady pos))
| step_read q l o ts pos sl :
    slot q pos = Some sl →
    step (St q l o ts (CReady pos)) (St q l o ts (CRead pos (item sl)))
| step_free q l o ts pos x :
    step (St q l o ts (CRead pos x))
      (St (upd_slot pos (set_sequence (u64 (pos + Capacity))) q) l o ts (CFreed pos x))
| step_done q l o ts pos x :
    step (St q l o ts (CFreed pos x))
      (St (set_dequeue_pos (u64 (pos + 1)) q) l (o ++ [x]) ts CIdle).

Definition reachable (producers : nat) : st → Prop := rtc step (init producers).

(** *** The invariant *)

(** The first position whose slot the consumer has not released. *)
Definition released (s : st) : Z :=
  m_dequeue_pos (q s) + match cs s with CFreed _ _ => 1 | _ => 0 end.

Definition owns (p : ppc) : option Z :=
  match p with PClaimed _ pos | PWritten _ pos => Some pos | _ => None end.

(** What the slot [sl] of position [p] holds: its published item, nothing yet but a
    producer is filling it, or it is free. *)
Definition slot_ok (l : list Z) (ts : list ppc) (p : Z) (sl : Slot) : Prop :=
  (p < length l ∧ sequence sl = p + 1 ∧ rd l p = Some (item sl)) ∨
  (p < length l ∧ sequence sl = p ∧ ∃ i t, ts !! i = Some t ∧ owns t = Some p) ∨
  (length l ≤ p ∧ sequence sl = p).

Definition ppc_ok (s : st) (t : ppc) : Prop :=
  match t with
  | PIdle => True
  | PPos _ pos => 0 ≤ pos ≤ length (log s)
  | PSeen _ pos =>
    0 ≤ pos ≤ length (log s) ∧
    (pos = length (log s) → length (log s) < released s + Capacity)
  | PClaimed x pos =>
    released s ≤ pos < length (log s) ∧ rd (log s) pos = Some x ∧
    ∃ sl, slot (q s) pos = Some sl ∧ sequence sl = pos
  | PWritten x pos =>
    released s ≤ pos < length (log s) ∧ rd (log s) pos = Some x ∧
    slot (q s) pos = Some (MkSlot pos x)
  end.

Definition cpc_ok (s : st) : Prop :=
  match cs s with
  | CIdle => True
  | CPos pos => pos = m_dequeue_pos (q s)
  | CReady pos =>
    pos = m_dequeue_pos (q s) ∧ ∃ sl, slot (q s) pos = Some sl ∧ sequence sl = pos + 1
  | CRead pos x =>
    pos = m_dequeue_pos (q s) ∧ rd (log s) pos = Some x ∧
    ∃ sl, slot (q s) pos = Some sl ∧ sequence sl = pos + 1
  | CFreed pos x => pos = m_dequeue_pos (q s) ∧ rd (log s) pos = Some x
  end.

Record inv (s : st) : Prop := {
  i_len : Z.of_nat (length (m_slots (q s))) = Capacity;
  i_enq : m_enqueue_pos (q s) = length (log s);
  i_out : ∃ rest, log s = out s ++ rest;
  i_deq : m_dequeue_pos (q s) = length (out s);
  i_win : released s ≤ length (log s) ≤ released s + Capacity;
  i_slots : ∀ p, released s ≤ p < released s + Capacity →
    ∃ sl, slot (q s) p = Some sl ∧ slot_ok (log s) (ps s) p sl;
  i_prods : ∀ i t, ps s !! i = Some t → ppc_ok s t;
  i_uniq : ∀ i j t t' p, ps s !! i = Some t → ps s !! j = Some t' →
    owns t = Some p → owns t' = Some p → i = j;
  i_cons : cpc_ok s;
}.
End operations.

(** *** Slots *)

Section slots.
Context (Capacity : Z) (Hcap : ∃ k, 1 ≤ k ≤ 62 ∧ Capacity = 2 ^ k).
#[local] Abbreviation slot := (slot Capacity).
#[local] Abbreviation upd_slot := (upd_slot Capacity).

Lemma cap_bounds : 2 ≤ Capacity ∧ Capacity < 2 ^ 63.
Proof using Hcap.
  destruct Hcap as (k & Hk & ->). split.
  - change 2 with (2 ^ 1) at 1. apply Z.pow_le_mono_r; lia.
  - apply Z.pow_lt_mono_r; lia.
Qed.

Lemma MASK_mod p : Z.land p (MASK Capacity) = p mod Capacity.
Proof using Hcap.
  pose proof cap_bounds. destruct Hcap as (k & Hk & Hc).
  rewrite /MASK u64_small; [|lia]. rewrite Hc -Z.land_ones; [|lia]. f_equal.
  rewrite Z.ones_equiv. lia.
Qed.

Lemma idx_bounds p : 0 ≤ p mod Capacity < Capacity.
Proof using Hcap. apply Z.mod_pos_bound. pose proof cap_bounds. lia. Qed.

Lemma idx_window D p p' :
  D ≤ p < D + Capacity → D ≤ p' < D + Capacity → p mod Capacity = p' mod Capacity → p = p'.
Proof using Hcap.
  intros Hp Hp' Heq. pose proof cap_bounds.
  pose proof (Z.div_mod p Capacity). pose proof (Z.div_mod p' Capacity).
  assert (p / Capacity = p' / Capacity) by nia. nia.
Qed.

Lemma slot_in q p : Z.of_nat (length (m_slots q)) = Capacity → ∃ sl, slot q p = Some sl.
Proof using Hcap.
  intros Hl. rewrite /Mpsc.slot MASK_mod. apply rd_in. rewrite Hl. apply idx_bounds.
Qed.

Lemma slot_shift q p : slot q (p + Capacity) = slot q p.
Proof using Hcap.
  rewrite /Mpsc.slot !MASK_mod. f_equal. pose proof cap_bounds.
  replace (p + Capacity) with (p + 1 * Capacity) by lia. rewrite Z.mod_add //. lia.
Qed.

Lemma upd_slot_pos q p f :
  m_enqueue_pos (upd_slot p f q) = m_enqueue_pos q ∧
  m_dequeue_pos (upd_slot p f q) = m_dequeue_pos q ∧
  length (m_slots (upd_slot p f q)) = length (m_slots q).
Proof using. rewrite /Mpsc.upd_slot. case_match; [|done]. by rewrite /= length_wr. Qed.

Lemma slot_upd_eq q p f sl : slot q p = Some sl → slot (upd_slot p f q) p = Some (f sl).
Proof using.
  intros Hs. rewrite /Mpsc.upd_slot Hs /Mpsc.slot /=. apply rd_wr_eq. by eapply rd_lt.
Qed.

Lemma slot_upd_ne q D p p' f :
  D ≤ p < D + Capacity → D ≤ p' < D + Capacity → p ≠ p' →
  slot (upd_slot p f q) p' = slot q p'.
Proof using Hcap.
  intros Hp Hp' Hne. rewrite /Mpsc.upd_slot. destruct (slot q p) as [sl|] eqn:Hs; [|done].
  rewrite /Mpsc.slot /= !MASK_mod. apply rd_wr_ne; [|apply idx_bounds].
  intros Heq. apply Hne. by eapply idx_window.
Qed.

Lemma slot_ctor p :
  0 ≤ p < Capacity → slot (MpscGrayQueue_ctor Capacity) p = Some (MkSlot p 0).
Proof using Hcap.
  intros Hp. rewrite /Mpsc.slot MASK_mod Z.mod_small // /rd decide_True; [|lia].
  rewrite /= list_lookup_fmap lookup_seqZ_lt; [|lia]. simpl. do 2 f_equal. lia.
Qed.

Lemma length_ctor : Z.of_nat (length (m_slots (MpscGrayQueue_ctor Capacity))) = Capacity.
Proof using Hcap. rewrite /= length_fmap length_seqZ. pose proof cap_bounds. lia. Qed.
End slots.

(** *** Every step keeps the invariant *)

Section invariant.
Context (Capacity : Z) (Hcap : ∃ k, 1 ≤ k ≤ 62 ∧ Capacity = 2 ^ k).
#[local] Abbreviation slot := (slot Capacity).
#[local] Abbreviation upd_slot := (upd_slot Capacity).
#[local] Abbreviation inv := (inv Capacity).
#[local] Abbreviation ppc_ok := (ppc_ok Capacity).
Implicit Types (ts : list ppc) (i j : nat) (t u : ppc).

Lemma mq_inv_init n : inv (init Capacity n).
Proof using Hcap.
  pose proof (cap_bounds _ Hcap). split; try done.
  - by apply length_ctor.
  - by exists [].
  - rewrite /released /=. lia.
  - intros p Hp. rewrite /released /= in Hp. eexists. split; [apply slot_ctor; [done|lia]|].
    right; right. simpl. lia.
  - intros i t [-> _]%lookup_replicate. done.
  - intros i j t t' p [-> _]%lookup_replicate. done.
Qed.

Lemma slot_ok_ts l ts ts' p sl :
  (∀ i t, ts !! i = Some t → owns t = Some p → ∃ j t', ts' !! j = Some t' ∧ owns t' = Some p) →
  slot_ok l ts p sl → slot_ok l ts' p sl.
Proof using.
  intros Hts [Hs|[(? & ? & i & t & Hi & Ht)|Hs]]; [by left| |by right; right].
  right; left. split; [done|]. split; [done|]. eauto.
Qed.

(** A producer that moves without changing which position it owns. *)
Lemma keep_owner ts i t t' p :
  ts !! i = Some t → owns t' = owns t →
  ∀ j u, ts !! j = Some u → owns u = Some p →
    ∃ j' u', <[i := t']> ts !! j' = Some u' ∧ owns u' = Some p.
Proof using.
  intros Hi Ho j u Hj Hu. destruct (decide (i = j)) as [<-|Hne].
  - exists i, t'. split; [apply list_lookup_insert_eq; by eapply lookup_lt_Some|].
    simplify_eq. by rewrite Ho.
  - exists j, u. by rewrite list_lookup_insert_ne.
Qed.

Lemma lookup_thread ts i (t t' : ppc) j u :
  ts !! i = Some t → <[i := t']> ts !! j = Some u → (j = i ∧ u = t') ∨ (j ≠ i ∧ ts !! j = Some u).
Proof using.
  intros Hi. destruct (decide (i = j)) as [<-|Hne].
  - rewrite list_lookup_insert_eq; [|by eapply lookup_lt_Some]. intros [= <-]. by left.
  - rewrite list_lookup_insert_ne //. right. done.
Qed.

Lemma uniq_thread ts i t t' :
  (∀ i j t t' p, ts !! i = Some t → ts !! j = Some t' →
    owns t = Some p → owns t' = Some p → i = j) →
  ts !! i = Some t → (owns t' = None ∨ owns t' = owns t) →
  ∀ j k u u' p, <[i := t']> ts !! j = Some u → <[i := t']> ts !! k = Some u' →
    owns u = Some p → owns u' = Some p → j = k.
Proof using.
  intros Hu Hi Ho j k u u' p
    [[-> ->]|[Hj Hju]]%(lookup_thread _ _ _ _ _ _ Hi)
    [[-> ->]|[Hk Hku]]%(lookup_thread _ _ _ _ _ _ Hi) H1 H2; [done| | |by eapply Hu].
  - destruct Ho as [Ho|Ho]; [congruence|]. rewrite Ho in H1. by eapply Hu.
  - destruct Ho as [Ho|Ho]; [congruence|]. rewrite Ho in H2. by eapply Hu.
Qed.

(** A step that only moves one producer between positions in its call. *)
Lemma inv_thread q l o ts c i t t' :
  inv (St q l o ts c) → ts !! i = Some t → owns t' = owns t → ppc_ok (St q l o ts c) t' →
  inv (St q l o (<[i := t']> ts) c).
Proof using.
  intros [] Hi Ho Hok. split; try done; simpl in *.
  - intros p Hp. destruct (i_slots0 p Hp) as (sl & ? & ?). exists sl. split; [done|].
    eapply slot_ok_ts; [|done]. by eapply keep_owner.
  - intros j u [[-> ->]|[_ Hj]]%(lookup_thread _ _ _ _ _ _ Hi); [done|by eapply i_prods0].
  - eapply uniq_thread; eauto.
Qed.

(** A step that only moves the consumer. *)
Lemma inv_consumer q l o ts c c' :
  inv (St q l o ts c) → released (St q l o ts c') = released (St q l o ts c) →
  cpc_ok Capacity (St q l o ts c') → inv (St q l o ts c').
Proof using.
  intros [] Hr Hc. split; try done; rewrite ?Hr; try done.
  intros i t Hi. specialize (i_prods0 i t Hi).
  destruct t; simpl in *; rewrite ?Hr; done.
Qed.

Lemma rd_snoc (l : list Z) x p : p < length l → rd (l ++ [x]) p = rd l p.
Proof using.
  intros Hp. rewrite /rd. case_decide; [|done]. apply lookup_app_l. lia.
Qed.

Lemma rd_snoc_last (l : list Z) x : rd (l ++ [x]) (length l) = Some x.
Proof using. rewrite /rd decide_True; [|lia]. rewrite lookup_app_r; [|lia].
  replace (Z.to_nat (length l) - length l)%nat with 0%nat by lia. done.
Qed.

(** The successful compare-exchange: the position is claimed. *)
Lemma inv_cas q l o ts c i x :
  inv (St q l o ts c) → ts !! i = Some (PSeen x (length l)) →
  length l + 1 < 2 ^ 64 →
  inv (St (set_enqueue_pos (u64 (length l + 1)) q) (l ++ [x]) o (<[i := PClaimed x (length l)]> ts) c).
Proof using Hcap.
  intros [Hlen Henq [rest Hout] Hdeq Hwin Hsl Hpr Hun Hco] Hi Hb. simpl in *.
  pose proof (Hpr i _ Hi) as [_ Hroom]. specialize (Hroom eq_refl).
  change (released (St (set_enqueue_pos (u64 (length l + 1)) q) (l ++ [x]) o
    (<[i := PClaimed x (length l)]> ts) c)) with (released (St q l o ts c)) in *.
  split; simpl; rewrite ?length_app /=; try done.
  - rewrite u64_small; lia.
  - exists (rest ++ [x]). by rewrite Hout app_assoc.
  - rewrite /released /= in Hwin Hroom |- *. lia.
  - intros p Hp. destruct (Hsl p Hp) as (sl & Hs & Hok). exists sl. split; [done|].
    rewrite /slot_ok length_app /=.
    destruct Hok as [(? & ? & ?)|[(? & ? & j & t & Hj & Ht)|[Hge Hq]]].
    + left. rewrite rd_snoc //. split; [lia|done].
    + right; left. split; [lia|]. split; [done|]. eexists j, t. split; [|done].
      rewrite list_lookup_insert_ne //. intros ->. by simplify_eq.
    + destruct (decide (p = length l)) as [->|Hne]; [|right; right; lia].
      right; left. split; [lia|]. split; [done|]. exists i, (PClaimed x (length l)).
      split; [|done]. apply list_lookup_insert_eq. by eapply lookup_lt_Some.
  - intros j u [[-> ->]|[Hji Hj]]%(lookup_thread _ _ _ _ _ _ Hi); simpl.
    + rewrite rd_snoc_last length_app /=. rewrite /released /= in Hwin Hroom Hsl |- *.
      split; [lia|]. split; [done|].
      destruct (Hsl (length l)) as (sl & Hs & Hok); [lia|]. exists sl. split; [done|].
      destruct Hok as [?|[?|?]]; lia.
    + pose proof (Hpr j u Hj) as Hok. destruct u; simpl in *; rewrite ?length_app /=; try lia; try done.
      * destruct Hok as ([? ?] & ? & ?). rewrite rd_snoc //. split; [|done].
        unfold released in *; simpl in *; lia.
      * destruct Hok as ([? ?] & ? & ?). rewrite rd_snoc //. split; [|done].
        unfold released in *; simpl in *; lia.
  - intros j k u u' p.
    assert (∀ j u, ts !! j = Some u → owns u = Some (Z.of_nat (length l)) → False) as Hfresh.
    { intros j' t' Hj' Ht'. pose proof (Hpr j' t' Hj') as Hok.
      destruct t'; simpl in *; try done; injection Ht' as ->; lia. }
    intros [[-> ->]|[Hj Hju]]%(lookup_thread _ _ _ _ _ _ Hi)
      [[-> ->]|[Hk Hku]]%(lookup_thread _ _ _ _ _ _ Hi) H1 H2; simpl in *; simplify_eq; try done.
    + exfalso. eauto.
    + exfalso. eauto.
    + by eapply Hun.
  - destruct c; rewrite /cpc_ok /= in Hco |- *; try exact Hco.
    + destruct Hco as (-> & Hr & ?). rewrite rd_snoc //. apply rd_lt in Hr. lia.
    + destruct Hco as (-> & Hr). rewrite rd_snoc //. apply rd_lt in Hr. lia.
Qed.

Lemma owner_range s t pos :
  ppc_ok s t → owns t = Some pos →
  released s ≤ pos < length (log s) ∧ ∃ sl, slot (q s) pos = Some sl ∧ sequence sl = pos.
Proof using.
  destruct t; simpl; try done; intros (? & _ & Hs) [= <-]; (split; [done|]); [done|].
  by eexists.
Qed.

(** The owner of a position writes to its slot. *)
Lemma inv_owner q l o ts c i t t' pos f :
  inv (St q l o ts c) → ts !! i = Some t → owns t = Some pos →
  (owns t' = None ∨ owns t' = owns t) →
  (∀ sl, slot q pos = Some sl → slot_ok l (<[i := t']> ts) pos (f sl)) →
  ppc_ok (St (upd_slot pos f q) l o ts c) t' →
  inv (St (upd_slot pos f q) l o (<[i := t']> ts) c).
Proof using Hcap.
  intros [Hlen Henq Hout Hdeq Hwin Hsl Hpr Hun Hco] Hi Ht Ht' Hf Hok. simpl in *.
  pose proof (upd_slot_pos Capacity q pos f) as (He & Hd & Hl).
  assert (released (St (upd_slot pos f q) l o (<[i := t']> ts) c) = released (St q l o ts c)) as HR
    by (rewrite /released /= Hd //).
  destruct (owner_range _ _ _ (Hpr i t Hi) Ht) as (Hpos & sl & Hs & Hseq). simpl in *.
  split; rewrite ?HR; simpl; rewrite ?He ?Hd ?Hl; try done.
  - intros p Hp. destruct (decide (p = pos)) as [->|Hne].
    + exists (f sl). split; [by apply slot_upd_eq|by apply Hf].
    + rewrite (slot_upd_ne _ Hcap _ (released (St q l o ts c))) //; [|lia].
      destruct (Hsl p Hp) as (sl' & ? & Hok'). exists sl'. split; [done|].
      eapply slot_ok_ts; [|exact Hok']. intros j u Hj Hu. exists j, u.
      rewrite list_lookup_insert_ne; [done|]. intros ->. congruence.
  - intros j u [[-> ->]|[Hji Hj]]%(lookup_thread _ _ _ _ _ _ Hi); [exact Hok|].
    pose proof (Hpr j u Hj) as Hu.
    assert (∀ x, owns u = Some x → slot (upd_slot pos f q) x = slot q x) as Hfr.
    { intros y Hy. destruct (owner_range _ _ _ Hu Hy) as [Hry _]. simpl in Hry.
      apply (slot_upd_ne _ Hcap _ (released (St q l o ts c))); [lia|lia|].
      intros <-. apply Hji. symmetry. by eapply Hun. }
    destruct u; simpl in *; rewrite ?HR ?Hfr; done.
  - eapply uniq_thread; eauto.
  - assert (released (St q l o ts c) = m_dequeue_pos q → ∀ sl', slot q (m_dequeue_pos q) = Some sl' →
      sequence sl' = m_dequeue_pos q + 1 →
      slot (upd_slot pos f q) (m_dequeue_pos q) = slot q (m_dequeue_pos q)) as Hfr.
    { intros HR0 sl' Hs' Hq. apply (slot_upd_ne _ Hcap _ (released (St q l o ts c))); [lia|lia|].
      intros Heq. rewrite Heq in Hs. simplify_eq. lia. }
    rewrite /cpc_ok /released /= Hd in Hco Hfr |- *. destruct c; try done.
    + destruct Hco as (-> & sl' & ? & ?). rewrite (Hfr (Z.add_0_r _) sl') //. eauto.
    + destruct Hco as (-> & ? & sl' & ? & ?). rewrite (Hfr (Z.add_0_r _) sl') //. eauto.
Qed.

Lemma inv_write q l o ts c i x pos :
  inv (St q l o ts c) → ts !! i = Some (PClaimed x pos) →
  inv (St (upd_slot pos (set_item x) q) l o (<[i := PWritten x pos]> ts) c).
Proof using Hcap.
  intros Hinv Hi. pose proof (i_prods _ _ Hinv i _ Hi) as (Hr & Hx & sl & Hs & Hseq). simpl in *.
  eapply inv_owner; [done|done|done|by right| |].
  - intros sl' Hs'. simplify_eq. right; left. split; [lia|]. split; [done|].
    exists i, (PWritten x (sequence sl)). split; [|done].
    apply list_lookup_insert_eq. by eapply lookup_lt_Some.
  - simpl. pose proof (upd_slot_pos Capacity q pos (set_item x)) as (_ & Hd & _).
    rewrite /released /= Hd in Hr |- *. split; [done|]. split; [done|].
    rewrite (slot_upd_eq _ _ _ _ _ Hs) /set_item Hseq //.
Qed.

Lemma inv_publish q l o ts c i x pos :
  inv (St q l o ts c) → ts !! i = Some (PWritten x pos) → pos + 1 < 2 ^ 64 →
  inv (St (upd_slot pos (set_sequence (u64 (pos + 1))) q) l o (<[i := PIdle]> ts) c).
Proof using Hcap.
  intros Hinv Hi Hb. pose proof (i_prods _ _ Hinv i _ Hi) as (Hr & Hx & Hs). simpl in *.
  pose proof (rd_lt _ _ _ Hx).
  eapply inv_owner; [done|done|done|by left| |done].
  intros sl' Hs'. simplify_eq. left. simpl. rewrite u64_small; [|lia]. split; [lia|done].
Qed.

(** A published slot at the front of the window. *)
Lemma front_published q l o ts c sl :
  inv (St q l o ts c) → released (St q l o ts c) = m_dequeue_pos q →
  slot q (m_dequeue_pos q) = Some sl → sequence sl = m_dequeue_pos q + 1 →
  m_dequeue_pos q < length l ∧ rd l (m_dequeue_pos q) = Some (item sl).
Proof using Hcap.
  intros Hinv HR Hs Hq. pose proof (cap_bounds _ Hcap).
  destruct (i_slots _ _ Hinv (m_dequeue_pos q)) as (sl' & Hs' & Hok); [rewrite HR; lia|].
  simpl in *. simplify_eq. destruct Hok as [(? & _ & ?)|[(_ & ? & _)|(_ & ?)]]; [done|lia|lia].
Qed.

(** The consumer releases the slot it has read. *)
Lemma inv_free q l o ts pos x :
  inv (St q l o ts (CRead pos x)) → length l + Capacity < 2 ^ 64 →
  inv (St (upd_slot pos (set_sequence (u64 (pos + Capacity))) q) l o ts (CFreed pos x)).
Proof using Hcap.
  intros Hinv Hb. pose proof (cap_bounds _ Hcap) as Hc2.
  destruct Hinv as [Hlen Henq Hout Hdeq Hwin Hsl Hpr Hun Hco] eqn:E.
  pose proof Hco as (-> & Hx & sl & Hs & Hseq). simpl in *.
  destruct (front_published _ _ _ _ _ sl Hinv (Z.add_0_r _) Hs Hseq) as [Hlt _]. clear E.
  set (f := set_sequence (u64 (m_dequeue_pos q + Capacity))).
  pose proof (upd_slot_pos Capacity q (m_dequeue_pos q) f) as (He & Hd & Hl).
  pose proof (rd_lt _ _ _ Hx) as Hx0. rewrite /released /= in Hwin Hsl.
  split; simpl; rewrite ?He ?Hd ?Hl; try done; rewrite /released /= ?Hd.
  - lia.
  - intros p Hp. destruct (decide (p = m_dequeue_pos q + Capacity)) as [->|Hne].
    + rewrite slot_shift //. exists (f sl). split; [by apply slot_upd_eq|].
      right; right. rewrite /f /= u64_small; lia.
    + rewrite (slot_upd_ne _ Hcap _ (m_dequeue_pos q)); [|lia|lia|lia].
      apply Hsl. lia.
  - intros j u Hj. pose proof (Hpr j u Hj) as Hu.
    assert (∀ y, owns u = Some y → m_dequeue_pos q + 1 ≤ y < length l ∧
      slot (upd_slot (m_dequeue_pos q) f q) y = slot q y) as Hfr.
    { intros y Hy. destruct (owner_range _ _ _ Hu Hy) as (Hry & sy & Hsy & Hqy).
      rewrite /released /= in Hry, Hsy. assert (y ≠ m_dequeue_pos q).
      { intros ->. simplify_eq. lia. }
      split; [lia|]. apply (slot_upd_ne _ Hcap _ (m_dequeue_pos q)); lia. }
    destruct u; simpl in *; rewrite /released /= ?Hd in Hu |- *; try lia.
    + destruct (Hfr _ eq_refl) as [? ->]. destruct Hu as (_ & ? & ?). done.
    + destruct (Hfr _ eq_refl) as [? ->]. destruct Hu as (_ & ? & ?). done.
Qed.

(** The consumer moves on; its item is the next of the log. *)
Lemma inv_done q l o ts pos x :
  inv (St q l o ts (CFreed pos x)) → length l + Capacity < 2 ^ 64 →
  inv (St (set_dequeue_pos (u64 (pos + 1)) q) l (o ++ [x]) ts CIdle).
Proof using Hcap.
  intros [Hlen Henq [rest Hout] Hdeq Hwin Hsl Hpr Hun Hco] Hb. pose proof (cap_bounds _ Hcap) as Hc2.
  destruct Hco as [-> Hx]. simpl in *. pose proof (rd_lt _ _ _ Hx) as Hx0.
  assert (released (St (set_dequeue_pos (u64 (m_dequeue_pos q + 1)) q) l (o ++ [x]) ts CIdle) =
    released (St q l o ts (CFreed (m_dequeue_pos q) x))) as HR.
  { rewrite /released /= u64_small; lia. }
  split; rewrite ?HR; try done; simpl.
  - destruct rest as [|y rest].
    + rewrite Hout app_nil_r in Hx0. lia.
    + exists rest. rewrite Hdeq Hout /rd decide_True in Hx; [|lia].
      rewrite Nat2Z.id list_lookup_middle // in Hx. simplify_eq. by rewrite -app_assoc.
  - rewrite u64_small ?length_app /=; lia.
  - intros j u Hj. pose proof (Hpr j u Hj) as Hu. destruct u; simpl in *; rewrite ?HR; done.
Qed.

(** The history variables only grow. *)
Lemma log_grows s s' : step Capacity s s' → (length (log s) ≤ length (log s'))%nat.
Proof using. intros []; simpl; rewrite ?length_app; lia. Qed.

(** A slot that is not behind [pos] has room for it. *)
Lemma seen_room q l o ts c pos sl :
  inv (St q l o ts c) → slot q pos = Some sl → pos ≤ sequence sl →
  pos = length l → length l < released (St q l o ts c) + Capacity.
Proof using Hcap.
  intros Hinv Hs Hq ->. pose proof (cap_bounds _ Hcap).
  pose proof (i_win _ _ Hinv) as Hw. simpl in Hw.
  destruct (decide (Z.of_nat (length l) = released (St q l o ts c) + Capacity)) as [Heq|]; [|lia].
  exfalso. destruct (i_slots _ _ Hinv (released (St q l o ts c))) as (sl' & Hs' & Hok); [lia|].
  simpl in *. rewrite Heq slot_shift // in Hs. simplify_eq.
  destruct Hok as [(_ & ? & _)|[(_ & ? & _)|(? & ?)]]; lia.
Qed.

Lemma mq_inv_step s s' :
  step Capacity s s' → length (log s') + Capacity < 2 ^ 64 → inv s → inv s'.
Proof using Hcap.
  intros Hst. pose proof (log_grows _ _ Hst) as Hg. pose proof (cap_bounds _ Hcap) as Hc2.
  destruct Hst as [q l o ts c i x Hi|q l o ts c i x pos sl Hi Hs Hq|q l o ts c i x pos sl Hi Hs Hq
    |q l o ts c i x pos Hi He|q l o ts c i x pos Hi|q l o ts c i x pos Hi|q l o ts c i x pos Hi
    |q l o ts|q l o ts pos sl Hs Hq|q l o ts pos sl Hs Hq|q l o ts pos sl Hs|q l o ts pos x
    |q l o ts pos x]; intros Hb Hinv; simpl in Hb, Hg; pose proof (i_enq _ _ Hinv) as Henq;
    simpl in Henq.
  - eapply inv_thread; [done|done|done|]. simpl. lia.
  - by eapply inv_thread.
  - eapply inv_thread; [done|done|done|]. split; [exact (i_prods _ _ Hinv i _ Hi)|].
    by eapply seen_room.
  - rewrite Henq in He. subst pos. rewrite length_app /= in Hb. apply inv_cas; [done|done|lia].
  - eapply inv_thread; [done|done|done|]. simpl. lia.
  - by apply inv_write.
  - apply (inv_publish _ _ _ _ _ i x); [done|done|].
    pose proof (i_prods _ _ Hinv i _ Hi) as (Hr & _). simpl in Hr. lia.
  - by eapply inv_consumer.
  - by eapply inv_consumer.
  - pose proof (i_cons _ _ Hinv) as Hc. rewrite /cpc_ok /= in Hc. subst pos.
    eapply inv_consumer; [done|done|]. split; [done|]. exists sl. split; [done|].
    pose proof (i_deq _ _ Hinv) as Hd. pose proof (i_win _ _ Hinv) as Hw.
    rewrite /released /= in Hd, Hw. rewrite u64_small in Hq; [done|lia].
  - pose proof (i_cons _ _ Hinv) as (Hpos & sl' & Hs' & Hq). simpl in *. subst pos. simplify_eq.
    destruct (front_published _ _ _ _ _ sl Hinv (Z.add_0_r _) Hs Hq).
    eapply inv_consumer; [done|done|]. split; [done|]. split; [done|]. by exists sl.
  - by apply inv_free.
  - by apply inv_done.
Qed.

Lemma log_grows_rtc s s' : rtc (step Capacity) s s' → (length (log s) ≤ length (log s'))%nat.
Proof using. induction 1 as [|s s1 s' H1 _ IH]; [done|]. pose proof (log_grows _ _ H1). lia. Qed.

Lemma mq_inv_reachable n s :
  reachable Capacity n s → length (log s) + Capacity < 2 ^ 64 → inv s.
Proof using Hcap.
  intros Hr. pose proof (mq_inv_init n) as Hi. rewrite /reachable in Hr.
  revert Hi. induction Hr as [|s s1 s' H1 H2 IH]; [done|]. intros Hi Hb.
  apply IH; [|done]. eapply mq_inv_step; [exact H1| |done].
  pose proof (log_grows_rtc _ _ H2). lia.
Qed.
End invariant.

(** *** Calls without interference *)

Section calls.
Context (Capacity : Z) (Hcap : ∃ k, 1 ≤ k ≤ 62 ∧ Capacity = 2 ^ k).
#[local] Abbreviation slot := (slot Capacity).
#[local] Abbreviation upd_slot := (upd_slot Capacity).

(** Between calls the queue holds the items [l], oldest first. *)
Definition holds (q : Queue) (l : list Z) : Prop :=
  ∃ o, inv Capacity (St q (o ++ l) o [PIdle] CIdle).

Lemma holds_ctor : holds (MpscGrayQueue_ctor Capacity) [].
Proof using Hcap. exists []. exact (mq_inv_init Capacity Hcap 1). Qed.

Lemma holds_slot q l k :
  holds q l → 0 ≤ k < Capacity →
  ∃ sl, slot q (m_dequeue_pos q + k) = Some sl ∧
    match rd l k with
    | Some x => sl = MkSlot (m_dequeue_pos q + k + 1) x
    | None => sequence sl = m_dequeue_pos q + k
    end.
Proof using.
  intros [o Hinv] Hk. pose proof (i_deq _ _ Hinv) as Hd. simpl in Hd.
  destruct (i_slots _ _ Hinv (m_dequeue_pos q + k)) as (sl & Hs & Hok).
  { rewrite /released /=. lia. }
  simpl in *. exists sl. split; [done|].
  assert (rd (o ++ l) (m_dequeue_pos q + k) = rd l k) as Hrd.
  { rewrite Hd /rd !decide_True; [|lia|lia]. rewrite lookup_app_r; [|lia]. f_equal. lia. }
  rewrite /slot_ok Hrd in Hok. destruct Hok as [(_ & Hq & Hi)|[(_ & _ & i & t & Hi & Ht)|(Hge & Hq)]].
  - rewrite Hi. destruct sl; simpl in *. by subst.
  - destruct i as [|i]; simplify_eq/=.
  - destruct (rd l k) as [x|] eqn:Hx; [|done]. apply rd_lt in Hx. rewrite length_app in Hge. lia.
Qed.

Lemma wp_load_slot pos sl (Q : Slot → Queue → Prop) q :
  slot q pos = Some sl → Q sl q → wp (load_slot Capacity pos) Q q.
Proof using. intros Hs HQ. rewrite /wp /load_slot /gets /mbind /M_bind /of_option Hs. done. Qed.

Lemma wp_store_slot pos f sl (Q : unit → Queue → Prop) q :
  slot q pos = Some sl → Q tt (upd_slot pos f q) → wp (store_slot Capacity pos f) Q q.
Proof using. intros Hs HQ. apply wp_bind. by eapply wp_load_slot. Qed.

(** A step of the interleaved machine, and the invariant after it. *)
Lemma holds_steps q l o q' l' o' :
  inv Capacity (St q l o [PIdle] CIdle) →
  rtc (step Capacity) (St q l o [PIdle] CIdle) (St q' l' o' [PIdle] CIdle) →
  length l' + Capacity < 2 ^ 64 →
  inv Capacity (St q' l' o' [PIdle] CIdle).
Proof using Hcap.
  intros Hi Hr Hb. remember (St q l o [PIdle] CIdle) as s eqn:Hs. clear Hs.
  remember (St q' l' o' [PIdle] CIdle) as s' eqn:Hs'.
  assert (length (log s') + Capacity < 2 ^ 64) as Hb' by (by subst). clear Hs' Hb.
  induction Hr as [|s s1 s' H1 H2 IH]; [done|].
  apply IH; [|done]. eapply mq_inv_step; [done|exact H1| |done].
  pose proof (log_grows_rtc _ _ _ H2). lia.
Qed.

Lemma enqueue_steps q l o sl x :
  slot q (m_enqueue_pos q) = Some sl → m_enqueue_pos q ≤ sequence sl →
  rtc (step Capacity) (St q l o [PIdle] CIdle)
    (St (upd_slot (m_enqueue_pos q) (set_sequence (u64 (m_enqueue_pos q + 1)))
          (upd_slot (m_enqueue_pos q) (set_item x)
            (set_enqueue_pos (u64 (m_enqueue_pos q + 1)) q)))
       (l ++ [x]) o [PIdle] CIdle).
Proof using.
  intros Hs Hq.
  eapply rtc_l; [by apply (step_call Capacity q l o [PIdle] CIdle 0 x)|].
  eapply rtc_l; [by apply (step_seen Capacity q l o [PPos x (m_enqueue_pos q)] CIdle 0 x (m_enqueue_pos q) sl)|].
  eapply rtc_l; [by apply (step_cas_ok Capacity q l o [PSeen x (m_enqueue_pos q)] CIdle 0 x (m_enqueue_pos q))|].
  eapply rtc_l; [by apply (step_write Capacity _ _ _ [PClaimed x (m_enqueue_pos q)] _ 0 x (m_enqueue_pos q))|].
  apply rtc_once. by apply (step_publish Capacity _ _ _ [PWritten x (m_enqueue_pos q)] _ 0 x (m_enqueue_pos q)).
Qed.

Lemma dequeue_steps q l o x sl :
  slot q (m_dequeue_pos q) = Some sl → sequence sl = u64 (m_dequeue_pos q + 1) → item sl = x →
  rtc (step Capacity) (St q l o [PIdle] CIdle)
    (St (set_dequeue_pos (u64 (m_dequeue_pos q + 1))
          (upd_slot (m_dequeue_pos q) (set_sequence (u64 (m_dequeue_pos q + Capacity))) q))
       l (o ++ [x]) [PIdle] CIdle).
Proof using.
  intros Hs Hq <-.
  eapply rtc_l; [by apply step_deq|]. eapply rtc_l; [by eapply step_ready|].
  eapply rtc_l; [by eapply step_read|]. eapply rtc_l; [by apply step_free|].
  apply rtc_once. by apply step_done.
Qed.

Lemma holds_bounds q l :
  holds q l → 0 ≤ m_dequeue_pos q ∧ m_enqueue_pos q = m_dequeue_pos q + length l ∧
  length l ≤ Capacity.
Proof using.
  intros [o [_ He _ Hd Hw _ _ _ _]]. rewrite /released /= length_app in He, Hd, Hw. lia.
Qed.

Lemma slot_enqueue_pos n q p : slot (set_enqueue_pos n q) p = slot q p.
Proof using. done. Qed.

Lemma try_enqueue_spec x q l :
  holds q l → m_enqueue_pos q + 1 + Capacity < 2 ^ 64 →
  wp (try_enqueue Capacity x) (λ b q', b = bool_decide (length l < Capacity) ∧
    m_enqueue_pos q' = m_enqueue_pos q + Z.b2z b ∧
    holds q' (if b then l ++ [x] else l)) q.
Proof using Hcap.
  intros Hq Hb. pose proof (holds_bounds _ _ Hq) as (Hd & He & Hl).
  pose proof (cap_bounds _ Hcap) as Hc. rewrite /try_enqueue. wp_steps.
  destruct (decide (length l < Capacity)) as [Hlt|Hge].
  - destruct (holds_slot q l (length l) Hq) as (sl & Hs & Hsq); [lia|].
    rewrite (_ : rd l (length l) = None) in Hsq.
    2:{ rewrite /rd decide_True; [|lia]. apply lookup_ge_None_2. lia. }
    rewrite -He in Hs Hsq. eapply wp_load_slot; [done|]. bool_test (sequence sl <? m_enqueue_pos q).
    wp_steps. eapply wp_store_slot; [by rewrite slot_enqueue_pos|]. wp_steps.
    eapply wp_store_slot; [apply slot_upd_eq; by rewrite slot_enqueue_pos|]. wp_steps.
    rewrite bool_decide_eq_true_2 //. split; [done|]. split.
    + rewrite !(proj1 (upd_slot_pos _ _ _ _)) /= u64_small; lia.
    + destruct Hq as [o Hinv]. exists o. rewrite app_assoc.
      eapply holds_steps; [exact Hinv|eapply enqueue_steps; [done|lia]|].
      pose proof (i_enq _ _ Hinv) as He'. simpl in He'. rewrite length_app /=. lia.
  - assert (Z.of_nat (length l) = Capacity) as Hfull by lia.
    destruct (holds_slot q l 0 Hq) as (sl & Hs & Hsq); [lia|].
    destruct (rd_in l 0) as [y Hy]; [lia|]. rewrite Hy Z.add_0_r in Hsq. subst sl.
    eapply wp_load_slot.
    { rewrite He Hfull slot_shift //. rewrite Z.add_0_r in Hs. exact Hs. }
    simpl. bool_test (m_dequeue_pos q + 1 <? m_enqueue_pos q). wp_steps.
    rewrite bool_decide_eq_false_2 //. split; [done|]. split; [simpl; lia|done].
Qed.

Lemma front_slot q l :
  holds q l → m_enqueue_pos q + Capacity < 2 ^ 64 →
  ∃ sl, slot q (m_dequeue_pos q) = Some sl ∧
    match l with
    | [] => sequence sl ≠ u64 (m_dequeue_pos q + 1)
    | x :: _ => sequence sl = u64 (m_dequeue_pos q + 1) ∧ item sl = x
    end.
Proof using Hcap.
  intros Hq Hb. pose proof (holds_bounds _ _ Hq) as (Hd & He & Hl).
  pose proof (cap_bounds _ Hcap) as Hc.
  destruct (holds_slot q l 0 Hq) as (sl & Hs & Hsq); [lia|]. rewrite Z.add_0_r in Hs.
  exists sl. split; [done|]. rewrite u64_small; [|lia].
  destruct l as [|x l]; simpl in Hsq; [lia|]. subst sl. simpl. lia.
Qed.

Lemma holds_pop q x l sl :
  holds q (x :: l) → m_enqueue_pos q + Capacity < 2 ^ 64 →
  slot q (m_dequeue_pos q) = Some sl → sequence sl = u64 (m_dequeue_pos q + 1) → item sl = x →
  holds (set_dequeue_pos (u64 (m_dequeue_pos q + 1))
    (upd_slot (m_dequeue_pos q) (set_sequence (u64 (m_dequeue_pos q + Capacity))) q)) l.
Proof using Hcap.
  intros [o Hinv] Hb Hs Hsq Hx. exists (o ++ [x]). rewrite -app_assoc /=.
  eapply holds_steps; [exact Hinv|by eapply dequeue_steps|].
  pose proof (i_enq _ _ Hinv) as He. simpl in He. lia.
Qed.

Lemma dequeue_spec q l :
  holds q l → m_enqueue_pos q + Capacity < 2 ^ 64 →
  wp (dequeue Capacity) (λ r q', m_enqueue_pos q' = m_enqueue_pos q ∧
    match l with
    | [] => r = 0 ∧ q' = q
    | x :: l' => r = x ∧ holds q' l'
    end) q.
Proof using Hcap.
  intros Hq Hb. destruct (front_slot q l Hq Hb) as (sl & Hs & Hsq).
  rewrite /dequeue. wp_steps. eapply wp_load_slot; [done|]. destruct l as [|x l].
  - bool_test (sequence sl =? u64 (m_dequeue_pos q + 1)).
    cbn [negb]. by wp_steps.
  - destruct Hsq as [Hsq Hx]. bool_test (sequence sl =? u64 (m_dequeue_pos q + 1)).
    cbn [negb]. wp_steps.
    eapply wp_store_slot; [done|]. wp_steps.
    split; [exact (proj1 (upd_slot_pos _ _ _ _))|]. split; [done|]. by eapply holds_pop.
Qed.

Lemma drain_spec n q l :
  holds q l → m_enqueue_pos q + Capacity < 2 ^ 64 →
  wp (drain_loop Capacity n) (λ r q', m_enqueue_pos q' = m_enqueue_pos q ∧
    r = take n l ∧ holds q' (drop n l)) q.
Proof using Hcap.
  revert q l. induction n as [|n IH]; intros q l Hq Hb; [by wp_steps|].
  destruct (front_slot q l Hq Hb) as (sl & Hs & Hsq).
  simpl. wp_steps. eapply wp_load_slot; [done|]. destruct l as [|x l].
  - bool_test (sequence sl =? u64 (m_dequeue_pos q + 1)).
    cbn [negb]. by wp_steps.
  - destruct Hsq as [Hsq Hx]. bool_test (sequence sl =? u64 (m_dequeue_pos q + 1)).
    cbn [negb]. wp_steps.
    eapply wp_store_slot; [done|]. wp_steps.
    pose proof (upd_slot_pos Capacity q (m_dequeue_pos q)
      (set_sequence (u64 (m_dequeue_pos q + Capacity)))) as (He & _).
    eapply wp_mono; [apply (IH _ l); [by eapply holds_pop|simpl; lia]|].
    intros r q' (He' & -> & Hq'). wp_steps. rewrite He'. simpl. split; [done|]. by rewrite Hx.
Qed.

Lemma empty_spec q l :
  holds q l → m_enqueue_pos q + Capacity < 2 ^ 64 →
  empty Capacity q = Ok (bool_decide (l = []), q).
Proof using Hcap.
  intros Hq Hb. destruct (front_slot q l Hq Hb) as (sl & Hs & Hsq). apply wp_exact.
  rewrite /empty. wp_steps. eapply wp_load_slot; [done|]. wp_steps. split; [|done].
  destruct l as [|x l]; [|destruct Hsq as [Hsq _]]; case_bool_decide; try done; lia.
Qed.
End calls.

(** ** Properties *)

Section properties.
Context (Capacity : Z) (Hcap : ∃ k, 1 ≤ k ≤ 62 ∧ Capacity = 2 ^ k).

(** C13: no item is lost, duplicated or reordered.  In every interleaving of any
    number of producers with the consumer (short of 2^64 enqueues), what the
    consumer has returned is an initial segment of the items in the order of
    their claims, the item it is about to return is the next one, and at most
    [Capacity] claimed positions have not been released. *)
Theorem mpsc_fifo n s (Hr : reachable Capacity n s) (Hb : length (log s) + Capacity < 2 ^ 64) :
  (∃ rest, log s = out s ++ rest) ∧
  (∀ pos x, cs s = CRead pos x ∨ cs s = CFreed pos x → rd (log s) (length (out s)) = Some x) ∧
  released s ≤ length (log s) ≤ released s + Capacity.
Proof using Hcap.
  pose proof (mq_inv_reachable _ Hcap n s Hr Hb) as Hinv. split; [apply Hinv|]. split; [|apply Hinv].
  intros pos x Hc. rewrite -(i_deq _ _ Hinv). pose proof (i_cons _ _ Hinv) as Hok.
  rewrite /cpc_ok in Hok. destruct Hc as [Hc|Hc]; rewrite Hc in Hok.
  - by destruct Hok as (-> & ? & _).
  - by destruct Hok as (-> & ?).
Qed.

(** C30: the item field of a slot is never accessed by two threads at once: two
    producers that write an item, and a producer that writes one while the consumer
    reads one, do so in different slots. *)
Theorem mpsc_race_free n s i x pos
    (Hr : reachable Capacity n s) (Hb : length (log s) + Capacity < 2 ^ 64)
    (Hi : ps s !! i = Some (PClaimed x pos)) :
  (∀ j y pos', ps s !! j = Some (PClaimed y pos') → i ≠ j →
     Z.land pos (MASK Capacity) ≠ Z.land pos' (MASK Capacity)) ∧
  (∀ pos', cs s = CReady pos' → Z.land pos (MASK Capacity) ≠ Z.land pos' (MASK Capacity)).
Proof using Hcap.
  pose proof (mq_inv_reachable _ Hcap n s Hr Hb) as Hinv.
  pose proof (i_prods _ _ Hinv i _ Hi) as (Hw & _ & sl & Hs & Hq).
  pose proof (i_win _ _ Hinv) as Hwin. split.
  - intros j y pos' Hj Hne. pose proof (i_prods _ _ Hinv j _ Hj) as (Hw' & _).
    rewrite !MASK_mod //. intros Heq. apply Hne, (i_uniq _ _ Hinv i j _ _ pos Hi Hj); [done|].
    simpl. f_equal. symmetry. apply (idx_window _ Hcap (released s)); [lia|lia|done].
  - intros pos' Hc. pose proof (i_cons _ _ Hinv) as Hok. rewrite /cpc_ok Hc in Hok.
    destruct Hok as (_ & sl' & Hs' & Hq'). rewrite /slot in Hs, Hs'. intros Heq.
    rewrite Heq Hs' in Hs. injection Hs as ->.
    rewrite !MASK_mod // in Heq. pose proof (cap_bounds _ Hcap).
    rewrite -Hq Hq' -(Z.add_mod_idemp_l pos' 1) in Heq; [|lia].
    pose proof (idx_bounds _ Hcap pos').
    destruct (decide (pos' mod Capacity + 1 = Capacity)) as [He|Hne].
    + rewrite He Z.mod_same in Heq; lia.
    + rewrite (Z.mod_small (pos' mod Capacity + 1)) in Heq; lia.
Qed.

(** A failed call has a reason.  When [try_enqueue] is about to return [false]
    all [Capacity] slots are taken by positions not yet released; when [dequeue] is about to
    return [nullptr] and no producer is in the middle of filling that slot, every
    claimed item has been returned. *)
Theorem mpsc_failure_justified n s
    (Hr : reachable Capacity n s) (Hb : length (log s) + Capacity < 2 ^ 64) :
  (∀ i x pos sl, ps s !! i = Some (PPos x pos) → slot Capacity (q s) pos = Some sl →
     sequence sl < pos → length (log s) = released s + Capacity :> Z) ∧
  (∀ pos sl, cs s = CPos pos → slot Capacity (q s) pos = Some sl →
     sequence sl ≠ u64 (pos + 1) → (∀ i t, ps s !! i = Some t → owns t ≠ Some pos) →
     out s = log s).
Proof using Hcap.
  pose proof (mq_inv_reachable _ Hcap n s Hr Hb) as Hinv. pose proof (cap_bounds _ Hcap) as Hc2.
  pose proof (i_win _ _ Hinv) as Hwin. split.
  - intros i x pos sl Hi Hs Hlt. pose proof (i_prods _ _ Hinv i _ Hi) as Hpos. simpl in Hpos.
    destruct (decide (pos < released s + Capacity)) as [Hin|]; [|lia]. exfalso.
    assert (∃ p, pos ≤ p ∧ released s ≤ p < released s + Capacity ∧ slot Capacity (q s) p = Some sl)
      as (p & Hp & Hw & Hsp).
    { exists (released s + (pos - released s) mod Capacity).
      pose proof (idx_bounds _ Hcap (pos - released s)).
      pose proof (Z.mod_le (pos - released s) Capacity).
      split; [|split; [lia|]].
      - destruct (decide (released s ≤ pos)); [|lia].
        rewrite Z.mod_small; lia.
      - rewrite -Hs /slot !MASK_mod // Z.add_mod_idemp_r; [|lia]. do 2 f_equal. lia. }
    destruct (i_slots _ _ Hinv p Hw) as (sl' & Hs' & Hok). simplify_eq.
    destruct Hok as [(_ & ? & _)|[(_ & ? & _)|(_ & ?)]]; lia.
  - intros pos sl Hc Hs Hq Hno. pose proof (i_cons _ _ Hinv) as Hok. rewrite /cpc_ok Hc in Hok.
    subst pos. pose proof (i_deq _ _ Hinv) as Hd. destruct (i_out _ _ Hinv) as [rest Hl].
    rewrite /released Hc Z.add_0_r in Hwin.
    destruct (i_slots _ _ Hinv (m_dequeue_pos (q s))) as (sl' & Hs' & Hok).
    { rewrite /released Hc. lia. }
    simplify_eq. rewrite u64_small in Hq; [|lia].
    destruct Hok as [(_ & ? & _)|[(_ & _ & i & t & Hi & Ht)|(Hge & _)]];
      [done|by destruct (Hno i t Hi)|].
    rewrite Hd Hl length_app in Hge. destruct rest; [by rewrite Hl app_nil_r|simpl in Hge; lia].
Qed.

(** C31: without interference the queue is a FIFO list bounded by [Capacity]:
    [try_enqueue] appends and returns [true] exactly when there is room, [dequeue]
    takes the oldest item or returns [nullptr] from the empty queue, [drain] takes
    as many of the oldest items as there are, up to its limit, and [empty] tells
    whether there is an item. *)
Theorem queue_refines_fifo q l x n
    (Hq : holds Capacity q l) (Hb : m_enqueue_pos q + 1 + Capacity < 2 ^ 64) :
  wp (try_enqueue Capacity x) (λ b q', b = bool_decide (length l < Capacity) ∧
    holds Capacity q' (if b then l ++ [x] else l)) q ∧
  wp (dequeue Capacity) (λ r q', match l with
    | [] => r = 0 ∧ q' = q
    | y :: l' => r = y ∧ holds Capacity q' l'
    end) q ∧
  wp (drain Capacity n) (λ r q', r = take (Z.to_nat n) l ∧
    holds Capacity q' (drop (Z.to_nat n) l)) q ∧
  empty Capacity q = Ok (bool_decide (l = []), q).
Proof using Hcap.
  split; [|split; [|split]].
  - eapply wp_mono; [by apply try_enqueue_spec|]. by intros b q' (? & _ & ?).
  - eapply wp_mono; [apply (dequeue_spec _ Hcap _ _ Hq); lia|]. by intros b q' [].
  - eapply wp_mono; [apply (drain_spec _ Hcap _ _ _ Hq); lia|]. by intros b q' [].
  - apply empty_spec; [done|done|lia].
Qed.
End properties.

(** ** Witnesses *)

Lemma cap2 : ∃ k, 1 ≤ k ≤ 62 ∧ 2 = 2 ^ k.
Proof. by exists 1. Qed.

(** Two slots; one item enqueued. *)
Definition q1 : Queue := MkQueue [MkSlot 1 7; MkSlot 1 0] 1 0.

Lemma run_q1 : reachable 2 1 (St q1 [7] [] [PIdle] CIdle).
Proof. exact (enqueue_steps 2 (MpscGrayQueue_ctor 2) [] [] (MkSlot 0 0) 7 eq_refl ltac:(done)). Qed.

Lemma holds_q1 : holds 2 q1 [7].
Proof. exists []. apply (mq_inv_reachable 2 cap2 1 _ run_q1). vm_compute. done. Qed.

(** Two producers have claimed the positions 0 and 1. *)
Definition s_claim : st :=
  St (MkQueue [MkSlot 0 0; MkSlot 1 0] 2 0) [7; 8] [] [PClaimed 7 0; PClaimed 8 1] CIdle.

Lemma run_claim : reachable 2 2 s_claim.
Proof.
  eapply rtc_l; [by apply (step_call 2 _ _ _ [PIdle; PIdle] _ 0 7)|].
  eapply rtc_l; [by apply (step_seen 2 _ _ _ [PPos 7 0; PIdle] _ 0 7 0 (MkSlot 0 0))|].
  eapply rtc_l; [by apply (step_cas_ok 2 (MpscGrayQueue_ctor 2) [] [] [PSeen 7 0; PIdle] CIdle 0 7 0)|].
  eapply rtc_l; [by apply (step_call 2 _ _ _ [PClaimed 7 0; PIdle] _ 1 8)|].
  eapply rtc_l; [by apply (step_seen 2 _ _ _ [PClaimed 7 0; PPos 8 1] _ 1 8 1 (MkSlot 1 0))|].
  apply rtc_once. by apply (step_cas_ok 2 (MkQueue [MkSlot 0 0; MkSlot 1 0] 1 0) [7] []
    [PClaimed 7 0; PSeen 8 1] CIdle 1 8 1).
Qed.

Lemma mpsc_fifo_witness : ∃ rest, [7] = [] ++ rest :> list Z.
Proof.
  destruct (mpsc_fifo 2 cap2 1 _ run_q1 ltac:(vm_compute; reflexivity)) as [Hf _]. exact Hf.
Defined.

Lemma mpsc_race_free_witness : Z.land 0 (MASK 2) ≠ Z.land 1 (MASK 2).
Proof.
  destruct (mpsc_race_free 2 cap2 2 s_claim 0 7 0 run_claim ltac:(vm_compute; reflexivity) eq_refl)
    as [Hr _].
  exact (Hr 1%nat 8 1 eq_refl ltac:(discriminate)).
Defined.

Lemma run_full :
  reachable 2 1 (St (MkQueue [MkSlot 1 7; MkSlot 2 8] 2 0) [7; 8] [] [PPos 9 2] CIdle).
Proof.
  rewrite /reachable. etrans; [exact run_q1|]. etrans.
  - exact (enqueue_steps 2 q1 [7] [] (MkSlot 1 0) 8 eq_refl ltac:(done)).
  - apply rtc_once. exact (step_call 2 (MkQueue [MkSlot 1 7; MkSlot 2 8] 2 0) [7; 8] [] [PIdle] CIdle 0 9 eq_refl).
Qed.

Lemma mpsc_failure_justified_witness : Z.of_nat (length [7; 8]) = 0 + 2.
Proof.
  destruct (mpsc_failure_justified 2 cap2 1 _ run_full ltac:(vm_compute; reflexivity)) as [Hf _].
  exact (Hf 0%nat 9 2 (MkSlot 1 7) eq_refl eq_refl ltac:(done)).
Defined.

Lemma queue_refines_fifo_witness : wp (dequeue 2) (λ r q', r = 7 ∧ holds 2 q' []) q1.
Proof.
  apply (queue_refines_fifo 2 cap2 q1 [7] 9 1 holds_q1). vm_compute. reflexivity.
Defined.

(** The capacity 1, which the static assertion of the class admits, does not work:
    two calls of [try_enqueue] both succeed on a queue for one item, and afterwards
    [dequeue] returns [nullptr], so both items are lost. *)
Theorem capacity_one_loses :
  wp (b1 ← try_enqueue 1 7; b2 ← try_enqueue 1 8; r ← dequeue 1; e ← empty 1; mret (b1, b2, r, e))
    (λ '(b1, b2, r, e) _, b1 = true ∧ b2 = true ∧ r = 0 ∧ e = true) (MpscGrayQueue_ctor 1).
Proof. vm_compute. done. Qed.
End Mpsc.
