(* ===== verification/Sweep.v ===== *)
(** * Sweeping: [src/src/woomem_gc.cpp] (lines 407-533, 628-633)

    What a collector worker does with its pages after marking has ended: it frees the
    units that were not marked, makes the others unmarked again, and gives pages back
    to the chunk, to the pools or to the chain.  The free callback of the user
    is a parameter of the program; the state records the payload addresses it is called with. *)

From S2P Require Import Prelude SizeClass Locks Chunk Blocks ChunkProof Heap PageUnit HeapInv.
From S2P Require Import Pools PoolProof Api.
Open Scope Z_scope.

Record Sw := MkSw {
  s_ctx : Ctx;
  s_round : Z;            (* [woomem_gc_marking_round_counter] *)
  s_alive : Z;            (* [m_alive_memory_size_counter] *)
  s_freed : list Z;       (* calls of [callback_user_free], last first *)
}.

Abbreviation SM := (M Sw).

Definition set_sctx (c : Ctx) (s : Sw) : Sw := MkSw c (s_round s) (s_alive s) (s_freed s).
Definition add_alive (n : Z) (s : Sw) : Sw := MkSw (s_ctx s) (s_round s) (u64 (s_alive s + n)) (s_freed s).
Definition call_free (p : Z) (s : Sw) : Sw := MkSw (s_ctx s) (s_round s) (s_alive s) (p :: s_freed s).

Definition on_sctx {A} (m : XM A) : SM A := λ s,
  match m (s_ctx s) with
  | Ok (a, c) => Ok (a, set_sctx c s)
  | Fail e => Fail e
  end.
Abbreviation in_world m := (on_sctx (on_world m)).

Definition has_attrib (u : UnitHead) (a : Z) : bool := negb (Z.land (m_attribute u) a =? 0).

(** The condition under which an unmarked unit is freed. *)
Definition freeable (round : Z) (u : UnitHead) : bool :=
  (negb (m_age u =? 15) || negb (m_timing u =? round)) && has_attrib u WOOMEM_ATTRIB_NEED_SWEEP.

(** The code after the fall through to the default case. *)
Definition keep_unit `{Build} (unit : Z) (life : UnitLife) : SM bool :=
  assert_ (negb (bool_decide (life = SELF_MARKED))) ;;
  u ← in_world (load_unit unit);
  (if m_age u =? 0 then mret tt else in_world (store_unit unit (set_age (u8 (m_age u - 1))))) ;;
  in_world (store_unit unit (set_life UNMARKED)) ;;
  mret true.

(** [page_may_null] is 0 for a huge unit. *)
Definition check_and_free_unmarked_unit `{Build} (unit page_may_null : Z) : SM bool :=
  u ← in_world (load_unit unit);
  match m_life u with
  | RELEASED => mret false
  | PENDING => mret true
  | UNMARKED =>
    round ← gets s_round;
    if freeable round u then
      (if has_attrib u WOOMEM_ATTRIB_FREE_CALLBACK
       then modify (call_free (unit + SIZEOF_UnitHead)) else mret tt) ;;
      in_world (store_unit unit (set_life RELEASED)) ;;
      (if page_may_null =? 0 then mret tt
       else in_world (drop_freed_unit_into_page page_may_null unit)) ;;
      mret false
    else keep_unit unit UNMARKED
  | life => keep_unit unit life
  end.

(** The loop over the units of a page: [n] units left, the next one at [unit]. *)
Fixpoint sweep_loop `{Build} (page usize : Z) (n : nat) (unit : Z) (survivor free : bool) :
    SM (bool * bool) :=
  match n with
  | O => mret (survivor, free)
  | S n' =>
    u ← in_world (load_unit unit);
    if bool_decide (m_life u = RELEASED) then
      sweep_loop page usize n' (unit + usize) survivor free
    else
      alive ← check_and_free_unmarked_unit unit page;
      if (alive : bool) then
        modify (add_alive usize) ;;
        sweep_loop page usize n' (unit + usize) true free
      else sweep_loop page usize n' (unit + usize) survivor true
  end.

(** The branch for a page of small units: whether the page is to be dropped. *)
Definition sweep_normal_page `{Build} (page : Z) : SM bool :=
  p ← in_world (load_alloc (alloc_of page));
  let usize := m_unit_size_in_page p + SIZEOF_UnitHead in
  let unit_count := (NORMAL_PAGE_SIZE - SIZEOF_PageHead - SIZEOF_PageUnitAlloc) / usize in
  let current_running_out := negb (m_run_out p =? 0) in
  r ← sweep_loop page usize (Z.to_nat unit_count) (alloc_of page + SIZEOF_PageUnitAlloc) false false;
  let '(has_survivor, has_free_space) := r in
  drop_page ←
    (if current_running_out && has_free_space then
       if negb has_survivor then mret true
       else
         in_world (store_alloc (alloc_of page) (set_run_out 0)) ;;
         p ← in_world (load_alloc (alloc_of page));
         g ← of_option OutOfBounds (eval_group_by_small_unit_size (m_unit_size_in_page p));
         on_sctx (return_page page g) ;;
         mret false
     else mret false);
  (if (has_survivor : bool) then modify (add_alive (SIZEOF_PageHead + SIZEOF_PageUnitAlloc))
   else if negb current_running_out
   then in_world (store_alloc (alloc_of page) (set_mark_run_out true))
   else mret tt) ;;
  mret drop_page.

Definition sweep_units_in_page `{Build} (page : Z) : SM unit :=
  h ← in_world (load_head page);
  assert_ (negb (m_page_just_allocated h)) ;;
  drop_page ←
    (if m_page_count_if_huge h =? 0 then sweep_normal_page page
     else
       alive ← check_and_free_unmarked_unit (alloc_of page) 0;
       if negb alive then mret true
       else
         modify (add_alive (u64 (m_page_count_if_huge h * NORMAL_PAGE_SIZE))) ;;
         mret false);
  if (drop_page : bool) then in_world (on_chunk (free_page page))
  else in_world (add_page_back_to_into_chain page).

(** The worker's loop over its list of pages. *)
Fixpoint sweep_page_list `{Build} (fuel : nat) (page : Z) : SM unit :=
  if page =? 0 then mret tt
  else
    match fuel with
    | O => throw OutOfFuel
    | S fuel' =>
      h ← in_world (load_head page);
      sweep_units_in_page page ;;
      sweep_page_list fuel' (m_next_page h)
    end.
