(* ===== verification/SweepProof.v ===== *)
(** * Sweeping: specifications *)

From S2P Require Import Prelude SizeClass Locks Chunk Blocks ChunkProof Heap PageUnit HeapInv.
From S2P Require Import Pools PoolProof Api Sweep.
Open Scope Z_scope.

(** ** The fate of a unit *)

(** To be swept, unless it was made in this round.  Then: units that are freed, and units that stay. *)
Definition sweepable (round : Z) (h : UnitHead) : bool :=
  negb ((m_age h =? 15) && (m_timing h =? round)) && Z.testbit (m_attribute h) 0.
Definition doomed (round : Z) (h : UnitHead) : bool :=
  bool_decide (m_life h = UNMARKED) && sweepable round h.

Definition survives (round : Z) (h : UnitHead) : bool :=
  negb (bool_decide (m_life h = RELEASED)) && negb (doomed round h).

(** The header of a unit that stays: unmarked for the next round and one round older. *)
Definition kept (h : UnitHead) : UnitHead :=
  set_life UNMARKED (if m_age h =? 0 then h else set_age (u8 (m_age h - 1)) h).

Definition fate (round : Z) (h h' : UnitHead) : Prop :=
  match m_life h with
  | RELEASED | PENDING => h' = h
  | _ => if doomed round h then m_life h' = RELEASED else h' = kept h
  end.

Abbreviation W s := (c_world (s_ctx s)).

(** What sweeping units of [page] changes. *)
Record only_units (page : Z) (os : list Z) (s s' : Sw) : Prop := {
  ou_ctx : s_ctx s' = set_world (W s') (s_ctx s);
  ou_round : s_round s' = s_round s;
  ou_chunk : w_chunk (W s') = w_chunk (W s);
  ou_list : w_all_page_list (W s') = w_all_page_list (W s);
  ou_allocs : ∀ a, a ≠ alloc_of page → w_allocs (W s') !! a = w_allocs (W s) !! a;
  ou_flags : flags (W s') page = flags (W s) page;
  ou_units : ∀ a, (∀ o, o ∈ os → a ≠ unit_at page o) → w_units (W s') !! a = w_units (W s) !! a;
}.

Lemma only_units_trans page os1 os2 s1 s2 s3 :
  only_units page os1 s1 s2 → only_units page os2 s2 s3 → only_units page (os1 ++ os2) s1 s3.
Proof.
  intros [C1 R1 K1 L1 A1 F1 U1] [C2 R2 K2 L2 A2 F2 U2]. split; try congruence.
  - rewrite C2 C1. by destruct (s_ctx s1).
  - intros a Ha. by rewrite A2 // A1.
  - intros a Ha. rewrite U2; [|intros o Ho; apply Ha; set_solver].
    apply U1. intros o Ho. apply Ha. set_solver.
Qed.

Lemma wp_in_world {A} (m : WM A) (Q : A → Sw → Prop) s :
  wp m (λ a w, Q a (set_sctx (set_world w (s_ctx s)) s)) (W s) → wp (in_world m) Q s.
Proof. rewrite /wp /on_sctx /on_world. by destruct (m (W s)) as [[a w]|]. Qed.

Lemma wp_read_world {A} (m : WM A) a (Q : A → Sw → Prop) s :
  m (W s) = Ok (a, W s) → Q a s → wp (in_world m) Q s.
Proof.
  intros Hm HQ. rewrite /wp /on_sctx /on_world Hm. by destruct s as [[] ? ? ?].
Qed.

Lemma load_unit_ok w u h : w_units w !! u = Some h → load_unit u w = Ok (h, w).
Proof. intros Hh. apply wp_exact. by eapply wp_load_unit. Qed.

Lemma load_alloc_ok w a p : w_allocs w !! a = Some p → load_alloc a w = Ok (p, w).
Proof. intros Hh. apply wp_exact. by eapply wp_load_alloc. Qed.

Lemma load_head_ok w page h : heads (w_chunk w) !! page = Some h → load_head page w = Ok (h, w).
Proof. intros Hh. apply wp_exact. by eapply wp_load_head. Qed.

(** The state with the header of a unit replaced. *)
Definition put_unit (u : Z) (h : UnitHead) (s : Sw) : Sw :=
  set_sctx (set_world (upd_units (<[u := h]>) (W s)) (s_ctx s)) s.

Section unit_sweeping.
Context `{Build}.

Lemma keep_unit_run s unit life h (Q : bool → Sw → Prop) :
  w_units (W s) !! unit = Some h → life ≠ SELF_MARKED →
  Q true (put_unit unit (kept h) s) → wp (keep_unit unit life) Q s.
Proof using.
  intros Hh Hl HQ. rewrite /keep_unit. wp_steps.
  apply wp_assert; [by rewrite bool_decide_eq_false_2|]. wp_steps.
  eapply wp_read_world; [by apply load_unit_ok|]. rewrite /kept /put_unit in HQ.
  destruct (m_age h =? 0) eqn:E; wp_steps; apply wp_in_world.
  - eapply wp_store_unit; [exact Hh|]. by wp_steps.
  - eapply wp_store_unit; [exact Hh|]. wp_steps. apply wp_in_world. simpl.
    eapply wp_store_unit; [apply lookup_insert_eq|]. wp_steps.
    by rewrite /upd_units /= insert_insert_eq.
Qed.

Lemma kept_alive h : m_life (kept h) = UNMARKED ∧
  m_next_free_unit_offset (kept h) = m_next_free_unit_offset h.
Proof using. rewrite /kept. by destruct (m_age h =? 0). Qed.

(** The callback is called for a freed unit that asks for it. *)
Definition calls (round u : Z) (h : UnitHead) : list Z :=
  if doomed round h && has_attrib h WOOMEM_ATTRIB_FREE_CALLBACK then [u + SIZEOF_UnitHead] else [].

(** A unit that is neither pending nor released and has to stay. *)
(** The test of the code. *)
Lemma freeable_spec round h : freeable round h = sweepable round h.
Proof using.
  rewrite /freeable /sweepable /has_attrib negb_andb. f_equal.
  change WOOMEM_ATTRIB_NEED_SWEEP with (Z.ones 1). rewrite Z.land_ones // Z.bit0_odd.
  change (2 ^ 1) with 2. rewrite Zmod_odd. by destruct (Z.odd (m_attribute h)).
Qed.

Lemma check_keeps s unit page h (Q : bool → Sw → Prop) :
  w_units (W s) !! unit = Some h → m_life h ≠ RELEASED → m_life h ≠ PENDING →
  m_life h ≠ SELF_MARKED → doomed (s_round s) h = false →
  Q true (put_unit unit (kept h) s) → wp (check_and_free_unmarked_unit unit page) Q s.
Proof using.
  intros Hh H1 H2 H3 Hd HQ. rewrite /check_and_free_unmarked_unit. wp_steps.
  eapply wp_read_world; [by apply load_unit_ok|].
  destruct (m_life h) eqn:E; try done; [|by eapply keep_unit_run].
  wp_steps. rewrite /doomed E bool_decide_eq_true_2 // -freeable_spec in Hd. simpl in Hd.
  rewrite Hd. by eapply keep_unit_run.
Qed.

(** One unit of a normal page. *)
Lemma check_normal s bl pm page g o h :
  heap_inv (W s) bl pm → pm !! page = Some (PNormal g) → o ∈ offsets g →
  w_units (W s) !! unit_at page o = Some h → m_life h ≠ SELF_MARKED → m_life h ≠ RELEASED →
  wp (check_and_free_unmarked_unit (unit_at page o) page) (λ r s',
    r = survives (s_round s) h ∧ heap_inv (W s') bl pm ∧ only_units page [o] s s' ∧
    s_alive s' = s_alive s ∧ s_freed s' = calls (s_round s) (unit_at page o) h ++ s_freed s ∧
    ∃ h', w_units (W s') !! unit_at page o = Some h' ∧ fate (s_round s) h h') s.
Proof using.
  intros Hinv Hp Ho Hh Hself Hrel. pose proof (page_nonzero _ _ _ Hinv _ _ Hp) as Hp0.
  assert (is_unit pm (unit_at page o) (group_size g)) as Hu
    by (exists page, (PNormal g); split; [done|]; split; [done|]; by exists o).
  assert (∀ h', only_units page [o] s (put_unit (unit_at page o) h' s)) as Hput.
  { intros h'. split; try done. intros a Ha. rewrite /= lookup_insert_ne //.
    apply not_eq_sym, Ha. constructor. }
  rewrite /survives /calls /fate bool_decide_eq_false_2 //.
  destruct (decide (m_life h = PENDING)) as [Hpd|Hpd].
  { rewrite /check_and_free_unmarked_unit. wp_steps. eapply wp_read_world; [by apply load_unit_ok|].
    rewrite /doomed Hpd /=. wp_steps. split_and!; try done; [|by exists h].
    by split; try done; destruct s as [[] ? ? ?]. }
  destruct (doomed (s_round s) h) eqn:Hd.
  - rewrite /check_and_free_unmarked_unit. wp_steps. eapply wp_read_world; [by apply load_unit_ok|].
    rewrite /doomed -freeable_spec in Hd. apply andb_true_iff in Hd as [Hun%bool_decide_eq_true Hf].
    rewrite Hun. wp_steps. rewrite Hf.
    set (s1 := if has_attrib h WOOMEM_ATTRIB_FREE_CALLBACK
               then call_free (unit_at page o + SIZEOF_UnitHead) s else s).
    assert (wp (if has_attrib h WOOMEM_ATTRIB_FREE_CALLBACK
      then modify (call_free (unit_at page o + SIZEOF_UnitHead)) else mret tt) (λ _ s', s' = s1) s) as Hcall
      by (rewrite /s1; by destruct (has_attrib h WOOMEM_ATTRIB_FREE_CALLBACK); wp_steps).
    apply wp_bind. eapply wp_mono; [exact Hcall|]. intros _ s1' ->. wp_steps.
    assert (s_ctx s1 = s_ctx s ∧ s_round s1 = s_round s ∧ s_alive s1 = s_alive s ∧
      s_freed s1 = (if has_attrib h WOOMEM_ATTRIB_FREE_CALLBACK
                    then [unit_at page o + SIZEOF_UnitHead] else []) ++ s_freed s) as (Ec & Er & Ea & Ef)
      by (rewrite /s1; by destruct (has_attrib h WOOMEM_ATTRIB_FREE_CALLBACK)).
    clear Hcall. clearbody s1. destruct s1 as [c1 r1 a1 f1]. simpl in Ec, Er, Ea, Ef. subst c1 r1 a1 f1.
    bool_test (page =? 0). apply wp_in_world. simpl.
    pose proof (heap_release _ _ _ _ _ _ _ Hinv Hp Ho Hh Hrel) as Hw.
    rewrite {1}/wp /mbind /M_bind in Hw. rewrite {1}/wp.
    destruct (store_unit _ _ _) as [[[] w1]|]; [|done]. wp_steps. apply wp_in_world. simpl.
    eapply wp_mono; [exact Hw|]. intros [] w' (Hinv' & (? & ? & ? & Hu') & Hfl & h' & Hh' & Hl').
    wp_steps. split_and!; try done.
    + split; simpl; try done. intros a Ha. apply Hu'. apply Ha. constructor.
    + by exists h'.
  - eapply check_keeps; try done. destruct (kept_alive h) as [Hk Hn]. split_and!; try done.
    + by eapply heap_header.
    + exists (kept h). rewrite /= lookup_insert_eq. split; [done|]. by destruct (m_life h).
Qed.

(** ** The loop over the units of a page *)

(** The units at the given offsets with their headers. *)
Definition headers (w : World) (page : Z) (os : list Z) : list (Z * UnitHead) :=
  omap (λ o, pair (unit_at page o) <$> w_units w !! unit_at page o) os.

Definition some_survivor (round : Z) (l : list (Z * UnitHead)) : bool :=
  existsb (λ x, survives round x.2) l.
Definition some_doomed (round : Z) (l : list (Z * UnitHead)) : bool :=
  existsb (λ x, doomed round x.2) l.
Definition survivors (round : Z) (l : list (Z * UnitHead)) : Z :=
  Z.of_nat (length (List.filter (λ x, survives round x.2) l)).

(** The calls of the free callback, last first. *)
Definition callbacks (round : Z) (l : list (Z * UnitHead)) : list Z :=
  rev (flat_map (λ x, calls round x.1 x.2) l).

(** Every unit has met its fate. *)
Definition fates (w w' : World) (page round : Z) (os : list Z) : Prop :=
  ∀ o h, o ∈ os → w_units w !! unit_at page o = Some h →
    ∃ h', w_units w' !! unit_at page o = Some h' ∧ fate round h h'.

Definition none_gray (w : World) (page : Z) (os : list Z) : Prop :=
  ∀ o h, o ∈ os → w_units w !! unit_at page o = Some h → m_life h ≠ SELF_MARKED.

Definition loop_post (page usize : Z) (os : list Z) (s : Sw) (sv fr : bool)
    (bl : list block) (pm : gmap Z pkind) (r : bool * bool) (s' : Sw) : Prop :=
  let l := headers (W s) page os in
  heap_inv (W s') bl pm ∧ only_units page os s s' ∧
  fates (W s) (W s') page (s_round s) os ∧
  r = (sv || some_survivor (s_round s) l, fr || some_doomed (s_round s) l) ∧
  u64 (s_alive s') = u64 (s_alive s + usize * survivors (s_round s) l) ∧
  s_freed s' = callbacks (s_round s) l ++ s_freed s.

Lemma headers_ext w w' page os :
  (∀ o, o ∈ os → w_units w' !! unit_at page o = w_units w !! unit_at page o) →
  headers w' page os = headers w page os.
Proof using.
  intros Hu. apply list_omap_ext, Forall_Forall2_diag, Forall_forall. intros o Ho. by rewrite Hu.
Qed.

Lemma headers_cons w page o os h :
  w_units w !! unit_at page o = Some h →
  headers w page (o :: os) = (unit_at page o, h) :: headers w page os.
Proof using. intros Hh. by rewrite /headers /= Hh. Qed.

(** One unit before the rest of the units. *)
Lemma loop_post_cons page usize o os s s1 sv fr bl pm r s' h h1 :
  o ∉ os → w_units (W s) !! unit_at page o = Some h →
  only_units page [o] s s1 → w_units (W s1) !! unit_at page o = Some h1 → fate (s_round s) h h1 →
  u64 (s_alive s1) = u64 (s_alive s + (if survives (s_round s) h then usize else 0)) →
  s_freed s1 = calls (s_round s) (unit_at page o) h ++ s_freed s →
  loop_post page usize os s1 (sv || survives (s_round s) h) (fr || doomed (s_round s) h) bl pm r s' →
  loop_post page usize (o :: os) s sv fr bl pm r s'.
Proof using.
  intros Ho Hh Hou Hh1 Hf Ha Hfr (Hinv & Hou' & Hfs & Hr & Ha' & Hfr').
  assert (∀ x, x ∈ os → w_units (W s1) !! unit_at page x = w_units (W s) !! unit_at page x) as Hrest.
  { intros x Hx. apply (ou_units _ _ _ _ Hou). intros y ->%list_elem_of_singleton ->%(inj (unit_at page)). done. }
  rewrite (headers_ext _ _ _ _ Hrest) (ou_round _ _ _ _ Hou) in Hfs Hr Ha' Hfr'.
  rewrite /loop_post (headers_cons _ _ _ _ _ Hh).
  split; [done|]. split; [by apply (only_units_trans _ [o] os _ s1)|]. split; [|split; [|split]].
  - intros x hx [->|Hx]%elem_of_cons Hhx; [|apply Hfs; [done|by rewrite Hrest]].
    simplify_eq. exists h1. split; [|done]. rewrite (ou_units _ _ _ _ Hou') //.
    intros y Hy ->%(inj (unit_at page)). done.
  - by rewrite Hr /some_survivor /some_doomed /= !orb_assoc.
  - rewrite Ha'. assert (survivors (s_round s) ((unit_at page o, h) :: headers (W s) page os) =
      (if survives (s_round s) h then 1 else 0) + survivors (s_round s) (headers (W s) page os)) as ->
      by (rewrite /survivors /=; destruct (survives (s_round s) h); simpl; lia).
    rewrite /u64 in Ha |- *. rewrite -Zplus_mod_idemp_l Ha Zplus_mod_idemp_l. f_equal.
    destruct (survives (s_round s) h); lia.
  - assert (rev (calls (s_round s) (unit_at page o) h) = calls (s_round s) (unit_at page o) h) as Hrev
      by (rewrite /calls; by destruct (doomed _ _ && _)).
    by rewrite Hfr' Hfr /callbacks /= rev_app_distr -app_assoc Hrev.
Qed.

(** One unit that is not released, and the rest of the loop. *)
Lemma sweep_unit_cons page g bl pm n o os s sv fr h :
  (∀ s' sv' fr', heap_inv (W s') bl pm → none_gray (W s') page os →
     wp (sweep_loop page (unit_size_with_head g) n (unit_at page (o + unit_size_with_head g)) sv' fr')
       (loop_post page (unit_size_with_head g) os s' sv' fr' bl pm) s') →
  heap_inv (W s) bl pm → pm !! page = Some (PNormal g) → o ∈ offsets g → o ∉ os →
  none_gray (W s) page (o :: os) → w_units (W s) !! unit_at page o = Some h → m_life h ≠ RELEASED →
  wp (alive ← check_and_free_unmarked_unit (unit_at page o) page;
      if (alive : bool) then
        modify (add_alive (unit_size_with_head g)) ;;
        sweep_loop page (unit_size_with_head g) n (unit_at page (o + unit_size_with_head g)) true fr
      else sweep_loop page (unit_size_with_head g) n (unit_at page (o + unit_size_with_head g)) sv true)
    (loop_post page (unit_size_with_head g) (o :: os) s sv fr bl pm) s.
Proof using.
  intros IH Hinv Hp Ho Hno Hng Hh Hl. assert (m_life h ≠ SELF_MARKED) as Hgray by (apply (Hng o); [constructor|done]).
  wp_steps. eapply wp_mono; [by apply (check_normal s bl pm page g o h)|].
  intros r s1 (-> & Hinv1 & Hou & Ha & Hf & h1 & Hh1 & Hfate).
  assert (none_gray (W s1) page os) as Hng1.
  { intros x hx Hx. rewrite (ou_units _ _ _ _ Hou); [apply Hng; by constructor|].
    intros y ->%list_elem_of_singleton ->%(inj (unit_at page)). done. }
  assert (∀ s2 sv' fr', W s2 = W s1 → sv' = sv || survives (s_round s) h →
    fr' = fr || doomed (s_round s) h → only_units page [o] s s2 →
    u64 (s_alive s2) = u64 (s_alive s + (if survives (s_round s) h then unit_size_with_head g else 0)) →
    s_freed s2 = s_freed s1 →
    wp (sweep_loop page (unit_size_with_head g) n (unit_at page (o + unit_size_with_head g)) sv' fr')
      (loop_post page (unit_size_with_head g) (o :: os) s sv fr bl pm) s2) as Hgo.
  { intros s2 sv' fr' HW -> -> Hou2 Ha2 Hf2. eapply wp_mono; [apply IH; rewrite ?HW //|].
    intros r s' Hpost. eapply (loop_post_cons page _ o os s s2); try done; [by rewrite HW|congruence]. }
  assert (doomed (s_round s) h = negb (survives (s_round s) h)) as Hd
    by (rewrite /survives bool_decide_eq_false_2 //=; by rewrite negb_involutive).
  rewrite Hd in Hgo. destruct (survives (s_round s) h) eqn:Hsv; wp_steps; apply Hgo; try done;
    rewrite ?orb_true_r ?orb_false_r //.
  - destruct Hou. by split.
  - rewrite /= Ha /u64 Zmod_mod //.
  - by rewrite Ha Z.add_0_r.
Qed.

Lemma sweep_loop_spec page g bl pm n : ∀ o s sv fr,
  let os := run_offsets (unit_size_with_head g) n o in
  heap_inv (W s) bl pm → pm !! page = Some (PNormal g) → (∀ x, x ∈ os → x ∈ offsets g) →
  none_gray (W s) page os →
  wp (sweep_loop page (unit_size_with_head g) n (unit_at page o) sv fr)
    (loop_post page (unit_size_with_head g) os s sv fr bl pm) s.
Proof using.
  induction n as [|n IH]; intros o s sv fr os Hinv Hp Hos Hng; cbn [sweep_loop]; wp_steps.
  { split; [done|]. split; [split; try done; by destruct s as [[] ? ? ?]|].
    split; [by intros x h []%not_elem_of_nil|]. split; [by rewrite /= !orb_false_r|].
    split; [by rewrite Z.mul_0_r Z.add_0_r|done]. }
  subst os. cbn [run_offsets] in *. set (os := run_offsets (unit_size_with_head g) n (o + unit_size_with_head g)) in *.
  assert (o ∈ offsets g) as Ho by (apply Hos; constructor).
  assert (o ∉ os) as Hno.
  { intros (k & Hk & ?)%elem_of_run. pose proof (unit_size_with_head_pos g). nia. }
  destruct (unit_header _ _ _ Hinv (unit_at page o) (group_size g)) as [h Hh].
  { exists page, (PNormal g). split; [done|]. split; [done|]. by exists o. }
  eapply wp_read_world; [by apply load_unit_ok|].
  replace (unit_at page o + unit_size_with_head g) with (unit_at page (o + unit_size_with_head g))
    by (rewrite /unit_at; lia).
  assert (∀ x, x ∈ os → x ∈ offsets g) as Hos' by (intros; apply Hos; by constructor).
  case_bool_decide as Hl; [|by apply (sweep_unit_cons _ _ _ _ _ _ _ _ _ _ h); [intros; by apply IH|..]].
  eapply wp_mono; [apply IH; [done|done|done|intros x hx Hx; apply Hng; by constructor]|].
  intros r s' Hpost. assert (doomed (s_round s) h = false) as Hd by (by rewrite /doomed Hl).
  assert (survives (s_round s) h = false) as Hsv by (by rewrite /survives Hl).
  eapply (loop_post_cons page _ o os s s); try done.
  - split; try done. by destruct s as [[] ? ? ?].
  - by rewrite /fate Hl.
  - by rewrite Hsv Z.add_0_r.
  - by rewrite /calls Hd.
  - by rewrite Hd Hsv !orb_false_r.
Qed.
End unit_sweeping.
