(* ===== verification/SweepPage.v ===== *)
(** * Sweeping pages

    From the loop over the units of a page to the worker's list of pages: pages are
    dropped, returned to their pool or marked, and the invariants of heap, chain and
    pools are kept. *)

From S2P Require Import Prelude SizeClass Locks Chunk Blocks ChunkProof Heap PageUnit HeapInv.
From S2P Require Import Pools PoolProof Api Sweep SweepProof.
Open Scope Z_scope.

(** ** Pools under a change of one page *)

Lemma pool_inv_flags c pm w' :
  pool_inv c pm → (∀ p, fst <$> flags w' p = fst <$> flags (c_world c) p) →
  pool_inv (set_world w' c) pm.
Proof.
  intros Hinv Hf. split; try apply Hinv. intros g p Hp Hp0.
  destruct (pv_pool _ _ Hinv g p Hp Hp0) as [Hk Hu]. split; [done|]. by rewrite /= Hf.
Qed.

Lemma caches_ready_flags c w' :
  caches_ready c → (∀ t g, fst <$> flags w' (cache c t g) = fst <$> flags (c_world c) (cache c t g)) →
  caches_ready (set_world w' c).
Proof. intros Hr Hf t g Hc. rewrite /= Hf. by apply Hr. Qed.

(** A page that has run out is with nobody. *)
Lemma run_out_nowhere c pm page ro mk :
  pool_inv c pm → caches_ready c → page ≠ 0 → flags (c_world c) page = Some (ro, mk) → ro ≠ 0 →
  nowhere c page.
Proof.
  intros Hinv Hrd Hp0 Hf Hro. split.
  - intros g Hin. destruct (pv_pool _ _ Hinv g page Hin Hp0) as [_ Hu]. rewrite Hf /= in Hu. congruence.
  - intros t g Heq. pose proof (Hrd t g) as Hu. rewrite Heq Hf /= in Hu.
    assert (Some ro = Some 0) by auto. congruence.
Qed.

Lemma pool_inv_push c pm g page :
  pool_inv c pm → page ≠ 0 → usable (c_world c) pm g page → nowhere c page →
  pool_inv (with_pool g (page :: pool c g) c) pm.
Proof.
  intros Hinv Hp0 Hu [Hnp Hnc].
  assert (∀ g', pool (with_pool g (page :: pool c g) c) g' =
    if decide (g' = g) then page :: pool c g else pool c g') as Hpool
    by (intros g'; apply pool_with, (pv_lists _ _ Hinv)).
  split; try apply Hinv.
  - rewrite /= length_wr. apply Hinv.
  - intros g' fl Hfl. simpl in Hfl. pose proof (group_index_ge g).
    rewrite rd_wr in Hfl; [|rewrite (pv_lists _ _ Hinv); lia].
    case_decide; [by simplify_eq|by eapply (pv_spin _ _ Hinv)].
  - intros g' p. rewrite Hpool. case_decide as Hg; [subst g'|by apply (pv_pool _ _ Hinv)].
    intros [->|Hp]%elem_of_cons Hne; [done|by apply (pv_pool _ _ Hinv)].
  - intros g'. rewrite Hpool. case_decide; [|apply Hinv]. rewrite filter_cons_True //.
    constructor; [|apply Hinv]. rewrite list_elem_of_filter. intros [_ Hin]. by apply (Hnp g).
  - intros t g' Hc. rewrite Hpool. case_decide as Hg; [subst g'|by apply (pv_apart _ _ Hinv)].
    intros [Heq|Hin]%elem_of_cons; [by apply (Hnc t g)|by apply (pv_apart _ _ Hinv t g)].
Qed.

(** Nobody keeps the page: the pools without it. *)
Lemma pool_inv_delete c pm page :
  pool_inv c pm → nowhere c page → pool_inv c (delete page pm).
Proof.
  intros Hinv [Hnp Hnc]. split; try apply Hinv.
  - intros g p Hp Hp0. destruct (pv_pool _ _ Hinv g p Hp Hp0) as [Hk Hf]. split; [|done].
    rewrite lookup_delete_ne //. intros ->. by apply (Hnp g).
  - intros t g Hc. rewrite lookup_delete_ne; [by apply (pv_cache _ _ Hinv)|]. intros Heq. by apply (Hnc t g).
Qed.

(** ** A page of small units *)

(** The bytes a normal page adds to the alive counter. *)
Definition normal_live (g : UnitAllocGroup) (round : Z) (l : list (Z * UnitHead)) : Z :=
  unit_size_with_head g * survivors round l +
  (if some_survivor round l then SIZEOF_PageHead + SIZEOF_PageUnitAlloc else 0).

Record page_swept (page : Z) (g : UnitAllocGroup) (bl : list block) (pm : gmap Z pkind) (s : Sw)
    (r : bool) (s' : Sw) : Prop := {
  ps_heap : heap_inv (W s') bl pm;
  ps_pool : pool_inv (s_ctx s') pm;
  ps_ready : caches_ready (s_ctx s');
  ps_chunk : w_chunk (W s') = w_chunk (W s);
  ps_list : w_all_page_list (W s') = w_all_page_list (W s);
  ps_units : ∀ a, (∀ o, o ∈ offsets g → a ≠ unit_at page o) → w_units (W s') !! a = w_units (W s) !! a;
  ps_round : s_round s' = s_round s;
  ps_fates : fates (W s) (W s') page (s_round s) (offsets g);
  ps_drop : r = true → nowhere (s_ctx s') page ∧
    some_survivor (s_round s) (headers (W s) page (offsets g)) = false;
  ps_freed : s_freed s' = callbacks (s_round s) (headers (W s) page (offsets g)) ++ s_freed s;
  ps_alive : u64 (s_alive s') =
    u64 (s_alive s + normal_live g (s_round s) (headers (W s) page (offsets g)));
}.

Section page_sweeping.
Context `{Build}.

Lemma unit_count_code g :
  (NORMAL_PAGE_SIZE - SIZEOF_PageHead - SIZEOF_PageUnitAlloc) / unit_size_with_head g = unit_count g.
Proof using. by destruct g. Qed.

(** The run of the loop over the whole page, with the pools as they were. *)
Lemma sweep_all_units s bl pm page g :
  heap_inv (W s) bl pm → pool_inv (s_ctx s) pm → caches_ready (s_ctx s) →
  pm !! page = Some (PNormal g) → none_gray (W s) page (offsets g) →
  wp (sweep_loop page (unit_size_with_head g) (Z.to_nat (unit_count g))
       (alloc_of page + SIZEOF_PageUnitAlloc) false false)
    (λ r s', let l := headers (W s) page (offsets g) in
      loop_post page (unit_size_with_head g) (offsets g) s false false bl pm r s' ∧
      pool_inv (s_ctx s') pm ∧ caches_ready (s_ctx s')) s.
Proof using.
  intros Hinv Hpool Hrd Hp Hng. rewrite -(offsets_run g) in Hng.
  eapply wp_mono; [apply (sweep_loop_spec page g bl pm _ SIZEOF_PageUnitAlloc s false false); try done|].
  { intros x. by rewrite offsets_run. }
  rewrite offsets_run. intros r s' Hpost. split; [done|].
  destruct Hpost as (_ & [Hctx _ _ _ Ha Hfl _] & _).
  assert (∀ p, fst <$> flags (W s') p = fst <$> flags (W s) p) as Hf.
  { intros p. destruct (decide (p = page)) as [->|Hne]; [by rewrite Hfl|].
    rewrite /flags Ha // /alloc_of. lia. }
  rewrite Hctx. split; [by apply pool_inv_flags|by apply caches_ready_flags].
Qed.

(** What follows the loop touches the unit-allocator header and the pools only. *)
Lemma page_swept_intro page g bl pm s s1 s2 sv fr r :
  loop_post page (unit_size_with_head g) (offsets g) s false false bl pm (sv, fr) s1 →
  heap_inv (W s2) bl pm → pool_inv (s_ctx s2) pm → caches_ready (s_ctx s2) →
  w_chunk (W s2) = w_chunk (W s1) → w_all_page_list (W s2) = w_all_page_list (W s1) →
  w_units (W s2) = w_units (W s1) → s_round s2 = s_round s1 → s_freed s2 = s_freed s1 →
  u64 (s_alive s2) = u64 (s_alive s1 + (if sv then SIZEOF_PageHead + SIZEOF_PageUnitAlloc else 0)) →
  (r = true → nowhere (s_ctx s2) page ∧ sv = false) →
  page_swept page g bl pm s r s2.
Proof using.
  intros (_ & [_ Hr Hc Hl _ _ Hu] & Hf & [= -> ->] & Ha & Hfr) Hinv Hpool Hrd Hc2 Hl2 Hu2 Hr2 Hf2 Ha2 Hd.
  split; try done; try congruence.
  - intros a Hout. rewrite Hu2. by apply Hu.
  - intros o h Ho Hh. rewrite Hu2. by apply Hf.
  - rewrite Ha2 /normal_live Z.add_assoc /u64 in Ha |- *. by rewrite -Zplus_mod_idemp_l Ha Zplus_mod_idemp_l.
Qed.

(** Flags of the page are stored. *)
Lemma wp_store_flags s bl pm page g f (Q : unit → Sw → Prop) :
  heap_inv (W s) bl pm → pm !! page = Some (PNormal g) →
  (∀ p, m_next_allocate_unit_offset (f p) = m_next_allocate_unit_offset p ∧
    m_freed_unit_offset (f p) = m_freed_unit_offset p ∧ m_unit_size_in_page (f p) = m_unit_size_in_page p) →
  (∀ p w', w_allocs (W s) !! alloc_of page = Some p → m_unit_size_in_page p = group_size g →
    w' = upd_allocs (<[alloc_of page := f p]>) (W s) → heap_inv w' bl pm →
    Q tt (set_sctx (set_world w' (s_ctx s)) s)) →
  wp (in_world (store_alloc (alloc_of page) f)) Q s.
Proof using.
  intros Hinv Hp Hf HQ. destruct (normal_alloc _ _ _ _ _ Hinv Hp) as (p & Hpa & Hsz).
  apply wp_in_world. eapply wp_store_alloc; [exact Hpa|]. eapply HQ; try done.
  destruct (Hf p) as (? & ? & ?). by eapply heap_flags.
Qed.

Lemma flags_store w page p p' q :
  w_allocs w !! alloc_of page = Some p → q ≠ page ∨ m_run_out p' = m_run_out p →
  fst <$> flags (upd_allocs (<[alloc_of page := p']>) w) q = fst <$> flags w q.
Proof using.
  intros Hp Hq. rewrite /flags /=. destruct (decide (q = page)) as [->|Hne].
  - rewrite lookup_insert_eq Hp /=. destruct Hq as [Hq|Hq]; [done|by rewrite Hq].
  - rewrite lookup_insert_ne // /alloc_of. lia.
Qed.

(** A page that had run out has room again and goes back to its pool. *)
Lemma sweep_return s bl pm page g ro mk (Q : bool → Sw → Prop) :
  heap_inv (W s) bl pm → pool_inv (s_ctx s) pm → caches_ready (s_ctx s) →
  pm !! page = Some (PNormal g) → flags (W s) page = Some (ro, mk) → ro ≠ 0 →
  (∀ s', heap_inv (W s') bl pm → pool_inv (s_ctx s') pm → caches_ready (s_ctx s') →
    w_chunk (W s') = w_chunk (W s) → w_all_page_list (W s') = w_all_page_list (W s) →
    w_units (W s') = w_units (W s) → s_round s' = s_round s → s_freed s' = s_freed s →
    s_alive s' = s_alive s → page ∈ pool (s_ctx s') g → Q false s') →
  wp (in_world (store_alloc (alloc_of page) (set_run_out 0)) ;;
      p ← in_world (load_alloc (alloc_of page));
      g ← of_option OutOfBounds (eval_group_by_small_unit_size (m_unit_size_in_page p));
      on_sctx (return_page page g) ;;
      mret false) Q s.
Proof using.
  intros Hinv Hpool Hrd Hp Hfl Hro HQ. pose proof (page_nonzero _ _ _ Hinv _ _ Hp) as Hp0.
  pose proof (run_out_nowhere _ _ _ _ _ Hpool Hrd Hp0 Hfl Hro) as [Hnp Hnc].
  wp_steps. eapply wp_store_flags; [done|done|done|]. intros p w' Hpa Hsz -> Hinv'.
  set (w' := upd_allocs _ _) in *. set (c1 := set_world w' (s_ctx s)).
  assert (pool_inv c1 pm) as Hpool1.
  { eapply pool_inv_world; try done. intros a Ha. by rewrite /= lookup_insert_ne. }
  assert (caches_ready c1) as Hrd1.
  { apply caches_ready_flags; [done|]. intros t g'. apply (flags_store _ _ p); [done|]. left. apply Hnc. }
  wp_steps. eapply wp_read_world; [by apply load_alloc_ok, lookup_insert_eq|]. simpl.
  wp_steps. eapply wp_of_option; [rewrite Hsz; apply eval_group_size|]. wp_steps.
  rewrite /wp /on_sctx. change (s_ctx (set_sctx _ _)) with c1.
  assert (wp (return_page page g) (λ _ c', c' = with_pool g (page :: pool c1 g) c1) c1) as Hret.
  { apply wp_with_list; [by eapply pool_inv_lists|]. wp_steps. by destruct c1. }
  rewrite /wp in Hret. destruct (return_page page g c1) as [[[] c2]|]; [|done]. subst c2.
  apply HQ; try done.
  - apply pool_inv_push; try done. split; [done|]. by rewrite /= /flags /= lookup_insert_eq.
  - rewrite pool_with; [|apply Hpool]. rewrite decide_True //. constructor.
Qed.

Lemma sweep_normal_page_spec s bl pm page g :
  heap_inv (W s) bl pm → pool_inv (s_ctx s) pm → caches_ready (s_ctx s) →
  pm !! page = Some (PNormal g) → none_gray (W s) page (offsets g) →
  wp (sweep_normal_page page) (page_swept page g bl pm s) s.
Proof using.
  intros Hinv Hpool Hrd Hp Hng. destruct (normal_alloc _ _ _ _ _ Hinv Hp) as (p & Hpa & Hsz).
  pose proof (page_nonzero _ _ _ Hinv _ _ Hp) as Hp0.
  rewrite /sweep_normal_page. wp_steps. eapply wp_read_world; [by apply load_alloc_ok|].
  rewrite Hsz. change (group_size g + SIZEOF_UnitHead) with (unit_size_with_head g).
  rewrite unit_count_code. cbv zeta. wp_steps.
  eapply wp_mono; [by apply (sweep_all_units s bl pm page g)|].
  intros [sv fr] s1 (Hpost & Hpool1 & Hrd1). pose proof Hpost as (Hinv1 & Hou & _).
  assert (flags (W s1) page = Some (m_run_out p, m_mark_as_run_out_in_global_pool p)) as Hfl
    by (by rewrite (ou_flags _ _ _ _ Hou) /flags Hpa).
  destruct (m_run_out p =? 0) eqn:Hro; cbn [negb andb].
  - wp_steps. destruct sv; wp_steps.
    + eapply page_swept_intro; try done. by rewrite /= /u64 Zmod_mod.
    + eapply wp_store_flags; [done|done|done|]. intros q w' Hq Hqs -> Hinv2. wp_steps.
      eapply page_swept_intro; try done.
      * apply pool_inv_flags; [done|]. intros x. apply (flags_store _ _ q); [done|by right].
      * apply caches_ready_flags; [done|]. intros t g'. apply (flags_store _ _ q); [done|by right].
      * by rewrite Z.add_0_r.
  - assert (m_run_out p ≠ 0) as Hro' by lia.
    destruct fr, sv; cbn [negb]; [apply wp_bind|wp_steps..].
    + eapply sweep_return; try done. intros s2 Hi2 Hp2 Hr2 Hc2 Hl2 Hu2 Hro2 Hf2 Ha2 Hin2. wp_steps.
      eapply page_swept_intro; try done. by rewrite /= Ha2 /u64 Zmod_mod.
    + eapply page_swept_intro; try done; [by rewrite Z.add_0_r|].
      intros _. split; [|done]. by eapply run_out_nowhere.
    + eapply page_swept_intro; try done. by rewrite /= /u64 Zmod_mod.
    + eapply page_swept_intro; try done. by rewrite Z.add_0_r.
Qed.
End page_sweeping.

(** ** A page of any kind *)

Definition page_headers (w : World) (page : Z) (k : pkind) : list (Z * UnitHead) :=
  match k with
  | PNormal g => headers w page (offsets g)
  | PHuge _ => from_option (λ h, [(alloc_of page, h)]) [] (w_units w !! alloc_of page)
  end.

(** The bytes that the alive counter grows by. *)
Definition live_bytes (round : Z) (w : World) (page : Z) (k : pkind) : Z :=
  let l := page_headers w page k in
  match k with
  | PNormal g => normal_live g round l
  | PHuge n => if some_survivor round l then u64 (n * NORMAL_PAGE_SIZE) else 0
  end.

Lemma page_headers_unit w page k u sz h :
  unit_in page k u sz → w_units w !! u = Some h → (u, h) ∈ page_headers w page k.
Proof.
  destruct k as [g|n]; simpl.
  - intros (_ & o & Ho & ->) Hh. apply list_elem_of_omap. exists o. by rewrite Hh.
  - intros [_ ->] ->. constructor.
Qed.

Lemma no_survivor w page k round u sz h :
  some_survivor round (page_headers w page k) = false →
  unit_in page k u sz → w_units w !! u = Some h → survives round h = false.
Proof.
  intros Hs Hu Hh. destruct (survives round h) eqn:E; [|done].
  assert (some_survivor round (page_headers w page k) = true); [|congruence].
  apply existsb_exists. exists (u, h). split; [|done].
  apply list_elem_of_In. by eapply page_headers_unit.
Qed.

(** What happens to a page before it is dropped or linked again. *)
Record body_swept (page : Z) (k : pkind) (bl : list block) (pm : gmap Z pkind) (s : Sw)
    (r : bool) (s' : Sw) : Prop := {
  bs_heap : heap_inv (W s') bl pm;
  bs_pool : pool_inv (s_ctx s') pm;
  bs_ready : caches_ready (s_ctx s');
  bs_chunk : w_chunk (W s') = w_chunk (W s);
  bs_list : w_all_page_list (W s') = w_all_page_list (W s);
  bs_units : ∀ a, (∀ sz, ¬ unit_in page k a sz) → w_units (W s') !! a = w_units (W s) !! a;
  bs_round : s_round s' = s_round s;
  bs_fates : ∀ u sz h, unit_in page k u sz → w_units (W s) !! u = Some h →
    ∃ h', w_units (W s') !! u = Some h' ∧ fate (s_round s) h h';
  bs_drop : r = true → nowhere (s_ctx s') page ∧
    some_survivor (s_round s) (page_headers (W s) page k) = false;
  bs_freed : s_freed s' = callbacks (s_round s) (page_headers (W s) page k) ++ s_freed s;
  bs_alive : u64 (s_alive s') = u64 (s_alive s + live_bytes (s_round s) (W s) page k);
}.

(** No unit of the page is waiting to be scanned. *)
Definition page_scanned (w : World) (page : Z) (k : pkind) : Prop :=
  ∀ u sz h, unit_in page k u sz → w_units w !! u = Some h → m_life h ≠ SELF_MARKED.

Section any_page.
Context `{Build}.

(** The check of a huge unit. *)
Lemma check_huge s u h :
  w_units (W s) !! u = Some h → m_life h ≠ SELF_MARKED →
  wp (check_and_free_unmarked_unit u 0) (λ r s',
    r = survives (s_round s) h ∧
    (∃ h', fate (s_round s) h h' ∧ m_next_free_unit_offset h' = m_next_free_unit_offset h ∧
      s_ctx s' = set_world (upd_units (<[u := h']>) (W s)) (s_ctx s)) ∧
    s_round s' = s_round s ∧ s_alive s' = s_alive s ∧
    s_freed s' = calls (s_round s) u h ++ s_freed s) s.
Proof using.
  intros Hh Hng. assert (s_ctx s = set_world (upd_units (<[u := h]>) (W s)) (s_ctx s)) as Hid
    by (rewrite /upd_units insert_id //; by destruct (s_ctx s) as [[] ? ?]).
  destruct (decide (m_life h = RELEASED ∨ m_life h = PENDING)) as [Hl|Hl].
  { rewrite /check_and_free_unmarked_unit. wp_steps. eapply wp_read_world; [by apply load_unit_ok|].
    rewrite /survives /calls /doomed /fate. destruct Hl as [Hl|Hl]; rewrite Hl; wp_steps;
      (split; [done|]); (split; [by exists h|done]). }
  assert (m_life h ≠ RELEASED ∧ m_life h ≠ PENDING) as [Hrel Hpd] by naive_solver.
  destruct (doomed (s_round s) h) eqn:Hd.
  - rewrite /survives /calls /fate Hd. rewrite /check_and_free_unmarked_unit. wp_steps.
    eapply wp_read_world; [by apply load_unit_ok|].
    rewrite /doomed -freeable_spec in Hd.
    apply andb_true_iff in Hd as [Hun%bool_decide_eq_true Hf]. rewrite Hun. wp_steps. rewrite Hf.
    destruct (has_attrib h WOOMEM_ATTRIB_FREE_CALLBACK); wp_steps; apply wp_in_world;
      (eapply wp_store_unit; [exact Hh|]); simpl; wp_steps;
      (split; [done|]); (split; [by exists (set_life RELEASED h)|done]).
  - eapply check_keeps; try done. rewrite /survives /calls Hd bool_decide_eq_false_2 //.
    split; [done|]. split; [|done]. exists (kept h). rewrite /fate Hd.
    split; [by destruct (m_life h)|]. split; [by apply kept_alive|done].
Qed.

Lemma sweep_huge s bl pm page n (hd : PageHead) :
  heap_inv (W s) bl pm → pool_inv (s_ctx s) pm → caches_ready (s_ctx s) →
  pm !! page = Some (PHuge n) → page_scanned (W s) page (PHuge n) → m_page_count_if_huge hd = n →
  wp (alive ← check_and_free_unmarked_unit (alloc_of page) 0;
      if negb alive then mret true
      else modify (add_alive (u64 (m_page_count_if_huge hd * NORMAL_PAGE_SIZE))) ;; mret false)
    (body_swept page (PHuge n) bl pm s) s.
Proof using.
  intros Hinv Hpool Hrd Hp Hng Hn. pose proof (page_nonzero _ _ _ Hinv _ _ Hp) as Hp0.
  destruct (hi_map _ _ _ Hinv _ _ Hp) as (_ & _ & _ & _ & h & Hh & Hoff).
  assert (nowhere (s_ctx s) page) as Hno.
  { split; [intros g Hin; destruct (pv_pool _ _ Hpool g page Hin Hp0); congruence|].
    intros t g Heq. pose proof (pv_cache _ _ Hpool t g) as Hc. rewrite Heq in Hc. specialize (Hc Hp0). congruence. }
  wp_steps. eapply wp_mono; [apply (check_huge s _ h Hh); by eapply Hng|].
  intros r s1 (-> & (h' & Hfate & Hoff' & Hctx) & Hr1 & Ha1 & Hf1).
  assert (heap_inv (W s1) bl pm) as Hinv1 by (rewrite Hctx; by eapply heap_huge_header).
  assert (callbacks (s_round s) (page_headers (W s) page (PHuge n)) = calls (s_round s) (alloc_of page) h) as Hcb.
  { rewrite /callbacks /page_headers Hh /= app_nil_r /calls. by destruct (doomed _ _ && _). }
  assert (some_survivor (s_round s) (page_headers (W s) page (PHuge n)) = survives (s_round s) h) as Hsv
    by (by rewrite /page_headers Hh /some_survivor /= orb_false_r).
  assert (∀ s2 r, s_ctx s2 = s_ctx s1 → s_round s2 = s_round s1 → s_freed s2 = s_freed s1 →
    u64 (s_alive s2) = u64 (s_alive s + live_bytes (s_round s) (W s) page (PHuge n)) →
    (r = true → survives (s_round s) h = false) → body_swept page (PHuge n) bl pm s r s2) as Hgo.
  { intros s2 r Ec Er Ef Ea Hd. split; rewrite ?Ec ?Hctx //; try congruence.
    - by apply pool_inv_flags.
    - intros a Ha. rewrite /= lookup_insert_ne //. intros <-. eapply Ha. by split.
    - intros u sz hu [_ ->] Hu. simplify_eq. exists h'. by rewrite /= lookup_insert_eq.
    - intros Hr. split; [exact Hno|]. rewrite Hsv. by apply Hd. }
  rewrite /live_bytes Hsv in Hgo. destruct (survives (s_round s) h); wp_steps.
  - apply Hgo; try done. by rewrite /= Ha1 Hn /u64 Zmod_mod.
  - apply Hgo; try done. by rewrite Ha1 Z.add_0_r.
Qed.

Lemma sweep_normal s bl pm page g :
  heap_inv (W s) bl pm → pool_inv (s_ctx s) pm → caches_ready (s_ctx s) →
  pm !! page = Some (PNormal g) → page_scanned (W s) page (PNormal g) →
  wp (sweep_normal_page page) (body_swept page (PNormal g) bl pm s) s.
Proof using.
  intros Hinv Hpool Hrd Hp Hng. eapply wp_mono; [apply (sweep_normal_page_spec s bl pm page g); try done|].
  { intros o h Ho. apply (Hng _ (group_size g)). split; [done|]. by exists o. }
  intros r s' []. split; try done.
  - intros a Ha. apply ps_units0. intros o Ho ->. eapply Ha. split; [done|]. by exists o.
  - intros u sz h (_ & o & Ho & ->). by apply ps_fates0.
Qed.
End any_page.

(** ** The worker's pages *)

(** While a worker sweeps, the pages it still has to sweep are not on the chain. *)
Definition sweep_inv (s : Sw) (pm : gmap Z pkind) (pend : list Z) : Prop :=
  (∃ bl, heap_inv (W s) bl pm) ∧ pool_inv (s_ctx s) pm ∧ caches_ready (s_ctx s) ∧
  ∃ l, chained (heads (w_chunk (W s))) (w_all_page_list (W s)) l ∧ NoDup l ∧
    ∀ p, p ∈ l ↔ p ∈ dom pm ∧ p ∉ pend.

(** A unit either stays in its page with the header its fate gives it, or was free
    already or is freed and its page is gone. *)
Definition page_fate (round : Z) (w w' : World) (pm' : gmap Z pkind) (page : Z) (k : pkind) : Prop :=
  ∀ u sz h, unit_in page k u sz → w_units w !! u = Some h →
    (∃ h', w_units w' !! u = Some h' ∧ fate round h h') ∧
    (pm' !! page = Some k ∨ (pm' !! page = None ∧ survives round h = false)).

Record page_done (page : Z) (k : pkind) (pm : gmap Z pkind) (rest : list Z) (s s' : Sw)
    (pm' : gmap Z pkind) : Prop := {
  pd_pm : pm' = pm ∨ pm' = delete page pm;
  pd_inv : sweep_inv s' pm' rest;
  pd_fate : page_fate (s_round s) (W s) (W s') pm' page k;
  pd_units : ∀ a, (∀ sz, ¬ unit_in page k a sz) → w_units (W s') !! a = w_units (W s) !! a;
  pd_heads : ∀ p, p ≠ page → heads (w_chunk (W s')) !! p = heads (w_chunk (W s)) !! p;
  pd_round : s_round s' = s_round s;
  pd_freed : s_freed s' = callbacks (s_round s) (page_headers (W s) page k) ++ s_freed s;
  pd_alive : u64 (s_alive s') = u64 (s_alive s + live_bytes (s_round s) (W s) page k);
}.

(** A unit belongs to one page only. *)
Lemma unit_one_page w bl pm page k page' k' u sz sz' :
  heap_inv w bl pm → pm !! page = Some k → pm !! page' = Some k' →
  unit_in page k u sz → unit_in page' k' u sz' → page' = page.
Proof.
  intros Hinv Hp Hp' Hu Hu'. destruct (decide (page' = page)) as [|Hne]; [done|]. exfalso.
  eapply (unit_elsewhere w bl pm page k u sz page'); try done; [by eapply elem_of_dom_2|].
  destruct k' as [g|n]; [destruct Hu' as (_ & o & Ho & ->); by eapply offset_in_page|].
  destruct Hu' as [_ ->]. rewrite /alloc_of /SIZEOF_PageHead /NORMAL_PAGE_SIZE. lia.
Qed.

Section worker.
Context `{Build}.

Lemma sweep_units_in_page_spec s pm page k rest :
  sweep_inv s pm (page :: rest) → page ∉ rest → pm !! page = Some k →
  page_scanned (W s) page k →
  wp (sweep_units_in_page page) (λ _ s', ∃ pm', page_done page k pm rest s s' pm') s.
Proof using.
  intros ([bl Hinv] & Hpool & Hrd & l & Hch & Hnd & Hl) Hnin Hp Hng.
  pose proof (page_nonzero _ _ _ Hinv _ _ Hp) as Hp0.
  destruct (hi_map _ _ _ Hinv _ _ Hp) as (_ & _ & _ & (hd & Hhd & Hcnt & Hjust) & _).
  assert (page ∉ l) as Hpl by (rewrite Hl; intros [_ Hn]; apply Hn; constructor).
  rewrite /sweep_units_in_page. wp_steps. eapply wp_read_world; [by apply load_head_ok|].
  wp_steps. apply wp_assert; [by rewrite Hjust|]. wp_steps.
  eapply (wp_mono _ (body_swept page k bl pm s)).
  { destruct k as [g|n]; simpl in Hcnt.
    - rewrite Hcnt /=. by apply sweep_normal.
    - destruct (page_start _ _ _ Hinv _ _ Hp) as (_ & _ & _ & _ & Hn). simpl in Hn.
      bool_test (m_page_count_if_huge hd =? 0). by apply sweep_huge. }
  intros drop s1 [Hi1 Hpo1 Hrd1 Hc1 Hl1 Hu1 Hr1 Hf1 Hd1 Hfr1 Ha1].
  destruct drop; apply wp_in_world.
  - destruct (Hd1 eq_refl) as [Hno Hsv].
    eapply wp_mono; [by apply (heap_remove _ bl pm page k)|].
    intros _ w' ([bl' Hi'] & Hh' & Hli' & Hal' & Hun'). exists (delete page pm). split; simpl; auto.
    + split; [by exists bl'|]. simpl. split; [|split].
      * apply pool_inv_delete; [|done]. apply pool_inv_flags; [done|]. intros p. by rewrite /flags Hal'.
      * apply caches_ready_flags; [done|]. intros t g. by rewrite /flags Hal'.
      * exists l. rewrite Hh' Hli' Hc1 Hl1. split; [done|]. split; [done|].
        intros p. rewrite Hl dom_delete_L elem_of_difference elem_of_singleton elem_of_cons. tauto.
    + intros u sz h Hu Hh. split; [rewrite Hun'; by eapply Hf1|]. right. rewrite lookup_delete_eq.
      split; [done|]. by eapply no_survivor.
    + intros a Ha. rewrite Hun'. by apply Hu1.
    + intros p Hne. by rewrite Hh' Hc1.
  - eapply wp_mono; [apply (add_page_back_spec _ page hd l); [by rewrite Hc1|done|done|by rewrite Hc1 Hl1]|].
    intros _ w' (Hch' & Hck' & Hh' & Hal' & Hun'). exists pm. split; simpl; auto.
    + split; [|split; [|split]]; simpl.
      * exists bl. eapply (heap_link (W s1)); try done. by rewrite Hc1.
      * apply pool_inv_flags; [done|]. intros p. by rewrite /flags Hal'.
      * apply caches_ready_flags; [done|]. intros t g. by rewrite /flags Hal'.
      * exists (page :: l). split; [done|]. split; [by constructor|].
        intros p. rewrite elem_of_cons Hl elem_of_cons. apply elem_of_dom_2 in Hp.
        destruct (decide (p = page)) as [->|]; tauto.
    + intros u sz h Hu Hh. split; [rewrite Hun'; by eapply Hf1|by left].
    + intros a Ha. rewrite Hun'. by apply Hu1.
    + intros p Hne. by rewrite Hh' lookup_insert_ne // Hc1.
Qed.

(** The pages of the list with their kinds. *)
Definition kinds (pm : gmap Z pkind) (l : list Z) : list (Z * pkind) :=
  omap (λ p, pair p <$> pm !! p) l.

Definition all_headers (w : World) (pm : gmap Z pkind) (l : list Z) : list (Z * UnitHead) :=
  flat_map (λ x, page_headers w x.1 x.2) (kinds pm l).

Definition all_live (round : Z) (w : World) (pm : gmap Z pkind) (l : list Z) : Z :=
  foldr (λ x n, live_bytes round w x.1 x.2 + n) 0 (kinds pm l).

(** [others] are the pages of the other workers. *)
Record list_done (l others : list Z) (pm : gmap Z pkind) (s s' : Sw) (pm' : gmap Z pkind) : Prop := {
  ld_pm : pm' ⊆ pm;
  ld_kept : ∀ p, p ∉ l → pm' !! p = pm !! p;
  ld_inv : sweep_inv s' pm' others;
  ld_fate : ∀ p k, p ∈ l → pm !! p = Some k → page_fate (s_round s) (W s) (W s') pm' p k;
  ld_units : ∀ a, (∀ p k sz, p ∈ l → pm !! p = Some k → ¬ unit_in p k a sz) →
    w_units (W s') !! a = w_units (W s) !! a;
  ld_heads : ∀ p, p ∉ l → heads (w_chunk (W s')) !! p = heads (w_chunk (W s)) !! p;
  ld_round : s_round s' = s_round s;
  ld_freed : s_freed s' = callbacks (s_round s) (all_headers (W s) pm l) ++ s_freed s;
}.

Lemma page_headers_ext w w' page k :
  (∀ u sz, unit_in page k u sz → w_units w' !! u = w_units w !! u) →
  page_headers w' page k = page_headers w page k.
Proof using.
  intros Hu. destruct k as [g|n]; simpl.
  - apply headers_ext. intros o Ho. eapply Hu. split; [done|]. by exists o.
  - by rewrite (Hu _ (n * NORMAL_PAGE_SIZE - (SIZEOF_PageHead + SIZEOF_UnitHead))).
Qed.

Lemma elem_of_kinds pm l p k : (p, k) ∈ kinds pm l ↔ p ∈ l ∧ pm !! p = Some k.
Proof using.
  rewrite /kinds list_elem_of_omap. split.
  - intros (q & Hq & Hk). destruct (pm !! q) eqn:E; by simplify_eq/=.
  - intros [Hin Hk]. exists p. by rewrite Hk.
Qed.

Lemma kinds_ext pm pm' l : (∀ p, p ∈ l → pm' !! p = pm !! p) → kinds pm' l = kinds pm l.
Proof using.
  intros Hp. apply list_omap_ext, Forall_Forall2_diag, Forall_forall. intros p Hin. by rewrite Hp.
Qed.

(** The totals of the list do not change when the units of its pages do not. *)
Lemma totals_ext w w' round pm l :
  (∀ p k u sz, p ∈ l → pm !! p = Some k → unit_in p k u sz → w_units w' !! u = w_units w !! u) →
  all_headers w' pm l = all_headers w pm l ∧ all_live round w' pm l = all_live round w pm l.
Proof using.
  intros Hu. assert (∀ x, x ∈ kinds pm l → page_headers w' x.1 x.2 = page_headers w x.1 x.2) as Hx.
  { intros [p k] [Hin Hk]%elem_of_kinds. apply page_headers_ext. intros u sz. by apply Hu. }
  rewrite /all_headers /all_live. induction (kinds pm l) as [|x ks IH]; [done|]. simpl.
  destruct IH as [-> ->]; [intros y Hy; apply Hx; by constructor|].
  rewrite /live_bytes Hx; [done|constructor].
Qed.

(** The pages of a list that are still to be swept have not changed. *)
Lemma list_done_later (l1 l2 others : list Z) pm s s1 pm1 bl :
  heap_inv (W s) bl pm → (∀ p, p ∈ l2 → p ∉ l1) → list_done l1 others pm s s1 pm1 →
  (∀ p, p ∈ l2 → pm1 !! p = pm !! p) ∧
  (∀ p k u sz, p ∈ l2 → pm !! p = Some k → unit_in p k u sz →
    w_units (W s1) !! u = w_units (W s) !! u) ∧
  all_headers (W s1) pm1 l2 = all_headers (W s) pm l2 ∧
  all_live (s_round s) (W s1) pm1 l2 = all_live (s_round s) (W s) pm l2.
Proof using.
  intros Hinv Hdisj [Lpm Lk Li Lf Lu Lh Lr Lfr].
  assert (∀ p, p ∈ l2 → pm1 !! p = pm !! p) as Hl by (intros p Hp; by apply Lk, Hdisj).
  assert (∀ p k u sz, p ∈ l2 → pm !! p = Some k → unit_in p k u sz →
    w_units (W s1) !! u = w_units (W s) !! u) as Hun.
  { intros p k u sz Hp Hk Hu. apply Lu. intros q kq sz' Hq Hkq Hu'.
    apply (Hdisj p Hp). by rewrite (unit_one_page _ _ _ q kq p k u sz' sz Hinv). }
  split; [done|]. split; [done|].
  rewrite /all_headers /all_live (kinds_ext _ _ _ Hl). by apply totals_ext.
Qed.

Lemma page_done_list page k rest pm s s' pm' :
  pm !! page = Some k → page_done page k pm rest s s' pm' →
  list_done [page] rest pm s s' pm' ∧
  u64 (s_alive s') = u64 (s_alive s + all_live (s_round s) (W s) pm [page]).
Proof using.
  intros Hp [Hpm Hsi Hfate Hun Hhd Hr Hfr Hal].
  rewrite /all_live /kinds /= Hp /= Z.add_0_r. split; [|done]. split; try done.
  - destruct Hpm as [->| ->]; [done|apply delete_subseteq].
  - intros p Hn. rewrite list_elem_of_singleton in Hn.
    destruct Hpm as [->| ->]; [done|]. by rewrite lookup_delete_ne.
  - intros p kp ->%list_elem_of_singleton Hkp. by simplify_eq.
  - intros a Ha. apply Hun. intros sz. eapply Ha; [constructor|done].
  - intros p Hn. apply Hhd. by rewrite list_elem_of_singleton in Hn.
  - by rewrite Hfr /all_headers /kinds /= Hp /= app_nil_r.
Qed.

Lemma list_done_app (l1 l2 others : list Z) pm s s1 pm1 s' pm' bl :
  heap_inv (W s) bl pm → (∀ p, p ∈ l2 → p ∉ l1) →
  list_done l1 (l2 ++ others) pm s s1 pm1 → list_done l2 others pm1 s1 s' pm' →
  list_done (l1 ++ l2) others pm s s' pm'.
Proof using.
  intros Hinv Hdisj D1 D2.
  destruct (list_done_later _ _ _ _ _ _ _ _ Hinv Hdisj D1) as (Hl & Hun & Eh & _).
  destruct D1 as [Apm Ak Ai Af Au Ah Ar Afr], D2 as [Bpm Bk Bi Bf Bu Bh Br Bfr].
  assert (∀ p, p ∈ l1 → p ∉ l2) as Hdisj' by (intros p H1 H2; by apply (Hdisj p)).
  split.
  - by etrans.
  - intros p [H1 H2]%not_elem_of_app. by rewrite Bk // Ak.
  - done.
  - intros p k Hin Hk u sz h Hu Hh. destruct (decide (p ∈ l1)) as [H1|H1].
    + rewrite Bk; [|by apply Hdisj']. rewrite Bu; [by eapply Af|].
      intros q kq sz' Hq Hkq Hu'. apply (Hdisj q Hq). rewrite Hl // in Hkq.
      by rewrite (unit_one_page _ _ _ p k q kq u sz sz' Hinv).
    + assert (p ∈ l2) as H2 by (apply elem_of_app in Hin as [?|?]; done).
      rewrite -Ar. eapply Bf; [done|by rewrite Hl|done|]. by erewrite Hun.
  - intros a Ha. rewrite Bu; [apply Au|]; intros p k sz Hp Hk; [|rewrite Hl // in Hk];
      (eapply Ha; [|done]); apply elem_of_app; auto.
  - intros p [H1 H2]%not_elem_of_app. by rewrite Bh // Ah.
  - congruence.
  - rewrite Bfr Afr Ar Eh /all_headers /kinds omap_app flat_map_app /callbacks flat_map_app
      rev_app_distr app_assoc //.
Qed.

Lemma all_live_app round w pm l1 l2 :
  all_live round w pm (l1 ++ l2) = all_live round w pm l1 + all_live round w pm l2.
Proof using.
  rewrite /all_live /kinds omap_app. induction (omap _ l1) as [|x ks IH]; simpl; [done|]. rewrite IH. lia.
Qed.

Lemma scanned_later (l1 l2 others : list Z) pm s s1 pm1 bl :
  heap_inv (W s) bl pm → (∀ p, p ∈ l2 → p ∉ l1) → list_done l1 others pm s s1 pm1 →
  (∀ p, p ∈ l2 → ∃ k, pm !! p = Some k ∧ page_scanned (W s) p k) →
  ∀ p, p ∈ l2 → ∃ k, pm1 !! p = Some k ∧ page_scanned (W s1) p k.
Proof using.
  intros Hinv Hdisj D Hsc p Hp.
  destruct (list_done_later _ _ _ _ _ _ _ _ Hinv Hdisj D) as (Hl & Hun & _).
  destruct (Hsc p Hp) as (k & Hk & Hs). exists k. split; [by rewrite Hl|].
  intros u sz h Hu. erewrite Hun; [by eapply Hs|done|done|done].
Qed.

Lemma chained_later (l1 l2 others : list Z) pm s s1 pm1 head :
  (∀ p, p ∈ l2 → p ∉ l1) → list_done l1 others pm s s1 pm1 →
  chained (heads (w_chunk (W s))) head l2 → chained (heads (w_chunk (W s1))) head l2.
Proof using.
  intros Hdisj D. apply chained_frame. intros p Hp. by rewrite (ld_heads _ _ _ _ _ _ D); [|apply Hdisj].
Qed.

Lemma sweep_page_list_spec l others : ∀ fuel page s pm,
  sweep_inv s pm (l ++ others) → chained (heads (w_chunk (W s))) page l → NoDup (l ++ others) →
  (∀ p, p ∈ l → ∃ k, pm !! p = Some k ∧ page_scanned (W s) p k) → (length l ≤ fuel)%nat →
  wp (sweep_page_list fuel page) (λ _ s', ∃ pm', list_done l others pm s s' pm' ∧
    u64 (s_alive s') = u64 (s_alive s + all_live (s_round s) (W s) pm l)) s.
Proof using.
  induction l as [|p l IH]; intros fuel page s pm Hsi Hch Hnd Hpg Hfuel.
  { simpl in Hch. subst page. destruct fuel; simpl; wp_steps; exists pm;
      (split; [|by rewrite Z.add_0_r]); (split; try done); by intros p k []%not_elem_of_nil. }
  destruct Hch as (-> & Hp0 & h & Hh & Hch). apply NoDup_cons in Hnd as [Hnin Hnd].
  assert (∀ q, q ∈ l → q ∉ [p]) as Hdisj.
  { intros q Hq ->%list_elem_of_singleton. apply Hnin, elem_of_app. auto. }
  destruct fuel as [|fuel]; [simpl in Hfuel; lia|]. cbn [sweep_page_list]. bool_test (p =? 0).
  destruct (Hpg p) as (k & Hk & Hsc); [constructor|]. pose proof Hsi as ([bl Hinv] & _).
  wp_steps. eapply wp_read_world; [by apply load_head_ok|]. wp_steps.
  eapply wp_mono; [by apply (sweep_units_in_page_spec s pm p k (l ++ others))|].
  intros [] s1 (pm1 & [D1 Ha1]%page_done_list); [|done].
  destruct (list_done_later _ _ _ _ _ _ _ _ Hinv Hdisj D1) as (_ & _ & _ & El).
  eapply wp_mono; [apply (IH fuel _ s1 pm1); [by apply D1|by eapply chained_later|done| |simpl in Hfuel; lia]|].
  - eapply scanned_later; try done. intros q Hq. apply Hpg. by constructor.
  - intros _ s' (pm' & D2 & Ha2). exists pm'. split; [by eapply (list_done_app [p] l)|].
    change (p :: l) with ([p] ++ l). rewrite all_live_app Z.add_assoc Ha2 (ld_round _ _ _ _ _ _ D1) El.
    rewrite /u64 in Ha1 |- *. by rewrite -Zplus_mod_idemp_l Ha1 Zplus_mod_idemp_l.
Qed.
End worker.
