(* ===== verification/Collect.v ===== *)
(** * The sweep phase of a collection: [src/src/woomem_gc.cpp] (lines 291-343, 622-634)

    Steps 6 and 7 of [GC::main_thread_job]: the main thread takes the chain of all
    pages, cuts it into one list per worker, lets every worker sweep its list, adds up
    the bytes that stay alive and cleans the pools.  The workers run one after the other. *)

From S2P Require Import Prelude SizeClass Locks Chunk Blocks ChunkProof Heap PageUnit HeapInv.
From S2P Require Import Pools PoolProof Api Sweep.
Open Scope Z_scope.

Record Worker := MkWorker {
  m_sweep_page_list : Z;
  m_alive_memory_size_counter : Z;
}.

(** [s_alive] of [g_sw] is the counter of the worker that runs. *)
Record Gc := MkGc {
  g_sw : Sw;
  g_workers : list Worker;               (* [m_gc_worker_threads] *)
  g_memory_size_after_sweep : Z;         (* [woomem_gc_memory_size_after_last_round_sweep] *)
}.

Abbreviation GM := (M Gc).

Definition set_sw (s : Sw) (x : Gc) : Gc := MkGc s (g_workers x) (g_memory_size_after_sweep x).
Definition set_workers (ws : list Worker) (x : Gc) : Gc := MkGc (g_sw x) ws (g_memory_size_after_sweep x).
Definition set_memory_size (n : Z) (x : Gc) : Gc := MkGc (g_sw x) (g_workers x) n.
Definition set_sweep_list (p : Z) (w : Worker) : Worker := MkWorker p (m_alive_memory_size_counter w).
Definition set_counter (n : Z) (w : Worker) : Worker := MkWorker (m_sweep_page_list w) n.
Definition set_alive (n : Z) (s : Sw) : Sw := MkSw (s_ctx s) (s_round s) n (s_freed s).

Definition on_sw {A} (m : SM A) : GM A := λ x,
  match m (g_sw x) with
  | Ok (a, s) => Ok (a, set_sw s x)
  | Fail e => Fail e
  end.

(** ** Distribution of the pages *)

(** The loop that counts the pages of the chain. *)
Fixpoint count_pages (fuel : nat) (p total_pages : Z) : WM Z :=
  if p =? 0 then mret total_pages
  else
    match fuel with
    | O => throw OutOfFuel
    | S fuel' => h ← load_head p; count_pages fuel' (m_next_page h) (u64 (total_pages + 1))
    end.

(** The loop over [j]: [n] steps left. *)
Fixpoint advance (n : nat) (prev current : Z) : WM (Z * Z) :=
  match n with
  | O => mret (prev, current)
  | S n' => h ← load_head current; advance n' current (m_next_page h)
  end.

(** The loop over [i]: the workers that are left, the workers with their lists. *)
Fixpoint distribute_loop (base_count remainder i current : Z) (ws : list Worker) : WM (list Worker) :=
  match ws with
  | [] => mret []
  | w :: ws' =>
    let n := base_count + (if i <? remainder then 1 else 0) in
    if n =? 0 then
      rest ← distribute_loop base_count remainder (i + 1) current ws';
      mret (set_sweep_list 0 w :: rest)
    else
      pc ← advance (Z.to_nat n) 0 current;
      on_chunk (store_head pc.1 (set_next_page 0)) ;;
      rest ← distribute_loop base_count remainder (i + 1) pc.2 ws';
      mret (set_sweep_list current w :: rest)
  end.

(** More steps than there are page headers. *)
Definition page_fuel (w : World) : nat := S (size (heads (w_chunk w))).

Definition distribute_pages (ws : list Worker) : WM (list Worker) :=
  all_pages ← gets w_all_page_list;
  modify (set_all_page_list 0) ;;
  if all_pages =? 0 then mret ws
  else
    fuel ← gets page_fuel;
    total_pages ← count_pages fuel all_pages 0;
    let m_gc_worker_count := Z.of_nat (length ws) in
    let base_count := total_pages / m_gc_worker_count in
    let remainder := total_pages mod m_gc_worker_count in
    distribute_loop base_count remainder 0 all_pages ws.

(** ** The workers *)

(** What a worker does in state [SWEEP]. *)
Definition worker_sweep `{Build} (w : Worker) : SM Worker :=
  modify (set_alive 0) ;;
  fuel ← in_world (gets page_fuel);
  sweep_page_list fuel (m_sweep_page_list w) ;;
  n ← gets s_alive;
  mret (set_counter n w).

Fixpoint workers_sweep `{Build} (ws : list Worker) : SM (list Worker) :=
  match ws with
  | [] => mret []
  | w :: ws' => w' ← worker_sweep w; rest ← workers_sweep ws'; mret (w' :: rest)
  end.

Definition total_alive (ws : list Worker) : Z :=
  foldl (λ n w, u64 (n + m_alive_memory_size_counter w)) 0 ws.

(** Steps 6 and 7. *)
Definition sweep_phase `{Build} : GM unit :=
  ws ← gets g_workers;
  ws ← on_sw (in_world (distribute_pages ws));
  ws ← on_sw (workers_sweep ws);
  modify (set_workers ws) ;;
  modify (set_memory_size (total_alive ws)) ;;
  on_sw (on_sctx remove_marked_run_out_pages).
