(* ===== verification/CollectProof.v ===== *)
(** * The sweep phase: specifications

    The main thread's distribution of the pages, and the workers' sweeps put together. *)

From S2P Require Import Prelude SizeClass Locks Chunk Blocks ChunkProof Heap PageUnit HeapInv.
From S2P Require Import Pools PoolProof Api Sweep SweepProof SweepPage Collect.
Open Scope Z_scope.

(** ** Counting *)

(** There are no more pages than the chunk has. *)
Lemma pages_bound w bl pm (l : list Z) :
  heap_inv w bl pm → NoDup l → (∀ p, p ∈ l → p ∈ dom pm) →
  Z.of_nat (length l) ≤ total_pages_ (chunk (w_chunk w)).
Proof.
  intros Hinv Hnd Hl. pose proof (ci_shape _ _ (hi_chunk _ _ _ Hinv)) as Hsh.
  pose proof (sh_tiles _ _ Hsh) as Ht.
  assert (0 ≤ total_pages_ (chunk (w_chunk w))) as H0 by (pose proof (sh_total _ _ Hsh); lia).
  assert (l ⊆+ (page_addr (w_chunk w) <$> seqZ 0 (total_pages_ (chunk (w_chunk w))))) as Hs.
  { apply NoDup_submseteq; [done|]. intros p [k Hk]%Hl%elem_of_dom.
    destruct (hi_map _ _ _ Hinv _ _ Hk) as (x & -> & Hb & _).
    apply list_elem_of_fmap. exists x. split; [done|]. apply elem_of_seqZ.
    pose proof (tiles_elem _ _ _ _ Ht Hb). simpl in *. lia. }
  apply submseteq_length in Hs. rewrite length_fmap length_seqZ in Hs. lia.
Qed.

Lemma chained_headers hs head l p : chained hs head l → p ∈ l → p ∈ dom hs.
Proof.
  revert head. induction l as [|q l IH]; intros head; [by intros _ ?%elem_of_nil|].
  intros (_ & _ & h & Hh & Hc) [->|Hin]%elem_of_cons; [by eapply elem_of_dom_2|by eapply IH].
Qed.

Lemma chained_fuel w head l :
  chained (heads (w_chunk w)) head l → NoDup l → (length l ≤ page_fuel w)%nat.
Proof.
  intros Hc Hnd. rewrite /page_fuel -size_dom -(size_list_to_set (C := gset Z)) //.
  apply Nat.le_le_succ_r, subseteq_size. intros p Hp%elem_of_list_to_set. by eapply chained_headers.
Qed.

Lemma count_pages_spec l : ∀ fuel p n w,
  chained (heads (w_chunk w)) p l → (length l ≤ fuel)%nat → 0 ≤ n → n + Z.of_nat (length l) < 2 ^ 64 →
  wp (count_pages fuel p n) (λ r w', w' = w ∧ r = n + Z.of_nat (length l)) w.
Proof.
  induction l as [|q l IH]; intros fuel p n w Hc Hf H0 Hb; cbn [chained] in Hc.
  { subst p. destruct fuel; simpl; wp_steps; split; [done|lia|done|lia]. }
  destruct Hc as (-> & Hq & h & Hh & Hc). cbn [length] in *. destruct fuel as [|fuel]; [lia|].
  cbn [count_pages]. bool_test (q =? 0). wp_steps. eapply wp_load_head; [exact Hh|].
  rewrite u64_small; [|lia]. eapply wp_mono; [apply IH; [done|lia|lia|lia]|].
  intros r w' [-> ->]. split; [done|lia].
Qed.

(** ** Cutting the chain *)

Lemma advance_spec l1 : ∀ l2 prev cur w,
  chained (heads (w_chunk w)) cur (l1 ++ l2) →
  wp (advance (length l1) prev cur) (λ r w', w' = w ∧ r.1 = default prev (last l1) ∧
    chained (heads (w_chunk w)) r.2 l2) w.
Proof.
  induction l1 as [|q l1 IH]; intros l2 prev cur w Hc; cbn [advance length]; [by wp_steps|].
  destruct Hc as (-> & _ & h & Hh & Hc). wp_steps. eapply wp_load_head; [exact Hh|].
  eapply wp_mono; [by apply IH|]. intros r w' (-> & Hr & Hc2). split; [done|]. split; [|done].
  rewrite Hr last_cons. by destruct (last l1).
Qed.

Lemma chained_prefix hs head l1 x l2 :
  chained hs head (l1 ++ x :: l2) → x ∉ l1 →
  ∃ h, hs !! x = Some h ∧ chained (<[x := set_next_page 0 h]> hs) head (l1 ++ [x]).
Proof.
  revert head. induction l1 as [|q l1 IH]; intros head; simpl.
  - intros (-> & Hx & h & Hh & _) _. exists h. split; [done|]. split; [done|]. split; [done|].
    exists (set_next_page 0 h). by rewrite lookup_insert_eq.
  - intros (-> & Hq & h & Hh & Hc) [Hne Hn]%not_elem_of_cons.
    destruct (IH _ Hc Hn) as (hx & Hhx & Hc'). exists hx. split; [done|]. split; [done|]. split; [done|].
    exists h. by rewrite lookup_insert_ne.
Qed.

(** The world with only links of page headers changed. *)
Definition relinked (w w' : World) (l : list Z) : Prop :=
  w_allocs w' = w_allocs w ∧ w_units w' = w_units w ∧ w_all_page_list w' = w_all_page_list w ∧
  chunk (w_chunk w') = chunk (w_chunk w) ∧
  ∀ p, p ∉ l → heads (w_chunk w') !! p = heads (w_chunk w) !! p.

(** Cutting off a prefix of the chain. *)
Lemma cut_spec {A} (K : Z → WM A) Q w bl pm cur l1 l2 :
  heap_inv w bl pm → (∀ p, p ∈ l1 → p ∈ dom pm) → l1 ≠ [] → NoDup (l1 ++ l2) →
  chained (heads (w_chunk w)) cur (l1 ++ l2) →
  (∀ next w', heap_inv w' bl pm → relinked w w' l1 →
    chained (heads (w_chunk w')) cur l1 → chained (heads (w_chunk w')) next l2 → wp (K next) Q w') →
  wp (pc ← advance (length l1) 0 cur; on_chunk (store_head pc.1 (set_next_page 0)) ;; K pc.2) Q w.
Proof.
  intros Hinv Hdom Hne Hnd Hc HK. wp_steps. eapply wp_mono; [by apply advance_spec|].
  intros [prev cur'] w' (-> & Hprev & Hc2). simpl in *.
  destruct (exists_last Hne) as (l & x & ->). rewrite last_snoc /= in Hprev. subst prev.
  rewrite -app_assoc /= in Hc Hnd. apply NoDup_app in Hnd as (_ & Hd & [Hx2 _]%NoDup_cons).
  destruct (chained_prefix _ _ _ _ _ Hc) as (h & Hh & Hc1).
  { intros Hin. apply (Hd x Hin). constructor. }
  wp_steps. eapply wp_on_chunk_store_head; [exact Hh|]. apply HK; simpl; try done.
  - assert (x ∈ dom pm) as [k Hk]%elem_of_dom by (apply Hdom, elem_of_app; right; constructor).
    by eapply heap_link.
  - split_and!; try done. intros p Hp. rewrite /= lookup_insert_ne //. intros ->.
    apply Hp, elem_of_app. right. constructor.
  - eapply chained_frame; [|exact Hc2]. intros q Hq. rewrite lookup_insert_ne //. by intros ->.
Qed.

Lemma relinked_trans w1 w2 w3 l1 l2 :
  relinked w1 w2 l1 → relinked w2 w3 l2 → relinked w1 w3 (l1 ++ l2).
Proof.
  intros (A1 & U1 & L1 & C1 & H1) (A2 & U2 & L2 & C2 & H2). split_and!; try congruence.
  intros p [Hp1 Hp2]%not_elem_of_app. by rewrite H2 // H1.
Qed.

(** ** Distribution *)

Definition share (base rem i : Z) : Z := base + (if i <? rem then 1 else 0).

Fixpoint shares (base rem i : Z) (n : nat) : Z :=
  match n with O => 0 | S n' => share base rem i + shares base rem (i + 1) n' end.

Lemma shares_sum base rem i n :
  shares base rem i n = base * Z.of_nat n + Z.max 0 (Z.min (rem - i) (Z.of_nat n)).
Proof.
  revert i. induction n as [|n IH]; intros i; cbn [shares]; [lia|]. rewrite IH /share. case_match; lia.
Qed.

Lemma shares_total total n :
  (0 < n)%nat → 0 ≤ total →
  shares (total / Z.of_nat n) (total mod Z.of_nat n) 0 n = total.
Proof.
  intros Hn Ht. rewrite shares_sum. pose proof (Z.mod_pos_bound total (Z.of_nat n)).
  pose proof (Z.div_mod total (Z.of_nat n)). lia.
Qed.

(** Worker [i] has a list of its share of the pages. *)
Inductive given (hs : gmap Z PageHead) (base rem : Z) : Z → list Worker → list (list Z) → Prop :=
| given_nil i : given hs base rem i [] []
| given_cons i w ws l ls :
    chained hs (m_sweep_page_list w) l → Z.of_nat (length l) = share base rem i →
    given hs base rem (i + 1) ws ls → given hs base rem i (w :: ws) (l :: ls).

Lemma given_frame hs hs' base rem i ws ls :
  (∀ p, p ∈ concat ls → m_next_page <$> hs' !! p = m_next_page <$> hs !! p) →
  given hs base rem i ws ls → given hs' base rem i ws ls.
Proof.
  intros Hf Hg. induction Hg as [|i w ws l ls Hc Hl Hg IH]; constructor; try done.
  - eapply chained_frame; [|done]. intros p Hp. apply Hf. simpl. apply elem_of_app. auto.
  - apply IH. intros p Hp. apply Hf. simpl. apply elem_of_app. auto.
Qed.

Lemma distribute_loop_spec base rem bl pm ws : ∀ i cur l w,
  0 ≤ base → heap_inv w bl pm → (∀ p, p ∈ l → p ∈ dom pm) → NoDup l →
  chained (heads (w_chunk w)) cur l → Z.of_nat (length l) = shares base rem i (length ws) →
  wp (distribute_loop base rem i cur ws) (λ ws' w', heap_inv w' bl pm ∧ relinked w w' l ∧
    length ws' = length ws ∧
    ∃ ls, concat ls = l ∧ given (heads (w_chunk w')) base rem i ws' ls) w.
Proof.
  intros i cur l w Hbase. revert i cur l w.
  induction ws as [|wk ws IH]; intros i cur l w Hinv Hdom Hnd Hc Hlen; cbn [distribute_loop].
  { cbn [length shares] in Hlen. destruct l; [|simpl in Hlen; lia]. wp_steps.
    split_and!; try done. exists []. split; [done|constructor]. }
  cbn [length shares] in Hlen. change (base + (if i <? rem then 1 else 0)) with (share base rem i).
  assert (0 ≤ share base rem i) as Hs by (rewrite /share; case_match; lia).
  assert (0 ≤ shares base rem (i + 1) (length ws)) as Hs' by (rewrite shares_sum; lia).
  destruct (decide (share base rem i = 0)) as [E|E].
  - rewrite E /=. wp_steps. eapply wp_mono; [apply (IH (i + 1) cur l w); try done; lia|].
    intros ws' w' (Hi' & Hr & Hl & ls & Hls & Hg). wp_steps. split_and!; try done; [simpl; lia|].
    exists ([] :: ls). split; [done|]. constructor; [done|simpl; lia|done].
  - bool_test (share base rem i =? 0).
    set (n := Z.to_nat (share base rem i)). pose proof (take_drop n l) as Htd.
    assert (length (take n l) = n) as Hn by (rewrite length_take; lia).
    rewrite -Htd in Hnd Hc. rewrite -{1}Hn. 
    eapply (cut_spec (λ next, rest ← distribute_loop base rem (i + 1) next ws;
      mret (set_sweep_list cur wk :: rest))); try done.
    { intros p Hp. apply Hdom. rewrite -Htd. apply elem_of_app. auto. }
    { intros Hnil. rewrite Hnil /= in Hn. lia. }
    intros cur' w2 Hi2 Hr2 Hc2 Hc2'.
    apply NoDup_app in Hnd as (Hnd1 & Hd & Hnd2). wp_steps.
    eapply wp_mono; [apply (IH (i + 1) cur' (drop n l) w2); try done|].
    + intros p Hp. apply Hdom. rewrite -Htd. apply elem_of_app. auto.
    + rewrite length_drop. lia.
    + intros ws' w' (Hi' & Hr & Hl & ls & Hls & Hg). wp_steps. split; [done|].
      split; [rewrite -Htd; by eapply relinked_trans|]. split; [simpl; lia|].
      exists (take n l :: ls). simpl. rewrite Hls Htd. split; [done|].
      constructor; [|simpl; lia|done]. simpl. eapply chained_frame; [|exact Hc2].
      intros p Hp. destruct Hr as (_ & _ & _ & _ & Hh). rewrite Hh //. by apply Hd.
Qed.

Lemma given_empty hs (i : Z) ws :
  0 ≤ i → (∀ w, w ∈ ws → m_sweep_page_list w = 0) →
  given hs 0 0 i ws (replicate (length ws) []).
Proof.
  revert i. induction ws as [|w ws IH]; intros i Hi Hw; simpl; [constructor|].
  constructor; [apply Hw; constructor|rewrite /share /=; bool_test (i <? 0); done|].
  apply IH; [lia|]. intros x Hx. apply Hw. by constructor.
Qed.

(** Workers that have not been given a list before, or a chain that is not empty. *)
Definition lists_fresh (w : World) (ws : list Worker) : Prop :=
  w_all_page_list w = 0 → ∀ wk, wk ∈ ws → m_sweep_page_list wk = 0.

(** A unit lies in a page, so the chain is not empty. *)
Lemma unit_fresh c pm u s ws : ctx_inv c pm → is_unit pm u s → lists_fresh (c_world c) ws.
Proof.
  intros (_ & (l & Hch & _ & Hl) & _) (p & k & Hp & _) E. exfalso. rewrite E in Hch.
  assert (p ∈ l) as Hin by (apply Hl, elem_of_dom; by exists k).
  destruct l as [|q l]; [by apply not_elem_of_nil in Hin|]. by destruct Hch as (-> & ? & _).
Qed.

Lemma distribute_pages_spec w bl pm ws l :
  heap_inv w bl pm → chained (heads (w_chunk w)) (w_all_page_list w) l → NoDup l →
  (∀ p, p ∈ l ↔ p ∈ dom pm) → (0 < length ws)%nat → lists_fresh w ws →
  let total := Z.of_nat (length l) in
  let n := Z.of_nat (length ws) in
  wp (distribute_pages ws) (λ ws' w', heap_inv w' bl pm ∧ w_all_page_list w' = 0 ∧
    w_allocs w' = w_allocs w ∧ w_units w' = w_units w ∧ length ws' = length ws ∧
    ∃ ls, concat ls = l ∧ given (heads (w_chunk w')) (total / n) (total mod n) 0 ws' ls) w.
Proof.
  intros Hinv Hch Hnd Hl Hws Hfresh total n. rewrite /distribute_pages. wp_steps.
  assert (heap_inv (set_all_page_list 0 w) bl pm) as Hinv0.
  { destruct Hinv as [Hc Hm Ha]. split; [done| |done]. intros page k Hk.
    destruct (Hm page k Hk) as (x & ? & ? & Hok). exists x. split_and!; try done.
    eapply page_ok_same; [|done]. by split. }
  assert (∀ p, p ∈ l → p ∈ dom pm) as Hdom by (intros p; by rewrite Hl).
  pose proof (pages_bound _ _ _ _ Hinv Hnd Hdom) as Hb.
  pose proof (sh_total _ _ (ci_shape _ _ (hi_chunk _ _ _ Hinv))) as Htot. rewrite /ALLOCATED_FLAG in Htot.
  destruct (decide (w_all_page_list w = 0)) as [E|E].
  - rewrite E /=. wp_steps. assert (l = []) as ->.
    { destruct l as [|p l]; [done|]. destruct Hch as (? & ? & _). congruence. }
    rewrite /total /= Z.div_0_l; [|lia]. rewrite Z.mod_0_l; [|lia]. split_and!; try done.
    exists (replicate (length ws) []). split; [apply concat_nils|].
    apply given_empty; [lia|]. by apply Hfresh.
  - bool_test (w_all_page_list w =? 0). wp_steps.
    eapply wp_mono; [apply (count_pages_spec l); [done|by eapply chained_fuel|lia|lia]|].
    intros r w' [-> ->]. rewrite Z.add_0_l.
    eapply wp_mono; [apply (distribute_loop_spec (total / n) (total mod n) bl pm ws 0 _ l); try done|].
    + apply Z.div_pos; lia.
    + rewrite shares_total //. lia.
    + intros ws' w' (Hi & (Ha & Hu & Hp & _ & _) & Hlen & Hg). by split_and!.
Qed.

(** ** The workers *)

Definition counters (ws : list Worker) : Z :=
  foldr (λ w n, m_alive_memory_size_counter w + n) 0 ws.

Lemma total_alive_sum ws : total_alive ws = u64 (counters ws).
Proof.
  rewrite /total_alive. change 0 with (u64 0) at 1. replace (counters ws) with (0 + counters ws) by lia.
  generalize 0. induction ws as [|w ws IH]; intros n; simpl; [by rewrite Z.add_0_r|].
  replace (u64 (u64 n + m_alive_memory_size_counter w)) with (u64 (n + m_alive_memory_size_counter w))
    by (by rewrite /u64 Zplus_mod_idemp_l).
  rewrite IH. f_equal. lia.
Qed.

Section sweep_workers.
Context `{Build}.

Lemma worker_sweep_spec wk l others s pm :
  sweep_inv s pm (l ++ others) → chained (heads (w_chunk (W s))) (m_sweep_page_list wk) l →
  NoDup (l ++ others) → (∀ p, p ∈ l → ∃ k, pm !! p = Some k ∧ page_scanned (W s) p k) →
  wp (worker_sweep wk) (λ wk' s', ∃ pm', list_done l others pm s s' pm' ∧
    m_sweep_page_list wk' = m_sweep_page_list wk ∧
    u64 (m_alive_memory_size_counter wk') = u64 (all_live (s_round s) (W s) pm l)) s.
Proof using.
  intros Hsi Hch Hnd Hsc. rewrite /worker_sweep. wp_steps.
  eapply wp_read_world; [done|]. pose proof Hnd as (Hnd1 & _ & _)%NoDup_app. wp_steps.
  eapply wp_mono; [apply (sweep_page_list_spec l others _ _ (set_alive 0 s) pm); try done; by eapply chained_fuel|].
  intros _ s' (pm' & D & Ha). wp_steps. exists pm'. split; [|done].
  destruct D. by split.
Qed.

Lemma workers_sweep_spec base rem ws ls : ∀ i s pm,
  sweep_inv s pm (concat ls) → given (heads (w_chunk (W s))) base rem i ws ls → NoDup (concat ls) →
  (∀ p, p ∈ concat ls → ∃ k, pm !! p = Some k ∧ page_scanned (W s) p k) →
  wp (workers_sweep ws) (λ ws' s', ∃ pm', list_done (concat ls) [] pm s s' pm' ∧
    m_sweep_page_list <$> ws' = m_sweep_page_list <$> ws ∧
    u64 (counters ws') = u64 (all_live (s_round s) (W s) pm (concat ls))) s.
Proof using.
  revert ls. induction ws as [|wk ws IH]; intros ls i s pm Hsi Hg Hnd Hsc;
    inversion Hg as [|? ? ? l ls' Hc Hl Hg']; subst; cbn [workers_sweep concat] in *; wp_steps.
  { exists pm. split; [|done]. split; try done. by intros p k []%not_elem_of_nil. }
  pose proof Hnd as (_ & Hd & Hnd2)%NoDup_app. pose proof Hsi as ([bl Hinv] & _).
  assert (∀ p, p ∈ concat ls' → p ∉ l) as Hdisj by (intros p Hp Hp'; by apply (Hd p)).
  eapply wp_mono; [apply (worker_sweep_spec wk l (concat ls') s pm); try done|].
  { intros p Hp. apply Hsc, elem_of_app. auto. }
  intros wk' s1 (pm1 & D1 & Hls1 & Ha1). wp_steps.
  destruct (list_done_later _ _ _ _ _ _ _ _ Hinv Hdisj D1) as (_ & _ & _ & El).
  eapply wp_mono; [apply (IH ls' (i + 1) s1 pm1); try done|].
  - by apply D1.
  - eapply given_frame; [|done]. intros p Hp. by rewrite (ld_heads _ _ _ _ _ _ D1); [|apply Hdisj].
  - eapply scanned_later; try done. intros p Hp. apply Hsc, elem_of_app. auto.
  - intros ws' s' (pm' & D2 & Hls & Ha2). wp_steps. exists pm'. split; [|split].
    + eapply list_done_app; try done. by rewrite app_nil_r.
    + by rewrite !fmap_cons Hls1 Hls.
    + rewrite all_live_app -El -(ld_round _ _ _ _ _ _ D1) /=.
      rewrite /u64 in Ha1 Ha2 |- *. rewrite Z.add_mod // Ha1 Ha2 -Z.add_mod //.
      by rewrite (ld_round _ _ _ _ _ _ D1).
Qed.
End sweep_workers.

(** ** The whole phase *)

Lemma wp_on_sw {A} (m : SM A) (Q : A → Gc → Prop) x :
  wp m (λ a s, Q a (set_sw s x)) (g_sw x) → wp (on_sw m) Q x.
Proof. rewrite /wp /on_sw. by destruct (m (g_sw x)) as [[a s]|]. Qed.

Lemma wp_on_sctx {A} (m : XM A) (Q : A → Sw → Prop) s :
  wp m (λ a c, Q a (set_sctx c s)) (s_ctx s) → wp (on_sctx m) Q s.
Proof. rewrite /wp /on_sctx. by destruct (m (s_ctx s)) as [[a c]|]. Qed.

Lemma chained_fun hs head l l' : chained hs head l → chained hs head l' → l = l'.
Proof.
  revert head l'. induction l as [|p l IH]; intros head [|q l']; simpl; try done.
  - by intros -> (? & ? & _).
  - by intros (-> & ? & _) ?.
  - intros (-> & _ & h & Hh & Hc) (<- & _ & h' & Hh' & Hc'). simplify_eq. f_equal. eauto.
Qed.

(** No unit waits to be scanned: marking has ended. *)
Definition all_scanned (w : World) (pm : gmap Z pkind) : Prop :=
  ∀ u sz h, is_unit pm u sz → w_units w !! u = Some h → m_life h ≠ SELF_MARKED.

Record phase_done (pm : gmap Z pkind) (l : list Z) (x x' : Gc) (pm' : gmap Z pkind) : Prop := {
  ph_ctx : ctx_inv (s_ctx (g_sw x')) pm';
  ph_ready : caches_ready (s_ctx (g_sw x'));
  ph_pm : pm' ⊆ pm;
  ph_fate : ∀ p k, pm !! p = Some k →
    page_fate (s_round (g_sw x)) (W (g_sw x)) (W (g_sw x')) pm' p k;
  ph_units : ∀ a, (∀ sz, ¬ is_unit pm a sz) →
    w_units (W (g_sw x')) !! a = w_units (W (g_sw x)) !! a;
  ph_workers : length (g_workers x') = length (g_workers x);
  ph_freed : s_freed (g_sw x') =
    callbacks (s_round (g_sw x)) (all_headers (W (g_sw x)) pm l) ++ s_freed (g_sw x);
  ph_size : g_memory_size_after_sweep x' = u64 (all_live (s_round (g_sw x)) (W (g_sw x)) pm l);
}.

Lemma page_fate_units round w w1 w2 pm' p k :
  w_units w2 = w_units w1 → page_fate round w w1 pm' p k → page_fate round w w2 pm' p k.
Proof. intros Hu Hf u sz h. rewrite Hu. apply Hf. Qed.

Section phase.
Context `{Build}.

Lemma sweep_phase_spec x pm l :
  ctx_inv (s_ctx (g_sw x)) pm → caches_ready (s_ctx (g_sw x)) →
  chained (heads (w_chunk (W (g_sw x)))) (w_all_page_list (W (g_sw x))) l →
  all_scanned (W (g_sw x)) pm → (0 < length (g_workers x))%nat → lists_fresh (W (g_sw x)) (g_workers x) →
  wp sweep_phase (λ _ x', ∃ pm', phase_done pm l x x' pm') x.
Proof using.
  intros ((bl & Hinv) & (l' & Hch' & Hnd & Hl) & Hpool) Hrd Hch Hsc Hws Hfr.
  rewrite (chained_fun _ _ _ _ Hch' Hch) in Hnd Hl. clear l' Hch'.
  rewrite /sweep_phase. wp_steps. apply wp_on_sw, wp_in_world.
  eapply wp_mono; [by apply (distribute_pages_spec _ bl pm _ l)|].
  intros ws w1 (Hi1 & Hp1 & Ha1 & Hu1 & Hlen & ls & <- & Hg). wp_steps. apply wp_on_sw.
  set (s1 := set_sctx (set_world w1 (s_ctx (g_sw x))) (g_sw x)).
  assert (∀ p, flags w1 p = flags (W (g_sw x)) p) as Hfl by (intros p; by rewrite /flags Ha1).
  assert (sweep_inv s1 pm (concat ls)) as Hsi.
  { split; [by exists bl|]. split; [apply pool_inv_flags; [done|]; intros p; by rewrite Hfl|].
    split; [apply caches_ready_flags; [done|]; intros t g; by rewrite Hfl|].
    exists []. simpl. split; [done|]. split; [constructor|]. intros p. rewrite -Hl. split; [by intros ?%elem_of_nil|tauto]. }
  assert (∀ p, p ∈ concat ls → ∃ k, pm !! p = Some k ∧ page_scanned (W s1) p k) as Hps.
  { intros p [k Hk]%Hl%elem_of_dom. exists k. split; [done|]. intros u sz h Hu. rewrite /= Hu1.
    apply (Hsc u sz). by exists p, k. }
  eapply wp_mono; [by eapply (workers_sweep_spec _ _ ws ls 0 s1 pm)|].
  intros ws' s2 (pm' & D & Hwl & Hsum). wp_steps. apply wp_on_sw, wp_on_sctx. simpl.
  destruct (ld_inv _ _ _ _ _ _ D) as (Hheap2 & Hpool2 & Hrd2 & l2 & Hch2 & Hnd2 & Hl2).
  assert (ctx_inv (s_ctx s2) pm') as Hctx2.
  { split_and!; [done| |done]. exists l2. split_and!; try done. intros p. rewrite Hl2.
    split; [tauto|]. intros ?. split; [done|]. apply not_elem_of_nil. }
  eapply wp_mono; [by apply (remove_marked_run_out_pages_spec (s_ctx s2) pm')|].
  intros _ c3 (Hc3 & Hr3 & (_ & _ & Hu3) & _). exists pm'. destruct D as [Dpm _ _ Df Dun _ _ Dfr].
  assert (all_headers w1 pm (concat ls) = all_headers (W (g_sw x)) pm (concat ls) ∧
    all_live (s_round (g_sw x)) w1 pm (concat ls) =
    all_live (s_round (g_sw x)) (W (g_sw x)) pm (concat ls)) as [Eh El].
  { apply totals_ext. intros. by rewrite Hu1. }
  split; simpl; try done.
  - intros p k Hk. eapply page_fate_units; [exact Hu3|]. intros u sz h Hu Hh.
    eapply (Df p k); [apply Hl; by eapply elem_of_dom_2|done|done|]. by rewrite /= Hu1.
  - intros a Ha. rewrite Hu3 Dun /=; [by rewrite Hu1|]. intros p k sz _ Hk Hu. apply (Ha sz). by exists p, k.
  - by rewrite -Hlen -(length_fmap m_sweep_page_list ws') Hwl length_fmap.
  - by rewrite Dfr /= Eh.
  - by rewrite total_alive_sum Hsum /= El.
Qed.
End phase.

(** ** What the phase means for a unit *)

Lemma survives_fate round h h' :
  survives round h = true → fate round h h' →
  h' = if bool_decide (m_life h = PENDING) then h else kept h.
Proof.
  rewrite /survives /fate. intros [Hr Hd]%andb_true_iff. rewrite negb_true_iff in Hd.
  apply negb_true_iff, bool_decide_eq_false in Hr. rewrite Hd. by destruct (m_life h).
Qed.

Lemma doomed_fate round h h' : survives round h = false → fate round h h' → m_life h' = RELEASED.
Proof.
  rewrite /survives /fate. intros [Hr|Hd]%andb_false_iff.
  - apply negb_false_iff, bool_decide_eq_true in Hr. rewrite Hr. by intros ->.
  - apply negb_false_iff in Hd. pose proof Hd as [Hl%bool_decide_eq_true _]%andb_true_iff. by rewrite Hl Hd.
Qed.

Lemma phase_done_unit pm l x x' pm' u sz h :
  ctx_inv (s_ctx (g_sw x)) pm → phase_done pm l x x' pm' →
  is_unit pm u sz → w_units (W (g_sw x)) !! u = Some h →
  if survives (s_round (g_sw x)) h then
    is_unit pm' u sz ∧ w_units (W (g_sw x')) !! u =
      Some (if bool_decide (m_life h = PENDING) then h else kept h)
  else ¬ in_use pm' (W (g_sw x')) u.
Proof.
  intros ((bl & Hinv) & _) [Hc Hr Hsub Hf _ _ _ _] (p & k & Hp & Hu) Hh.
  destruct (Hf p k Hp u sz h Hu Hh) as [(h' & Hh' & Hfate) Hpage].
  destruct (survives (s_round (g_sw x)) h) eqn:E.
  - destruct Hpage as [Hp'|[_ ?]]; [|congruence].
    split; [by exists p, k|]. rewrite Hh'. f_equal. by eapply survives_fate.
  - intros (sz' & _ & h2 & Hh2 & Hl). simplify_eq. apply Hl. by eapply doomed_fate.
Qed.

(** Whether an address is that of a unit. *)
#[export] Instance unit_in_dec page k u : Decision (∃ sz, unit_in page k u sz).
Proof.
  destruct k as [g|n].
  - destruct (decide (u - alloc_of page ∈ offsets g)) as [Hin|Hno]; [left|right].
    + exists (group_size g). split; [done|]. exists (u - alloc_of page). split; [done|]. rewrite /unit_at. lia.
    + intros (sz & _ & o & Ho & ->). apply Hno. by replace (unit_at page o - alloc_of page) with o by (rewrite /unit_at; lia).
  - destruct (decide (u = alloc_of page)) as [->|Hne]; [left; by eexists|right].
    intros (sz & _ & ->). done.
Defined.

#[export] Instance is_unit_dec pm u : Decision (∃ sz, is_unit pm u sz).
Proof.
  destruct (decide (Exists (λ x, ∃ sz, unit_in x.1 x.2 u sz) (map_to_list pm))) as [H|H]; [left|right].
  - destruct (proj1 (Exists_exists _ _) H) as ([page k] & Hin%elem_of_map_to_list & sz & Hu).
    exists sz. by exists page, k.
  - intros (sz & page & k & Hp & Hu). apply H, Exists_exists. exists (page, k).
    split; [by apply elem_of_map_to_list|]. by exists sz.
Defined.
