(* ===== verification/CollectSpec.v ===== *)
(** * Properties of sweeping *)

From S2P Require Import Prelude SizeClass Locks Chunk Blocks ChunkProof ChunkSpec Heap PageUnit HeapInv.
From S2P Require Import Pools PoolProof PoolSpec Api ApiProof Sweep SweepProof SweepPage Collect CollectProof.
Open Scope Z_scope.

Section sweep_properties.
Context `{Build}.

(** C4: the sweep phase of a collection is safe and complete, when it finds a page in the chain or its
    workers have no list of an earlier sweep (otherwise they sweep freed pages, [stale_sweep_list]).
    On a well-formed heap whose marking has ended it then ends without a fault and leaves a well-formed heap.  A unit
    that survives (marked in this round, still pending, made in this round, or not
    to be swept) is still a unit of the same size; its header has become unmarked and one round
    older, or is unchanged if pending.  Every other unit is no longer in use: it is
    released, or its page was given back to the chunk. *)
Theorem sweep_phase_safe x pm
    (Hctx : ctx_inv (s_ctx (g_sw x)) pm) (Hready : caches_ready (s_ctx (g_sw x)))
    (Hmarked : all_scanned (W (g_sw x)) pm) (Hworkers : (0 < length (g_workers x))%nat)
    (Hfresh : lists_fresh (W (g_sw x)) (g_workers x)) :
  wp sweep_phase (λ _ x', ∃ pm', ctx_inv (s_ctx (g_sw x')) pm' ∧ caches_ready (s_ctx (g_sw x')) ∧
    pm' ⊆ pm ∧ ∀ u sz h, is_unit pm u sz → w_units (W (g_sw x)) !! u = Some h →
      if survives (s_round (g_sw x)) h then
        is_unit pm' u sz ∧ w_units (W (g_sw x')) !! u =
          Some (if bool_decide (m_life h = PENDING) then h else kept h)
      else ¬ in_use pm' (W (g_sw x')) u) x.
Proof.
  pose proof Hctx as ((bl & Hinv) & (l & Hch & _) & _).
  eapply wp_mono; [by apply (sweep_phase_spec x pm l)|].
  intros _ x' (pm' & D). exists pm'. pose proof D as [Hc Hr Hsub _ _ _ _ _]. split_and!; try done.
  intros u sz h Hu Hh. by eapply phase_done_unit.
Qed.

(** C26: the sweep phase, when it finds a page in the chain or its workers have no list of an earlier
    sweep, calls the free callback exactly for the freed units that ask for
    it, each once and in the order of the pages, and records as memory in use the
    bytes of the surviving units with their headers, one page header for each page
    with a survivor, and whole pages for huge units. *)
Theorem sweep_phase_accounts x pm l
    (Hctx : ctx_inv (s_ctx (g_sw x)) pm) (Hready : caches_ready (s_ctx (g_sw x)))
    (Hchain : chained (heads (w_chunk (W (g_sw x)))) (w_all_page_list (W (g_sw x))) l)
    (Hmarked : all_scanned (W (g_sw x)) pm) (Hworkers : (0 < length (g_workers x))%nat)
    (Hfresh : lists_fresh (W (g_sw x)) (g_workers x)) :
  wp sweep_phase (λ _ x',
    s_freed (g_sw x') =
      callbacks (s_round (g_sw x)) (all_headers (W (g_sw x)) pm l) ++ s_freed (g_sw x) ∧
    g_memory_size_after_sweep x' = u64 (all_live (s_round (g_sw x)) (W (g_sw x)) pm l)) x.
Proof.
  eapply wp_mono; [by apply (sweep_phase_spec x pm l)|]. by intros _ x' (pm' & [_ _ _ _ _ _ ? ?]).
Qed.

(** The pages are distributed evenly: the lists of the workers, one after the other,
    are the chain; each is closed by a null link; a worker gets the rounded
    quotient of pages and workers, and the first ones one more. *)
Theorem distribute_pages_even w bl pm ws l
    (Hinv : heap_inv w bl pm) (Hch : chained (heads (w_chunk w)) (w_all_page_list w) l)
    (Hnd : NoDup l) (Hl : ∀ p, p ∈ l ↔ p ∈ dom pm) (Hws : (0 < length ws)%nat)
    (Hfresh : lists_fresh w ws) :
  let total := Z.of_nat (length l) in
  let n := Z.of_nat (length ws) in
  wp (distribute_pages ws) (λ ws' w', heap_inv w' bl pm ∧ w_all_page_list w' = 0 ∧
    w_units w' = w_units w ∧ length ws' = length ws ∧
    ∃ ls, concat ls = l ∧ given (heads (w_chunk w')) (total / n) (total mod n) 0 ws' ls) w.
Proof.
  intros total n. eapply wp_mono; [by apply (distribute_pages_spec w bl pm ws l)|].
  intros ws' w' (? & ? & _ & ? & ? & ?). by split_and!.
Qed.

End sweep_properties.

(** ** Witnesses *)

Section witnesses.
Import ChunkSpec.Demo PoolDemo.

(** The demo heap with one pending unit, in round 3, with two workers. *)
Definition x1 : Gc := MkGc (MkSw c1 3 0 []) [MkWorker 0 0; MkWorker 0 0] 0.

Lemma scanned1 pm : all_scanned (W (g_sw x1)) pm.
Proof.
  intros u sz h _ Hh.
  assert (bool_decide (map_Forall (λ _ h, m_life h ≠ SELF_MARKED) (w_units (c_world c1))) = true) as Hall
    by (vm_compute; reflexivity).
  apply bool_decide_eq_true in Hall. exact (Hall u h Hh).
Qed.

Lemma fresh1 : lists_fresh (W (g_sw x1)) (g_workers x1).
Proof. intros _ wk [->|[->|[]%not_elem_of_nil]%elem_of_cons]%elem_of_cons; reflexivity. Qed.

Lemma sweep_phase_safe_witness :
  wp sweep_phase (λ _ x', ∃ pm', ctx_inv (s_ctx (g_sw x')) pm') x1.
Proof.
  destruct ctx1 as (pm & Hc & Hr & _).
  eapply wp_mono; [exact (sweep_phase_safe x1 pm Hc Hr (scanned1 pm) (Nat.lt_0_succ 1) fresh1)|].
  intros _ x' (pm' & Hc' & _). exists pm'. exact Hc'.
Defined.

Lemma sweep_phase_accounts_witness :
  wp sweep_phase (λ _ x', ∃ pm l, w_all_page_list (c_world c1) = 65536 ∧
    g_memory_size_after_sweep x' = u64 (all_live 3 (c_world c1) pm l)) x1.
Proof.
  destruct ctx1 as (pm & Hc & Hr & _). pose proof Hc as (_ & (l & Hch & _) & _).
  eapply wp_mono; [exact (sweep_phase_accounts x1 pm l Hc Hr Hch (scanned1 pm) (Nat.lt_0_succ 1) fresh1)|].
  intros _ x' [_ Hm]. exists pm, l. split; [vm_compute; reflexivity|exact Hm].
Defined.

Lemma distribute_pages_even_witness :
  wp (distribute_pages (g_workers x1)) (λ ws w', length ws = 2%nat ∧ w_all_page_list w' = 0) (c_world c1).
Proof.
  destruct ctx1 as (pm & ((bl & Hb) & (l & Hch & Hnd & Hl) & _) & _).
  pose proof (distribute_pages_even (c_world c1) bl pm (g_workers x1) l Hb Hch Hnd Hl
    (Nat.lt_0_succ 1) fresh1) as Hw. cbv zeta in Hw.
  eapply wp_mono; [exact Hw|].
  intros ws w' (_ & Hp & _ & Hlen & _). split; [exact Hlen|exact Hp].
Defined.

(** A heap whose only page holds a huge unit that nobody marked, made in round 3; in
    round 4, with one worker. *)
#[local] Instance raw : RawMemory := {| raw_unit := λ _, MkUnitHead 7 7 7 7 FULL_MARKED |}.

Definition huge_ctx : Ctx :=
  match (p ← woomem_allocate_begin 1 40000; woomem_allocate_end p WOOMEM_ATTRIB_NEED_SWEEP)
    (MkRt c0 true 3 0 ∅ (λ _, 0)) with
  | Ok (_, r) => r_ctx r
  | Fail _ => c0
  end.

Definition x_huge : Gc := MkGc (MkSw huge_ctx 4 0 []) [MkWorker 0 0] 0.

(** A collection that finds no page in the chain leaves the workers the lists of the
    collection before.  When a collection frees the last page, the next one sweeps
    that page again and frees it a second time, which stops a build with assertions. *)
Theorem stale_sweep_list :
  wp sweep_phase (λ _ x', w_all_page_list (W (g_sw x')) = 0 ∧
    m_sweep_page_list <$> g_workers x' = [65536] ∧
    validate 65536 (w_chunk (W (g_sw x'))) = Ok (0, w_chunk (W (g_sw x'))) ∧
    sweep_phase x' = Fail AssertFailed) x_huge.
Proof. vm_compute. repeat split. Qed.

(** A heap whose only page holds one unit, made in round 3 and marked by nobody; its thread has
    ended and given the page back to the pool; in round 4, with one worker. *)
Definition left_ctx : Ctx :=
  match (on_world (allocate_end 3 (65568 + SIZEOF_UnitHead) WOOMEM_ATTRIB_NEED_SWEEP) ;;
         shutdown_manually 1) c1 with
  | Ok (_, c) => c
  | Fail _ => c1
  end.

Definition x_left : Gc := MkGc (MkSw left_ctx 4 0 []) [MkWorker 0 0] 0.

(** A page of small units that becomes empty while it is in a pool is lost.  The sweep
    that frees its last unit has the page taken out of the pool as run out; from then on every
    sweep phase leaves the heap exactly as it is, with the page allocated,
    in no pool and with no thread, and all its units released. *)
Theorem empty_page_lost :
  wp sweep_phase (λ _ x', sweep_phase x' = Ok (tt, x') ∧
    validate 65536 (w_chunk (W (g_sw x'))) = Ok (65536, w_chunk (W (g_sw x'))) ∧
    flags (W (g_sw x')) 65536 = Some (1, false) ∧
    pool (s_ctx (g_sw x')) MIDIUM_16360 = [0] ∧ cache (s_ctx (g_sw x')) 1 MIDIUM_16360 = 0 ∧
    bool_decide (map_Forall (λ _ h, m_life h = RELEASED) (w_units (W (g_sw x')))) = true) x_left.
Proof. vm_compute. repeat split. Qed.
End witnesses.
