(* ===== verification/Mark.v ===== *)
(** * Marking: [src/src/woomem_gc.cpp] (lines 155-183, 363-406, 534-599) and
      [src/src/woomem.cpp] (lines 194-226)

    How units become gray and how a worker scans them.  A worker owns a gray queue, a
    vector of local work and a flag.  The words of the payloads and the marking callback of the
    user are parameters: marking reads the ones and calls the other, and changes neither. *)

From S2P Require Import Prelude SizeClass Locks Chunk Blocks ChunkProof Heap PageUnit HeapInv.
From S2P Require Import Pools PoolProof Api ApiProof GrayQueue Sweep.
Open Scope Z_scope.

(** [GCWorker::GRAY_QUEUE_CAPACITY]. *)
Definition GRAY_QUEUE_CAPACITY : Z := 8192.

(** [m_local_work] is the vector with its back first. *)
Record MarkWorker := MkMarkWorker {
  m_gray_queue : Mpsc.Queue;
  m_local_work : list Z;
  m_is_draining : bool;
}.

Record Mk := MkMk {
  k_world : World;
  k_workers : list MarkWorker;
  k_assigned : Z;             (* [m_gc_assigned_thread_idx] *)
  k_state_flag : bool;        (* [woomem_gc_marking_state_flag] *)
}.

Abbreviation KM := (M Mk).

Definition set_kworld (w : World) (k : Mk) : Mk := MkMk w (k_workers k) (k_assigned k) (k_state_flag k).
Definition set_kworkers (ws : list MarkWorker) (k : Mk) : Mk :=
  MkMk (k_world k) ws (k_assigned k) (k_state_flag k).
Definition set_assigned (n : Z) (k : Mk) : Mk := MkMk (k_world k) (k_workers k) n (k_state_flag k).
Definition set_state_flag (b : bool) (k : Mk) : Mk := MkMk (k_world k) (k_workers k) (k_assigned k) b.

Definition set_queue (q : Mpsc.Queue) (w : MarkWorker) : MarkWorker :=
  MkMarkWorker q (m_local_work w) (m_is_draining w).
Definition set_local (l : list Z) (w : MarkWorker) : MarkWorker :=
  MkMarkWorker (m_gray_queue w) l (m_is_draining w).
Definition set_draining (b : bool) (w : MarkWorker) : MarkWorker :=
  MkMarkWorker (m_gray_queue w) (m_local_work w) b.

Definition on_kworld {A} (m : WM A) : KM A := λ k,
  match m (k_world k) with
  | Ok (a, w) => Ok (a, set_kworld w k)
  | Fail e => Fail e
  end.

(** [m_gc_worker_threads[i]]. *)
Definition get_worker (i : nat) : KM MarkWorker :=
  ws ← gets k_workers; of_option OutOfBounds (ws !! i).
Definition put_worker (i : nat) (w : MarkWorker) : KM unit :=
  ws ← gets k_workers; modify (set_kworkers (<[i := w]> ws)).

(** [m_local_work.push_back]. *)
Definition push_local (i : nat) (u : Z) : KM unit :=
  w ← get_worker i; put_worker i (set_local (u :: m_local_work w) w).

(** ** Making a unit gray *)

(** Who marks: the main thread on behalf of a root, a thread whose marking context is
    worker [i], or worker [i] itself. *)
Inductive Marker := AsRoot | ByThread (i : nat) | ByWorker (i : nat).

(** [compare_exchange_strong] from [UNMARKED] to [SELF_MARKED]. *)
Definition claim_unit (u : Z) : KM bool :=
  h ← on_kworld (load_unit u);
  if bool_decide (m_life h = UNMARKED) then
    on_kworld (store_unit u (set_life SELF_MARKED)) ;; mret true
  else mret false.

(** The loop of a thread that is not the worker: while the queue is full and the
    worker drains it, the thread waits; here nobody else runs, so it waits for ever. *)
Definition hand_over (i : nat) (u : Z) : KM unit :=
  w ← get_worker i;
  match Mpsc.try_enqueue GRAY_QUEUE_CAPACITY u (m_gray_queue w) with
  | Ok (true, q) => put_worker i (set_queue q w)
  | Ok (false, _) => if m_is_draining w then throw OutOfFuel else push_local i u
  | Fail e => throw e
  end.

Definition mark_unit_to_gray (self : bool) (i : nat) (u : Z) : KM unit :=
  b ← claim_unit u;
  if (b : bool) then if self then push_local i u else hand_over i u
  else mret tt.

Definition mark_root_unit_to_gray `{Build} (u : Z) : KM unit :=
  b ← claim_unit u;
  if (b : bool) then
    flag ← gets k_state_flag;
    assert_ flag ;;
    n ← gets k_assigned;
    modify (set_assigned (u64 (n + 1))) ;;
    ws ← gets k_workers;
    push_local (Z.to_nat (n mod Z.of_nat (length ws))) u
  else mret tt.

(** [t_thread_context.m_gc_marking_context->mark_unit_to_gray] or the root variant. *)
Definition mark_by `{Build} (m : Marker) (u : Z) : KM unit :=
  match m with
  | AsRoot => mark_root_unit_to_gray u
  | ByThread i => mark_unit_to_gray false i u
  | ByWorker i => mark_unit_to_gray true i u
  end.

(** ** The calls of the interface *)

(** [woomem_mark_unit_head] and [woomem_mark_root_unit_head]. *)
Definition woomem_mark_unit_head `{Build} (m : Marker) (p : Z) : KM unit :=
  if p =? 0 then mret tt else mark_by m (p - SIZEOF_UnitHead).

Definition woomem_mark_fuzzy_unit `{Build} (m : Marker) (p : Z) : KM unit :=
  q ← on_kworld (woomem_validate_addr p); woomem_mark_unit_head m q.

Definition woomem_mark_fuzzy_unit_head `{Build} (m : Marker) (p : Z) : KM unit :=
  q ← on_kworld (woomem_validate_addr_head p); woomem_mark_unit_head m q.

(** What the callbacks of the user do: a sequence of such calls. *)
Inductive MarkCall := ByHead (p : Z) | Fuzzy (p : Z) | FuzzyHead (p : Z).

Definition mark_call `{Build} (m : Marker) (c : MarkCall) : KM unit :=
  match c with
  | ByHead p => woomem_mark_unit_head m p
  | Fuzzy p => woomem_mark_fuzzy_unit m p
  | FuzzyHead p => woomem_mark_fuzzy_unit_head m p
  end.

Fixpoint mark_calls `{Build} (m : Marker) (cs : list MarkCall) : KM unit :=
  match cs with
  | [] => mret tt
  | c :: cs' => mark_call m c ;; mark_calls m cs'
  end.

(** ** Scanning *)

Class Payload := { word : Z → Z }.                    (* the word at an address *)
Class UserMark := { user_mark : Z → list MarkCall }.  (* [m_user_mark_callback] *)

(** The calls that automatic marking makes for a payload at [p] of [size] bytes. *)
Definition auto_mark_calls `{Payload} (p size : Z) : list MarkCall :=
  (λ i, Fuzzy (word (p + 8 * i))) <$> seqZ 0 (size / 8).

(** The body of the loop after the unit has been taken from the local work. *)
Definition scan_unit `{Build} `{Payload} `{UserMark} (i : nat) (u : Z) : KM unit :=
  h ← on_kworld (load_unit u);
  assert_ (bool_decide (m_life h = SELF_MARKED)) ;;
  (if has_attrib h WOOMEM_ATTRIB_MARK_CALLBACK
   then mark_calls (ByWorker i) (user_mark (u + SIZEOF_UnitHead)) else mret tt) ;;
  (if has_attrib h WOOMEM_ATTRIB_AUTO_MARK then
     size ← on_kworld (get_unit_available_size u);
     mark_calls (ByWorker i) (auto_mark_calls (u + SIZEOF_UnitHead) size)
   else mret tt) ;;
  on_kworld (store_unit u (set_life FULL_MARKED)).

(** The items of the queue become the back of the local work. *)
Definition drain_queue_into_local (i : nat) : KM unit :=
  w ← get_worker i;
  match Mpsc.drain GRAY_QUEUE_CAPACITY GRAY_QUEUE_CAPACITY (m_gray_queue w) with
  | Ok (items, q) => put_worker i (set_local (rev items ++ m_local_work w) (set_queue q w))
  | Fail e => throw e
  end.

(** The loop: [fuel] bounds the units that can still be scanned. *)
Fixpoint process_loop `{Build} `{Payload} `{UserMark} (fuel : nat) (i : nat) : KM unit :=
  w ← get_worker i;
  (if bool_decide (m_local_work w = []) then drain_queue_into_local i else mret tt) ;;
  w ← get_worker i;
  match m_local_work w with
  | [] => put_worker i (set_draining false w)
  | u :: rest =>
    match fuel with
    | O => throw OutOfFuel
    | S fuel' =>
      put_worker i (set_local rest w) ;;
      scan_unit i u ;;
      process_loop fuel' i
    end
  end.

Definition process_gray_units `{Build} `{Payload} `{UserMark} (i : nat) : KM unit :=
  w ← get_worker i;
  put_worker i (set_draining true w) ;;
  fuel ← gets (λ k, size (w_units (k_world k)));
  process_loop fuel i.

(** The workers of a phase, one after the other. *)
Fixpoint workers_mark `{Build} `{Payload} `{UserMark} (ids : list nat) : KM unit :=
  match ids with
  | [] => mret tt
  | i :: ids' => process_gray_units i ;; workers_mark ids'
  end.
