(* ===== verification/MarkProof.v ===== *)
(** * Marking: the tri-colour invariant

    A unit is white while it is unmarked, gray while it is [SELF_MARKED], black when it is
    [FULL_MARKED].  [marking] says that the gray units are exactly the contents of the
    workers (and the unit being scanned), that a black unit has no white target, and that only
    units of a closed set [R] are marked. *)

From S2P Require Import Prelude SizeClass Locks Chunk Blocks ChunkProof Heap PageUnit HeapInv.
From S2P Require Import Pools PoolProof Api ApiProof GrayQueue Sweep Mark.
Open Scope Z_scope.

(** ** The object graph *)

(** What a call marks.  Headers given as such are trusted by the code. *)
Definition call_target (pm : gmap Z pkind) (w : World) (c : MarkCall) (v : Z) : Prop :=
  match c with
  | ByHead p => p ≠ 0 ∧ v = p - SIZEOF_UnitHead
  | Fuzzy p => visible w v = true ∧ ∃ s, covers pm v s p
  | FuzzyHead p => Z.land p 7 = 0 ∧ visible w v = true ∧ ∃ s, covers pm v s p
  end.

(** The caller's obligation: an address passed as that of a payload is one. *)
Definition call_ok (pm : gmap Z pkind) (w : World) (c : MarkCall) : Prop :=
  match c with
  | ByHead p => p = 0 ∨ (visible w (p - SIZEOF_UnitHead) = true ∧ ∃ s, is_unit pm (p - SIZEOF_UnitHead) s)
  | _ => True
  end.

Section graph.
Context `{Payload} `{UserMark}.

(** The calls that scanning a unit makes. *)
Definition scan_calls (u : Z) (h : UnitHead) (s : Z) : list MarkCall :=
  (if has_attrib h WOOMEM_ATTRIB_MARK_CALLBACK then user_mark (u + SIZEOF_UnitHead) else []) ++
  (if has_attrib h WOOMEM_ATTRIB_AUTO_MARK then auto_mark_calls (u + SIZEOF_UnitHead) s else []).

(** An edge of the graph: the callback of the source marks the target, or the source is to be marked
    automatically and one of the whole words of its payload points into the target. *)
Definition edge (pm : gmap Z pkind) (w : World) (u v : Z) : Prop :=
  ∃ h s, w_units w !! u = Some h ∧ is_unit pm u s ∧
    ((has_attrib h WOOMEM_ATTRIB_MARK_CALLBACK = true ∧
      ∃ c, c ∈ user_mark (u + SIZEOF_UnitHead) ∧ call_target pm w c v) ∨
     (has_attrib h WOOMEM_ATTRIB_AUTO_MARK = true ∧ visible w v = true ∧
      ∃ j s', 0 ≤ j ∧ 8 * j + 8 ≤ s ∧ covers pm v s' (word (u + SIZEOF_UnitHead + 8 * j)))).

Lemma edge_scan pm w u v :
  edge pm w u v ↔ ∃ h s c, w_units w !! u = Some h ∧ is_unit pm u s ∧ c ∈ scan_calls u h s ∧ call_target pm w c v.
Proof.
  rewrite /edge /scan_calls. split.
  - intros (h & s & Hu & Hs & [(Hf & c & Hc & Hv)|(Hf & Hv & j & s' & Hj & Hj' & Hc)]).
    + exists h, s, c. rewrite Hf. split_and!; try done. by apply elem_of_app; left.
    + exists h, s, (Fuzzy (word (u + SIZEOF_UnitHead + 8 * j))). split_and!; try done; [|split; [done|by exists s']].
      apply elem_of_app. right. rewrite Hf /auto_mark_calls. apply list_elem_of_fmap. exists j. split; [done|].
      apply elem_of_seqZ. pose proof (Z.div_le_lower_bound s 8 (j + 1)). lia.
  - intros (h & s & c & Hu & Hs & [Hc|Hc]%elem_of_app & Hv); exists h, s; split_and!; try done.
    + left. destruct (has_attrib h WOOMEM_ATTRIB_MARK_CALLBACK); [|by apply elem_of_nil in Hc]. eauto.
    + right. destruct (has_attrib h WOOMEM_ATTRIB_AUTO_MARK); [|by apply elem_of_nil in Hc].
      apply list_elem_of_fmap in Hc as (j & -> & Hj%elem_of_seqZ). destruct Hv as [Hv [s' Hc]].
      split_and!; try done. exists j, s'. pose proof (Z.mul_div_le s 8). split_and!; [lia|lia|done].
Qed.

(** The marking callback of the user keeps its obligation. *)
Definition user_ok (pm : gmap Z pkind) (w : World) : Prop :=
  ∀ u s h, is_unit pm u s → w_units w !! u = Some h → visible w u = true →
    has_attrib h WOOMEM_ATTRIB_MARK_CALLBACK = true → Forall (call_ok pm w) (user_mark (u + SIZEOF_UnitHead)).
End graph.

(** ** Colours *)

Definition marked_unit (w : World) (u : Z) : Prop :=
  life_of w u = Some SELF_MARKED ∨ life_of w u = Some FULL_MARKED.

(** A header whose colour has only grown darker. *)
Definition darker (o o' : option UnitHead) : Prop :=
  match o, o' with
  | Some h, Some h' => h' = set_life (m_life h') h ∧
      (m_life h' = m_life h ∨ (m_life h = UNMARKED ∧ (m_life h' = SELF_MARKED ∨ m_life h' = FULL_MARKED)) ∨
       (m_life h = SELF_MARKED ∧ m_life h' = FULL_MARKED))
  | None, None => True
  | _, _ => False
  end.

Definition darkened (w w' : World) : Prop := ∀ u, darker (w_units w !! u) (w_units w' !! u).

Lemma darker_refl o : darker o o.
Proof. destruct o as [[]|]; simpl; [|done]. split; [done|by left]. Qed.

Lemma darker_trans o1 o2 o3 : darker o1 o2 → darker o2 o3 → darker o1 o3.
Proof.
  destruct o1 as [h1|], o2 as [h2|], o3 as [h3|]; simpl; try done.
  intros [E1 C1] [E2 C2]. split; [by rewrite E2 E1|].
  destruct C1 as [C1|[[C1 C1']|[C1 C1']]], C2 as [C2|[[C2 C2']|[C2 C2']]]; intuition congruence.
Qed.

#[export] Instance darkened_preorder : PreOrder darkened.
Proof.
  split; [intros w u; apply darker_refl|]. intros w1 w2 w3 H1 H2 u. eapply darker_trans; [apply H1|apply H2].
Qed.

Lemma darkened_visible w w' u : darkened w w' → visible w' u = visible w u.
Proof.
  intros Hd. specialize (Hd u). rewrite /visible. destruct (w_units w !! u) as [h|], (w_units w' !! u) as [h'|]; try done.
  destruct Hd as [_ [->|[[-> [->| ->]]|[-> ->]]]]; done.
Qed.

Lemma darkened_marked w w' u : darkened w w' → marked_unit w u → marked_unit w' u.
Proof.
  intros Hd. specialize (Hd u). rewrite /marked_unit /life_of.
  destruct (w_units w !! u) as [h|], (w_units w' !! u) as [h'|]; simpl; try naive_solver.
  destruct Hd as [_ [->|[[-> [->| ->]]|[-> ->]]]]; naive_solver.
Qed.

Lemma darkened_attrib w w' u h h' :
  darkened w w' → w_units w !! u = Some h → w_units w' !! u = Some h' →
  m_attribute h' = m_attribute h.
Proof. intros Hd Hh Hh'. specialize (Hd u). rewrite Hh Hh' in Hd. destruct Hd as [-> _]. done. Qed.

Lemma darkened_store w u h l :
  w_units w !! u = Some h →
  (m_life h = UNMARKED ∧ l = SELF_MARKED) ∨ (m_life h = SELF_MARKED ∧ l = FULL_MARKED) →
  darkened w (upd_units (<[u := set_life l h]>) w).
Proof.
  intros Hh Hl v. simpl. destruct (decide (v = u)) as [->|Hne].
  - rewrite Hh lookup_insert_eq /=. split; [done|]. destruct Hl as [[-> ->]|[-> ->]]; auto.
  - rewrite lookup_insert_ne //. apply darker_refl.
Qed.

Lemma life_store w u h v :
  life_of (upd_units (<[u := h]>) w) v = if decide (v = u) then Some (m_life h) else life_of w v.
Proof.
  rewrite /life_of /=. case_decide as E; [by rewrite E lookup_insert_eq|by rewrite lookup_insert_ne].
Qed.

(** ** Counting units *)

Definition count_life (P : UnitLife → bool) (w : World) : nat :=
  size (filter (λ x : Z * UnitHead, P (m_life x.2) = true) (w_units w)).

Lemma count_life_store P w u h l :
  w_units w !! u = Some h →
  (count_life P (upd_units (<[u := set_life l h]>) w) + Nat.b2n (P (m_life h)) =
   count_life P w + Nat.b2n (P l))%nat.
Proof.
  intros Hh. rewrite /count_life /=. set (f := λ x : Z * UnitHead, P (m_life x.2) = true).
  assert (∀ m : gmap Z UnitHead, m !! u = None → ∀ h0, size (filter f (<[u := h0]> m)) =
    (size (filter f m) + Nat.b2n (P (m_life h0)))%nat) as Hins.
  { intros m Hn h0. destruct (P (m_life h0)) eqn:E; simpl.
    - rewrite map_filter_insert_True // map_size_insert_None; [lia|]. by apply map_lookup_filter_None_2; left.
    - rewrite map_filter_insert_False; [|by rewrite /f /= E]. rewrite delete_id //; lia. }
  rewrite -{2}(insert_delete_id _ _ _ Hh) -insert_delete_eq.
  rewrite !Hins; [simpl; lia|apply lookup_delete_eq|apply lookup_delete_eq].
Qed.

Lemma count_life_le P w : (count_life P w ≤ size (w_units w))%nat.
Proof. apply map_size_filter. Qed.

Definition is_white (l : UnitLife) : bool := bool_decide (l = UNMARKED).
Definition not_black (l : UnitLife) : bool := bool_decide (l = UNMARKED ∨ l = SELF_MARKED).

(** A colour that, looking back, was there before. *)
Lemma count_darkened_by P w w' :
  (∀ h h', darker (Some h) (Some h') → P (m_life h') = true → P (m_life h) = true) →
  darkened w w' → (count_life P w' ≤ count_life P w)%nat.
Proof.
  intros HP Hd. rewrite /count_life -!(size_dom (D := gset Z)). apply subseteq_size. intros u.
  rewrite !elem_of_dom. intros [h' [Hh' Hn]%map_lookup_filter_Some]. specialize (Hd u). rewrite Hh' in Hd.
  destruct (w_units w !! u) as [h|] eqn:E; [|done]. exists h. apply map_lookup_filter_Some. split; [done|].
  by eapply HP.
Qed.

Lemma count_darkened w w' : darkened w w' → (count_life not_black w' ≤ count_life not_black w)%nat.
Proof.
  apply count_darkened_by. intros h h' [_ Hd]. rewrite /not_black !bool_decide_eq_true. intuition congruence.
Qed.

Lemma count_white_darkened w w' : darkened w w' → (count_life is_white w' ≤ count_life is_white w)%nat.
Proof.
  apply count_darkened_by. intros h h' [_ Hd]. rewrite /is_white !bool_decide_eq_true. intuition congruence.
Qed.

(** ** The invariant *)

Abbreviation CAP := GRAY_QUEUE_CAPACITY.

Lemma cap_ok : ∃ n, 1 ≤ n ≤ 62 ∧ CAP = 2 ^ n.
Proof. by exists 13. Qed.

(** The units that a worker holds, and that its queue has positions left for [n] more. *)
Definition work_holds (n : nat) (wk : MarkWorker) (g : list Z) : Prop :=
  ∃ ql, g ≡ₚ m_local_work wk ++ ql ∧ Mpsc.holds CAP (m_gray_queue wk) ql ∧
    Mpsc.m_enqueue_pos (m_gray_queue wk) + Z.of_nat n + 1 + CAP < 2 ^ 64.

Lemma work_holds_le n n' wk g : (n' ≤ n)%nat → work_holds n wk g → work_holds n' wk g.
Proof. intros Hn (ql & ? & ? & ?). exists ql. split_and!; try done. lia. Qed.

Lemma concat_insert (gs : list (list Z)) i g u :
  gs !! i = Some g → concat (<[i := u :: g]> gs) ≡ₚ u :: concat gs.
Proof.
  revert i. induction gs as [|g0 gs IH]; intros [|i] Hg; simplify_eq/=; [done|].
  rewrite IH //. by rewrite Permutation_middle.
Qed.

Lemma concat_remove (gs : list (list Z)) i g u rest :
  gs !! i = Some g → g ≡ₚ u :: rest → concat gs ≡ₚ u :: concat (<[i := rest]> gs).
Proof.
  revert i. induction gs as [|g0 gs IH]; intros [|i] Hg Hp; simplify_eq/=; [by rewrite Hp|].
  rewrite (IH i) //. by rewrite Permutation_middle.
Qed.

Section marking.
Context `{Payload} `{UserMark}.

Record marking (w0 : World) (bl : list block) (pm : gmap Z pkind) (R : Z → Prop)
    (sc : list Z) (gs : list (list Z)) (k : Mk) : Prop := {
  mk_chunk : w_chunk (k_world k) = w_chunk w0;
  mk_allocs : w_allocs (k_world k) = w_allocs w0;
  mk_list : w_all_page_list (k_world k) = w_all_page_list w0;
  mk_heap : heap_inv (k_world k) bl pm;
  mk_dark : darkened w0 (k_world k);
  mk_work : Forall2 (work_holds (count_life is_white (k_world k))) (k_workers k) gs;
  mk_gray : ∀ u, life_of (k_world k) u = Some SELF_MARKED ↔ u ∈ sc ++ concat gs;
  mk_nodup : NoDup (sc ++ concat gs);
  mk_black : ∀ u v, life_of (k_world k) u = Some FULL_MARKED → edge pm w0 u v →
    marked_unit (k_world k) v;
  mk_reach : ∀ u, marked_unit (k_world k) u → R u ∧ ∃ s, is_unit pm u s;
}.

(** What a step leaves as it was. *)
Definition kept_flags (k k' : Mk) : Prop :=
  m_is_draining <$> k_workers k' = m_is_draining <$> k_workers k ∧ k_state_flag k' = k_state_flag k.

Definition grown (m : Marker) (gs gs' : list (list Z)) : Prop :=
  match m with ByWorker i => ∀ j, j ≠ i → gs' !! j = gs !! j | _ => True end.

(** The worker's own state changes but holds the same units. *)
Lemma marking_worker {w0 bl pm R} sc gs k i g wk g' gs' sc' :
  marking w0 bl pm R sc gs k → gs !! i = Some g → gs' = <[i := g']> gs →
  sc ++ concat gs ≡ₚ sc' ++ concat gs' →
  work_holds (count_life is_white (k_world k)) wk g' →
  marking w0 bl pm R sc' gs' (set_kworkers (<[i := wk]> (k_workers k)) k).
Proof using.
  intros [Hc Ha Hl Hh Hd Hw Hg Hnd Hb Hr] Hi -> Hp Hwk. split; simpl; try done.
  - by apply Forall2_insert.
  - intros u. by rewrite -Hp.
  - by rewrite -Hp.
Qed.

(** The invariant looks at the world and the workers. *)
Lemma marking_ext w0 bl pm R sc gs k k' :
  k_world k' = k_world k → k_workers k' = k_workers k → marking w0 bl pm R sc gs k → marking w0 bl pm R sc gs k'.
Proof using. intros Hw Hk [Hc Ha Hl Hh Hd Hwk Hg Hnd Hb Hr]. by split; rewrite ?Hw ?Hk. Qed.

(** A unit that has been claimed and not yet delivered. *)
Lemma marking_claim w0 bl pm R sc gs k u s h :
  marking w0 bl pm R sc gs k → w_units (k_world k) !! u = Some h → m_life h = UNMARKED →
  R u → is_unit pm u s →
  marking w0 bl pm R (u :: sc) gs (set_kworld (upd_units (<[u := set_life SELF_MARKED h]>) (k_world k)) k).
Proof using.
  intros [Hc Ha Hl Hh Hd Hw Hg Hnd Hb Hr] Hu Hlu HR Hunit.
  assert (life_of (k_world k) u = Some UNMARKED) as Hlife by (by rewrite /life_of Hu /= Hlu).
  set (w' := upd_units (<[u := set_life SELF_MARKED h]>) (k_world k)).
  assert (darkened (k_world k) w') as Hdk by (apply darkened_store; auto).
  split; simpl; try done.
  - eapply heap_header; [done|exact Hunit|exact Hu|by rewrite Hlu|done|done].
  - by etrans.
  - eapply Forall2_impl; [exact Hw|]. intros wk' g' Hwk'. eapply work_holds_le; [|exact Hwk'].
    by apply count_white_darkened.
  - intros v. rewrite life_store elem_of_cons. destruct (decide (v = u)) as [->|Hne]; [split; [by left|done]|].
    rewrite Hg. split; [by right|by intros [?|?]].
  - constructor; [|done]. intros Hin%Hg. congruence.
  - intros v v' Hv Hedge. rewrite life_store in Hv. case_decide; [done|].
    eapply darkened_marked; [exact Hdk|by eapply Hb].
  - intros v. rewrite /marked_unit !life_store. case_decide as E; [subst; intros _; eauto|apply Hr].
Qed.

Lemma marking_add w0 bl pm R sc gs k u s h i g wk k' n :
  marking w0 bl pm R sc gs k → w_units (k_world k) !! u = Some h → m_life h = UNMARKED →
  R u → is_unit pm u s → gs !! i = Some g →
  k_world k' = upd_units (<[u := set_life SELF_MARKED h]>) (k_world k) →
  k_workers k' = <[i := wk]> (k_workers k) →
  count_life is_white (k_world k) = S n → work_holds n wk (u :: g) →
  marking w0 bl pm R sc (<[i := u :: g]> gs) k'.
Proof using.
  intros Hinv Hu Hlu HR Hunit Hi Hw' Hks Hn Hwk.
  pose proof (count_life_store is_white _ u h SELF_MARKED Hu) as Hcnt. rewrite Hlu Hn /= in Hcnt.
  eapply marking_ext; [| |eapply (marking_worker (u :: sc) gs _ i g wk (u :: g));
    [by eapply (marking_claim _ _ _ _ sc gs k u s h)|done|done| |]]; [done|done| |].
  - by rewrite (concat_insert gs i g u Hi) -Permutation_middle.
  - simpl. by replace (count_life is_white _) with n by lia.
Qed.

(** Delivery of a claimed unit. *)
Definition marker_ok (m : Marker) (k : Mk) : Prop :=
  match m with
  | AsRoot => k_state_flag k = true ∧ k_workers k ≠ []
  | ByThread i => ∃ wk, k_workers k !! i = Some wk ∧ m_is_draining wk = false
  | ByWorker i => is_Some (k_workers k !! i)
  end.

Lemma wp_on_kworld {A} (m : WM A) (Q : A → Mk → Prop) k :
  wp m (λ a w, Q a (set_kworld w k)) (k_world k) → wp (on_kworld m) Q k.
Proof using. rewrite /wp /on_kworld. by destruct (m (k_world k)) as [[a w]|]. Qed.

Lemma wp_get_worker i wk (Q : MarkWorker → Mk → Prop) k :
  k_workers k !! i = Some wk → Q wk k → wp (get_worker i) Q k.
Proof using. intros Hi HQ. rewrite /get_worker. wp_steps. by eapply wp_of_option. Qed.

Lemma wp_push_local i u wk (Q : unit → Mk → Prop) k :
  k_workers k !! i = Some wk →
  Q tt (set_kworkers (<[i := set_local (u :: m_local_work wk) wk]> (k_workers k)) k) →
  wp (push_local i u) Q k.
Proof using.
  intros Hi HQ. rewrite /push_local. wp_steps. eapply wp_get_worker; [done|]. rewrite /put_worker. by wp_steps.
Qed.

Lemma work_holds_push n wk g u :
  work_holds (S n) wk g → work_holds n (set_local (u :: m_local_work wk) wk) (u :: g).
Proof using.
  intros (ql & Hp & Hq & Hb). exists ql. split_and!; [by rewrite /= Hp|done|simpl; lia].
Qed.

Lemma kept_flags_insert k k' i wk wk' :
  k_workers k !! i = Some wk → k_workers k' = <[i := wk']> (k_workers k) →
  m_is_draining wk' = m_is_draining wk → k_state_flag k' = k_state_flag k → kept_flags k k'.
Proof using.
  intros Hi Hk Hd Hf. split; [|done]. rewrite Hk list_fmap_insert Hd. apply list_insert_id.
  by rewrite list_lookup_fmap Hi.
Qed.

Lemma claim_unit_spec u h (Q : bool → Mk → Prop) k :
  w_units (k_world k) !! u = Some h →
  (if is_white (m_life h)
   then Q true (set_kworld (upd_units (<[u := set_life SELF_MARKED h]>) (k_world k)) k) else Q false k) →
  wp (claim_unit u) Q k.
Proof using.
  intros Hu HQ. rewrite /claim_unit. wp_steps. apply wp_on_kworld. eapply wp_load_unit; [exact Hu|].
  assert (set_kworld (k_world k) k = k) as -> by (by destruct k).
  rewrite /is_white in HQ. destruct (bool_decide (m_life h = UNMARKED)); wp_steps; [|done].
  apply wp_on_kworld. eapply wp_store_unit; [exact Hu|]. by wp_steps.
Qed.

(** The result of marking one unit. *)
Definition mark_post (w0 : World) (bl : list block) (pm : gmap Z pkind) (R : Z → Prop) (sc : list Z)
    (m : Marker) (gs : list (list Z)) (k : Mk) (T : Z → Prop) (k' : Mk) : Prop :=
  ∃ gs', marking w0 bl pm R sc gs' k' ∧ grown m gs gs' ∧ length gs' = length gs ∧
    kept_flags k k' ∧ darkened (k_world k) (k_world k') ∧
    ∀ v, T v → marked_unit (k_world k') v.

Section one_unit.
Context `{Build}.
Context (w0 : World) (bl : list block) (pm : gmap Z pkind) (R : Z → Prop).

(** A claimed unit that ends up with worker [i]. *)
Lemma mark_post_add m sc gs k u s h i g wk wk' k' :
  marking w0 bl pm R sc gs k → w_units (k_world k) !! u = Some h → m_life h = UNMARKED →
  R u → is_unit pm u s → gs !! i = Some g → k_workers k !! i = Some wk →
  match m with ByWorker j => j = i | _ => True end →
  k_world k' = upd_units (<[u := set_life SELF_MARKED h]>) (k_world k) →
  k_workers k' = <[i := wk']> (k_workers k) → m_is_draining wk' = m_is_draining wk →
  k_state_flag k' = k_state_flag k →
  (∀ n, work_holds (S n) wk g → work_holds n wk' (u :: g)) →
  mark_post w0 bl pm R sc m gs k (eq u) k'.
Proof using.
  intros Hinv Hu Hlu HR Hunit Hg Hwk Hm Hw' Hks Hdr Hfl Hpush.
  pose proof (count_life_store is_white _ u h SELF_MARKED Hu) as Hcnt. rewrite Hlu /= in Hcnt.
  destruct (count_life is_white (k_world k)) as [|n] eqn:Hn; [lia|].
  exists (<[i := u :: g]> gs). split_and!.
  - eapply marking_add; try done. apply Hpush. rewrite -Hn.
    by eapply (Forall2_lookup_lr _ _ _ _ _ _ (mk_work _ _ _ _ _ _ _ Hinv)).
  - destruct m; try done. intros j Hj. subst. by rewrite list_lookup_insert_ne.
  - by rewrite length_insert.
  - by eapply kept_flags_insert.
  - rewrite Hw'. apply darkened_store; auto.
  - intros v <-. left. by rewrite Hw' life_store decide_True.
Qed.

Lemma mark_post_same m sc gs k (T : Z → Prop) :
  marking w0 bl pm R sc gs k → (∀ v, T v → marked_unit (k_world k) v) →
  mark_post w0 bl pm R sc m gs k T k.
Proof using. intros Hinv HT. exists gs. split_and!; try done. by destruct m. Qed.

Lemma mark_by_spec m sc gs k u s :
  marking w0 bl pm R sc gs k → R u → is_unit pm u s → visible w0 u = true → marker_ok m k →
  wp (mark_by m u) (λ _ k', mark_post w0 bl pm R sc m gs k (eq u) k') k.
Proof using.
  intros Hinv HR Hunit Hvis Hm.
  rewrite -(darkened_visible _ _ _ (mk_dark _ _ _ _ _ _ _ Hinv)) /visible in Hvis.
  destruct (w_units (k_world k) !! u) as [h|] eqn:Hu; [|done].
  assert (is_white (m_life h) = false → mark_post w0 bl pm R sc m gs k (eq u) k) as Hblack.
  { intros Hwh. apply mark_post_same; [done|]. intros v <-. rewrite /marked_unit /life_of Hu /=.
    destruct (m_life h); auto; done. }
  pose proof (Forall2_length _ _ _ (mk_work _ _ _ _ _ _ _ Hinv)) as Hlen.
  assert (∀ i wk, k_workers k !! i = Some wk → ∃ g, gs !! i = Some g) as Hgs.
  { intros i wk Hi%lookup_lt_Some. apply lookup_lt_is_Some. lia. }
  destruct m as [|i|i]; cbn [mark_by]; rewrite /mark_root_unit_to_gray /mark_unit_to_gray; wp_steps;
    (eapply claim_unit_spec; [exact Hu|]); (destruct (is_white (m_life h)) eqn:Hwh; [|by wp_steps; apply Hblack]);
    apply bool_decide_eq_true in Hwh.
  - destruct Hm as [Hfl Hne]. wp_steps. apply wp_assert; [done|]. wp_steps. simpl.
    set (i := Z.to_nat (k_assigned k mod Z.of_nat (length (k_workers k)))).
    assert (0 < length (k_workers k))%nat by (destruct (k_workers k); [done|simpl; lia]).
    destruct (lookup_lt_is_Some_2 (k_workers k) i) as [wk Hi].
    { pose proof (Z.mod_pos_bound (k_assigned k) (Z.of_nat (length (k_workers k)))). lia. }
    destruct (Hgs i wk Hi) as [g Hg].
    eapply wp_push_local; [exact Hi|]. eapply mark_post_add; try done. intros n. apply work_holds_push.
  - destruct Hm as (wk & Hi & Hdr). destruct (Hgs i wk Hi) as [g Hg].
    rewrite /hand_over. wp_steps. eapply wp_get_worker; [exact Hi|].
    pose proof (Forall2_lookup_lr _ _ _ _ _ _ (mk_work _ _ _ _ _ _ _ Hinv) Hi Hg) as (ql & Hql & Hq & Hb).
    destruct (wp_run _ _ _ (Mpsc.try_enqueue_spec CAP cap_ok u _ ql Hq ltac:(lia)))
      as (b & q' & Hrun & Hb' & Hpos & Hq'). rewrite Hrun. destruct b.
    + rewrite /put_worker. wp_steps. eapply (mark_post_add _ _ _ _ u s h i g wk (set_queue q' wk)); try done.
      intros n (ql' & Hp' & Hq1 & Hb1). exists (ql ++ [u]). split_and!; [|done|].
      * rewrite Hql /=. by rewrite app_assoc -Permutation_cons_append.
      * simpl in *. lia.
    + rewrite Hdr. eapply wp_push_local; [exact Hi|]. eapply mark_post_add; try done. intros n. apply work_holds_push.
  - destruct Hm as [wk Hi]. destruct (Hgs i wk Hi) as [g Hg].
    eapply wp_push_local; [exact Hi|]. eapply mark_post_add; try done. intros n. apply work_holds_push.
Qed.

Lemma kept_flags_marker m k k' : kept_flags k k' → marker_ok m k → marker_ok m k'.
Proof using.
  intros [Hd Hf]. assert (length (k_workers k') = length (k_workers k)) as Hl.
  { by rewrite -(length_fmap m_is_draining (k_workers k')) Hd length_fmap. }
  destruct m as [|i|i]; simpl.
  - intros [? Hne]. split; [congruence|]. intros E. rewrite E /= in Hl. by destruct (k_workers k).
  - intros (wk & Hi & Hdr). assert ((m_is_draining <$> k_workers k') !! i = Some false) as Hi'
      by (by rewrite Hd list_lookup_fmap Hi /= Hdr).
    rewrite list_lookup_fmap in Hi'. destruct (k_workers k' !! i) as [wk'|]; [|done].
    exists wk'. split; [done|]. by injection Hi'.
  - intros [wk Hi%lookup_lt_Some]. apply lookup_lt_is_Some. lia.
Qed.

Lemma mark_post_trans m sc gs k T1 T2 (f : KM unit) k1 :
  mark_post w0 bl pm R sc m gs k T1 k1 →
  (∀ gs1, marking w0 bl pm R sc gs1 k1 →
    wp f (λ _ k', mark_post w0 bl pm R sc m gs1 k1 T2 k') k1) →
  wp f (λ _ k', mark_post w0 bl pm R sc m gs k (λ v, T1 v ∨ T2 v) k') k1.
Proof using.
  intros (gs1 & Hinv1 & Hg1 & Hl1 & [Hd1 Hf1] & Hdk1 & HT1) Hf.
  eapply wp_mono; [by apply Hf|]. intros _ k' (gs2 & Hinv2 & Hg2 & Hl2 & [Hd2 Hf2] & Hdk2 & HT2).
  exists gs2. split_and!; [done| |congruence|split; congruence|by etrans|].
  - destruct m; try done. intros j Hj. by rewrite Hg2 // Hg1.
  - intros v [Hv|Hv]; [|by apply HT2]. eapply darkened_marked; [done|by apply HT1].
Qed.

Lemma mark_post_impl m sc gs k (T T' : Z → Prop) k' :
  (∀ v, T' v → T v) → mark_post w0 bl pm R sc m gs k T k' → mark_post w0 bl pm R sc m gs k T' k'.
Proof using. intros HT (gs' & ? & ? & ? & ? & ? & Hm). exists gs'. split_and!; auto. Qed.

(** Marking the unit that an address validates to. *)
Lemma mark_valid m sc gs k p r :
  marking w0 bl pm R sc gs k → validated pm (k_world k) p r → marker_ok m k →
  (∀ v s, visible w0 v = true → covers pm v s p → R v) →
  wp (woomem_mark_unit_head m r) (λ _ k', mark_post w0 bl pm R sc m gs k
    (λ v, visible w0 v = true ∧ ∃ s, covers pm v s p) k') k.
Proof using.
  intros Hinv Hval Hm HR. pose proof (mk_heap _ _ _ _ _ _ _ Hinv) as Hheap.
  assert (∀ u, visible (k_world k) u = visible w0 u) as Hvis
    by (intros u; by apply darkened_visible, (mk_dark _ _ _ _ _ _ _ Hinv)).
  rewrite /woomem_mark_unit_head. destruct Hval as [(u & s & Hcov & ->)|[Hnone ->]].
  - rewrite Hvis. destruct (visible w0 u) eqn:Hv.
    + pose proof Hcov as (page & kd & Hp & Hu & _).
      assert (is_unit pm u s) as Hunit by (by exists page, kd).
      pose proof (unit_positive _ _ _ _ _ Hheap Hunit). unfold SIZEOF_UnitHead in *.
      bool_test (u + 8 =? 0). rewrite Z.add_simpl_r.
      eapply wp_mono; [apply (mark_by_spec m sc gs k u s); eauto|].
      intros [] k'. apply mark_post_impl. intros v (_ & s' & Hc').
      by rewrite (covers_unique _ _ _ _ _ _ _ _ Hheap Hcov Hc').
    + rewrite Z.eqb_refl. wp_steps. apply mark_post_same; [done|]. intros v (Hv' & s' & Hc').
      rewrite (covers_unique _ _ _ _ _ _ _ _ Hheap Hcov Hc') in Hv. congruence.
  - rewrite Z.eqb_refl. wp_steps. apply mark_post_same; [done|]. intros v (_ & s' & Hc'). by destruct (Hnone v s').
Qed.

Lemma mark_call_spec m sc gs k c :
  marking w0 bl pm R sc gs k → call_ok pm w0 c → marker_ok m k →
  (∀ v, call_target pm w0 c v → R v) →
  wp (mark_call m c) (λ _ k', mark_post w0 bl pm R sc m gs k (call_target pm w0 c) k') k.
Proof using.
  intros Hinv Hok Hm HR. pose proof (mk_heap _ _ _ _ _ _ _ Hinv) as Hheap.
  assert (set_kworld (k_world k) k = k) as Hk by (by destruct k).
  destruct c as [p|p|p]; simpl in *.
  - rewrite /woomem_mark_unit_head. destruct (p =? 0) eqn:E.
    + wp_steps. apply mark_post_same; [done|]. intros v [? _]. lia.
    + destruct Hok as [?|[Hv [s Hs]]]; [lia|].
      eapply wp_mono; [eapply (mark_by_spec m sc gs k (p - SIZEOF_UnitHead) s); try done|].
      { apply HR. split; [lia|done]. }
      intros [] k'. apply mark_post_impl. by intros v [_ ->].
  - rewrite /woomem_mark_fuzzy_unit. wp_steps. apply wp_on_kworld.
    eapply wp_mono; [by apply (validate_addr_spec _ bl pm)|]. intros r w' [-> Hval]. rewrite Hk.
    apply (mark_valid m sc gs k p r); try done. intros v s Hv Hc. apply HR. eauto.
  - rewrite /woomem_mark_fuzzy_unit_head. wp_steps. apply wp_on_kworld. rewrite /woomem_validate_addr_head.
    destruct (Z.land p 7 =? 0) eqn:E.
    + eapply wp_mono; [by apply (validate_addr_spec _ bl pm)|]. intros r w' [-> Hval]. rewrite Hk.
      eapply wp_mono; [apply (mark_valid m sc gs k p r); try done|].
      { intros v s Hv Hc. apply HR. split; [lia|eauto]. }
      intros [] k'. apply mark_post_impl. by intros v [_ ?].
    + wp_steps. rewrite Hk /woomem_mark_unit_head Z.eqb_refl. wp_steps.
      apply mark_post_same; [done|]. intros v [? _]. lia.
Qed.

Lemma mark_calls_spec m sc cs : ∀ gs k,
  marking w0 bl pm R sc gs k → Forall (call_ok pm w0) cs → marker_ok m k →
  (∀ c v, c ∈ cs → call_target pm w0 c v → R v) →
  wp (mark_calls m cs) (λ _ k', mark_post w0 bl pm R sc m gs k
    (λ v, ∃ c, c ∈ cs ∧ call_target pm w0 c v) k') k.
Proof using.
  induction cs as [|c cs IH]; intros gs k Hinv Hok Hm HR; cbn [mark_calls]; wp_steps.
  { apply mark_post_same; [done|]. by intros v (c & ?%elem_of_nil & _). }
  apply Forall_cons in Hok as [Hok Hoks].
  eapply wp_mono; [apply (mark_call_spec m sc gs k c); try done; intros v; apply HR; constructor|].
  intros [] k1 Hpost. pose proof Hpost as (_ & _ & _ & _ & Hkf & _).
  eapply wp_mono; [eapply mark_post_trans; [exact Hpost|]|].
  - intros gs1 Hinv1. apply IH; [done|done|by eapply kept_flags_marker|].
    intros c' v Hc'. apply HR. by constructor.
  - intros [] k'. apply mark_post_impl. intros v (c' & [->|Hc']%elem_of_cons & Hv); eauto.
Qed.

Lemma life_lookup (w : World) u h l : w_units w !! u = Some h → m_life h = l → life_of w u = Some l.
Proof using. intros Hu <-. by rewrite /life_of Hu. Qed.

(** The size of a marked unit. *)
Lemma marked_size sc gs k u s s' :
  marking w0 bl pm R sc gs k → marked_unit (k_world k) u → is_unit pm u s → is_unit pm u s' → s = s'.
Proof using All.
  intros Hinv Hm Hs Hs'. rewrite /marked_unit /life_of in Hm.
  destruct (w_units (k_world k) !! u) as [h|] eqn:Hu; [|by destruct Hm].
  pose proof (available_size_spec _ _ _ _ _ _ (mk_heap _ _ _ _ _ _ _ Hinv) Hs Hu) as E1.
  pose proof (available_size_spec _ _ _ _ _ _ (mk_heap _ _ _ _ _ _ _ Hinv) Hs' Hu) as E2.
  assert (m_life h ≠ RELEASED) as Hl by (by destruct Hm as [[= ->]|[= ->]]).
  rewrite E1 // in E2. by injection (E2 Hl).
Qed.

(** *** A scanned unit becomes black *)

Lemma marking_black u h sc gs k :
  marking w0 bl pm R (u :: sc) gs k → w_units (k_world k) !! u = Some h →
  (∀ v, edge pm w0 u v → marked_unit (k_world k) v) →
  marking w0 bl pm R sc gs (set_kworld (upd_units (<[u := set_life FULL_MARKED h]>) (k_world k)) k).
Proof using.
  intros [Hc Ha Hl Hh Hd Hw Hg Hnd Hb Hr] Hu He.
  assert (life_of (k_world k) u = Some SELF_MARKED) as Hlife by (apply Hg; constructor).
  assert (m_life h = SELF_MARKED) as Hlu by (rewrite /life_of Hu /= in Hlife; by injection Hlife).
  destruct (Hr u) as [HR [s Hunit]]; [by left|].
  pose proof (count_life_store is_white _ u h FULL_MARKED Hu) as Hcnt. rewrite Hlu /= in Hcnt.
  assert (darkened (k_world k) (upd_units (<[u := set_life FULL_MARKED h]>) (k_world k))) as Hdk
    by (apply darkened_store; auto).
  simpl in Hnd. apply NoDup_cons in Hnd as [Hnin Hnd]. split; simpl; try done.
  - eapply heap_header; [done|exact Hunit|exact Hu|by rewrite Hlu|done|done].
  - by etrans.
  - by replace (count_life is_white _) with (count_life is_white (k_world k)) by lia.
  - intros v. rewrite life_store. destruct (decide (v = u)) as [->|Hne]; [by split|].
    rewrite Hg. simpl. rewrite elem_of_cons. split; [by intros [?|?]|by right].
  - intros v v' Hv Hedge. eapply darkened_marked; [exact Hdk|]. rewrite life_store in Hv.
    destruct (decide (v = u)) as [->|Hne]; [by apply He|by eapply Hb].
  - intros v. rewrite /marked_unit !life_store. case_decide as E; [subst; intros _; eauto|apply Hr].
Qed.

Context (Hclosed : ∀ u v, R u → edge pm w0 u v → R v) (Huser : user_ok pm w0).

Lemma scan_calls_attrib u h h' s : m_attribute h' = m_attribute h → scan_calls u h' s = scan_calls u h s.
Proof using. intros Ha. by rewrite /scan_calls /has_attrib Ha. Qed.

(** The calls of a scan, in the two steps of the code. *)
Lemma scan_run i u h s gs k (Q : unit → Mk → Prop) :
  marking w0 bl pm R [u] gs k → marker_ok (ByWorker i) k →
  w_units (k_world k) !! u = Some h → is_unit pm u s → m_life h = SELF_MARKED →
  (∀ k', mark_post w0 bl pm R [u] (ByWorker i) gs k
     (λ v, ∃ c, c ∈ scan_calls u h s ∧ call_target pm w0 c v) k' →
     wp (on_kworld (store_unit u (set_life FULL_MARKED))) Q k') →
  wp (scan_unit i u) Q k.
Proof using Hclosed Huser.
  intros Hinv Hm Hu Hunit Hl HQ. pose proof (mk_dark _ _ _ _ _ _ _ Hinv) as Hdk.
  destruct (w_units w0 !! u) as [h0|] eqn:Hu0; [|by pose proof (Hdk u) as Hdu; rewrite Hu0 Hu in Hdu].
  pose proof (darkened_attrib _ _ _ _ _ Hdk Hu0 Hu) as Hattr.
  assert (visible w0 u = true) as Hvis.
  { rewrite -(darkened_visible _ _ _ Hdk) /visible Hu Hl. done. }
  assert (R u) as HR by (apply (mk_reach _ _ _ _ _ _ _ Hinv); left; by rewrite /life_of Hu /= Hl).
  assert (∀ c v, c ∈ scan_calls u h s → call_target pm w0 c v → R v) as HRc.
  { intros c v Hin Hc. apply (Hclosed u); [done|]. apply edge_scan. exists h0, s, c. split_and!; try done.
    by rewrite -(scan_calls_attrib _ _ _ _ Hattr). }
  rewrite /scan_unit. wp_steps. apply wp_on_kworld. eapply wp_load_unit; [exact Hu|].
  assert (set_kworld (k_world k) k = k) as -> by (by destruct k). wp_steps.
  apply wp_assert; [by rewrite bool_decide_eq_true_2|]. wp_steps.
  set (T1 := λ v, ∃ c, c ∈ (if has_attrib h WOOMEM_ATTRIB_MARK_CALLBACK
    then user_mark (u + SIZEOF_UnitHead) else []) ∧ call_target pm w0 c v).
  eapply (wp_mono _ (λ _ k', mark_post w0 bl pm R [u] (ByWorker i) gs k T1 k')).
  { destruct (has_attrib h WOOMEM_ATTRIB_MARK_CALLBACK) eqn:E.
    - apply mark_calls_spec; try done.
      + apply (Huser u s h0); try done. by rewrite /has_attrib -Hattr.
      + intros c v Hin. apply HRc. rewrite /scan_calls E. by apply elem_of_app; left.
    - wp_steps. apply mark_post_same; [done|]. by intros v (c & ?%elem_of_nil & _). }
  intros [] k1 Hpost. wp_steps. pose proof Hpost as (_ & _ & _ & _ & Hkf & Hdk1 & _).
  eapply wp_mono; [eapply (mark_post_trans _ _ _ _ _ (λ v, ∃ c, c ∈ (if has_attrib h WOOMEM_ATTRIB_AUTO_MARK
    then auto_mark_calls (u + SIZEOF_UnitHead) s else []) ∧ call_target pm w0 c v)); [exact Hpost|]|].
  - intros gs1 Hinv1. destruct (has_attrib h WOOMEM_ATTRIB_AUTO_MARK) eqn:E.
    + assert (life_of (k_world k1) u = Some SELF_MARKED) as Hl1
        by (apply (mk_gray _ _ _ _ _ _ _ Hinv1); set_solver).
      rewrite /life_of in Hl1. destruct (w_units (k_world k1) !! u) as [h1|] eqn:Hu1; [|done].
      injection Hl1 as Hl1.
      wp_steps. apply wp_on_kworld. rewrite {1}/wp.
      rewrite (available_size_spec _ _ _ _ _ _ (mk_heap _ _ _ _ _ _ _ Hinv1) Hunit Hu1); [|by rewrite Hl1].
      assert (set_kworld (k_world k1) k1 = k1) as -> by (by destruct k1).
      apply mark_calls_spec; [done| |by eapply kept_flags_marker|].
      * apply Forall_forall. intros c (j & -> & _)%list_elem_of_fmap. done.
      * intros c v Hin. apply HRc. rewrite /scan_calls E. by apply elem_of_app; right.
    + wp_steps. apply mark_post_same; [done|]. by intros v (c & ?%elem_of_nil & _).
  - intros [] k2 Hp2. apply HQ. revert Hp2. apply mark_post_impl.
    intros v (c & [Hc|Hc]%elem_of_app & Hv); [left|right]; by exists c.
Qed.

Lemma scan_unit_spec i u gs k :
  marking w0 bl pm R [u] gs k → marker_ok (ByWorker i) k →
  wp (scan_unit i u) (λ _ k', ∃ gs', marking w0 bl pm R [] gs' k' ∧ grown (ByWorker i) gs gs' ∧
    length gs' = length gs ∧ kept_flags k k' ∧ darkened (k_world k) (k_world k') ∧
    (count_life not_black (k_world k') < count_life not_black (k_world k))%nat) k.
Proof using Hclosed Huser.
  intros Hinv Hm. assert (life_of (k_world k) u = Some SELF_MARKED) as Hlife
    by (apply (mk_gray _ _ _ _ _ _ _ Hinv); set_solver).
  rewrite /life_of in Hlife. destruct (w_units (k_world k) !! u) as [h|] eqn:Hu; [|done]. injection Hlife as Hl.
  destruct (mk_reach _ _ _ _ _ _ _ Hinv u) as [_ [s Hunit]]; [left; by rewrite /life_of Hu /= Hl|].
  eapply (scan_run i u h s); try done.
  intros k1 (gs1 & Hinv1 & Hg1 & Hlen1 & Hkf1 & Hdk1 & HT).
  assert (life_of (k_world k1) u = Some SELF_MARKED) as Hl1
    by (apply (mk_gray _ _ _ _ _ _ _ Hinv1); set_solver).
  rewrite /life_of in Hl1. destruct (w_units (k_world k1) !! u) as [h1|] eqn:Hu1; [|done]. injection Hl1 as Hl1.
  apply wp_on_kworld. eapply wp_store_unit; [exact Hu1|]. exists gs1. split_and!; try done.
  - apply marking_black; [done|done|]. intros v (h0 & s' & c & Hu0 & Hs' & Hin & Hc)%edge_scan. apply HT.
    exists c. split; [|done]. pose proof (darkened_attrib _ _ _ _ _ (mk_dark _ _ _ _ _ _ _ Hinv) Hu0 Hu) as Ha.
    rewrite (scan_calls_attrib _ _ _ _ Ha).
    by rewrite (marked_size _ _ _ u s s' Hinv (or_introl (life_lookup _ _ _ _ Hu Hl)) Hunit Hs').
  - simpl. etrans; [exact Hdk1|]. apply darkened_store; auto.
  - pose proof (count_life_store not_black _ u h1 FULL_MARKED Hu1) as Hcnt. rewrite Hl1 /= in Hcnt.
    pose proof (count_darkened _ _ Hdk1). simpl. lia.
Qed.

(** *** The loop of a worker *)

Lemma drain_local_spec i wk g sc gs k (Q : unit → Mk → Prop) :
  marking w0 bl pm R sc gs k → k_workers k !! i = Some wk → gs !! i = Some g → m_local_work wk = [] →
  (∀ wk', marking w0 bl pm R sc gs (set_kworkers (<[i := wk']> (k_workers k)) k) →
    m_is_draining wk' = m_is_draining wk → m_local_work wk' ≡ₚ g →
    Mpsc.m_enqueue_pos (m_gray_queue wk') = Mpsc.m_enqueue_pos (m_gray_queue wk) →
    Q tt (set_kworkers (<[i := wk']> (k_workers k)) k)) →
  wp (drain_queue_into_local i) Q k.
Proof using.
  intros Hinv Hi Hg Hl HQ. rewrite /drain_queue_into_local. wp_steps. eapply wp_get_worker; [exact Hi|].
  pose proof (Forall2_lookup_lr _ _ _ _ _ _ (mk_work _ _ _ _ _ _ _ Hinv) Hi Hg) as (ql & Hql & Hq & Hb).
  rewrite Hl /= in Hql. pose proof (Mpsc.holds_bounds _ _ _ Hq) as (_ & _ & Hlen).
  rewrite /Mpsc.drain. assert (Z.of_nat (Z.to_nat CAP) = CAP) as Hcap by (apply Z2Nat.id; done).
  generalize (Z.to_nat CAP) Hcap. clear Hcap. intros n Hcap.
  destruct (wp_run _ _ _ (Mpsc.drain_spec CAP cap_ok n _ ql Hq ltac:(lia)))
    as (items & q' & Hrun & Hpos & -> & Hq').
  rewrite Hrun take_ge; [|lia]. rewrite drop_ge in Hq'; [|lia].
  rewrite /put_worker. wp_steps. apply HQ; simpl; [|done| |done].
  - eapply (marking_worker sc gs k i g _ g); try done.
    + by rewrite list_insert_id.
    + exists []. simpl. rewrite Hl !app_nil_r. split_and!; [|done|simpl in *; lia].
      by rewrite Hql -Permutation_rev.
  - by rewrite Hl app_nil_r -Permutation_rev.
Qed.

Definition loop_done (i : nat) (gs : list (list Z)) (k k' : Mk) : Prop :=
  ∃ gs', marking w0 bl pm R [] gs' k' ∧ grown (ByWorker i) gs gs' ∧ length gs' = length gs ∧
    gs' !! i = Some [] ∧ k_state_flag k' = k_state_flag k ∧
    m_is_draining <$> k_workers k' = <[i := false]> (m_is_draining <$> k_workers k) ∧
    darkened (k_world k) (k_world k').

Lemma loop_done_trans i gs gs1 k k1 k' :
  grown (ByWorker i) gs gs1 → length gs1 = length gs → kept_flags k k1 →
  darkened (k_world k) (k_world k1) → loop_done i gs1 k1 k' → loop_done i gs k k'.
Proof using.
  intros Hg Hl [Hd Hf] Hdk (gs' & Hinv & Hg' & Hl' & Hi & Hf' & Hd' & Hdk'). exists gs'. split_and!; try done.
  - intros j Hj. by rewrite Hg' // Hg.
  - congruence.
  - congruence.
  - by rewrite Hd' Hd.
  - by etrans.
Qed.

(** A worker that has local work holds a gray unit. *)
Lemma local_gray i u rest g sc gs k wk : marking w0 bl pm R sc gs k → k_workers k !! i = Some wk →
  gs !! i = Some g → m_local_work wk = u :: rest →
  (0 < count_life not_black (k_world k))%nat ∧
  ∃ ql, marking w0 bl pm R (u :: sc) (<[i := rest ++ ql]> gs)
    (set_kworkers (<[i := set_local rest wk]> (k_workers k)) k).
Proof using.
  intros Hinv Hi Hg Hlw.
  pose proof (Forall2_lookup_lr _ _ _ _ _ _ (mk_work _ _ _ _ _ _ _ Hinv) Hi Hg) as (ql & Hql & Hq & Hb).
  rewrite Hlw in Hql. split.
  - assert (life_of (k_world k) u = Some SELF_MARKED) as Hlu.
    { apply (mk_gray _ _ _ _ _ _ _ Hinv). rewrite elem_of_app (concat_remove gs i g u (rest ++ ql) Hg) //.
      right. constructor. }
    rewrite /life_of in Hlu. destruct (w_units (k_world k) !! u) as [h|] eqn:Hu; [|done]. injection Hlu as Hlu.
    pose proof (count_life_store not_black _ u h FULL_MARKED Hu) as Hcnt. rewrite Hlu /= in Hcnt. lia.
  - exists ql. eapply (marking_worker sc gs k i g _ (rest ++ ql)); try done.
    + by rewrite (concat_remove gs i g u (rest ++ ql) Hg Hql) -Permutation_middle.
    + exists ql. by split_and!.
Qed.

(** Taking a unit from the local work and scanning it. *)
Lemma process_pop i u rest g gs k wk (m : KM unit) Q : marking w0 bl pm R [] gs k →
  k_workers k !! i = Some wk → gs !! i = Some g → m_local_work wk = u :: rest →
  (∀ gs' k', marking w0 bl pm R [] gs' k' → (∀ j, j ≠ i → gs' !! j = gs !! j) → length gs' = length gs →
     kept_flags k k' → darkened (k_world k) (k_world k') →
     (count_life not_black (k_world k') < count_life not_black (k_world k))%nat → wp m Q k') →
  wp (put_worker i (set_local rest wk) ;; scan_unit i u ;; m) Q k.
Proof using Hclosed Huser.
  intros Hinv Hi Hg Hlw Hm. destruct (local_gray i u rest g [] gs k wk Hinv Hi Hg Hlw) as (_ & ql & Hinv2).
  rewrite /put_worker. wp_steps.
  assert (kept_flags k (set_kworkers (<[i := set_local rest wk]> (k_workers k)) k)) as Hkf2
    by (by eapply kept_flags_insert).
  eapply wp_mono; [eapply (scan_unit_spec i u); [exact Hinv2|]|].
  { eapply (kept_flags_marker (ByWorker i)); [exact Hkf2|]. by exists wk. }
  intros [] k3 (gs3 & Hinv3 & Hg3 & Hl3 & [Hd3 Hf3] & Hdk3 & Hcnt). simpl in Hdk3, Hcnt.
  destruct Hkf2 as [Hd2 Hf2]. apply (Hm gs3); try done.
  - intros j Hj. by rewrite Hg3 // list_lookup_insert_ne.
  - by rewrite Hl3 length_insert.
  - split; congruence.
Qed.

(** The loop after the queue has been drained if the local work was empty. *)
Definition process_rest (n i : nat) : KM unit :=
  w ← get_worker i;
  match m_local_work w with
  | [] => put_worker i (set_draining false w)
  | u :: rest =>
    match n with
    | O => throw OutOfFuel
    | S n' => put_worker i (set_local rest w) ;; scan_unit i u ;; process_loop n' i
    end
  end.

Lemma process_loop_unfold n i : process_loop n i =
  (w ← get_worker i;
   (if bool_decide (m_local_work w = []) then drain_queue_into_local i else mret tt) ;;
   process_rest n i).
Proof using. by destruct n. Qed.

Lemma process_rest_spec n i g gs k wk :
  (∀ m gs k, (m < n)%nat → marking w0 bl pm R [] gs k → marker_ok (ByWorker i) k →
     (count_life not_black (k_world k) ≤ m)%nat → wp (process_loop m i) (λ _ k', loop_done i gs k k') k) →
  marking w0 bl pm R [] gs k → k_workers k !! i = Some wk → gs !! i = Some g →
  (m_local_work wk = [] → g = []) → (count_life not_black (k_world k) ≤ n)%nat →
  wp (process_rest n i) (λ _ k', loop_done i gs k k') k.
Proof using Hclosed Huser.
  intros IH Hinv Hi Hg Hnil Hn. rewrite /process_rest. wp_steps. eapply wp_get_worker; [exact Hi|].
  destruct (m_local_work wk) as [|u rest] eqn:Hlw.
  - specialize (Hnil eq_refl) as ->. rewrite /put_worker. wp_steps. exists gs.
    pose proof (Forall2_lookup_lr _ _ _ _ _ _ (mk_work _ _ _ _ _ _ _ Hinv) Hi Hg) as (ql & Hql & Hq & Hb).
    rewrite Hlw in Hql Hb. split_and!; try done.
    + eapply (marking_worker [] gs k i [] _ []); try done; [by rewrite list_insert_id|]. exists ql. by rewrite /= Hlw.
    + by rewrite /= list_fmap_insert.
  - destruct (local_gray i u rest g [] gs k wk Hinv Hi Hg Hlw) as [Hpos _]. destruct n as [|n]; [lia|].
    eapply process_pop; try done. intros gs' k' Hinv' Hoth Hlen Hkf Hdk Hcnt.
    eapply wp_mono; [apply (IH n gs' k'); [lia|done| |lia]|].
    + eapply (kept_flags_marker (ByWorker i)); [exact Hkf|]. by exists wk.
    + intros [] k2. by apply loop_done_trans.
Qed.

Lemma process_loop_spec n : ∀ i gs k,
  marking w0 bl pm R [] gs k → marker_ok (ByWorker i) k →
  (count_life not_black (k_world k) ≤ n)%nat →
  wp (process_loop n i) (λ _ k', loop_done i gs k k') k.
Proof using Hclosed Huser.
  induction n as [n IH] using lt_wf_ind. intros i gs k Hinv [wk Hi] Hn.
  pose proof (Forall2_length _ _ _ (mk_work _ _ _ _ _ _ _ Hinv)) as Hlen.
  destruct (lookup_lt_is_Some_2 gs i) as [g Hg]; [apply lookup_lt_Some in Hi; lia|].
  rewrite process_loop_unfold. wp_steps. eapply wp_get_worker; [exact Hi|]. wp_steps. case_bool_decide as E.
  - eapply (drain_local_spec i wk g); try done. intros wk' Hinv' Hd' Hp' _.
    eapply wp_mono; [eapply (process_rest_spec n i g _ _ wk'); [intros m gs1 k1 Hm Hi1 Hm1 Hn1; exact (IH m Hm i gs1 k1 Hi1 Hm1 Hn1)|exact Hinv'| |exact Hg| |exact Hn]|].
    + simpl. apply list_lookup_insert_eq. by eapply lookup_lt_Some.
    + intros E'. rewrite E' in Hp'. by apply Permutation_nil in Hp'.
    + intros [] k2. apply loop_done_trans; [done|done|by eapply kept_flags_insert|done].
  - apply wp_ret. eapply process_rest_spec; try done. intros m gs1 k1 Hm Hi1 Hm1 Hn1. exact (IH m Hm i gs1 k1 Hi1 Hm1 Hn1).
Qed.

Lemma process_gray_units_spec i gs k :
  marking w0 bl pm R [] gs k → marker_ok (ByWorker i) k →
  wp (process_gray_units i) (λ _ k', loop_done i gs k k') k.
Proof using Hclosed Huser.
  intros Hinv [wk Hi]. pose proof (Forall2_length _ _ _ (mk_work _ _ _ _ _ _ _ Hinv)) as Hlen.
  destruct (lookup_lt_is_Some_2 gs i) as [g Hg]; [apply lookup_lt_Some in Hi; lia|].
  rewrite /process_gray_units. wp_steps. eapply wp_get_worker; [exact Hi|]. rewrite /put_worker. wp_steps.
  assert (marking w0 bl pm R [] gs (set_kworkers (<[i := set_draining true wk]> (k_workers k)) k)) as Hinv1.
  { eapply (marking_worker [] gs k i g _ g); try done; [by rewrite list_insert_id|].
    exact (Forall2_lookup_lr _ _ _ _ _ _ (mk_work _ _ _ _ _ _ _ Hinv) Hi Hg). }
  eapply wp_mono; [apply (process_loop_spec _ i gs _ Hinv1); [|apply count_life_le]|].
  - simpl. rewrite list_lookup_insert_eq //. by eapply lookup_lt_Some.
  - intros _ k' (gs' & ? & ? & ? & ? & ? & Hd & ?). exists gs'. split_and!; try done.
    rewrite Hd /= list_fmap_insert /=. by rewrite list_insert_insert_eq.
Qed.
End one_unit.
End marking.

(** ** All workers of a phase *)

Section phase.
Context `{Build} `{Payload} `{UserMark}.
Context (w0 : World) (bl : list block) (pm : gmap Z pkind) (R : Z → Prop).
Context (Hclosed : ∀ u v, R u → edge pm w0 u v → R v) (Huser : user_ok pm w0).

Definition idle (k : Mk) : Prop := Forall (eq false) (m_is_draining <$> k_workers k).

Lemma workers_mark_spec ids : ∀ gs k,
  marking w0 bl pm R [] gs k → idle k → (∀ i, i ∈ ids → (i < length (k_workers k))%nat) →
  wp (workers_mark ids) (λ _ k', ∃ gs', marking w0 bl pm R [] gs' k' ∧ idle k' ∧
    length gs' = length gs ∧ k_state_flag k' = k_state_flag k ∧ darkened (k_world k) (k_world k') ∧
    ∀ j, gs' !! j = if decide (j ∈ ids) then Some [] else gs !! j) k.
Proof using Hclosed Huser.
  induction ids as [|i ids IH]; intros gs k Hinv Hidle Hids; cbn [workers_mark]; wp_steps.
  { exists gs. split_and!; try done. }
  assert (i < length (k_workers k))%nat as Hi by (apply Hids; constructor).
  eapply wp_mono; [eapply process_gray_units_spec; try done; by apply lookup_lt_is_Some|].
  intros [] k1 (gs1 & Hinv1 & Hg1 & Hl1 & Hi1 & Hf1 & Hd1 & Hdk1).
  assert (length (k_workers k1) = length (k_workers k)) as Hlk.
  { by rewrite -(length_fmap m_is_draining (k_workers k1)) Hd1 length_insert length_fmap. }
  eapply wp_mono; [apply (IH gs1 k1); [done| |]|].
  - rewrite /idle Hd1. by apply Forall_insert.
  - intros j Hj. rewrite Hlk. apply Hids. by constructor.
  - intros _ k2 (gs2 & Hinv2 & Hid2 & Hl2 & Hf2 & Hdk2 & Hg2). exists gs2. split_and!; try done; try congruence; [by etrans|].
    intros j. rewrite Hg2. destruct (decide (j ∈ ids)) as [Hj|Hj].
    + rewrite decide_True //. by constructor.
    + destruct (decide (j = i)) as [->|Hne]; [rewrite Hi1 decide_True //; constructor|].
      rewrite (Hg1 j Hne) decide_False //. by intros [?|?]%elem_of_cons.
Qed.

Lemma all_workers_mark gs k :
  marking w0 bl pm R [] gs k → idle k →
  wp (workers_mark (seq 0 (length (k_workers k)))) (λ _ k',
    marking w0 bl pm R [] (replicate (length gs) []) k' ∧ idle k' ∧
    k_state_flag k' = k_state_flag k ∧ darkened (k_world k) (k_world k')) k.
Proof using Hclosed Huser.
  intros Hinv Hidle. pose proof (Forall2_length _ _ _ (mk_work _ _ _ _ _ _ _ Hinv)) as Hlen.
  eapply wp_mono; [apply (workers_mark_spec _ gs k); try done; intros i Hi%elem_of_seq; lia|].
  intros _ k' (gs' & Hinv' & Hid' & Hl' & Hf' & Hdk' & Hg').
  assert (gs' = replicate (length gs) []) as ->; [|done].
  apply list_eq. intros j. rewrite Hg'. case_decide as Hj.
  - rewrite elem_of_seq in Hj. symmetry. apply lookup_replicate. split; [done|lia].
  - rewrite elem_of_seq in Hj. rewrite lookup_ge_None_2; [|lia]. symmetry. apply lookup_ge_None. rewrite length_replicate. lia.
Qed.

(** With nothing gray the marked units are black and closed under edges. *)
Lemma marking_complete n k u v :
  marking w0 bl pm R [] (replicate n []) k → marked_unit (k_world k) u → rtc (edge pm w0) u v →
  life_of (k_world k) v = Some FULL_MARKED.
Proof using.
  intros Hinv Hu Hrtc. assert (∀ x, life_of (k_world k) x ≠ Some SELF_MARKED) as Hno.
  { intros x Hx%(mk_gray _ _ _ _ _ _ _ Hinv). simpl in Hx.
    rewrite concat_nils in Hx. by apply elem_of_nil in Hx. }
  assert (life_of (k_world k) u = Some FULL_MARKED) as Hblack by (by destruct Hu as [?%Hno|?]).
  clear Hu. induction Hrtc as [|x y z He _ IH]; [done|]. apply IH.
  by destruct (mk_black _ _ _ _ _ _ _ Hinv x y Hblack He) as [?%Hno|?].
Qed.
End phase.
