(* ===== verification/ParallelMark.v ===== *)
(** * Marking by all workers at once: [src/src/woomem_gc.cpp] (lines 363-406, 545-599)

    [Mark] runs the workers of a marking phase one after the other.  Here they run in any
    interleaving, together with threads of the program that mark units meanwhile.  A worker's step ends at its
    next access to something another thread may use: the header of a unit, its queue, its flag.  A
    marking call is one step, since the only shared variable it changes is the life of
    one unit, by a compare-exchange, and the validation before it reads what marking does not change.  A thread
    claims a unit in one step and hands it over in another. *)

From S2P Require Import Prelude SizeClass Locks Chunk Blocks ChunkProof Heap PageUnit HeapInv.
From S2P Require Import Pools PoolProof Api ApiProof GrayQueue Sweep Mark MarkProof.
Open Scope Z_scope.

(** ** Program points of [process_gray_units] *)

Inductive ppc :=
| PStart                              (* at the entry *)
| PLoop                               (* at the first test of [m_local_work] *)
| PTest                               (* at the second test *)
| PScan (u : Z) (cs : list MarkCall)  (* scanning [u], with these calls still to make *)
| PDone.

Section steps.
Context `{Build} `{Payload} `{UserMark}.

(** The calls that the scan of [u] will make. *)
Definition begin_scan (u : Z) : KM (list MarkCall) :=
  h ← on_kworld (load_unit u);
  assert_ (bool_decide (m_life h = SELF_MARKED)) ;;
  size ← (if has_attrib h WOOMEM_ATTRIB_AUTO_MARK then on_kworld (get_unit_available_size u) else mret 0);
  mret (scan_calls u h size).

Definition worker_step (i : nat) (pc : ppc) : KM ppc :=
  w ← get_worker i;
  match pc with
  | PStart => put_worker i (set_draining true w) ;; mret PLoop
  | PLoop => (if bool_decide (m_local_work w = []) then drain_queue_into_local i else mret tt) ;; mret PTest
  | PTest =>
    match m_local_work w with
    | [] => put_worker i (set_draining false w) ;; mret PDone
    | u :: rest => put_worker i (set_local rest w) ;; cs ← begin_scan u; mret (PScan u cs)
    end
  | PScan u (c :: cs) => mark_call (ByWorker i) c ;; mret (PScan u cs)
  | PScan u [] => on_kworld (store_unit u (set_life FULL_MARKED)) ;; mret PLoop
  | PDone => mret PDone
  end.

(** A thread has a marking context (the index of a worker) and may be between the two halves of [mark_unit_to_gray]. *)
Record par := Par {
  p_mk : Mk;
  p_pcs : list ppc;
  p_threads : list (nat * option Z);
}.

(** [T] are the units that threads mark.  A thread whose unit the queue does not take while
    the worker drains spins: it has no step. *)
Inductive step (T : Z → Prop) : par → par → Prop :=
| worker_runs k pcs ts i pc pc' k' :
    pcs !! i = Some pc → pc ≠ PDone → worker_step i pc k = Ok (pc', k') →
    step T (Par k pcs ts) (Par k' (<[i := pc']> pcs) ts)
| thread_claims k pcs ts j i u k' :
    ts !! j = Some (i, None) → T u → claim_unit u k = Ok (true, k') →
    step T (Par k pcs ts) (Par k' pcs (<[j := (i, Some u)]> ts))
| thread_hands k pcs ts j i u k' :
    ts !! j = Some (i, Some u) → hand_over i u k = Ok (tt, k') →
    step T (Par k pcs ts) (Par k' pcs (<[j := (i, None)]> ts)).

(** The start of a phase. *)
Definition launch (k : Mk) (ctxs : list nat) : par :=
  Par k (replicate (length (k_workers k)) PStart) ((λ i, (i, None)) <$> ctxs).
End steps.

(** ** Where gray units can be *)

Definition scanning (pc : ppc) : list Z := match pc with PScan u _ => [u] | _ => [] end.
Definition carried (t : nat * option Z) : list Z := match t.2 with Some u => [u] | None => [] end.
Definition in_flight (s : par) : list Z := (p_pcs s ≫= scanning) ++ (p_threads s ≫= carried).

Definition drains (pc : ppc) : bool := match pc with PStart | PDone => false | _ => true end.
Definition finished (s : par) : Prop :=
  Forall (eq PDone) (p_pcs s) ∧ Forall (λ t, t.2 = None) (p_threads s).

(** The units that follow from taking element [i] out of a list. *)
Lemma bind_insert {A} (f : A → list Z) (l : list A) i x y :
  l !! i = Some x → f x ++ (<[i := y]> l ≫= f) ≡ₚ f y ++ (l ≫= f).
Proof.
  revert i. induction l as [|z l IH]; intros [|i] Hi; simplify_eq/=; [solve_Permutation|].
  rewrite (Permutation_app_swap_app (f x)) (IH _ Hi). solve_Permutation.
Qed.

Lemma bind_same {A} (f : A → list Z) (l : list A) i x y :
  l !! i = Some x → f x = f y → <[i := y]> l ≫= f = l ≫= f.
Proof.
  revert i. induction l as [|z l IH]; intros [|i] Hi Hf; simplify_eq/=; [by rewrite Hf|by rewrite IH].
Qed.
