(* ===== verification/ParallelProof.v ===== *)
(** * Marking by all workers at once: the invariant of every interleaving *)

From S2P Require Import Prelude SizeClass Locks Chunk Blocks ChunkProof Heap PageUnit HeapInv.
From S2P Require Import Pools PoolProof Api ApiProof GrayQueue Sweep Mark MarkProof ParallelMark.
Open Scope Z_scope.

(** ** A worker that marks changes its own local work only *)

Definition locally (i : nat) (k k' : Mk) : Prop :=
  ∀ wk, k_workers k !! i = Some wk → ∃ l, k_workers k' = <[i := set_local l wk]> (k_workers k).

#[export] Instance locally_preorder i : PreOrder (locally i).
Proof.
  split.
  - intros k wk Hi. exists (m_local_work wk). symmetry. apply list_insert_id. by destruct wk.
  - intros k1 k2 k3 H12 H23 wk Hi. destruct (H12 wk Hi) as [l E]. destruct (H23 (set_local l wk)) as [l' E'].
    { rewrite E list_lookup_insert_eq //. by eapply lookup_lt_Some. }
    exists l'. by rewrite E' E list_insert_insert_eq.
Qed.

Abbreviation local_only i := (respects (locally i)).

Lemma local_only_world {A} i (m : WM A) : local_only i (on_kworld m).
Proof.
  intros k a k'. rewrite /on_kworld. destruct (m (k_world k)) as [[? w]|]; [|done].
  intros [= <- <-]. apply (reflexivity (R := locally i) k).
Qed.

Lemma local_only_push i u : local_only i (push_local i u).
Proof.
  intros k [] k' E wk Hi. exists (u :: m_local_work wk).
  assert (wp (push_local i u) (λ _ k', k_workers k' = <[i := set_local (u :: m_local_work wk) wk]> (k_workers k)) k) as Hw
    by (by eapply wp_push_local).
  by rewrite /wp E in Hw.
Qed.

#[local] Hint Resolve local_only_world local_only_push : frames.

Lemma local_only_mark `{Build} i u : local_only i (mark_by (ByWorker i) u).
Proof. rewrite /mark_by /mark_unit_to_gray /claim_unit. frames. Qed.

#[local] Hint Resolve local_only_mark : frames.

Lemma local_only_call `{Build} i c : local_only i (mark_call (ByWorker i) c).
Proof.
  destruct c; rewrite /mark_call /woomem_mark_fuzzy_unit /woomem_mark_fuzzy_unit_head /woomem_mark_unit_head; frames.
Qed.

(** ** The invariant *)

Section parallel.
Context `{Build} `{Payload} `{UserMark}.
Context (w0 : World) (bl : list block) (pm : gmap Z pkind) (R T : Z → Prop).
Context (wb : World).  (* the world at the start of the phase *)

(** What is known of a scan that has the calls [cs] left. *)
Definition scan_ok (w : World) (u : Z) (cs : list MarkCall) : Prop :=
  ∃ h s pre, w_units w0 !! u = Some h ∧ is_unit pm u s ∧ scan_calls u h s = pre ++ cs ∧
    ∀ c v, c ∈ pre → call_target pm w0 c v → marked_unit w v.

Definition pos_of (wk : MarkWorker) : Z := Mpsc.m_enqueue_pos (m_gray_queue wk).

(** The queues have positions left for the units that threads carry or may still claim. *)
Definition room (s : par) : Prop :=
  Forall (λ p, p + Z.of_nat (count_life is_white (k_world (p_mk s))) +
    Z.of_nat (length (p_threads s ≫= carried)) + 1 + CAP < 2 ^ 64) (pos_of <$> k_workers (p_mk s)).

Record par_inv (gs : list (list Z)) (s : par) : Prop := {
  pi_mark : marking w0 bl pm R (in_flight s) gs (p_mk s);
  pi_base : darkened wb (k_world (p_mk s));
  pi_drain : m_is_draining <$> k_workers (p_mk s) = drains <$> p_pcs s;
  pi_ctx : Forall (λ t, (t.1 < length (k_workers (p_mk s)))%nat) (p_threads s);
  pi_room : room s;
  pi_scan : ∀ i u cs, p_pcs s !! i = Some (PScan u cs) → scan_ok (k_world (p_mk s)) u cs;
  pi_empty : p_threads s = [] → ∀ i pc wk, p_pcs s !! i = Some pc → k_workers (p_mk s) !! i = Some wk →
    pc = PDone ∨ (pc = PTest ∧ m_local_work wk = []) → gs !! i = Some [];
}.

Lemma marking_perm sc sc' gs k : sc ≡ₚ sc' → marking w0 bl pm R sc gs k → marking w0 bl pm R sc' gs k.
Proof using.
  intros Hp [Hc Ha Hl Hh Hd Hw Hg Hnd Hb Hr]. split; try done.
  - intros u. by rewrite -Hp.
  - by rewrite -Hp.
Qed.

Lemma scan_ok_darkened w w' u cs : darkened w w' → scan_ok w u cs → scan_ok w' u cs.
Proof using.
  intros Hd (h & s & pre & Hu & Hs & Hc & Hm). exists h, s, pre. split_and!; try done.
  intros c v Hin Hv. eapply darkened_marked; [done|by eapply Hm].
Qed.

(** A worker's step: what has to be shown. *)
Lemma par_inv_worker gs gs' k k' pcs ts i pc pc' wk wk' :
  par_inv gs (Par k pcs ts) → pcs !! i = Some pc → k_workers k !! i = Some wk →
  k_workers k' = <[i := wk']> (k_workers k) → m_is_draining wk' = drains pc' → pos_of wk' = pos_of wk →
  darkened (k_world k) (k_world k') →
  marking w0 bl pm R (in_flight (Par k' (<[i := pc']> pcs) ts)) gs' k' →
  (∀ j, j ≠ i → gs' !! j = gs !! j) →
  (∀ u cs, pc' = PScan u cs → scan_ok (k_world k') u cs) →
  (ts = [] → pc' = PDone ∨ (pc' = PTest ∧ m_local_work wk' = []) → gs' !! i = Some []) →
  par_inv gs' (Par k' (<[i := pc']> pcs) ts).
Proof using.
  intros [Hm Hba Hdr Hctx Hroom Hscan Hemp] Hi Hwk Hks Hd Hpos Hdk Hm' Hoth Hs' He'. simpl in *.
  split; simpl; [done|by etrans|..].
  - by rewrite Hks !list_fmap_insert Hdr Hd.
  - by rewrite Hks length_insert.
  - rewrite /room /= Hks list_fmap_insert Hpos list_insert_id; [|by rewrite list_lookup_fmap Hwk].
    eapply Forall_impl; [exact Hroom|]. simpl. pose proof (count_white_darkened _ _ Hdk). lia.
  - intros j u cs. destruct (decide (j = i)) as [->|Hne].
    + rewrite list_lookup_insert_eq; [|by eapply lookup_lt_Some]. intros [= ->]. by apply Hs'.
    + rewrite list_lookup_insert_ne //. intros Hj. by eapply scan_ok_darkened, Hscan.
  - intros Ht j pc1 wk1. destruct (decide (j = i)) as [->|Hne].
    + rewrite Hks !list_lookup_insert_eq; [|by eapply lookup_lt_Some..]. intros [= <-] [= <-]. by apply He'.
    + rewrite Hks !list_lookup_insert_ne // Hoth //. by apply Hemp.
Qed.

(** *** The rank *)

Definition uncoloured (w : World) : nat := (count_life not_black w + count_life is_white w)%nat.
Definition searching (pc : ppc) : nat := match pc with PScan _ _ => 0 | _ => 1 end.
Definition weight (pc : ppc) : nat :=
  match pc with PStart => 3 | PLoop => 2 | PTest => 1 | PScan _ cs => S (length cs) | PDone => 0 end.

(** Units get darker; then workers find units; then workers and threads advance. *)
Definition rank (s : par) : nat * nat * nat :=
  (uncoloured (k_world (p_mk s)), sum_list_with searching (p_pcs s),
   sum_list_with weight (p_pcs s) + length (p_threads s ≫= carried))%nat.

Lemma uncoloured_darkened w w' : darkened w w' → (uncoloured w' ≤ uncoloured w)%nat.
Proof using. intros Hd. pose proof (count_darkened _ _ Hd). pose proof (count_white_darkened _ _ Hd). rewrite /uncoloured. lia. Qed.

Lemma rank_descends k k' pcs ts i pc pc' :
  darkened (k_world k) (k_world k') → pcs !! i = Some pc →
  (uncoloured (k_world k') < uncoloured (k_world k) ∨ searching pc' < searching pc ∨
   (searching pc' = searching pc ∧ weight pc' < weight pc))%nat →
  lower (rank (Par k' (<[i := pc']> pcs) ts)) (rank (Par k pcs ts)).
Proof using.
  intros Hd Hi Hr. rewrite /lower /rank /=. pose proof (uncoloured_darkened _ _ Hd).
  pose proof (sum_list_with_insert searching pcs i pc pc' Hi).
  pose proof (sum_list_with_insert weight pcs i pc pc' Hi). lia.
Qed.

(** The result of a step of worker [i]. *)
Definition stepped (k : Mk) (pcs : list ppc) (ts : list (nat * option Z)) (i : nat) (pc' : ppc) (k' : Mk) : Prop :=
  ∃ gs', par_inv gs' (Par k' (<[i := pc']> pcs) ts) ∧
    lower (rank (Par k' (<[i := pc']> pcs) ts)) (rank (Par k pcs ts)).

Lemma in_flight_same k k' pcs ts i pc pc' :
  pcs !! i = Some pc → scanning pc = scanning pc' →
  in_flight (Par k' (<[i := pc']> pcs) ts) = in_flight (Par k pcs ts).
Proof using. intros Hi Hs. by rewrite /in_flight /= (bind_same _ _ _ _ _ Hi Hs). Qed.

Lemma in_flight_pop k k' pcs ts i pc u cs :
  pcs !! i = Some pc → scanning pc = [] →
  in_flight (Par k' (<[i := PScan u cs]> pcs) ts) ≡ₚ u :: in_flight (Par k pcs ts).
Proof using.
  intros Hi Hs. pose proof (bind_insert scanning pcs i pc (PScan u cs) Hi) as Hp. rewrite Hs /= in Hp.
  by rewrite /in_flight /= Hp.
Qed.

Lemma in_flight_end k k' pcs ts i pc' u cs :
  pcs !! i = Some (PScan u cs) → scanning pc' = [] →
  u :: in_flight (Par k' (<[i := pc']> pcs) ts) ≡ₚ in_flight (Par k pcs ts).
Proof using.
  intros Hi Hs. pose proof (bind_insert scanning pcs i _ pc' Hi) as Hp. rewrite Hs /= in Hp.
  by rewrite /in_flight /= -Hp.
Qed.

(** A worker and what it holds. *)
Lemma par_worker gs s i pc : par_inv gs s → p_pcs s !! i = Some pc →
  ∃ wk g, k_workers (p_mk s) !! i = Some wk ∧ gs !! i = Some g ∧ m_is_draining wk = drains pc ∧
    work_holds (count_life is_white (k_world (p_mk s))) wk g.
Proof using.
  intros Hinv Hi. pose proof (f_equal (.!! i) (pi_drain _ _ Hinv)) as Hd.
  rewrite /= !list_lookup_fmap Hi /= in Hd. destruct (k_workers (p_mk s) !! i) as [wk|] eqn:Hwk; [|done].
  destruct (Forall2_lookup_l _ _ _ _ _ (mk_work _ _ _ _ _ _ _ (pi_mark _ _ Hinv)) Hwk) as (g & Hg & Hw).
  exists wk, g. split_and!; try done. by injection Hd.
Qed.

(** A step that only replaces the record of the worker, which holds the same units. *)
Lemma replace_worker gs k pcs ts i pc pc' wk wk' g :
  par_inv gs (Par k pcs ts) → pcs !! i = Some pc → k_workers k !! i = Some wk → gs !! i = Some g →
  scanning pc = [] → scanning pc' = [] → (searching pc' = searching pc ∧ weight pc' < weight pc)%nat →
  m_local_work wk' = m_local_work wk → m_gray_queue wk' = m_gray_queue wk → m_is_draining wk' = drains pc' →
  (ts = [] → pc' = PDone ∨ (pc' = PTest ∧ m_local_work wk' = []) → g = []) →
  stepped k pcs ts i pc' (set_kworkers (<[i := wk']> (k_workers k)) k).
Proof using.
  intros Hinv Hi Hwk Hg Hs Hs' Hr Hl Hq Hd He. exists gs. split; [|eapply rank_descends; [reflexivity|exact Hi|by right; right]].
  eapply (par_inv_worker gs gs k _ pcs ts i pc pc' wk wk'); try done.
  - by rewrite /pos_of Hq.
  - rewrite (in_flight_same k _ pcs ts i pc pc' Hi) ?Hs //.
    eapply (marking_worker (in_flight (Par k pcs ts)) gs k i g _ g); [apply Hinv|done|by rewrite list_insert_id|done|].
    destruct (par_worker _ _ _ _ Hinv Hi) as (wk1 & g1 & Hwk1 & Hg1 & _ & ql & Hql & Hh & Hb).
    simpl in *. simplify_eq. exists ql. by rewrite Hl Hq.
  - intros u cs ->. by rewrite /= in Hs'.
  - intros Ht Hpc. by rewrite (He Ht Hpc) in Hg.
Qed.

(** *** The steps of a worker *)

Lemma step_start gs k pcs ts i : par_inv gs (Par k pcs ts) → pcs !! i = Some PStart →
  wp (worker_step i PStart) (stepped k pcs ts i) k.
Proof using.
  intros Hinv Hi. destruct (par_worker _ _ _ _ Hinv Hi) as (wk & g & Hwk & Hg & _). simpl in Hwk.
  rewrite /worker_step. wp_steps. eapply wp_get_worker; [exact Hwk|]. rewrite /put_worker. wp_steps.
  eapply (replace_worker gs k pcs ts i PStart PLoop wk _ g); try done; [simpl; lia|].
  by intros _ [?|[? _]].
Qed.

Lemma step_loop gs k pcs ts i : par_inv gs (Par k pcs ts) → pcs !! i = Some PLoop →
  wp (worker_step i PLoop) (stepped k pcs ts i) k.
Proof using.
  intros Hinv Hi. destruct (par_worker _ _ _ _ Hinv Hi) as (wk & g & Hwk & Hg & Hd & _). simpl in Hwk.
  rewrite /worker_step. wp_steps. eapply wp_get_worker; [exact Hwk|]. wp_steps.
  destruct (bool_decide (m_local_work wk = [])) eqn:El.
  - apply bool_decide_eq_true in El.
    eapply (drain_local_spec _ _ _ _ i wk g); [apply Hinv|done|done|done|]. intros wk' Hmk Hd' Hp Hpos. wp_steps.
    exists gs. split; [|eapply rank_descends; [reflexivity|exact Hi|right; right; simpl; lia]].
    eapply (par_inv_worker gs gs k _ pcs ts i PLoop PTest wk wk'); try done.
    + by rewrite Hd'.
    + by rewrite (in_flight_same k _ pcs ts i PLoop PTest Hi).
    + intros _ [?|[_ E]]; [done|]. rewrite E in Hp. by apply Permutation_nil in Hp as ->.
  - apply bool_decide_eq_false in El. wp_steps.
    assert (k = set_kworkers (<[i := wk]> (k_workers k)) k) as Hk.
    { rewrite list_insert_id //. by destruct k. }
    rewrite {2}Hk. eapply (replace_worker gs k pcs ts i PLoop PTest wk _ g); try done; [simpl; lia|].
    by intros _ [?|[_ ?]].
Qed.

(** The first access of a scan finds the unit gray, and computes its calls. *)
Lemma begin_scan_spec sc gs k u (Q : list MarkCall → Mk → Prop) :
  marking w0 bl pm R (u :: sc) gs k → (∀ cs, scan_ok (k_world k) u cs → Q cs k) → wp (begin_scan u) Q k.
Proof using.
  intros Hinv HQ. assert (life_of (k_world k) u = Some SELF_MARKED) as Hlife
    by (apply (mk_gray _ _ _ _ _ _ _ Hinv); constructor).
  destruct (mk_reach _ _ _ _ _ _ _ Hinv u) as [_ [s Hunit]]; [by left|].
  rewrite /life_of in Hlife. destruct (w_units (k_world k) !! u) as [h|] eqn:Hu; [|done]. injection Hlife as Hl.
  pose proof (mk_dark _ _ _ _ _ _ _ Hinv) as Hdk.
  destruct (w_units w0 !! u) as [h0|] eqn:Hu0; [|by pose proof (Hdk u) as Hdu; rewrite Hu0 Hu in Hdu].
  pose proof (darkened_attrib _ _ _ _ _ Hdk Hu0 Hu) as Hattr.
  assert (∀ s', (has_attrib h WOOMEM_ATTRIB_AUTO_MARK = true → s' = s) → Q (scan_calls u h s') k) as Hgo.
  { intros s' Hs'. apply HQ. exists h0, s, []. split_and!; try done; [|by intros c v ?%elem_of_nil].
    rewrite -(scan_calls_attrib u h0 h s Hattr) /scan_calls /=.
    destruct (has_attrib h WOOMEM_ATTRIB_AUTO_MARK); [by rewrite Hs'|done]. }
  assert (set_kworld (k_world k) k = k) as Hk by (by destruct k).
  rewrite /begin_scan. wp_steps. apply wp_on_kworld. eapply wp_load_unit; [exact Hu|]. rewrite Hk. wp_steps.
  apply wp_assert; [by rewrite bool_decide_eq_true_2|]. wp_steps.
  destruct (has_attrib h WOOMEM_ATTRIB_AUTO_MARK) eqn:E; [|by wp_steps; apply Hgo].
  apply wp_on_kworld. rewrite {1}/wp.
  rewrite (available_size_spec _ _ _ _ _ _ (mk_heap _ _ _ _ _ _ _ Hinv) Hunit Hu); [|by rewrite Hl].
  rewrite Hk. wp_steps. by apply Hgo.
Qed.

Lemma step_test gs k pcs ts i : par_inv gs (Par k pcs ts) → pcs !! i = Some PTest →
  wp (worker_step i PTest) (stepped k pcs ts i) k.
Proof using.
  intros Hinv Hi. destruct (par_worker _ _ _ _ Hinv Hi) as (wk & g & Hwk & Hg & Hd & _). simpl in Hwk.
  rewrite /worker_step. wp_steps. eapply wp_get_worker; [exact Hwk|].
  destruct (m_local_work wk) as [|u rest] eqn:El; rewrite /put_worker; wp_steps.
  - eapply (replace_worker gs k pcs ts i PTest PDone wk _ g); try done; [simpl; lia|].
    intros Ht _. pose proof (pi_empty _ _ Hinv Ht i PTest wk Hi Hwk) as E. rewrite Hg in E.
    by injection E as ->; [|right].
  - destruct (local_gray _ _ _ _ i u rest g _ gs k wk (pi_mark _ _ Hinv) Hwk Hg El) as (_ & ql & Hmk).
    eapply begin_scan_spec; [exact Hmk|]. intros cs Hcs. wp_steps. exists (<[i := rest ++ ql]> gs).
    split; [|eapply rank_descends; [reflexivity|exact Hi|right; left; simpl; lia]].
    eapply (par_inv_worker gs _ k _ pcs ts i PTest (PScan u cs) wk (set_local rest wk)); try done.
    + eapply marking_perm; [|exact Hmk]. by rewrite (in_flight_pop k _ pcs ts i PTest u cs Hi).
    + intros j Hj. by rewrite list_lookup_insert_ne.
    + by intros u' cs' [= <- <-].
    + by intros _ [?|[? _]].
Qed.

Context (Hclosed : ∀ u v, R u → edge pm w0 u v → R v) (Huser : user_ok pm w0).

(** The calls of a scan keep the obligation of the interface and find units of [R]. *)
Lemma scan_calls_ok sc gs k u h s : marking w0 bl pm R sc gs k → u ∈ sc → w_units w0 !! u = Some h → is_unit pm u s →
  ∀ c, c ∈ scan_calls u h s → call_ok pm w0 c ∧ ∀ v, call_target pm w0 c v → R v.
Proof using Hclosed Huser.
  intros Hinv Hin Hu Hs c Hc.
  assert (life_of (k_world k) u = Some SELF_MARKED) as Hlife
    by (apply (mk_gray _ _ _ _ _ _ _ Hinv), elem_of_app; by left).
  assert (R u) as HR by (apply (mk_reach _ _ _ _ _ _ _ Hinv); by left). split.
  - apply elem_of_app in Hc as [Hc|Hc].
    + destruct (has_attrib h WOOMEM_ATTRIB_MARK_CALLBACK) eqn:E; [|by apply elem_of_nil in Hc].
      assert (visible w0 u = true) as Hvis.
      { rewrite -(darkened_visible _ _ _ (mk_dark _ _ _ _ _ _ _ Hinv)) /visible. rewrite /life_of in Hlife.
        destruct (w_units (k_world k) !! u); [|done]. by injection Hlife as ->. }
      pose proof (Huser u s h Hs Hu Hvis E) as Hall. rewrite Forall_forall in Hall. by apply Hall.
    + destruct (has_attrib h WOOMEM_ATTRIB_AUTO_MARK); [|by apply elem_of_nil in Hc].
      by apply list_elem_of_fmap in Hc as (j & -> & _).
  - intros v Hv. apply (Hclosed u); [done|]. apply edge_scan. by exists h, s, c.
Qed.

Lemma scanning_in_flight k pcs ts i u cs : pcs !! i = Some (PScan u cs) → u ∈ in_flight (Par k pcs ts).
Proof using.
  intros Hi. rewrite -(in_flight_end k k pcs ts i PLoop u cs Hi); [constructor|done].
Qed.

Lemma step_call gs k pcs ts i u c cs : par_inv gs (Par k pcs ts) → pcs !! i = Some (PScan u (c :: cs)) →
  wp (worker_step i (PScan u (c :: cs))) (stepped k pcs ts i) k.
Proof using Hclosed Huser.
  intros Hinv Hi. destruct (par_worker _ _ _ _ Hinv Hi) as (wk & g & Hwk & Hg & Hd & _). simpl in Hwk.
  destruct (pi_scan _ _ Hinv i u _ Hi) as (h & s & pre & Hu & Hs & Hpre & Hdone).
  pose proof (scan_calls_ok _ _ _ u h s (pi_mark _ _ Hinv) (scanning_in_flight _ _ _ _ _ _ Hi) Hu Hs c) as Hok.
  destruct Hok as [Hok HR]; [rewrite Hpre; apply elem_of_app; right; constructor|].
  rewrite /worker_step. wp_steps. eapply wp_get_worker; [exact Hwk|]. wp_steps.
  destruct (wp_run _ _ _ (mark_call_spec w0 bl pm R (ByWorker i) _ gs k c (pi_mark _ _ Hinv) Hok
    (ex_intro _ wk Hwk) HR)) as ([] & k' & Hrun & gs' & Hmk & Hgr & _ & Hkf & Hdk & HT).
  rewrite {1}/wp Hrun. wp_steps. destruct (local_only_call i c k tt k' Hrun wk Hwk) as [l Hl].
  exists gs'. split; [|eapply rank_descends; [exact Hdk|exact Hi|right; right; simpl; lia]].
  eapply (par_inv_worker gs gs' k k' pcs ts i _ (PScan u cs) wk (set_local l wk)); try done.
  - by rewrite (in_flight_same k _ pcs ts i _ (PScan u cs) Hi).
  - intros u' cs' [= <- <-]. exists h, s, (pre ++ [c]). split_and!; try done; [by rewrite -app_assoc|].
    intros c' v [Hc'|Hc']%elem_of_app Hv; [|apply list_elem_of_singleton in Hc' as ->; by apply HT].
    eapply darkened_marked; [exact Hdk|by eapply Hdone].
  - by intros _ [?|[? _]].
Qed.

Lemma step_finish gs k pcs ts i u : par_inv gs (Par k pcs ts) → pcs !! i = Some (PScan u []) →
  wp (worker_step i (PScan u [])) (stepped k pcs ts i) k.
Proof using.
  intros Hinv Hi. destruct (par_worker _ _ _ _ Hinv Hi) as (wk & g & Hwk & Hg & Hd & _). simpl in Hwk.
  destruct (pi_scan _ _ Hinv i u _ Hi) as (h & s & pre & Hu & Hs & Hpre & Hdone). rewrite app_nil_r in Hpre. subst pre.
  rewrite /worker_step. wp_steps. eapply wp_get_worker; [exact Hwk|]. wp_steps.
  assert (marking w0 bl pm R (u :: in_flight (Par k (<[i := PLoop]> pcs) ts)) gs k) as Hmk.
  { eapply marking_perm; [|apply Hinv]. by rewrite (in_flight_end k k pcs ts i PLoop u [] Hi). }
  assert (life_of (k_world k) u = Some SELF_MARKED) as Hlife by (apply (mk_gray _ _ _ _ _ _ _ Hmk); constructor).
  pose proof Hlife as Hl. rewrite /life_of in Hl. destruct (w_units (k_world k) !! u) as [h1|] eqn:Hu1; [|done]. injection Hl as Hl.
  assert (darkened (k_world k) (upd_units (<[u := set_life FULL_MARKED h1]>) (k_world k))) as Hdk
    by (apply darkened_store; auto).
  apply wp_on_kworld. eapply wp_store_unit; [exact Hu1|]. wp_steps. exists gs. split.
  2:{ eapply rank_descends; [exact Hdk|exact Hi|left]. simpl. rewrite /uncoloured.
      pose proof (count_life_store not_black _ u h1 FULL_MARKED Hu1) as Hcnt. rewrite Hl /= in Hcnt.
      pose proof (count_white_darkened _ _ Hdk). lia. }
  eapply (par_inv_worker gs gs k _ pcs ts i _ PLoop wk wk); try done.
  - simpl. by rewrite list_insert_id.
  - apply (marking_black _ _ _ _ u h1 _ gs k Hmk Hu1).
    intros v (h' & s' & c & Hu' & Hs' & Hin & Hc)%edge_scan. apply (Hdone c v); [|done].
    rewrite Hu in Hu'. injection Hu' as <-. by rewrite (marked_size _ _ _ _ _ _ _ _ _ _ Hmk (or_introl Hlife) Hs Hs').
  - by intros _ [?|[? _]].
Qed.

Lemma worker_step_spec gs k pcs ts i pc : par_inv gs (Par k pcs ts) → pcs !! i = Some pc → pc ≠ PDone →
  wp (worker_step i pc) (stepped k pcs ts i) k.
Proof using Hclosed Huser.
  intros Hinv Hi Hne. destruct pc as [| | |u [|c cs]|]; [by eapply step_start|by eapply step_loop|by eapply step_test|
    by eapply step_finish|by eapply step_call|done].
Qed.

(** *** The steps of a thread *)

Context (HT : ∀ u, T u → R u ∧ ∃ s, is_unit pm u s).

Lemma claim_true u k k' : claim_unit u k = Ok (true, k') →
  ∃ h, w_units (k_world k) !! u = Some h ∧ m_life h = UNMARKED ∧
    k' = set_kworld (upd_units (<[u := set_life SELF_MARKED h]>) (k_world k)) k.
Proof using.
  intros E. destruct (w_units (k_world k) !! u) as [h|] eqn:Hu.
  - exists h. assert (wp (claim_unit u) (λ b k', if b then m_life h = UNMARKED ∧
      k' = set_kworld (upd_units (<[u := set_life SELF_MARKED h]>) (k_world k)) k else True) k) as Hw.
    { eapply claim_unit_spec; [exact Hu|]. destruct (is_white (m_life h)) eqn:Hl; [|done].
      by apply bool_decide_eq_true in Hl. }
    rewrite /wp E in Hw. by destruct Hw.
  - by rewrite /claim_unit /mbind /M_bind /on_kworld /load_unit /gets /mbind /M_bind /of_option Hu in E.
Qed.

Lemma threads_nonempty {A} (l : list A) j x y : l !! j = Some x → <[j := y]> l ≠ [].
Proof using. intros Hj%lookup_lt_Some E. apply (f_equal length) in E. rewrite length_insert /= in E. lia. Qed.

Lemma step_claim gs k pcs ts j i u k' :
  par_inv gs (Par k pcs ts) → ts !! j = Some (i, None) → T u → claim_unit u k = Ok (true, k') →
  par_inv gs (Par k' pcs (<[j := (i, Some u)]> ts)) ∧
  lower (rank (Par k' pcs (<[j := (i, Some u)]> ts))) (rank (Par k pcs ts)).
Proof using HT.
  intros Hinv Hj HTu E. destruct (claim_true _ _ _ E) as (h & Hu & Hl & ->). destruct (HT u HTu) as [HR [s Hs]].
  set (w' := upd_units (<[u := set_life SELF_MARKED h]>) (k_world k)).
  assert (darkened (k_world k) w') as Hdk by (apply darkened_store; auto).
  pose proof (count_life_store is_white _ u h SELF_MARKED Hu) as Hcnt. rewrite Hl /= -/w' in Hcnt.
  pose proof (bind_insert carried ts j _ (i, Some u) Hj) as Hc. simpl in Hc.
  pose proof (count_darkened _ _ Hdk) as Hnb. split.
  - pose proof (marking_claim _ _ _ _ _ _ _ u s h (pi_mark _ _ Hinv) Hu Hl HR Hs) as Hmk.
    destruct Hinv as [Hm Hba Hdr Hctx Hroom Hscan Hemp]; simpl in *. split; simpl; [|by etrans|done| | | |].
    + eapply marking_perm; [|exact Hmk]. by rewrite /in_flight /= Hc -Permutation_middle.
    + apply Forall_insert; [done|]. by apply (Forall_lookup_1 _ _ _ _ Hctx Hj).
    + rewrite /room /= in Hroom |- *. eapply Forall_impl; [exact Hroom|]. intros p. simpl.
      pose proof (Permutation_length Hc) as Hlen. simpl in Hlen. lia.
    + intros j' u' cs Hj'. by eapply scan_ok_darkened, Hscan.
    + intros Ht. by destruct (threads_nonempty _ _ _ _ Hj Ht).
  - left. simpl. rewrite /uncoloured. lia.
Qed.

(** A unit that is handed over ends in the queue or in the local work. *)
Lemma hand_over_result i u k k' wk g ql n :
  k_workers k !! i = Some wk → g ≡ₚ m_local_work wk ++ ql → Mpsc.holds CAP (m_gray_queue wk) ql →
  pos_of wk + n + 2 + CAP < 2 ^ 64 → 0 ≤ n → hand_over i u k = Ok (tt, k') →
  ∃ wk', k' = set_kworkers (<[i := wk']> (k_workers k)) k ∧ m_is_draining wk' = m_is_draining wk ∧
    pos_of wk' ≤ pos_of wk + 1 ∧ work_holds (Z.to_nat n) wk' (u :: g).
Proof using.
  intros Hi Hg Hq Hb Hn E.
  assert (wp (hand_over i u) (λ _ k', ∃ wk', k' = set_kworkers (<[i := wk']> (k_workers k)) k ∧
    m_is_draining wk' = m_is_draining wk ∧ pos_of wk' ≤ pos_of wk + 1 ∧ work_holds (Z.to_nat n) wk' (u :: g)) k) as Hw.
  2:{ by rewrite /wp E in Hw. }
  rewrite /hand_over. wp_steps. eapply wp_get_worker; [exact Hi|].
  destruct (wp_run _ _ _ (Mpsc.try_enqueue_spec CAP cap_ok u _ ql Hq ltac:(rewrite /pos_of in Hb; lia)))
    as (b & q' & Hrun & _ & Hpos & Hq'). rewrite Hrun. rewrite /pos_of in Hb |- *. destruct b; simpl in Hpos.
  - rewrite /put_worker. wp_steps. exists (set_queue q' wk). split_and!; [done|done|simpl; lia|].
    exists (ql ++ [u]). split_and!; [|done|simpl; lia]. rewrite Hg /=. by rewrite app_assoc -Permutation_cons_append.
  - destruct (m_is_draining wk) eqn:Hd.
    { rewrite /hand_over /get_worker /mbind /M_bind /gets /of_option Hi /= Hrun Hd in E. done. }
    eapply wp_push_local; [exact Hi|].
    exists (set_local (u :: m_local_work wk) wk). split_and!; [done|done|simpl; lia|].
    exists ql. split_and!; [by rewrite /= Hg|done|simpl; lia].
Qed.

Lemma step_hand gs k pcs ts j i u k' :
  par_inv gs (Par k pcs ts) → ts !! j = Some (i, Some u) → hand_over i u k = Ok (tt, k') →
  ∃ gs', par_inv gs' (Par k' pcs (<[j := (i, None)]> ts)) ∧
    lower (rank (Par k' pcs (<[j := (i, None)]> ts))) (rank (Par k pcs ts)).
Proof using.
  intros Hinv Hj E. pose proof (Forall_lookup_1 _ _ _ _ (pi_ctx _ _ Hinv) Hj) as Hlt. simpl in Hlt.
  destruct (lookup_lt_is_Some_2 (k_workers k) i Hlt) as [wk Hwk].
  destruct (Forall2_lookup_l _ _ _ _ _ (mk_work _ _ _ _ _ _ _ (pi_mark _ _ Hinv)) Hwk) as (g & Hg & ql & Hql & Hq & Hb).
  pose proof (bind_insert carried ts j _ (i, None) Hj) as Hc. simpl in Hc.
  pose proof (Permutation_length Hc) as Hlen. simpl in Hlen.
  assert (pos_of wk + Z.of_nat (count_life is_white (k_world k)) +
    Z.of_nat (length (ts ≫= carried)) + 1 + CAP < 2 ^ 64) as Hroom.
  { apply (Forall_lookup_1 _ _ i _ (pi_room _ _ Hinv)). by rewrite list_lookup_fmap Hwk. }
  destruct (hand_over_result i u k k' wk g ql (count_life is_white (k_world k)) Hwk Hql Hq ltac:(lia) ltac:(lia) E)
    as (wk' & -> & Hd & Hpos & Hwh). rewrite Nat2Z.id in Hwh.
  exists (<[i := u :: g]> gs). split; [|right; simpl; split; [done|right; split; [done|lia]]].
  destruct Hinv as [Hm Hba Hdr Hctx Hrm Hscan Hemp]; simpl in *. split; simpl; [|done|..].
  - eapply (marking_worker _ gs k i g wk' (u :: g)); [exact Hm|done|done| |done].
    rewrite (concat_insert gs i g u Hg) /in_flight /= -Hc. solve_Permutation.
  - rewrite list_fmap_insert Hd list_insert_id // list_lookup_fmap Hwk //.
  - rewrite length_insert. apply Forall_insert; [done|]. done.
  - rewrite /room /= in Hrm |- *. rewrite list_fmap_insert. apply Forall_insert; [|lia].
    eapply Forall_impl; [exact Hrm|]. intros p. simpl. lia.
  - done.
  - intros Ht. by destruct (threads_nonempty _ _ _ _ Hj Ht).
Qed.

(** *** Every interleaving *)

Lemma par_step gs s s' : par_inv gs s → step T s s' → ∃ gs', par_inv gs' s' ∧ lower (rank s') (rank s).
Proof using Hclosed Huser HT.
  intros Hinv Hs. destruct Hs as [k pcs ts i pc pc' k' Hi Hne Hrun|k pcs ts j i u k' Hj Hu E|k pcs ts j i u k' Hj E].
  - exact (wp_det _ _ _ _ _ (worker_step_spec gs k pcs ts i pc Hinv Hi Hne) Hrun).
  - exists gs. by eapply step_claim.
  - by eapply step_hand.
Qed.

Lemma par_steps gs s s' : par_inv gs s → rtc (step T) s s' → ∃ gs', par_inv gs' s'.
Proof using Hclosed Huser HT.
  intros Hinv Hs. revert gs Hinv. induction Hs as [s|s s1 s' Hs _ IH]; intros gs Hinv; [eauto|].
  destruct (par_step gs s s1 Hinv Hs) as (gs1 & Hinv1 & _). eauto.
Qed.

(** While a worker does not drain, a unit can be handed over to it. *)
Lemma hand_over_possible i u k wk g n : k_workers k !! i = Some wk → work_holds n wk g → m_is_draining wk = false →
  ∃ k', hand_over i u k = Ok (tt, k').
Proof using.
  intros Hi (ql & Hql & Hq & Hb) Hd. assert (wp (hand_over i u) (λ _ _, True) k) as Hw.
  { rewrite /hand_over. wp_steps. eapply wp_get_worker; [exact Hi|].
    destruct (wp_run _ _ _ (Mpsc.try_enqueue_spec CAP cap_ok u _ ql Hq ltac:(lia))) as (b & q' & Hrun & _).
    rewrite Hrun. destruct b; [by rewrite /put_worker; wp_steps|]. rewrite Hd. by eapply wp_push_local. }
  destruct (wp_run _ _ _ Hw) as ([] & k' & Hrun & _). eauto.
Qed.

(** Until the phase is finished somebody can go on. *)
Lemma par_progress gs s : par_inv gs s → finished s ∨ ∃ s', step T s s'.
Proof using Hclosed Huser.
  intros Hinv. destruct s as [k pcs ts]. destruct (decide (Forall (λ pc, weight pc = 0%nat) pcs)) as [Hall|Hno].
  - assert (∀ i pc, pcs !! i = Some pc → pc = PDone) as Hd.
    { intros i pc Hi. pose proof (Forall_lookup_1 _ _ _ _ Hall Hi) as Hw. by destruct pc. }
    destruct (decide (Forall (λ t : nat * option Z, t.2 = None) ts)) as [Hts|Hts].
    { left. split; [|done]. apply Forall_lookup. intros i pc Hi. symmetry. by eapply Hd. }
    apply not_Forall_Exists in Hts; [|apply _]. apply Exists_exists in Hts as ([i [u|]] & Hin & Hne); [|by destruct Hne].
    apply list_elem_of_lookup in Hin as [j Hj]. right.
    pose proof (Forall_lookup_1 _ _ _ _ (pi_ctx _ _ Hinv) Hj) as Hlt. simpl in Hlt.
    assert (length (k_workers k) = length pcs) as Hlen.
    { pose proof (f_equal length (pi_drain _ _ Hinv)) as E. by rewrite /= !length_fmap in E. }
    destruct (lookup_lt_is_Some_2 pcs i) as [pc Hi]; [lia|]. pose proof (Hd i pc Hi) as ->.
    destruct (par_worker _ _ _ _ Hinv Hi) as (wk & g & Hwk & Hg & Hdr & Hwh).
    destruct (hand_over_possible i u k wk g _ Hwk Hwh Hdr) as [k' E]. eexists. by eapply thread_hands.
  - right. apply not_Forall_Exists in Hno; [|apply _]. apply Exists_exists in Hno as (pc & Hin & Hne).
    apply list_elem_of_lookup in Hin as [i Hi].
    assert (pc ≠ PDone) as Hpc by (intros ->; by apply Hne).
    destruct (wp_run _ _ _ (worker_step_spec gs k pcs ts i pc Hinv Hi Hpc)) as (pc' & k' & Hrun & _).
    eexists. by eapply worker_runs.
Qed.

Lemma par_ends gs s : par_inv gs s → inevitably (step T) (λ t, finished t ∧ ∃ gs', par_inv gs' t) s.
Proof using Hclosed Huser HT.
  intros Hinv. apply (inevitably_rank (step T) rank (λ t, ∃ gs', par_inv gs' t)); [|eauto].
  intros t [gs' Ht]. destruct (par_progress gs' t Ht) as [Hf|Hp]; [left; eauto|]. right. split; [done|].
  intros t' Hs. destruct (par_step gs' t t' Ht Hs) as (gs1 & ? & ?). eauto.
Qed.

(** The start of a phase satisfies the invariant. *)
Lemma par_launch gs k ctxs : wb = k_world k →
  marking w0 bl pm R [] gs k → Forall (eq false) (m_is_draining <$> k_workers k) →
  Forall (λ i, (i < length (k_workers k))%nat) ctxs → par_inv gs (launch k ctxs).
Proof using.
  intros Hwb Hm Hd Hctx. assert (∀ n, replicate n PStart ≫= scanning = []) as Hscan by (by induction n).
  assert (((λ i, (i, None)) <$> ctxs) ≫= carried = []) as Hcar by (clear Hctx; by induction ctxs).
  rewrite /launch. split; simpl.
  - by rewrite /in_flight /= Hscan Hcar.
  - by rewrite Hwb.
  - rewrite fmap_replicate /=. apply list_eq. intros i. rewrite list_lookup_fmap. destruct (k_workers k !! i) as [wk|] eqn:Hi; simpl.
    + rewrite lookup_replicate_2; [|by eapply lookup_lt_Some]. f_equal.
      rewrite Forall_fmap in Hd. symmetry. exact (Forall_lookup_1 _ _ _ _ Hd Hi).
    + symmetry. apply lookup_ge_None. rewrite length_replicate. by apply lookup_ge_None.
  - by apply Forall_fmap.
  - rewrite /room /= Hcar /=. apply Forall_fmap, Forall_lookup. intros i wk Hi.
    destruct (Forall2_lookup_l _ _ _ _ _ (mk_work _ _ _ _ _ _ _ Hm) Hi) as (g & _ & ql & _ & _ & Hb).
    rewrite /= /pos_of. lia.
  - by intros i u cs [? _]%lookup_replicate.
  - intros _ i pc wk [-> _]%lookup_replicate _ [?|[? _]]; done.
Qed.

(** At the end of a phase without other threads nothing is gray. *)
Lemma par_finished gs k pcs : par_inv gs (Par k pcs []) → finished (Par k pcs []) →
  marking w0 bl pm R [] (replicate (length gs) []) k.
Proof using.
  intros Hinv [Hf _]. simpl in Hf.
  assert (length (k_workers k) = length pcs) as Hlen.
  { pose proof (f_equal length (pi_drain _ _ Hinv)) as E. by rewrite /= !length_fmap in E. }
  pose proof (Forall2_length _ _ _ (mk_work _ _ _ _ _ _ _ (pi_mark _ _ Hinv))) as Hlg. simpl in Hlg.
  assert (gs = replicate (length gs) []) as <-.
  { apply list_eq. intros i. destruct (pcs !! i) as [pc|] eqn:Hi.
    - pose proof (Forall_lookup_1 _ _ _ _ Hf Hi) as <-.
      destruct (par_worker _ _ _ _ Hinv Hi) as (wk & g & Hwk & Hg & _).
      rewrite (pi_empty _ _ Hinv eq_refl i PDone wk Hi Hwk (or_introl eq_refl)).
      rewrite lookup_replicate_2 //. apply lookup_lt_Some in Hi. lia.
    - apply lookup_ge_None in Hi. rewrite !lookup_ge_None_2 ?length_replicate //; lia. }
  pose proof (pi_mark _ _ Hinv) as Hm. rewrite /in_flight /= in Hm.
  assert (pcs ≫= scanning = []) as E; [|by rewrite E in Hm].
  clear -Hf. induction Hf as [|pc pcs <- _ IH]; [done|exact IH].
Qed.
End parallel.
