(* ===== verification/Cycle.v ===== *)
(** * A collection: [GC::main_thread_job] of [src/src/woomem_gc.cpp] (lines 220-349)

    One iteration of the main loop after its wait: mark from the roots, mark again what the
    threads found meanwhile, sweep.  The two callbacks of the user are parameters: each is a sequence of
    marking calls, made by the main thread for roots or by threads for what they hold. *)

From S2P Require Import Prelude SizeClass Locks Chunk Blocks ChunkProof Heap PageUnit HeapInv.
From S2P Require Import Pools PoolProof Api ApiProof GrayQueue Sweep Collect Mark.
Open Scope Z_scope.

(** [m_gc_worker_threads] is split: the marking state of the workers here, their
    sweeping state in [y_gc]. *)
Record Cy := MkCy {
  y_gc : Gc;
  y_workers : list MarkWorker;
  y_assigned : Z;              (* [m_gc_assigned_thread_idx] *)
  y_state_flag : bool;         (* [woomem_gc_marking_state_flag] *)
  y_roots : gset Z;            (* [m_root_gc_unit_set] *)
  y_force_trigger : bool;      (* [m_force_trigger_gc] *)
  y_new_allocated : Z;         (* [m_new_allocated_size_since_last_gc] *)
  y_cycles : Z;                (* [m_gc_cycle_count] *)
}.

Abbreviation YM := (M Cy).
Abbreviation Wy y := (c_world (s_ctx (g_sw (y_gc y)))).

Definition set_gc (x : Gc) (y : Cy) : Cy :=
  MkCy x (y_workers y) (y_assigned y) (y_state_flag y) (y_roots y) (y_force_trigger y)
    (y_new_allocated y) (y_cycles y).
Definition set_flag (b : bool) (y : Cy) : Cy :=
  MkCy (y_gc y) (y_workers y) (y_assigned y) b (y_roots y) (y_force_trigger y)
    (y_new_allocated y) (y_cycles y).
Definition start_round (y : Cy) : Cy :=
  let x := y_gc y in
  let s := g_sw x in
  set_flag true (set_gc (set_sw (MkSw (s_ctx s) (u8 (s_round s + 1)) (s_alive s) (s_freed s)) x) y).
Definition reset_trigger (y : Cy) : Cy :=
  MkCy (y_gc y) (y_workers y) (y_assigned y) (y_state_flag y) (y_roots y) false 0 (y_cycles y).
Definition count_cycle (y : Cy) : Cy :=
  MkCy (y_gc y) (y_workers y) (y_assigned y) (y_state_flag y) (y_roots y) (y_force_trigger y)
    (y_new_allocated y) (u64 (y_cycles y + 1)).

(** The marking state of a collection. *)
Definition mark_of (y : Cy) : Mk := MkMk (Wy y) (y_workers y) (y_assigned y) (y_state_flag y).
Definition set_mark (k : Mk) (y : Cy) : Cy :=
  let x := y_gc y in
  let s := g_sw x in
  MkCy (set_sw (set_sctx (set_world (k_world k) (s_ctx s)) s) x) (k_workers k) (k_assigned k)
    (k_state_flag k) (y_roots y) (y_force_trigger y) (y_new_allocated y) (y_cycles y).

Definition on_mark {A} (m : KM A) : YM A := λ y,
  match m (mark_of y) with
  | Ok (a, k) => Ok (a, set_mark k y)
  | Fail e => Fail e
  end.
Definition on_gc {A} (m : GM A) : YM A := λ y,
  match m (y_gc y) with
  | Ok (a, x) => Ok (a, set_gc x y)
  | Fail e => Fail e
  end.

(** ** When a collection starts *)

Definition GC_TRIGGER_NEW_ALLOC_RATIO_NUM : Z := 1.
Definition GC_TRIGGER_NEW_ALLOC_RATIO_DEN : Z := 3.
Definition GC_TRIGGER_MIN_EDGE : Z := 1024 * 1024.

(** Whether the wait of step 0 ends; [late]: ten seconds have passed. *)
Definition wait_ends (late : bool) (y : Cy) : bool :=
  late || y_force_trigger y ||
  (u64 (Z.max GC_TRIGGER_MIN_EDGE (g_memory_size_after_sweep (y_gc y)) * GC_TRIGGER_NEW_ALLOC_RATIO_NUM) <=?
   u64 (y_new_allocated y * GC_TRIGGER_NEW_ALLOC_RATIO_DEN)).

(** ** The collection *)

Class UserGc := {
  at_begin : list (Marker * MarkCall);   (* [m_gc_callback_at_begin] *)
  at_stop : list (Marker * MarkCall);    (* [m_gc_callback_at_stop_marking] *)
}.

Fixpoint user_calls `{Build} (cs : list (Marker * MarkCall)) : KM unit :=
  match cs with
  | [] => mret tt
  | c :: cs' => mark_call c.1 c.2 ;; user_calls cs'
  end.

(** The loop over the registered roots, in the order of the set's elements. *)
Fixpoint mark_roots `{Build} (rs : list Z) : KM unit :=
  match rs with
  | [] => mret tt
  | r :: rs' => mark_root_unit_to_gray r ;; mark_roots rs'
  end.

(** [launch_worker_and_wait_until_done] in a marking state. *)
Definition launch_marking `{Build} `{Payload} `{UserMark} : KM unit :=
  n ← gets (λ k, length (k_workers k)); workers_mark (seq 0 n).

(** Steps 2 to 5. *)
Definition mark_phase `{Build} `{Payload} `{UserMark} `{UserGc} (roots : gset Z) : KM unit :=
  user_calls at_begin ;;
  mark_roots (elements roots) ;;
  launch_marking ;;
  modify (set_state_flag false) ;;
  user_calls at_stop ;;
  launch_marking.

(** Up to the end of marking, and from there to the end of the collection. *)
Definition gc_mark `{Build} `{Payload} `{UserMark} `{UserGc} : YM unit :=
  modify reset_trigger ;;
  modify start_round ;;
  roots ← gets y_roots;
  on_mark (mark_phase roots).

Definition gc_sweep `{Build} : YM unit :=
  on_gc sweep_phase ;;
  modify count_cycle.

Definition gc_cycle `{Build} `{Payload} `{UserMark} `{UserGc} : YM unit := gc_mark ;; gc_sweep.
