(* ===== verification/CycleProof.v ===== *)
(** * A collection: specifications

    From the calls of the callbacks and the registered roots through both marking phases to
    the sweep: the units reachable from what was marked are the marked ones. *)

From S2P Require Import Prelude SizeClass Locks Chunk Blocks ChunkProof Heap PageUnit HeapInv.
From S2P Require Import Pools PoolProof Api ApiProof GrayQueue Sweep SweepProof SweepPage.
From S2P Require Import Collect CollectProof Mark MarkProof Cycle.
Open Scope Z_scope.

Section roots.
Context `{Build} `{Payload} `{UserMark}.
Context (w0 : World) (bl : list block) (pm : gmap Z pkind) (R : Z → Prop).

(** Progress of marking, whoever marks. *)
Abbreviation marks := (mark_post w0 bl pm R [] AsRoot).

Lemma marks_any m gs k T k' : mark_post w0 bl pm R [] m gs k T k' → marks gs k T k'.
Proof using. intros (gs' & ? & _ & ?). by exists gs'. Qed.

Lemma user_calls_spec cs : ∀ gs k,
  marking w0 bl pm R [] gs k → Forall (λ c, marker_ok c.1 k ∧ call_ok pm w0 c.2) cs →
  (∀ c v, c ∈ cs → call_target pm w0 c.2 v → R v) →
  wp (user_calls cs) (λ _ k', marks gs k (λ v, ∃ c, c ∈ cs ∧ call_target pm w0 c.2 v) k') k.
Proof using.
  induction cs as [|c cs IH]; intros gs k Hinv Hok HR; cbn [user_calls]; wp_steps.
  { apply mark_post_same; [done|]. by intros v (c & ?%elem_of_nil & _). }
  apply Forall_cons in Hok as [[Hm Hc] Hoks].
  eapply wp_mono; [eapply (mark_call_spec w0 bl pm R c.1 [] gs k c.2); try done|].
  { intros v. apply HR. constructor. }
  intros [] k1 Hpost%marks_any. pose proof Hpost as (_ & _ & _ & _ & Hkf & _).
  eapply wp_mono; [eapply mark_post_trans; [exact Hpost|]|].
  - intros gs1 Hinv1. apply IH; [done| |].
    + eapply Forall_impl; [exact Hoks|]. intros c' [? ?]. split; [by eapply kept_flags_marker|done].
    + intros c' v Hc'. apply HR. by constructor.
  - intros [] k'. apply mark_post_impl. intros v (c' & [->|Hc']%elem_of_cons & Hv); eauto.
Qed.

(** A registered root may still be pending; then it is passed over. *)
Lemma mark_root_spec gs k r s :
  marking w0 bl pm R [] gs k → marker_ok AsRoot k → is_unit pm r s → (visible w0 r = true → R r) →
  wp (mark_root_unit_to_gray r) (λ _ k', marks gs k (λ v, v = r ∧ visible w0 v = true) k') k.
Proof using.
  intros Hinv Hm Hunit HR. destruct (visible w0 r) eqn:Hv.
  - eapply wp_mono; [apply (mark_by_spec w0 bl pm R AsRoot [] gs k r s); auto|].
    intros [] k'. apply mark_post_impl. by intros v [-> _].
  - destruct (unit_header _ _ _ (mk_heap _ _ _ _ _ _ _ Hinv) r s Hunit) as [h Hh].
    assert (is_white (m_life h) = false) as Hw.
    { rewrite -(darkened_visible _ _ _ (mk_dark _ _ _ _ _ _ _ Hinv)) /visible Hh in Hv.
      by destruct (m_life h). }
    rewrite /mark_root_unit_to_gray. wp_steps. eapply claim_unit_spec; [exact Hh|]. rewrite Hw. wp_steps.
    apply mark_post_same; [done|]. intros v [-> ?]. congruence.
Qed.

Lemma mark_roots_spec rs : ∀ gs k,
  marking w0 bl pm R [] gs k → marker_ok AsRoot k → (∀ r, r ∈ rs → ∃ s, is_unit pm r s) →
  (∀ r, r ∈ rs → visible w0 r = true → R r) →
  wp (mark_roots rs) (λ _ k', marks gs k (λ v, v ∈ rs ∧ visible w0 v = true) k') k.
Proof using.
  induction rs as [|r rs IH]; intros gs k Hinv Hm Hu HR; cbn [mark_roots]; wp_steps.
  { apply mark_post_same; [done|]. by intros v [?%elem_of_nil _]. }
  destruct (Hu r) as [s Hs]; [constructor|].
  eapply wp_mono; [apply (mark_root_spec gs k r s); try done; apply HR; constructor|].
  intros [] k1 Hpost. pose proof Hpost as (_ & _ & _ & _ & Hkf & _).
  eapply wp_mono; [eapply mark_post_trans; [exact Hpost|]|].
  - intros gs1 Hinv1. apply IH; [done|by eapply kept_flags_marker| |].
    + intros r' Hr'. apply Hu. by constructor.
    + intros r' Hr'. apply HR. by constructor.
  - intros [] k'. apply mark_post_impl. intros v [[->|Hv]%elem_of_cons Hvis]; auto.
Qed.

Lemma kept_flags_idle k k' : kept_flags k k' → idle k → idle k'.
Proof using. intros [Hd _]. by rewrite /idle Hd. Qed.
End roots.

(** ** Marking as a whole *)

Section marking_phase.
Context `{Build} `{Payload} `{UserMark} `{UserGc}.

(** What marking starts from: registered roots that are published, and what the
    callbacks name. *)
Definition is_root (pm : gmap Z pkind) (w : World) (roots : gset Z) (v : Z) : Prop :=
  (v ∈ roots ∧ visible w v = true) ∨ ∃ c, c ∈ at_begin ++ at_stop ∧ call_target pm w c.2 v.

Definition reachable_unit (pm : gmap Z pkind) (w : World) (roots : gset Z) (v : Z) : Prop :=
  ∃ r, is_root pm w roots r ∧ rtc (edge pm w) r v.

(** The obligations of the callbacks. *)
Definition callbacks_ok (pm : gmap Z pkind) (w : World) (n : nat) : Prop :=
  user_ok pm w ∧
  Forall (λ c, call_ok pm w c.2 ∧ match c.1 with AsRoot => True | ByThread i => (i < n)%nat | ByWorker _ => False end) at_begin ∧
  Forall (λ c, call_ok pm w c.2 ∧ match c.1 with ByThread i => (i < n)%nat | _ => False end) at_stop.

Lemma marker_thread_ok i k : idle k → (i < length (k_workers k))%nat → marker_ok (ByThread i) k.
Proof using.
  intros Hid Hi. destruct (lookup_lt_is_Some_2 _ _ Hi) as [wk Hwk]. exists wk. split; [done|].
  rewrite /idle Forall_forall in Hid. symmetry. apply Hid, list_elem_of_fmap. exists wk. split; [done|].
  by eapply list_elem_of_lookup_2.
Qed.

Lemma mark_phase_spec w0 bl pm (roots : gset Z) k :
  let R := reachable_unit pm w0 roots in
  let n := length (k_workers k) in
  marking w0 bl pm R [] (replicate n []) k → idle k → k_state_flag k = true → (0 < n)%nat →
  callbacks_ok pm w0 n → (∀ r, r ∈ roots → ∃ s, is_unit pm r s) →
  wp (mark_phase roots) (λ _ k', marking w0 bl pm R [] (replicate n []) k' ∧ idle k' ∧
    k_state_flag k' = false ∧ length (k_workers k') = n ∧
    ∀ v, R v → life_of (k_world k') v = Some FULL_MARKED) k.
Proof using.
  intros R n Hinv Hid Hfl Hn (Huser & Hbeg & Hstop) Hroots.
  assert (∀ u v, R u → edge pm w0 u v → R v) as Hclosed.
  { intros u v (r & Hr & Hrtc) He. exists r. split; [done|]. by eapply rtc_r. }
  assert (∀ v, is_root pm w0 roots v → R v) as Hroot by (intros v Hv; exists v; split; [done|apply rtc_refl]).
  assert (∀ gs k', marking w0 bl pm R [] gs k' → length gs = n → length (k_workers k') = n) as Hlk.
  { intros gs k' Hi' Hl'. by rewrite (Forall2_length _ _ _ (mk_work _ _ _ _ _ _ _ Hi')). }
  rewrite /mark_phase /launch_marking. wp_steps.
  eapply wp_mono; [apply (user_calls_spec w0 bl pm R at_begin); [done| |]|].
  { eapply Forall_impl; [exact Hbeg|]. intros [m c] [Hc Hm]. split; [|done]. destruct m as [|i|i]; simpl in *.
    - split; [done|]. intros E. rewrite /n E /= in Hn. lia.
    - by apply marker_thread_ok.
    - done. }
  { intros c v Hc Hv. apply Hroot. right. exists c. split; [|done]. apply elem_of_app. auto. }
  intros [] k1 (gs1 & Hinv1 & _ & Hl1 & Hkf1 & Hdk1 & HT1). rewrite length_replicate in Hl1.
  assert (k_workers k1 ≠ []) as Hne1 by (intros E; pose proof (Hlk _ _ Hinv1 Hl1) as El; rewrite E /= in El; lia).
  wp_steps. eapply wp_mono; [apply (mark_roots_spec w0 bl pm R (elements roots) gs1 k1); [done| | |]|].
  { split; [|done]. destruct Hkf1. congruence. }
  { intros r Hr%elem_of_elements. by apply Hroots. }
  { intros r Hr%elem_of_elements Hv. apply Hroot. by left. }
  intros [] k2 (gs2 & Hinv2 & _ & Hl2 & Hkf2 & Hdk2 & HT2). wp_steps.
  assert (idle k2) as Hid2 by (eapply kept_flags_idle; [exact Hkf2|]; by eapply kept_flags_idle).
  eapply wp_mono; [by apply (all_workers_mark w0 bl pm R Hclosed Huser gs2 k2)|].
  intros [] k3 (Hinv3 & Hid3 & Hf3 & Hdk3). rewrite Hl2 Hl1 in Hinv3. wp_steps.
  set (k4 := set_state_flag false k3).
  assert (marking w0 bl pm R [] (replicate n []) k4) as Hinv4 by (destruct Hinv3; by split).
  assert (length (k_workers k4) = n) as Hl4 by (eapply Hlk; [done|apply length_replicate]).
  eapply wp_mono; [apply (user_calls_spec w0 bl pm R at_stop _ k4 Hinv4)|].
  { eapply Forall_impl; [exact Hstop|]. intros [m c] [Hc Hm]. split; [|done]. destruct m as [|i|i]; try done.
    apply marker_thread_ok; [done|]. simpl in Hm. lia. }
  { intros c v Hc Hv. apply Hroot. right. exists c. split; [|done]. apply elem_of_app. auto. }
  intros [] k5 (gs5 & Hinv5 & _ & Hl5 & Hkf5 & Hdk5 & HT5). rewrite length_replicate in Hl5. wp_steps.
  eapply wp_mono; [apply (all_workers_mark w0 bl pm R Hclosed Huser gs5 k5); [done|by eapply kept_flags_idle]|].
  intros [] k6 (Hinv6 & Hid6 & Hf6 & Hdk6). rewrite Hl5 in Hinv6. split_and!; try done.
  - rewrite Hf6. by destruct Hkf5 as [_ ->].
  - eapply Hlk; [done|apply length_replicate].
  - intros v (r & Hr & Hrtc). eapply (marking_complete w0 bl pm R n k6 r v); try done.
    assert (darkened (k_world k2) (k_world k6)) as D26 by (etrans; [exact Hdk3|]; by etrans).
    destruct Hr as [[Hr Hv]|(c & [Hc|Hc]%elem_of_app & Hv)].
    + eapply darkened_marked; [exact D26|]. apply HT2. split; [by apply elem_of_elements|done].
    + eapply (darkened_marked (k_world k1)); [by etrans|]. apply HT1. eauto.
    + eapply darkened_marked; [exact Hdk6|]. apply HT5. eauto.
Qed.
End marking_phase.

(** ** The whole collection *)

(** A worker between two collections; [n] units can still go through its queue. *)
Definition worker_ready (n : nat) (wk : MarkWorker) : Prop :=
  m_local_work wk = [] ∧ m_is_draining wk = false ∧ Mpsc.holds CAP (m_gray_queue wk) [] ∧
  Mpsc.m_enqueue_pos (m_gray_queue wk) + Z.of_nat n + 1 + CAP < 2 ^ 64.

(** Between two collections no unit is marked. *)
Definition resting (w : World) : Prop := ∀ u, ¬ marked_unit w u.

Lemma ctx_inv_units c pm bl w1 :
  ctx_inv c pm → caches_ready c → heap_inv w1 bl pm → w_chunk w1 = w_chunk (c_world c) →
  w_allocs w1 = w_allocs (c_world c) → w_all_page_list w1 = w_all_page_list (c_world c) →
  ctx_inv (set_world w1 c) pm ∧ caches_ready (set_world w1 c).
Proof.
  intros (_ & Hch & Hpool) Hrd Hinv Hc Ha Hl.
  assert (∀ p, flags w1 p = flags (c_world c) p) as Hf by (intros p; by rewrite /flags Ha).
  split; [split_and!; [by exists bl| |]|].
  - destruct Hch as (l & Hch & ?). exists l. simpl. by rewrite Hc Hl.
  - apply pool_inv_flags; [done|]. intros p. by rewrite Hf.
  - apply caches_ready_flags; [done|]. intros t g. by rewrite Hf.
Qed.

Section cycle.
Context `{Build} `{Payload} `{UserMark} `{UserGc}.

Lemma marking_start w bl pm R ws a f :
  heap_inv w bl pm → resting w → Forall (worker_ready (size (w_units w))) ws →
  marking w bl pm R [] (replicate (length ws) []) (MkMk w ws a f) ∧ idle (MkMk w ws a f).
Proof using.
  intros Hinv Hrest Hws. split.
  - split; simpl; rewrite ?concat_nils; try done.
    + apply Forall2_same_length_lookup_2; [by rewrite length_replicate|].
      intros i wk g Hi [-> _]%lookup_replicate_1. rewrite Forall_lookup in Hws.
      destruct (Hws i wk Hi) as (Hl & _ & Hq & Hb). exists []. rewrite Hl. split_and!; try done.
      pose proof (count_life_le is_white w). lia.
    + intros u. split; [intros Hu; destruct (Hrest u); by left|by intros ?%elem_of_nil].
    + constructor.
    + intros u v Hu. destruct (Hrest u). by right.
    + intros u Hu. by destruct (Hrest u).
  - rewrite /idle /= Forall_fmap. eapply Forall_impl; [exact Hws|]. intros wk (_ & Hd & _). by rewrite /= Hd.
Qed.

(** What marking has done to the header of a unit. *)
Lemma marked_header w0 bl pm R n k u h :
  marking w0 bl pm R [] (replicate n []) k → resting w0 → w_units w0 !! u = Some h →
  (life_of (k_world k) u = Some FULL_MARKED → w_units (k_world k) !! u = Some (set_life FULL_MARKED h)) ∧
  (¬ R u → w_units (k_world k) !! u = Some h).
Proof using.
  intros Hinv Hrest Hu. pose proof (mk_dark _ _ _ _ _ _ _ Hinv u) as Hd. rewrite Hu in Hd.
  destruct (w_units (k_world k) !! u) as [h1|] eqn:Hu1; [|done]. destruct Hd as [E Hd]. split.
  - rewrite /life_of Hu1 /=. intros [= Hl]. by rewrite E Hl.
  - intros HR. assert (m_life h1 = m_life h) as El.
    { destruct Hd as [?|[[_ Hd]|[Hd _]]]; [done| |].
      - destruct HR. apply (mk_reach _ _ _ _ _ _ _ Hinv). rewrite /marked_unit /life_of Hu1 /=. destruct Hd as [->| ->]; auto.
      - destruct (Hrest u). left. by rewrite /life_of Hu /= Hd. }
    rewrite E El. by destruct h.
Qed.

Lemma kept_set_life l h : kept (set_life l h) = kept h.
Proof using. rewrite /kept. destruct h. simpl. by case_match. Qed.

Lemma phase_done_resting pm l x x' pm' :
  ctx_inv (s_ctx (g_sw x)) pm → phase_done pm l x x' pm' → all_scanned (W (g_sw x)) pm →
  (∀ u, marked_unit (W (g_sw x)) u → ∃ sz, is_unit pm u sz) → resting (W (g_sw x')).
Proof using.
  intros ((bl & Hinv) & _) [_ _ _ Hf Hun _ _ _] Hsc Hm u Hu.
  destruct (decide (∃ sz, is_unit pm u sz)) as [(sz & Hunit)|Hno].
  - destruct (unit_header _ _ _ Hinv u sz Hunit) as [h Hh]. pose proof Hunit as (p & k & Hp & Hin).
    destruct (Hf p k Hp u sz h Hin Hh) as [(h' & Hh' & Hfate) _].
    rewrite /marked_unit /life_of Hh' /= in Hu. destruct (survives (s_round (g_sw x)) h) eqn:E.
    + rewrite (survives_fate _ _ _ E Hfate) in Hu. case_bool_decide as Ep; [rewrite Ep in Hu; naive_solver|].
      destruct (kept_alive h) as [Hk _]. rewrite Hk in Hu. naive_solver.
    + rewrite (doomed_fate _ _ _ E Hfate) in Hu. naive_solver.
  - apply Hno, Hm. revert Hu. rewrite /marked_unit /life_of Hun //. naive_solver.
Qed.

Definition idle_worker (wk : MarkWorker) : Prop :=
  m_local_work wk = [] ∧ m_is_draining wk = false ∧ Mpsc.holds CAP (m_gray_queue wk) [].

(** Between marking and sweeping: what is reachable is black, everything else is as it was. *)
Record mark_done (pm : gmap Z pkind) (y y' : Cy) : Prop := {
  md_ctx : ctx_inv (s_ctx (g_sw (y_gc y'))) pm;
  md_ready : caches_ready (s_ctx (g_sw (y_gc y')));
  md_workers : length (y_workers y') = length (y_workers y) ∧ Forall idle_worker (y_workers y');
  md_sweepers : g_workers (y_gc y') = g_workers (y_gc y);
  md_list : w_all_page_list (Wy y') = w_all_page_list (Wy y);
  md_round : s_round (g_sw (y_gc y')) = u8 (s_round (g_sw (y_gc y)) + 1);
  md_dark : darkened (Wy y) (Wy y');
  md_scanned : ∀ u, life_of (Wy y') u ≠ Some SELF_MARKED;
  md_units : ∀ u, marked_unit (Wy y') u → ∃ sz, is_unit pm u sz;
  md_header : ∀ u h, w_units (Wy y) !! u = Some h →
    (reachable_unit pm (Wy y) (y_roots y) u → w_units (Wy y') !! u = Some (set_life FULL_MARKED h)) ∧
    (¬ reachable_unit pm (Wy y) (y_roots y) u → w_units (Wy y') !! u = Some h);
}.

Lemma gc_mark_spec y pm :
  let n := length (y_workers y) in
  ctx_inv (s_ctx (g_sw (y_gc y))) pm → caches_ready (s_ctx (g_sw (y_gc y))) → resting (Wy y) →
  Forall (worker_ready (size (w_units (Wy y)))) (y_workers y) → (0 < n)%nat →
  callbacks_ok pm (Wy y) n → (∀ r, r ∈ y_roots y → ∃ s, is_unit pm r s) →
  wp gc_mark (λ _ y', mark_done pm y y') y.
Proof using.
  intros n Hctx Hrd Hrest Hws Hn Hcb Hroots. pose proof Hctx as ((bl & Hinv) & _).
  destruct (marking_start _ _ _ (reachable_unit pm (Wy y) (y_roots y)) _ (y_assigned y) true Hinv Hrest Hws) as [Hmk Hid].
  rewrite /gc_mark. wp_steps. rewrite {1}/wp /on_mark.
  change (mark_of (start_round (reset_trigger y))) with (MkMk (Wy y) (y_workers y) (y_assigned y) true).
  change (y_roots (start_round (reset_trigger y))) with (y_roots y).
  destruct (wp_run _ _ _ (mark_phase_spec (Wy y) bl pm (y_roots y)
    (MkMk (Wy y) (y_workers y) (y_assigned y) true) Hmk Hid eq_refl Hn Hcb Hroots))
    as ([] & k & Hrun & Hmk1 & Hid1 & _ & Hl1 & Hblack). rewrite Hrun. simpl in Hmk1, Hl1.
  destruct (ctx_inv_units _ pm bl (k_world k) Hctx Hrd) as [Hctx1 Hrd1]; try apply Hmk1.
  split; simpl; try done; try apply Hmk1.
  - split; [done|]. apply Forall_lookup. intros i wk Hi. pose proof (mk_work _ _ _ _ _ _ _ Hmk1) as Hw.
    destruct (Forall2_lookup_l _ _ _ _ _ Hw Hi) as (g & [-> _]%lookup_replicate_1 & ql & Hp & Hq & _).
    apply Permutation_nil, app_eq_nil in Hp as [Hlw ->]. split_and!; try done.
    rewrite /idle Forall_fmap Forall_lookup in Hid1. symmetry. by eapply Hid1.
  - intros u Hu%(mk_gray _ _ _ _ _ _ _ Hmk1). simpl in Hu. rewrite concat_nils in Hu. by apply elem_of_nil in Hu.
  - intros u h Hh. destruct (marked_header _ _ _ _ _ _ u h Hmk1 Hrest Hh) as [Hfull Hsame].
    split; [|done]. intros Hr. by apply Hfull, Hblack.
Qed.

Lemma wp_on_gc {A} (m : GM A) (Q : A → Cy → Prop) y :
  wp m (λ a x, Q a (set_gc x y)) (y_gc y) → wp (on_gc m) Q y.
Proof using. rewrite /wp /on_gc. by destruct (m (y_gc y)) as [[a x]|]. Qed.

(** The second half, on a heap that need not be the one that marking left. *)
Lemma gc_sweep_spec y pm :
  ctx_inv (s_ctx (g_sw (y_gc y))) pm → caches_ready (s_ctx (g_sw (y_gc y))) →
  (∀ u, life_of (Wy y) u ≠ Some SELF_MARKED) → (0 < length (g_workers (y_gc y)))%nat →
  lists_fresh (Wy y) (g_workers (y_gc y)) →
  wp gc_sweep (λ _ y', ∃ pm' l x', y' = count_cycle (set_gc x' y) ∧ phase_done pm l (y_gc y) x' pm') y.
Proof using.
  intros Hctx Hrd Hno Hn Hfresh. pose proof Hctx as (_ & (l & Hch & _) & _).
  assert (all_scanned (Wy y) pm) as Hsc.
  { intros u sz h _ Hh Hl. apply (Hno u). by rewrite /life_of Hh /= Hl. }
  rewrite /gc_sweep. wp_steps. apply wp_on_gc.
  eapply wp_mono; [by apply (sweep_phase_spec (y_gc y) pm l)|]. intros [] x' (pm' & D). wp_steps. by exists pm', l, x'.
Qed.

Record cycle_done (pm : gmap Z pkind) (y y' : Cy) (pm' : gmap Z pkind) : Prop := {
  cd_ctx : ctx_inv (s_ctx (g_sw (y_gc y'))) pm';
  cd_ready : caches_ready (s_ctx (g_sw (y_gc y')));
  cd_pm : pm' ⊆ pm;
  cd_rest : resting (Wy y');
  cd_workers : length (y_workers y') = length (y_workers y) ∧
    Forall idle_worker (y_workers y');
  cd_unit : ∀ u sz h, is_unit pm u sz → w_units (Wy y) !! u = Some h →
    (reachable_unit pm (Wy y) (y_roots y) u →
       is_unit pm' u sz ∧ w_units (Wy y') !! u = Some (kept h)) ∧
    (¬ reachable_unit pm (Wy y) (y_roots y) u →
       if survives (u8 (s_round (g_sw (y_gc y)) + 1)) h then
         is_unit pm' u sz ∧ w_units (Wy y') !! u =
           Some (if bool_decide (m_life h = PENDING) then h else kept h)
       else ¬ in_use pm' (Wy y') u);
}.

(** Sweeping publishes no unit, and a page that goes has no visible unit. *)
Lemma phase_done_visible pm l x x' pm' u :
  ctx_inv (s_ctx (g_sw x)) pm → phase_done pm l x x' pm' → visible (W (g_sw x')) u = true →
  visible (W (g_sw x)) u = true ∧ ∀ sz, is_unit pm u sz → is_unit pm' u sz.
Proof.
  intros Hctx D Hv. destruct (decide (∃ sz, is_unit pm u sz)) as [(sz & Hunit)|Hno].
  - pose proof Hctx as ((bl & Hinv) & _). destruct (unit_header _ _ _ Hinv u sz Hunit) as [h Hh].
    pose proof Hunit as (p & k & Hp & Hin). destruct (ph_fate _ _ _ _ _ D p k Hp u sz h Hin Hh) as [(h' & Hh' & Hfate) Hpage].
    destruct (survives (s_round (g_sw x)) h) eqn:E; last first.
    { by rewrite /visible Hh' (doomed_fate _ _ _ E Hfate) in Hv. }
    destruct Hpage as [Hp'|[_ ?]]; [|congruence]. split.
    + move: Hv. rewrite /visible Hh Hh' (survives_fate _ _ _ E Hfate). case_bool_decide as Ep; [done|].
      rewrite /survives in E. by destruct (m_life h).
    + intros sz' (p2 & k2 & Hp2 & Hin2). exists p2, k2. split; [|done].
      destruct (ph_fate _ _ _ _ _ D p2 k2 Hp2 u sz' h Hin2 Hh) as [_ [?|[_ ?]]]; [done|congruence].
  - split; [|intros sz Hsz; destruct Hno; by exists sz]. move: Hv. rewrite /visible (ph_units _ _ _ _ _ D) //.
    intros sz Hsz. apply Hno. by exists sz.
Qed.

Lemma gc_cycle_spec y pm :
  let n := length (y_workers y) in
  ctx_inv (s_ctx (g_sw (y_gc y))) pm → caches_ready (s_ctx (g_sw (y_gc y))) → resting (Wy y) →
  Forall (worker_ready (size (w_units (Wy y)))) (y_workers y) → (0 < n)%nat →
  length (g_workers (y_gc y)) = n → lists_fresh (Wy y) (g_workers (y_gc y)) →
  callbacks_ok pm (Wy y) n → (∀ r, r ∈ y_roots y → ∃ s, is_unit pm r s) →
  wp gc_cycle (λ _ y', ∃ pm', cycle_done pm y y' pm') y.
Proof using.
  intros n Hctx Hrd Hrest Hws Hn Hlen Hfresh Hcb Hroots. rewrite /gc_cycle. wp_steps.
  eapply wp_mono; [by apply (gc_mark_spec y pm)|]. intros [] y1 [Hc1 Hrd1 Hw1 Hsw1 Hl1 Hr1 _ Hno Hun Hh1].
  eapply wp_mono; [apply (gc_sweep_spec y1 pm); [done..|rewrite Hsw1; lia|by rewrite /lists_fresh Hl1 Hsw1]|].
  intros [] y' (pm' & l & x' & -> & D). exists pm'. pose proof D as [Dc Dr Ds _ _ _ _ _]. split; simpl; try done.
  - apply (phase_done_resting pm l (y_gc y1) x' pm' Hc1 D); [|done].
    intros u sz h _ Hh Hl. apply (Hno u). by rewrite /life_of Hh /= Hl.
  - intros u sz h Hunit Hh. destruct (Hh1 u h Hh) as [Hfull Hsame]. split; intros Hr.
    + pose proof (phase_done_unit pm l (y_gc y1) x' pm' u sz _ Hc1 D Hunit (Hfull Hr)) as Hdone. simpl in Hdone.
      by rewrite kept_set_life in Hdone.
    + pose proof (phase_done_unit pm l (y_gc y1) x' pm' u sz _ Hc1 D Hunit (Hsame Hr)) as Hdone. by rewrite Hr1 in Hdone.
Qed.
End cycle.
