(* ===== verification/Frames.v ===== *)
(** * What the operations leave as it was

    Two facts that no operation's specification carries and that the composition of the operations
    needs: allocation publishes and marks nothing, and a collection does not touch the collections of the threads.  Both
    are shown of the code by going through it, as preorders that every access respects. *)

From S2P Require Import Prelude SizeClass Locks Chunk Heap PageUnit HeapInv Pools PoolProof Api ApiProof.
From S2P Require Import GrayQueue Sweep Collect Mark MarkProof Cycle.
Open Scope Z_scope.

(** A relation on a part of the state. *)
Definition under {S T} (f : S → T) (R : relation T) : relation S := λ s s', R (f s) (f s').

#[export] Instance under_preorder {S T} (f : S → T) (R : relation T) `{!PreOrder R} : PreOrder (under f R).
Proof. split; [by intros s; rewrite /under|]. intros s1 s2 s3. rewrite /under. apply transitivity. Qed.

#[export] Hint Extern 1 (under _ _ _ _) => unfold under; simpl; reflexivity : frames.

(** ** Parts *)

Lemma respects_on_world {A} (R : relation World) (m : WM A) : respects R m → respects (under c_world R) (on_world m).
Proof.
  intros Hm c a c'. rewrite /on_world. destruct (m (c_world c)) as [[? w]|] eqn:E; [|done]. intros [= <- <-]. by eapply Hm.
Qed.

Lemma respects_on_ctx {A} (R : relation Ctx) (m : XM A) : respects R m → respects (under r_ctx R) (on_ctx m).
Proof.
  intros Hm c a c'. rewrite /on_ctx. destruct (m (r_ctx c)) as [[? w]|] eqn:E; [|done]. intros [= <- <-]. by eapply Hm.
Qed.

Lemma respects_on_sctx {A} (R : relation Ctx) (m : XM A) : respects R m → respects (under s_ctx R) (on_sctx m).
Proof.
  intros Hm c a c'. rewrite /on_sctx. destruct (m (s_ctx c)) as [[? w]|] eqn:E; [|done]. intros [= <- <-]. by eapply Hm.
Qed.

Lemma respects_on_sw {A} (R : relation Sw) (m : SM A) : respects R m → respects (under g_sw R) (on_sw m).
Proof.
  intros Hm c a c'. rewrite /on_sw. destruct (m (g_sw c)) as [[? w]|] eqn:E; [|done]. intros [= <- <-]. by eapply Hm.
Qed.

Lemma respects_on_gc {A} (R : relation Gc) (m : GM A) : respects R m → respects (under y_gc R) (on_gc m).
Proof.
  intros Hm c a c'. rewrite /on_gc. destruct (m (y_gc c)) as [[? w]|] eqn:E; [|done]. intros [= <- <-]. by eapply Hm.
Qed.

(** ** Allocation publishes and marks nothing *)

(** A life beyond [PENDING] is found only where it was before. *)
Definition quiet_on (w w' : World) : Prop :=
  ∀ u l, life_value PENDING < life_value l → life_of w' u = Some l → life_of w u = Some l.

#[export] Instance quiet_on_preorder : PreOrder quiet_on.
Proof. split; [by intros w u|]. intros w1 w2 w3 H1 H2 u l Hl Hu. by apply H1, H2. Qed.

Lemma quiet_on_units w w' : w_units w' = w_units w → quiet_on w w'.
Proof. intros E u l. by rewrite /life_of E. Qed.

#[export] Hint Extern 1 (quiet_on _ _) => apply quiet_on_units; reflexivity : frames.

Lemma quiet_on_insert w u h :
  (life_value PENDING < life_value (m_life h) → life_of w u = Some (m_life h)) → quiet_on w (upd_units (<[u := h]>) w).
Proof. intros Hh v l. rewrite !life_store. case_decide as E; [|done]. intros Hl [= <-]. subst v. by apply Hh. Qed.

Lemma respects_on_chunk {A} (m : CM A) : respects quiet_on (on_chunk m).
Proof.
  intros w a w'. rewrite /on_chunk. destruct (m (w_chunk w)) as [[? c]|]; [|done]. intros [= <- <-]. by apply quiet_on_units.
Qed.

Lemma respects_store_alloc a f : respects quiet_on (store_alloc a f).
Proof. rewrite /store_alloc /load_alloc. frames. Qed.
Lemma respects_init_alloc page p : respects quiet_on (init_alloc page p).
Proof. rewrite /init_alloc /load_head. frames. Qed.
Lemma respects_load_alloc a : respects quiet_on (load_alloc a).
Proof. rewrite /load_alloc. frames. Qed.
Lemma respects_load_unit a : respects quiet_on (load_unit a).
Proof. rewrite /load_unit. frames. Qed.
Lemma respects_load_head a : respects quiet_on (load_head a).
Proof. rewrite /load_head. frames. Qed.

(** A store that publishes nothing. *)
Lemma respects_store_unit u f :
  (∀ h, m_life (f h) = m_life h ∨ life_value (m_life (f h)) ≤ life_value PENDING) →
  respects quiet_on (store_unit u f).
Proof.
  intros Hf w [] w'. rewrite /store_unit /load_unit /mbind /M_bind /gets /of_option.
  destruct (w_units w !! u) as [h|] eqn:Hu; [|done]. intros [= <-]. apply quiet_on_insert.
  rewrite /life_of Hu /=. destruct (Hf h) as [->|Hl]; [done|]. intros Hl'. by destruct (Zlt_not_le _ _ Hl').
Qed.

Lemma respects_init_unit page o h : life_value (m_life h) ≤ life_value PENDING →
  respects quiet_on (init_unit page o h).
Proof.
  intros Hl. rewrite /init_unit. apply respects_bind; [apply _|apply respects_load_head|].
  intros _. apply respects_modify. intros w. apply quiet_on_insert. intros Hl'. by destruct (Zlt_not_le _ _ Hl').
Qed.

#[export] Hint Resolve respects_on_chunk respects_store_alloc respects_init_alloc respects_load_alloc
  respects_load_unit respects_load_head : frames.

Section allocation.
Context `{Build} `{Kernel} `{RawMemory}.

Lemma respects_pick page : respects quiet_on (pick_unit_from_page_without_init page).
Proof using.
  rewrite /pick_unit_from_page_without_init. frames.
  assert (∀ fuel c, respects quiet_on (pick_loop fuel page c)) as Hloop; [|apply Hloop].
  induction fuel as [|fuel IH]; intros c; simpl; frames; try apply IH; apply respects_store_unit; intros h; simpl; auto; right; done.
Qed.

Lemma respects_init_page page g : respects quiet_on (init_page_for_unit_allocating page g).
Proof using.
  rewrite /init_page_for_unit_allocating /add_new_page_into_chain /add_page_back_to_into_chain. frames.
  match goal with |- respects _ (init_units _ ?s ?n ?o) => generalize n, o end.
  induction n as [|n IH]; intros o; simpl; frames; try apply IH; by apply respects_init_unit.
Qed.
#[local] Hint Resolve respects_pick respects_init_page : frames.

Lemma respects_with_list {A} g (body : list Z → WM (A * list Z)) : (∀ l, respects quiet_on (body l)) →
  respects (under c_world quiet_on) (with_list g body).
Proof using.
  intros Hb. rewrite /with_list /lock_list /unlock_list. frames. apply respects_on_world, Hb.
Qed.

Lemma respects_require g : respects (under c_world quiet_on) (require_normal_page g).
Proof using.
  assert (∀ l, respects quiet_on (pick_free_loop l)) as Hloop.
  { induction l as [|p l IH]; simpl; frames; apply IH. }
  rewrite /require_normal_page /pick_free_page. frames; try by apply respects_with_list.
  all: apply respects_on_world; frames.
Qed.

Lemma respects_pick_unit t size : respects (under c_world quiet_on) (pick_unit_in_page t size).
Proof using.
  rewrite /pick_unit_in_page /load_thread. frames.
  assert (∀ fuel g, respects (under c_world quiet_on) (pick_unit_loop fuel t g)) as Hloop; [|apply Hloop].
  induction fuel as [|fuel IH]; intros g; simpl; rewrite /get_cached /set_cached /load_thread; frames;
    try apply IH; try apply respects_require; apply respects_on_world; frames.
Qed.

Lemma respects_huge size : respects quiet_on (allocate_huge_unit size).
Proof using.
  rewrite /allocate_huge_unit /add_new_page_into_chain /add_page_back_to_into_chain. frames. by apply respects_init_unit.
Qed.

Lemma allocate_publishes_nothing t size : respects (under (c_world ∘ r_ctx) quiet_on) (woomem_allocate_begin t size).
Proof using.
  rewrite /woomem_allocate_begin. frames.
  - apply (respects_on_ctx (under c_world quiet_on)), respects_pick_unit.
  - apply (respects_on_ctx (under c_world quiet_on)), respects_on_world, respects_huge.
Qed.
End allocation.

(** ** A collection keeps the collections of the threads *)

Abbreviation same_threads := (sees c_threads).
Abbreviation sw_threads := (under s_ctx same_threads).

Lemma threads_on_world {A} (m : WM A) : respects same_threads (on_world m).
Proof. intros c a c'. rewrite /on_world. destruct (m (c_world c)) as [[? w]|]; [|done]. by intros [= <- <-]. Qed.

Lemma threads_in_world {A} (m : WM A) : respects sw_threads (in_world m).
Proof. apply respects_on_sctx, threads_on_world. Qed.

Lemma threads_with_list {A} g (body : list Z → WM (A * list Z)) : respects same_threads (with_list g body).
Proof. rewrite /with_list /lock_list /unlock_list. frames. apply threads_on_world. Qed.

#[export] Hint Resolve threads_on_world threads_in_world threads_with_list : frames.

Section collection.
Context `{Build} `{Payload} `{UserMark} `{UserGc}.

Lemma threads_check u page : respects sw_threads (check_and_free_unmarked_unit u page).
Proof using. rewrite /check_and_free_unmarked_unit /keep_unit. frames. Qed.

Lemma threads_sweep_loop page usize n : ∀ u b c, respects sw_threads (sweep_loop page usize n u b c).
Proof using.
  induction n as [|n IH]; intros u b c; simpl; frames; try apply IH; apply threads_check.
Qed.

Lemma threads_sweep_page page : respects sw_threads (sweep_units_in_page page).
Proof using.
  rewrite /sweep_units_in_page /sweep_normal_page /return_page /return_free_page.
  frames; try apply threads_check; try apply threads_sweep_loop; apply respects_on_sctx, threads_with_list.
Qed.

Lemma threads_workers_sweep ws : respects sw_threads (workers_sweep ws).
Proof using.
  assert (∀ fuel p, respects sw_threads (sweep_page_list fuel p)) as Hlist.
  { induction fuel as [|fuel IH]; intros p; simpl; frames; try apply IH; apply threads_sweep_page. }
  induction ws as [|w ws IH]; simpl; rewrite /worker_sweep; frames; first [apply Hlist|apply IH].
Qed.

Lemma threads_sweep_phase : respects (under g_sw sw_threads) sweep_phase.
Proof using.
  rewrite /sweep_phase. frames; apply (respects_on_sw sw_threads).
  - apply threads_in_world.
  - apply threads_workers_sweep.
  - apply respects_on_sctx. rewrite /remove_marked_run_out_pages. generalize all_groups.
    induction l as [|g l IH]; simpl; frames; apply IH.
Qed.

(** What the rest of the program sees of a collection besides the heap. *)
Definition cycle_frame (y y' : Cy) : Prop :=
  c_threads (s_ctx (g_sw (y_gc y'))) = c_threads (s_ctx (g_sw (y_gc y))) ∧ y_roots y' = y_roots y.

#[export] Instance cycle_frame_preorder : PreOrder cycle_frame.
Proof. split; [by intros y|]. intros y1 y2 y3 [? ?] [? ?]. split; congruence. Qed.

Lemma gc_mark_frame : respects cycle_frame gc_mark.
Proof using.
  rewrite /gc_mark. frames; try by apply respects_modify.
  intros y b y'. rewrite /on_mark. destruct (mark_phase a1 _) as [[? k]|]; [|done]. by intros [= <- <-].
Qed.

Lemma gc_sweep_frame : respects cycle_frame gc_sweep.
Proof using.
  rewrite /gc_sweep. frames; try by apply respects_modify. intros y b y' E. split.
  - exact (respects_on_gc (under g_sw sw_threads) sweep_phase threads_sweep_phase y b y' E).
  - revert E. rewrite /on_gc. destruct (sweep_phase (y_gc y)) as [[? x]|]; [|done]. by intros [= <- <-].
Qed.
End collection.
