(* ===== verification/CycleSpec.v ===== *)
(** * Properties of marking and of a whole collection *)

From S2P Require Import Prelude SizeClass Locks Chunk Blocks ChunkProof ChunkSpec Heap PageUnit HeapInv.
From S2P Require Import Pools PoolProof PoolSpec Api ApiProof ApiSpec GrayQueue Sweep SweepProof SweepPage.
From S2P Require Import Collect CollectProof CollectSpec Mark MarkProof Cycle CycleProof.
Open Scope Z_scope.

Section cycle_properties.
Context `{Build} `{Payload} `{UserMark} `{UserGc}.

(** C2: a collection is correct.  From a well-formed heap at rest, with a page in the chain or with
    workers that have no list of an earlier sweep (see [stale_sweep_list] for what happens
    otherwise), it ends without a fault, for any payload contents and any callbacks that only pass headers of published units.
    A unit that can be reached from the registered roots and from what the callbacks
    mark, through payload words and marking callbacks, is still a unit of the same size, with its
    header unmarked and one round older.  A unit that cannot be reached stays only if it is pending, was made in this round or is
    not to be swept, and is not in use otherwise.  The heap is well formed and at rest
    again, and the workers hold nothing. *)
Theorem gc_cycle_correct y pm
    (Hctx : ctx_inv (s_ctx (g_sw (y_gc y))) pm) (Hready : caches_ready (s_ctx (g_sw (y_gc y))))
    (Hrest : resting (Wy y)) (Hws : Forall (worker_ready (size (w_units (Wy y)))) (y_workers y))
    (Hn : (0 < length (y_workers y))%nat) (Hlen : length (g_workers (y_gc y)) = length (y_workers y))
    (Hfresh : lists_fresh (Wy y) (g_workers (y_gc y)))
    (Hcallbacks : callbacks_ok pm (Wy y) (length (y_workers y)))
    (Hroots : ∀ r, r ∈ y_roots y → ∃ s, is_unit pm r s) :
  wp gc_cycle (λ _ y', ∃ pm', ctx_inv (s_ctx (g_sw (y_gc y'))) pm' ∧
    caches_ready (s_ctx (g_sw (y_gc y'))) ∧ pm' ⊆ pm ∧ resting (Wy y') ∧
    Forall (λ wk, m_local_work wk = [] ∧ m_is_draining wk = false ∧
      Mpsc.holds GRAY_QUEUE_CAPACITY (m_gray_queue wk) []) (y_workers y') ∧
    ∀ u sz h, is_unit pm u sz → w_units (Wy y) !! u = Some h →
      (reachable_unit pm (Wy y) (y_roots y) u →
         is_unit pm' u sz ∧ w_units (Wy y') !! u = Some (kept h)) ∧
      (¬ reachable_unit pm (Wy y) (y_roots y) u →
         if survives (u8 (s_round (g_sw (y_gc y)) + 1)) h then
           is_unit pm' u sz ∧ w_units (Wy y') !! u =
             Some (if bool_decide (m_life h = PENDING) then h else kept h)
         else ¬ in_use pm' (Wy y') u)) y.
Proof.
  eapply wp_mono; [by apply (gc_cycle_spec y pm)|].
  intros _ y' (pm' & [? ? ? ? [_ ?] ?]). exists pm'. by split_and!.
Qed.

(** A unit that has just been published, and the same unit one sweep later. *)
Lemma new_survives round attrib h : survives round (ended round attrib h) = true.
Proof. by rewrite /survives /doomed -freeable_spec /freeable /= Z.eqb_refl. Qed.

Lemma aged_survives round next attrib h : 0 ≤ attrib < 256 →
  survives next (kept (ended round attrib h)) = (Z.land attrib WOOMEM_ATTRIB_NEED_SWEEP =? 0).
Proof.
  intros Ha. rewrite /survives /doomed -freeable_spec /freeable /has_attrib /kept /ended /= /u8 Z.mod_small //.
  by rewrite !negb_involutive.
Qed.

(** What the next collection does to such a unit when it is not reachable. *)
Definition outlives (pm : gmap Z pkind) (u sz attrib : Z) (y : Cy) : Prop :=
  Forall (worker_ready (size (w_units (Wy y)))) (y_workers y) → callbacks_ok pm (Wy y) (length (y_workers y)) →
  (∀ r, r ∈ y_roots y → ∃ s, is_unit pm r s) → ¬ reachable_unit pm (Wy y) (y_roots y) u →
  wp gc_cycle (λ _ y', ∃ pm', ctx_inv (s_ctx (g_sw (y_gc y'))) pm' ∧
    if Z.land attrib WOOMEM_ATTRIB_NEED_SWEEP =? 0
    then is_unit pm' u sz ∧ life_of (Wy y') u = Some UNMARKED
    else ¬ in_use pm' (Wy y') u) y.

(** C27: a unit that is published during a collection is safe for exactly that collection.  In the midst of a
    collection, when marking has ended, a pending unit of any size is published and the collection sweeps: the unit
    is still there, unmarked and one round older, although nobody marked it, and the heap is at rest.  If a
    collection that runs from there cannot reach it, it ends with the unit no longer in use (released, or its page
    given back), or still there if it is not to be swept. *)
Theorem new_unit_lives_one_round y pm u sz h attrib
    (Hctx : ctx_inv (s_ctx (g_sw (y_gc y))) pm) (Hready : caches_ready (s_ctx (g_sw (y_gc y))))
    (Hscanned : ∀ v, life_of (Wy y) v ≠ Some SELF_MARKED) (Hmarked : ∀ v, marked_unit (Wy y) v → ∃ s, is_unit pm v s)
    (Hn : (0 < length (y_workers y))%nat) (Hlen : length (g_workers (y_gc y)) = length (y_workers y))
    (Hu : is_unit pm u sz) (Hh : w_units (Wy y) !! u = Some h) (Hpend : m_life h = PENDING) (Ha : 0 ≤ attrib < 256) :
  let round := s_round (g_sw (y_gc y)) in
  wp (on_gc (on_sw (in_world (allocate_end round (u + SIZEOF_UnitHead) attrib))) ;; gc_sweep) (λ _ y1, ∃ pm1,
    ctx_inv (s_ctx (g_sw (y_gc y1))) pm1 ∧ resting (Wy y1) ∧ is_unit pm1 u sz ∧
    w_units (Wy y1) !! u = Some (kept (ended round attrib h)) ∧ outlives pm1 u sz attrib y1) y.
Proof.
  intros round. wp_steps. apply wp_on_gc, wp_on_sw, wp_in_world. eapply allocate_end_run; [exact Hh|].
  destruct (ctx_header _ pm u sz h (ended round attrib h) Hctx Hready Hu Hh) as [Hc Hr]; [by rewrite Hpend|done|done|].
  set (y0 := set_gc _ y).
  assert (∀ v, marked_unit (Wy y0) v → marked_unit (Wy y) v) as Hm.
  { intros v. rewrite /marked_unit /= !life_store. case_decide; [by intros [?|?]|done]. }
  assert (∀ v, life_of (Wy y0) v ≠ Some SELF_MARKED) as Hno.
  { intros v. rewrite /= life_store. case_decide; [done|apply Hscanned]. }
  eapply wp_mono; [apply (gc_sweep_spec y0 pm); [done|done|done|simpl; lia|by eapply unit_fresh]|].
  intros [] y1 (pm1 & l & x' & -> & D). exists pm1. pose proof D as [Dc Drd _ _ _ Dsl _ _].
  assert (w_units (Wy y0) !! u = Some (ended round attrib h)) as Hh0 by (by rewrite /= lookup_insert_eq).
  pose proof (phase_done_unit pm l (y_gc y0) x' pm1 u sz _ Hc D Hu Hh0) as Hunit.
  rewrite new_survives bool_decide_eq_false_2 // in Hunit. destruct Hunit as [Hu1 Hh1].
  assert (resting (W (g_sw x'))) as Hrest.
  { apply (phase_done_resting pm l (y_gc y0) x' pm1 Hc D); [|by intros v ?%Hm; apply Hmarked].
    intros v s hv _ Hv El. apply (Hno v). by rewrite /life_of Hv /= El. }
  split_and!; try done. intros Hws Hcb Hroots Hun.
  eapply wp_mono; [apply (gc_cycle_spec _ pm1); try done; [by rewrite /= Dsl|by eapply unit_fresh]|].
  intros _ y2 (pm2 & C). exists pm2. split; [apply C|]. destruct (cd_unit _ _ _ _ C u sz _ Hu1 Hh1) as [_ Hcd].
  specialize (Hcd Hun). rewrite aged_survives // in Hcd. destruct (Z.land _ _ =? 0); [|done].
  destruct Hcd as [? Hh2]. split; [done|]. by rewrite /life_of Hh2 bool_decide_eq_false_2 //.
Qed.

(** C7: marking computes reachability.  The two marking phases end, whatever the object
    graph; afterwards exactly the units that can be reached from the roots are fully
    marked, no unit is half marked, and no header has changed but for its mark. *)
Theorem mark_phase_exact w bl pm (roots : gset Z) ws
    (Hinv : heap_inv w bl pm) (Hrest : resting w)
    (Hws : Forall (worker_ready (size (w_units w))) ws) (Hn : (0 < length ws)%nat)
    (Hcallbacks : callbacks_ok pm w (length ws)) (Hroots : ∀ r, r ∈ roots → ∃ s, is_unit pm r s) :
  wp (mark_phase roots) (λ _ k',
    (∀ u h, w_units w !! u = Some h →
       (reachable_unit pm w roots u ∧ w_units (k_world k') !! u = Some (set_life FULL_MARKED h)) ∨
       (¬ reachable_unit pm w roots u ∧ w_units (k_world k') !! u = Some h)) ∧
    w_chunk (k_world k') = w_chunk w ∧ w_allocs (k_world k') = w_allocs w)
    (MkMk w ws 0 true).
Proof.
  destruct (marking_start w bl pm (reachable_unit pm w roots) ws 0 true Hinv Hrest Hws) as [Hmk Hid].
  eapply wp_mono; [by apply (mark_phase_spec w bl pm roots (MkMk w ws 0 true))|].
  intros _ k' (Hmk' & _ & _ & _ & Hfull). split; [|split; apply Hmk'].
  intros u h Hu. destruct (marked_header _ _ _ _ _ _ u h Hmk' Hrest Hu) as [Hf Hs].
  destruct (decide (life_of (k_world k') u = Some FULL_MARKED)) as [Hl|Hl].
  - left. split; [|by apply Hf]. apply (mk_reach _ _ _ _ _ _ _ Hmk'). by right.
  - right. assert (¬ reachable_unit pm w roots u) as Hno by (intros Hr; by apply Hl, Hfull). auto.
Qed.

(** C16: a worker finishes its work.  From any state of marking, processing ends: the
    worker holds nothing any more and no longer drains, the other workers hold what they
    held, and the invariant of marking holds, so what the worker found is black and its targets are marked. *)
Theorem process_gray_units_ends w0 bl pm R gs k i
    (Hclosed : ∀ u v, R u → edge pm w0 u v → R v) (Huser : user_ok pm w0)
    (Hinv : marking w0 bl pm R [] gs k) (Hi : (i < length (k_workers k))%nat) :
  wp (process_gray_units i) (λ _ k', ∃ gs', marking w0 bl pm R [] gs' k' ∧
    gs' !! i = Some [] ∧ (∀ j, j ≠ i → gs' !! j = gs !! j) ∧
    m_is_draining <$> k_workers k' = <[i := false]> (m_is_draining <$> k_workers k) ∧
    darkened (k_world k) (k_world k')) k.
Proof.
  eapply wp_mono; [apply (process_gray_units_spec w0 bl pm R Hclosed Huser i gs k Hinv)|].
  - by apply lookup_lt_is_Some.
  - intros _ k' (gs' & ? & ? & ? & ? & ? & ? & ?). exists gs'. by split_and!.
Qed.
End cycle_properties.

(** ** Witnesses *)

Section witnesses.
Import ChunkSpec.Demo PoolDemo.

(** The demo heap with its unit published and registered as a root. *)
Definition attrib : Z := 3. (* swept and marked automatically *)
Definition w2 : World :=
  match allocate_end 3 (65568 + SIZEOF_UnitHead) attrib (c_world c1) with
  | Ok (_, w) => w
  | Fail _ => c_world c1
  end.
Definition c2 : Ctx := set_world w2 c1.

#[local] Instance no_words : Payload := {| word := λ _, 0 |}.
#[local] Instance no_callback : UserMark := {| user_mark := λ _, [] |}.
#[local] Instance no_calls : UserGc := {| at_begin := []; at_stop := [] |}.

Definition worker0 : MarkWorker := MkMarkWorker (Mpsc.MpscGrayQueue_ctor GRAY_QUEUE_CAPACITY) [] false.
Definition y2 : Cy :=
  MkCy (MkGc (MkSw c2 3 0 []) [MkWorker 0 0] 0) [worker0] 0 false {[65568]} true 0 0.

Lemma unit2 : ∃ pm s, ctx_inv c2 pm ∧ caches_ready c2 ∧ is_unit pm 65568 s.
Proof.
  destruct unit1 as (pm & s & Hc & Hr & _ & Hu & _), head1 as (h & Hh & Hp).
  exists pm, s.
  assert (w2 = upd_units (<[65568 := ended 3 attrib h]>) (c_world c1)) as Hw.
  { rewrite /w2 /allocate_end Z.add_simpl_r /store_unit /load_unit /gets /mbind /M_bind /of_option Hh. reflexivity. }
  rewrite /c2 Hw. destruct (ctx_header c1 pm 65568 s h (ended 3 attrib h) Hc Hr Hu Hh) as [Hc' Hr'];
    [by rewrite Hp|discriminate|reflexivity|]. exact (conj Hc' (conj Hr' Hu)).
Qed.

Lemma resting2 : resting w2.
Proof.
  intros u Hu. assert (bool_decide (map_Forall (λ _ h, m_life h ≠ SELF_MARKED ∧ m_life h ≠ FULL_MARKED)
    (w_units w2)) = true) as Hall by (vm_compute; reflexivity).
  apply bool_decide_eq_true in Hall. revert Hu Hall. generalize w2. intros w Hu Hall.
  rewrite /marked_unit /life_of in Hu.
  destruct (w_units w !! u) as [h|] eqn:Hh; [|naive_solver]. destruct (Hall u h Hh). naive_solver.
Qed.

Lemma ready2 : Forall (worker_ready (size (w_units w2))) [worker0].
Proof.
  constructor; [|constructor]. split; [done|]. split; [done|].
  split; [apply Mpsc.holds_ctor, cap_ok|]. by vm_compute.
Qed.

Lemma callbacks3 pm w : callbacks_ok pm w 1.
Proof. split; [|split; constructor]. intros u s h _ _ _ _. constructor. Qed.

Lemma roots2 pm s : is_unit pm 65568 s → ∀ r, r ∈ ({[65568]} : gset Z) → ∃ s, is_unit pm r s.
Proof. intros Hu r ->%elem_of_singleton. by exists s. Qed.

Lemma fresh2 : lists_fresh w2 [MkWorker 0 0].
Proof. intros _ wk [->|[]%not_elem_of_nil]%elem_of_cons. reflexivity. Qed.

(** The root is reachable from itself. *)
Lemma root2 pm : reachable_unit pm w2 {[65568]} 65568.
Proof.
  exists 65568. split; [left; split; [by apply elem_of_singleton|vm_compute; reflexivity]|apply rtc_refl].
Qed.

Lemma gc_cycle_correct_witness :
  wp gc_cycle (λ _ y', life_of (Wy y') 65568 = Some UNMARKED) y2.
Proof.
  destruct unit2 as (pm & s & Hc & Hr & Hu).
  eapply wp_mono; [exact (gc_cycle_correct y2 pm Hc Hr resting2 ready2 (Nat.lt_0_succ 0) eq_refl fresh2
    (callbacks3 pm w2) (roots2 pm s Hu))|].
  intros _ y' (pm' & _ & _ & _ & _ & _ & Hunits).
  assert (∃ h, w_units w2 !! 65568 = Some h) as [h Hh] by (eexists; vm_compute; reflexivity).
  destruct (Hunits 65568 s h Hu Hh) as [Hreach _]. destruct (Hreach (root2 pm)) as [_ Hk].
  unfold life_of. rewrite Hk. exact (f_equal Some (proj1 (kept_alive h))).
Defined.

(** The pending unit of the demo heap, when marking has ended. *)
Definition y3 : Cy := MkCy (MkGc (MkSw c1 3 0 []) [MkWorker 0 0] 0) [worker0] 0 false ∅ true 0 0.

Lemma unmarked3 v : ¬ marked_unit (c_world c1) v.
Proof.
  intros Hv. assert (bool_decide (map_Forall (λ _ h, m_life h ≠ SELF_MARKED ∧ m_life h ≠ FULL_MARKED)
    (w_units (c_world c1))) = true) as Hall by (vm_compute; reflexivity).
  apply bool_decide_eq_true in Hall. revert Hv Hall. generalize (c_world c1). intros w Hv Hall.
  rewrite /marked_unit /life_of in Hv.
  destruct (w_units w !! v) as [h|] eqn:Hh; [|naive_solver]. destruct (Hall v h Hh). naive_solver.
Qed.

Lemma unreachable3 pm w u : ¬ reachable_unit pm w ∅ u.
Proof. intros (r & [[[]%not_elem_of_empty _]|(c & []%not_elem_of_nil & _)] & _). Qed.

Lemma roots3 pm : ∀ r, r ∈ (∅ : gset Z) → ∃ s, is_unit pm r s.
Proof. by intros r ?%not_elem_of_empty. Qed.

(** What is left of the workers after the first sweep. *)
Lemma swept3 :
  wp (on_gc (on_sw (in_world (allocate_end 3 (65568 + SIZEOF_UnitHead) 1))) ;; gc_sweep) (λ _ y1,
    y_workers y1 = [worker0] ∧ y_roots y1 = ∅ ∧ size (w_units (Wy y1)) = size (w_units w2)) y3.
Proof. vm_compute. repeat split. Qed.

Lemma new_unit_lives_one_round_witness :
  wp (on_gc (on_sw (in_world (allocate_end 3 (65568 + SIZEOF_UnitHead) 1))) ;; gc_sweep) (λ _ y1,
    life_of (Wy y1) 65568 = Some UNMARKED ∧
    wp gc_cycle (λ _ y', ∃ pm', ctx_inv (s_ctx (g_sw (y_gc y'))) pm' ∧ ¬ in_use pm' (Wy y') 65568) y1) y3.
Proof.
  destruct unit1 as (pm & s & Hc & Hr & _ & Hu & _), head1 as (h & Hh & Hp).
  pose proof (new_unit_lives_one_round y3 pm 65568 s h 1 Hc Hr (λ v E, unmarked3 v (or_introl E))
    (λ v Hv, False_ind _ (unmarked3 v Hv)) (Nat.lt_0_succ 0) eq_refl Hu Hh Hp ltac:(split; [discriminate|reflexivity])) as Hlives.
  cbv zeta in Hlives. eapply wp_mono; [exact (wp_and _ _ _ _ Hlives swept3)|].
  intros _ y1 [(pm1 & _ & _ & _ & Hh1 & Hout) (Hws & Hro & Hsz)]. split; [by rewrite /life_of Hh1|].
  rewrite /outlives Hws Hro Hsz in Hout.
  eapply wp_mono; [exact (Hout ready2 (callbacks3 _ _) (roots3 _) (unreachable3 _ _ _))|].
  intros _ y' (pm' & Hc' & Hno). exists pm'. exact (conj Hc' Hno).
Defined.

Lemma mark_phase_exact_witness :
  wp (mark_phase {[65568]}) (λ _ k', life_of (k_world k') 65568 = Some FULL_MARKED)
    (MkMk w2 [worker0] 0 true).
Proof.
  destruct unit2 as (pm & s & ((bl & Hb) & _) & _ & Hu).
  eapply wp_mono; [exact (mark_phase_exact w2 bl pm {[65568]} [worker0] Hb resting2 ready2 (Nat.lt_0_succ 0)
    (callbacks3 pm w2) (roots2 pm s Hu))|].
  intros _ k' [Hall _]. assert (∃ h, w_units w2 !! 65568 = Some h) as [h Hh] by (eexists; vm_compute; reflexivity).
  unfold life_of. destruct (Hall 65568 h Hh) as [[_ Hk]|[Hno _]]; [rewrite Hk; reflexivity|destruct Hno; apply root2].
Defined.

Lemma process_gray_units_ends_witness :
  wp (process_gray_units 0) (λ _ k', m_is_draining <$> k_workers k' = [false]) (MkMk w2 [worker0] 0 true).
Proof.
  destruct unit2 as (pm & s & ((bl & Hb) & _) & _ & Hu).
  destruct (marking_start w2 bl pm (λ _, True) [worker0] 0 true Hb resting2 ready2) as [Hmk _].
  eapply wp_mono; [exact (process_gray_units_ends w2 bl pm (λ _, True) [[]] (MkMk w2 [worker0] 0 true) 0
    (λ _ _ _ _, I) (proj1 (callbacks3 pm w2)) Hmk (Nat.lt_0_succ 0))|].
  intros _ k' (gs' & _ & _ & _ & Hd & _). exact Hd.
Defined.
End witnesses.
