(* ===== verification/ParallelSpec.v ===== *)
(** * Properties of marking by all workers at once *)

From S2P Require Import Prelude SizeClass Locks Chunk Blocks ChunkProof ChunkSpec Heap PageUnit HeapInv.
From S2P Require Import Pools PoolProof PoolSpec Api ApiProof ApiSpec GrayQueue Sweep Mark MarkProof.
From S2P Require Import ParallelMark ParallelProof Collect CollectProof Cycle CycleProof CycleSpec.
Open Scope Z_scope.

(** ** The final colours *)

(** Two worlds that grew darker from the same one and have the same marked units are the same. *)
Lemma colours_determined w0 w1 w2 :
  darkened w0 w1 → darkened w0 w2 →
  (∀ u, life_of w1 u ≠ Some SELF_MARKED) → (∀ u, life_of w2 u ≠ Some SELF_MARKED) →
  (∀ u, life_of w1 u = Some FULL_MARKED ↔ life_of w2 u = Some FULL_MARKED) → w_units w1 = w_units w2.
Proof.
  intros Hd1 Hd2 Hn1 Hn2 Hf. apply map_eq. intros u.
  specialize (Hd1 u). specialize (Hd2 u). specialize (Hn1 u). specialize (Hn2 u). specialize (Hf u).
  rewrite /life_of in Hn1, Hn2, Hf.
  destruct (w_units w0 !! u) as [h|], (w_units w1 !! u) as [h1|], (w_units w2 !! u) as [h2|]; simpl in *; try done.
  destruct Hd1 as [E1 C1], Hd2 as [E2 C2]. rewrite E1 E2. do 2 f_equal.
  destruct (m_life h1), (m_life h2), (m_life h); simpl in *; intuition congruence.
Qed.

Section parallel_properties.
Context `{Build} `{Payload} `{UserMark}.
Context (w0 : World) (bl : list block) (pm : gmap Z pkind) (R : Z → Prop).
Context (Hclosed : ∀ u v, R u → edge pm w0 u v → R v) (Huser : user_ok pm w0).

(** What can be reached from the units that are marked in [w]. *)
Definition from_marked (w : World) (u : Z) : Prop := ∃ r, marked_unit w r ∧ rtc (edge pm w0) r u.

(** The marked units of a marking state, as a closed set. *)
Lemma marking_from gs k : marking w0 bl pm R [] gs k → marking w0 bl pm (from_marked (k_world k)) [] gs k.
Proof using.
  intros [Hc Ha Hl Hh Hd Hw Hg Hnd Hb Hr]. split; try done.
  intros u Hu. split; [by exists u|by apply Hr].
Qed.

Lemma from_marked_closed w u v : from_marked w u → edge pm w0 u v → from_marked w v.
Proof using. intros (r & Hr & Hp) He. exists r. split; [done|]. by eapply rtc_r. Qed.

Lemma nothing_gray k n u : marking w0 bl pm R [] (replicate n []) k → life_of (k_world k) u ≠ Some SELF_MARKED.
Proof using.
  intros Hm Hu%(mk_gray _ _ _ _ _ _ _ Hm). simpl in Hu. rewrite concat_nils in Hu. by apply elem_of_nil in Hu.
Qed.
End parallel_properties.

(** The colours at the end of a phase that started from [k]. *)
Lemma final_colours `{Build} `{Payload} `{UserMark} w0 bl pm k n k' u :
  marking w0 bl pm (from_marked w0 pm (k_world k)) [] (replicate n []) k' → darkened (k_world k) (k_world k') →
  life_of (k_world k') u = Some FULL_MARKED ↔ from_marked w0 pm (k_world k) u.
Proof.
  intros Hm Hd. split.
  - intros Hu. apply (mk_reach _ _ _ _ _ _ _ Hm). by right.
  - intros (r & Hr & Hp). eapply marking_complete; [exact Hm| |exact Hp]. by eapply darkened_marked.
Qed.

(** Without threads that mark, no thread ever appears. *)
Lemma workers_alone `{Build} `{Payload} `{UserMark} (t t' : par) :
  p_threads t = [] → step (λ _, False) t t' → p_threads t' = [].
Proof. intros Ht Hs. by destruct Hs; simplify_eq/=. Qed.

Section theorems.
Context `{Build} `{Payload} `{UserMark}.

(** C6: marking by all workers at once is safe.  In every interleaving of the workers of a
    phase with threads that mark units meanwhile: no worker meets a fault, whatever it does next; no two
    workers scan the same unit; a black unit has only marked targets; no unit outside a closed set that
    contains the roots and the units of the threads is marked; and units only get darker. *)
Theorem parallel_mark_safe w0 bl pm R T gs k ctxs s
    (Hclosed : ∀ u v, R u → edge pm w0 u v → R v) (Huser : user_ok pm w0)
    (HT : ∀ u, T u → R u ∧ ∃ sz, is_unit pm u sz)
    (Hinv : marking w0 bl pm R [] gs k) (Hidle : idle k)
    (Hctx : Forall (λ i, (i < length (k_workers k))%nat) ctxs) (Hs : rtc (step T) (launch k ctxs) s) :
  (∀ i pc, p_pcs s !! i = Some pc → pc ≠ PDone → ∃ pc' k', worker_step i pc (p_mk s) = Ok (pc', k')) ∧
  (∀ i j u cs cs', p_pcs s !! i = Some (PScan u cs) → p_pcs s !! j = Some (PScan u cs') → i = j) ∧
  (∀ u v, life_of (k_world (p_mk s)) u = Some FULL_MARKED → edge pm w0 u v → marked_unit (k_world (p_mk s)) v) ∧
  (∀ u, marked_unit (k_world (p_mk s)) u → R u) ∧
  darkened (k_world k) (k_world (p_mk s)).
Proof.
  destruct (par_steps w0 bl pm R T (k_world k) Hclosed Huser HT gs (launch k ctxs) s) as (gs' & Hs'); [|done|].
  { by apply par_launch. }
  split_and!.
  - intros i pc Hi Hpc. destruct s as [k1 pcs ts].
    destruct (wp_run _ _ _ (worker_step_spec w0 bl pm R _ Hclosed Huser gs' k1 pcs ts i pc Hs' Hi Hpc))
      as (pc' & k' & Hrun & _). eauto.
  - intros i j u cs cs' Hi Hj. destruct (decide (i = j)) as [|Hne]; [done|]. exfalso.
    destruct s as [k1 pcs ts]. simpl in Hi, Hj.
    pose proof (mk_nodup _ _ _ _ _ _ _ (pi_mark _ _ _ _ _ _ _ Hs')) as Hnd. simpl in Hnd.
    rewrite -(in_flight_end k1 k1 pcs ts i PLoop u cs Hi) in Hnd; [|done]. apply NoDup_cons in Hnd as [Hn _].
    apply Hn, elem_of_app. left. apply (scanning_in_flight k1 _ ts j u cs'). by rewrite list_lookup_insert_ne.
  - apply (mk_black _ _ _ _ _ _ _ (pi_mark _ _ _ _ _ _ _ Hs')).
  - intros u Hu. by apply (mk_reach _ _ _ _ _ _ _ (pi_mark _ _ _ _ _ _ _ Hs')).
  - apply (pi_base _ _ _ _ _ _ _ Hs').
Qed.

(** C10: a marking phase ends.  Whatever workers and threads run and in whatever order, somebody can always go
    on and after finitely many steps every worker has finished and no thread is left with a unit that it could
    not hand over. *)
Theorem parallel_mark_ends w0 bl pm R T gs k ctxs s
    (Hclosed : ∀ u v, R u → edge pm w0 u v → R v) (Huser : user_ok pm w0)
    (HT : ∀ u, T u → R u ∧ ∃ sz, is_unit pm u sz)
    (Hinv : marking w0 bl pm R [] gs k) (Hidle : idle k)
    (Hctx : Forall (λ i, (i < length (k_workers k))%nat) ctxs) (Hs : rtc (step T) (launch k ctxs) s) :
  inevitably (step T) finished s.
Proof.
  destruct (par_steps w0 bl pm R T (k_world k) Hclosed Huser HT gs (launch k ctxs) s) as (gs' & Hs'); [|done|].
  { by apply par_launch. }
  eapply inevitably_mono; [|by apply (par_ends w0 bl pm R T (k_world k) Hclosed Huser HT gs' s)].
  by intros t [? _].
Qed.

(** C3: the result of a marking phase does not depend on the interleaving.  Every run of the workers ends, and
    then a unit is black exactly if it can be reached from a unit that was marked at the start, nothing is
    gray, and the headers are those that the workers leave when they run one after the other. *)
Theorem parallel_mark_exact w0 bl pm R gs k
    (Hclosed : ∀ u v, R u → edge pm w0 u v → R v) (Huser : user_ok pm w0)
    (Hinv : marking w0 bl pm R [] gs k) (Hidle : idle k) :
  inevitably (step (λ _, False)) (λ t, finished t ∧
    (∀ u, life_of (k_world (p_mk t)) u = Some FULL_MARKED ↔ from_marked w0 pm (k_world k) u) ∧
    (∀ u, life_of (k_world (p_mk t)) u ≠ Some SELF_MARKED) ∧
    wp launch_marking (λ _ k', w_units (k_world k') = w_units (k_world (p_mk t))) k) (launch k []).
Proof.
  set (R' := from_marked w0 pm (k_world k)). pose proof (marking_from _ _ _ _ _ _ Hinv) as Hinv'.
  assert (∀ u v, R' u → edge pm w0 u v → R' v) as Hcl' by apply from_marked_closed.
  assert (par_inv w0 bl pm R' (k_world k) gs (launch k [])) as Hl by (by apply par_launch).
  destruct (wp_run _ _ _ (all_workers_mark w0 bl pm R' Hcl' Huser gs k Hinv' Hidle))
    as ([] & k1 & Hrun & Hm1 & _ & _ & Hd1).
  eapply inevitably_mono; [|eapply (inevitably_stable _ _ (λ t, p_threads t = []));
    [apply workers_alone|done|by apply (par_ends w0 bl pm R' (λ _, False) (k_world k) Hcl' Huser ltac:(done) gs _ Hl)]].
  intros [k2 pcs ts] [[Hf [gs2 Ht]] Hts]. simpl in Hts |- *. subst ts.
  pose proof (par_finished w0 bl pm R' (k_world k) gs2 k2 pcs Ht Hf) as Hm2.
  pose proof (pi_base _ _ _ _ _ _ _ Ht) as Hd2. simpl in Hd2.
  split_and!; [done|intros u; by eapply final_colours|intros u; by eapply nothing_gray|].
  rewrite /launch_marking /wp /mbind /M_bind /gets Hrun.
  apply (colours_determined w0); [apply Hm1|apply Hm2|intros u; by eapply nothing_gray..|].
  intros u. by rewrite (final_colours w0 bl pm k _ k1 u Hm1 Hd1) (final_colours w0 bl pm k _ k2 u Hm2 Hd2).
Qed.
End theorems.

(** ** Witnesses *)

Section witnesses.
Import ChunkSpec.Demo PoolDemo.

#[local] Instance no_words : Payload := {| word := λ _, 0 |}.
#[local] Instance no_callback : UserMark := {| user_mark := λ _, [] |}.

(** One worker, and one thread that may mark the unit of the demo heap. *)
Definition k2 : Mk := MkMk w2 [worker0] 0 true.

Lemma no_user pm : user_ok pm w2.
Proof. intros u s h _ _ _ _. constructor. Qed.

Lemma marking2 : ∃ bl pm s, marking w2 bl pm (λ _, True) [] [[]] k2 ∧ idle k2 ∧ is_unit pm 65568 s.
Proof.
  destruct unit2 as (pm & s & ((bl & Hb) & _) & _ & Hu).
  destruct (marking_start w2 bl pm (λ _, True) [worker0] 0 true Hb resting2 ready2) as [Hmk Hid].
  exists bl, pm, s. split; [exact Hmk|]. split; [exact Hid|exact Hu].
Qed.

Lemma contexts2 : Forall (λ i, (i < length (k_workers k2))%nat) [0%nat].
Proof. constructor; [exact (Nat.lt_0_succ 0)|constructor]. Qed.

Lemma parallel_mark_safe_witness :
  ∃ pc' k', worker_step 0 PStart (p_mk (launch k2 [0%nat])) = Ok (pc', k').
Proof.
  destruct marking2 as (bl & pm & s & Hmk & Hid & Hu).
  exact (proj1 (parallel_mark_safe w2 bl pm (λ _, True) (eq 65568) [[]] k2 [0%nat] (launch k2 [0%nat])
    (λ _ _ _ _, I) (no_user pm)
    (λ u E, conj I (ex_intro _ s (eq_ind 65568 (λ x, is_unit pm x s) Hu u E))) Hmk Hid
    contexts2 (rtc_refl _ _)) 0%nat PStart eq_refl ltac:(discriminate)).
Defined.

Lemma parallel_mark_ends_witness : inevitably (step (eq 65568)) finished (launch k2 [0%nat]).
Proof.
  destruct marking2 as (bl & pm & s & Hmk & Hid & Hu).
  exact (parallel_mark_ends w2 bl pm (λ _, True) (eq 65568) [[]] k2 [0%nat] (launch k2 [0%nat])
    (λ _ _ _ _, I) (no_user pm)
    (λ u E, conj I (ex_intro _ s (eq_ind 65568 (λ x, is_unit pm x s) Hu u E))) Hmk Hid
    contexts2 (rtc_refl _ _)).
Defined.

(** The unit is a root: after the phase it is black. *)
Lemma parallel_mark_exact_witness : ∃ k, marked_unit (k_world k) 65568 ∧
  inevitably (step (λ _, False)) (λ t, life_of (k_world (p_mk t)) 65568 = Some FULL_MARKED) (launch k []).
Proof.
  destruct marking2 as (bl & pm & s & Hmk & Hid & Hu).
  assert (marker_ok AsRoot k2) as Hm by (split; [reflexivity|discriminate]).
  assert (visible w2 65568 = true) as Hv by (vm_compute; reflexivity).
  destruct (wp_run _ _ _ (mark_by_spec w2 bl pm (λ _, True) AsRoot [] [[]] k2 65568 s Hmk I Hu Hv Hm))
    as ([] & k & _ & gs & Hmk' & _ & _ & [Hd _] & _ & Hmarked).
  assert (idle k) as Hid'. { unfold idle in *. rewrite Hd. exact Hid. }
  exists k. split; [exact (Hmarked _ eq_refl)|].
  eapply inevitably_mono; [|exact (parallel_mark_exact w2 bl pm (λ _, True) gs k (λ _ _ _ _, I) (no_user pm) Hmk' Hid')].
  intros t (_ & Hex & _). apply Hex. exists 65568. split; [exact (Hmarked _ eq_refl)|apply rtc_refl].
Defined.
End witnesses.
