(* ===== verification/Barrier.v ===== *)
(** * The phases of a collection: [src/src/woomem_gc.cpp] (lines 70-142, 220-349, 600-638)

    The main thread launches the workers in a phase and waits until all are done, the
    workers wait for the phases in turn, and the destructor stops both.  Each thread is a program
    point; a step is one access to the mutex, one evaluation of the predicate of a wait, or
    one sequence of accesses to the fields under the mutex.  Waiting on the condition variable
    releases the mutex and sleeps; a notification makes every sleeper take the mutex again. *)

From S2P Require Import Prelude.
Open Scope Z_scope.

Module Barrier.

(** [default_gc_worker_count] and the initialiser of [m_gc_worker_count]. *)
Definition default_gc_worker_count (hardware_concurrency : Z) : Z :=
  let count := hardware_concurrency / 8 in if count =? 0 then 1 else count.
Definition gc_worker_count (worker_count hardware_concurrency : Z) : Z :=
  if negb (worker_count =? 0) then worker_count else default_gc_worker_count hardware_concurrency.

Inductive WorkerThresholdState := PENDING | PARALLEL_MARK | FINAL_MARK | SWEEP.

#[export] Instance WorkerThresholdState_eq_dec : EqDecision WorkerThresholdState.
Proof. solve_decision. Defined.

(** The order in which both sides go through the phases. *)
Definition next (p : WorkerThresholdState) : WorkerThresholdState :=
  match p with
  | PENDING => PENDING
  | PARALLEL_MARK => FINAL_MARK
  | FINAL_MARK => SWEEP
  | SWEEP => PARALLEL_MARK
  end.

(** ** Program points *)

(** The main thread.  [MStore], [MTest] and [MBlock] hold the mutex. *)
Inductive mpc :=
| MIdle                              (* waits for a trigger *)
| MLock (p : WorkerThresholdState)   (* enters [launch_worker_and_wait_until_done] *)
| MStore (p : WorkerThresholdState)
| MTest (p : WorkerThresholdState)   (* at the predicate *)
| MBlock (p : WorkerThresholdState)  (* the predicate was false *)
| MSleep (p : WorkerThresholdState)
| MRelock (p : WorkerThresholdState) (* has been woken *)
| MDone (p : WorkerThresholdState)   (* the launch has returned *)
| MExit.

(** A worker.  [WTest], [WBlock], [WRet] and [WCount] hold the mutex. *)
Inductive wpc :=
| WLock (p : WorkerThresholdState)   (* enters the wait for [p], or has been woken in it *)
| WTest (p : WorkerThresholdState)
| WBlock (p : WorkerThresholdState)
| WSleep (p : WorkerThresholdState)
| WRet (p : WorkerThresholdState)    (* the predicate was true *)
| WWork (p : WorkerThresholdState)   (* does the work of the phase *)
| WDone (p : WorkerThresholdState)   (* enters [worker_done_and_notify_main_gc_thread] *)
| WCount (p : WorkerThresholdState)
| WExit.

(** The thread that runs [~GC].  [DUnlock] holds the mutex. *)
Inductive dpc :=
| DRun
| DJoinMain
| DStop                              (* the main thread has been joined *)
| DSignal (i : nat)                  (* enters [signal_worker_shutdown] of worker [i] *)
| DUnlock (i : nat)
| DNotify (i : nat)
| DJoin (i : nat)
| DEnd.

#[export] Instance mpc_eq_dec : EqDecision mpc.
Proof. solve_decision. Defined.
#[export] Instance wpc_eq_dec : EqDecision wpc.
Proof. solve_decision. Defined.
#[export] Instance dpc_eq_dec : EqDecision dpc.
Proof. solve_decision. Defined.

Record st := St {
  mx : bool;                         (* [m_gc_worker_threshold_mx] is locked *)
  launch_state : WorkerThresholdState;
  finish_counter : Z;
  shutdown : bool;
  worker_shutdown : bool;
  main : mpc;
  dtor : dpc;
  workers : list wpc;
}.

(** [notify_all]. *)
Definition wake (w : wpc) : wpc := match w with WSleep p => WLock p | _ => w end.
Definition wake_main (m : mpc) : mpc := match m with MSleep p => MRelock p | _ => m end.

(** The predicate of [wait_for_worker_launch], and of [wait_for_worker_launch_or_shutdown]
    for the first phase. *)
Definition ready (l : WorkerThresholdState) (stop : bool) (p : WorkerThresholdState) : bool :=
  bool_decide (l = p) || (bool_decide (p = PARALLEL_MARK) && stop).
(** Where a worker goes on after the wait for [p]. *)
Definition after_wait (stop : bool) (p : WorkerThresholdState) : wpc :=
  if bool_decide (p = PARALLEL_MARK) && stop then WExit else WWork p.

Definition count (ws : list wpc) : Z := Z.of_nat (length ws).

Inductive step : st → st → Prop :=
(* the main thread: launch_worker_and_wait_until_done *)
| launch_lock l c sh stop p d ws :
    step (St false l c sh stop (MLock p) d ws) (St true l c sh stop (MStore p) d ws)
| launch_store x l c sh stop p d ws :
    step (St x l c sh stop (MStore p) d ws) (St x p 0 sh stop (MTest p) d (wake <$> ws))
| launch_return x l c sh stop p d ws : count ws = c →
    step (St x l c sh stop (MTest p) d ws) (St false l c sh stop (MDone p) d ws)
| launch_wait x l c sh stop p d ws : count ws ≠ c →
    step (St x l c sh stop (MTest p) d ws) (St x l c sh stop (MBlock p) d ws)
| launch_sleep x l c sh stop p d ws :
    step (St x l c sh stop (MBlock p) d ws) (St false l c sh stop (MSleep p) d ws)
| launch_relock l c sh stop p d ws :
    step (St false l c sh stop (MRelock p) d ws) (St true l c sh stop (MTest p) d ws)
(* the main thread: main_thread_job *)
| main_start x l c stop d ws :
    step (St x l c false stop MIdle d ws) (St x l c false stop (MLock PARALLEL_MARK) d ws)
| main_exit x l c stop d ws :
    step (St x l c true stop MIdle d ws) (St x l c true stop MExit d ws)
| main_next x l c sh stop p d ws : p ≠ SWEEP →
    step (St x l c sh stop (MDone p) d ws) (St x l c sh stop (MLock (next p)) d ws)
| main_rest x l c sh stop d ws :
    step (St x l c sh stop (MDone SWEEP) d ws) (St x PENDING c sh stop MIdle d ws)
(* a worker: wait_for_worker_launch, wait_for_worker_launch_or_shutdown *)
| wait_lock l c sh stop m d ws i p : ws !! i = Some (WLock p) →
    step (St false l c sh stop m d ws) (St true l c sh stop m d (<[i := WTest p]> ws))
| wait_true x l c sh stop m d ws i p : ws !! i = Some (WTest p) → ready l stop p = true →
    step (St x l c sh stop m d ws) (St x l c sh stop m d (<[i := WRet p]> ws))
| wait_false x l c sh stop m d ws i p : ws !! i = Some (WTest p) → ready l stop p = false →
    step (St x l c sh stop m d ws) (St x l c sh stop m d (<[i := WBlock p]> ws))
| wait_sleep x l c sh stop m d ws i p : ws !! i = Some (WBlock p) →
    step (St x l c sh stop m d ws) (St false l c sh stop m d (<[i := WSleep p]> ws))
| wait_return x l c sh stop m d ws i p : ws !! i = Some (WRet p) →
    step (St x l c sh stop m d ws) (St false l c sh stop m d (<[i := after_wait stop p]> ws))
(* a worker: the work of a phase, worker_done_and_notify_main_gc_thread *)
| work_done x l c sh stop m d ws i p : ws !! i = Some (WWork p) →
    step (St x l c sh stop m d ws) (St x l c sh stop m d (<[i := WDone p]> ws))
| done_lock l c sh stop m d ws i p : ws !! i = Some (WDone p) →
    step (St false l c sh stop m d ws) (St true l c sh stop m d (<[i := WCount p]> ws))
| done_count x l c sh stop m d ws i p : ws !! i = Some (WCount p) → u64 (c + 1) ≠ count ws →
    step (St x l c sh stop m d ws)
      (St false l (u64 (c + 1)) sh stop m d (<[i := WLock (next p)]> ws))
| done_last x l c sh stop m d ws i p : ws !! i = Some (WCount p) → u64 (c + 1) = count ws →
    step (St x l c sh stop m d ws)
      (St false l (u64 (c + 1)) sh stop (wake_main m) d (wake <$> <[i := WLock (next p)]> ws))
(* the destructor *)
| dtor_shutdown x l c sh stop m ws :
    step (St x l c sh stop m DRun ws) (St x l c true stop m DJoinMain ws)
| dtor_join_main x l c sh stop ws :
    step (St x l c sh stop MExit DJoinMain ws) (St x l c sh stop MExit DStop ws)
| dtor_stop x l c sh stop m ws :
    step (St x l c sh stop m DStop ws) (St x l c sh true m (DSignal 0) ws)
| dtor_lock l c sh stop m i ws :
    step (St false l c sh stop m (DSignal i) ws) (St true l c sh stop m (DUnlock i) ws)
| dtor_unlock x l c sh stop m i ws :
    step (St x l c sh stop m (DUnlock i) ws) (St false l c sh stop m (DNotify i) ws)
| dtor_notify x l c sh stop m i ws :
    step (St x l c sh stop m (DNotify i) ws) (St x l c sh stop (wake_main m) (DJoin i) (wake <$> ws))
| dtor_join x l c sh stop m i ws : ws !! i = Some WExit →
    step (St x l c sh stop m (DJoin i) ws)
      (St x l c sh stop m (if bool_decide (S i < length ws)%nat then DSignal (S i) else DEnd) ws).

(** A wait may return without a notification. *)
Inductive spurious : st → st → Prop :=
| spurious_main x l c sh stop p d ws :
    spurious (St x l c sh stop (MSleep p) d ws) (St x l c sh stop (MRelock p) d ws)
| spurious_worker x l c sh stop m d ws i p : ws !! i = Some (WSleep p) →
    spurious (St x l c sh stop m d ws) (St x l c sh stop m d (<[i := WLock p]> ws)).

(** The constructor of [GC] has started [n] workers and the main thread. *)
Definition init (n : nat) : st :=
  St false PENDING 0 false false MIdle DRun (replicate n (WLock PARALLEL_MARK)).

Definition reachable (n : nat) (s : st) : Prop := rtc (λ a b, step a b ∨ spurious a b) (init n) s.

(** ** The invariant *)

(** What the main thread says of the phases: [(true, p)], phase [p] runs; [(false, p)],
    [p] is the next to be launched. *)
Definition stage (m : mpc) : bool * WorkerThresholdState :=
  match m with
  | MIdle | MExit => (false, PARALLEL_MARK)
  | MLock p | MStore p => (false, p)
  | MTest p | MBlock p | MSleep p | MRelock p => (true, p)
  | MDone p => (false, next p)
  end.

(** A worker that has done phase [p] and waits for the one after it. *)
Definition finished (p : WorkerThresholdState) (w : wpc) : bool :=
  match w with
  | WLock q | WTest q | WBlock q | WSleep q => bool_decide (q = next p)
  | _ => false
  end.

Definition worker_ok (sg : bool * WorkerThresholdState) (stop : bool) (w : wpc) : Prop :=
  match w with
  | WLock q | WTest q => q = sg.2 ∨ (sg.1 = true ∧ q = next sg.2)
  | WBlock q | WSleep q => if sg.1 then q = next sg.2 else q = sg.2
  | WRet q => q = sg.2 ∧ (sg.1 = true ∨ stop = true)
  | WWork q | WDone q | WCount q => sg = (true, q)
  | WExit => stop = true
  end.

Definition main_holds (m : mpc) : bool := match m with MStore _ | MTest _ | MBlock _ => true | _ => false end.
Definition worker_holds (w : wpc) : bool :=
  match w with WTest _ | WBlock _ | WRet _ | WCount _ => true | _ => false end.
Definition dtor_holds (d : dpc) : bool := match d with DUnlock _ => true | _ => false end.
Definition holders (s : st) : Z :=
  Z.b2z (main_holds (main s)) + Z.b2z (dtor_holds (dtor s)) + count_if worker_holds (workers s).

(** The worker the destructor is at, once it has told the workers to stop. *)
Definition dtor_index (n : nat) (d : dpc) : option nat :=
  match d with
  | DRun | DJoinMain | DStop => None
  | DSignal i | DUnlock i | DNotify i | DJoin i => Some i
  | DEnd => Some n
  end.
(** It has held the mutex since; it has notified since. *)
Definition sealed (d : dpc) : bool :=
  match d with DUnlock _ | DNotify _ | DJoin _ | DEnd | DSignal (S _) => true | _ => false end.
Definition notified (d : dpc) : bool :=
  match d with DJoin _ | DEnd | DSignal (S _) | DUnlock (S _) | DNotify (S _) => true | _ => false end.

Definition blocked (w : wpc) : bool := match w with WBlock _ => true | _ => false end.
Definition asleep (w : wpc) : bool := match w with WSleep _ => true | _ => false end.
Definition main_waits (m : mpc) : bool := match m with MBlock _ | MSleep _ => true | _ => false end.

Record inv (n : nat) (s : st) : Prop := {
  i_len : length (workers s) = n;
  i_pos : (0 < n)%nat;
  i_u64 : n < 2 ^ 64;
  i_mx : holders s = Z.b2z (mx s);
  i_phase : (stage (main s)).2 ≠ PENDING;
  i_launch : if (stage (main s)).1 then launch_state s = (stage (main s)).2
             else launch_state s ≠ (stage (main s)).2;
  i_count : (stage (main s)).1 = true →
    finish_counter s = count_if (finished (stage (main s)).2) (workers s);
  i_waits : main_waits (main s) = true → finish_counter s ≠ n;
  i_workers : ∀ i w, workers s !! i = Some w → worker_ok (stage (main s)) (worker_shutdown s) w;
  i_shutdown : shutdown s = negb (bool_decide (dtor s = DRun));
  i_stop : worker_shutdown s = bool_decide (is_Some (dtor_index n (dtor s)));
  i_joined : dtor s = DStop ∨ worker_shutdown s = true → main s = MExit;
  i_exit : main s = MExit → shutdown s = true;
  i_index : ∀ i, dtor_index n (dtor s) = Some i →
    (i < n ∨ dtor s = DEnd)%nat ∧ ∀ j w, (j < i)%nat → workers s !! j = Some w → w = WExit;
  i_sealed : sealed (dtor s) = true → count_if blocked (workers s) = 0;
  i_notified : notified (dtor s) = true → count_if asleep (workers s) = 0;
}.

Lemma next_ne p : p ≠ PENDING → next p ≠ p ∧ next p ≠ PENDING.
Proof. by destruct p. Qed.

Lemma barrier_inv_init n : (0 < n)%nat → n < 2 ^ 64 → inv n (init n).
Proof.
  intros Hn Hu. split; simpl; rewrite ?length_replicate ?count_if_replicate //; try by case_decide.
  - rewrite /holders /= count_if_replicate //.
  - intros i w [-> _]%lookup_replicate_1. by left.
  - naive_solver.
Qed.

(** Notifications keep the invariant. *)
Lemma inv_wake n x l c sh stop m d ws :
  inv n (St x l c sh stop m d ws) → inv n (St x l c sh stop m d (wake <$> ws)).
Proof.
  intros [Hl ?? Hx ?? Hc ? Hw ???? Hix Hse Hno].
  split; simpl in *; rewrite ?length_fmap //.
  - rewrite -Hx /holders /= count_if_fmap. f_equal. apply count_if_ext. by intros [].
  - intros Hs. rewrite (Hc Hs) count_if_fmap. apply count_if_ext. by intros [].
  - intros i w. rewrite list_lookup_fmap. intros (w0 & Hi & ->)%fmap_Some.
    specialize (Hw i w0 Hi). destruct w0; simpl in *; try done. destruct (stage m).1; auto.
  - intros i Hi. split; [by apply Hix|]. intros j w Hj. rewrite list_lookup_fmap.
    intros (w0 & Hw0 & ->)%fmap_Some. by rewrite (proj2 (Hix i Hi) j w0 Hj Hw0).
  - intros Hd. rewrite -(Hse Hd) count_if_fmap. apply count_if_ext. by intros [].
  - intros _. apply count_if_none. intros i w. rewrite list_lookup_fmap.
    intros (w0 & _ & ->)%fmap_Some. by destruct w0.
Qed.

Lemma inv_wake_main n x l c sh stop m d ws :
  inv n (St x l c sh stop m d ws) → inv n (St x l c sh stop (wake_main m) d ws).
Proof.
  intros [???????? Hw ?? Hj He ???]. destruct m; try by split. split; simpl in *; try done.
  intros Hd. by specialize (Hj Hd).
Qed.

(** A step of one worker that leaves the counter alone. *)
Lemma inv_worker n x x' l c sh stop m d ws i w w' :
  inv n (St x l c sh stop m d ws) → ws !! i = Some w → w ≠ WExit →
  Z.b2z x' = Z.b2z x - Z.b2z (worker_holds w) + Z.b2z (worker_holds w') →
  ((stage m).1 = true → finished (stage m).2 w' = finished (stage m).2 w) →
  worker_ok (stage m) stop w' →
  (sealed d = true → blocked w' = false) → (notified d = true → asleep w' = false) →
  inv n (St x' l c sh stop m d (<[i := w']> ws)).
Proof.
  intros [Hl ?? Hx ?? Hc ? Hw ???? Hix Hse Hno] Hi Hne Hx' Hfin Hok Hbl Has.
  split; simpl in *; rewrite ?length_insert //.
  - rewrite /holders /= in Hx |- *. rewrite (count_if_insert _ _ _ _ _ Hi). lia.
  - intros Hs. rewrite (count_if_insert _ _ _ _ _ Hi) Hfin // (Hc Hs). lia.
  - intros j q [(-> & -> & _)|[_ Hj]]%list_lookup_insert_Some; eauto.
  - intros k Hk. split; [by apply Hix|]. intros j q Hj [(-> & -> & _)|[_ Hq]]%list_lookup_insert_Some.
    + destruct Hne. by apply (proj2 (Hix k Hk) j).
    + by apply (proj2 (Hix k Hk) j).
  - intros Hd. rewrite (count_if_insert _ _ _ _ _ Hi) (Hse Hd) (Hbl Hd).
    pose proof (count_if_zero _ _ _ _ (Hse Hd) Hi) as ->. done.
  - intros Hd. rewrite (count_if_insert _ _ _ _ _ Hi) (Hno Hd) (Has Hd).
    pose proof (count_if_zero _ _ _ _ (Hno Hd) Hi) as ->. done.
Qed.

(** A worker counts itself done; the main thread does not wait or there is more to come. *)
Lemma inv_counted n x l c sh stop m d ws i p :
  inv n (St x l c sh stop m d ws) → ws !! i = Some (WCount p) →
  main_waits m = false ∨ u64 (c + 1) ≠ n →
  inv n (St false l (u64 (c + 1)) sh stop m d (<[i := WLock (next p)]> ws)).
Proof.
  intros [Hl ?? Hx Hp Hla Hc Hwt Hw ??? Hex Hix Hse Hno] Hi Hcase.
  pose proof (Hw i _ Hi) as Hsg. simpl in *.
  pose proof (count_if_insert (finished p) ws i _ (WLock (next p)) Hi) as Hcnt. simpl in Hcnt.
  rewrite Hsg /= in Hp Hc |- *. rewrite bool_decide_true // /= in Hcnt.
  pose proof (count_if_bounds (finished p) ws) as Hb.
  pose proof (count_if_bounds (finished p) (<[i := WLock (next p)]> ws)) as Hb'.
  rewrite length_insert in Hb'. specialize (Hc eq_refl).
  split; simpl in *; rewrite ?length_insert ?Hsg //.
  - rewrite /holders /= in Hx |- *. rewrite (count_if_insert _ _ _ _ _ Hi) /=.
    pose proof (count_if_pos worker_holds ws i _ Hi eq_refl).
    destruct x, (main_holds m), (dtor_holds d); simpl in *; lia.
  - by rewrite Hsg in Hla.
  - intros _. simpl. rewrite u64_small; lia.
  - intros Hm. destruct Hcase; congruence.
  - intros j q [(<- & <- & _)|[_ Hj]]%list_lookup_insert_Some; [by right|]. rewrite -Hsg. eauto.
  - intros k Hk. split; [by apply Hix|]. intros j q Hj [(<- & <- & _)|[_ Hq]]%list_lookup_insert_Some.
    + by pose proof (proj2 (Hix k Hk) i _ Hj Hi).
    + by apply (proj2 (Hix k Hk) j).
  - intros Hd. rewrite (count_if_insert _ _ _ _ _ Hi) (Hse Hd). done.
  - intros Hd. rewrite (count_if_insert _ _ _ _ _ Hi) (Hno Hd). done.
Qed.

(** A step of the main thread within a stage. *)
Lemma barrier_inv_main n x x' l l' c sh stop m m' d ws :
  inv n (St x l c sh stop m d ws) → stage m' = stage m →
  l' = l ∨ (l' = PENDING ∧ (stage m).1 = false) →
  Z.b2z x' = Z.b2z x - Z.b2z (main_holds m) + Z.b2z (main_holds m') →
  (main_waits m' = true → c ≠ n) → m ≠ MExit → (m' = MExit → sh = true) →
  inv n (St x' l' c sh stop m' d ws).
Proof.
  intros [? ?? Hx Hp Hla Hc ? Hw ?? Hj Hex ???] Hs Hl' Hx' Hwt Hm Hm'.
  split; simpl in *; rewrite ?Hs //.
  - rewrite /holders /= in Hx |- *. lia.
  - destruct Hl' as [->|[-> Hf]]; [done|]. rewrite Hf. congruence.
  - intros Hd. by destruct Hm, Hj.
Qed.

Lemma holders_zero n s : inv n s → mx s = false →
  main_holds (main s) = false ∧ dtor_holds (dtor s) = false ∧ count_if worker_holds (workers s) = 0.
Proof.
  intros [_ _ _ Hx _ _ _ _ _ _ _ _ _ _ _ _] Hm. rewrite Hm /holders /= in Hx.
  pose proof (count_if_bounds worker_holds (workers s)).
  destruct (main_holds (main s)), (dtor_holds (dtor s)); simpl in Hx; (split_and!; [done..|lia]) || lia.
Qed.

(** The mutex is held by the main thread or the destructor: no worker holds it. *)
Lemma worker_holds_none n s : inv n s → main_holds (main s) = true ∨ mx s = false →
  count_if worker_holds (workers s) = 0.
Proof.
  intros [_ _ _ Hx _ _ _ _ _ _ _ _ _ _ _ _] Hm. rewrite /holders in Hx.
  pose proof (count_if_bounds worker_holds (workers s)).
  destruct Hm as [Hm|Hm]; rewrite Hm in Hx; destruct (mx s), (dtor_holds (dtor s)), (main_holds (main s));
    simpl in Hx; try done; lia.
Qed.

Lemma inv_store n x l c sh stop p d ws :
  inv n (St x l c sh stop (MStore p) d ws) → count_if asleep ws = 0 →
  inv n (St x p 0 sh stop (MTest p) d ws).
Proof.
  intros Hinv Has. pose proof (worker_holds_none _ _ Hinv (or_introl eq_refl)) as Hh.
  destruct Hinv as [? ?? Hx Hp Hla Hc ? Hw ?? Hj Hex ???]. simpl in *.
  pose proof (next_ne p Hp) as [Hnp _].
  split; simpl in *; try done.
  - intros _. symmetry. apply count_if_none. intros i w Hi. pose proof (Hw i w Hi) as Ho.
    destruct w; simpl in *; try done; rewrite bool_decide_false //; naive_solver.
  - intros i w Hi. pose proof (Hw i w Hi) as Ho.
    pose proof (count_if_zero _ _ _ _ Hh Hi). pose proof (count_if_zero _ _ _ _ Has Hi).
    destruct w; simpl in *; naive_solver.
  - intros Hd. by specialize (Hj Hd).
Qed.

Lemma inv_return n x l c sh stop p d ws :
  inv n (St x l c sh stop (MTest p) d ws) → count ws = c →
  inv n (St false l c sh stop (MDone p) d ws).
Proof.
  intros [Hlen ?? Hx Hp Hla Hc ? Hw ?? Hj Hex ???] Hn. simpl in *. specialize (Hc eq_refl).
  pose proof (next_ne p Hp) as [Hnp ?].
  split; simpl in *; try done.
  - rewrite /holders /= in Hx |- *. pose proof (count_if_bounds worker_holds ws).
    destruct x, (dtor_holds d); simpl in *; lia.
  - congruence.
  - intros i w Hi. assert (count_if (finished p) ws = length ws) as Hall by (rewrite -Hc -Hn //).
    pose proof (count_if_all _ _ _ _ Hall Hi) as Hf.
    destruct w; simpl in *; try done; apply bool_decide_eq_true in Hf; auto.
  - intros Hd. by specialize (Hj Hd).
Qed.

(** Once the workers have been told to stop, every wait for them is over. *)
Lemma stop_ready n s : inv n s → worker_shutdown s = true →
  (stage (main s)) = (false, PARALLEL_MARK) ∧ ready (launch_state s) (worker_shutdown s) PARALLEL_MARK = true.
Proof.
  intros Hinv Hst. rewrite (i_joined _ _ Hinv (or_intror Hst)) Hst. split; [done|].
  apply orb_true_r.
Qed.

Lemma sealed_stop n d : sealed d = true → is_Some (dtor_index n d).
Proof. destruct d; naive_solver. Qed.
Lemma notified_sealed d : notified d = true → sealed d = true.
Proof. by destruct d as [| | |[]|[]|[]|[]|]. Qed.

(** A wait that ends was a wait for the phase that runs. *)
Lemma wait_test_finished n x l c sh stop m d ws i p :
  inv n (St x l c sh stop m d ws) → ws !! i = Some (WTest p) → (stage m).1 = true →
  finished (stage m).2 (if ready l stop p then WRet p else WBlock p) = finished (stage m).2 (WTest p).
Proof.
  intros Hinv Hi. pose proof (stop_ready _ _ Hinv) as Hst. pose proof (i_launch _ _ Hinv) as Hla.
  pose proof (next_ne _ (i_phase _ _ Hinv)) as [Hn _]. simpl in *.
  destruct (stage m) as [r q]. simpl in *. intros ->. destruct (ready l stop p) eqn:Hr; [|done].
  rewrite bool_decide_false //. intros ->. destruct stop; [by destruct (Hst eq_refl) as [[=] _]|].
  rewrite /ready bool_decide_false /= ?andb_false_r // in Hr. congruence.
Qed.

(** Steps of a worker in its wait. *)
Lemma inv_wait_test n x l c sh stop m d ws i p :
  inv n (St x l c sh stop m d ws) → ws !! i = Some (WTest p) →
  inv n (St x l c sh stop m d (<[i := if ready l stop p then WRet p else WBlock p]> ws)).
Proof.
  intros Hinv Hi. pose proof (stop_ready _ _ Hinv) as Hst. pose proof (i_workers _ _ Hinv _ _ Hi) as Ho.
  pose proof (i_launch _ _ Hinv) as Hla. pose proof (next_ne _ (i_phase _ _ Hinv)) as [Hn _].
  pose proof (i_stop _ _ Hinv) as Hds. simpl in *.
  eapply inv_worker; [exact Hinv|exact Hi|done|destruct (ready l stop p); simpl; lia| | | |].
  - by apply (wait_test_finished _ _ _ _ _ _ _ _ _ _ _ Hinv Hi).
  - destruct (stage m) as [r q]. simpl in *. rewrite /ready. destruct stop; simpl.
    + destruct (Hst eq_refl) as [[= -> ->] _]. destruct Ho as [->|[? _]]; [|done].
      rewrite orb_true_r. simpl. auto.
    + rewrite andb_false_r orb_false_r. clear Hst Hds.
      case_bool_decide; simpl; destruct r; naive_solver.
  - intros Hd. rewrite (bool_decide_true _ (sealed_stop n d Hd)) in Hds. subst stop.
    destruct (Hst eq_refl) as [Hs Hr]. rewrite Hs in Ho. destruct Ho as [->|[? _]]; [|done]. by rewrite Hr.
  - by destruct (ready l stop p).
Qed.

Lemma inv_wait_return n x l c sh stop m d ws i p :
  inv n (St x l c sh stop m d ws) → ws !! i = Some (WRet p) →
  inv n (St false l c sh stop m d (<[i := after_wait stop p]> ws)).
Proof.
  intros Hinv Hi. pose proof (stop_ready _ _ Hinv) as Hst. pose proof (i_workers _ _ Hinv _ _ Hi) as Ho.
  pose proof (i_mx _ _ Hinv) as Hx. simpl in *. rewrite /holders /= in Hx.
  pose proof (count_if_pos worker_holds ws i _ Hi eq_refl).
  assert (x = true) as -> by (destruct x, (main_holds m), (dtor_holds d); simpl in Hx; try done; lia).
  eapply inv_worker; [exact Hinv|exact Hi|done| | | |by rewrite /after_wait; case_match..].
  - rewrite /after_wait. by case_match.
  - rewrite /after_wait. by case_match.
  - rewrite /after_wait. destruct stop; [|rewrite andb_false_r /=; destruct (stage m); naive_solver].
    destruct (Hst eq_refl) as [Hs _]. rewrite Hs in Ho. destruct Ho as [-> _]. by rewrite bool_decide_true.
Qed.

(** Steps of the destructor. *)
Lemma worker_ok_stop sg stop w : worker_ok sg stop w → worker_ok sg true w.
Proof. destruct w; simpl; naive_solver. Qed.

Lemma inv_dtor n x x' l c sh sh' stop stop' m d d' ws :
  inv n (St x l c sh stop m d ws) → (stop = true → stop' = true) → (sh = true → sh' = true) →
  sh' = negb (bool_decide (d' = DRun)) → stop' = bool_decide (is_Some (dtor_index n d')) →
  Z.b2z x' = Z.b2z x - Z.b2z (dtor_holds d) + Z.b2z (dtor_holds d') →
  (d' = DStop ∨ stop' = true → m = MExit) →
  (∀ i, dtor_index n d' = Some i →
    (i < n ∨ d' = DEnd)%nat ∧ ∀ j w, (j < i)%nat → ws !! j = Some w → w = WExit) →
  (sealed d' = true → count_if blocked ws = 0) → (notified d' = true → count_if asleep ws = 0) →
  inv n (St x' l c sh' stop' m d' ws).
Proof.
  intros [? ?? Hx ?? Hc ? Hw ?? Hj Hex ???] Hst Hsh Hs1 Hs2 Hx' Hm Hix Hse Hno.
  split; simpl in *; try done.
  - rewrite /holders /= in Hx |- *. lia.
  - intros i w Hi. pose proof (Hw i w Hi) as Ho.
    destruct stop'; [by eapply worker_ok_stop|]. destruct stop; [by specialize (Hst eq_refl)|done].
  - intros Hm'. auto.
Qed.

(** No worker is about to sleep while nobody holds the mutex. *)
Lemma blocked_holds ws : count_if worker_holds ws = 0 → count_if blocked ws = 0.
Proof.
  intros H0. apply count_if_none. intros i w Hi. pose proof (count_if_zero _ _ _ _ H0 Hi).
  by destruct w.
Qed.

Lemma asleep_wake ws : count_if asleep (wake <$> ws) = 0.
Proof. rewrite count_if_fmap. apply count_if_none. by intros i []. Qed.

(** The destructor stays at its worker. *)
Ltac same_index H := let k := fresh in let Hk := fresh in
  intros k Hk; destruct (H k Hk) as [[?|?] ?]; [split; [by left|done]|done].

Lemma inv_dtor_step n s s' : inv n s → step s s' → dtor s' = dtor s ∨ inv n s'.
Proof.
  intros Hinv Hs. destruct Hs; simpl; try (left; reflexivity); right;
    destruct (Hinv) as [Hlen Hpos _ Hmx _ _ _ _ _ Hsh Hst Hj Hex Hix Hse Hno]; simpl in *.
  - (* dtor_shutdown *)
    eapply inv_dtor; [exact Hinv|done|done|done|done|simpl; lia| |done|done|done].
    intros [?|?]; [done|auto].
  - eapply inv_dtor; [exact Hinv|done|done|done|done|simpl; lia|done|done|done|done].
  - eapply inv_dtor; [exact Hinv|done|done|done|done|simpl; lia|auto| |done|done].
    simpl. intros i [= <-]. split; [by left|]. intros j w Hj'. lia.
  - destruct (holders_zero _ _ Hinv eq_refl) as (_ & _ & Hw0).
    eapply inv_dtor; [exact Hinv|done|done|done|done|simpl; lia|auto|same_index Hix| |by destruct i].
    intros _. by apply blocked_holds.
  - assert (x = true) as ->.
    { rewrite /holders /= in Hmx. pose proof (count_if_bounds worker_holds ws).
      destruct x, (main_holds m); simpl in Hmx; try done; lia. }
    eapply inv_dtor; [exact Hinv|done|done|done|done|simpl; lia|auto|same_index Hix|auto|by destruct i].
  - apply inv_wake, inv_wake_main in Hinv. pose proof (i_index _ _ Hinv) as Hix'.
    pose proof (i_sealed _ _ Hinv) as Hse'. pose proof (i_joined _ _ Hinv) as Hj'.
    eapply inv_dtor; [exact Hinv|done|done|done|done|simpl; lia|auto|same_index Hix'|auto|].
    intros _. apply asleep_wake.
  - destruct (Hix i eq_refl) as [[Hi|?] Hex']; [|done].
    assert (∀ j w, (j < S i)%nat → ws !! j = Some w → w = WExit) as Hex2.
    { intros j w Hji Hw. destruct (decide (j = i)) as [->|]; [congruence|]. apply (Hex' j w); [lia|done]. }
    case_bool_decide; (eapply inv_dtor;
      [exact Hinv|done|done|done|done|simpl; lia|by intros [?|?]; auto| |auto|auto]).
    + intros k [= <-]. split; [left; lia|done].
    + intros k [= <-]. split; [by right|]. intros j w Hjn. apply Hex2. lia.
Qed.

(** The mutex is locked when a thread is where it holds it. *)
Lemma inv_held n s : inv n s →
  (main_holds (main s) = true ∨ ∃ i w, workers s !! i = Some w ∧ worker_holds w = true) → mx s = true.
Proof.
  intros Hinv Hh. destruct (mx s) eqn:E; [done|].
  destruct (holders_zero _ _ Hinv E) as (Hm & _ & Hw).
  destruct Hh as [?|(i & w & Hi & Hwh)]; [congruence|].
  pose proof (count_if_zero _ _ _ _ Hw Hi). congruence.
Qed.

Lemma barrier_inv_step n s s' : inv n s → step s s' → inv n s'.
Proof.
  intros Hinv Hs. destruct (inv_dtor_step _ _ _ Hinv Hs) as [Hd|]; [|done].
  pose proof (inv_held _ _ Hinv) as Hheld.
  destruct Hs as [| | | | | | | | | |??????? i p Hi|???????? i p Hi|???????? i p Hi|???????? i p Hi|
      ???????? i p Hi|???????? i p Hi|??????? i p Hi|???????? i p Hi Hc|???????? i p Hi Hc| | | | | | |];
    simpl in Hd; try done; try (by case_bool_decide); pose proof (i_len _ _ Hinv) as Hlen; simpl in *.
  - by eapply barrier_inv_main; [exact Hinv|..]; auto.
  - apply inv_wake in Hinv. by apply inv_store with l c; [|apply asleep_wake].
  - by apply inv_return with x.
  - eapply barrier_inv_main; [exact Hinv|done|by left|simpl; lia| |done|done]. rewrite /count in H. intros _. lia.
  - rewrite Hheld in Hinv; [|by left]. eapply barrier_inv_main; [exact Hinv|done|by left|done| |done|done].
    intros _. by apply (i_waits _ _ Hinv).
  - by eapply barrier_inv_main; [exact Hinv|..]; auto.
  - eapply barrier_inv_main; [exact Hinv|done|by left|simpl; lia|done|done|done].
  - eapply barrier_inv_main; [exact Hinv|done|by left|simpl; lia|done|done|done].
  - eapply barrier_inv_main; [exact Hinv|done|by left|simpl; lia|done|done|done].
  - eapply barrier_inv_main; [exact Hinv|done|by right|simpl; lia|done|done|done].
  - eapply inv_worker; [exact Hinv|exact Hi|done|done|done| |done|done]. apply (i_workers _ _ Hinv _ _ Hi).
  - pose proof (inv_wait_test _ _ _ _ _ _ _ _ _ _ _ Hinv Hi) as Ht. by rewrite H in Ht.
  - pose proof (inv_wait_test _ _ _ _ _ _ _ _ _ _ _ Hinv Hi) as Ht. by rewrite H in Ht.
  - rewrite Hheld in Hinv; [|by right; eexists _, _].
    eapply inv_worker; [exact Hinv|exact Hi|done|done|done|apply (i_workers _ _ Hinv _ _ Hi)|done|].
    intros Hn%notified_sealed. pose proof (count_if_zero _ _ _ _ (i_sealed _ _ Hinv Hn) Hi). done.
  - by eapply inv_wait_return.
  - eapply inv_worker; [exact Hinv|exact Hi|done|simpl; lia|done|apply (i_workers _ _ Hinv _ _ Hi)|done|done].
  - eapply inv_worker; [exact Hinv|exact Hi|done|done|done|apply (i_workers _ _ Hinv _ _ Hi)|done|done].
  - eapply inv_counted; [exact Hinv|exact Hi|]. right. rewrite /count in Hc. lia.
  - apply inv_wake. pose proof (worker_holds_none _ _ Hinv) as Hnone. apply inv_wake_main in Hinv.
    eapply inv_counted; [exact Hinv|exact Hi|]. left. destruct m; try done.
    by pose proof (count_if_zero _ _ _ _ (Hnone (or_introl eq_refl)) Hi).
Qed.

Lemma inv_spurious n s s' : inv n s → spurious s s' → inv n s'.
Proof.
  intros Hinv Hs. destruct Hs as [|x l c sh stop m d ws i p Hi].
  - apply (inv_wake_main _ _ _ _ _ _ (MSleep p)), Hinv.
  - pose proof (i_workers _ _ Hinv _ _ Hi) as Ho.
    eapply inv_worker; [exact Hinv|exact Hi|done|simpl; lia|done| |done|done].
    simpl in *. destruct (stage m).1; auto.
Qed.

Lemma barrier_inv_reachable n s : (0 < n)%nat → n < 2 ^ 64 → reachable n s → inv n s.
Proof.
  intros Hn Hu Hr. pose proof (barrier_inv_init n Hn Hu) as Hi. revert Hi.
  induction Hr as [|a b c [Hs|Hs] _ IH]; eauto using barrier_inv_step, inv_spurious.
Qed.

End Barrier.
