(* ===== verification/BarrierSpec.v ===== *)
(** * Properties of the phases of a collection

    The coordination of the main thread, the workers and the destructor implements a machine that goes through
    the phases in order, each worker once per phase; a launch returns and a shutdown
    ends, whatever thread runs next. *)

From Stdlib Require Import Wellfounded.
From S2P Require Import Prelude Barrier.
Import Barrier.
Open Scope Z_scope.

(** ** The abstract machine *)

(** Between phases, [p] being the next, or in a phase, with the workers that are done. *)
Inductive phases := Rest (p : WorkerThresholdState) | Run (p : WorkerThresholdState) (ds : list bool).

Inductive phase_step (n : nat) : phases → phases → Prop :=
| phase_launch p : phase_step n (Rest p) (Run p (replicate n false))
| phase_worker p ds i : ds !! i = Some false → phase_step n (Run p ds) (Run p (<[i := true]> ds))
| phase_return p : phase_step n (Run p (replicate n true)) (Rest (next p)).

Definition view (s : st) : phases :=
  let '(r, p) := stage (main s) in if r then Run p (finished p <$> workers s) else Rest p.

Lemma view_worker x x' l l' c c' sh sh' stop stop' m d d' ws i w w' :
  ws !! i = Some w → ((stage m).1 = true → finished (stage m).2 w' = finished (stage m).2 w) →
  view (St x' l' c' sh' stop' m d' (<[i := w']> ws)) = view (St x l c sh stop m d ws).
Proof.
  intros Hi Hf. rewrite /view /=. destruct (stage m) as [[] p]; [|done]. simpl in *.
  rewrite list_fmap_insert Hf //. f_equal. apply list_insert_id. by rewrite list_lookup_fmap Hi.
Qed.

Lemma view_wake x l c sh stop m d ws :
  view (St x l c sh stop m d (wake <$> ws)) = view (St x l c sh stop m d ws).
Proof.
  rewrite /view /=. destruct (stage m) as [[] p]; [|done]. f_equal.
  rewrite -list_fmap_compose. apply list_fmap_ext. by intros ? [].
Qed.

Lemma view_wake_main x l c sh stop m d ws :
  view (St x l c sh stop (wake_main m) d ws) = view (St x l c sh stop m d ws).
Proof. by destruct m. Qed.

(** All the elements of a list are the same. *)
Lemma all_replicate {A} (l : list A) a : (∀ i x, l !! i = Some x → x = a) → l = replicate (length l) a.
Proof.
  intros Ha. symmetry. apply replicate_as_elem_of. split; [done|]. intros x [i Hx]%list_elem_of_lookup. eauto.
Qed.

Lemma view_store n x l c sh stop p d ws :
  inv n (St x p 0 sh stop (MTest p) d ws) → phase_step n (view (St x l c sh stop (MStore p) d ws))
    (view (St x p 0 sh stop (MTest p) d ws)).
Proof.
  intros Hinv. rewrite /view /=. replace (finished p <$> ws) with (replicate n false); [constructor|].
  symmetry. rewrite -(i_len _ _ Hinv) /= -(length_fmap (finished p)). apply all_replicate.
  intros i b. rewrite list_lookup_fmap. intros (w & Hi & ->)%fmap_Some.
  pose proof (i_count _ _ Hinv eq_refl) as Hc. simpl in Hc. by eapply count_if_zero.
Qed.

Lemma view_return n x l c sh stop p d ws :
  inv n (St x l c sh stop (MTest p) d ws) → count ws = c →
  phase_step n (view (St x l c sh stop (MTest p) d ws)) (view (St false l c sh stop (MDone p) d ws)).
Proof.
  intros Hinv Hn. rewrite /view /=. replace (finished p <$> ws) with (replicate n true); [constructor|].
  symmetry. rewrite -(i_len _ _ Hinv) /= -(length_fmap (finished p)). apply all_replicate.
  intros i b. rewrite list_lookup_fmap. intros (w & Hi & ->)%fmap_Some.
  pose proof (i_count _ _ Hinv eq_refl) as Hc. simpl in Hc.
  eapply count_if_all; [|exact Hi]. by rewrite -Hc -Hn.
Qed.

Lemma view_counted n x l c sh stop m d ws i p :
  inv n (St x l c sh stop m d ws) → ws !! i = Some (WCount p) →
  ∀ x' c', phase_step n (view (St x l c sh stop m d ws))
    (view (St x' l c' sh stop m d (<[i := WLock (next p)]> ws))).
Proof.
  intros Hinv Hi x' c'. pose proof (i_workers _ _ Hinv _ _ Hi) as Hsg. simpl in Hsg.
  rewrite /view /= Hsg list_fmap_insert /= bool_decide_true //.
  constructor. by rewrite list_lookup_fmap Hi.
Qed.

Lemma view_step n s s' : inv n s → step s s' → view s' = view s ∨ phase_step n (view s) (view s').
Proof.
  intros Hinv Hs. pose proof (barrier_inv_step _ _ _ Hinv Hs) as Hinv'.
  destruct Hs as [| | | | | | | | | |??????? i p Hi|???????? i p Hi Hr|???????? i p Hi Hr|???????? i p Hi|
      ???????? i p Hi|???????? i p Hi|??????? i p Hi|???????? i p Hi Hc|???????? i p Hi Hc| | | | | | |];
    try (left; reflexivity); try (left; by apply (view_worker _ _ _ _ _ _ _ _ _ _ _ _ _ _ _ _ _ Hi)).
  - right. exact (view_store n x l c sh stop p d (wake <$> ws) Hinv').
  - right. by apply view_return.
  - left. eapply view_worker; [exact Hi|]. intros Hs.
    pose proof (wait_test_finished _ _ _ _ _ _ _ _ _ _ _ Hinv Hi Hs) as Hf. by rewrite Hr in Hf.
  - left. eapply view_worker; [exact Hi|]. intros _. rewrite /after_wait. by case_match.
  - right. by apply view_counted.
  - right. rewrite view_wake view_wake_main. by apply view_counted.
  - left. by rewrite view_wake view_wake_main.
Qed.

(** ** No deadlock *)

Lemma holder_steps n s : inv n s → mx s = true → ∃ s', step s s'.
Proof.
  intros Hinv Hx. pose proof (i_mx _ _ Hinv) as Hh. destruct s as [x l c sh stop m d ws].
  rewrite /holders /= in Hx Hh. subst x. simpl in Hh.
  destruct (main_holds m) eqn:Hm.
  { destruct m; try done; [eexists; apply launch_store| |eexists; apply launch_sleep].
    destruct (decide (count ws = c)); eexists; [by apply launch_return|by apply launch_wait]. }
  destruct (dtor_holds d) eqn:Hd; [destruct d; try done; eexists; apply dtor_unlock|].
  destruct (count_if_exists worker_holds ws) as (i & w & Hi & Hw); [simpl in Hh; lia|].
  destruct w as [p|p|p|p|p|p|p|p|]; try done.
  - destruct (ready l stop p) eqn:Hr; eexists; [by eapply wait_true|by eapply wait_false].
  - eexists. by eapply wait_sleep.
  - eexists. by eapply wait_return.
  - destruct (decide (u64 (c + 1) = count ws)); eexists; [by eapply done_last|by eapply done_count].
Qed.

(** A worker that needs at most the mutex to go on. *)
Definition active (w : wpc) : bool := match w with WLock _ | WWork _ | WDone _ => true | _ => false end.

Lemma active_steps l c sh stop m d ws :
  0 < count_if active ws → ∃ s', step (St false l c sh stop m d ws) s'.
Proof.
  intros (i & w & Hi & Hw)%count_if_exists.
  destruct w as [p|p|p|p|p|p|p|p|]; try done; eexists;
    [by eapply wait_lock|by eapply work_done|by eapply done_lock].
Qed.

(** Nobody holds the mutex and no worker is active: each sleeps or has returned. *)
Lemma quiet_worker n s i w : inv n s → mx s = false → count_if active (workers s) ≤ 0 →
  workers s !! i = Some w → asleep w = true ∨ w = WExit.
Proof.
  intros Hinv Hx Ha Hi. destruct (holders_zero _ _ Hinv Hx) as (_ & _ & Hh).
  pose proof (count_if_bounds active (workers s)).
  pose proof (count_if_zero _ _ _ _ Hh Hi). pose proof (count_if_zero active (workers s) i w ltac:(lia) Hi).
  destruct w; auto; done.
Qed.

(** The main thread does not sleep when the workers do. *)
Lemma quiet_main n s p : inv n s → mx s = false → count_if active (workers s) ≤ 0 → main s ≠ MSleep p.
Proof.
  intros Hinv Hx Ha Hm. pose proof (i_waits _ _ Hinv) as Hwt. pose proof (i_count _ _ Hinv) as Hc.
  pose proof (i_workers _ _ Hinv) as Hw. pose proof (i_joined _ _ Hinv) as Hj. rewrite Hm in Hwt Hc Hw Hj.
  apply Hwt; [done|]. rewrite Hc // -(i_len _ _ Hinv). simpl.
  enough (finished p <$> workers s = replicate (length (workers s)) true) as Hall.
  { rewrite -(count_if_fmap id) Hall. clear. induction (length (workers s)); simpl; [done|lia]. }
  rewrite -(length_fmap (finished p) (workers s)). apply all_replicate. intros i b.
  rewrite list_lookup_fmap. intros (w & Hi & ->)%fmap_Some.
  pose proof (Hw i w Hi) as Ho.
  destruct (quiet_worker _ _ _ _ Hinv Hx Ha Hi) as [Hs| ->]; [|by specialize (Hj (or_intror Ho))].
  destruct w; try done. simpl in *. by apply bool_decide_eq_true.
Qed.

Lemma progress n s : inv n s → dtor s = DEnd ∨ ∃ s', step s s'.
Proof.
  intros Hinv. destruct (mx s) eqn:Hx; [right; by eapply holder_steps|].
  destruct (decide (0 < count_if active (workers s))) as [Ha|Ha].
  { right. destruct s. simpl in *. subst. by apply active_steps. }
  apply Z.nlt_ge in Ha. pose proof (quiet_main n s) as Hmain.
  pose proof (quiet_worker n s) as Hquiet. destruct (holders_zero _ _ Hinv Hx) as (Hm0 & Hd0 & _).
  pose proof (i_exit _ _ Hinv) as Hex. pose proof (i_shutdown _ _ Hinv) as Hsh.
  pose proof (i_index _ _ Hinv) as Hix. pose proof (i_notified _ _ Hinv) as Hno.
  pose proof (i_len _ _ Hinv) as Hlen.
  destruct s as [x l c sh stop m d ws]. simpl in *. subst x.
  destruct m as [|p|p|p|p|p|p|p|]; try done.
  - right. destruct sh; eexists; [apply main_exit|apply main_start].
  - right. eexists. apply launch_lock.
  - by destruct (Hmain p Hinv eq_refl Ha).
  - right. eexists. apply launch_relock.
  - right. destruct (decide (p = SWEEP)) as [->|]; eexists; [apply main_rest|by apply main_next].
  - specialize (Hex eq_refl). subst sh.
    destruct d as [| | |i|i|i|i|]; try done;
      [right; eexists; apply dtor_join_main|right; eexists; apply dtor_stop|right; eexists; apply dtor_lock|
       right; eexists; apply dtor_notify| |by left].
    right. destruct (Hix i eq_refl) as [[Hi|?] _]; [|done].
    destruct (lookup_lt_is_Some_2 ws i) as [w Hw]; [lia|].
    destruct (Hquiet i w Hinv eq_refl Ha Hw) as [Hs| ->]; [|eexists; by apply dtor_join].
    pose proof (count_if_zero _ _ _ _ (Hno eq_refl) Hw). congruence.
Qed.

(** ** Every step but the start of a collection comes closer to the end *)

Definition phase_rank (p : WorkerThresholdState) : nat :=
  match p with PARALLEL_MARK => 8 | FINAL_MARK => 4 | _ => 0 end.
Definition main_rank (m : mpc) : nat :=
  match m with
  | MExit => 0
  | MIdle => 1
  | MDone p => 2 + phase_rank p
  | MTest p | MBlock p | MSleep p | MRelock p => 3 + phase_rank p
  | MStore p => 4 + phase_rank p
  | MLock p => 5 + phase_rank p
  end.
Definition dtor_rank (n : nat) (d : dpc) : nat :=
  match d with
  | DRun => 4 * n + 6
  | DJoinMain => 4 * n + 5
  | DStop => 4 * n + 4
  | DSignal i => 4 * (n - i) + 3
  | DUnlock i => 4 * (n - i) + 2
  | DNotify i => 4 * (n - i) + 1
  | DJoin i => 4 * (n - i)
  | DEnd => 0
  end.
Definition unfinished (m : mpc) (ws : list wpc) : nat :=
  if (stage m).1 then (length ws - Z.to_nat (count_if (finished (stage m).2) ws))%nat else 0%nat.
Definition main_weight (m : mpc) : nat :=
  match m with MRelock _ => 4 | MTest _ => 3 | MBlock _ => 2 | MSleep _ => 1 | _ => 0 end.
Definition weight (w : wpc) : nat :=
  match w with
  | WLock _ => 7 | WTest _ => 6 | WBlock _ => 5 | WSleep _ => 4
  | WRet _ => 3 | WWork _ => 2 | WDone _ => 1 | WCount _ | WExit => 0
  end.

Definition rank (n : nat) (s : st) : nat * nat * nat :=
  (main_rank (main s) + dtor_rank n (dtor s), unfinished (main s) (workers s),
   main_weight (main s) + sum_list_with weight (workers s))%nat.

Lemma unfinished_same m ws i w w' :
  ws !! i = Some w → ((stage m).1 = true → finished (stage m).2 w' = finished (stage m).2 w) →
  unfinished m (<[i := w']> ws) = unfinished m ws.
Proof.
  intros Hi Hf. rewrite /unfinished length_insert (count_if_insert _ _ _ _ _ Hi).
  destruct (stage m).1; [|done]. rewrite Hf //. do 2 f_equal. lia.
Qed.

Lemma unfinished_wake m ws : unfinished m (wake <$> ws) = unfinished m ws.
Proof.
  rewrite /unfinished length_fmap count_if_fmap. destruct (stage m).1; [|done]. do 2 f_equal.
  apply count_if_ext. by intros [].
Qed.

(** A step of one worker that is not its count. *)
Lemma rank_worker n x x' l c sh stop m d ws i w w' :
  ws !! i = Some w → ((stage m).1 = true → finished (stage m).2 w' = finished (stage m).2 w) →
  (weight w' < weight w)%nat →
  lower (rank n (St x' l c sh stop m d (<[i := w']> ws))) (rank n (St x l c sh stop m d ws)).
Proof.
  intros Hi Hf Hw. right. split; [done|]. right. simpl. rewrite (unfinished_same _ _ _ _ _ Hi Hf).
  pose proof (sum_list_with_insert weight ws i w w' Hi). lia.
Qed.

Lemma rank_counted n x l c sh stop m d ws i p :
  inv n (St x l c sh stop m d ws) → ws !! i = Some (WCount p) → ∀ x' c' m' ws',
  m' = m ∨ m' = wake_main m →
  ws' = <[i := WLock (next p)]> ws ∨ ws' = wake <$> <[i := WLock (next p)]> ws →
  lower (rank n (St x' l c' sh stop m' d ws')) (rank n (St x l c sh stop m d ws)).
Proof.
  intros Hinv Hi x' c' m' ws' Hm Hws. pose proof (i_workers _ _ Hinv _ _ Hi) as Hsg. simpl in Hsg.
  assert (stage m' = stage m ∧ main_rank m' = main_rank m) as [Hs Hr].
  { destruct Hm as [->| ->]; [done|]. by destruct m. }
  assert (unfinished m' ws' = unfinished m' (<[i := WLock (next p)]> ws)) as Hu.
  { destruct Hws as [->| ->]; [done|apply unfinished_wake]. }
  right. simpl. rewrite Hu Hr. split; [done|]. left.
  rewrite /unfinished Hs Hsg /= length_insert (count_if_insert _ _ _ _ _ Hi) /= bool_decide_true //=.
  pose proof (count_if_bounds (finished p) (<[i := WLock (next p)]> ws)) as Hb.
  rewrite length_insert (count_if_insert _ _ _ _ _ Hi) /= bool_decide_true //= in Hb.
  pose proof (count_if_bounds (finished p) ws). lia.
Qed.

(** A step of the main thread or the destructor to a later point. *)
Lemma rank_later n x x' l l' c c' sh sh' stop stop' m m' d d' ws ws' :
  (main_rank m' + dtor_rank n d' < main_rank m + dtor_rank n d)%nat →
  lower (rank n (St x' l' c' sh' stop' m' d' ws')) (rank n (St x l c sh stop m d ws)).
Proof. by left. Qed.

Lemma rank_main n x x' l c sh stop m m' d ws :
  stage m' = stage m → main_rank m' = main_rank m → (main_weight m' < main_weight m)%nat →
  lower (rank n (St x' l c sh stop m' d ws)) (rank n (St x l c sh stop m d ws)).
Proof. intros Hs Hr Hw. right. rewrite /= /unfinished Hs Hr. split; [done|]. right. split; [done|lia]. Qed.

Lemma rank_step n s s' :
  inv n s → step s s' → (main s = MIdle → shutdown s = true) → lower (rank n s') (rank n s).
Proof.
  intros Hinv Hs Hidle. pose proof (i_phase _ _ Hinv) as Hp. pose proof (i_index _ _ Hinv) as Hix.
  pose proof (i_len _ _ Hinv) as Hlen.
  destruct Hs as [| | | | | | | | | |??????? i p Hi|???????? i p Hi Hr|???????? i p Hi Hr|???????? i p Hi|
      ???????? i p Hi|???????? i p Hi|??????? i p Hi|???????? i p Hi Hc|???????? i p Hi Hc| | | | | | |];
    simpl in *; try (apply rank_later; simpl; lia); try (apply rank_main; simpl; [done|done|lia]);
    try (apply (rank_worker _ _ _ _ _ _ _ _ _ _ _ _ _ Hi); [done|simpl; lia]).
  - by specialize (Hidle eq_refl).
  - apply rank_later. destruct p; simpl in *; try done; lia.
  - apply (rank_worker _ _ _ _ _ _ _ _ _ _ _ _ _ Hi); [|simpl; lia].
    intros Hs. pose proof (wait_test_finished _ _ _ _ _ _ _ _ _ _ _ Hinv Hi Hs) as Hf. by rewrite Hr in Hf.
  - apply (rank_worker _ _ _ _ _ _ _ _ _ _ _ _ _ Hi); rewrite /after_wait; [by case_match|].
    case_match; simpl; lia.
  - eapply rank_counted; [exact Hinv|exact Hi|by left|by left].
  - eapply rank_counted; [exact Hinv|exact Hi|by right|by right].
  - apply rank_later. replace (main_rank (wake_main m)) with (main_rank m) by (by destruct m). simpl. lia.
  - apply rank_later. destruct (Hix i eq_refl) as [[Hi|?] _]; [|done].
    case_bool_decide; simpl; lia.
Qed.

(** ** What happens whatever thread runs next *)

Lemma inevitable n (P J : st → Prop) s :
  (∀ t, inv n t → J t → P t ∨
     ((main t = MIdle → shutdown t = true) ∧ dtor t ≠ DEnd ∧ ∀ t', step t t' → J t')) →
  inv n s → J s → inevitably step P s.
Proof.
  intros Hstep Hinv HJ. apply (inevitably_rank step (rank n) (λ t, inv n t ∧ J t)); [|done].
  intros t [Ht HJt]. destruct (Hstep t Ht HJt) as [|(Hi & Hd & Hnext)]; [by left|]. right. split.
  - by destruct (progress n t Ht).
  - intros t' Ht'. split; [split; [by eapply barrier_inv_step|by apply Hnext]|by apply rank_step].
Qed.

Definition launching (p : WorkerThresholdState) (m : mpc) : Prop :=
  m = MLock p ∨ m = MStore p ∨ m = MTest p ∨ m = MBlock p ∨ m = MSleep p ∨ m = MRelock p.

(** A launch goes on until it returns. *)
Lemma launching_step p s s' : step s s' → launching p (main s) → launching p (main s') ∨ main s' = MDone p.
Proof.
  rewrite /launching. intros Hs. destruct Hs; simpl; try tauto; try (by naive_solver);
    destruct m; simpl; naive_solver.
Qed.

(** ** Properties *)

(** C11: a launch of a phase returns.  From every reachable state in which the main thread
    has entered [launch_worker_and_wait_until_done], whatever threads run and in whatever
    order, some thread can always go on and after finitely many steps the call has returned. *)
Theorem launch_returns n s p (Hn : (0 < n)%nat) (Hu : n < 2 ^ 64) (Hs : reachable n s)
    (Hm : launching p (main s)) : inevitably step (λ t, main t = MDone p) s.
Proof.
  apply (inevitable n _ (λ t, launching p (main t) ∨ main t = MDone p)); [|by apply barrier_inv_reachable|by left].
  intros t Hinv [HJ|HJ]; [right|by left]. split_and!.
  - intros E. rewrite E in HJ. destruct HJ; naive_solver.
  - intros E. pose proof (i_stop _ _ Hinv) as Hst. rewrite E bool_decide_true in Hst; [|done].
    rewrite (i_joined _ _ Hinv (or_intror Hst)) in HJ. destruct HJ; naive_solver.
  - intros t' Ht. by eapply launching_step.
Qed.

(** C20: the destructor ends.  From every reachable state in which [~GC] has been entered, whatever threads
    run and in whatever order, finitely many steps lead to a state in which the
    destructor has joined all threads; then the main thread and every worker have returned. *)
Theorem shutdown_ends n s (Hn : (0 < n)%nat) (Hu : n < 2 ^ 64) (Hs : reachable n s)
    (Hd : dtor s ≠ DRun) :
  inevitably step (λ t, dtor t = DEnd ∧ main t = MExit ∧ ∀ i w, workers t !! i = Some w → w = WExit) s.
Proof.
  assert (inv n s) as Hi by (by apply barrier_inv_reachable).
  apply (inevitable n _ (λ t, dtor t ≠ DRun)); [|done|done].
  intros t Hinv HJ. pose proof (i_shutdown _ _ Hinv) as Hsh. rewrite bool_decide_false // in Hsh.
  destruct (decide (dtor t = DEnd)) as [E|E].
  - left. split; [done|]. split.
    + apply (i_joined _ _ Hinv). right. by rewrite (i_stop _ _ Hinv) E.
    + intros i w Hw. apply (proj2 (i_index _ _ Hinv n ltac:(by rewrite E)) i w); [|done].
      apply lookup_lt_Some in Hw. by rewrite (i_len _ _ Hinv) in Hw.
  - right. split_and!; [done|done|]. intros t' Ht. destruct Ht; simpl in *; try done. by case_bool_decide.
Qed.

(** A worker works in a phase only while the main thread waits in the launch of that phase,
    so two workers at work are in the same phase and none is at work between launches. *)
Theorem phase_exclusion n s i p (Hn : (0 < n)%nat) (Hu : n < 2 ^ 64) (Hs : reachable n s)
    (Hw : workers s !! i = Some (WWork p)) :
  launch_state s = p ∧ (main s = MTest p ∨ main s = MBlock p ∨ main s = MSleep p ∨ main s = MRelock p) ∧
  ∀ j q, workers s !! j = Some (WWork q) → q = p.
Proof.
  assert (inv n s) as Hinv by (by apply barrier_inv_reachable).
  pose proof (i_workers _ _ Hinv _ _ Hw) as Hsg. pose proof (i_launch _ _ Hinv) as Hla.
  simpl in Hsg. rewrite Hsg /= in Hla. split; [done|]. split.
  - destruct (main s); simplify_eq/=; auto.
  - intros j q Hq. pose proof (i_workers _ _ Hinv _ _ Hq) as Hsq. simpl in Hsq. congruence.
Qed.

(** C12: the threads implement the machine of phases.  Each step of a thread leaves the view unchanged
    or is a step of that machine: a phase starts with no worker done, each worker is done once in
    it, and it ends when all are, after which the next phase in order is launched. *)
Theorem barrier_refines_phases n s s' (Hn : (0 < n)%nat) (Hu : n < 2 ^ 64) (Hs : reachable n s)
    (Hstep : step s s' ∨ spurious s s') :
  view (init n) = Rest PARALLEL_MARK ∧ (view s' = view s ∨ phase_step n (view s) (view s')).
Proof.
  split; [done|]. destruct Hstep as [Hstep|Hstep]; [by apply view_step; [apply barrier_inv_reachable|]|].
  left. destruct Hstep as [|?????????? Hi]; [done|]. by apply (view_worker _ _ _ _ _ _ _ _ _ _ _ _ _ _ _ _ _ Hi).
Qed.

(** ** Runs *)

Lemma rtc_steps {A} (R R' : relation A) a b : rtc R a b → (∀ x y, R x y → R' x y) → rtc R' a b.
Proof. intros Hr HR. induction Hr; [apply rtc_refl|eapply rtc_l; eauto]. Qed.

(** One worker: the main thread enters the launch of [p] and sleeps, the worker starts to work. *)
Lemma run_until_work p l c :
  rtc step (St false l c false false (MLock p) DRun [WLock p])
    (St false p 0 false false (MSleep p) DRun [WWork p]).
Proof.
  eapply rtc_l; [apply launch_lock|]. eapply rtc_l; [apply launch_store|].
  eapply rtc_l; [by apply launch_wait|]. eapply rtc_l; [apply launch_sleep|].
  eapply rtc_l; [by apply (wait_lock _ _ _ _ _ _ _ 0 p)|].
  eapply rtc_l; [apply (wait_true _ _ _ _ _ _ _ _ 0 p); [done|by rewrite /ready bool_decide_true]|].
  eapply rtc_l; [by apply (wait_return _ _ _ _ _ _ _ _ 0 p)|].
  simpl. rewrite /after_wait andb_false_r. apply rtc_refl.
Qed.

(** The phase to its end. *)
Lemma run_phase p l c :
  rtc step (St false l c false false (MLock p) DRun [WLock p])
    (St false p 1 false false (MDone p) DRun [WLock (next p)]).
Proof.
  etrans; [apply run_until_work|].
  eapply rtc_l; [by apply (work_done _ _ _ _ _ _ _ _ 0 p)|].
  eapply rtc_l; [by apply (done_lock _ _ _ _ _ _ _ 0 p)|].
  eapply rtc_l; [by apply (done_last _ _ _ _ _ _ _ _ 0 p)|].
  eapply rtc_l; [apply launch_relock|]. eapply rtc_l; [by apply launch_return|]. apply rtc_refl.
Qed.

(** A collection to the end of its last phase. *)
Lemma run_collection :
  rtc step (init 1) (St false SWEEP 1 false false (MDone SWEEP) DRun [WLock PARALLEL_MARK]).
Proof.
  eapply rtc_l; [apply main_start|]. etrans; [apply run_phase|].
  eapply rtc_l; [by apply main_next|]. etrans; [apply run_phase|].
  eapply rtc_l; [by apply main_next|]. apply run_phase.
Qed.

Lemma run_reachable n s : rtc step (init n) s → reachable n s.
Proof. intros Hr. apply (rtc_steps _ _ _ _ Hr). auto. Qed.

(** The main thread resets the launch state without the mutex.  A state can be
    reached in which a worker holds the mutex and is about to read the launch state while the next step of the main
    thread writes it: the two accesses race. *)
Theorem launch_state_race : ∃ s s', reachable 1 s ∧ mx s = true ∧
  workers s !! 0%nat = Some (WTest PARALLEL_MARK) ∧ main s = MDone SWEEP ∧
  step s s' ∧ main s' = MIdle ∧ launch_state s = SWEEP ∧ launch_state s' = PENDING ∧ mx s' = true.
Proof.
  exists (St true SWEEP 1 false false (MDone SWEEP) DRun [WTest PARALLEL_MARK]),
    (St true PENDING 1 false false MIdle DRun [WTest PARALLEL_MARK]). split.
  - apply run_reachable. eapply rtc_r; [apply run_collection|].
    by apply (wait_lock _ _ _ _ _ _ [WLock PARALLEL_MARK] 0 PARALLEL_MARK).
  - by split_and!; [..|apply main_rest| | | |].
Qed.

(** ** Witnesses *)

Definition started : st := St false PENDING 0 false false (MLock PARALLEL_MARK) DRun [WLock PARALLEL_MARK].

Lemma reach_started : reachable 1 started.
Proof. apply run_reachable. eapply rtc_l; [apply main_start|apply rtc_refl]. Qed.

Lemma launch_returns_witness :
  launching PARALLEL_MARK (main started) ∧ inevitably step (λ t, main t = MDone PARALLEL_MARK) started.
Proof.
  split; [by left|].
  exact (launch_returns 1 started PARALLEL_MARK ltac:(lia) ltac:(lia) reach_started (or_introl eq_refl)).
Defined.

Definition closing : st := St false PENDING 0 true false MIdle DJoinMain [WLock PARALLEL_MARK].

Lemma shutdown_ends_witness : inevitably step (λ t, dtor t = DEnd) closing.
Proof.
  assert (reachable 1 closing) as Hr.
  { apply run_reachable. eapply rtc_l; [apply dtor_shutdown|apply rtc_refl]. }
  eapply inevitably_mono; [|exact (shutdown_ends 1 closing ltac:(lia) ltac:(lia) Hr ltac:(done))].
  by intros t [Hd _].
Defined.

Definition working : st := St false PARALLEL_MARK 0 false false (MSleep PARALLEL_MARK) DRun [WWork PARALLEL_MARK].

Lemma reach_working : reachable 1 working.
Proof. apply run_reachable. eapply rtc_l; [apply main_start|apply run_until_work]. Qed.

Lemma phase_exclusion_witness : workers working !! 0%nat = Some (WWork PARALLEL_MARK) ∧
  launch_state working = PARALLEL_MARK.
Proof.
  split; [reflexivity|].
  exact (proj1 (phase_exclusion 1 working 0 PARALLEL_MARK ltac:(lia) ltac:(lia) reach_working eq_refl)).
Defined.

Lemma barrier_refines_phases_witness : ∃ s', step working s' ∧
  (view s' = view working ∨ phase_step 1 (view working) (view s')).
Proof.
  eexists. assert (step working _) as Hs by (by apply (work_done _ _ _ _ _ _ _ _ 0 PARALLEL_MARK)).
  split; [exact Hs|].
  exact (proj2 (barrier_refines_phases 1 working _ ltac:(lia) ltac:(lia) reach_working (or_introl Hs))).
Defined.
