(* ===== verification/Context.v ===== *)
(** * Life cycle: [src/src/woomem_global_context.cpp], [src/src/woomem_thread_context.cpp], and the
      parts of [src/src/woomem.cpp] and [src/src/woomem_gc.cpp] that start and stop the library

    Initialisation and shutdown of the global context, construction and destruction of thread contexts, and
    the assignment of marking contexts.  Threads are named by integers; [malloc] is a parameter of
    [woomem_init]: whether it succeeds. *)

From S2P Require Import Prelude SizeClass Locks Chunk Blocks ChunkProof Heap PageUnit HeapInv.
From S2P Require Import Pools PoolProof Api Barrier.
Open Scope Z_scope.

(** ** State *)

Record Life := MkLife {
  l_rt : Rt;
  l_alive : bool;              (* [m_globalcontext_alive] *)
  l_inited : bool;             (* [m_globalcontext_inited] *)
  l_entries : gset Z;          (* [m_thread_entries] *)
  l_gc_workers : gset Z;       (* threads whose [m_is_gc_worker_context] is set *)
  l_marking : gmap Z Z;        (* [m_gc_marking_context] where it is not [nullptr]: a worker *)
  l_assigned : Z;              (* [m_gc_assigned_thread_idx] *)
  l_worker_count : Z;          (* [m_gc_worker_count] *)
}.

Abbreviation LM := (M Life).
Abbreviation Cl l := (r_ctx (l_rt l)).

Definition set_rt (r : Rt) (l : Life) : Life :=
  MkLife r (l_alive l) (l_inited l) (l_entries l) (l_gc_workers l) (l_marking l) (l_assigned l)
    (l_worker_count l).
Definition set_lctx (c : Ctx) (l : Life) : Life := set_rt (set_ctx c (l_rt l)) l.
Definition set_global_alive (b : bool) (l : Life) : Life :=
  MkLife (l_rt l) b (l_inited l) (l_entries l) (l_gc_workers l) (l_marking l) (l_assigned l)
    (l_worker_count l).
Definition set_inited (b : bool) (l : Life) : Life :=
  MkLife (l_rt l) (l_alive l) b (l_entries l) (l_gc_workers l) (l_marking l) (l_assigned l)
    (l_worker_count l).
Definition upd_entries (f : gset Z → gset Z) (l : Life) : Life :=
  MkLife (l_rt l) (l_alive l) (l_inited l) (f (l_entries l)) (l_gc_workers l) (l_marking l) (l_assigned l)
    (l_worker_count l).
Definition upd_gc_workers (f : gset Z → gset Z) (l : Life) : Life :=
  MkLife (l_rt l) (l_alive l) (l_inited l) (l_entries l) (f (l_gc_workers l)) (l_marking l) (l_assigned l)
    (l_worker_count l).
Definition upd_marking (f : gmap Z Z → gmap Z Z) (l : Life) : Life :=
  MkLife (l_rt l) (l_alive l) (l_inited l) (l_entries l) (l_gc_workers l) (f (l_marking l)) (l_assigned l)
    (l_worker_count l).
Definition set_assigned_idx (n : Z) (l : Life) : Life :=
  MkLife (l_rt l) (l_alive l) (l_inited l) (l_entries l) (l_gc_workers l) (l_marking l) n
    (l_worker_count l).
Definition set_worker_count (n : Z) (l : Life) : Life :=
  MkLife (l_rt l) (l_alive l) (l_inited l) (l_entries l) (l_gc_workers l) (l_marking l) (l_assigned l) n.

Definition on_lctx {A} (m : XM A) : LM A := λ l,
  match m (Cl l) with
  | Ok (a, c) => Ok (a, set_lctx c l)
  | Fail e => Fail e
  end.

Fixpoint for_threads {S} (ts : list Z) (body : Z → M S unit) : M S unit :=
  match ts with
  | [] => mret tt
  | t :: ts' => body t ;; for_threads ts' body
  end.

(** ** The chunk and the pools *)

(** A chunk in memory that has just been reserved; [m_all_page_list] is not touched. *)
Definition install_chunk (k : Chunk) (c : Ctx) : Ctx :=
  set_world (MkWorld (MkChunkMem k ∅) ∅ ∅ (w_all_page_list (c_world c))) c.

(** [Chunk::~Chunk]: the side arrays are deleted and the memory is released. *)
Definition Chunk_dtor (c : Ctx) : Ctx :=
  let k := chunk (w_chunk (c_world c)) in
  install_chunk (MkChunk (base_ k) (reserved_size_ k) (total_pages_ k) [] [] [] (free_head_ k) [] (rwlock_ k)) c.

Definition GlobalPageCollection_ctor (c : Ctx) : Ctx :=
  upd_free_pages (λ _, replicate (Z.to_nat MAX_GROUP) (MkFreePageList false [])) c.
Definition GlobalPageCollection_dtor (c : Ctx) : Ctx := upd_free_pages (λ _, []) c.

(** ** The global context *)

Definition GlobalContext_init `{Build} `{Kernel} (reserved_chunk_size : Z) : LM bool :=
  inited ← gets l_inited;
  assert_ (negb inited) ;;
  match Chunk_ctor reserved_chunk_size with
  | Fail e => throw e
  | Ok k =>
    on_lctx (modify (install_chunk k)) ;;
    if is_init_failed k then on_lctx (modify Chunk_dtor) ;; mret false
    else
      assert_ (negb (is_init_failed k)) ;;
      on_lctx (modify GlobalPageCollection_ctor) ;;
      modify (set_inited true) ;;
      ts ← gets l_entries;
      for_threads (elements ts) (λ t, on_lctx (init_manually t)) ;;
      mret true
  end.

Definition GlobalContext_shutdown `{Build} : LM unit :=
  inited ← gets l_inited;
  assert_ inited ;;
  ts ← gets l_entries;
  for_threads (elements ts) (λ t, on_lctx (shutdown_manually t)) ;;
  on_lctx (modify GlobalPageCollection_dtor) ;;
  on_lctx (modify Chunk_dtor) ;;
  modify (set_inited false).

Definition GlobalContext_dtor `{Build} : LM unit :=
  inited ← gets l_inited;
  (if (inited : bool) then GlobalContext_shutdown else mret tt) ;;
  inited ← gets l_inited;
  assert_ (negb inited) ;;
  modify (set_global_alive false).

(** ** Marking contexts *)

Definition fetch_thread_worker : LM Z :=
  n ← gets l_assigned;
  modify (set_assigned_idx (u64 (n + 1))) ;;
  count ← gets l_worker_count;
  mret (n mod count).

(** What the loop of [GC::GC] does for one thread. *)
Definition assign_worker (t : Z) : LM unit :=
  ws ← gets l_gc_workers;
  if bool_decide (t ∈ ws) then mret tt
  else i ← fetch_thread_worker; modify (upd_marking (<[t := i]>)).

(** The new collector object: no roots, nothing allocated since the last collection; and the loop that assigns a worker to
    every registered thread.  The workers themselves are made by [new_workers] of [System], and their threads set up their
    own contexts ([worker_entry]). *)
Definition GC_ctor (worker_count hardware_concurrency : Z) : LM unit :=
  modify (set_worker_count (Barrier.gc_worker_count worker_count hardware_concurrency)) ;;
  modify (set_assigned_idx 0) ;;
  r ← gets l_rt;
  modify (set_rt (MkRt (r_ctx r) true (r_round r) 0 ∅ (r_bytes r))) ;;
  ts ← gets l_entries;
  for_threads (elements ts) assign_worker.

Definition GC_dtor : LM unit :=
  ts ← gets l_entries;
  for_threads (elements ts) (λ t, modify (upd_marking (delete t))).

(** ** Thread contexts *)

Definition ThreadContext_ctor (t : Z) : LM unit :=
  inited ← gets l_inited;
  on_lctx (modify (upd_threads (<[t := ThreadPageCollection_ctor inited]>))) ;;
  modify (upd_gc_workers (λ s, s ∖ {[t]})) ;;
  gc ← gets (λ l, r_gc_alive (l_rt l));
  (if (gc : bool) then i ← fetch_thread_worker; modify (upd_marking (<[t := i]>))
   else modify (upd_marking (delete t))) ;;
  alive ← gets l_alive;
  if (alive : bool) then modify (upd_entries (λ s, {[t]} ∪ s)) else mret tt.

(** The body, then the destructor of the page collection. *)
Definition ThreadContext_dtor (t : Z) : LM unit :=
  alive ← gets l_alive;
  (if (alive : bool) then modify (upd_entries (λ s, s ∖ {[t]})) else mret tt) ;;
  on_lctx (shutdown_manually t) ;;
  on_lctx (modify (upd_threads (delete t))).

(** The start of [worker_thread_job] in worker [i], which runs as thread [t]. *)
Definition worker_entry (t i : Z) : LM unit :=
  modify (upd_gc_workers (λ s, {[t]} ∪ s)) ;;
  modify (upd_marking (<[t := i]>)).

(** ** The library *)

Definition woomem_init `{Build} `{Kernel} (malloc_ok : bool) (hardware_concurrency reserved_chunk_size : Z)
    : LM bool :=
  inited ← gets l_inited;
  gc ← gets (λ l, r_gc_alive (l_rt l));
  assert_ (negb inited && negb gc) ;;
  ok ← GlobalContext_init reserved_chunk_size;
  if (ok : bool) then
    if malloc_ok then GC_ctor 0 hardware_concurrency ;; mret true
    else GlobalContext_shutdown ;; mret false
  else mret false.

Definition woomem_shutdown `{Build} : LM unit :=
  GC_dtor ;;
  GlobalContext_shutdown ;;
  r ← gets l_rt;
  modify (set_rt (MkRt (r_ctx r) false (r_round r) (r_new_allocated r) (r_roots r) (r_bytes r))).

(** The process before any thread context: static storage is zero. *)
Definition no_chunk : Chunk := MkChunk 0 0 0 [] [] [] 0 [] 0.
Definition process : Life :=
  MkLife (MkRt (MkCtx (MkWorld (MkChunkMem no_chunk ∅) ∅ ∅ 0) [] ∅) false 0 0 ∅ (λ _, 0))
    true false ∅ ∅ ∅ 0 0.
