(* ===== verification/ContextSpec.v ===== *)
(** * Properties of the life cycle

    Initialisation establishes the invariant of the heap that the other theorems start from and gives every
    thread a pool and a marking context; a failed one changes nothing that matters; threads come and go
    without breaking the invariant; a second initialisation starts from stale pages. *)

From S2P Require Import Prelude SizeClass Locks Chunk Blocks ChunkProof ChunkSpec Heap PageUnit HeapInv.
From S2P Require Import Pools PoolProof PoolSpec Api Sweep Collect Barrier Context.
Open Scope Z_scope.

(** ** Rules *)

Lemma wp_on_lctx {A} (m : XM A) (Q : A → Life → Prop) l :
  wp m (λ a c, Q a (set_lctx c l)) (Cl l) → wp (on_lctx m) Q l.
Proof. rewrite /wp /on_lctx. by destruct (m (Cl l)) as [[a c]|]. Qed.

(** The rule of a loop over threads: an invariant indexed by the threads that are left. *)
Lemma wp_for_threads {S} (I : list Z → S → Prop) ts (body : Z → M S unit) (Q : unit → S → Prop) s :
  I ts s → (∀ t ts' s', I (t :: ts') s' → wp (body t) (λ _, I ts') s') → (∀ s', I [] s' → Q tt s') →
  wp (for_threads ts body) Q s.
Proof.
  intros HI Hb HQ. revert s HI. induction ts as [|t ts IH]; intros s HI; simpl; [by apply wp_ret, HQ|].
  eapply wp_seq; [by apply Hb|]. intros [] s' HI'. by apply IH.
Qed.

(** The collections of the threads in [s], attached or detached. *)
Definition attach (b : bool) (tc : ThreadPageCollection) : ThreadPageCollection :=
  MkThreadPageCollection b (m_cached_pages tc).
Definition attach_all (b : bool) (s : gset Z) (th : gmap Z ThreadPageCollection) : gmap Z ThreadPageCollection :=
  map_imap (λ t tc, Some (if bool_decide (t ∈ s) then attach b tc else tc)) th.

Lemma attach_all_lookup b s th t :
  attach_all b s th !! t = (λ tc, if bool_decide (t ∈ s) then attach b tc else tc) <$> th !! t.
Proof. rewrite /attach_all map_lookup_imap. by destruct (th !! t). Qed.

Lemma attach_all_empty b th : attach_all b ∅ th = th.
Proof. apply map_eq. intros t. rewrite attach_all_lookup. by destruct (th !! t). Qed.

Lemma attach_all_cons b t s th tc : th !! t = Some tc →
  attach_all b s (<[t := attach b tc]> th) = attach_all b ({[t]} ∪ s) th.
Proof.
  intros Ht. apply map_eq. intros t'. rewrite !attach_all_lookup. destruct (decide (t' = t)) as [->|Hne].
  - rewrite lookup_insert_eq Ht /= (bool_decide_true (t ∈ _ ∪ _)); [|set_solver]. by case_bool_decide.
  - rewrite lookup_insert_ne //. destruct (th !! t'); [|done]. simpl. f_equal.
    destruct (decide (t' ∈ s)); [rewrite !bool_decide_true //; set_solver|rewrite !bool_decide_false //; set_solver].
Qed.

(** ** Attaching the threads *)

Section init.
Context `{Build} `{Kernel}.

Lemma attach_loop (l : Life) (ts : list Z) (Q : unit → Life → Prop) :
  NoDup ts → (∀ t, t ∈ ts → ∃ tc, c_threads (Cl l) !! t = Some tc ∧ m_attached tc = false) →
  Q tt (set_lctx (upd_threads (attach_all true (list_to_set ts)) (Cl l)) l) →
  wp (for_threads ts (λ t, on_lctx (init_manually t))) Q l.
Proof.
  revert l Q. induction ts as [|t ts IH]; intros l Q Hnd Hts HQ; simpl.
  { apply wp_ret. simpl in HQ. rewrite /upd_threads attach_all_empty in HQ. by destruct l as [[[]]]. }
  apply NoDup_cons in Hnd as [Hnin Hnd]. destruct (Hts t) as (tc & Ht & Hat); [constructor|].
  apply wp_bind, wp_on_lctx. rewrite /init_manually /load_thread. wp_steps.
  eapply wp_of_option; [exact Ht|]. wp_steps. apply wp_assert; [by rewrite Hat|]. wp_steps.
  apply IH; [done| |].
  - intros t' Ht'. destruct (Hts t') as (tc' & ? & ?); [by constructor|].
    exists tc'. simpl. rewrite lookup_insert_ne //. by intros ->.
  - simpl. rewrite /upd_threads /= in HQ |- *.
    change (MkThreadPageCollection true (m_cached_pages tc)) with (attach true tc).
    by rewrite attach_all_cons.
Qed.
End init.

(** ** Empty pools and no pages *)

(** Contexts that have just got a chunk of free pages. *)
Lemma empty_pool_inv c : c_free_pages c = replicate (Z.to_nat MAX_GROUP) (MkFreePageList false []) →
  (∀ t tc, c_threads c !! t = Some tc → m_cached_pages tc = replicate (Z.to_nat MAX_GROUP) 0) →
  (∀ t g, cache c t g = 0) ∧ pool_inv c ∅.
Proof.
  intros Hf Hth.
  assert (∀ t g, cache c t g = 0) as Hc.
  { intros t g. rewrite /cache. destruct (c_threads c !! t) as [tc|] eqn:Ht; [|done].
    rewrite (Hth t tc Ht) rd_replicate; [|apply group_index_ge]. by destruct (m_attached tc). }
  assert (∀ g, pool c g = []) as Hp.
  { intros g. rewrite /pool Hf rd_replicate //. apply group_index_ge. }
  split; [done|]. split.
  - by rewrite Hf length_replicate.
  - intros g fl. rewrite Hf rd_replicate; [by intros [= <-]|apply group_index_ge].
  - intros t tc Ht. by rewrite (Hth t tc Ht) length_replicate.
  - intros g p. rewrite Hp. by intros ?%elem_of_nil.
  - intros t g. by rewrite Hc.
  - intros g. rewrite Hp. constructor.
  - intros t g. by rewrite Hc.
  - intros t t' g. by rewrite Hc.
Qed.

Lemma empty_ctx_inv c n : chunk_inv (w_chunk (c_world c)) [Blk 0 n KFree] → w_all_page_list (c_world c) = 0 →
  c_free_pages c = replicate (Z.to_nat MAX_GROUP) (MkFreePageList false []) →
  (∀ t tc, c_threads c !! t = Some tc → m_cached_pages tc = replicate (Z.to_nat MAX_GROUP) 0) →
  ctx_inv c ∅ ∧ caches_ready c.
Proof.
  intros Hk Hl Hf Hth. destruct (empty_pool_inv c Hf Hth) as [Hc Hp].
  split; [|intros t g; by rewrite Hc]. split_and!; [|exists []; rewrite Hl; split; [done|]|done].
  - exists [Blk 0 n KFree]. split; [done|done|]. by intros b [->|?%elem_of_nil]%elem_of_cons.
  - split; [constructor|]. intros p. rewrite dom_empty. set_solver.
Qed.

(** ** Before initialisation *)

(** The library is down, and no thread has ever had a page. *)
Record down (l : Life) : Prop := {
  dn_inited : l_inited l = false;
  dn_gc : r_gc_alive (l_rt l) = false;
  dn_list : w_all_page_list (c_world (Cl l)) = 0;
  dn_threads : ∀ t tc, c_threads (Cl l) !! t = Some tc → tc = ThreadPageCollection_ctor false;
  dn_entries : ∀ t, t ∈ l_entries l → is_Some (c_threads (Cl l) !! t);
}.

(** What a reservation of [size] bytes needs to succeed. *)
Definition can_reserve `{Kernel} (size : Z) : Prop :=
  0 < size ∧ size + NORMAL_PAGE_SIZE - 1 < 2 ^ 64 ∧ pages_for size < ALLOCATED_FLAG ∧
  let a := sys_mmap (pages_for size * NORMAL_PAGE_SIZE) in
  a ≠ MAP_FAILED ∧ 0 < a ∧ a + pages_for size * NORMAL_PAGE_SIZE < 2 ^ 64.

(** After initialisation, before the collector is created. *)
Record up (n : Z) (l0 l : Life) : Prop := {
  up_inited : l_inited l = true;
  up_ctx : ctx_inv (Cl l) ∅ ∧ caches_ready (Cl l);
  up_list : w_all_page_list (c_world (Cl l)) = 0;
  up_units : w_units (c_world (Cl l)) = ∅;
  up_pages : total_pages_ (chunk (w_chunk (c_world (Cl l)))) = n;
  up_threads : c_threads (Cl l) = attach_all true (l_entries l0) (c_threads (Cl l0));
  up_entries : l_entries l = l_entries l0;
  up_same : l_alive l = l_alive l0 ∧ l_gc_workers l = l_gc_workers l0 ∧ l_marking l = l_marking l0 ∧
    r_gc_alive (l_rt l) = r_gc_alive (l_rt l0) ∧ r_round (l_rt l) = r_round (l_rt l0);
}.

Section initialisation.
Context `{Build} `{Kernel}.

(** Initialisation when every registered thread is detached: a new chunk, empty pools, all threads attached;
    the chain of pages and what the threads keep are as they were. *)
Lemma global_init_raw l size (Q : bool → Life → Prop) : l_inited l = false → can_reserve size →
  (∀ t, t ∈ l_entries l → ∃ tc, c_threads (Cl l) !! t = Some tc ∧ m_attached tc = false) →
  (∀ k, chunk_inv (MkChunkMem k ∅) [Blk 0 (pages_for size) KFree] → total_pages_ k = pages_for size →
     Q true (set_inited true (set_lctx (MkCtx
       (MkWorld (MkChunkMem k ∅) ∅ ∅ (w_all_page_list (c_world (Cl l))))
       (replicate (Z.to_nat MAX_GROUP) (MkFreePageList false []))
       (attach_all true (l_entries l) (c_threads (Cl l)))) l))) →
  wp (GlobalContext_init size) Q l.
Proof.
  intros Hi (Hs & Hw & Hp & Hf & Hb & He) Hth HQ.
  destruct (Chunk_ctor_spec size Hs Hw Hp Hf Hb He) as (k & Hk & Hok & Hn & Hinv).
  rewrite /GlobalContext_init. wp_steps. apply wp_assert; [by rewrite Hi|]. rewrite Hk.
  wp_steps. apply wp_on_lctx. wp_steps. rewrite Hok. wp_steps. apply wp_assert; [done|].
  wp_steps. apply wp_on_lctx. wp_steps. apply attach_loop; [apply NoDup_elements| |].
  - intros t Ht%elem_of_elements. by apply Hth.
  - apply wp_ret. simpl. rewrite list_to_set_elements_L. exact (HQ k Hinv Hn).
Qed.

Lemma global_init_spec l size (Q : bool → Life → Prop) : down l → can_reserve size →
  (∀ l', up (pages_for size) l l' → Q true l') → wp (GlobalContext_init size) Q l.
Proof.
  intros [Hi Hg Hl Hth Hen] Hs HQ. apply global_init_raw; [done|done| |].
  - intros t Ht. destruct (Hen t Ht) as [tc Htc]. exists tc. split; [done|]. by rewrite (Hth t tc Htc).
  - intros k Hinv Hn. apply HQ. split; simpl; try done. eapply empty_ctx_inv; [exact Hinv|done|done|].
    intros t tc. simpl. rewrite attach_all_lookup. intros (tc' & Htc & ->)%fmap_Some.
    rewrite (Hth t tc' Htc). by case_bool_decide.
Qed.

(** Marking contexts: every thread that is not a worker gets one. *)
Definition assigned_all (l : Life) : Prop :=
  ∀ t, t ∈ l_entries l → t ∉ l_gc_workers l → ∃ i, l_marking l !! t = Some i ∧ 0 ≤ i < l_worker_count l.

Lemma gc_workers_positive hw : 0 ≤ hw → 0 < Barrier.gc_worker_count 0 hw.
Proof.
  intros Hhw. rewrite /Barrier.gc_worker_count /Barrier.default_gc_worker_count /=.
  destruct (hw / 8 =? 0) eqn:E; [done|]. pose proof (Z.div_pos hw 8). lia.
Qed.

Lemma gc_ctor_spec l hw (Q : unit → Life → Prop) : 0 ≤ hw →
  (∀ l', Cl l' = Cl l → l_inited l' = l_inited l → l_entries l' = l_entries l → l_alive l' = l_alive l →
     r_gc_alive (l_rt l') = true → r_roots (l_rt l') = ∅ → r_new_allocated (l_rt l') = 0 →
     l_worker_count l' = Barrier.gc_worker_count 0 hw → assigned_all l' → Q tt l') →
  wp (GC_ctor 0 hw) Q l.
Proof.
  intros Hhw HQ. rewrite /GC_ctor. wp_steps.
  pose proof (gc_workers_positive hw Hhw) as Hpos.
  set (n := Barrier.gc_worker_count 0 hw) in *. simpl.
  eapply (wp_for_threads (λ ts l', Cl l' = Cl l ∧ l_inited l' = l_inited l ∧ l_entries l' = l_entries l ∧
    l_alive l' = l_alive l ∧ l_gc_workers l' = l_gc_workers l ∧ r_gc_alive (l_rt l') = true ∧ r_roots (l_rt l') = ∅ ∧
    r_new_allocated (l_rt l') = 0 ∧ l_worker_count l' = n ∧ ∀ t, t ∈ l_entries l → t ∉ ts → t ∉ l_gc_workers l →
      ∃ i, l_marking l' !! t = Some i ∧ 0 ≤ i < n)).
  - split_and!; try done. simpl. intros t Ht%elem_of_elements. done.
  - intros t ts l' (Hc & Hi & He & Hal & Hg & Ha & Hr & Hz & Hw & Hm). rewrite /assign_worker. wp_steps.
    rewrite Hg. case_bool_decide as Hin.
    + apply wp_ret. split_and!; try done. intros t' Ht' Hn Hg'. apply Hm; [done| |done].
      intros [->|?]%elem_of_cons; done.
    + rewrite /fetch_thread_worker. wp_steps. split_and!; try done. simpl. intros t' Ht' Hn Hg'.
      destruct (decide (t' = t)) as [->|Hne].
      * rewrite lookup_insert_eq. eexists. split; [done|]. rewrite Hw. by apply Z.mod_pos_bound.
      * rewrite lookup_insert_ne //. apply Hm; [done| |done]. by intros [->|?]%elem_of_cons.
  - intros l' (Hc & Hi & He & Hal & Hg & Ha & Hr & Hz & Hw & Hm). apply HQ; try done.
    intros t. rewrite He Hg Hw. intros Ht Hg'. apply Hm; [done|apply not_elem_of_nil|done].
Qed.

(** Detaching the threads leaves a context without its pools and its chunk. *)
Lemma global_shutdown_spec l pm (Q : unit → Life → Prop) :
  l_inited l = true → ctx_inv (Cl l) pm → caches_ready (Cl l) →
  (∀ t, t ∈ l_entries l → attached (Cl l) t) →
  (∀ c', c_threads c' = attach_all false (l_entries l) (c_threads (Cl l)) → c_free_pages c' = [] →
     w_all_page_list (c_world c') = w_all_page_list (c_world (Cl l)) → heads (w_chunk (c_world c')) = ∅ →
     w_allocs (c_world c') = ∅ → w_units (c_world c') = ∅ →
     Q tt (set_inited false (set_lctx c' l))) →
  wp GlobalContext_shutdown Q l.
Proof.
  intros Hi Hc Hr Ha HQ. rewrite /GlobalContext_shutdown. wp_steps. apply wp_assert; [done|]. wp_steps.
  eapply (wp_for_threads (λ ts l', NoDup ts ∧ (∀ t, t ∈ ts → t ∈ l_entries l) ∧
    ∃ c, l' = set_lctx c l ∧ ctx_inv c pm ∧ caches_ready c ∧ c_world c = c_world (Cl l) ∧
      c_threads c = attach_all false (l_entries l ∖ list_to_set ts) (c_threads (Cl l)))).
  - split_and!; [apply NoDup_elements|by intros t ?%elem_of_elements|]. exists (Cl l). split_and!; try done.
    + by destruct l as [[]].
    + rewrite list_to_set_elements_L difference_diag_L. by rewrite attach_all_empty.
  - intros t ts l' (Hnd & Hin & c & -> & Hc' & Hr' & Hw & Hth). apply NoDup_cons in Hnd as [Hnt Hnd].
    destruct (Ha t) as (tc & Htc & Hat); [apply Hin; constructor|].
    assert (c_threads c !! t = Some tc) as Htc'.
    { rewrite Hth attach_all_lookup Htc /= bool_decide_false //. set_solver. }
    apply wp_on_lctx. eapply wp_mono.
    { apply wp_and; [apply (shutdown_manually_spec c pm t Hc' Hr'); by exists tc|].
      apply (shutdown_stale c pm t tc Hc' Htc' Hat). }
    intros _ c2 [(Hc2 & Hr2 & Hw2 & _) [Ht2 _]]. split_and!; [done|intros t' ?; apply Hin; by constructor|].
    exists c2. split_and!; try done; [by rewrite Hw2|]. rewrite Ht2 Hth.
    change (MkThreadPageCollection false (m_cached_pages tc)) with (attach false tc).
    apply map_eq. intros t'. destruct (decide (t' = t)) as [->|Hne].
    + rewrite lookup_insert_eq attach_all_lookup Htc /= bool_decide_true //.
      apply elem_of_difference. split; [apply Hin; constructor|]. by rewrite elem_of_list_to_set.
    + rewrite lookup_insert_ne // !attach_all_lookup. destruct (c_threads (Cl l) !! t'); [|done]. simpl. f_equal.
      destruct (decide (t' ∈ l_entries l ∖ list_to_set ts));
        [rewrite !bool_decide_true //; set_solver|rewrite !bool_decide_false //; set_solver].
  - intros l' (_ & _ & c & -> & _ & _ & Hw & Hth). wp_steps. apply wp_on_lctx. wp_steps. apply wp_on_lctx. wp_steps.
    apply HQ; try done; simpl.
    + rewrite Hth. by rewrite list_to_set_nil difference_empty_L.
    + by rewrite Hw.
Qed.

Lemma woomem_init_spec l size hw : down l → can_reserve size → 0 ≤ hw →
  wp (woomem_init true hw size) (λ b l', b = true ∧ ctx_inv (Cl l') ∅ ∧ caches_ready (Cl l') ∧
    l_inited l' = true ∧ r_gc_alive (l_rt l') = true ∧ r_roots (l_rt l') = ∅ ∧ l_entries l' = l_entries l ∧
    (∀ t, t ∈ l_entries l → attached (Cl l') t) ∧ assigned_all l' ∧
    l_alive l' = l_alive l ∧ 0 < l_worker_count l' ∧ w_units (c_world (Cl l')) = ∅) l.
Proof.
  intros Hl Hs Hhw. pose proof Hl as [Hi Hg _ Hth Hen].
  rewrite /woomem_init. wp_steps. apply wp_assert; [by rewrite Hi Hg|]. wp_steps.
  apply (global_init_spec _ _ _ Hl Hs). intros l1 [Hi1 [Hc1 Hr1] _ Hu1 _ Ht1 He1 (Hal1 & _)]. wp_steps.
  apply gc_ctor_spec; [done|]. intros l2 Hc2 Hi2 He2 Hal2 Hg2 Hro2 _ Hw2 Ha2. wp_steps.
  rewrite Hc2 Hi2 He2 Hal2 Hw2. split_and!; try done; [|by apply gc_workers_positive].
  intros t Ht. destruct (Hen t Ht) as [tc Htc].
  exists (attach true tc). by rewrite Ht1 attach_all_lookup Htc /= bool_decide_true.
Qed.

(** ** Properties *)

(** C21: the first initialisation: no thread has had a page and the chain is empty (a later one is
    [reinit_stale_chain]).  If the memory can be reserved and the collector allocated, [woomem_init] returns true; then the heap
    is well formed and empty, every registered thread is attached to the pools, and every
    registered thread that is not a worker marks through a worker that exists. *)
Theorem woomem_init_ready l size hw (Hl : down l) (Hs : can_reserve size) (Hhw : 0 ≤ hw) :
  wp (woomem_init true hw size) (λ b l', b = true ∧ ctx_inv (Cl l') ∅ ∧ caches_ready (Cl l') ∧
    l_inited l' = true ∧ r_gc_alive (l_rt l') = true ∧ r_roots (l_rt l') = ∅ ∧ l_entries l' = l_entries l ∧
    (∀ t, t ∈ l_entries l → attached (Cl l') t) ∧ assigned_all l') l.
Proof.
  eapply wp_mono; [by apply (woomem_init_spec l size hw)|]. by intros b l' (? & ? & ? & ? & ? & ? & ? & ? & ? & _).
Qed.

(** C34: a failed initialisation can be repeated.  If the memory cannot be reserved or the
    collector cannot be allocated, [woomem_init] returns false and the library is as
    it was: down, with no page anywhere. *)
Theorem woomem_init_failed l size hw malloc_ok (Hl : down l)
    (Hs : 0 < size ∧ sys_mmap (u64 (pages_for size * NORMAL_PAGE_SIZE)) = MAP_FAILED ∨
          can_reserve size ∧ malloc_ok = false) :
  wp (woomem_init malloc_ok hw size) (λ b l', b = false ∧ down l' ∧ l_entries l' = l_entries l) l.
Proof.
  pose proof Hl as [Hi Hg Hp Hth Hen]. rewrite /woomem_init. wp_steps. apply wp_assert; [by rewrite Hi Hg|]. wp_steps.
  destruct Hs as [[Hsz Hm]|[Hs ->]].
  - destruct (Chunk_ctor_failed size Hsz Hm) as (k & Hk & Hf).
    rewrite /GlobalContext_init. wp_steps. apply wp_assert; [by rewrite Hi|]. rewrite Hk.
    wp_steps. apply wp_on_lctx. wp_steps. rewrite Hf. wp_steps. apply wp_on_lctx. wp_steps.
    split; [done|]. split; [|done]. by split.
  - apply (global_init_spec _ _ _ Hl Hs). intros l1 [Hi1 [Hc1 Hr1] Hl1 _ _ Ht1 He1 (? & ? & ? & Hg1 & ?)]. wp_steps.
    eapply global_shutdown_spec; [done|exact Hc1|done| |].
    { intros t. rewrite He1. intros Ht. destruct (Hen t Ht) as [tc Htc].
      exists (attach true tc). by rewrite Ht1 attach_all_lookup Htc /= bool_decide_true. }
    intros c' Hth' _ Hl' _ _ _. wp_steps. split; [done|]. split; [|done]. rewrite Ht1 He1 in Hth'.
    split; simpl; try done.
    + by rewrite Hg1.
    + by rewrite Hl' Hl1.
    + intros t tc. rewrite Hth' !attach_all_lookup. intros (tc1 & (tc0 & Htc & ->)%fmap_Some & ->)%fmap_Some.
      rewrite (Hth t tc0 Htc). by case_bool_decide.
    + intros t. rewrite He1 Hth' !attach_all_lookup. intros Ht. destruct (Hen t Ht) as [tc ->]. by eexists.
Qed.

(** Threads that keep no page do not matter to the pools. *)
Lemma ctx_inv_threads c pm th : ctx_inv c pm → caches_ready c →
  (∀ t g, cache (MkCtx (c_world c) (c_free_pages c) th) t g = cache c t g) →
  (∀ t tc, th !! t = Some tc → length (m_cached_pages tc) = Z.to_nat MAX_GROUP) →
  ctx_inv (MkCtx (c_world c) (c_free_pages c) th) pm ∧ caches_ready (MkCtx (c_world c) (c_free_pages c) th).
Proof.
  intros (Hh & Hch & [Hl Hs Ht Hp Hc Hn Ha Hpr]) Hr Hca Hth. split; [|intros t g; rewrite Hca; apply Hr].
  split_and!; [done|done|]. split; try done.
  - intros t g. rewrite Hca. apply Hc.
  - intros t g. rewrite Hca. apply Ha.
  - intros t t' g. rewrite !Hca. apply Hpr.
Qed.

(** What the coming and going of a thread leaves as it was. *)
Definition library_kept (l l' : Life) : Prop :=
  l_rt l' = set_ctx (Cl l') (l_rt l) ∧ c_world (Cl l') = c_world (Cl l) ∧ l_inited l' = l_inited l ∧
  l_alive l' = l_alive l ∧ l_worker_count l' = l_worker_count l.

Lemma thread_start_spec l pm t :
  l_inited l = true → r_gc_alive (l_rt l) = true → l_alive l = true → 0 < l_worker_count l →
  ctx_inv (Cl l) pm → caches_ready (Cl l) → c_threads (Cl l) !! t = None →
  wp (ThreadContext_ctor t) (λ _ l', ctx_inv (Cl l') pm ∧ caches_ready (Cl l') ∧ library_kept l l' ∧
    attached (Cl l') t ∧ l_entries l' = {[t]} ∪ l_entries l ∧
    (∀ t', attached (Cl l) t' → attached (Cl l') t') ∧
    ∃ i, l_marking l' !! t = Some i ∧ 0 ≤ i < l_worker_count l') l.
Proof.
  intros Hi Hg Ha Hw Hctx Hready Ht.
  rewrite /ThreadContext_ctor /fetch_thread_worker. wp_steps. apply wp_on_lctx. wp_steps.
  rewrite /= Hg. wp_steps. rewrite /= Ha. wp_steps. simpl.
  destruct (ctx_inv_threads (Cl l) pm (<[t := ThreadPageCollection_ctor (l_inited l)]> (c_threads (Cl l))) Hctx Hready)
    as [Hc' Hr'].
  - intros t' g. rewrite /cache /=. destruct (decide (t' = t)) as [->|Hne]; [|by rewrite lookup_insert_ne].
    rewrite lookup_insert_eq Ht. by destruct (l_inited l), g.
  - intros t' tc. destruct (decide (t' = t)) as [->|Hne].
    + rewrite lookup_insert_eq. intros [= <-]. by rewrite length_replicate.
    + rewrite lookup_insert_ne //. apply Hctx.
  - split_and!; [done|done|done| |done| |].
    + exists (ThreadPageCollection_ctor true). simpl. by rewrite lookup_insert_eq Hi.
    + intros t' (tc & Htc & Hat). exists tc. simpl. rewrite lookup_insert_ne; [done|]. intros <-. congruence.
    + rewrite lookup_insert_eq. eexists. split; [done|]. by apply Z.mod_pos_bound.
Qed.

Lemma thread_end_spec l pm t : l_alive l = true → ctx_inv (Cl l) pm → caches_ready (Cl l) → attached (Cl l) t →
  wp (ThreadContext_dtor t) (λ _ l', ctx_inv (Cl l') pm ∧ caches_ready (Cl l') ∧ library_kept l l' ∧
    c_threads (Cl l') = delete t (c_threads (Cl l)) ∧ l_entries l' = l_entries l ∖ {[t]} ∧
    ∀ g, pool (Cl l') g = returned (Cl l) t g) l.
Proof.
  intros Ha Hctx Hready Ht. pose proof Ht as (tc & Htc & Hat). rewrite /ThreadContext_dtor. wp_steps. rewrite Ha. wp_steps.
  apply wp_on_lctx. eapply wp_mono.
  { apply wp_and; [by apply (shutdown_manually_spec _ pm)|by apply (shutdown_stale _ pm t tc)]. }
  intros _ c2 [(Hc2 & Hr2 & Hw2 & Hp2 & Hca2) [Ht2 _]]. wp_steps. apply wp_on_lctx. wp_steps. simpl.
  destruct (ctx_inv_threads c2 pm (delete t (c_threads c2)) Hc2 Hr2) as [Hc' Hr'].
  - intros t' g. rewrite /cache /=. destruct (decide (t' = t)) as [->|Hne]; [|by rewrite lookup_delete_ne].
    by rewrite lookup_delete_eq Ht2 lookup_insert_eq.
  - intros t' tc'. intros [_ Hl]%lookup_delete_Some. by apply (pv_threads _ _ (proj2 (proj2 Hc2)) t').
  - split_and!; [done|done|by split_and!| |done|done]. rewrite Ht2. by rewrite delete_insert_eq.
Qed.

(** C33: a thread that starts on a running library gets a collection attached to the pools and a
    marking context that is one of the workers, and the heap stays well formed. *)
Theorem thread_starts l pm t (Hi : l_inited l = true) (Hg : r_gc_alive (l_rt l) = true) (Ha : l_alive l = true)
    (Hw : 0 < l_worker_count l) (Hctx : ctx_inv (Cl l) pm) (Hready : caches_ready (Cl l))
    (Ht : c_threads (Cl l) !! t = None) :
  wp (ThreadContext_ctor t) (λ _ l', ctx_inv (Cl l') pm ∧ caches_ready (Cl l') ∧ attached (Cl l') t ∧
    t ∈ l_entries l' ∧ (∀ t', attached (Cl l) t' → attached (Cl l') t') ∧
    ∃ i, l_marking l' !! t = Some i ∧ 0 ≤ i < l_worker_count l') l.
Proof.
  eapply wp_mono; [by apply (thread_start_spec l pm t)|].
  intros _ l' (? & ? & _ & ? & -> & ? & ?). split_and!; try done. set_solver.
Qed.

(** C32: a thread that ends gives its pages to the pools of their groups, is no
    longer registered, and the heap stays well formed. *)
Theorem thread_ends l pm t (Ha : l_alive l = true) (Hctx : ctx_inv (Cl l) pm) (Hready : caches_ready (Cl l))
    (Ht : attached (Cl l) t) :
  wp (ThreadContext_dtor t) (λ _ l', ctx_inv (Cl l') pm ∧ caches_ready (Cl l') ∧
    c_threads (Cl l') = delete t (c_threads (Cl l)) ∧ l_entries l' = l_entries l ∖ {[t]} ∧
    ∀ g, pool (Cl l') g = returned (Cl l) t g) l.
Proof.
  eapply wp_mono; [by apply (thread_end_spec l pm t)|]. by intros _ l' (? & ? & _ & ? & ? & ?).
Qed.

(** A second initialisation starts from stale pages.  Shutting down a library that has pages and
    initialising it again succeeds, but the chain of all pages still starts at a page of the
    memory that was released, so the next collection reads memory that is not there. *)
Theorem reinit_stale_chain l pm size hw ws (Hi : l_inited l = true)
    (Hctx : ctx_inv (Cl l) pm) (Hready : caches_ready (Cl l)) (Hat : ∀ t, t ∈ l_entries l → attached (Cl l) t)
    (Hp : w_all_page_list (c_world (Cl l)) ≠ 0) (Hs : can_reserve size) (Hhw : 0 ≤ hw) :
  wp (woomem_shutdown ;; woomem_init true hw size) (λ b l', b = true ∧
    (∀ t, t ∈ l_entries l → attached (Cl l') t ∧ ∀ g, cache (Cl l') t g = cache (Cl l) t g) ∧
    distribute_pages ws (c_world (Cl l')) = Fail BadAccess) l.
Proof.
  apply wp_bind. rewrite /woomem_shutdown /GC_dtor. wp_steps.
  eapply (wp_for_threads (λ _ l', ∃ m, l' = upd_marking (λ _, m) l)); [exists (l_marking l); by destruct l| |].
  { intros t _ l' [m ->]. rewrite /wp /=. by eexists. }
  intros l1 [m ->]. wp_steps. eapply (global_shutdown_spec _ pm); [done..|].
  intros c1 Hth1 Hf1 Hl1 Hh1 _ _. wp_steps. simpl in *.
  rewrite /woomem_init. wp_steps. apply wp_assert; [done|]. wp_steps.
  apply global_init_raw; [done|done| |].
  { simpl. intros t Ht. destruct (Hat t Ht) as (tc & Htc & _). exists (attach false tc).
    by rewrite Hth1 attach_all_lookup Htc /= bool_decide_true. }
  intros k Hinv _. wp_steps. apply gc_ctor_spec; [done|]. intros l2 Hc2 _ _ _ _ _ _ _ _. wp_steps.
  simpl in *. rewrite Hc2. split; [done|]. split.
  - intros t Ht. destruct (Hat t Ht) as (tc & Htc & Hatt). split.
    + exists (attach true tc). by rewrite /= Hth1 !attach_all_lookup Htc /= bool_decide_true.
    + intros g. rewrite /cache /= Hth1 !attach_all_lookup Htc /= bool_decide_true //=. by rewrite Hatt.
  - rewrite /distribute_pages /=. rewrite /mbind /M_bind /gets /modify /= Hl1. bool_test (w_all_page_list (c_world (Cl l)) =? 0).
    rewrite /page_fuel /=. bool_test (w_all_page_list (c_world (Cl l)) =? 0). done.
Qed.
End initialisation.

(** ** Witnesses *)

Section witnesses.
Import ChunkSpec.Demo PoolDemo.

(** A process with one thread; a running library whose thread has allocated a unit. *)
Definition joined : Life :=
  match ThreadContext_ctor 1 process with Ok (_, l) => l | Fail _ => process end.
Definition life1 : Life := MkLife (MkRt c1 true 0 0 ∅ (λ _, 0)) true true {[1]} ∅ {[1 := 0]} 1 1.

Lemma down_joined : down joined.
Proof.
  split; try reflexivity.
  - intros t tc. unfold joined. simpl. intros [[<- <-]|[_ ?]]%lookup_insert_Some; [reflexivity|done].
  - intros t. unfold joined. simpl. intros [->%elem_of_singleton|?%elem_of_empty]%elem_of_union; [|done].
    rewrite lookup_insert_eq. by eexists.
Qed.

Lemma can_reserve_demo : can_reserve 100000.
Proof. by vm_compute. Qed.

Lemma life1_attached t : t ∈ l_entries life1 → attached (Cl life1) t.
Proof. simpl. intros ->%elem_of_singleton. by destruct ctx1 as (_ & _ & _ & ?). Qed.

Lemma woomem_init_ready_witness :
  wp (woomem_init true 8 100000) (λ b l', b = true ∧ attached (Cl l') 1) joined.
Proof.
  eapply wp_mono; [exact (woomem_init_ready joined 100000 8 down_joined can_reserve_demo ltac:(lia))|].
  intros b l' (Hb & _ & _ & _ & _ & _ & _ & Ha & _). split; [exact Hb|]. apply Ha. by vm_compute.
Defined.

Lemma woomem_init_failed_witness :
  wp (woomem_init false 8 100000) (λ b l', b = false ∧ l_inited l' = false) joined.
Proof.
  eapply wp_mono; [exact (woomem_init_failed joined 100000 8 false down_joined
    (or_intror (conj can_reserve_demo eq_refl)))|].
  intros b l' (Hb & Hd & _). split; [exact Hb|exact (dn_inited _ Hd)].
Defined.

Lemma thread_starts_witness : wp (ThreadContext_ctor 2) (λ _ l', attached (Cl l') 2) life1.
Proof.
  destruct ctx1 as (pm & Hc & Hr & _).
  eapply wp_mono; [exact (thread_starts life1 pm 2 eq_refl eq_refl eq_refl ltac:(simpl; lia) Hc Hr
    ltac:(vm_compute; reflexivity))|].
  intros _ l' (_ & _ & Ha & _). exact Ha.
Defined.

Lemma thread_ends_witness : wp (ThreadContext_dtor 1)
  (λ _ l', (65536 : Z) ∈ pool (Cl l') MIDIUM_16360) life1.
Proof.
  destruct ctx1 as (pm & Hc & Hr & Ha).
  eapply wp_mono; [exact (thread_ends life1 pm 1 eq_refl Hc Hr Ha)|].
  intros _ l' (_ & _ & _ & _ & Hp). rewrite Hp /returned. simpl. rewrite cache_c1. by constructor.
Defined.

Lemma reinit_stale_chain_witness :
  wp (woomem_shutdown ;; woomem_init true 8 100000) (λ b l', b = true ∧
    distribute_pages [MkWorker 0 0] (c_world (Cl l')) = Fail BadAccess) life1.
Proof.
  destruct ctx1 as (pm & Hc & Hr & _).
  eapply wp_mono; [exact (reinit_stale_chain life1 pm 100000 8 [MkWorker 0 0] eq_refl Hc Hr life1_attached
    ltac:(vm_compute; discriminate) can_reserve_demo ltac:(lia))|].
  intros b l' (Hb & _ & Hd). by split.
Defined.
End witnesses.
