(* ===== verification/System.v ===== *)
(** * The library as a whole: [src/src/woomem.cpp] over the parts it is made of

    One state for the running library (the contexts of [Context], the workers of the collector), one
    operation per call of the interface and per half of a collection, and a specification of what a program that uses the
    library sees: the units it has with their sizes and attributes, changed by its calls. *)

From S2P Require Import Prelude SizeClass Locks Chunk Blocks ChunkProof Heap PageUnit HeapInv.
From S2P Require Import Pools PoolProof Api ApiProof GrayQueue Sweep SweepProof Collect CollectProof Mark MarkProof.
From S2P Require Import Cycle CycleProof Barrier Context.
Open Scope Z_scope.

(** ** State *)

Record Sys := MkSys {
  z_life : Life;
  z_mark : list MarkWorker;    (* marking state of [m_gc_worker_threads] *)
  z_sweep : list Worker;       (* sweeping state of [m_gc_worker_threads] *)
  z_alive : Z;                 (* counter of the worker that swept last *)
  z_freed : list Z;            (* calls of the user's free callback *)
  z_after : Z;                 (* [woomem_gc_memory_size_after_last_round_sweep] *)
  z_flag : bool;               (* [woomem_gc_marking_state_flag] *)
  z_force : bool;              (* [m_force_trigger_gc] *)
  z_cycles : Z;                (* [m_gc_cycle_count] *)
}.

Abbreviation ZM := (M Sys).
Abbreviation Rz z := (l_rt (z_life z)).
Abbreviation Cz z := (r_ctx (Rz z)).
Abbreviation Wz z := (c_world (Cz z)).

Definition set_slife (l : Life) (z : Sys) : Sys :=
  MkSys l (z_mark z) (z_sweep z) (z_alive z) (z_freed z) (z_after z) (z_flag z) (z_force z) (z_cycles z).

(** The part of the state that a collection works on, and putting it back. *)
Definition cycle_view (z : Sys) : Cy :=
  MkCy (MkGc (MkSw (Cz z) (r_round (Rz z)) (z_alive z) (z_freed z)) (z_sweep z) (z_after z)) (z_mark z)
    (l_assigned (z_life z)) (z_flag z) (r_roots (Rz z)) (z_force z) (r_new_allocated (Rz z)) (z_cycles z).
Definition with_cycle (y : Cy) (z : Sys) : Sys :=
  let x := y_gc y in
  let s := g_sw x in
  MkSys (set_assigned_idx (y_assigned y)
      (set_rt (MkRt (s_ctx s) (r_gc_alive (Rz z)) (s_round s) (y_new_allocated y) (y_roots y) (r_bytes (Rz z))) (z_life z)))
    (y_workers y) (g_workers x) (s_alive s) (s_freed s) (g_memory_size_after_sweep x) (y_state_flag y)
    (y_force_trigger y) (y_cycles y).

Definition on_life {A} (m : LM A) : ZM A := λ z,
  match m (z_life z) with
  | Ok (a, l) => Ok (a, set_slife l z)
  | Fail e => Fail e
  end.
Definition on_rt {A} (m : RM A) : ZM A := λ z,
  match m (Rz z) with
  | Ok (a, r) => Ok (a, set_slife (set_rt r (z_life z)) z)
  | Fail e => Fail e
  end.
Definition on_cycle {A} (m : YM A) : ZM A := λ z,
  match m (cycle_view z) with
  | Ok (a, y) => Ok (a, with_cycle y z)
  | Fail e => Fail e
  end.

(** ** Starting *)

(** The workers that the constructor of [GC] makes. *)
Definition new_workers (n : nat) (z : Sys) : Sys :=
  MkSys (z_life z) (replicate n (MkMarkWorker (Mpsc.MpscGrayQueue_ctor GRAY_QUEUE_CAPACITY) [] false))
    (replicate n (MkWorker 0 0)) 0 [] (z_after z) false false 0.

Definition start `{Build} `{Kernel} (hardware_concurrency reserved_chunk_size : Z) : ZM bool :=
  ok ← on_life (woomem_init true hardware_concurrency reserved_chunk_size);
  if (ok : bool) then
    n ← gets (λ z, Z.to_nat (l_worker_count (z_life z)));
    modify (new_workers n) ;;
    mret true
  else mret false.

Definition process_state : Sys := MkSys process [] [] 0 [] 0 false false 0.

(** ** Requests *)

(** What the program and its threads ask of the library, and the two halves of a collection: other requests may
    come between them.  Marking comes with the words of the payloads at that time and with what
    the user's callbacks do. *)
Inductive Req :=
| StartThread (t : Z)
| EndThread (t : Z)
| AllocBegin (t size : Z)
| AllocEnd (p attrib : Z)
| AllocEndRoot (p attrib : Z)
| RemoveRoot (p : Z)
| Realloc (t p size : Z)
| Validate (p : Z)
| Marking (pl : Payload) (um : UserMark) (ug : UserGc)
| Sweeping.

(** The answer: an address, or 0. *)
Definition serve `{Build} `{Kernel} `{RawMemory} (q : Req) : ZM Z :=
  match q with
  | StartThread t => on_life (ThreadContext_ctor t) ;; mret 0
  | EndThread t => on_life (ThreadContext_dtor t) ;; mret 0
  | AllocBegin t size => on_rt (woomem_allocate_begin t size)
  | AllocEnd p attrib => on_rt (woomem_allocate_end p attrib) ;; mret 0
  | AllocEndRoot p attrib => on_rt (woomem_allocate_end_as_root p attrib) ;; mret 0
  | RemoveRoot p => on_rt (woomem_remove_from_root_set p) ;; mret 0
  | Realloc t p size => on_rt (woomem_reallocate t p size)
  | Validate p => on_rt (on_ctx (on_world (woomem_validate_addr p)))
  | Marking pl um ug => on_cycle gc_mark ;; mret 0
  | Sweeping => on_cycle gc_sweep ;; mret 0
  end.

(** ** What the program sees *)

(** The units the program has: from the address of the header to the size of the payload, and to the attributes if the allocation has
    been finished; those it has registered as roots; between the halves of a collection, the finished units
    that the sweep will not free; and whether a collection has swept before. *)
Record View := MkView {
  v_units : gmap Z (Z * option Z);
  v_roots : gset Z;
  v_held : option (gset Z);
  v_swept : bool;
}.

(** A unit enters the view or changes in it; one that is finished during a collection survives it. *)
Definition view_put (u s : Z) (o : option Z) (V : View) : View :=
  MkView (<[u := (s, o)]> (v_units V)) (v_roots V)
    (match o with Some _ => union {[u]} <$> v_held V | None => v_held V end) (v_swept V).
Definition view_root (u : Z) (V : View) : View := MkView (v_units V) ({[u]} ∪ v_roots V) (v_held V) (v_swept V).
Definition view_unroot (u : Z) (V : View) : View := MkView (v_units V) (v_roots V ∖ {[u]}) (v_held V) (v_swept V).

(** A finished unit, and the one whose payload holds an address. *)
Definition finished_unit (V : View) (u : Z) : Prop := ∃ s a, v_units V !! u = Some (s, Some a).
Definition points (V : View) (p u : Z) : Prop :=
  ∃ s a, v_units V !! u = Some (s, Some a) ∧ u + SIZEOF_UnitHead ≤ p < u + SIZEOF_UnitHead + s.

(** Reachability: through the calls of the callbacks and the words of the payloads. *)
Definition names (V : View) (c : MarkCall) (v : Z) : Prop :=
  match c with
  | ByHead p => p ≠ 0 ∧ v = p - SIZEOF_UnitHead
  | Fuzzy p => points V p v
  | FuzzyHead p => Z.land p 7 = 0 ∧ points V p v
  end.
Definition flag (attrib bit : Z) : bool := negb (Z.land attrib bit =? 0).

Section reach.
Context `{Payload} `{UserMark} `{UserGc}.

Definition leads (V : View) (u v : Z) : Prop :=
  ∃ s a, v_units V !! u = Some (s, Some a) ∧
    ((flag a WOOMEM_ATTRIB_MARK_CALLBACK = true ∧ ∃ c, c ∈ user_mark (u + SIZEOF_UnitHead) ∧ names V c v) ∨
     (flag a WOOMEM_ATTRIB_AUTO_MARK = true ∧
      ∃ j, 0 ≤ j ∧ 8 * j + 8 ≤ s ∧ points V (word (u + SIZEOF_UnitHead + 8 * j)) v)).
Definition root_of (V : View) (v : Z) : Prop := v ∈ v_roots V ∨ ∃ c, c ∈ at_begin ++ at_stop ∧ names V c.2 v.
Definition reach (V : View) (v : Z) : Prop := ∃ r, root_of V r ∧ rtc (leads V) r v.
End reach.

(** A new unit, that meets no unit the program has. *)
Definition apart (V : View) (u s : Z) : Prop :=
  ∀ u' s' o, v_units V !! u' = Some (s', o) → u + SIZEOF_UnitHead + s ≤ u' ∨ u' + SIZEOF_UnitHead + s' ≤ u.
Definition handed (V : View) (size a : Z) (o : option Z) (V' : View) : Prop :=
  ∃ u s, a = u + SIZEOF_UnitHead ∧ size ≤ s ∧ v_units V !! u = None ∧ apart V u s ∧ V' = view_put u s o V.

(** The specification of the requests. *)
Definition answers (V : View) (q : Req) (a : Z) (V' : View) : Prop :=
  match q with
  | StartThread _ | EndThread _ => V' = V
  | AllocBegin _ size => (a = 0 ∧ V' = V) ∨ handed V size a None V'
  | AllocEnd p attrib => ∃ s, v_units V !! (p - SIZEOF_UnitHead) = Some (s, None) ∧
      V' = view_put (p - SIZEOF_UnitHead) s (Some (u8 attrib)) V
  | AllocEndRoot p attrib => ∃ s, v_units V !! (p - SIZEOF_UnitHead) = Some (s, None) ∧
      V' = view_root (p - SIZEOF_UnitHead) (view_put (p - SIZEOF_UnitHead) s (Some (u8 attrib)) V)
  | RemoveRoot p => V' = view_unroot (p - SIZEOF_UnitHead) V
  | Realloc _ p size => ∃ s attrib, v_units V !! (p - SIZEOF_UnitHead) = Some (s, Some attrib) ∧
      if size <=? s then a = p ∧ V' = V else (a = 0 ∧ V' = V) ∨ handed V size a (Some (u8 attrib)) V'
  | Validate p => V' = V ∧ ∀ u s o, v_units V !! u = Some (s, o) →
      u + SIZEOF_UnitHead ≤ p < u + SIZEOF_UnitHead + s → a = match o with Some _ => u + SIZEOF_UnitHead | None => 0 end
  | Marking _ _ _ => ∃ S, V' = MkView (v_units V) (v_roots V) (Some S) (v_swept V) ∧ ∀ u, finished_unit V u → reach V u → u ∈ S
  | Sweeping => v_roots V' = v_roots V ∧ v_held V' = None ∧ v_swept V' = true ∧ v_units V' ⊆ v_units V ∧
      ∀ u s o, v_units V !! u = Some (s, o) → o = None ∨ (∃ S, v_held V = Some S ∧ u ∈ S) → v_units V' !! u = Some (s, o)
  end.

(** ** The obligations of the program *)

(** A size that does not wrap around with the headers and the rounding to pages. *)
Definition fits (size : Z) : Prop :=
  0 ≤ size ∧ size + SIZEOF_PageHead + SIZEOF_UnitHead + NORMAL_PAGE_SIZE - 1 < 2 ^ 64.

Definition call_legal (V : View) (c : MarkCall) : Prop :=
  match c with
  | ByHead p => p = 0 ∨ finished_unit V (p - SIZEOF_UnitHead)
  | _ => True
  end.

Definition marking_legal `{Payload} `{UserMark} `{UserGc} (V : View) (z : Sys) : Prop :=
  (∀ u s a, v_units V !! u = Some (s, Some a) → flag a WOOMEM_ATTRIB_MARK_CALLBACK = true →
     Forall (call_legal V) (user_mark (u + SIZEOF_UnitHead))) ∧
  Forall (λ c, call_legal V c.2 ∧
    match c.1 with AsRoot => True | ByThread i => (i < length (z_mark z))%nat | ByWorker _ => False end) at_begin ∧
  Forall (λ c, call_legal V c.2 ∧
    match c.1 with ByThread i => (i < length (z_mark z))%nat | _ => False end) at_stop ∧
  (* no counter of a gray queue wraps during the collection *)
  Forall (λ wk, Mpsc.m_enqueue_pos (m_gray_queue wk) + Z.of_nat (size (w_units (Wz z))) + 1 + GRAY_QUEUE_CAPACITY < 2 ^ 64)
    (z_mark z).

(** A collection after the first one needs something to sweep: with no page in the chain
    the workers keep the lists of the sweep before ([stale_sweep_list]). *)
Definition legal (V : View) (z : Sys) (q : Req) : Prop :=
  match q with
  | StartThread t => c_threads (Cz z) !! t = None
  | EndThread t => t ∈ l_entries (z_life z)
  | AllocBegin t size => t ∈ l_entries (z_life z) ∧ fits size
  | AllocEnd p _ | AllocEndRoot p _ => ∃ s, v_units V !! (p - SIZEOF_UnitHead) = Some (s, None)
  | RemoveRoot _ | Validate _ => True
  | Realloc t p size => t ∈ l_entries (z_life z) ∧ fits size ∧ finished_unit V (p - SIZEOF_UnitHead)
  | Marking _ _ _ => v_held V = None ∧ marking_legal V z
  | Sweeping => is_Some (v_held V) ∧ (v_units V ≠ ∅ ∨ v_swept V = false)
  end.
