(* ===== verification/SystemSpec.v ===== *)
(** * Properties of the library as a whole

    The refinement of the program's view by the library: the invariant that ties the state of all the components to the
    view, its preservation by every request, and the theorem that follows for a program that makes
    any number of requests of a library that has been initialised. *)

From S2P Require Import Prelude SizeClass Locks Chunk Blocks ChunkProof Heap PageUnit HeapInv.
From S2P Require Import Pools PoolProof Api ApiProof GrayQueue Sweep SweepProof Collect CollectProof Mark MarkProof.
From S2P Require Import Cycle CycleProof Frames Barrier Context ContextSpec System ChunkSpec.
Open Scope Z_scope.

(** ** The view and the heap *)

(** The header of a pending unit, or of a finished one with its attributes. *)
Definition has_state (o : option Z) (h : UnitHead) : Prop :=
  match o with
  | None => m_life h = PENDING
  | Some a => (m_life h = UNMARKED ∨ m_life h = FULL_MARKED) ∧ m_attribute h = a
  end.

(** The units of the view are units of the heap with that header, and every visible unit is in the view. *)
Record shows (pm : gmap Z pkind) (V : View) (w : World) : Prop := {
  sh_unit : ∀ u s o, v_units V !! u = Some (s, o) →
    is_unit pm u s ∧ ∃ h, w_units w !! u = Some h ∧ has_state o h;
  sh_visible : ∀ u, visible w u = true → finished_unit V u;
}.

Lemma visible_life w u : visible w u = true ↔ ∃ l, life_of w u = Some l ∧ life_value PENDING < life_value l.
Proof.
  rewrite /visible /life_of. destruct (w_units w !! u) as [h|]; simpl.
  - rewrite Z.ltb_lt. split; [by eauto|]. by intros (l & [= <-] & ?).
  - split; [done|]. by intros (l & ? & _).
Qed.

Lemma quiet_visible w w' u : quiet_on w w' → visible w' u = true → visible w u = true.
Proof. rewrite !visible_life. intros Hq (l & Hl & Hv). exists l. split; [by apply Hq|done]. Qed.

Lemma quiet_marked w w' u : quiet_on w w' → marked_unit w' u → marked_unit w u.
Proof. intros Hq [Hu|Hu]; [left|right]; by apply Hq. Qed.

Lemma has_state_life o h : has_state o h → m_life h ≠ RELEASED ∧ m_life h ≠ SELF_MARKED.
Proof. destruct o as [a|]; simpl; [intros [[->| ->] _]|intros ->]; done. Qed.

Lemma has_state_visible o h : has_state o h → (life_value PENDING <? life_value (m_life h)) = bool_decide (is_Some o).
Proof. destruct o as [a|]; simpl; [intros [[->| ->] _]|intros ->]; done. Qed.

Lemma shows_kept pm pm' V w w' :
  shows pm V w → pm ⊆ pm' → units_kept pm w w' → quiet_on w w' → shows pm' V w'.
Proof.
  intros [Hu Hv] Hsub Hk Hq. split.
  - intros u s o (Hus & Hh)%Hu. split; [by eapply is_unit_mono|]. by rewrite (Hk u s Hus).
  - intros u Hvis. by apply Hv, (quiet_visible _ w').
Qed.

(** A visible unit of the view is finished. *)
Lemma shows_finished pm V w u s o h :
  shows pm V w → v_units V !! u = Some (s, o) → w_units w !! u = Some h → visible w u = bool_decide (is_Some o).
Proof.
  intros [Hu _] HV Hh. destruct (Hu _ _ _ HV) as (_ & h' & Hh' & Hs). rewrite Hh in Hh'. injection Hh' as <-. rewrite /visible Hh.
  by apply has_state_visible.
Qed.

Lemma shows_got pm pm' V w w' bl u s :
  shows pm V w → pm ⊆ pm' → unit_got pm w u s pm' w' → quiet_on w w' → heap_inv w' bl pm' →
  v_units V !! u = None ∧ apart V u s ∧ shows pm' (view_put u s None V) w'.
Proof.
  intros [Hu Hv] Hsub (Hus & Hrel & (h & Hh & Hp) & Hoth) Hq Hinv.
  assert (v_units V !! u = None) as Hnew.
  { destruct (v_units V !! u) as [[s0 o]|] eqn:E; [|done]. exfalso. destruct (Hu _ _ _ E) as (Hu0 & h1 & Hh1 & Hs1).
    destruct (Hrel s0 Hu0) as (h0 & Hh0 & Hr0). simplify_eq. by destruct (has_state_life _ _ Hs1). }
  split; [done|]. split; [|split].
  - intros u' s' o E. destruct (Hu _ _ _ E) as [Hu' _].
    apply (units_apart _ _ _ Hinv); [done|by eapply is_unit_mono|]. intros ->. congruence.
  - intros u' s' o. destruct (decide (u' = u)) as [->|Hne]; simpl.
    + rewrite lookup_insert_eq. intros [= <- <-]. by eauto.
    + rewrite lookup_insert_ne //. intros (Hu' & Hl)%Hu. split; [by eapply is_unit_mono|]. by rewrite (Hoth u' s' Hu' Hne).
  - intros u' Hvis. destruct (decide (u' = u)) as [->|Hne]; [by rewrite /visible Hh Hp in Hvis|].
    rewrite /finished_unit /= lookup_insert_ne //. by apply Hv, (quiet_visible _ w').
Qed.

Lemma shows_publish pm V w u s o h a :
  shows pm V w → v_units V !! u = Some (s, o) → has_state (Some a) h →
  shows pm (view_put u s (Some a) V) (upd_units (<[u := h]>) w).
Proof.
  intros [Hu Hv] HV Hs. split.
  - intros u' s' o'. simpl. destruct (decide (u' = u)) as [->|Hne].
    + rewrite !lookup_insert_eq. intros [= <- <-]. destruct (Hu _ _ _ HV). by eauto.
    + rewrite !lookup_insert_ne //. apply Hu.
  - intros u'. rewrite /finished_unit /= visible_life life_store. destruct (decide (u' = u)) as [->|Hne].
    + rewrite lookup_insert_eq. eauto.
    + rewrite lookup_insert_ne // -visible_life. apply Hv.
Qed.

(** ** Where a collection is *)

(** The sweep does not free the unit: it is marked, or it has been finished in this round. *)
Definition spared (round : Z) (h : UnitHead) : Prop := m_life h = FULL_MARKED ∨ (m_age h = 15 ∧ m_timing h = round).

(** No unit is marked, or marking is complete and the units that the program may count on are spared. *)
Definition phase_ok (pm : gmap Z pkind) (V : View) (w : World) (round : Z) : Prop :=
  match v_held V with
  | None => resting w
  | Some K => (∀ u, life_of w u ≠ Some SELF_MARKED) ∧ (∀ u, marked_unit w u → ∃ s, is_unit pm u s) ∧
      ∀ u, u ∈ K → finished_unit V u ∧ ∃ h, w_units w !! u = Some h ∧ spared round h
  end.

Lemma phase_kept pm pm' V V' w w' round :
  phase_ok pm V w round → v_held V' = v_held V → (∀ u, finished_unit V u → finished_unit V' u) → pm ⊆ pm' → quiet_on w w' →
  (∀ u, finished_unit V u → w_units w' !! u = w_units w !! u) → phase_ok pm' V' w' round.
Proof.
  rewrite /phase_ok. intros Hp -> Hf Hsub Hq Hu. destruct (v_held V) as [K|]; [|by intros u ?%(quiet_marked w); [apply (Hp u)|]].
  destruct Hp as (Hno & Hun & HK). split_and!.
  - intros u Hl. by apply (Hno u), Hq.
  - intros u Hm. destruct (Hun u) as [s ?]; [by eapply quiet_marked|]. exists s. by eapply is_unit_mono.
  - intros u HuK. destruct (HK u HuK) as [Hfu ?]. split; [by apply Hf|]. by rewrite Hu.
Qed.

Lemma phase_ended pm V w round u s attrib h :
  phase_ok pm V w round → v_units V !! u = Some (s, None) →
  phase_ok pm (view_put u s (Some (u8 attrib)) V) (upd_units (<[u := ended round attrib h]>) w) round.
Proof.
  rewrite /phase_ok. intros Hp HV. simpl.
  assert (∀ v, marked_unit (upd_units (<[u := ended round attrib h]>) w) v → marked_unit w v) as Hm.
  { intros v. rewrite /marked_unit !life_store. case_decide; [by intros [?|?]|done]. }
  destruct (v_held V) as [K|]; simpl; [|intros v ?%Hm; by apply (Hp v)].
  destruct Hp as (Hno & Hun & HK). split_and!; [|by intros v ?%Hm; apply Hun|].
  - intros v. rewrite life_store. case_decide; [done|apply Hno].
  - intros v Hv. rewrite /finished_unit /=. destruct (decide (v = u)) as [->|Hne].
    + rewrite !lookup_insert_eq. split; [by eauto|]. eexists. split; [done|]. by right.
    + rewrite !lookup_insert_ne //. apply HK. set_solver.
Qed.

(** ** The view after marking *)

Definition marked_view (w : World) (V : View) : View :=
  MkView (v_units V) (v_roots V) (Some (dom (filter (λ x, life_of w x.1 = Some FULL_MARKED)  (v_units V)))) (v_swept V).

Lemma marked_view_held w V u : u ∈ dom (filter (λ x, life_of w x.1 = Some FULL_MARKED) (v_units V)) ↔
  is_Some (v_units V !! u) ∧ life_of w u = Some FULL_MARKED.
Proof.
  rewrite elem_of_dom. split.
  - intros [x [HV Hl]%map_lookup_filter_Some]. split; [by exists x|done].
  - intros [[x HV] Hl]. exists x. by apply map_lookup_filter_Some.
Qed.

Lemma shows_darkened pm V w w' :
  shows pm V w → darkened w w' → (∀ u, life_of w' u ≠ Some SELF_MARKED) → shows pm (marked_view w' V) w'.
Proof.
  intros [Hu Hv] Hd Hno. split.
  - intros u s o (Hus & h & Hh & Hst)%Hu. split; [done|]. pose proof (Hd u) as Hdu. rewrite Hh in Hdu.
    specialize (Hno u). rewrite /life_of in Hno. destruct (w_units w' !! u) as [h'|]; [|done]. simpl in Hno.
    exists h'. split; [done|]. destruct Hdu as [E Hl]. destruct (has_state_life _ _ Hst) as [_ Hns].
    assert (m_attribute h' = m_attribute h) as Ha by (by rewrite E).
    destruct Hl as [Hl|[[Hl [Hl'|Hl']]|[Hl _]]]; [|congruence| |done].
    + destruct o; simpl in *; by rewrite Hl ?Ha.
    + destruct o as [a|]; simpl in *; [|congruence]. destruct Hst. split; [by right|congruence].
  - intros u. rewrite (darkened_visible _ _ u Hd). apply Hv.
Qed.

(** A unit of the view that is black is finished. *)
Lemma black_finished pm V w u : shows pm V w → is_Some (v_units V !! u) → life_of w u = Some FULL_MARKED → finished_unit V u.
Proof.
  intros [Hu _] [[s [a|]] HV] Hl; [by exists s, a|]. destruct (Hu _ _ _ HV) as (_ & h & Hh & Hst).
  rewrite /life_of Hh /= Hst in Hl. done.
Qed.

(** ** The view after a sweep *)

Definition survivor (round : Z) (w : World) (x : Z * (Z * option Z)) : Prop :=
  match w_units w !! x.1 with Some h => survives round h = true | None => False end.

#[export] Instance survivor_dec round w x : Decision (survivor round w x).
Proof. rewrite /survivor. destruct (w_units w !! x.1); apply _. Defined.

Definition swept_view (round : Z) (w : World) (V : View) : View :=
  MkView (filter (survivor round w) (v_units V)) (v_roots V) None true.

Lemma spared_survives round o h : has_state o h → o = None ∨ spared round h → survives round h = true.
Proof.
  intros Hst Hsp. destruct (has_state_life _ _ Hst) as [Hr _]. rewrite /survives bool_decide_eq_false_2 // /doomed /sweepable.
  destruct Hsp as [->|[Hf|[Ha Ht]]]; [by rewrite /= Hst|by rewrite Hf|].
  rewrite Ha Ht !Z.eqb_refl /=. by case_bool_decide.
Qed.

Lemma kept_state o h : has_state o h → has_state o (if bool_decide (m_life h = PENDING) then h else kept h).
Proof.
  destruct o as [a|]; simpl; [|by intros Hp; rewrite bool_decide_eq_true_2]. intros [Hl <-].
  rewrite bool_decide_eq_false_2; [|by destruct Hl as [->| ->]]. rewrite /kept. destruct (m_age h =? 0); by auto.
Qed.

Section swept.
Context (pm pm' : gmap Z pkind) (V : View) (l : list Z) (x x' : Gc).
Context (Hctx : ctx_inv (s_ctx (g_sw x)) pm) (Hshow : shows pm V (W (g_sw x))) (Hdone : phase_done pm l x x' pm').
Abbreviation V' := (swept_view (s_round (g_sw x)) (W (g_sw x)) V).

Lemma shows_swept : shows pm' V' (W (g_sw x')).
Proof using Hctx Hshow Hdone.
  split.
  - intros u s o [HV Hs]%map_lookup_filter_Some. destruct (sh_unit _ _ _ Hshow _ _ _ HV) as (Hu & h & Hh & Hst).
    rewrite /survivor /= Hh in Hs. pose proof (phase_done_unit pm l x x' pm' u s h Hctx Hdone Hu Hh) as Hd.
    rewrite Hs in Hd. destruct Hd as [? Hh']. split; [done|]. eexists. split; [exact Hh'|]. by apply kept_state.
  - intros u Hv. destruct (phase_done_visible pm l x x' pm' u Hctx Hdone Hv) as [Hv0 _].
    destruct (sh_visible _ _ _ Hshow u Hv0) as (s & a & HV). exists s, a. apply map_lookup_filter_Some. split; [done|].
    destruct (sh_unit _ _ _ Hshow _ _ _ HV) as (Hu & h & Hh & Hst). rewrite /survivor /= Hh.
    pose proof (phase_done_unit pm l x x' pm' u s h Hctx Hdone Hu Hh) as Hd. destruct (survives _ h) eqn:E; [done|].
    exfalso. pose proof Hu as (p & k & Hp & Hin). destruct (ph_fate _ _ _ _ _ Hdone p k Hp u s h Hin Hh) as [(h' & Hh' & Hf) _].
    by rewrite /visible Hh' (doomed_fate _ _ _ E Hf) in Hv.
Qed.

Lemma swept_keeps u s o h :
  v_units V !! u = Some (s, o) → w_units (W (g_sw x)) !! u = Some h → o = None ∨ spared (s_round (g_sw x)) h →
  v_units V' !! u = Some (s, o).
Proof using Hshow.
  intros HV Hh Hsp. apply map_lookup_filter_Some. split; [done|]. rewrite /survivor /= Hh.
  destruct (sh_unit _ _ _ Hshow _ _ _ HV) as (_ & h' & Hh' & Hst). rewrite Hh in Hh'. injection Hh' as <-.
  by apply (spared_survives _ o).
Qed.
End swept.

(** ** The program's graph and the collector's *)

Section graphs.
Context `{Payload} `{UserMark} `{UserGc}.
Context (pm : gmap Z pkind) (V : View) (w : World) (bl : list block) (Hinv : heap_inv w bl pm) (Hshow : shows pm V w).

Lemma finished_visible u : finished_unit V u → visible w u = true ∧ ∃ s, is_unit pm u s.
Proof using Hshow.
  intros (s & a & HV). destruct (sh_unit _ _ _ Hshow _ _ _ HV) as (Hu & h & Hh & Hst).
  split; [|by exists s]. by rewrite (shows_finished _ _ _ _ _ _ _ Hshow HV Hh).
Qed.

Lemma points_covers p u : points V p u → visible w u = true ∧ ∃ s, covers pm u s p.
Proof using Hinv Hshow.
  intros (s & a & HV & Hp). split; [apply finished_visible; by exists s, a|]. exists s.
  apply (payload_covers _ _ _ _ _ _ Hinv); [|done]. by apply (sh_unit _ _ _ Hshow _ _ _ HV).
Qed.

Lemma names_target c v : names V c v → call_target pm w c v.
Proof using Hinv Hshow.
  destruct c as [p|p|p]; simpl; [done|by apply points_covers|]. intros [? ?%points_covers]. done.
Qed.

Lemma leads_edge u v : leads V u v → edge pm w u v.
Proof using Hinv Hshow.
  intros (s & a & HV & Hl). destruct (sh_unit _ _ _ Hshow _ _ _ HV) as (Hu & h & Hh & _ & <-).
  exists h, s. split; [done|]. split; [done|]. destruct Hl as [(Hf & c & Hc & Hn)|(Hf & j & Hj & Hj' & Hp)].
  - left. split; [done|]. exists c. split; [done|]. by apply names_target.
  - right. destruct (points_covers _ _ Hp) as [? [s' ?]]. split; [done|]. split; [done|]. by exists j, s'.
Qed.

Lemma reach_reachable u : (∀ r, r ∈ v_roots V → finished_unit V r) → reach V u → reachable_unit pm w (v_roots V) u.
Proof using Hinv Hshow.
  intros Hroots (r & Hr & Hrtc). exists r. split.
  - destruct Hr as [Hr|(c & Hc & Hn)]; [left|right].
    + split; [done|]. by apply finished_visible, Hroots.
    + exists c. split; [done|]. by apply names_target.
  - eapply rtc_subrel; [|exact Hrtc]. intros a b. apply leads_edge.
Qed.

Lemma legal_call c : call_legal V c → call_ok pm w c.
Proof using Hshow. destruct c as [p|p|p]; simpl; [|done..]. intros [?|?%finished_visible]; auto. Qed.

Lemma legal_callbacks z : Wz z = w → marking_legal V z → callbacks_ok pm w (length (z_mark z)).
Proof using Hshow.
  intros Hw (Huser & Hb & Hs & _). split; [|split].
  - intros u s h Hu Hh Hv Ha. destruct (sh_visible _ _ _ Hshow u Hv) as (s' & a & HV).
    destruct (sh_unit _ _ _ Hshow _ _ _ HV) as (_ & h' & Hh' & _ & <-). rewrite Hh in Hh'. injection Hh' as <-.
    eapply Forall_impl; [by eapply Huser|]. apply legal_call.
  - eapply Forall_impl; [exact Hb|]. intros c [?%legal_call ?]. done.
  - eapply Forall_impl; [exact Hs|]. intros c [?%legal_call ?]. done.
Qed.
End graphs.

(** ** The invariant *)

(** The heap, the pools and the threads of a running library between two requests, and the program's view of them. *)
Record rt_inv (pm : gmap Z pkind) (V : View) (ts : gset Z) (r : Rt) : Prop := {
  ri_ctx : ctx_inv (r_ctx r) pm;
  ri_ready : caches_ready (r_ctx r);
  ri_phase : phase_ok pm V (c_world (r_ctx r)) (r_round r);
  ri_gc : r_gc_alive r = true;
  ri_threads : ∀ t, t ∈ ts → attached (r_ctx r) t;
  ri_view : shows pm V (c_world (r_ctx r));
  ri_roots : r_roots r = v_roots V;
  ri_held : ∀ u, u ∈ v_roots V → finished_unit V u ∧ ∀ K, v_held V = Some K → u ∈ K;
}.

Record sys_inv (V : View) (z : Sys) : Prop := {
  zi_rt : ∃ pm, rt_inv pm V (l_entries (z_life z)) (Rz z);
  zi_life : l_inited (z_life z) = true ∧ l_alive (z_life z) = true ∧ 0 < l_worker_count (z_life z);
  zi_workers : Forall idle_worker (z_mark z) ∧ (0 < length (z_mark z))%nat ∧ length (z_sweep z) = length (z_mark z);
  zi_lists : v_swept V = false → ∀ wk, wk ∈ z_sweep z → m_sweep_page_list wk = 0;
}.

(** ** Requests on the heap *)

Section heap_requests.
Context `{Build} `{Kernel} `{RawMemory}.
Context (Hkernel : commits_granted).

Lemma serve_begin pm V ts r t size : rt_inv pm V ts r → t ∈ ts → fits size →
  wp (woomem_allocate_begin t size) (λ a r', ∃ pm' V', rt_inv pm' V' ts r' ∧
    ((a = 0 ∧ V' = V) ∨ handed V size a None V')) r.
Proof using Hkernel.
  intros [Hc Hrd Hph Hg Hts Hs Hro Hrf] Ht [Hs0 Hs1].
  eapply wp_mono; [apply wp_respects; [apply allocate_publishes_nothing|by apply (allocate_begin_spec Hkernel r pm); auto]|].
  intros a r' [[(pm' & Hc' & Hrd' & Hsub & Hat & Hgot) (Hg' & Hround & Hro' & _)] Hq]. unfold under in Hq. simpl in Hq.
  assert (∀ u, finished_unit V u → ∃ s, is_unit pm u s) as Hfu by (intros u Hu; by eapply finished_visible).
  exists pm'. destruct Hgot as [[-> Hk]|(u & s & -> & _ & Hfit & Hgot)].
  - exists V. split; [|by auto]. split; try done; [|by auto|by eapply shows_kept|by rewrite Hro'].
    rewrite Hround. eapply phase_kept; [done..|]. intros u [s Hu]%Hfu. by eapply Hk.
  - pose proof Hc' as ((bl' & Hinv') & _). destruct (shows_got _ _ _ _ _ _ _ _ Hs Hsub Hgot Hq Hinv') as (Hnew & Hap & Hs').
    assert (∀ v, finished_unit V v → v ≠ u) as Hne by (intros v (? & ? & Hv) ->; congruence).
    assert (∀ v, finished_unit V v → finished_unit (view_put u s None V) v) as Hfin.
    { intros v Hv. pose proof (Hne v Hv). destruct Hv as (s' & a' & Hv). exists s', a'. by rewrite /= lookup_insert_ne. }
    exists (view_put u s None V). split; [|right; by exists u, s].
    split; try done; [|by auto|by rewrite Hro'|by intros v [??]%Hrf; auto].
    rewrite Hround. eapply phase_kept; [done|done|done|done|done|]. intros v Hv. destruct (Hfu v Hv) as [s' ?].
    by eapply Hgot; [|apply Hne].
Qed.

(** Finishing an allocation changes the header and the view. *)
Lemma rt_inv_ended pm V ts r u s h attrib : rt_inv pm V ts r → v_units V !! u = Some (s, None) →
  w_units (c_world (r_ctx r)) !! u = Some h →
  rt_inv pm (view_put u s (Some (u8 attrib)) V) ts
    (set_ctx (set_world (upd_units (<[u := ended (r_round r) attrib h]>) (c_world (r_ctx r))) (r_ctx r)) r).
Proof using.
  intros [Hc Hrd Hph Hg Hts Hs Hro Hrf] HV Hh. destruct (sh_unit _ _ _ Hs _ _ _ HV) as (Hu & h' & Hh' & Hst).
  rewrite Hh in Hh'. injection Hh' as <-. simpl in Hst.
  destruct (ctx_header _ pm u s h (ended (r_round r) attrib h) Hc Hrd Hu Hh) as [Hc' Hrd']; [by rewrite Hst|done|done|].
  split; try done.
  - by apply phase_ended.
  - apply (shows_publish _ _ _ _ _ None); [done..|]. split; [by left|done].
  - simpl. intros v Hv. destruct (Hrf v Hv) as [(s' & a' & Hv') HK]. split.
    + destruct (decide (v = u)) as [->|Hne]; [exists s, (u8 attrib)|exists s', a']; simpl; by simplify_map_eq.
    + intros K. destruct (v_held V) as [K'|]; [|done]. intros [= <-]. apply elem_of_union. right. by apply HK.
Qed.

Lemma serve_end pm V ts r u s attrib : rt_inv pm V ts r → v_units V !! u = Some (s, None) →
  wp (woomem_allocate_end (u + SIZEOF_UnitHead) attrib)
    (λ _ r', rt_inv pm (view_put u s (Some (u8 attrib)) V) ts r') r.
Proof using.
  intros Hr HV. destruct (sh_unit _ _ _ (ri_view _ _ _ _ Hr) _ _ _ HV) as (_ & h & Hh & _).
  rewrite /woomem_allocate_end. wp_steps. apply wp_on_ctx, wp_on_world.
  eapply allocate_end_run; [exact Hh|]. by eapply rt_inv_ended.
Qed.

Lemma serve_end_as_root pm V ts r u s attrib : rt_inv pm V ts r → v_units V !! u = Some (s, None) →
  wp (woomem_allocate_end_as_root (u + SIZEOF_UnitHead) attrib)
    (λ _ r', rt_inv pm (view_root u (view_put u s (Some (u8 attrib)) V)) ts r') r.
Proof using.
  intros Hr HV. destruct (sh_unit _ _ _ (ri_view _ _ _ _ Hr) _ _ _ HV) as (_ & h & Hh & _).
  rewrite /woomem_allocate_end_as_root /register_root_unit_head /woomem_allocate_end Z.add_simpl_r. wp_steps.
  apply wp_on_ctx, wp_on_world. eapply allocate_end_run; [exact Hh|].
  destruct (rt_inv_ended pm V ts r u s h attrib Hr HV Hh) as [? ? Hph ? ? [Hu Hv] Hro Hrf].
  split; try done; simpl in *; [by rewrite Hro|].
  intros v [->%elem_of_singleton|Hv']%elem_of_union; [|by apply Hrf]. split.
  - exists s, (u8 attrib). by rewrite /= lookup_insert_eq.
  - intros K. destruct (v_held V); [|done]. intros [= <-]. apply elem_of_union. left. by apply elem_of_singleton.
Qed.

Lemma rt_inv_bytes pm V ts r b : rt_inv pm V ts r → rt_inv pm V ts (set_bytes b r).
Proof using. intros []. by split. Qed.

Lemma serve_realloc pm V ts r t u s attrib size :
  rt_inv pm V ts r → t ∈ ts → fits size → v_units V !! u = Some (s, Some attrib) →
  wp (woomem_reallocate t (u + SIZEOF_UnitHead) size) (λ a r', ∃ pm' V', rt_inv pm' V' ts r' ∧
    if size <=? s then a = u + SIZEOF_UnitHead ∧ V' = V
    else (a = 0 ∧ V' = V) ∨ handed V size a (Some (u8 attrib)) V') r.
Proof using Hkernel.
  intros Hr Ht Hfit HV. pose proof Hr as [Hc _ _ _ _ Hs _ _]. pose proof Hc as ((bl & Hinv) & _).
  destruct (sh_unit _ _ _ Hs _ _ _ HV) as (Hu & h & Hh & Hl & Ha). pose proof (unit_positive _ _ _ _ _ Hinv Hu).
  rewrite /woomem_reallocate. wp_steps. apply wp_assert.
  { unfold SIZEOF_UnitHead. bool_test (u + 8 =? 0). done. }
  rewrite Z.add_simpl_r. wp_steps. apply wp_on_ctx, wp_on_world.
  rewrite {1}/wp (available_size_spec _ _ _ _ _ _ Hinv Hu Hh); [|by destruct Hl as [->| ->]].
  rewrite same_ctx. destruct (size <=? s) eqn:E; [wp_steps; by exists pm, V|]. wp_steps.
  eapply wp_mono; [by apply (serve_begin pm V ts r t size)|].
  intros p r1 (pm1 & V1 & Hr1 & [[-> ->]|(u' & s' & -> & Hs' & Hnew & Hap & ->)]).
  { rewrite Z.eqb_refl. wp_steps. exists pm1, V. auto. }
  pose proof (ri_view _ _ _ _ Hr1) as Hs1. pose proof (ri_ctx _ _ _ _ Hr1) as ((bl1 & Hinv1) & _).
  destruct (sh_unit _ _ _ Hs1 u' s' None) as (Hu' & _); [by rewrite /= lookup_insert_eq|].
  pose proof (unit_positive _ _ _ _ _ Hinv1 Hu'). unfold SIZEOF_UnitHead at 1. bool_test (u' + 8 =? 0). wp_steps.
  destruct (sh_unit _ _ _ Hs1 u s (Some attrib)) as (_ & h1 & Hh1 & _ & Ha1).
  { simpl. rewrite lookup_insert_ne //. intros <-. congruence. }
  apply wp_on_ctx, wp_on_world. eapply wp_load_unit; [exact Hh1|]. rewrite Ha1 same_ctx.
  wp_steps. eapply wp_mono; [apply (serve_end pm1 (view_put u' s' None V) ts _ u' s'); [by apply rt_inv_bytes|by rewrite /= lookup_insert_eq]|].
  intros [] r2 Hr2. wp_steps. exists pm1, (view_put u' s' (Some (u8 attrib)) V). split; [|right; by exists u', s'].
  by rewrite /view_put /= insert_insert_eq in Hr2.
Qed.
End heap_requests.

(** ** Every request keeps the invariant and gives its answer *)

Lemma wp_on_life {A} (m : LM A) (Q : A → Sys → Prop) z :
  wp m (λ a l, Q a (set_slife l z)) (z_life z) → wp (on_life m) Q z.
Proof. rewrite /wp /on_life. by destruct (m (z_life z)) as [[a l]|]. Qed.

Lemma wp_on_rt {A} (m : RM A) (Q : A → Sys → Prop) z :
  wp m (λ a r, Q a (set_slife (set_rt r (z_life z)) z)) (Rz z) → wp (on_rt m) Q z.
Proof. rewrite /wp /on_rt. by destruct (m (Rz z)) as [[a r]|]. Qed.

Lemma wp_on_cycle {A} (m : YM A) (Q : A → Sys → Prop) z :
  wp m (λ a y, Q a (with_cycle y z)) (cycle_view z) → wp (on_cycle m) Q z.
Proof. rewrite /wp /on_cycle. by destruct (m (cycle_view z)) as [[a y]|]. Qed.

Lemma sys_inv_rt V pm V' z r : sys_inv V z → v_swept V' = v_swept V → rt_inv pm V' (l_entries (z_life z)) r →
  sys_inv V' (set_slife (set_rt r (z_life z)) z).
Proof. intros [_ Hl Hw Hls] Hsw Hr. split; [by exists pm|done|done|by rewrite Hsw]. Qed.

Lemma handed_swept V size a o V' : (a = 0 ∧ V' = V) ∨ handed V size a o V' → v_swept V' = v_swept V.
Proof. intros [[_ ->]|(u & s & _ & _ & _ & _ & ->)]; done. Qed.

Lemma view_fresh pm V z : rt_inv pm V (l_entries (z_life z)) (Rz z) →
  (v_swept V = false → ∀ wk, wk ∈ z_sweep z → m_sweep_page_list wk = 0) →
  v_units V ≠ ∅ ∨ v_swept V = false → lists_fresh (Wz z) (z_sweep z).
Proof.
  intros Hr Hls [Hne|Hsw]; [|by intros _; apply Hls].
  destruct (map_choose (v_units V)) as (u & [s o] & HV); [done|].
  destruct (sh_unit _ _ _ (ri_view _ _ _ _ Hr) _ _ _ HV) as [Hu _].
  by eapply unit_fresh; [apply Hr|].
Qed.

Section requests.
Context `{Build} `{Kernel} `{RawMemory}.
Context (Hkernel : commits_granted).

Lemma serve_start_thread V z t : sys_inv V z → c_threads (Cz z) !! t = None →
  wp (on_life (ThreadContext_ctor t)) (λ _ z', sys_inv V z') z.
Proof using.
  intros [(pm & [Hc Hrd Hph Hg Hts Hs Hro Hrf]) (Hi & Ha & Hn) Hw Hls] Ht. apply wp_on_life.
  eapply wp_mono; [by apply (thread_start_spec (z_life z) pm t)|].
  intros [] l' (Hc' & Hrd' & (Hrt & Hwd & Hi' & Ha' & Hn') & Hat & He & Hoth & _).
  split; simpl; [|by rewrite Hi' Ha' Hn'|done|done]. exists pm.
  split; try done; [by rewrite Hwd Hrt|by rewrite Hrt| |by rewrite Hwd|by rewrite Hrt].
  rewrite He. intros t' [->%elem_of_singleton|Ht']%elem_of_union; [done|]. by apply Hoth, Hts.
Qed.

Lemma serve_end_thread V z t : sys_inv V z → t ∈ l_entries (z_life z) →
  wp (on_life (ThreadContext_dtor t)) (λ _ z', sys_inv V z') z.
Proof using.
  intros [(pm & [Hc Hrd Hph Hg Hts Hs Hro Hrf]) (Hi & Ha & Hn) Hw Hls] Ht. apply wp_on_life.
  eapply wp_mono; [apply (thread_end_spec (z_life z) pm t); auto|].
  intros [] l' (Hc' & Hrd' & (Hrt & Hwd & Hi' & Ha' & Hn') & Hth & He & _).
  split; simpl; [|by rewrite Hi' Ha' Hn'|done|done]. exists pm.
  split; try done; [by rewrite Hwd Hrt|by rewrite Hrt| |by rewrite Hwd|by rewrite Hrt].
  rewrite He. intros t' [(tc & Htc & Hat)%Hts Hne]%elem_of_difference. exists tc. split; [|done].
  rewrite Hth lookup_delete_ne //. intros <-. by apply Hne, elem_of_singleton.
Qed.

Lemma serve_validate V z p : sys_inv V z →
  wp (on_rt (on_ctx (on_world (woomem_validate_addr p)))) (λ a z', sys_inv V z' ∧ answers V (Validate p) a V) z.
Proof using.
  intros Hz. pose proof Hz as [(pm & Hr) _ _ Hls]. pose proof (ri_ctx _ _ _ _ Hr) as ((bl & Hinv) & _).
  apply wp_on_rt, wp_on_ctx, wp_on_world. eapply wp_mono; [by eapply validate_addr_spec|].
  intros a w [-> Hv]. split; [|split; [done|]].
  - apply (sys_inv_rt V pm); [done|done|]. by rewrite same_ctx.
  - intros u s o HV Hp. destruct (sh_unit _ _ _ (ri_view _ _ _ _ Hr) _ _ _ HV) as (Hu & h & Hh & _).
    rewrite (validated_unique _ _ _ u s p a Hinv (payload_covers _ _ _ _ _ _ Hinv Hu Hp) Hv).
    rewrite (shows_finished _ _ _ _ _ _ _ (ri_view _ _ _ _ Hr) HV Hh). by destruct o.
Qed.

(** Marking: the units that are black afterwards are held. *)
Lemma serve_marking `{Payload} `{UserMark} `{UserGc} V z : sys_inv V z → v_held V = None → marking_legal V z →
  wp (on_cycle gc_mark) (λ _ z', ∃ V', sys_inv V' z' ∧ answers V (Marking _ _ _) 0 V') z.
Proof using.
  intros [(pm & [Hc Hrd Hph Hg Hts Hs Hro Hrf]) Hl (Hw & Hn & Hlen) Hls] Hheld Hlegal. rewrite /phase_ok Hheld in Hph.
  pose proof (legal_callbacks _ _ _ Hs z eq_refl Hlegal) as Hcb. pose proof Hlegal as (_ & _ & _ & Hq).
  pose proof Hc as ((bl & Hinv) & _). apply wp_on_cycle.
  eapply wp_mono; [apply wp_respects; [apply gc_mark_frame|apply (gc_mark_spec (cycle_view z) pm); try done]|].
  - apply Forall_forall. intros wk Hwk. rewrite !Forall_forall in Hw, Hq. destruct (Hw wk Hwk) as (? & ? & ?).
    split_and!; try done. by apply Hq.
  - simpl. rewrite Hro. intros r Hr. destruct (finished_visible _ _ _ Hs r) as [_ ?]; [by apply Hrf|done].
  - intros [] y' [D [Hth Hyr]]. pose proof D as [Dc Drd [Dl Dw] Dsl _ Dr Dd Dno Dun Dh]. simpl in *.
    pose proof (shows_darkened _ _ _ _ Hs Dd Dno) as Hs'.
    assert (∀ u, finished_unit V u → reach V u → is_Some (v_units V !! u) ∧ life_of (Wy y') u = Some FULL_MARKED) as Hreach.
    { intros u (s & a & HV) Hu. split; [by eexists|]. destruct (sh_unit _ _ _ Hs _ _ _ HV) as (_ & h & Hh & _).
      destruct (Dh u h Hh) as [Hb _]. rewrite /life_of Hb //. rewrite Hro. by eapply reach_reachable; [..|intros ? [? _]%Hrf|]. }
    exists (marked_view (Wy y') V). split.
    + split; simpl; [|done|split_and!; [exact Dw|by rewrite Dl|by rewrite Dl Dsl]|by rewrite Dsl]. exists pm. split; try done.
      * split_and!; [done|done|]. simpl. intros u [HV Hl']%marked_view_held.
        split; [by apply (black_finished pm _ (Wy y'))|]. rewrite /life_of in Hl'.
        destruct (w_units (Wy y') !! u) as [h|]; [|done]. exists h. injection Hl' as Hl'. split; [done|by left].
      * intros t (tc & Htc & Hat)%Hts. exists tc. by rewrite /= Hth.
      * simpl. by rewrite Hyr.
      * simpl. intros u Hu. destruct (Hrf u Hu) as [Hf _]. split; [done|]. intros K [= <-].
        apply marked_view_held, Hreach; [done|]. exists u. split; [by left|apply rtc_refl].
    + eexists. split; [done|]. intros u Hf Hu. by apply marked_view_held, Hreach.
Qed.

Lemma serve_sweeping V z : sys_inv V z → is_Some (v_held V) → v_units V ≠ ∅ ∨ v_swept V = false →
  wp (on_cycle gc_sweep) (λ _ z', ∃ V', sys_inv V' z' ∧ answers V Sweeping 0 V') z.
Proof using.
  intros [(pm & [Hc Hrd Hph Hg Hts Hs Hro Hrf]) Hl (Hw & Hn & Hlen) Hls] [K HK] Hne.
  assert (lists_fresh (Wz z) (z_sweep z)) as Hf by (by apply (view_fresh pm V)). rewrite /phase_ok HK in Hph.
  destruct Hph as (Hno & Hun & Hsp). apply wp_on_cycle.
  eapply wp_mono; [apply wp_respects; [apply gc_sweep_frame|apply (gc_sweep_spec (cycle_view z) pm); try done]|].
  { simpl. lia. }
  intros [] y' [(pm' & l & x' & -> & D) [Hth Hyr]]. simpl in Hth, Hyr. set (x := y_gc (cycle_view z)) in D.
  exists (swept_view (s_round (g_sw x)) (W (g_sw x)) V).
  assert (∀ u s o, v_units V !! u = Some (s, o) → o = None ∨ u ∈ K →
    v_units (swept_view (s_round (g_sw x)) (W (g_sw x)) V) !! u = Some (s, o)) as Hkeep.
  { intros u s o HV Hk. destruct (sh_unit _ _ _ Hs _ _ _ HV) as (_ & h & Hh & _).
    apply (swept_keeps pm V x Hs u s o h HV Hh). destruct Hk as [?|Hk]; [by left|right].
    destruct (Hsp u Hk) as (_ & h' & Hh' & ?). rewrite Hh in Hh'. by injection Hh' as <-. }
  split; [|split_and!; [done|done|done|apply map_filter_subseteq|]].
  - pose proof D as [Dc Drd _ _ _ Dsl _ _]. split; simpl; [|done|split_and!; [done|done|by rewrite Dsl]|done]. exists pm'. split; try done.
    + apply (phase_done_resting pm l x x' pm' Hc D); [|done]. intros u sz h _ Hh El. apply (Hno u). by rewrite /life_of Hh /= El.
    + intros t (tc & Htc & Hat)%Hts. exists tc. by rewrite /= Hth.
    + by apply (shows_swept pm pm' V l x x').
    + intros u Hu. split; [|done]. destruct (Hrf u Hu) as [(s & a & HV) HuK]. exists s, a. apply Hkeep; [done|]. right. by apply HuK.
  - intros u s o HV Hk. apply Hkeep; [done|]. destruct Hk as [?|(K' & HK' & Hu)]; [by left|right]. congruence.
Qed.

Lemma serve_spec V z q : sys_inv V z → legal V z q → wp (serve q) (λ a z', ∃ V', sys_inv V' z' ∧ answers V q a V') z.
Proof using Hkernel.
  intros Hz Hq. pose proof Hz as [(pm & Hr) _ _ Hls].
  destruct q as [t|t|t size|p attrib|p attrib|p|t p size|p|pl um ug|]; simpl in Hq |- *.
  - wp_steps. eapply wp_mono; [by apply serve_start_thread|]. intros [] z' Hz'. wp_steps. by exists V.
  - wp_steps. eapply wp_mono; [by apply serve_end_thread|]. intros [] z' Hz'. wp_steps. by exists V.
  - destruct Hq as [Ht Hs]. apply wp_on_rt. eapply wp_mono; [by apply (serve_begin Hkernel pm V _ _ t size Hr)|].
    intros a r' (pm' & V' & Hr' & Ha). exists V'. split; [|done]. by apply (sys_inv_rt V pm'); [|eapply handed_swept|].
  - destruct Hq as [s Hs]. wp_steps. apply wp_on_rt. replace p with (p - SIZEOF_UnitHead + SIZEOF_UnitHead) at 1 by lia.
    eapply wp_mono; [by apply (serve_end pm V _ _ _ s attrib Hr)|]. intros [] r' Hr'. wp_steps.
    eexists. split; [by refine (sys_inv_rt V pm _ _ _ Hz _ Hr')|]. by exists s.
  - destruct Hq as [s Hs]. wp_steps. apply wp_on_rt. replace p with (p - SIZEOF_UnitHead + SIZEOF_UnitHead) at 1 by lia.
    eapply wp_mono; [by apply (serve_end_as_root pm V _ _ _ s attrib Hr)|]. intros [] r' Hr'. wp_steps.
    eexists. split; [by refine (sys_inv_rt V pm _ _ _ Hz _ Hr')|]. by exists s.
  - wp_steps. apply wp_on_rt. rewrite /woomem_remove_from_root_set /unregister_root_unit_head. wp_steps.
    eexists. split; [|done]. apply (sys_inv_rt V pm); [done|done|]. destruct Hr as [? ? Hph ? ? [Hu Hv] Hro Hrf].
    split; try done; [simpl; by rewrite Hro|]. intros u [Hin _]%elem_of_difference. by apply Hrf.
  - destruct Hq as (Ht & Hfit & s & a & HV). apply wp_on_rt.
    replace p with (p - SIZEOF_UnitHead + SIZEOF_UnitHead) at 1 by lia.
    eapply wp_mono; [by apply (serve_realloc Hkernel pm V _ _ t _ s a size Hr)|].
    intros x r' (pm' & V' & Hr' & Ha). exists V'. split.
    { apply (sys_inv_rt V pm'); [done| |done]. destruct (size <=? s); [by destruct Ha as [_ ->]|by eapply handed_swept]. }
    exists s, a. split; [done|]. by rewrite Z.sub_add in Ha.
  - eapply wp_mono; [by apply serve_validate|]. intros a z' [? ?]. by exists V.
  - destruct Hq. wp_steps. eapply wp_mono; [by apply serve_marking|]. intros [] z' (V' & ? & ?). wp_steps. by exists V'.
  - destruct Hq. wp_steps. eapply wp_mono; [by apply serve_sweeping|]. intros [] z' (V' & ? & ?). wp_steps. by exists V'.
Qed.
End requests.

(** ** The library serves every program *)

Definition empty_view : View := MkView ∅ ∅ None false.

(** For [n] requests, each legal when it is made: no fault, and the answers of the specification. *)
Fixpoint serves `{Build} `{Kernel} `{RawMemory} (n : nat) (V : View) (z : Sys) : Prop :=
  match n with
  | O => True
  | S n' => ∀ q, legal V z q → ∃ a z' V', serve q z = Ok (a, z') ∧ answers V q a V' ∧ serves n' V' z'
  end.

Section system.
Context `{Build} `{Kernel} `{RawMemory}.

Lemma inv_serves (Hkernel : commits_granted) n : ∀ V z, sys_inv V z → serves n V z.
Proof using.
  induction n as [|n IH]; intros V z Hz; [done|]. intros q Hq.
  destruct (wp_run _ _ _ (serve_spec Hkernel V z q Hz Hq)) as (a & z' & Hrun & V' & Hz' & Ha).
  exists a, z', V'. split_and!; [done|done|by apply IH].
Qed.

Lemma start_spec z size hw : down (z_life z) → l_alive (z_life z) = true → can_reserve size → 0 ≤ hw →
  wp (start hw size) (λ b z', b = true ∧ sys_inv empty_view z') z.
Proof using.
  intros Hd Ha Hs Hhw. rewrite /start. wp_steps. apply wp_on_life.
  eapply wp_mono; [by apply woomem_init_spec|].
  intros b l (-> & Hc & Hrd & Hi & Hg & Hro & He & Hts & _ & Hal & Hn & Hu). wp_steps. simpl in *. split; [done|].
  assert (∀ u, life_of (c_world (Cl l)) u = None) as Hno by (intros u; by rewrite /life_of Hu).
  split; simpl.
  - exists ∅. split; try done.
    + intros u. rewrite /marked_unit Hno. by intros [?|?].
    + by rewrite He.
    + split; [done|]. intros u. rewrite visible_life Hno. by intros (? & ? & _).
  - by rewrite Hal.
  - rewrite !length_replicate. split_and!; [|lia|done]. apply Forall_replicate. split_and!; [done|done|].
    apply Mpsc.holds_ctor, cap_ok.
  - intros _ wk [-> _]%elem_of_replicate. done.
Qed.

(** C1: the library serves every program, on a kernel that grants the commits.  After a first initialisation that
    can reserve its memory, whatever number of requests the program makes (threads that start and end, allocations, reallocations,
    validations, roots) and whenever collections mark and later sweep between them, each legal when it is made
    (sizes that do not wrap, callbacks that name finished units, no counter of a gray queue at its end, and at a sweep that is
    not the first one at least one unit, as the source needs a page to sweep): every request ends without a fault or a failed assertion and is answered as the specification on the
    program's view demands.  New units are disjoint from those the program has; a collection loses no unit that the program
    could reach when it marked, none whose allocation is not finished, and none whose allocation was finished
    between its marking and its sweep. *)
Theorem library_serves z size hw (Hkernel : commits_granted) (Hdown : down (z_life z))
    (Halive : l_alive (z_life z) = true) (Hsize : can_reserve size) (Hhw : 0 ≤ hw) :
  wp (start hw size) (λ b z', b = true ∧ ∀ n, serves n empty_view z') z.
Proof using.
  eapply wp_mono; [by apply start_spec|]. intros b z' [-> Hz]. split; [done|]. intros n. by apply inv_serves.
Qed.

End system.

(** ** Witnesses *)

Section witnesses.
Import ChunkSpec.Demo.

#[local] Instance raw : RawMemory := {| raw_unit := λ _, MkUnitHead 7 7 7 7 FULL_MARKED |}.

Lemma library_serves_witness :
  wp (start 8 100000) (λ b z', b = true ∧ ∀ n, serves n empty_view z') (set_slife joined process_state).
Proof.
  exact (library_serves (set_slife joined process_state) 100000 8 (λ a, eq_refl) down_joined eq_refl can_reserve_demo
    ltac:(lia)).
Defined.

(** A program: two units, the first a root whose payload points to the second, and a third that is allocated between marking and
    sweeping; after the collection all are there. *)
Definition demo_payload (p : Z) : Payload := {| word := λ a, p |}.
Definition demo_mark : UserMark := {| user_mark := λ _, [] |}.
Definition demo_gc : UserGc := {| at_begin := []; at_stop := [] |}.

Definition demo_session : ZM (list Z) :=
  start 8 100000 ;;
  p ← serve (AllocBegin 1 24);
  serve (AllocEndRoot p WOOMEM_ATTRIB_AUTO_MARK) ;;
  q ← serve (AllocBegin 1 24);
  serve (AllocEnd q WOOMEM_ATTRIB_NEED_SWEEP) ;;
  serve (Marking (demo_payload (q + 5)) demo_mark demo_gc) ;;
  n ← serve (AllocBegin 1 24);
  serve (AllocEnd n WOOMEM_ATTRIB_NEED_SWEEP) ;;
  serve Sweeping ;;
  p' ← serve (Validate (p + 3));
  q' ← serve (Validate (q + 23));
  n' ← serve (Validate n);
  mret [p; q; n; p'; q'; n'].

Example demo_session_runs : ∃ p q n z, demo_session (set_slife joined process_state) = Ok ([p; q; n; p; q; n], z).
Proof. eexists _, _, _, _. vm_compute. reflexivity. Qed.
End witnesses.
