(* ===== verification/Trigger.v ===== *)
(** * Triggers and registration: [src/src/woomem_gc.cpp] (lines 51-69, 184-204, 234-268, 346-347,
      600-604)

    Two protocols between threads, as step relations: how [GC::trigger_gc] wakes the main thread
    and waits for the end of a collection, and how the constructor of [GC] assigns marking contexts while its
    workers register themselves. *)

From S2P Require Import Prelude.
Open Scope Z_scope.

(** ** Triggers *)

Module Trigger.

(** The main thread; [MTest] and [MBlock] hold [m_trigger_mx]. *)
Inductive mpc :=
| MWait      (* enters [wait_for], or has been notified in it *)
| MTest
| MBlock
| MSleep
| MRelock    (* the 0.1 seconds are over *)
| MCheck     (* after [wait_for] *)
| MReset
| MCollect
| MCount
| MNotify
| MExit.

(** A caller of [trigger_gc]; the argument is [prev_count] of a synchronous call. *)
Inductive cpc :=
| CIdle
| CStore (prev : option Z)
| CNotify (prev : option Z)
| CLock (prev : Z)
| CTest (prev : Z)
| CBlock (prev : Z)
| CSleep (prev : Z).

Record st := St {
  tmx : bool;         (* [m_trigger_mx] is locked *)
  force : bool;       (* [m_force_trigger_gc] *)
  cycles : Z;         (* [m_gc_cycle_count] *)
  stop : bool;        (* [m_shutdown] *)
  main : mpc;
  clients : list cpc;
}.

Definition wake (c : cpc) : cpc := match c with CSleep p => CLock p | _ => c end.
Definition asleep (c : cpc) : bool := match c with CSleep _ => true | _ => false end.

(** The predicate of the wait in [trigger_gc]. *)
Definition done (s : st) (prev : Z) : bool := (prev <? cycles s) || stop s.

(** After the notification, a synchronous call waits. *)
Definition after_notify (prev : option Z) : cpc :=
  match prev with Some p => CLock p | None => CIdle end.

Inductive step : st → st → Prop :=
(* the wait of the main loop *)
| main_lock f n b cs : step (St false f n b MWait cs) (St true f n b MTest cs)
| main_wait_true x f n b cs : f || b = true → step (St x f n b MTest cs) (St false f n b MCheck cs)
| main_wait_false x n cs : step (St x false n false MTest cs) (St x false n false MBlock cs)
| main_sleep x f n b cs : step (St x f n b MBlock cs) (St false f n b MSleep cs)
| main_timeout x f n b cs : step (St x f n b MSleep cs) (St x f n b MRelock cs)
| main_relock f n b cs : step (St false f n b MRelock cs) (St false f n b MCheck cs)
| main_exit x f n cs : step (St x f n true MCheck cs) (St x f n true MExit cs)
| main_again x n cs : step (St x false n false MCheck cs) (St x false n false MWait cs)
(* forced, after ten seconds, or because of the allocated size *)
| main_go x f n cs : step (St x f n false MCheck cs) (St x f n false MReset cs)
(* a collection *)
| main_reset x f n b cs : step (St x f n b MReset cs) (St x false n b MCollect cs)
| main_collect x f n b cs : step (St x f n b MCollect cs) (St x f n b MCount cs)
| main_count x f n b cs : step (St x f n b MCount cs) (St x f (u64 (n + 1)) b MNotify cs)
| main_notify x f n b cs : step (St x f n b MNotify cs) (St x f n b MWait (wake <$> cs))
(* trigger_gc *)
| call_async x f n b m cs i : cs !! i = Some CIdle →
    step (St x f n b m cs) (St x f n b m (<[i := CStore None]> cs))
| call_sync x f n b m cs i : cs !! i = Some CIdle →
    step (St x f n b m cs) (St x f n b m (<[i := CStore (Some n)]> cs))
| call_store x f n b m cs i p : cs !! i = Some (CStore p) →
    step (St x f n b m cs) (St x true n b m (<[i := CNotify p]> cs))
| notify_none x f n b m cs i p : cs !! i = Some (CNotify p) → m ≠ MSleep → count_if asleep cs = 0 →
    step (St x f n b m cs) (St x f n b m (<[i := after_notify p]> cs))
| notify_main x f n b cs i p : cs !! i = Some (CNotify p) →
    step (St x f n b MSleep cs) (St x f n b MWait (<[i := after_notify p]> cs))
| notify_client x f n b m cs i p j q : cs !! i = Some (CNotify p) → cs !! j = Some (CSleep q) →
    step (St x f n b m cs) (St x f n b m (<[i := after_notify p]> (<[j := CLock q]> cs)))
| call_lock f n b m cs i p : cs !! i = Some (CLock p) →
    step (St false f n b m cs) (St true f n b m (<[i := CTest p]> cs))
| call_return x f n b m cs i p : cs !! i = Some (CTest p) → done (St x f n b m cs) p = true →
    step (St x f n b m cs) (St false f n b m (<[i := CIdle]> cs))
| call_wait x f n b m cs i p : cs !! i = Some (CTest p) → done (St x f n b m cs) p = false →
    step (St x f n b m cs) (St x f n b m (<[i := CBlock p]> cs))
| call_sleep x f n b m cs i p : cs !! i = Some (CBlock p) →
    step (St x f n b m cs) (St false f n b m (<[i := CSleep p]> cs))
(* the destructor *)
| gc_shutdown x f n m cs : step (St x f n false m cs) (St x f n true m cs).

Definition init (n : nat) : st := St false false 0 false MWait (replicate n CIdle).
Definition reachable (n : nat) : st → Prop := rtc step (init n).

(** ** Requests *)

(** A collection is requested, runs, or has been counted since [prev] was read. *)
Definition served (f : bool) (m : mpc) (n prev : Z) : Prop := f = true ∨ m = MCollect ∨ m = MCount ∨ prev < n.

Definition client_ok (f : bool) (m : mpc) (n : Z) (c : cpc) : Prop :=
  match c with
  | CStore (Some p) => p ≤ n
  | CNotify (Some p) | CLock p | CTest p | CBlock p | CSleep p => p ≤ n ∧ served f m n p
  | CIdle | CStore None | CNotify None => True
  end.

Definition inv (k : nat) (s : st) : Prop :=
  0 ≤ cycles s ≤ k ∧ ∀ i c, clients s !! i = Some c → client_ok (force s) (main s) (cycles s) c.

(** A change of the main thread that loses no request. *)
Lemma client_ok_mono f f' m m' n n' c : n ≤ n' → (∀ p, p ≤ n → served f m n p → served f' m' n' p) →
  client_ok f m n c → client_ok f' m' n' c.
Proof.
  intros Hn Hs. destruct c as [|[p|]|[p|]|p|p|p|p]; simpl; try tauto; [lia|..]; intros [Hp Hv];
    (split; [lia|by apply Hs]).
Qed.

Lemma inv_clients (k k' : nat) f f' m m' n n' x x' b b' cs cs' :
  inv k (St x f n b m cs) → n ≤ n' ≤ k' → (∀ p, p ≤ n → served f m n p → served f' m' n' p) →
  (∀ i c, cs' !! i = Some c → client_ok f' m' n' c ∨ ∃ j c0, cs !! j = Some c0 ∧ (c = c0 ∨ c = wake c0)) →
  inv k' (St x' f' n' b' m' cs').
Proof.
  intros [Hk Hc] Hn Hs Hcs. split; simpl in *; [lia|]. intros i c Hi.
  destruct (Hcs i c Hi) as [?|(j & c0 & Hj & Heq)]; [done|].
  assert (client_ok f' m' n' c0) as H0 by (eapply client_ok_mono; [|exact Hs|by eapply Hc]; lia).
  destruct Heq as [->| ->]; [done|]. by destruct c0 as [|[]|[]| | | |].
Qed.

(** A step of one client. *)
Lemma inv_client (k : nat) f f' m n x x' b b' cs i c c' :
  inv k (St x f n b m cs) → cs !! i = Some c → (f = true → f' = true) →
  (client_ok f m n c → client_ok f' m n c') → inv (S k) (St x' f' n b' m (<[i := c']> cs)).
Proof.
  intros Hinv Hi Hf Hc. eapply inv_clients; [exact Hinv|destruct Hinv; simpl in *; lia| |].
  - intros p _. rewrite /served. tauto.
  - intros j d [(_ & <- & _)|[_ Hj]]%list_lookup_insert_Some; [|right; exists j, d; auto].
    left. by apply Hc, (proj2 Hinv i).
Qed.

Lemma trigger_inv_main (k : nat) f f' m m' n n' x x' b b' cs :
  inv k (St x f n b m cs) → n ≤ n' ≤ S k → (∀ p, p ≤ n → served f m n p → served f' m' n' p) →
  inv (S k) (St x' f' n' b' m' cs).
Proof. intros Hinv Hn Hs. eapply inv_clients; [exact Hinv|done|done|]. intros i c Hi. right. exists i, c. auto. Qed.

Lemma trigger_inv_step (k : nat) s s' : (S k < 2 ^ 64)%Z → inv k s → step s s' → inv (S k) s'.
Proof.
  intros Hk Hinv Hs. pose proof (proj1 Hinv) as Hn.
  destruct Hs; simpl in Hn;
    try (eapply trigger_inv_main; [exact Hinv|lia|]; intros ? ?; rewrite /served; naive_solver);
    try (eapply inv_client; [exact Hinv|eassumption|done|]; by destruct p).
  - eapply trigger_inv_main; [exact Hinv|rewrite u64_small; lia|]. intros p Hp _. right. right. right.
    rewrite u64_small; lia.
  - eapply inv_clients; [exact Hinv|lia| |].
    + intros p _. rewrite /served. naive_solver.
    + intros i c. rewrite list_lookup_fmap. intros (c0 & Hi & ->)%fmap_Some. eauto 6.
  - eapply inv_client; [exact Hinv|eassumption|done|done].
  - eapply inv_client; [exact Hinv|eassumption|done|]. simpl. lia.
  - eapply inv_client; [exact Hinv|eassumption|done|]. destruct p; [|done]. simpl. rewrite /served. auto.
  - assert (inv k (St x f n b MWait cs)) as Hinv'.
    { destruct Hinv as [? Hc]. split; [done|]. simpl in *. intros j c Hj. eapply client_ok_mono; [| |by eapply Hc]; [done|].
      rewrite /served. naive_solver. }
    eapply inv_client; [exact Hinv'|eassumption|done|]. by destruct p.
  - assert (inv k (St x f n b m (<[j := CLock q]> cs))) as Hinv'.
    { destruct Hinv as [? Hc]. split; [done|]. simpl in *. intros l c.
      intros [(_ & <- & _)|[_ Hl]]%list_lookup_insert_Some; [by apply (Hc j (CSleep q))|by eapply Hc]. }
    apply (inv_client k f f m n x x b b (<[j := CLock q]> cs) i (CNotify p)); [exact Hinv'| |done|by destruct p].
    rewrite list_lookup_insert_ne; [eassumption|]. intros <-. congruence.
Qed.

Lemma inv_nsteps n (k : nat) s : k < 2 ^ 64 → nsteps step k (init n) s → inv k s.
Proof.
  revert s. induction k as [|k IH]; intros s Hk Hs.
  - inversion Hs; subst. split; [done|]. simpl. intros i c [-> _]%lookup_replicate_1. done.
  - apply nsteps_inv_r in Hs as (s1 & Hs1 & Hstep). eapply trigger_inv_step; [lia| |exact Hstep]. apply IH; [lia|done].
Qed.

Definition waits (c : cpc) (prev : Z) : Prop :=
  c = CNotify (Some prev) ∨ c = CLock prev ∨ c = CTest prev ∨ c = CBlock prev ∨ c = CSleep prev.

(** No request is lost.  In every run of fewer than 2^64 steps, while a
    synchronous [trigger_gc] waits, a collection is requested, is running, or has been counted since the call
    read the count, and the count has never gone below what it read. *)
Theorem trigger_request_kept n (k : nat) s i c prev (Hk : k < 2 ^ 64) (Hs : nsteps step k (init n) s)
    (Hi : clients s !! i = Some c) (Hc : waits c prev) :
  prev ≤ cycles s ∧ (force s = true ∨ main s = MCollect ∨ main s = MCount ∨ prev < cycles s).
Proof.
  pose proof (proj2 (inv_nsteps n k s Hk Hs) i c Hi) as Hok.
  destruct Hc as [->|[->|[->|[->| ->]]]]; exact Hok.
Qed.

(** ** Lost wake-ups *)

(** A synchronous call up to its sleep. *)
Lemma run_call f n b m : m ≠ MSleep → b = false →
  rtc step (St false f n b m [CIdle]) (St true true n b m [CBlock n]).
Proof.
  intros Hm ->.
  eapply rtc_l; [by apply (call_sync _ _ _ _ _ _ 0)|]. eapply rtc_l; [by apply (call_store _ _ _ _ _ _ 0 (Some n))|].
  eapply rtc_l; [by apply (notify_none _ _ _ _ _ _ 0 (Some n))|]. eapply rtc_l; [by apply (call_lock _ _ _ _ _ 0 n)|].
  eapply rtc_l; [apply (call_wait _ _ _ _ _ _ 0 n); [done|]|apply rtc_refl].
  rewrite /done /=. bool_test (n <? n). done.
Qed.

(** A synchronous call can sleep for ever.  The destructor sets [m_shutdown] but
    notifies nobody: a state can be reached in which the condition the caller waits for is true, the main thread has returned,
    and no thread can take a step. *)
Theorem trigger_stuck_at_shutdown : ∃ s, reachable 1 s ∧ clients s = [CSleep 0] ∧
  done s 0 = true ∧ main s = MExit ∧ ∀ s', ¬ step s s'.
Proof.
  exists (St false true 0 true MExit [CSleep 0]). split_and!; try done.
  - rewrite /reachable. etrans; [by apply run_call|]. eapply rtc_l; [by apply (call_sleep _ _ _ _ _ _ 0 0)|].
    eapply rtc_l; [apply gc_shutdown|]. eapply rtc_l; [apply main_lock|].
    eapply rtc_l; [by apply main_wait_true|]. eapply rtc_l; [apply main_exit|apply rtc_refl].
  - intros s' Hs. inversion Hs; subst; try done;
      match goal with H : [CSleep 0] !! ?i = Some _ |- _ => by destruct i as [|[]] end.
Qed.

(** The end of a collection can go unnoticed.  The count is raised and the waiters are
    notified without [m_trigger_mx], so a caller that has just found the condition false sleeps after the
    notification, although the collection it waits for is over. *)
Theorem trigger_misses_cycle : ∃ s, reachable 1 s ∧ clients s = [CSleep 0] ∧ done s 0 = true ∧
  cycles s = 1 ∧ stop s = false ∧ main s = MWait.
Proof.
  exists (St false false 1 false MWait [CSleep 0]). split_and!; try done.
  eapply rtc_l; [apply main_lock|]. eapply rtc_l; [apply main_wait_false|]. eapply rtc_l; [apply main_sleep|].
  eapply rtc_l; [apply main_timeout|]. eapply rtc_l; [apply main_relock|].
  etrans; [by apply run_call|].
  eapply rtc_l; [apply main_go|]. eapply rtc_l; [apply main_reset|]. eapply rtc_l; [apply main_collect|].
  eapply rtc_l; [apply main_count|]. eapply rtc_l; [apply main_notify|].
  eapply rtc_l; [by apply (call_sleep _ _ _ _ _ _ 0 0)|]. apply rtc_refl.
Qed.

Lemma trigger_request_kept_witness : ∃ s, nsteps step 2 (init 1) s ∧
  clients s !! 0%nat = Some (CNotify (Some 0)) ∧ 0 ≤ cycles s.
Proof.
  assert (nsteps step 2 (init 1) (St false true 0 false MWait [CNotify (Some 0)])) as Hr.
  { eapply nsteps_l; [by apply (call_sync _ _ _ _ _ _ 0)|].
    eapply nsteps_l; [by apply (call_store _ _ _ _ _ _ 0 (Some 0))|apply nsteps_O]. }
  eexists. split; [exact Hr|]. split; [reflexivity|].
  exact (proj1 (trigger_request_kept 1 2 _ 0 _ 0 ltac:(lia) Hr eq_refl (or_introl eq_refl))).
Defined.
End Trigger.

(** ** Registration of the workers *)

(** The constructor of [GC] starts a worker and then goes through the registered threads; the
    worker registers its thread context and afterwards says that it is a worker. *)
Module Register.

Inductive mpc := LStart | LFetch | LWrite (k : Z) | LEnd.
Inductive wpc := WNew | WReg | WFlag | WSelf | WRun.

Record st := St {
  registered : bool;    (* in [m_thread_entries] *)
  is_worker : bool;     (* [m_is_gc_worker_context] *)
  context : Z;          (* [m_gc_marking_context] *)
  assigned : Z;         (* [m_gc_assigned_thread_idx] *)
  main : mpc;
  worker : wpc;
}.

(** The loop of the constructor holds [m_thread_entries_mx]. *)
Definition in_loop (m : mpc) : bool := match m with LFetch | LWrite _ => true | _ => false end.

(** Worker [self] of [n]. *)
Inductive step (n self : Z) : st → st → Prop :=
| thread_ctor r f c a m : step n self (St r f c a m WNew) (St r false (a mod n) (u64 (a + 1)) m WReg)
| thread_register r f c a m : in_loop m = false → step n self (St r f c a m WReg) (St true f c a m WFlag)
| worker_flag r f c a m : step n self (St r f c a m WFlag) (St r true c a m WSelf)
| worker_self r f c a m : step n self (St r f c a m WSelf) (St r f self a m WRun)
| gc_skip r f c a w : r = false ∨ f = true → step n self (St r f c a LStart w) (St r f c a LEnd w)
| gc_visit c a w : step n self (St true false c a LStart w) (St true false c a LFetch w)
| gc_fetch r f c a w : step n self (St r f c a LFetch w) (St r f c (u64 (a + 1)) (LWrite (a mod n)) w)
| gc_write r f c a k w : step n self (St r f c a (LWrite k) w) (St r f k a LEnd w).

Definition init : st := St false false 0 0 LStart WNew.

(** A worker can end up marking through another worker.  With two workers there is a run in which the
    constructor finds the worker's context registered and not yet flagged, and assigns it
    after the worker has set its own. *)
Theorem worker_context_overwritten : ∃ s, rtc (step 2 0) init s ∧ worker s = WRun ∧ main s = LEnd ∧
  is_worker s = true ∧ context s = 1.
Proof.
  exists (St true true 1 2 LEnd WRun). split_and!; try done.
  eapply rtc_l; [apply thread_ctor|]. eapply rtc_l; [by apply thread_register|]. eapply rtc_l; [apply gc_visit|].
  eapply rtc_l; [apply gc_fetch|]. eapply rtc_l; [apply worker_flag|]. eapply rtc_l; [apply worker_self|].
  eapply rtc_l; [apply gc_write|]. apply rtc_refl.
Qed.
End Register.
