(* ===== verification/Chain.v ===== *)
(** * The chain of all pages under interference: [src/src/woomem_global_context.cpp]
      (lines 71-91) and [src/src/woomem_gc.cpp] (lines 296-328, 628-633)

    Threads and workers push pages with a compare-exchange loop while the collector takes the whole chain with one
    exchange, cuts it into lists and walks them.  A step is one access to the atomic or to a link; the relaxed
    load may return any value and the weak compare-exchange may fail without reason.  The state keeps what the
    exchange returned, so that a page can be followed from the chunk through the chain and the lists of the
    workers, and back into the chain or to the chunk. *)

From S2P Require Import Prelude.
Open Scope Z_scope.

Module Chain.

Inductive pc :=
| Idle
| Load (page : Z)    (* at the load of [m_all_page_list] *)
| Cas (page : Z).    (* at the compare-exchange *)

Record st := St {
  all_page_list : Z;
  next_page : gmap Z Z;      (* [m_next_page] of each page *)
  pcs : list pc;             (* the threads that push *)
  lists : list Z;            (* the collector's pointers: what the exchange returned and where workers stand *)
  held : list Z;             (* pages that workers have taken off their lists *)
  pages : gset Z;            (* the pages that have been added and not been given back to the chunk *)
}.

(** The chain from [head] is the list. *)
Fixpoint links (next : gmap Z Z) (head : Z) (l : list Z) : Prop :=
  match l with
  | [] => head = 0
  | p :: l' => head = p ∧ p ≠ 0 ∧ ∃ q, next !! p = Some q ∧ links next q l'
  end.

Definition pushing (c : pc) : option Z := match c with Load p | Cas p => Some p | Idle => None end.
Definition pushed (ts : list pc) : list Z := omap pushing ts.

Inductive step : st → st → Prop :=
(* a page that comes from the chunk, and one that a worker has swept *)
| push_new h nx ts ps hd P i p : ts !! i = Some Idle → p ≠ 0 → p ∉ P →
    step (St h nx ts ps hd P) (St h nx (<[i := Load p]> ts) ps hd ({[p]} ∪ P))
| push_back h nx ts ps hd hd' P i p : ts !! i = Some Idle →
    step (St h nx ts ps (hd ++ p :: hd') P) (St h nx (<[i := Load p]> ts) ps (hd ++ hd') P)
| push_load h nx ts ps hd P i p v : ts !! i = Some (Load p) →
    step (St h nx ts ps hd P) (St h (<[p := v]> nx) (<[i := Cas p]> ts) ps hd P)
| push_cas_ok h nx ts ps hd P i p : ts !! i = Some (Cas p) → nx !! p = Some h →
    step (St h nx ts ps hd P) (St p nx (<[i := Idle]> ts) ps hd P)
| push_cas_fail h nx ts ps hd P i p : ts !! i = Some (Cas p) →
    step (St h nx ts ps hd P) (St h (<[p := h]> nx) ts ps hd P)
(* the exchange *)
| take_all h nx ts ps hd P : step (St h nx ts ps hd P) (St 0 nx ts (h :: ps) hd P)
(* the lists are cut for the workers *)
| cut h nx ts ps ps' x hd P l p l' q : links nx x (l ++ p :: l') → nx !! p = Some q →
    step (St h nx ts (ps ++ x :: ps') hd P) (St h (<[p := 0]> nx) ts (ps ++ x :: q :: ps') hd P)
(* a worker goes on to the next page *)
| walk h nx ts ps ps' p q hd P : p ≠ 0 → nx !! p = Some q →
    step (St h nx ts (ps ++ p :: ps') hd P) (St h nx ts (ps ++ q :: ps') (p :: hd) P)
(* and gives back to the chunk a page in which nothing is left *)
| give_back h nx ts ps hd hd' P p :
    step (St h nx ts ps (hd ++ p :: hd') P) (St h nx ts ps (hd ++ hd') (P ∖ {[p]})).

Definition init (n : nat) : st := St 0 ∅ (replicate n Idle) [] [] ∅.
Definition reachable (n : nat) : st → Prop := rtc step (init n).

(** ** Links *)

Lemma links_unique nx h l l' : links nx h l → links nx h l' → l = l'.
Proof.
  revert h l'. induction l as [|p l IH]; intros h [|p' l']; simpl.
  - done.
  - intros -> (<- & ? & _). done.
  - intros (-> & ? & _) ?. done.
  - intros (-> & _ & q & Hq & Hl) (<- & _ & q' & Hq' & Hl'). f_equal. apply (IH q); [done|]. congruence.
Qed.

Lemma links_write nx h l p v : links nx h l → p ∉ l → links (<[p := v]> nx) h l.
Proof.
  revert h. induction l as [|x l IH]; intros h; simpl; [done|].
  intros (-> & Hx & q & Hq & Hl) [Hne Hn]%not_elem_of_cons. split_and!; [done|done|].
  exists q. rewrite lookup_insert_ne; [|done]. auto.
Qed.

Lemma lists_write nx ps ls p v :
  Forall2 (links nx) ps ls → p ∉ concat ls → Forall2 (links (<[p := v]> nx)) ps ls.
Proof.
  induction 1 as [|h l ps ls Hl _ IH]; [constructor|]. simpl. intros [Hn1 Hn2]%not_elem_of_app.
  constructor; [by apply links_write|auto].
Qed.

(** A list that is cut behind a page. *)
Lemma links_cut nx h l p l' q : NoDup (l ++ p :: l') → links nx h (l ++ p :: l') → nx !! p = Some q →
  links (<[p := 0]> nx) h (l ++ [p]) ∧ links (<[p := 0]> nx) q l'.
Proof.
  revert h. induction l as [|x l IH]; intros h; simpl.
  - intros [Hn _]%NoDup_cons (-> & Hp & q' & Hq' & Hl) Hq. simplify_eq. split; [|by apply links_write].
    split_and!; [done|done|]. exists 0. by rewrite lookup_insert_eq.
  - intros [Hn Hnd]%NoDup_cons (-> & Hx & q' & Hq' & Hl) Hq. destruct (IH q' Hnd Hl Hq) as [H1 H2].
    split; [|done]. split_and!; [done|done|]. exists q'. rewrite lookup_insert_ne; [done|].
    intros ->. apply Hn, elem_of_app. right. constructor.
Qed.

(** The pages that threads push, when one of them goes on. *)
Lemma pushed_insert ts i c c' : ts !! i = Some c → ∃ r,
  pushed ts ≡ₚ option_list (pushing c) ++ r ∧ pushed (<[i := c']> ts) ≡ₚ option_list (pushing c') ++ r.
Proof.
  intros Hi. exists (pushed (take i ts) ++ pushed (drop (S i) ts)).
  pose proof (lookup_lt_Some _ _ _ Hi) as Hlt. rewrite insert_take_drop // -{1}(take_drop_middle ts i c Hi).
  rewrite /pushed !omap_app. split; simpl; [destruct (pushing c)|destruct (pushing c')]; simpl; solve_Permutation.
Qed.

(** ** The invariant *)

Record inv (s : st) (l : list Z) (ls : list (list Z)) : Prop := {
  ch_links : links (next_page s) (all_page_list s) l;
  ch_lists : Forall2 (links (next_page s)) (lists s) ls;
  ch_pages : elements (pages s) ≡ₚ l ++ concat ls ++ held s ++ pushed (pcs s);
  ch_zero : 0 ∉ pages s;
}.

Lemma ch_nodup s l ls : inv s l ls → NoDup (l ++ concat ls ++ held s ++ pushed (pcs s)).
Proof. intros [_ _ Hp _]. rewrite -Hp. apply NoDup_elements. Qed.

(** A page that is in the hands of a worker or of a thread is in no list. *)
Lemma ch_apart s l ls p : inv s l ls → p ∈ held s ++ pushed (pcs s) → (p ∉ l) ∧ (p ∉ concat ls) ∧ p ≠ 0.
Proof.
  intros Hinv Hp. pose proof (ch_nodup _ _ _ Hinv) as Hnd. rewrite app_assoc in Hnd.
  apply NoDup_app in Hnd as (_ & Hdis & _). split_and!.
  - intros Hl. apply (Hdis p); [by apply elem_of_app; left|done].
  - intros Hl. apply (Hdis p); [by apply elem_of_app; right|done].
  - intros ->. apply (ch_zero _ _ _ Hinv), elem_of_elements. rewrite (ch_pages _ _ _ Hinv) app_assoc.
    apply elem_of_app. by right.
Qed.

Lemma pushed_elem ts i c p : ts !! i = Some c → pushing c = Some p → p ∈ pushed ts.
Proof. intros Hi Hp. apply list_elem_of_omap. exists c. split; [by eapply list_elem_of_lookup_2|done]. Qed.

(** The link of a page that a thread pushes is written. *)
Lemma inv_push_write h nx ts ps hd P l ls i c c' p v :
  inv (St h nx ts ps hd P) l ls → ts !! i = Some c → pushing c = Some p → pushing c' = Some p →
  inv (St h (<[p := v]> nx) (<[i := c']> ts) ps hd P) l ls.
Proof.
  intros Hinv Hi Hc Hc'. destruct (ch_apart _ _ _ p Hinv) as (Hn1 & Hn2 & _).
  { apply elem_of_app. right. by eapply pushed_elem. }
  destruct (pushed_insert ts i c c' Hi) as (r & Hr & Hr'). destruct Hinv as [H1 H2 Hp H0]. simpl in *.
  split; simpl; [by apply links_write|by apply lists_write| |done]. by rewrite Hp Hr Hr' Hc Hc'.
Qed.

Lemma inv_take h nx ts ps hd P l ls : inv (St h nx ts ps hd P) l ls → inv (St 0 nx ts (h :: ps) hd P) [] (l :: ls).
Proof. intros [H1 H2 Hp H0]. simpl in *. split; simpl; [done|by constructor| |done]. by rewrite Hp app_assoc. Qed.

Lemma inv_cut h nx ts ps ps' x hd P l0 ls k p k' q :
  inv (St h nx ts (ps ++ x :: ps') hd P) l0 ls → links nx x (k ++ p :: k') → nx !! p = Some q →
  ∃ ls', inv (St h (<[p := 0]> nx) ts (ps ++ x :: q :: ps') hd P) l0 ls'.
Proof.
  intros Hinv Hk Hq. pose proof (ch_nodup _ _ _ Hinv) as Hnd. destruct Hinv as [H1 H2 Hp H0]. simpl in *.
  apply Forall2_app_inv_l in H2 as (ls1 & ls2' & Hf1 & Hf2 & ->).
  apply Forall2_cons_inv_l in Hf2 as (m & ls2 & Hm & Hf2 & ->).
  rewrite (links_unique _ _ _ _ Hm Hk) concat_app /= in Hp Hnd.
  assert (NoDup (k ++ p :: k')) as Hnk.
  { apply NoDup_app in Hnd as (_ & _ & Hnd). apply NoDup_app in Hnd as (Hnd & _).
    apply NoDup_app in Hnd as (_ & _ & Hnd). by apply NoDup_app in Hnd as (Hnd & _). }
  assert ((p ∉ l0) ∧ (p ∉ concat ls1) ∧ (p ∉ concat ls2)) as (Hn0 & Hn1 & Hn2).
  { assert (l0 ++ (concat ls1 ++ (k ++ p :: k') ++ concat ls2) ++ hd ++ pushed ts ≡ₚ
      p :: l0 ++ concat ls1 ++ k ++ k' ++ concat ls2 ++ hd ++ pushed ts) as E by solve_Permutation.
    rewrite E in Hnd. apply NoDup_cons in Hnd as [Hn _]. rewrite !elem_of_app in Hn. tauto. }
  destruct (links_cut _ _ _ _ _ _ Hnk Hk Hq) as [Hl1 Hl2].
  exists (ls1 ++ (k ++ [p]) :: k' :: ls2). split; simpl; [by apply links_write| | |done].
  - apply Forall2_app; [by apply lists_write|]. constructor; [done|]. constructor; [done|by apply lists_write].
  - rewrite Hp concat_app /=. solve_Permutation.
Qed.

Lemma inv_walk h nx ts ps ps' p q hd P l ls :
  inv (St h nx ts (ps ++ p :: ps') hd P) l ls → p ≠ 0 → nx !! p = Some q →
  ∃ ls', inv (St h nx ts (ps ++ q :: ps') (p :: hd) P) l ls'.
Proof.
  intros [H1 H2 Hp H0] Hne Hq. simpl in *. apply Forall2_app_inv_l in H2 as (ls1 & ls2' & Hf1 & Hf2 & ->).
  apply Forall2_cons_inv_l in Hf2 as ([|p' m] & ls2 & Hm & Hf2 & ->); simpl in Hm; [done|].
  destruct Hm as (<- & _ & q' & Hq' & Hm). simplify_eq. exists (ls1 ++ m :: ls2).
  split; simpl; [done|by apply Forall2_app; [|constructor]| |done]. rewrite Hp !concat_app /=. solve_Permutation.
Qed.

Lemma inv_drop h nx ts ps hd hd' P p l ls :
  inv (St h nx ts ps (hd ++ p :: hd') P) l ls → inv (St h nx ts ps (hd ++ hd') (P ∖ {[p]})) l ls.
Proof.
  intros [H1 H2 Hp H0]. simpl in *. split; simpl; [done|done| |set_solver].
  assert (p ∈ P) as Hin. { apply elem_of_elements. rewrite Hp !elem_of_app elem_of_cons. tauto. }
  apply (Permutation_cons_inv (a := p)). rewrite -elements_union_singleton; [|set_solver].
  rewrite -union_difference_singleton_L // Hp. solve_Permutation.
Qed.

Lemma chain_inv_step s s' l ls : inv s l ls → step s s' → ∃ l' ls', inv s' l' ls'.
Proof.
  intros Hinv Hs. pose proof Hinv as [H1 H2 Hp H0].
  destruct Hs as [h nx ts ps hd P i p Hi Hne HnP|h nx ts ps hd hd' P i p Hi|h nx ts ps hd P i p v Hi|
    h nx ts ps hd P i p Hi Hnx|h nx ts ps hd P i p Hi| |h nx ts ps ps' x hd P k p k' q Hk Hq|
    h nx ts ps ps' p q hd P Hne Hq|]; simpl in *.
  - destruct (pushed_insert ts i _ (Load p) Hi) as (r & Hr & Hr'). exists l, ls. split; simpl; [done|done| |set_solver].
    rewrite elements_union_singleton // Hp Hr Hr' /=. solve_Permutation.
  - destruct (pushed_insert ts i _ (Load p) Hi) as (r & Hr & Hr'). exists l, ls. split; simpl; [done|done| |done].
    rewrite Hp Hr Hr' /=. solve_Permutation.
  - exists l, ls. by eapply inv_push_write.
  - destruct (pushed_insert ts i _ Idle Hi) as (r & Hr & Hr'). exists (p :: l), ls.
    destruct (ch_apart _ _ _ p Hinv) as (_ & _ & Hp0); [apply elem_of_app; right; by eapply pushed_elem|].
    split; simpl; [by eauto|done| |done]. rewrite Hp Hr Hr' /=. solve_Permutation.
  - exists l, ls. rewrite -(list_insert_id ts i (Cas p) Hi). by eapply inv_push_write.
  - exists [], (l :: ls). by apply inv_take.
  - exists l. by eapply inv_cut.
  - exists l. by eapply inv_walk.
  - exists l, ls. by apply inv_drop.
Qed.

Lemma chain_inv_reachable n s : reachable n s → ∃ l ls, inv s l ls.
Proof.
  intros Hr. assert (∃ l ls, inv (init n) l ls) as Hi.
  { exists [], []. split; simpl; [done|constructor| |set_solver]. rewrite elements_empty.
    clear Hr. induction n as [|n IH]; [done|]. exact IH. }
  revert Hi. induction Hr as [|a b c Hs _ IH]; [done|]. intros (l & ls & Hl). apply IH. by eapply chain_inv_step.
Qed.

(** C39: no page is lost.  In every interleaving of threads and workers that push with collectors that take the chain,
    cut it and walk the lists, every page that has been added and not been given back to the chunk is in
    exactly one place: in the chain that starts at [m_all_page_list], in one of the lists that start at what the
    exchanges returned, in the hands of a worker, or being pushed by a thread; and all these lists are well linked. *)
Theorem chain_lossless n s (Hr : reachable n s) :
  ∃ l ls, links (next_page s) (all_page_list s) l ∧ Forall2 (links (next_page s)) (lists s) ls ∧
    elements (pages s) ≡ₚ l ++ concat ls ++ held s ++ pushed (pcs s) ∧
    NoDup (l ++ concat ls ++ held s ++ pushed (pcs s)).
Proof.
  destruct (chain_inv_reachable n s Hr) as (l & ls & Hinv). exists l, ls.
  pose proof (ch_nodup _ _ _ Hinv). by destruct Hinv.
Qed.

(** ** Witness *)

(** The collector has taken page 32768 while a thread pushes page 65536. *)
Definition taken : st := St 65536 (<[65536 := 0]> {[32768 := 0]}) [Idle] [32768] [] {[65536; 32768]}.

Lemma reach_taken : reachable 1 taken.
Proof.
  eapply rtc_l; [by apply (push_new _ _ _ _ _ _ 0 32768)|]. eapply rtc_l; [by apply (push_load _ _ _ _ _ _ 0 32768 0)|].
  eapply rtc_l; [by apply (push_cas_ok _ _ _ _ _ _ 0 32768)|]. eapply rtc_l; [apply (push_new _ _ _ _ _ _ 0 65536); set_solver|].
  eapply rtc_l; [by apply (push_load _ _ _ _ _ _ 0 65536 32768)|]. eapply rtc_l; [apply take_all|].
  eapply rtc_l; [by apply (push_cas_fail _ _ _ _ _ _ 0 65536)|]. eapply rtc_l; [by apply (push_cas_ok _ _ _ _ _ _ 0 65536)|].
  match goal with |- rtc _ ?a _ => change a with taken end. apply rtc_refl.
Qed.

Lemma chain_lossless_witness : ∃ l ls, links (next_page taken) 65536 l ∧
  elements (pages taken) ≡ₚ l ++ concat ls ++ [] ++ [] ∧ NoDup (l ++ concat ls ++ [] ++ []).
Proof.
  destruct (chain_lossless 1 taken reach_taken) as (l & ls & H1 & _ & H3 & H4). exists l, ls.
  split; [exact H1|]. split; [exact H3|exact H4].
Defined.
End Chain.
