(* ===== verification/LocalWork.v ===== *)
(** * The local work of a worker: [src/src/woomem_gc.cpp] (lines 155-175, 363-406, 534-599)

    [m_local_work] is a plain vector that the worker uses without a lock while it drains, and that
    other threads push to under a spin lock: in [mark_unit_to_gray] when the gray queue is full and the worker
    does not drain, and in [mark_root_unit_to_gray] without asking whether it drains.  One worker, the main thread of the
    collector and any number of threads, one access to a shared variable per step; the gray queue is a
    bounded queue whose insertion may fail.  Roots are marked before the workers are launched: the main thread
    marks the registered ones before it launches them, and those of the program belong in its callback at the begin of
    a collection (step 2 of [main_thread_job]).  The interface does not enforce this; [late_root_races] shows what a later
    call leads to. *)

From S2P Require Import Prelude Mark.
Open Scope Z_scope.

Module LocalWork.

(** A thread in [mark_unit_to_gray] after it has claimed the unit; [ETest2] and [EPush] hold the spin lock.  Or in
    [mark_root_unit_to_gray]. *)
Inductive epc :=
| EIdle
| EEnq (u : Z)       (* at [try_enqueue] *)
| ETest1 (u : Z)     (* at the first test of [m_is_draining] *)
| ELock (u : Z)
| ETest2 (u : Z)
| EPush (u : Z)
| RLock (u : Z)      (* in [mark_root_unit_to_gray], at the spin lock *)
| RPush (u : Z).     (* holds the spin lock *)

(** The worker in [process_gray_units].  [WSet] holds the spin lock. *)
Inductive wpc :=
| WOff
| WSpin
| WSet
| WLoop              (* at the first test of [m_local_work] *)
| WDrain
| WTest
| WScan (u : Z)
| WStop
| WDone.             (* at [worker_done_and_notify_main_gc_thread] *)

(** Threads that mark a root. *)
Definition marks_root (e : epc) : bool := match e with RLock _ | RPush _ => true | _ => false end.

Record st := St {
  launched : bool;        (* the main thread is in [launch_worker_and_wait_until_done] *)
  spin : bool;            (* [m_local_work_spin_for_root] *)
  draining : bool;        (* [m_is_draining] *)
  queue : list Z;         (* [m_gray_queue] *)
  local : list Z;         (* [m_local_work], its back first *)
  worker : wpc;
  threads : list epc;
  given : list Z;         (* units that threads have handed over and the worker has found *)
  scanned : list Z;       (* units the worker has scanned *)
}.

Inductive step : st → st → Prop :=
(* a thread *)
| mark_start b x dr q l w ts g sc i u : ts !! i = Some EIdle →
    step (St b x dr q l w ts g sc) (St b x dr q l w (<[i := EEnq u]> ts) g sc)
| enqueue_ok b x dr q l w ts g sc i u : ts !! i = Some (EEnq u) → Z.of_nat (length q) < GRAY_QUEUE_CAPACITY →
    step (St b x dr q l w ts g sc) (St b x dr (q ++ [u]) l w (<[i := EIdle]> ts) (u :: g) sc)
| enqueue_fail b x dr q l w ts g sc i u : ts !! i = Some (EEnq u) →
    step (St b x dr q l w ts g sc) (St b x dr q l w (<[i := ETest1 u]> ts) g sc)
| test1_draining b x q l w ts g sc i u : ts !! i = Some (ETest1 u) →
    step (St b x true q l w ts g sc) (St b x true q l w (<[i := EEnq u]> ts) g sc)
| test1_idle b x q l w ts g sc i u : ts !! i = Some (ETest1 u) →
    step (St b x false q l w ts g sc) (St b x false q l w (<[i := ELock u]> ts) g sc)
| thread_lock b dr q l w ts g sc i u : ts !! i = Some (ELock u) →
    step (St b false dr q l w ts g sc) (St b true dr q l w (<[i := ETest2 u]> ts) g sc)
| test2_draining b x q l w ts g sc i u : ts !! i = Some (ETest2 u) →
    step (St b x true q l w ts g sc) (St b false true q l w (<[i := EEnq u]> ts) g sc)
| test2_idle b x q l w ts g sc i u : ts !! i = Some (ETest2 u) →
    step (St b x false q l w ts g sc) (St b x false q l w (<[i := EPush u]> ts) g sc)
| thread_push b x dr q l w ts g sc i u : ts !! i = Some (EPush u) →
    step (St b x dr q l w ts g sc) (St b false dr q (u :: l) w (<[i := EIdle]> ts) (u :: g) sc)
(* a thread that marks a root, or the main thread, which goes through the set of registered ones *)
| root_start x dr q l w ts g sc i u : ts !! i = Some EIdle →
    step (St false x dr q l w ts g sc) (St false x dr q l w (<[i := RLock u]> ts) g sc)
| root_lock b dr q l w ts g sc i u : ts !! i = Some (RLock u) →
    step (St b false dr q l w ts g sc) (St b true dr q l w (<[i := RPush u]> ts) g sc)
| root_push b x dr q l w ts g sc i u : ts !! i = Some (RPush u) →
    step (St b x dr q l w ts g sc) (St b false dr q (u :: l) w (<[i := EIdle]> ts) (u :: g) sc)
(* the worker *)
| work_start x dr q l ts g sc : step (St true x dr q l WOff ts g sc) (St true x dr q l WSpin ts g sc)
| work_lock b dr q l ts g sc : step (St b false dr q l WSpin ts g sc) (St b true dr q l WSet ts g sc)
| work_set b x dr q l ts g sc : step (St b x dr q l WSet ts g sc) (St b false true q l WLoop ts g sc)
| work_pop b x dr q l ts g sc u w : w = WLoop ∨ w = WTest →
    step (St b x dr q (u :: l) w ts g sc) (St b x dr q l (WScan u) ts g sc)
| work_empty b x dr q ts g sc : step (St b x dr q [] WLoop ts g sc) (St b x dr q [] WDrain ts g sc)
| work_drain b x dr q q' l ts g sc :
    step (St b x dr (q ++ q') l WDrain ts g sc) (St b x dr q' (rev q ++ l) WTest ts g sc)
| work_scan b x dr q l ts g sc u found :
    step (St b x dr q l (WScan u) ts g sc) (St b x dr q (found ++ l) WLoop ts (found ++ g) (u :: sc))
| work_end b x dr q ts g sc : step (St b x dr q [] WTest ts g sc) (St b x dr q [] WStop ts g sc)
| work_stop b x dr q l ts g sc : step (St b x dr q l WStop ts g sc) (St b x false q l WDone ts g sc)
(* the main thread: [launch_worker_and_wait_until_done] begins, when the roots have been marked, and returns *)
| launch x dr q l ts g sc : (∀ i e, ts !! i = Some e → marks_root e = false) →
    step (St false x dr q l WOff ts g sc) (St true x dr q l WOff ts g sc)
| phase_end x dr q l ts g sc : step (St true x dr q l WDone ts g sc) (St false x dr q l WOff ts g sc).

Definition init (n : nat) : st := St false false false [] [] WOff (replicate n EIdle) [] [].
Definition reachable (n : nat) : st → Prop := rtc step (init n).

(** ** The invariant *)

Definition thread_holds (e : epc) : bool := match e with ETest2 _ | EPush _ | RPush _ => true | _ => false end.
Definition worker_holds (w : wpc) : bool := match w with WSet => true | _ => false end.
(** The points at which [m_local_work] is used. *)
Definition thread_uses (e : epc) : bool := match e with EPush _ | RPush _ => true | _ => false end.
Definition worker_uses (w : wpc) : bool :=
  match w with WLoop | WDrain | WTest | WScan _ => true | _ => false end.
(** The worker is between its two stores to [m_is_draining]. *)
Definition worker_drains (w : wpc) : bool := worker_uses w || match w with WStop => true | _ => false end.
Definition in_hand (w : wpc) : list Z := match w with WScan u => [u] | _ => [] end.

Record inv (s : st) : Prop := {
  lw_spin : count_if thread_holds (threads s) + Z.b2z (worker_holds (worker s)) = Z.b2z (spin s);
  lw_drains : draining s = worker_drains (worker s);
  lw_push : 0 < count_if thread_uses (threads s) → draining s = false;
  lw_root : ∀ i e, threads s !! i = Some e → marks_root e = true → launched s = false;
  lw_off : launched s = false → worker s = WOff;
  lw_given : given s ≡ₚ scanned s ++ in_hand (worker s) ++ local s ++ queue s;
}.

Lemma local_inv_threads b x x' dr q q' l l' w ts g g' sc i e e' :
  inv (St b x dr q l w ts g sc) → ts !! i = Some e → (marks_root e' = true → marks_root e = true ∨ b = false) →
  Z.b2z x' = Z.b2z x - Z.b2z (thread_holds e) + Z.b2z (thread_holds e') →
  (thread_uses e' = true → dr = false) → g' ≡ₚ sc ++ in_hand w ++ l' ++ q' →
  inv (St b x' dr q' l' w (<[i := e']> ts) g' sc).
Proof.
  intros [Hx Hd Hp Hr Ho Hg] Hi He Hx' Hu Hg'. split; simpl in *; [|done| | |done|done].
  - rewrite (count_if_insert _ _ _ _ _ Hi). lia.
  - intros Hc. destruct (thread_uses e') eqn:E; [auto|]. apply Hp.
    rewrite (count_if_insert _ _ _ _ _ Hi) E in Hc. destruct (thread_uses e); simpl in Hc; lia.
  - intros j e0 [(<- & <- & _)|[_ Hj]]%list_lookup_insert_Some; [|by apply (Hr j)].
    intros [Hm|?]%He; [by apply (Hr i e)|done].
Qed.

Lemma local_inv_worker b x x' dr dr' q q' l l' w w' ts g g' sc sc' :
  inv (St b x dr q l w ts g sc) → b = true →
  Z.b2z x' = Z.b2z x - Z.b2z (worker_holds w) + Z.b2z (worker_holds w') → dr' = worker_drains w' →
  (0 < count_if thread_uses ts → dr = false → dr' = false) →
  g' ≡ₚ sc' ++ in_hand w' ++ l' ++ q' → inv (St b x' dr' q' l' w' ts g' sc').
Proof.
  intros [Hx Hd Hp Hr Ho Hg] -> Hx' Hd' Hu Hg'. split; simpl in *; auto; [lia|done].
Qed.

(** The worker runs only in a phase. *)
Lemma runs_launched s : inv s → worker s ≠ WOff → launched s = true.
Proof. intros Hinv Hw. destruct (launched s) eqn:E; [done|]. by destruct Hw, (lw_off _ Hinv). Qed.

(** A thread that pushes holds the lock. *)
Lemma uses_holds ts : count_if thread_holds ts = 0 → count_if thread_uses ts = 0.
Proof.
  intros H0. apply count_if_none. intros i e Hi. pose proof (count_if_zero _ _ _ _ H0 Hi). by destruct e.
Qed.

(** The lock is held at the points that hold it. *)
Lemma held_thread s i e : inv s → threads s !! i = Some e → thread_holds e = true →
  spin s = true ∧ worker_holds (worker s) = false.
Proof.
  intros [Hx _ _ _ _ _] Hi He. pose proof (count_if_pos _ _ _ _ Hi He).
  destruct (spin s), (worker_holds (worker s)); simpl in Hx; try done; lia.
Qed.

Lemma held_worker s : inv s → worker_holds (worker s) = true →
  spin s = true ∧ count_if thread_holds (threads s) = 0.
Proof.
  intros [Hx _ _ _ _ _] Hw. pose proof (count_if_bounds thread_holds (threads s)). rewrite Hw in Hx.
  destruct (spin s); simpl in Hx; [split; [done|lia]|lia].
Qed.

Lemma local_inv_step s s' : inv s → step s s' → inv s'.
Proof.
  intros Hinv Hs. pose proof (lw_given _ Hinv) as Hg. pose proof (lw_drains _ Hinv) as Hd.
  destruct Hs as [??????????? Hi|??????????? Hi|??????????? Hi|?????????? Hi|?????????? Hi|?????????? Hi|?????????? Hi|
    ?????????? Hi|??????????? Hi|?????????? Hi|?????????? Hi|??????????? Hi|
    | | |???????? u w [Hw|Hw]| | | | | |??????? Hroot|]; simpl in *;
    try (pose proof (held_thread _ _ _ Hinv Hi eq_refl) as [Hsp _]; simpl in Hsp; subst x);
    try (assert (b = true) as -> by (apply (runs_launched _ Hinv); simpl; congruence)).
  all: try (eapply local_inv_threads; [exact Hinv|exact Hi|by auto|simpl; lia|done|]).
  all: try (eapply local_inv_worker; [exact Hinv|done|simpl; lia|done|by destruct dr|]).
  all: subst; simpl in *; try (rewrite Hg; solve_Permutation).
  - pose proof (lw_root _ Hinv _ _ Hi eq_refl) as Hb. pose proof (lw_off _ Hinv Hb) as Hw. simpl in *. subst.
    eapply local_inv_threads; [exact Hinv|exact Hi|by auto|simpl; lia|done|by rewrite Hg].
  - destruct (held_worker _ Hinv eq_refl) as [Hsp H0]. simpl in *. subst x.
    eapply local_inv_worker; [exact Hinv|done|done|done| |by rewrite Hg].
    intros Hu. by rewrite (uses_holds _ H0) in Hu.
  - eapply local_inv_worker; [exact Hinv|done|simpl; lia|done|done|]. rewrite Hg. simpl. solve_Permutation.
  - eapply local_inv_worker; [exact Hinv|done|simpl; lia|done|done|]. rewrite Hg. simpl. solve_Permutation.
  - rewrite Hg {1}(Permutation_rev q). solve_Permutation.
  - destruct Hinv as [Hx _ Hp _ _ _]. split; simpl in *; try done.
    intros i e Hi He. by rewrite (Hroot i e Hi) in He.
  - destruct Hinv as [Hx _ Hp Hr _ _]. by split.
Qed.

Lemma local_inv_reachable n s : reachable n s → inv s.
Proof.
  intros Hr. assert (inv (init n)) as Hi.
  { split; simpl; rewrite ?count_if_replicate //. }
  revert Hi. induction Hr; eauto using local_inv_step.
Qed.

(** ** Properties *)

(** C35: the local work is never used by two threads at once, and no unit is lost or scanned twice, as long as
    roots are marked while the workers are not launched.  In every reachable state, if a thread is pushing to the vector, from
    [mark_unit_to_gray] or from [mark_root_unit_to_gray], then the worker is not using it and no other
    thread is pushing; and the units handed over or found are those scanned, being scanned, in the
    vector or in the queue, with the same multiplicities. *)
Theorem local_work_safe n s (Hs : reachable n s) :
  (∀ i e, threads s !! i = Some e → thread_uses e = true → worker_uses (worker s) = false ∧
     ∀ j e', threads s !! j = Some e' → thread_uses e' = true → i = j) ∧
  given s ≡ₚ scanned s ++ in_hand (worker s) ++ local s ++ queue s.
Proof.
  pose proof (local_inv_reachable n s Hs) as Hinv. split; [|apply (lw_given _ Hinv)].
  assert (∀ e, thread_uses e = true → thread_holds e = true) as Huh by (by intros []).
  intros i e Hi He. pose proof (lw_push _ Hinv) as Hp. pose proof (lw_drains _ Hinv) as Hd. split.
  - pose proof (count_if_pos thread_uses _ _ _ Hi He). rewrite Hp in Hd; [|lia].
    rewrite /worker_drains in Hd. by destruct (worker_uses (worker s)).
  - intros j e' Hj He'. destruct (held_thread _ _ _ Hinv Hi (Huh _ He)) as [Hsp Hw].
    pose proof (lw_spin _ Hinv) as Hx. rewrite Hsp Hw /= in Hx.
    eapply (count_if_unique thread_holds); [|exact Hi|exact Hj|by apply Huh|by apply Huh]. lia.
Qed.

(** A root that is marked while the workers run. *)
Inductive late_step : st → st → Prop :=
| in_time s s' : step s s' → late_step s s'
| late_root b x dr q l w ts g sc i u : ts !! i = Some EIdle →
    late_step (St b x dr q l w ts g sc) (St b x dr q l w (<[i := RLock u]> ts) g sc).

(** The spin lock does not protect against it: a thread pushes while the worker uses the vector. *)
Theorem late_root_races : ∃ s, rtc late_step (init 1) s ∧ threads s !! 0%nat = Some (RPush 64) ∧ worker s = WLoop.
Proof.
  eexists. split.
  - eapply rtc_l; [apply in_time, launch; by intros [|[|i]] e [= <-]|].
    eapply rtc_l; [apply in_time, work_start|]. eapply rtc_l; [apply in_time, work_lock|].
    eapply rtc_l; [apply in_time, work_set|]. eapply rtc_l; [by apply (late_root _ _ _ _ _ _ _ _ _ 0 64)|].
    eapply rtc_l; [by apply in_time, (root_lock _ _ _ _ _ _ _ _ 0 64)|]. apply rtc_refl.
  - split; reflexivity.
Qed.

(** Marking does not wait for a worker that has not started.  While the worker is off and nobody holds the spin lock, a thread that
    is about to enqueue hands its unit over by its own steps alone, even if the queue is full. *)
Theorem hand_over_completes n s i u (Hs : reachable n s) (Hw : worker s = WOff) (Hx : spin s = false)
    (Hi : threads s !! i = Some (EEnq u)) :
  ∃ s', rtc step s s' ∧ threads s' = <[i := EIdle]> (threads s) ∧ given s' = u :: given s ∧
    worker s' = WOff ∧ spin s' = false ∧ queue s' = queue s ∧ local s' = u :: local s.
Proof.
  pose proof (lw_drains _ (local_inv_reachable n s Hs)) as Hd. destruct s as [b x dr q l w ts g sc].
  simpl in *. subst. simpl in *.
  pose proof (lookup_lt_Some _ _ _ Hi) as Hl.
  eexists. split.
  - eapply rtc_l; [by apply (enqueue_fail _ _ _ _ _ _ _ _ _ i u)|].
    eapply rtc_l; [apply (test1_idle _ _ _ _ _ _ _ _ i u); by rewrite list_lookup_insert_eq // ?length_insert|].
    eapply rtc_l; [apply (thread_lock _ _ _ _ _ _ _ _ i u); by rewrite list_lookup_insert_eq // ?length_insert|].
    eapply rtc_l; [apply (test2_idle _ _ _ _ _ _ _ _ i u); by rewrite list_lookup_insert_eq // ?length_insert|].
    eapply rtc_l; [apply (thread_push _ _ _ _ _ _ _ _ _ i u); by rewrite list_lookup_insert_eq // ?length_insert|]. apply rtc_refl.
  - simpl. by rewrite !list_insert_insert_eq.
Qed.

(** ** Witnesses *)

Definition marking1 : st := St false false false [] [] WOff [EEnq 64] [] [].

Lemma reach_marking1 : reachable 1 marking1.
Proof. eapply rtc_l; [by apply (mark_start _ _ _ _ _ _ _ _ _ 0 64)|apply rtc_refl]. Qed.

Lemma hand_over_completes_witness : ∃ s', rtc step marking1 s' ∧ local s' = [64].
Proof.
  destruct (hand_over_completes 1 marking1 0 64 reach_marking1 eq_refl eq_refl eq_refl)
    as (s' & Hr & _ & _ & _ & _ & _ & Hl). exists s'. split; [exact Hr|exact Hl].
Defined.

(** Two threads: the first has marked a root (72); while the second, whose queue seemed full, pushes a unit (64), the first
    has found another one, which is in the queue (80), and waits for the lock with a fourth. *)
Definition pushing : st :=
  St false true false [80] [72] WOff [ELock 88; EPush 64] [80; 72] [].

Lemma reach_pushing : reachable 2 pushing.
Proof.
  eapply rtc_l; [by apply (root_start _ _ _ _ _ _ _ _ 0 72)|]. eapply rtc_l; [by apply (root_lock _ _ _ _ _ _ _ _ 0 72)|].
  eapply rtc_l; [by apply (root_push _ _ _ _ _ _ _ _ _ 0 72)|]. eapply rtc_l; [by apply (mark_start _ _ _ _ _ _ _ _ _ 0 80)|].
  eapply rtc_l; [by apply (enqueue_ok _ _ _ _ _ _ _ _ _ 0 80)|]. eapply rtc_l; [by apply (mark_start _ _ _ _ _ _ _ _ _ 1 64)|].
  eapply rtc_l; [by apply (enqueue_fail _ _ _ _ _ _ _ _ _ 1 64)|]. eapply rtc_l; [by apply (test1_idle _ _ _ _ _ _ _ _ 1 64)|].
  eapply rtc_l; [by apply (thread_lock _ _ _ _ _ _ _ _ 1 64)|]. eapply rtc_l; [by apply (test2_idle _ _ _ _ _ _ _ _ 1 64)|].
  eapply rtc_l; [by apply (mark_start _ _ _ _ _ _ _ _ _ 0 88)|]. eapply rtc_l; [by apply (enqueue_fail _ _ _ _ _ _ _ _ _ 0 88)|].
  eapply rtc_l; [by apply (test1_idle _ _ _ _ _ _ _ _ 0 88)|]. apply rtc_refl.
Qed.

Lemma local_work_safe_witness : threads pushing !! 1%nat = Some (EPush 64) ∧ worker_uses (worker pushing) = false ∧
  (∀ j e, threads pushing !! j = Some e → thread_uses e = true → 1%nat = j) ∧ [80; 72] ≡ₚ local pushing ++ queue pushing.
Proof.
  split; [reflexivity|]. destruct (local_work_safe 2 pushing reach_pushing) as [Huse Hgiven].
  destruct (Huse 1%nat (EPush 64) eq_refl eq_refl) as [Hw Hu]. split; [exact Hw|]. split; [exact Hu|exact Hgiven].
Defined.
End LocalWork.
